(* ===== verification/_CoqProject ===== *)
-Q . S2P
Prelude.v
Text.v
Net.v
Memo.v
Regex.v
Snowflake.v
Discovery.v
Watch.v
Etcd.v
LoadBalance.v
CircuitBreaker.v
BreakerSteps.v
RateLimit.v
RedisLimit.v
ActiveLimit.v
CacheMemory.v
RedisCache.v
Calendar.v
Cron.v
DelayQueue.v
QueueLife.v
MemoryMQ.v
Broker.v
Rabbit.v
Kafka.v
MapReduce.v
Results.v
Validator.v
LogFile.v
LogWriter.v
Config.v
Query.v
Transact.v
Database.v
Lock.v
Jwt.v
Web.v
Session.v
RedisSession.v
SessionSpec.v
SessionStores.v
SessionDefault.v
Auth.v
Trace.v
Http.v
Grpc.v
Guards.v
Csrf.v
Timeout.v
Exchange.v
LogSetup.v
LogProducers.v
Pipeline.v
AccessLog.v
Metrics.v
Health.v
Otel.v
Stack.v
Swagger.v
Server.v
EventStream.v
