(* ===== verification/Prelude.v ===== *)
(** * gint: a verification library for the gint service framework

    gint (src/) is a Go framework of independent packages around the gin HTTP
    engine: identifiers, caches, service discovery and load balancing,
    resilience and observing middleware, schedulers, queues, clients and
    helpers.  This development models the packages as executable definitions and
    proves what each promises.  A package keeps its state in a record or a heap
    of records; a method is a function from the state (and the clock, a source
    of order or of randomness where it uses one) to its results and the new
    state; an error is a value of [res] or [option]; goroutines are threads of
    a step relation or step function that a schedule interleaves.

    ** Files

    Shared:

    - [Prelude]: machine integers at their width ([i64], [i32], [u64]), time as
      nanoseconds with Go's saturating difference, fallible results, the order
      of [range] over a map as a class ([RangeOrder]), runs of step functions
      with their invariants ([run_steps]), sums and counts.
    - [Text]: functions of Go's strings package that several parts use, with
      their laws; [Net]: addresses and networks of the package net; [Memo]: a
      table filled under a double-checked lock, shared by [Regex]
      (internal/regex/cache.go) and the transports of [Http].

    Discovery and resilience:

    - [Snowflake] (snowflake/snowflake.go): ids strictly increase and never
      collide between nodes, generation progresses, text round-trips.
    - [Discovery], [Watch] (discovery/types.go): the in-memory registry over a
      heap of the instances callers keep pointers to, its watches and the
      interface of the registries; [Etcd] (discovery/etcd/etcd.go): the registry
      whose instances live in etcd under leases.  A registration that is kept
      alive stays, one that is withdrawn does not come back, and a watch delivers
      true snapshots in order.
    - [LoadBalance] (loadbalance/loadbalance.go): the strategies behind one
      class, on the instances [Discovery] returns.  Weighted rounds give exact
      shares, consistent hashing moves only the keys of a removed instance.
    - [CircuitBreaker], [BreakerSteps] (middlewares/circuitbreaker): the
      breaker by whole calls, its keyed middleware and HTTP wrapper; then each
      call as the program of its atomic accesses, which admits exactly the
      half-open limit of any concurrent burst.
    - [RateLimit], [RedisLimit], [ActiveLimit] (middlewares/ratelimit,
      activelimit): the window limiters against logs of requests, in memory and
      over Redis with its rounded numbers, and the shared active counter.
    - [Timeout] (middlewares/timeout): handlers that go on after the deadline.

    Data and scheduling:

    - [CacheMemory] (cache/memory/cache.go, cache/types.go), [RedisCache]
      (cache/redis/cache.go): both implement the class [CacheOk] of maps with
      deadlines; capacity; the typed cache over any backend.
    - [Config] (config/config.go): sources merged in order, dotted paths, the
      environment as nested maps.
    - [Query], [Transact], [Database] (db/db.go, sqlxutil): the statement
      builders, whose placeholders and arguments correspond; transactions around
      callbacks that run statements, fail, panic or end their goroutine; rows;
      the handle and its pool.
    - [Lock] (lock/): lockers of several processes over one Redis, one step per
      command; no call of another locker takes a lock from its holder.
    - [Calendar], [Cron] (cron/cron.go): civil time as far as the schedules use
      it; [CronSchedule.Next] is the least matching instant, jobs never overlap
      themselves.  [DelayQueue], [QueueLife] (delayqueue/delayqueue.go):
      memory and Redis queues, and starting and stopping them.  [MapReduce]
      (mr/mr.go): the concurrent helpers, which terminate.

    Queues:

    - [MemoryMQ] (mq/mq.go, mq/memory/memory.go): broker, producers, polling
      consumers over a heap; each consumer gets each message exactly once.
    - [Broker], [Rabbit], [Kafka] (mq/mq.go, mq/rabbitmq, mq/kafka): the hand-over
      from an outside broker to a consumer's channel, and the two queues as
      commands to their client libraries, whose outcomes are any.

    Requests:

    - [Results] (code.go, error.go, types.go, wrapper.go), [Validator]
      (validator.go): responses of the handler wrappers, pagination, rules.
    - [Jwt] (jwt/), [Web], [EventStream] (gctx/context.go), [Session]
      (session/types.go, cookie, header, memory), [RedisSession] (session/redis),
      [SessionDefault] (session/types.go), [Auth] (middlewares/auth): tokens, the request as handlers see it, streams
      of events, sessions behind the class of token carriers, who passes as whom.
      [SessionSpec] (the interface of session/types.go) states the laws of a session
      store and what follows from them for its clients; [SessionStores] proves them
      of both providers, so that every run of either is one of an abstract table.
    - [Trace] (middlewares/trace), [Http] (ghttp/), [Grpc] (requestctx/,
      grpcclient/, grpclog/): the identity a service passes on over HTTP and gRPC,
      and the two clients with their retries and options.
    - [Guards] (middlewares/ipfilter, adminauth, cors, bodylimit), [Csrf]
      (middlewares/csrf): which requests pass each guard.
    - [Exchange], [AccessLog], [Metrics], [Health], [Otel] (the middlewares of
      these names): a request under observation, with handlers as programs, and
      that the observers see it whole and leave it as it is; [Stack] puts tracing,
      metrics and access log on top of each other, whose accounts agree.
    - [Swagger] (swagger/swagger.go): schemas of types describe the values that
      are sent, and every route is documented.  [Server] (server/server.go):
      running, shutting down in time, hooks.

    Logging:

    - [LogFile] (logger/logger.go, the rotator), [LogWriter] (mq_writer.go,
      mq_adapter.go, the log calls), [LogSetup] (logger.go, config.go),
      [LogProducers] (mq_producers.go, kafka_producer_*.go): files that rotate
      without losing a byte, the buffered writer and its accounts, the outputs a
      message reaches, and what the producers make of the messages.  [Pipeline]
      puts the last three together: from a call of the log to the commands a broker gets.

    ** Granularity, bounds and fuel

    A method that holds a lock is one step.  Where the code uses atomics,
    channels or commands to another process without a lock, each access,
    channel operation or command is a step of its own ([BreakerSteps],
    [ActiveLimit], [MapReduce], [MemoryMQ], [Broker], [Lock], [Etcd], [Memo],
    [LogWriter], [Timeout], [EventStream], [Watch], [QueueLife], [Server], the
    memory sessions).  Integers wrap at the width of their Go type, and a theorem states
    the range in which it holds when that matters.  Recursion that is not
    structural takes fuel: the search of [sort_Search] (the number of entries),
    the cron search (its theorem holds for any fuel above the seconds to some
    matching instant, and running out is the code's own bound), the digit loops
    (20 digits hold every int64), splitting and decoding text (its length), the
    scan of [RedisCache.Clear] (the pages the server answers with, a law of the
    class), schemas of types (the depth of the type; a type that contains itself
    exhausts any fuel, as the code recurses without end); theorems show the fuel
    to be enough or [None] to be the code's own failure.

    ** Parameters

    JSON codecs, regular expressions, hash functions and keyed hashes, the JWT
    library, random choice, the order of map iteration and of unstable sorts,
    user callbacks, files and the environment, the SQL driver, the exchange of
    an HTTP request, the wire of gRPC, zap's encoders, the tracing and metrics
    libraries, the client libraries of the brokers and of etcd, and Redis itself
    (the commands on keys, hashes, scans and sorted sets that the code sends) are
    arguments or type classes, with what is documented of them as hypotheses of
    the theorems that need it; the witnesses instantiate them.

    ** Not modelled

    The HTML pages of swagger, the metrics endpoint, the texts of log lines but
    where they are routed, and calls that only forward to a library (pinging and
    counting connections, the version constant) have no logic to model.  What
    gin, net/http, database/sql and the brokers do between the calls is theirs:
    a model starts and ends at the call. *)

From stdpp Require Export prelude gmap strings list sorting.
From Stdlib Require Export ZArith Lia Ascii.

Declare Scope gint_scope.
Delimit Scope gint_scope with gint.
#[global] Open Scope Z_scope.

(** ** Machine integers *)

(** [wrap w x] is the value of the [w]-bit two's complement word [x]. *)
Definition wrap (w x : Z) : Z := (x + 2 ^ (w - 1)) `mod` 2 ^ w - 2 ^ (w - 1).

(** Go's [int64] (and [int] on a 64-bit target), [int32], [uint64], [uint32]. *)
Definition i64 (x : Z) : Z := wrap 64 x.

Definition i32 (x : Z) : Z := wrap 32 x.

Definition u64 (x : Z) : Z := x `mod` 2 ^ 64.

Definition u32 (x : Z) : Z := x `mod` 2 ^ 32.

Definition in_i64 (x : Z) : Prop := - 2 ^ 63 ≤ x < 2 ^ 63.

Definition in_i32 (x : Z) : Prop := - 2 ^ 31 ≤ x < 2 ^ 31.

(** ** Time: instants and durations are counts of nanoseconds. *)

Abbreviation Time := Z (only parsing).

Abbreviation Duration := Z (only parsing).

Definition Microsecond : Duration := 1000.

Definition Millisecond : Duration := 1000000.

Definition Second : Duration := 1000000000.

Definition Minute : Duration := 60 * Second.

Definition Hour : Duration := 60 * Minute.

(** [Time.Sub] saturates at the bounds of [time.Duration]. *)
Definition time_sub (t u : Time) : Duration :=
  Z.max (- 2 ^ 63) (Z.min (2 ^ 63 - 1) (t - u)).

(** [Time.UnixNano] and [Time.UnixMilli] return an [int64]. *)
Definition UnixNano (t : Time) : Z := i64 t.

Definition UnixMilli (t : Time) : Z := i64 (t / Millisecond).

(** ** Fallible results: Go's [(value, error)] pairs with exactly one side used. *)
Inductive res (E A : Type) : Type :=
| Ok (a : A)
| Err (e : E).
Arguments Ok {E A} a.
Arguments Err {E A} e.

Definition res_bind {E A B} (m : res E A) (k : A → res E B) : res E B :=
  match m with Ok a => k a | Err e => Err e end.

Definition is_ok {E A} (m : res E A) : bool :=
  match m with Ok _ => true | Err _ => false end.

Notation "'let?' x ':=' m 'in' k" := (res_bind m (fun x => k))
  (at level 10, x name, m at level 100, k at level 200) : gint_scope.

#[global] Open Scope gint_scope.

(** The successful values of a list of results, in order. *)
Fixpoint oks {E A} (rs : list (res E A)) : list A :=
  match rs with
  | [] => []
  | Ok a :: rs => a :: oks rs
  | Err _ :: rs => oks rs
  end.

(** ** Map iteration: Go's [range] over a map visits its entries in an
    unspecified order, so an operation that ranges takes the order as an
    argument of this class. *)
Class RangeOrder := {
  range_map : ∀ {V : Type}, gmap string V → list (string * V);
  range_map_perm : ∀ (V : Type) (m : gmap string V), range_map m ≡ₚ map_to_list m
}.

Definition range_first_key_order : RangeOrder :=
  Build_RangeOrder (λ V m, map_to_list m) (λ V m, reflexivity _).

Definition range_last_key_order : RangeOrder :=
  Build_RangeOrder (λ V m, reverse (map_to_list m)) (λ V m, reverse_Permutation _).

(** ** Sums and counts over lists *)

Fixpoint sumZ {A} (f : A → Z) (l : list A) : Z :=
  match l with [] => 0 | a :: l => f a + sumZ f l end.

Definition countb {A} (p : A → bool) (l : list A) : Z :=
  sumZ (λ a, if p a then 1 else 0) l.

(** ** Schedules: runs of a step function over lists of events *)

Section Schedules.
Context {W Ev R : Type} (step : Ev → W → option (W * R)).

(** The world after the events, with the reply of each; [None] if one of them
    cannot happen where it stands. *)
Fixpoint run_steps (evs : list Ev) (w : W) : option (W * list R) :=
  match evs with
  | [] => Some (w, [])
  | e :: evs =>
      '(w, a) ← step e w;
      '(w, rs) ← run_steps evs w; Some (w, a :: rs)
  end.

(** Every event of the run, in the world it finds, satisfies [P]. *)
Fixpoint along (P : W → Ev → Prop) (evs : list Ev) (w : W) : Prop :=
  match evs with
  | [] => True
  | e :: evs => P w e ∧ match step e w with Some (w', _) => along P evs w' | None => True end
  end.

End Schedules.

(** ** Tactics *)

(** Destruct the records of the context so that projections compute. *)
Ltac simpl_all := repeat (simpl in *; simplify_eq).

(** Turn the boolean comparisons of [Z] into propositions, then [lia]: needed
    where the comparison holds a [Z.of_nat]. *)
Ltac zlia :=
  rewrite ?Z.leb_le, ?Z.leb_gt, ?Z.ltb_lt, ?Z.ltb_ge, ?Z.eqb_eq, ?Z.eqb_neq in *; lia.

(** Split every conditional of the goal and hypotheses, close by arithmetic. *)
Ltac cases_lia := repeat case_match; simplify_eq/=; try done; try lia.

(** Close goals on word-sized integers. *)
Ltac word := unfold in_i64, in_i32 in *; lia.

Create HintDb gint.

Create Rewrite HintDb gint.

(** ** Lemmas on machine integers *)

Lemma wrap_id w x : 0 < w → - 2 ^ (w - 1) ≤ x < 2 ^ (w - 1) → wrap w x = x.
Proof.
  intros Hw Hx. unfold wrap.
  assert (2 ^ w = 2 * 2 ^ (w - 1)) as E.
  { rewrite <- Z.pow_succ_r by lia. f_equal. lia. }
  rewrite Z.mod_small; lia.
Qed.

Lemma wrap_range w x : 0 < w → - 2 ^ (w - 1) ≤ wrap w x < 2 ^ (w - 1).
Proof.
  intros Hw. unfold wrap.
  assert (2 ^ w = 2 * 2 ^ (w - 1)) as E.
  { rewrite <- Z.pow_succ_r by lia. f_equal. lia. }
  pose proof (Z.mod_pos_bound (x + 2 ^ (w - 1)) (2 ^ w)). lia.
Qed.

Lemma i64_id x : in_i64 x → i64 x = x.
Proof. intros H. apply wrap_id; word. Qed.

Lemma i64_range x : in_i64 (i64 x).
Proof. pose proof (wrap_range 64 x). unfold in_i64, i64. lia. Qed.

Lemma i32_id x : in_i32 x → i32 x = x.
Proof. intros H. apply wrap_id; word. Qed.

Lemma i32_range x : in_i32 (i32 x).
Proof. pose proof (wrap_range 32 x). unfold in_i32, i32. lia. Qed.

Lemma u64_id x : 0 ≤ x < 2 ^ 64 → u64 x = x.
Proof. apply Z.mod_small. Qed.

#[export] Hint Resolve i64_range i32_range : gint.
#[export] Hint Rewrite i64_id i32_id u64_id using word : gint.

(** ** Lemmas on bit fields *)

Lemma land_shifted_low a b k :
  0 ≤ k → 0 ≤ b < 2 ^ k → Z.land (a * 2 ^ k) b = 0.
Proof.
  intros Hk Hb. apply Z.bits_inj'. intros n Hn.
  rewrite Z.land_spec, Z.bits_0.
  destruct (Z.lt_ge_cases n k) as [Hlt | Hge].
  - by rewrite Z.mul_pow2_bits_low.
  - rewrite <- (Z.mod_small b (2 ^ k)) by lia.
    rewrite Z.mod_pow2_bits_high by lia. apply andb_false_r.
Qed.

(** Or-ing a low field into a shifted high field is addition. *)
Lemma lor_shifted_low a b k :
  0 ≤ k → 0 ≤ b < 2 ^ k → Z.lor (a * 2 ^ k) b = a * 2 ^ k + b.
Proof.
  intros Hk Hb. pose proof (land_shifted_low a b k Hk Hb) as H0.
  by rewrite Z.add_nocarry_lxor, Z.lxor_lor.
Qed.

Lemma land_mask x k : 0 ≤ k → Z.land x (2 ^ k - 1) = x `mod` 2 ^ k.
Proof.
  intros Hk. rewrite <- Z.land_ones by done. f_equal. rewrite Z.ones_equiv. lia.
Qed.

(** ** Lemmas on sums *)

Lemma sumZ_app {A} (f : A → Z) l1 l2 : sumZ f (l1 ++ l2) = sumZ f l1 + sumZ f l2.
Proof. induction l1 as [|a l1 IH]; simpl; lia. Qed.

Lemma sumZ_ext {A} (f g : A → Z) l :
  (∀ a, a ∈ l → f a = g a) → sumZ f l = sumZ g l.
Proof.
  induction l as [|a l IH]; simpl; [done|].
  intros H. rewrite (H a), IH by set_solver. lia.
Qed.

Lemma sumZ_le {A} (f g : A → Z) l :
  (∀ a, a ∈ l → f a ≤ g a) → sumZ f l ≤ sumZ g l.
Proof.
  induction l as [|a l IH]; simpl; [done|].
  intros H. pose proof (H a). assert (sumZ f l ≤ sumZ g l) by (apply IH; set_solver).
  assert (f a ≤ g a) by set_solver. lia.
Qed.

Lemma sumZ_add {A} (f g : A → Z) l : sumZ (λ a, f a + g a) l = sumZ f l + sumZ g l.
Proof. induction l; simpl; lia. Qed.

Lemma sumZ_mul {A} (c : Z) (f : A → Z) l : sumZ (λ a, c * f a) l = c * sumZ f l.
Proof. induction l; simpl; lia. Qed.

#[export] Instance sumZ_Proper {A} (f : A → Z) : Proper ((≡ₚ) ==> (=)) (sumZ f).
Proof. intros l1 l2. induction 1; simpl; lia. Qed.

#[export] Instance countb_Proper {A} (p : A → bool) : Proper ((≡ₚ) ==> (=)) (countb p).
Proof. intros l1 l2 H. unfold countb. by rewrite H. Qed.

Lemma countb_app {A} (p : A → bool) l1 l2 : countb p (l1 ++ l2) = countb p l1 + countb p l2.
Proof. apply sumZ_app. Qed.

Lemma countb_nonneg {A} (p : A → bool) l : 0 ≤ countb p l.
Proof. unfold countb. induction l; simpl; [done|]. case_match; lia. Qed.

Lemma countb_le_length {A} (p : A → bool) l : countb p l ≤ Z.of_nat (length l).
Proof. unfold countb. induction l; simpl; [done|]. case_match; lia. Qed.

(** ** Lemmas on map iteration *)

Lemma elem_of_range_map `{RangeOrder} {V} (m : gmap string V) k v :
  (k, v) ∈ range_map m ↔ m !! k = Some v.
Proof. by rewrite range_map_perm, elem_of_map_to_list. Qed.

Lemma NoDup_fst_range_map `{RangeOrder} {V} (m : gmap string V) :
  NoDup (range_map m).*1.
Proof. rewrite range_map_perm. apply NoDup_fst_map_to_list. Qed.

Lemma list_to_map_range `{RangeOrder} {V} (m : gmap string V) : list_to_map (range_map m) = m.
Proof.
  rewrite <- (list_to_map_to_list m) at 2. apply list_to_map_proper; [apply NoDup_fst_range_map|apply range_map_perm].
Qed.

Lemma foldl_insert_NoDup {V} (l : list (string * V)) (m : gmap string V) :
  NoDup l.*1 → foldl (λ m kv, <[kv.1 := kv.2]> m) m l = list_to_map l ∪ m.
Proof.
  revert m. induction l as [|[k v] l IH]; intros m Hnd; simpl in *; [by rewrite (left_id_L ∅ (∪))|].
  apply NoDup_cons in Hnd as [Hk Hnd]. rewrite IH by done.
  rewrite <- insert_union_l. rewrite insert_union_r; [done|]. by apply not_elem_of_list_to_map_1.
Qed.

(** Writing every entry of a map into another, in any order. *)
Lemma foldl_insert_range `{RangeOrder} {V} (m d : gmap string V) :
  foldl (λ d kv, <[kv.1 := kv.2]> d) d (range_map m) = m ∪ d.
Proof. by rewrite foldl_insert_NoDup, list_to_map_range by apply NoDup_fst_range_map. Qed.

(** ** Lemmas on boolean tests of lists *)

Lemma forallb_elem {A} (f : A → bool) l : forallb f l = true ↔ ∀ x, x ∈ l → f x = true.
Proof. rewrite forallb_forall. by setoid_rewrite list_elem_of_In. Qed.

(** ** Lemmas on sorted lists *)

Lemma StronglySorted_lookup_lt {A} (R : relation A) l i j x y :
  StronglySorted R l → l !! i = Some x → l !! j = Some y → (i < j)%nat → R x y.
Proof.
  intros Hs. revert i j. induction Hs as [|a l _ IH Hall]; intros i j Hi Hj Hlt; [done|].
  destruct j as [|j]; [lia|]. destruct i as [|i]; simpl in *.
  - simplify_eq. rewrite Forall_forall in Hall. apply Hall. by eapply list_elem_of_lookup_2.
  - eapply IH; [done..|lia].
Qed.

Lemma NoDup_fst_unique {K V} (l : list (K * V)) k x y :
  NoDup l.*1 → (k, x) ∈ l → (k, y) ∈ l → x = y.
Proof.
  intros Hnd [i Hi]%list_elem_of_lookup [j Hj]%list_elem_of_lookup.
  assert (i = j) as ->; [|congruence].
  apply (NoDup_lookup l.*1 i j k); [done|by rewrite list_lookup_fmap, Hi|by rewrite list_lookup_fmap, Hj].
Qed.

Lemma filter_all {A} (P : A → Prop) `{∀ x, Decision (P x)} l :
  Forall P l → filter P l = l.
Proof. induction 1; [done|]. rewrite filter_cons_True by done. congruence. Qed.

Lemma filter_none {A} (P : A → Prop) `{∀ x, Decision (P x)} l :
  Forall (λ x, ¬ P x) l → filter P l = [].
Proof. induction 1; [done|]. by rewrite filter_cons_False. Qed.

Lemma Forall_filter {A} (P Q : A → Prop) `{∀ x, Decision (P x)} l :
  Forall Q l → Forall Q (filter P l).
Proof.
  induction 1 as [|a l]; [constructor|]. rewrite filter_cons. case_decide; [by constructor|done].
Qed.

Lemma StronglySorted_filter {A} (R : relation A) (P : A → Prop) `{∀ x, Decision (P x)} l :
  StronglySorted R l → StronglySorted R (filter P l).
Proof.
  induction 1 as [|a l _ IH Hall]; [constructor|]. rewrite filter_cons. case_decide; [|done].
  constructor; [done|]. by apply Forall_filter.
Qed.

Lemma NoDup_fmap_filter {A B} (f : A → B) (P : A → Prop) `{∀ x, Decision (P x)} l :
  NoDup (f <$> l) → NoDup (f <$> filter P l).
Proof.
  induction l as [|a l IH]; [done|]. rewrite fmap_cons, filter_cons. intros [Ha Hl]%NoDup_cons.
  case_decide; [|by apply IH]. rewrite fmap_cons. constructor; [|by apply IH].
  intros (x & Ex & [_ Hx]%list_elem_of_filter)%list_elem_of_fmap. apply Ha. rewrite Ex.
  by apply list_elem_of_fmap_2.
Qed.

(** ** Lemmas on schedules *)

Section ScheduleLemmas.
Context {W Ev R : Type} (step : Ev → W → option (W * R)).

Lemma run_steps_cons e evs w w' rs :
  run_steps step (e :: evs) w = Some (w', rs) →
  ∃ w1 r rs', step e w = Some (w1, r) ∧ run_steps step evs w1 = Some (w', rs') ∧ rs = r :: rs'.
Proof.
  simpl. destruct (step e w) as [[w1 r]|] eqn:E1; [|done]. simpl.
  destruct (run_steps step evs w1) as [[w2 rs']|] eqn:E2; [|done]. intros [= <- <-]. by exists w1, r, rs'.
Qed.

(** An event that is always allowed. *)
Lemma along_intro (P : W → Ev → Prop) : (∀ w e, P w e) → ∀ evs w, along step P evs w.
Proof.
  intros HP evs. induction evs as [|e evs IH]; intros w; [done|]. split; [done|]. by destruct (step e w) as [[w' r]|].
Qed.

(** Rule induction: what every allowed step preserves, every run does. *)
Lemma run_steps_invariant (I : W → Prop) (P : W → Ev → Prop) :
  (∀ w e w' r, I w → P w e → step e w = Some (w', r) → I w') →
  ∀ evs w w' rs, I w → along step P evs w → run_steps step evs w = Some (w', rs) → I w'.
Proof.
  intros Hstep evs. induction evs as [|e evs IH]; intros w w' rs Hw Hal Hrun; [by simplify_eq/=|].
  destruct (run_steps_cons _ _ _ _ _ Hrun) as (w1 & r & rs' & E1 & E2 & ->).
  destruct Hal as [HP Hal]. rewrite E1 in Hal. by apply (IH w1 w' rs'); [eapply Hstep| |].
Qed.

(** Once an event has a certain reply, an invariant holds ever after. *)
Lemma run_steps_after (I J : W → Prop) (P : W → Ev → Prop) (good : R → Prop) :
  (∀ w e w' r, I w → P w e → step e w = Some (w', r) → I w' ∧ (good r ∨ J w → J w')) →
  ∀ evs w w' rs, I w → along step P evs w → run_steps step evs w = Some (w', rs) →
  J w ∨ Exists good rs → J w'.
Proof.
  intros Hstep evs. induction evs as [|e evs IH]; intros w w' rs Hw Hal Hrun HJ.
  { simplify_eq/=. destruct HJ as [|HJ]; [done|by apply Exists_nil in HJ]. }
  destruct (run_steps_cons _ _ _ _ _ Hrun) as (w1 & r & rs' & E1 & E2 & ->).
  destruct Hal as [HP Hal]. rewrite E1 in Hal.
  destruct (Hstep w e w1 r Hw HP E1) as [Hw1 HJ1].
  apply (IH w1 w' rs'); [done..|]. rewrite Exists_cons in HJ. naive_solver.
Qed.

(** What allowed steps keep of a world and the replies so far, a run keeps. *)
Lemma run_steps_history_along (I : W → list R → Prop) (P : W → Ev → Prop) :
  (∀ e w w' rs r, I w rs → P w e → step e w = Some (w', r) → I w' (rs ++ [r])) →
  ∀ evs w w' rs0 rs, I w rs0 → along step P evs w → run_steps step evs w = Some (w', rs) → I w' (rs0 ++ rs).
Proof.
  intros Hstep evs. induction evs as [|e evs IH]; intros w w' rs0 rs Hw Hal Hrun.
  { simplify_eq/=. by rewrite app_nil_r. }
  destruct (run_steps_cons _ _ _ _ _ Hrun) as (w1 & r & rs' & E1 & E2 & ->). rewrite cons_middle, (assoc_L (++)).
  destruct Hal as [HP Hal]. rewrite E1 in Hal. apply (IH w1); [by eapply Hstep|done|done].
Qed.

Lemma run_steps_history (I : W → list R → Prop) :
  (∀ e w w' rs r, I w rs → step e w = Some (w', r) → I w' (rs ++ [r])) →
  ∀ evs w w' rs, I w [] → run_steps step evs w = Some (w', rs) → I w' rs.
Proof.
  intros Hstep evs w w' rs Hw. apply (run_steps_history_along I (λ _ _, True)) with (rs0 := []); [|done|by apply along_intro].
  intros e w0 w1 rs0 r H0 _. by apply Hstep.
Qed.

Lemma run_steps_app evs1 evs2 w w1 rs1 :
  run_steps step evs1 w = Some (w1, rs1) →
  run_steps step (evs1 ++ evs2) w = (λ '(w2, rs2), (w2, rs1 ++ rs2)) <$> run_steps step evs2 w1.
Proof.
  revert w rs1. induction evs1 as [|e evs1 IH]; intros w rs1 Hrun.
  { simplify_eq/=. by destruct (run_steps step evs2 w1) as [[]|]. }
  destruct (run_steps_cons _ _ _ _ _ Hrun) as (w2 & r & rs' & E1 & E2 & ->).
  simpl. rewrite E1. simpl. rewrite (IH w2 rs' E2). by destruct (run_steps step evs2 w1) as [[]|].
Qed.

End ScheduleLemmas.

(** ** Lemmas on strings *)

Lemma str_app_nil_r (s : string) : (s +:+ "")%string = s.
Proof. induction s as [|c s IH]; [done|]. exact (f_equal (String c) IH). Qed.

Lemma str_app_assoc (s1 s2 s3 : string) : ((s1 +:+ s2) +:+ s3 = s1 +:+ (s2 +:+ s3))%string.
Proof. induction s1 as [|c s1 IH]; [done|]. exact (f_equal (String c) IH). Qed.

Lemma str_length_app (s1 s2 : string) :
  String.length (s1 +:+ s2) = (String.length s1 + String.length s2)%nat.
Proof. induction s1 as [|c s1 IH]; [done|]. exact (f_equal S IH). Qed.

(** ** Lemmas on permutations *)

Lemma insert_Permutation {A} (l : list A) i x y :
  l !! i = Some x → <[i := y]> l ≡ₚ y :: delete i l.
Proof.
  revert i. induction l as [|z l IH]; intros [|i] Hi; simplify_eq/=; [done|].
  rewrite IH by done. apply perm_swap.
Qed.

Lemma omap_delete_Permutation {A B} (f : A → option B) l i x :
  l !! i = Some x → omap f l ≡ₚ option_list (f x) ++ omap f (delete i l).
Proof.
  intros Hi. rewrite (delete_Permutation l i x Hi) at 1. simpl. by destruct (f x).
Qed.

Lemma omap_insert_Permutation {A B} (f : A → option B) l i x y :
  l !! i = Some x → omap f (<[i := y]> l) ≡ₚ option_list (f y) ++ omap f (delete i l).
Proof. intros Hi. rewrite (insert_Permutation l i x y Hi). simpl. by destruct (f y). Qed.

Lemma sumZ_delete {A} (f : A → Z) l i x : l !! i = Some x → sumZ f l = f x + sumZ f (delete i l).
Proof. intros Hi. by rewrite (delete_Permutation l i x Hi) at 1. Qed.

Lemma sumZ_insert {A} (f : A → Z) l i x y :
  l !! i = Some x → sumZ f (<[i := y]> l) = sumZ f l + f y - f x.
Proof.
  intros Hi. rewrite (insert_Permutation l i x y Hi), (sumZ_delete f l i x Hi). simpl. lia.
Qed.

Lemma countb_insert {A} (p : A → bool) l i x y :
  l !! i = Some x → countb p (<[i := y]> l) = countb p l + (if p y then 1 else 0) - (if p x then 1 else 0).
Proof. apply sumZ_insert. Qed.

Lemma countb_pos {A} (p : A → bool) l i x : l !! i = Some x → p x = true → 1 ≤ countb p l.
Proof.
  intros Hi Hp. unfold countb. rewrite (sumZ_delete _ l i x Hi), Hp. pose proof (countb_nonneg p (delete i l)). unfold countb in *. lia.
Qed.

Lemma countb_zero {A} (p : A → bool) l x : countb p l = 0 → x ∈ l → p x = false.
Proof. intros H0 [i Hi]%list_elem_of_lookup. destruct (p x) eqn:E; [|done]. pose proof (countb_pos p l i x Hi E). lia. Qed.

Lemma not_in_insert {A} (l : list A) i x y : y ∉ l → x ≠ y → y ∉ <[i := x]> l.
Proof.
  intros Hl Hx [j Hj]%list_elem_of_lookup. apply list_lookup_insert_Some in Hj as [(-> & -> & _)|[_ Hj]]; [done|].
  apply Hl. by eapply list_elem_of_lookup_2.
Qed.

Lemma omap_insert_same {A B} (f : A → option B) l i x y :
  l !! i = Some x → f y = f x → omap f (<[i := y]> l) ≡ₚ omap f l.
Proof.
  intros Hi E. by rewrite (omap_insert_Permutation f l i x y Hi), (omap_delete_Permutation f l i x Hi), E.
Qed.
