(* ===== verification/Text.v ===== *)
(** * Strings as Go's [strings] and [unicode/utf8] treat them

    A Go string is a string of bytes, read as UTF-8 where code ranges over its
    runes or trims white space.  Splitting and joining are by one byte, the only
    separators the modelled packages use. *)

From S2P Require Import Prelude.

Module Text.

(** ** UTF-8, as [range] over a string decodes it *)

Definition byte_at (s : string) (i : nat) : option Z :=
  (λ c, Z.of_nat (nat_of_ascii c)) <$> String.get i s.

Definition cont (lo hi : Z) (b : option Z) : bool :=
  match b with Some b => (lo <=? b) && (b <=? hi) | None => false end.

Definition RuneError : Z := 65533.

(** The rune at the head of a non-empty string and its width; an invalid byte
    is [RuneError] of width 1. *)
Definition decode_rune (s : string) : Z * nat :=
  let b i := default 0 (byte_at s i) in
  let tail i := Z.land (b i) 63 in
  let b0 := b 0%nat in
  if b0 <? 128 then (b0, 1%nat)
  else if (194 <=? b0) && (b0 <=? 223) && cont 128 191 (byte_at s 1)
  then (Z.land b0 31 * 64 + tail 1%nat, 2%nat)
  else if (224 <=? b0) && (b0 <=? 239) &&
          cont (if b0 =? 224 then 160 else 128) (if b0 =? 237 then 159 else 191) (byte_at s 1) &&
          cont 128 191 (byte_at s 2)
  then (Z.land b0 15 * 4096 + tail 1%nat * 64 + tail 2%nat, 3%nat)
  else if (240 <=? b0) && (b0 <=? 244) &&
          cont (if b0 =? 240 then 144 else 128) (if b0 =? 244 then 143 else 191) (byte_at s 1) &&
          cont 128 191 (byte_at s 2) && cont 128 191 (byte_at s 3)
  then (Z.land b0 7 * 262144 + tail 1%nat * 4096 + tail 2%nat * 64 + tail 3%nat, 4%nat)
  else (RuneError, 1%nat).

Fixpoint str_drop (n : nat) (s : string) : string :=
  match n, s with
  | S n, String _ s => str_drop n s
  | _, _ => s
  end.

Fixpoint runes_fuel (fuel : nat) (s : string) : list Z :=
  match fuel, s with
  | S fuel, String _ _ => let '(r, w) := decode_rune s in r :: runes_fuel fuel (str_drop w s)
  | _, _ => []
  end.

(** Every rune takes a byte at least, so the length is fuel enough. *)
Definition runes (s : string) : list Z := runes_fuel (String.length s) s.

Definition RuneCountInString (s : string) : Z := Z.of_nat (length (runes s)).

(** Unicode white space, for [strings.TrimSpace]. *)
Definition is_space (r : Z) : bool :=
  ((9 <=? r) && (r <=? 13)) || bool_decide (r ∈ [32; 133; 160; 5760; 8232; 8233; 8239; 8287; 12288]) ||
  ((8192 <=? r) && (r <=? 8202)).

Fixpoint str_take (n : nat) (s : string) : string :=
  match n, s with
  | S n, String a s => String a (str_take n s)
  | _, _ => ""
  end.

(** The runes of a string with the bytes each came from. *)
Fixpoint chunks_fuel (fuel : nat) (s : string) : list (Z * string) :=
  match fuel, s with
  | S fuel, String _ _ =>
      let '(r, w) := decode_rune s in (r, str_take w s) :: chunks_fuel fuel (str_drop w s)
  | _, _ => []
  end.

Definition chunks (s : string) : list (Z * string) := chunks_fuel (String.length s) s.

Definition concat (l : list string) : string := foldr String.append "" l.

Fixpoint drop_spaces (l : list (Z * string)) : list (Z * string) :=
  match l with
  | c :: l' => if is_space c.1 then drop_spaces l' else l
  | [] => []
  end.

Definition TrimSpace (s : string) : string :=
  concat (reverse (drop_spaces (reverse (drop_spaces (chunks s)))).*2).

Definition trimmed_empty (s : string) : bool := forallb is_space (runes s).

(** ** Splitting *)

(** [strings.Split s sep] for a one-byte separator. *)
Fixpoint Split (sep : ascii) (s : string) : list string :=
  match s with
  | EmptyString => [""]
  | String a s =>
      if Ascii.eqb a sep then "" :: Split sep s
      else match Split sep s with p :: ps => String a p :: ps | [] => [] end
  end.

(** [strings.SplitN s sep 2]: the part before the first separator, and the part
    after it if there is one. *)
Fixpoint Cut (sep : ascii) (s : string) : string * option string :=
  match s with
  | EmptyString => ("", None)
  | String a s => if Ascii.eqb a sep then ("", Some s) else let '(p, r) := Cut sep s in (String a p, r)
  end.

Fixpoint Join (sep : string) (ps : list string) : string :=
  match ps with
  | [] => ""
  | [p] => p
  | p :: ps => (p +:+ sep +:+ Join sep ps)%string
  end.

(** [strings.TrimPrefix] where [strings.HasPrefix] holds. *)
Fixpoint cut_prefix (prefix s : string) : option string :=
  match prefix, s with
  | EmptyString, _ => Some s
  | String a p, String b s => if Ascii.eqb a b then cut_prefix p s else None
  | String _ _, EmptyString => None
  end.

Fixpoint contains (c : ascii) (s : string) : bool :=
  match s with EmptyString => false | String a s => Ascii.eqb a c || contains c s end.

(** ASCII lower case, for [strings.EqualFold] with letters that no other
    character folds to. *)
Definition lower_ascii (a : ascii) : ascii :=
  let n := nat_of_ascii a in
  if (65 <=? n)%nat && (n <=? 90)%nat then ascii_of_nat (n + 32) else a.

Fixpoint lower (s : string) : string :=
  match s with EmptyString => "" | String a s => String (lower_ascii a) (lower s) end.

(** Strings of bytes below 128, and without white space. *)
Definition ascii_only (s : string) : bool :=
  forallb (λ a, (nat_of_ascii a <? 128)%nat) (String.list_ascii_of_string s).

Definition no_space (s : string) : bool :=
  forallb (λ a, negb (is_space (Z.of_nat (nat_of_ascii a)))) (String.list_ascii_of_string s).

Definition ascii_space (a : ascii) : bool := is_space (Z.of_nat (nat_of_ascii a)).

Fixpoint skip_spaces (l : list ascii) : list ascii :=
  match l with
  | a :: l' => if ascii_space a then skip_spaces l' else l
  | [] => []
  end.

(** ** Lemmas *)

Lemma Split_nonempty sep s : Split sep s ≠ [].
Proof. induction s as [|a s IH]; [done|]. simpl. case_match; [done|]. by destruct (Split sep s). Qed.

Lemma Split_plain sep s : contains sep s = false → Split sep s = [s].
Proof.
  induction s as [|a s IH]; [done|]. simpl. intros [Ha Hs]%orb_false_iff. rewrite Ha. by rewrite IH.
Qed.

Lemma Split_app sep p s :
  contains sep p = false → Split sep (p +:+ String sep s)%string = p :: Split sep s.
Proof.
  induction p as [|a p IH]; intros Hp.
  - change (Split sep (String sep s) = "" :: Split sep s). simpl. by rewrite Ascii.eqb_refl.
  - simpl in Hp. apply orb_false_iff in Hp as [Ha Hp].
    change (Split sep (String a (p +:+ String sep s)%string) = String a p :: Split sep s). simpl.
    by rewrite Ha, IH.
Qed.

Lemma Split_Join sep ps :
  ps ≠ [] → Forall (λ p, contains sep p = false) ps → Split sep (Join (String sep "") ps) = ps.
Proof.
  intros Hne Hall. induction Hall as [|p ps Hp Hall IH]; [done|].
  destruct ps as [|q ps]; [by apply Split_plain|].
  change (Join (String sep "") (p :: q :: ps)) with (p +:+ String sep (Join (String sep "") (q :: ps)))%string.
  rewrite Split_app by done. by rewrite IH.
Qed.

Lemma Join_Split sep s : Join (String sep "") (Split sep s) = s.
Proof.
  induction s as [|a s IH]; [done|]. cbn [Split]. pose proof (Split_nonempty sep s) as Hne.
  destruct (Split sep s) as [|p ps] eqn:E; [done|]. destruct (Ascii.eqb_spec a sep) as [->|Ha].
  - change (String sep (Join (String sep "") (p :: ps)) = String sep s). by rewrite IH.
  - transitivity (String a (Join (String sep "") (p :: ps))); [by destruct ps|by rewrite IH].
Qed.

Lemma cut_prefix_app p s : cut_prefix p (p +:+ s)%string = Some s.
Proof.
  induction p as [|a p IH]; [done|].
  change (cut_prefix (String a p) (String a (p +:+ s)%string) = Some s). simpl. by rewrite Ascii.eqb_refl.
Qed.

Lemma Cut_app sep p s : contains sep p = false → Cut sep (p +:+ String sep s)%string = (p, Some s).
Proof.
  induction p as [|a p IH]; intros Hp.
  - change (Cut sep (String sep s) = ("", Some s)). simpl. by rewrite Ascii.eqb_refl.
  - simpl in Hp. apply orb_false_iff in Hp as [Ha Hp].
    change (Cut sep (String a (p +:+ String sep s)%string) = (String a p, Some s)). simpl.
    by rewrite Ha, IH.
Qed.

Lemma Cut_some sep s p q : Cut sep s = (p, Some q) → s = (p +:+ String sep q)%string ∧ contains sep p = false.
Proof.
  revert p. induction s as [|a s IH]; intros p Hs; [done|]. simpl in Hs.
  destruct (Ascii.eqb_spec a sep) as [->|Ha]; [by injection Hs as <- <-|].
  destruct (Cut sep s) as [p' r]. injection Hs as <- ->. destruct (IH p' eq_refl) as [-> Hp]. split; [done|].
  simpl. rewrite Hp, orb_false_r. by apply Ascii.eqb_neq.
Qed.

Lemma decode_ascii a s :
  (nat_of_ascii a < 128)%nat → decode_rune (String a s) = (Z.of_nat (nat_of_ascii a), 1%nat).
Proof. intros Ha. unfold decode_rune, byte_at. simpl. case_match; [done|lia]. Qed.

(** A string of bytes below 128 has the bytes themselves as chunks. *)
Lemma chunks_ascii s :
  ascii_only s = true →
  chunks s = (λ a, (Z.of_nat (nat_of_ascii a), String a "")) <$> String.list_ascii_of_string s.
Proof.
  unfold chunks, ascii_only. induction s as [|a s IH]; [done|]. simpl. intros [Ha Hs]%andb_true_iff.
  rewrite decode_ascii by (by apply Nat.ltb_lt). simpl. by rewrite IH.
Qed.

Lemma concat_bytes l : concat ((λ a, String a "") <$> l) = String.string_of_list_ascii l.
Proof. induction l as [|a l IH]; [done|]. simpl. by f_equal. Qed.

(** On ASCII bytes, trimming drops the white bytes of both ends. *)
Lemma TrimSpace_ascii s :
  ascii_only s = true →
  TrimSpace s =
    String.string_of_list_ascii
      (reverse (skip_spaces (reverse (skip_spaces (String.list_ascii_of_string s))))).
Proof.
  intros Ha. unfold TrimSpace. rewrite chunks_ascii by done.
  set (f := λ a : ascii, (Z.of_nat (nat_of_ascii a), String a "")).
  assert (∀ l, drop_spaces (f <$> l) = f <$> skip_spaces l) as Hd.
  { induction l as [|a l IH]; [done|]. rewrite fmap_cons. simpl. unfold ascii_space. by case_match. }
  rewrite Hd. rewrite <- (fmap_reverse f), Hd, <- list_fmap_compose, <- fmap_reverse.
  change ((snd ∘ f)) with (λ a, String a ""). by rewrite concat_bytes.
Qed.

Lemma skip_spaces_suffix l : ∃ p, l = p ++ skip_spaces l.
Proof.
  induction l as [|a l [p E]]; [by exists []|]. simpl. case_match; [|by exists []].
  exists (a :: p). simpl. by f_equal.
Qed.

(** Skipping leaves no space in front. *)
Lemma skip_spaces_idemp_prefix l p q : skip_spaces l = p ++ q → p ≠ [] → skip_spaces p = p.
Proof.
  induction l as [|a l IH]; simpl; [by destruct p|]. destruct (ascii_space a) eqn:Ha; [done|].
  destruct p as [|b p]; [done|]. intros [= <- _] _. simpl. by rewrite Ha.
Qed.

Lemma ascii_only_list l :
  ascii_only (String.string_of_list_ascii l) = forallb (λ a, (nat_of_ascii a <? 128)%nat) l.
Proof. unfold ascii_only. by rewrite String.list_ascii_of_string_of_list_ascii. Qed.

(** The white bytes that trimming drops are those at the two ends. *)
Lemma trim_split l :
  ∃ p q, l = p ++ reverse (skip_spaces (reverse (skip_spaces l))) ++ q.
Proof.
  destruct (skip_spaces_suffix l) as [p E]. destruct (skip_spaces_suffix (reverse (skip_spaces l))) as [q E'].
  exists p, (reverse q). rewrite <- reverse_app, <- E', reverse_involutive. done.
Qed.

Lemma TrimSpace_ascii_only s : ascii_only s = true → ascii_only (TrimSpace s) = true.
Proof.
  intros Ha. rewrite TrimSpace_ascii, ascii_only_list by done. unfold ascii_only in Ha.
  destruct (trim_split (String.list_ascii_of_string s)) as (p & q & E). rewrite E, !forallb_app in Ha.
  by apply andb_true_iff in Ha as [_ [Ha _]%andb_true_iff].
Qed.

(** Trimming again changes nothing. *)
Lemma TrimSpace_idemp s : ascii_only s = true → TrimSpace (TrimSpace s) = TrimSpace s.
Proof.
  intros Ha. rewrite (TrimSpace_ascii (TrimSpace s)) by (by apply TrimSpace_ascii_only).
  rewrite TrimSpace_ascii by done. f_equal. rewrite String.list_ascii_of_string_of_list_ascii.
  set (l := String.list_ascii_of_string s). set (n := skip_spaces (reverse (skip_spaces l))).
  destruct (decide (reverse n = [])) as [->|Hne]; [done|].
  destruct (skip_spaces_suffix (reverse (skip_spaces l))) as [q Eq]. fold n in Eq.
  apply (f_equal reverse) in Eq. rewrite reverse_involutive, reverse_app in Eq.
  rewrite (skip_spaces_idemp_prefix l (reverse n) (reverse q)) by done. rewrite reverse_involutive.
  f_equal. apply (skip_spaces_idemp_prefix (reverse (skip_spaces l)) n []); [by rewrite app_nil_r|].
  intros ->. by apply Hne.
Qed.

Lemma skip_spaces_head a l : ascii_space a = false → skip_spaces (a :: l) = a :: l.
Proof. simpl. by intros ->. Qed.

Lemma skip_spaces_word l : forallb (λ a, negb (ascii_space a)) l = true → skip_spaces l = l.
Proof. destruct l as [|a l]; [done|]. simpl. intros [Ha _]%andb_true_iff. by apply negb_true_iff in Ha as ->. Qed.

Lemma forallb_reverse {A} (p : A → bool) l : forallb p (reverse l) = forallb p l.
Proof.
  apply Bool.eq_iff_eq_true. rewrite !forallb_forall. setoid_rewrite <- list_elem_of_In.
  by setoid_rewrite reverse_Permutation.
Qed.

(** Trimming leaves a word alone. *)
Lemma TrimSpace_word s : ascii_only s = true → no_space s = true → TrimSpace s = s.
Proof.
  intros Ha Hn. rewrite TrimSpace_ascii by done. unfold no_space in Hn.
  rewrite (skip_spaces_word (String.list_ascii_of_string s)) by done.
  rewrite skip_spaces_word by (by rewrite forallb_reverse).
  rewrite reverse_involutive. apply String.string_of_list_ascii_of_string.
Qed.

Lemma list_ascii_app s t :
  String.list_ascii_of_string (s +:+ t)%string = String.list_ascii_of_string s ++ String.list_ascii_of_string t.
Proof. induction s as [|a s IH]; [done|]. exact (f_equal (cons a) IH). Qed.

(** A space before a non-empty word goes; a prefix that starts with no space
    stays. *)
Lemma TrimSpace_space s :
  ascii_only s = true → no_space s = true → TrimSpace (String " " s) = s.
Proof.
  intros Ha Hn. rewrite TrimSpace_ascii by done. unfold no_space in Hn. simpl.
  rewrite (skip_spaces_word (String.list_ascii_of_string s)) by done.
  rewrite skip_spaces_word by (by rewrite forallb_reverse).
  rewrite reverse_involutive. apply String.string_of_list_ascii_of_string.
Qed.

Lemma TrimSpace_prefix a p s :
  ascii_only (String a p) = true → ascii_space a = false →
  ascii_only s = true → no_space s = true → s ≠ "" →
  TrimSpace (String a p +:+ s)%string = (String a p +:+ s)%string.
Proof.
  intros Hp Hsp Ha Hn Hne. rewrite TrimSpace_ascii.
  - rewrite list_ascii_app. simpl. rewrite Hsp. unfold no_space in Hn.
    assert (∃ l b, String.list_ascii_of_string s = l ++ [b] ∧ ascii_space b = false) as (l & b & El & Hb).
    { destruct (exists_last (l := String.list_ascii_of_string s)) as (l & b & El); [by destruct s|].
      exists l, b. split; [done|]. rewrite El, forallb_app in Hn. simpl in Hn.
      apply andb_true_iff in Hn as [_ Hn]. rewrite andb_true_r in Hn. by apply negb_true_iff in Hn. }
    assert (a :: String.list_ascii_of_string p ++ String.list_ascii_of_string s =
            String.list_ascii_of_string (String a p +:+ s)%string) as E
      by (by rewrite list_ascii_app).
    rewrite E, (list_ascii_app (String a p) s), El. rewrite (app_assoc _ l [b]), reverse_app. simpl. rewrite Hb.
    rewrite reverse_cons, reverse_involutive.
    change (String.string_of_list_ascii ((a :: String.list_ascii_of_string p ++ l) ++ [b]) = String a p +:+ s)%string.
    rewrite <- app_comm_cons, <- app_assoc, <- El, E.
    apply String.string_of_list_ascii_of_string.
  - unfold ascii_only in *. by rewrite list_ascii_app, forallb_app, Hp, Ha.
Qed.

End Text.
