(* ===== verification/Net.v ===== *)
(** * Addresses as Go's [net] package reads them

    [ParseIP], [ParseCIDR] and [IPNet.Contains] of the standard library, for the
    guards that filter by address.  An address is kept as [To4] leaves it: an
    IPv6 address that embeds an IPv4 one is that IPv4 address. *)

From S2P Require Import Prelude Text.
Import Text.

Module Net.

Inductive IP := V4 (a : Z) | V6 (a : Z).

#[export] Instance IP_eq_dec : EqDecision IP.
Proof. solve_decision. Defined.

Definition digit (a : ascii) : option Z :=
  let n := Z.of_nat (nat_of_ascii a) in
  if (48 <=? n) && (n <=? 57) then Some (n - 48) else None.

Definition hex_digit (a : ascii) : option Z :=
  let n := Z.of_nat (nat_of_ascii a) in
  if (48 <=? n) && (n <=? 57) then Some (n - 48)
  else if (97 <=? n) && (n <=? 102) then Some (n - 87)
  else if (65 <=? n) && (n <=? 70) then Some (n - 55)
  else None.

(** A decimal number, all of the string and not empty. *)
Fixpoint decimal (acc : Z) (s : string) : option Z :=
  match s with
  | EmptyString => Some acc
  | String a s => d ← digit a; decimal (10 * acc + d) s
  end.

(** A field of an IPv4 address: up to 255, without leading zeros. *)
Definition octet (s : string) : option Z :=
  match s with
  | EmptyString => None
  | String "0" (String _ _) => None
  | _ => n ← decimal 0 s; if n <=? 255 then Some n else None
  end.

Definition parse_v4 (s : string) : option Z :=
  match mapM octet (Split "." s) with
  | Some [a; b; c; d] => Some (((a * 256 + b) * 256 + c) * 256 + d)
  | _ => None
  end.

(** The longest run of hexadecimal digits and what follows it. *)
Fixpoint hex_group (s : string) : list Z * string :=
  match s with
  | EmptyString => ([], "")
  | String a r =>
      match hex_digit a with
      | None => ([], s)
      | Some d => let '(ds, r) := hex_group r in (d :: ds, r)
      end
  end.

Definition hex_value (ds : list Z) : Z := foldl (λ acc d, 16 * acc + d) 0 ds.

(** The groups of an IPv6 address: [n] more fit, [gs] are read, and [ell] is
    where the double colon was. *)
Fixpoint v6_loop (n : nat) (s : string) (gs : list Z) (ell : option nat) : option (list Z * option nat * string) :=
  match n with
  | O => Some (gs, ell, s)
  | S n =>
      let '(ds, rest) := hex_group s in
      if (length ds =? 0)%nat || (4 <? length ds)%nat then None
      else
        match rest with
        | String "." _ =>
            if (match ell with None => negb (length gs =? 6)%nat | Some _ => false end) || (8 <? length gs + 2)%nat
            then None
            else a ← parse_v4 s; Some (gs ++ [a / 65536; a `mod` 65536], ell, "")
        | EmptyString => Some (gs ++ [hex_value ds], ell, "")
        | String ":" (String ":" rest) =>
            match ell with
            | Some _ => None
            | None =>
                let gs := gs ++ [hex_value ds] in
                match rest with
                | EmptyString => Some (gs, Some (length gs), "")
                | _ => v6_loop n rest gs (Some (length gs))
                end
            end
        | String ":" EmptyString => None
        | String ":" rest => v6_loop n rest (gs ++ [hex_value ds]) ell
        | String _ _ => None
        end
  end.

Definition groups_value (gs : list Z) : Z := foldl (λ acc g, 65536 * acc + g) 0 gs.

Definition v6_finish (r : list Z * option nat * string) : option Z :=
  match r with
  | (gs, ell, EmptyString) =>
      if (length gs <? 8)%nat then
        e ← ell; Some (groups_value (take e gs ++ replicate (8 - length gs) 0 ++ drop e gs))
      else match ell with None => Some (groups_value gs) | Some _ => None end
  | _ => None
  end.

Definition v6_groups (s : string) (ell : option nat) : option Z := v6_loop 8 s [] ell ≫= v6_finish.

Definition parse_v6 (s : string) : option Z :=
  match s with
  | String a (String b rest) =>
      if Ascii.eqb a ":" && Ascii.eqb b ":" then
        match rest with EmptyString => Some 0 | _ => v6_groups rest (Some 0%nat) end
      else v6_groups s None
  | _ => v6_groups s None
  end.

(** Which of a dot and a colon comes first. *)
Fixpoint kind (s : string) : option bool :=
  match s with
  | EmptyString => None
  | String "." _ => Some false
  | String ":" _ => Some true
  | String _ s => kind s
  end.

(** Whether the text is an IPv6 address, and its value; a zone is refused by both
    callers. *)
Definition parse_addr (s : string) : option (bool * Z) :=
  if contains "%" s then None
  else
    match kind s with
    | None => None
    | Some false => pair false <$> parse_v4 s
    | Some true => pair true <$> parse_v6 s
    end.

Definition To4 (is6 : bool) (a : Z) : IP :=
  if is6 then (if Z.shiftr a 32 =? 65535 then V4 (a `mod` 2 ^ 32) else V6 a) else V4 a.

Definition ParseIP (s : string) : option IP := '(is6, a) ← parse_addr s; Some (To4 is6 a).

(** A network: an address and the number of leading bits that count. *)
Record IPNet := mkNet { net_ip : IP; net_bits : Z }.

Definition mask (w n a : Z) : Z := Z.shiftl (Z.shiftr a (w - n)) (w - n).

Definition ParseCIDR (s : string) : option IPNet :=
  match Cut "/" s with
  | (_, None) => None
  | (addr, Some m) =>
      '(is6, a) ← parse_addr addr;
      n ← (if decide (m = "") then None else decimal 0 m);
      let w := if is6 : bool then 128 else 32 in
      if w <? n then None
      else
        let ip := To4 is6 (mask w n a) in
        Some (mkNet ip (match ip with V4 _ => if is6 then n - 96 else n | V6 _ => n end))
  end.

Definition Contains (n : IPNet) (ip : IP) : bool :=
  match net_ip n, ip with
  | V4 x, V4 y => Z.shiftr x (32 - net_bits n) =? Z.shiftr y (32 - net_bits n)
  | V6 x, V6 y => Z.shiftr x (128 - net_bits n) =? Z.shiftr y (128 - net_bits n)
  | _, _ => false
  end.

(** A character of no address. *)
Definition foreign (c : ascii) : Prop := hex_digit c = None ∧ c ≠ "."%char ∧ c ≠ ":"%char.

Example ParseIP_examples :
  ParseIP "10.0.0.1" = Some (V4 167772161) ∧ ParseIP "::ffff:10.0.0.1" = Some (V4 167772161) ∧
  ParseIP "::1" = Some (V6 1) ∧ ParseIP "1:2:3:4:5:6:7:8" = Some (V6 5192455318486707404433266433261576) ∧
  ParseIP "1::" = Some (V6 5192296858534827628530496329220096) ∧
  ParseIP "010.0.0.1" = None ∧ ParseIP "10.0.0" = None ∧ ParseIP "1:::2" = None ∧ ParseIP "fe80::1%eth0" = None ∧
  ParseIP "10.0.0.256" = None ∧ ParseIP "" = None ∧ ParseIP ":" = None ∧ ParseIP "1:2:3:4:5:6:7::8" = None.
Proof. by vm_compute. Qed.

(** ** Lemmas *)

Lemma contains_Split c sep s : c ≠ sep → contains c s = existsb (contains c) (Split sep s).
Proof.
  intros Hne. induction s as [|a s IH]; [done|]. simpl. destruct (Ascii.eqb_spec a sep) as [->|Ha].
  - replace (Ascii.eqb sep c) with false by (symmetry; apply Ascii.eqb_neq; congruence). simpl. exact IH.
  - destruct (Split sep s) as [|p ps] eqn:E; [by destruct (Split_nonempty sep s)|].
    rewrite IH. simpl. by rewrite orb_assoc.
Qed.

Lemma foreign_digit c : foreign c → digit c = None.
Proof. intros [Hc _]. unfold hex_digit, digit in *. by case_match. Qed.

Lemma decimal_foreign c acc s n : digit c = None → decimal acc s = Some n → contains c s = false.
Proof.
  intros Hc. revert acc. induction s as [|a s IH]; intros acc Hs; [done|]. simpl in *.
  destruct (digit a) as [d|] eqn:Ea; [|done]. simpl in Hs. rewrite (IH _ Hs), orb_false_r.
  apply Ascii.eqb_neq. congruence.
Qed.

Lemma octet_decimal s n : octet s = Some n → decimal 0 s = Some n.
Proof.
  unfold octet. destruct s as [|a s]; [done|].
  assert (∀ n', (n ← decimal 0 (String a s); if n <=? 255 then Some n else None) = Some n' →
            decimal 0 (String a s) = Some n') as Hgen.
  { intros n' Hn. destruct (decimal 0 (String a s)); [|done]. simpl in Hn. by case_match. }
  destruct a as [[] [] [] [] [] [] [] []]; try apply Hgen. destruct s; [apply Hgen|done].
Qed.

Lemma parse_v4_foreign c s a : digit c = None → c ≠ "."%char → parse_v4 s = Some a → contains c s = false.
Proof.
  intros Hc Hdot Hs. unfold parse_v4 in Hs. destruct (mapM octet (Split "." s)) as [l|] eqn:E; [|done].
  rewrite (contains_Split c "." s Hdot). clear Hs. apply mapM_Some in E.
  induction E as [|p n ps ns Hp Hps IH]; [done|]. simpl. rewrite IH, orb_false_r.
  by apply (decimal_foreign c 0 p n Hc), octet_decimal.
Qed.

Lemma hex_group_contains c s ds rest :
  hex_digit c = None → hex_group s = (ds, rest) → contains c s = contains c rest.
Proof.
  intros Hc. revert ds. induction s as [|a s IH]; intros ds Hs; simpl in Hs; [by injection Hs as <- <-|].
  destruct (hex_digit a) as [d|] eqn:Ea; [|by injection Hs as <- <-].
  destruct (hex_group s) as [ds' r]. injection Hs as <- ->. simpl. rewrite <- (IH _ eq_refl).
  replace (Ascii.eqb a c) with false; [done|]. symmetry. apply Ascii.eqb_neq. congruence.
Qed.

(** What follows the digits of a group, split as [v6_loop] splits it. *)
Lemma v6_loop_foreign c n s gs ell gs' ell' r :
  foreign c → v6_loop n s gs ell = Some (gs', ell', r) → contains c r = false → contains c s = false.
Proof.
  intros Hc. destruct Hc as (Hhex & Hdot & Hcolon).
  revert s gs ell. induction n as [|n IH]; intros s gs ell Hs Hr; [by injection Hs as -> -> ->|].
  cbn [v6_loop] in Hs. destruct (hex_group s) as [ds rest] eqn:Eg.
  destruct ((length ds =? 0)%nat || (4 <? length ds)%nat); [done|].
  assert (contains c s = contains c rest) as Hcs by (by eapply hex_group_contains).
  assert (∀ t, contains c (String ":" t) = contains c t) as Hskip.
  { intros t. cbn [contains]. by replace (Ascii.eqb ":" c) with false by (symmetry; apply Ascii.eqb_neq; congruence). }
  destruct rest as [|a rest]; [by rewrite Hcs|].
  destruct (decide (a = ".")%char) as [->|Ha].
  { destruct (_ || _) in Hs; [done|]. destruct (parse_v4 s) as [v|] eqn:Ev; [|done].
    apply (parse_v4_foreign c s v); [by apply foreign_digit|done|done]. }
  destruct (decide (a = ":")%char) as [->|Ha'].
  2:{ exfalso. clear -Hs Ha Ha'. destruct a as [[] [] [] [] [] [] [] []]; done. }
  rewrite Hcs, Hskip. destruct rest as [|b rest]; [done|].
  destruct (decide (b = ":")%char) as [->|Hb].
  - rewrite Hskip. destruct ell; [done|]. destruct rest as [|d rest]; [done|]. by apply (IH _ _ _ Hs).
  - apply (IH (String b rest) (gs ++ [hex_value ds]) ell); [|done].
    clear -Hs Hb. destruct b as [[] [] [] [] [] [] [] []]; done.
Qed.

Lemma v6_finish_foreign c n s ell a :
  foreign c → v6_loop n s [] ell ≫= v6_finish = Some a → contains c s = false.
Proof.
  intros Hc Hs. destruct (v6_loop n s [] ell) as [[[gs' ell'] r]|] eqn:E; [|done].
  apply (v6_loop_foreign c n s [] ell gs' ell' r Hc E). simpl in Hs. by destruct r.
Qed.

Lemma v6_groups_foreign c s ell a : foreign c → v6_groups s ell = Some a → contains c s = false.
Proof. unfold v6_groups. apply v6_finish_foreign. Qed.

Lemma parse_v6_cases s :
  parse_v6 s = v6_groups s None ∨ s = "::"%string ∨
  ∃ r, s = String ":" (String ":" r) ∧ parse_v6 s = v6_groups r (Some 0%nat).
Proof.
  unfold parse_v6. generalize v6_groups. intros f. destruct s as [|x [|y s]]; [by left|by left|].
  destruct (Ascii.eqb_spec x ":") as [->|Hx]; [|by left].
  destruct (Ascii.eqb_spec y ":") as [->|Hy]; [|by left].
  destruct s as [|z s]; [by right; left|]. right. right. by eexists.
Qed.

Lemma parse_v6_foreign c s a : foreign c → parse_v6 s = Some a → contains c s = false.
Proof.
  intros Hc Hs. destruct (parse_v6_cases s) as [E|[->|(r & -> & E)]].
  - rewrite E in Hs. by apply (v6_groups_foreign c) in Hs.
  - destruct Hc as (_ & _ & Hc). cbn [contains]. apply not_eq_sym, Ascii.eqb_neq in Hc. by rewrite !Hc.
  - rewrite E in Hs. apply (v6_groups_foreign c) in Hs; [|done]. destruct Hc as (_ & _ & Hc). cbn [contains].
    apply not_eq_sym, Ascii.eqb_neq in Hc. by rewrite !Hc.
Qed.

Lemma parse_addr_foreign c s r : foreign c → parse_addr s = Some r → contains c s = false.
Proof.
  intros Hc. unfold parse_addr. destruct (contains "%" s); [done|]. destruct (kind s) as [[]|]; [| |done].
  - destruct (parse_v6 s) as [a|] eqn:E; [|done]. intros _. by apply (parse_v6_foreign c s a).
  - destruct (parse_v4 s) as [a|] eqn:E; [|done]. intros _.
    destruct Hc as (Hhex & Hdot & Hcolon). apply (parse_v4_foreign c s a); [by apply foreign_digit|done|done].
Qed.

Lemma kind_colon s : kind s = Some true → contains ":" s = true.
Proof.
  induction s as [|a s IH]; [done|]. simpl. destruct (Ascii.eqb_spec a ":") as [|Ha]; [done|]. intros Hk.
  apply IH. clear IH. destruct a as [[] [] [] [] [] [] [] []]; done.
Qed.

(** A parsed address is IPv6 exactly when its text has a colon. *)
Lemma parse_addr_kind s is6 a : parse_addr s = Some (is6, a) → contains ":" s = is6.
Proof.
  unfold parse_addr. destruct (contains "%" s); [done|]. destruct (kind s) as [[]|] eqn:Ek; [| |done].
  - destruct (parse_v6 s); [|done]. intros [= <- _]. by apply kind_colon.
  - destruct (parse_v4 s) as [x|] eqn:E; [|done]. intros [= <- _]. by apply (parse_v4_foreign ":" s x).
Qed.

Lemma ParseIP_foreign c s ip : foreign c → ParseIP s = Some ip → contains c s = false.
Proof.
  intros Hc Hs. unfold ParseIP in Hs. destruct (parse_addr s) as [r|] eqn:E; [|done].
  by apply (parse_addr_foreign c s r).
Qed.

Lemma mask_all w a : mask w w a = a.
Proof. unfold mask. rewrite Z.sub_diag, Z.shiftr_0_r. apply Z.shiftl_0_r. Qed.

Lemma ParseCIDR_bits s m is6 a n :
  parse_addr s = Some (is6, a) → m ≠ "" → decimal 0 m = Some n → n ≤ (if is6 : bool then 128 else 32) →
  ParseCIDR (s +:+ String "/" m)%string =
    let ip := To4 is6 (mask (if is6 then 128 else 32) n a) in
    Some (mkNet ip (match ip with V4 _ => if is6 then n - 96 else n | V6 _ => n end)).
Proof.
  intros Hs Hm Hn Hle. unfold ParseCIDR. rewrite Cut_app by (by apply (parse_addr_foreign "/" s _) in Hs).
  rewrite Hs. cbn [mbind option_bind]. rewrite decide_False by done. rewrite Hn. cbn [mbind option_bind].
  by rewrite (proj2 (Z.ltb_ge _ _)).
Qed.

(** A network all of whose bits count holds one address. *)
Lemma Contains_single ip ip' :
  Contains (mkNet ip (match ip with V4 _ => 32 | V6 _ => 128 end)) ip' = bool_decide (ip' = ip).
Proof.
  unfold Contains. destruct ip as [x|x], ip' as [y|y]; cbn -[Z.shiftr]; try (by rewrite bool_decide_eq_false_2).
  all: rewrite !Z.shiftr_0_r; destruct (Z.eqb_spec x y) as [->|Hne]; [by rewrite bool_decide_eq_true_2|].
  all: rewrite bool_decide_eq_false_2; [done|congruence].
Qed.

(** The network of a single address holds that address alone. *)
Lemma ParseCIDR_single s ip :
  ParseIP s = Some ip →
  ∃ n, ParseCIDR (s +:+ (if contains ":" s then "/128" else "/32"))%string = Some n ∧
       ∀ ip', Contains n ip' = bool_decide (ip' = ip).
Proof.
  intros Hs. unfold ParseIP in Hs. destruct (parse_addr s) as [[is6 a]|] eqn:E; [|done]. injection Hs as <-.
  rewrite (parse_addr_kind _ _ _ E). eexists. split.
  - destruct is6; [apply (ParseCIDR_bits s "128" true a 128 E)|apply (ParseCIDR_bits s "32" false a 32 E)]; done.
  - intros ip'. rewrite <- Contains_single. destruct is6; cbn zeta; rewrite mask_all; [|done].
    unfold To4. by case_match.
Qed.

End Net.
