(* ===== verification/Memo.v ===== *)
(** * Tables filled on demand (src/internal/regex/cache.go, src/ghttp/transport.go)

    Both packages keep a table of objects by key and share one pattern: look the
    key up under the read lock; if it is missing, take the write lock, look
    again, make the object and store it.  The two critical sections are two
    steps, with other goroutines in between. *)

From S2P Require Import Prelude.

Module Memo.

(** Objects live in a store, so that two of equal value are told apart. *)
Record Memo (V : Type) := mkMemo {
  table : gmap string nat;
  objects : list V
}.
Arguments mkMemo {V}. Arguments table {V}. Arguments objects {V}.

Definition empty_memo {V} : Memo V := mkMemo ∅ [].

(** A call between its two critical sections waits for the write lock. *)
Record State (A V : Type) := mkState { memo : Memo V; waiting : list A }.
Arguments mkState {A V}. Arguments memo {A V}. Arguments waiting {A V}.

Inductive Event (A : Type) :=
| EGet (a : A)
| ELocked (i : nat)
| EClear.
Arguments EGet {A}. Arguments ELocked {A}. Arguments EClear {A}.

(** A call goes on, returns the object at a location, or panics. *)
Inductive Reply (A : Type) := Waits | Got (a : A) (l : nat) | Panics (a : A) | Cleared.
Arguments Waits {A}. Arguments Got {A}. Arguments Panics {A}. Arguments Cleared {A}.

(** The arguments of a call, the key they are stored under and what is made of
    them. *)
Section Memo.
Context {A V : Type} (key_of : A → string) (make : A → option V).

Definition read_locked (a : A) (m : Memo V) : option nat := table m !! key_of a.

(** [None] is the panic of [make], with nothing stored. *)
Definition write_locked (a : A) (m : Memo V) : option nat * Memo V :=
  match table m !! key_of a with
  | Some l => (Some l, m)
  | None =>
      match make a with
      | None => (None, m)
      | Some v => (Some (length (objects m)), mkMemo (<[key_of a := length (objects m)]> (table m)) (objects m ++ [v]))
      end
  end.

Definition Get (a : A) (m : Memo V) : option nat * Memo V :=
  match read_locked a m with Some l => (Some l, m) | None => write_locked a m end.

Definition Clear (m : Memo V) : Memo V := mkMemo ∅ (objects m).

Definition Size (m : Memo V) : nat := base.size (table m).

Definition step (e : Event A) (s : State A V) : option (State A V * Reply A) :=
  match e with
  | EGet a =>
      Some (match read_locked a (memo s) with
            | Some l => (s, Got a l)
            | None => (mkState (memo s) (waiting s ++ [a]), Waits)
            end)
  | ELocked i =>
      a ← waiting s !! i;
      let '(r, m) := write_locked a (memo s) in
      Some (mkState m (delete i (waiting s)), match r with Some l => Got a l | None => Panics a end)
  | EClear => Some (mkState (Clear (memo s)) (waiting s), Cleared)
  end.

(** Runs whose calls have arguments in [P]. *)
Context (P : A → Prop).

Definition event_ok (s : State A V) (e : Event A) : Prop := match e with EGet a => P a | _ => True end.

(** An object made for one of the arguments a key stands for. *)
Definition made (key : string) (l : nat) (m : Memo V) : Prop :=
  ∃ a v, P a ∧ key_of a = key ∧ make a = Some v ∧ objects m !! l = Some v.

Definition table_ok (m : Memo V) : Prop := ∀ key l, table m !! key = Some l → made key l m.

Definition state_ok (s : State A V) : Prop := table_ok (memo s) ∧ Forall P (waiting s).

(** What a reply tells: the object was made for its key, or making it fails. *)
Definition reply_ok (s : State A V) (r : Reply A) : Prop :=
  match r with
  | Got a l => P a ∧ made (key_of a) l (memo s)
  | Panics a => P a ∧ make a = None
  | _ => True
  end.

(** ** Lemmas *)

Lemma made_prefix key l m m' : objects m `prefix_of` objects m' → made key l m → made key l m'.
Proof. intros Hp (a & v & ? & ? & ? & ?). exists a, v. split_and!; [done..|by eapply prefix_lookup_Some]. Qed.

Lemma write_locked_ok a m r m' :
  P a → table_ok m → write_locked a m = (r, m') →
  table_ok m' ∧ objects m `prefix_of` objects m' ∧ table m ⊆ table m' ∧
  match r with
  | Some l => table m' !! key_of a = Some l
  | None => make a = None
  end.
Proof.
  intros HP Hok Hw. unfold write_locked in Hw. destruct (table m !! key_of a) as [l|] eqn:Hl.
  { simplify_eq. by split_and!. }
  destruct (make a) as [v|] eqn:Hv; simplify_eq/=; [|by split_and!].
  split_and!; [|by apply prefix_app_r|by apply insert_subseteq|by apply lookup_insert_eq].
  intros k l Hk. simpl in Hk. apply lookup_insert_Some in Hk as [[<- <-]|[_ Hk]].
  - exists a, v. split_and!; [done..|]. simpl. by rewrite lookup_app_r, Nat.sub_diag by done.
  - eapply made_prefix; [|by apply Hok]. by apply prefix_app_r.
Qed.

Lemma memo_step_ok e s s' r :
  state_ok s → event_ok s e → step e s = Some (s', r) →
  state_ok s' ∧ objects (memo s) `prefix_of` objects (memo s') ∧ reply_ok s' r ∧
  (e ≠ EClear → table (memo s) ⊆ table (memo s') ∧
                match r with Got a l => table (memo s') !! key_of a = Some l | _ => True end).
Proof.
  intros [Hok Hwait] He Hs. destruct e as [a|i|]; simpl in Hs, He.
  - unfold read_locked in Hs. destruct (table (memo s) !! key_of a) as [l|] eqn:Hl; simplify_eq/=.
    + split_and!; [done|done|done|by apply Hok|done].
    + split_and!; [split; [done|]|done..]. apply Forall_app. by split; [|apply Forall_singleton].
  - destruct (waiting s !! i) as [a|] eqn:Hi; simplify_eq/=.
    assert (HP : P a) by by eapply Forall_lookup_1.
    destruct (write_locked a (memo s)) as [r0 m] eqn:Hw. simplify_eq/=.
    destruct (write_locked_ok _ _ _ _ HP Hok Hw) as (Hok' & Hpre & Hsub & Hr).
    split_and!; [split; [done|by apply Forall_delete]|done| |intros _; split; [done|by destruct r0]].
    destruct r0; simpl; (split; [done|]); [by apply Hok'|done].
  - simplify_eq/=. split_and!; [split; [by intros k l Hk|done]|done|done|done].
Qed.

Lemma reply_prefix s s' r : objects (memo s) `prefix_of` objects (memo s') → reply_ok s r → reply_ok s' r.
Proof. intros Hp. destruct r; simpl; [done| |done|done]. intros [? ?]. split; [done|by eapply made_prefix]. Qed.

Lemma memo_run_ok evs s s' rs :
  state_ok s → along step event_ok evs s → run_steps step evs s = Some (s', rs) →
  objects (memo s) `prefix_of` objects (memo s') ∧ (∀ r, r ∈ rs → reply_ok s' r) ∧
  (EClear ∉ evs → table (memo s) ⊆ table (memo s') ∧ ∀ a l, Got a l ∈ rs → table (memo s') !! key_of a = Some l).
Proof.
  revert s rs. induction evs as [|e evs IH]; intros s rs Hok Hal Hrun.
  { simplify_eq/=. split_and!; [done|by intros ? ?%elem_of_nil|]. intros _. split; [done|by intros ?? ?%elem_of_nil]. }
  destruct (run_steps_cons _ _ _ _ _ _ Hrun) as (s1 & r & rs' & Hs & Hr & ->).
  destruct Hal as [He Hal]. rewrite Hs in Hal.
  destruct (memo_step_ok _ _ _ _ Hok He Hs) as (Hok1 & Hpre1 & Hr1 & Hkeep1).
  destruct (IH s1 rs' Hok1 Hal Hr) as (Hpre & Hrs & Hkeep). split_and!; [by transitivity (objects (memo s1))| |].
  - intros r' [->|Hin]%elem_of_cons; [by eapply reply_prefix|by apply Hrs].
  - intros [Hne Hni]%not_elem_of_cons. destruct Hkeep1 as [Hsub1 Hgot1]; [done|]. destruct (Hkeep Hni) as [Hsub Hgot].
    split; [by transitivity (table (memo s1))|]. intros a l [<-|Hin]%elem_of_cons; [|by apply Hgot].
    by eapply lookup_weaken.
Qed.

(** From an empty table: what a call returns was made for its own arguments,
    if no others share the key, and the calls for one key agree. *)
Lemma run_transparent evs s rs :
  (∀ a b, P a → P b → key_of a = key_of b → a = b) →
  along step event_ok evs (mkState empty_memo []) → run_steps step evs (mkState empty_memo []) = Some (s, rs) →
  (∀ a l, Got a l ∈ rs → ∃ v, make a = Some v ∧ objects (memo s) !! l = Some v) ∧
  (∀ a, Panics a ∈ rs → make a = None) ∧
  (EClear ∉ evs → ∀ a l l', Got a l ∈ rs → Got a l' ∈ rs → l = l').
Proof.
  intros Hinj Hal Hrun. assert (Hok : state_ok (mkState empty_memo [])) by by split.
  destruct (memo_run_ok _ _ _ _ Hok Hal Hrun) as (_ & Hrs & Hkeep). split_and!.
  - intros a l Ha. destruct (Hrs _ Ha) as (HPa & b & v & HPb & Ek & Hv & Ho).
    rewrite (Hinj b a HPb HPa Ek) in Hv. by exists v.
  - intros a Ha. by destruct (Hrs _ Ha).
  - intros Hc a l l' Ha Ha'. destruct (Hkeep Hc) as [_ Hgot].
    pose proof (Hgot _ _ Ha). pose proof (Hgot _ _ Ha'). congruence.
Qed.

End Memo.

End Memo.
