(* ===== verification/Regex.v ===== *)
(** * The cache of regular expressions (src/internal/regex/cache.go)

    A compiled expression is kept under its pattern followed by its options as a
    character.  The compiler is any function; the table is that of [Memo]. *)

From S2P Require Import Prelude Text Memo.

Module Regex.
Import Memo.Memo.

(** [string(rune(n))]: UTF-8, with U+FFFD for what is no character. *)
Definition byte (n : Z) : ascii := ascii_of_nat (Z.to_nat n).

Definition encode_rune (r : Z) : string :=
  let r := if (r <? 0) || (1114111 <? r) || ((55296 <=? r) && (r <=? 57343)) then Text.RuneError else r in
  String.string_of_list_ascii
    (if r <? 128 then [byte r]
     else if r <? 2048 then [byte (192 + r / 64); byte (128 + r mod 64)]
     else if r <? 65536 then [byte (224 + r / 4096); byte (128 + r / 64 mod 64); byte (128 + r mod 64)]
     else [byte (240 + r / 262144); byte (128 + r / 4096 mod 64); byte (128 + r / 64 mod 64); byte (128 + r mod 64)]).

(** A pattern and its options, flags of 32 bits. *)
Abbreviation Args := (string * Z)%type (only parsing).

Definition cache_key (a : Args) : string := (a.1 +:+ encode_rune (i32 a.2))%string.

Definition NewCache {V} : Memo V := empty_memo.

Definition cache_Get {V} (MustCompile : Args → option V) : Args → Memo V → option nat * Memo V :=
  Get cache_key MustCompile.

Definition cache_step {V} (MustCompile : Args → option V) : Event Args → State Args V → option (State Args V * Reply Args) :=
  step cache_key MustCompile.

(** The flags of the library: any combination is below 2048. *)
Definition flags_ok (a : Args) : Prop := 0 ≤ a.2 < 2048.

Definition sample_compile (a : Args) : option Args := if decide (a.1 = "(") then None else Some a.

(** ** Lemmas *)

Lemma list_of_inj (s t : string) : String.list_ascii_of_string s = String.list_ascii_of_string t → s = t.
Proof.
  intros E. by rewrite <- (String.string_of_list_ascii_of_string s), E, String.string_of_list_ascii_of_string.
Qed.

Lemma byte_inj n m : 0 ≤ n < 256 → 0 ≤ m < 256 → byte n = byte m → n = m.
Proof.
  intros Hn Hm E. apply (f_equal nat_of_ascii) in E. unfold byte in E.
  rewrite !nat_ascii_embedding in E by lia. lia.
Qed.

(** No flag's bytes end another's after other bytes. *)
Lemma cache_key_inj a b : flags_ok a → flags_ok b → cache_key a = cache_key b → a = b.
Proof.
  destruct a as [p n], b as [q m]. unfold flags_ok, cache_key. simpl. intros Hn Hm E.
  apply (f_equal String.list_ascii_of_string) in E. rewrite !Text.list_ascii_app in E.
  unfold encode_rune in E. rewrite !String.list_ascii_of_string_of_list_ascii in E.
  assert (Hid : ∀ k, 0 ≤ k < 2048 → i32 k = k) by (intros k Hk; apply wrap_id; lia).
  rewrite !Hid in E by done.
  assert (Hok : ∀ k, 0 ≤ k < 2048 → (k <? 0) || (1114111 <? k) || ((55296 <=? k) && (k <=? 57343)) = false) by lia.
  rewrite !Hok in E by done.
  assert (Hdiv : ∀ k, 0 ≤ k < 2048 → 0 ≤ k / 64 < 32 ∧ 0 ≤ k mod 64 < 64)
    by (intros k Hk; pose proof (Z.mod_pos_bound k 64); split; [split; [apply Z.div_pos|apply Z.div_lt_upper_bound]|]; lia).
  destruct (Hdiv n Hn), (Hdiv m Hm).
  destruct (Z.ltb_spec n 128), (Z.ltb_spec m 128), (Z.ltb_spec n 2048), (Z.ltb_spec m 2048); try lia.
  - apply app_inj_2 in E as [Ep [= Eb]]; [|done]. apply byte_inj in Eb as ->; [|lia..]. by rewrite (list_of_inj _ _ Ep).
  - apply (f_equal last) in E. rewrite !last_app in E. simpl in E. injection E as E%byte_inj; lia.
  - apply (f_equal last) in E. rewrite !last_app in E. simpl in E. injection E as E%byte_inj; lia.
  - apply app_inj_2 in E as [Ep [= E1 E2]]; [|done]. apply byte_inj in E1, E2; try lia.
    rewrite (list_of_inj _ _ Ep). f_equal. pose proof (Z.div_mod n 64). pose proof (Z.div_mod m 64). lia.
Qed.

(** ** Properties *)

(** The cache is transparent.  Whatever gets and clears run together, a call with
    flags of the library returns an expression compiled from its own pattern
    and options, never another's, and panics only if these do not compile;
    and as long as nobody clears the cache, all calls for one pattern and
    options return one and the same object. *)
Theorem regex_cache_transparent {V} (MustCompile : Args → option V) evs (s : State Args V) rs :
  along (cache_step MustCompile) (event_ok flags_ok) evs (mkState NewCache []) →
  run_steps (cache_step MustCompile) evs (mkState NewCache []) = Some (s, rs) →
  (∀ a l, Got a l ∈ rs → ∃ v, MustCompile a = Some v ∧ objects (memo s) !! l = Some v) ∧
  (∀ a, Panics a ∈ rs → MustCompile a = None) ∧
  (EClear ∉ evs → ∀ a l l', Got a l ∈ rs → Got a l' ∈ rs → l = l').
Proof. apply run_transparent, cache_key_inj. Qed.

(** Two goroutines compile the same pattern at once, a third another. *)
Lemma regex_cache_transparent_witness :
  let evs := [EGet ("a", 1); EGet ("a", 1); EGet ("a", 0); ELocked 1; ELocked 0; ELocked 0] in
  ∃ s rs, run_steps (cache_step sample_compile) evs (mkState NewCache []) = Some (s, rs) ∧
    rs = [Waits; Waits; Waits; Got ("a", 1) 0; Got ("a", 1) 0; Got ("a", 0) 1] ∧
    ∃ v, sample_compile ("a", 0) = Some v ∧ objects (memo s) !! 1%nat = Some v.
Proof.
  intros evs. eexists _, _. split; [vm_compute; reflexivity|]. split; [done|].
  eapply (regex_cache_transparent sample_compile evs); [|vm_compute; reflexivity|].
  - vm_compute. repeat split; by intros.
  - do 5 apply list_elem_of_further. apply list_elem_of_here.
Defined.

End Regex.
