(* ===== verification/Snowflake.v ===== *)
(** * Snowflake identifiers (src/snowflake/snowflake.go)

    The generator is a record of four [int64] fields; the clock is the list of
    millisecond readings that successive calls of [time.Now().UnixMilli()]
    return, so a busy wait is a structural recursion on the readings and the
    result is [None] only when the readings run out.  Bytes of decimal strings
    are Rocq [ascii] characters. *)

From S2P Require Import Prelude.

Module Snowflake.

Inductive Error :=
| ErrInvalidNodeID
| ErrInvalidEpoch
| ErrClockMovedBack
| ErrIDOverflow
| ErrEmptyString
| ErrInvalidCharacter.

Definition DefaultEpoch : Z := 1704067200000.

Definition nodeIDBits : Z := 10.

Definition sequenceBits : Z := 12.

Definition maxNodeID : Z := Z.lxor (-1) (Z.shiftl (-1) nodeIDBits).

Definition maxSequence : Z := Z.lxor (-1) (Z.shiftl (-1) sequenceBits).

Definition nodeIDShift : Z := sequenceBits.

Definition timestampShift : Z := sequenceBits + nodeIDBits.

Record Generator := mkGenerator {
  epoch : Z;
  nodeID : Z;
  timestamp : Z;
  sequence : Z
}.

Definition Option := Generator → Generator.

Definition WithEpoch (e : Z) : Option :=
  λ g, mkGenerator e (nodeID g) (timestamp g) (sequence g).

(** [New nodeID opts now]: [now] is the reading of the clock. *)
Definition New (node : Z) (opts : list Option) (now : Z) : res Error Generator :=
  if (node <? 0) || (maxNodeID <? node) then Err ErrInvalidNodeID
  else
    let g := foldl (λ g opt, opt g) (mkGenerator DefaultEpoch node 0 0) opts in
    if now <? epoch g then Err ErrInvalidEpoch else Ok g.

(** Spin until a reading is past [last]. *)
Fixpoint waitNextMillis (g : Generator) (last : Z) (clk : list Z) : option (Z * list Z) :=
  match clk with
  | [] => None
  | t :: clk =>
      let now := i64 (t - epoch g) in
      if now <=? last then waitNextMillis g last clk else Some (now, clk)
  end.

(** The packed identifier: timestamp, node, sequence. *)
Definition pack (now node seq : Z) : Z :=
  Z.lor (Z.lor (i64 (Z.shiftl now timestampShift)) (i64 (Z.shiftl node nodeIDShift))) seq.

Definition Generate (g : Generator) (clk : list Z)
    : option (res Error Z * Generator * list Z) :=
  match clk with
  | [] => None
  | t :: clk =>
      let now := i64 (t - epoch g) in
      if now <? timestamp g then Some (Err ErrClockMovedBack, g, clk)
      else
        let emit now seq clk :=
          Some (Ok (pack now (nodeID g) seq),
                mkGenerator (epoch g) (nodeID g) now seq, clk) in
        if now =? timestamp g then
          let seq := Z.land (i64 (sequence g + 1)) maxSequence in
          if seq =? 0 then
            match waitNextMillis g now clk with
            | Some (now', clk') => emit now' seq clk'
            | None => None
            end
          else emit now seq clk
        else emit now 0 clk
  end.

Record ID := mkID {
  Timestamp : Z;
  NodeID : Z;
  Sequence : Z
}.

Definition Parse (id : Z) : ID :=
  mkID (Z.shiftr id timestampShift)
       (Z.land (Z.shiftr id nodeIDShift) maxNodeID)
       (Z.land id maxSequence).

(** [ID.Time]: milliseconds since the Unix epoch. *)
Definition IDTime (id : ID) : Z := i64 (Timestamp id + DefaultEpoch).

(** The digit [byte(n%10) + '0']. *)
Definition digit (n : Z) : ascii := ascii_of_nat (Z.to_nat (48 + Z.rem n 10)).

(** The loop of [int64ToString]: [room] is the number of free bytes of the
    20-byte buffer; [None] is the index panic of a full buffer. *)
Fixpoint digits_loop (room : nat) (n : Z) (buf : string) : option (nat * string) :=
  if 0 <? n then
    match room with
    | O => None
    | S room => digits_loop room (Z.quot n 10) (String (digit n) buf)
    end
  else Some (room, buf).

Definition int64ToString (n : Z) : option string :=
  if n =? 0 then Some "0"%string
  else
    let neg := n <? 0 in
    let n := if neg then i64 (- n) else n in
    match digits_loop 20 n "" with
    | None => None
    | Some (room, buf) =>
        if neg then
          match room with O => None | S _ => Some (String "-" buf) end
        else Some buf
    end.

(** The loop of [stringToInt64] over the bytes from [start]. *)
Fixpoint parse_loop (n : Z) (s : string) : res Error Z :=
  match s with
  | EmptyString => Ok n
  | String c s =>
      let b := Z.of_nat (nat_of_ascii c) in
      if (b <? 48) || (57 <? b) then Err ErrInvalidCharacter
      else parse_loop (i64 (i64 (n * 10) + (b - 48))) s
  end.

Definition stringToInt64 (s : string) : res Error Z :=
  match s with
  | EmptyString => Err ErrEmptyString
  | String c rest =>
      if Ascii.eqb c "-" then
        let? n := parse_loop 0 rest in Ok (i64 (- n))
      else parse_loop 0 s
  end.

Definition GenerateString (g : Generator) (clk : list Z)
    : option (res Error string * Generator * list Z) :=
  match Generate g clk with
  | None => None
  | Some (Err e, g', clk') => Some (Err e, g', clk')
  | Some (Ok id, g', clk') =>
      match int64ToString id with
      | None => None
      | Some s => Some (Ok s, g', clk')
      end
  end.

Definition ParseString (s : string) : res Error ID :=
  let? id := stringToInt64 s in Ok (Parse id).

Definition NodeIDFromIP (ip : Z) : Z := Z.rem (Z.land ip 65535) 1024.

Definition NodeIDFromMac (mac : Z) : Z := Z.land mac 1023.

(** [n] successive calls of [Generate]: every result in order, the final
    generator and the readings left. *)
Fixpoint generate_many (n : nat) (g : Generator) (clk : list Z)
    : option (list (res Error Z) * Generator * list Z) :=
  match n with
  | O => Some ([], g, clk)
  | S n =>
      match Generate g clk with
      | None => None
      | Some (r, g', clk') =>
          match generate_many n g' clk' with
          | None => None
          | Some (rs, g'', clk'') => Some (r :: rs, g'', clk'')
          end
      end
  end.

(** A generator as [New] returns it and [Generate] keeps it. *)
Definition wf (g : Generator) : Prop :=
  0 ≤ nodeID g ≤ 1023 ∧ 0 ≤ timestamp g < 2 ^ 41 ∧ 0 ≤ sequence g ≤ 4095.

(** A clock reading inside the 41-bit lifetime of the generator's epoch. *)
Definition reading_ok (g : Generator) (t : Z) : Prop :=
  - 2 ^ 63 ≤ t - epoch g < 2 ^ 41.

(** The arithmetic value of an identifier. *)
Definition id_value (now node seq : Z) : Z := now * 2 ^ 22 + node * 2 ^ 12 + seq.

#[local] Arguments Parse : simpl never.

#[local] Arguments id_value : simpl never.

(** ** Identifiers as arithmetic *)

Lemma maxSequence_val : maxSequence = 4095.
Proof. reflexivity. Qed.

Lemma maxNodeID_val : maxNodeID = 1023.
Proof. reflexivity. Qed.

Lemma pack_value now node seq :
  0 ≤ now < 2 ^ 41 → 0 ≤ node ≤ 1023 → 0 ≤ seq ≤ 4095 →
  pack now node seq = id_value now node seq.
Proof.
  intros Hn Hd Hs. unfold pack, id_value.
  change timestampShift with 22. change nodeIDShift with 12.
  rewrite !Z.shiftl_mul_pow2 by lia.
  rewrite (i64_id (now * _)), (i64_id (node * _)) by word.
  rewrite (lor_shifted_low now (node * 2 ^ 12) 22) by lia.
  replace (now * 2 ^ 22 + node * 2 ^ 12) with ((now * 2 ^ 10 + node) * 2 ^ 12) by lia.
  rewrite lor_shifted_low by lia. lia.
Qed.

Lemma parse_value now node seq :
  0 ≤ node ≤ 1023 → 0 ≤ seq ≤ 4095 →
  Parse (id_value now node seq) = mkID now node seq.
Proof.
  intros Hd Hs. unfold Parse, id_value.
  change timestampShift with 22. change nodeIDShift with 12.
  change maxNodeID with (2 ^ 10 - 1). change maxSequence with (2 ^ 12 - 1).
  rewrite !Z.shiftr_div_pow2, !land_mask by lia.
  f_equal; Z.to_euclidean_division_equations; lia.
Qed.

(** ** The busy wait *)

Lemma waitNextMillis_spec g last clk now clk' :
  waitNextMillis g last clk = Some (now, clk') →
  last < now ∧ ∃ skipped t, clk = skipped ++ t :: clk' ∧ now = i64 (t - epoch g) ∧
    Forall (λ s, i64 (s - epoch g) ≤ last) skipped.
Proof.
  revert now clk'. induction clk as [|t clk IH]; intros now clk' H; simpl in H; [done|].
  case_match eqn:E.
  - destruct (IH _ _ H) as (Hlt & skipped & t' & -> & -> & Hall).
    split; [done|]. exists (t :: skipped), t'. repeat split; try done.
    constructor; [lia | done].
  - simplify_eq. split; [lia|]. exists [], t. done.
Qed.

Lemma waitNextMillis_total g last clk t :
  t ∈ clk → last < i64 (t - epoch g) → is_Some (waitNextMillis g last clk).
Proof.
  induction clk as [|u clk IH]; intros Hin Hlt; simpl; [set_solver|].
  case_match eqn:E; [|eauto]. apply elem_of_cons in Hin as [->|Hin]; [lia|auto].
Qed.

(** ** One call *)

Lemma land_maxSequence_range x : 0 ≤ Z.land x maxSequence ≤ 4095.
Proof.
  change maxSequence with (2 ^ 12 - 1). rewrite land_mask by lia.
  pose proof (Z.mod_pos_bound x (2 ^ 12)). lia.
Qed.

Lemma reading_value g t : wf g → reading_ok g t → i64 (t - epoch g) = t - epoch g.
Proof. intros _ H. apply i64_id. unfold reading_ok in H. word. Qed.

(** What a call does, with the new generator, on each outcome. *)
Lemma Generate_cases g clk r g' clk' :
  wf g → Forall (reading_ok g) clk →
  Generate g clk = Some (r, g', clk') →
  Forall (reading_ok g') clk' ∧
  ((r = Err ErrClockMovedBack ∧ g' = g) ∨
   (∃ now seq, r = Ok (id_value now (nodeID g) seq) ∧
      g' = mkGenerator (epoch g) (nodeID g) now seq ∧
      wf g' ∧
      id_value (timestamp g) (nodeID g) (sequence g) < id_value now (nodeID g) seq)).
Proof.
  intros Hwf Hclk H. pose proof Hwf as (Hn & Ht & Hs).
  destruct clk as [|t clk]; [done|]. simpl in H.
  apply Forall_cons in Hclk as [Hrt Hclk].
  rewrite (reading_value g t Hwf Hrt) in H. unfold reading_ok in Hrt.
  case_match eqn:E1; [simplify_eq; auto|].
  case_match eqn:E2; [case_match eqn:E3|].
  - case_match eqn:E4; [|done]. destruct p as [now' clk'']. simplify_eq.
    destruct (waitNextMillis_spec _ _ _ _ _ E4) as (Hlt & sk & t' & -> & -> & _).
    apply Forall_app in Hclk as [_ Hclk]. apply Forall_cons in Hclk as [Hrt' Hclk].
    rewrite (reading_value g t' Hwf Hrt') in *. unfold reading_ok in Hrt'.
    split; [done|]. right. exists (t' - epoch g), (Z.land (i64 (sequence g + 1)) maxSequence).
    apply Z.eqb_eq in E3. rewrite !E3. rewrite pack_value by lia.
    split; [done|]. split; [done|]. split; [unfold wf; simpl; lia|]. unfold id_value. lia.
  - simplify_eq. split; [done|]. right. eexists _, _. pose proof (land_maxSequence_range (i64 (sequence g + 1))).
    rewrite pack_value by lia.
    split; [done|]. split; [done|]. split; [unfold wf; simpl; lia|].
    rewrite i64_id in * by word. change maxSequence with (2 ^ 12 - 1) in *.
    rewrite land_mask in * by lia. unfold id_value.
    assert (sequence g < 4095 ∨ sequence g = 4095) as [Hlt | Heq] by lia;
      [|by rewrite Heq in E3].
    rewrite (Z.mod_small (sequence g + 1)) by lia. lia.
  - simplify_eq. split; [done|]. right. eexists _, _. rewrite pack_value by lia.
    split; [done|]. split; [done|]. split; [unfold wf; simpl; lia|]. unfold id_value. lia.
Qed.

(** ** Decimal strings *)

Lemma digit_value n : 0 ≤ n → Z.of_nat (nat_of_ascii (digit n)) = 48 + n `mod` 10.
Proof.
  intros Hn. unfold digit. rewrite Z.rem_mod_nonneg by lia.
  pose proof (Z.mod_pos_bound n 10).
  rewrite nat_ascii_embedding by lia. lia.
Qed.

(** Reading back what the digit loop wrote in front of [buf]. *)
Lemma digits_loop_parse room n buf room' s :
  0 ≤ n < 2 ^ 63 → digits_loop room n buf = Some (room', s) →
  parse_loop 0 s = parse_loop n buf.
Proof.
  revert n buf. induction room as [|room IH]; intros n buf Hn H; simpl in H.
  { case_match; simplify_eq. f_equal. lia. }
  case_match eqn:E; [|simplify_eq; f_equal; lia].
  assert (Z.quot n 10 = n / 10) as Eq by (apply Z.quot_div_nonneg; lia).
  rewrite Eq in H. apply IH in H; [|Z.to_euclidean_division_equations; lia].
  rewrite H. simpl. rewrite digit_value by lia.
  pose proof (Z.mod_pos_bound n 10).
  replace (((48 + n `mod` 10 <? 48) || (57 <? 48 + n `mod` 10))) with false by lia.
  f_equal. rewrite (i64_id (n / 10 * 10)), i64_id;
    [Z.to_euclidean_division_equations; lia|
     unfold in_i64; Z.to_euclidean_division_equations; lia..].
Qed.

(** The buffer has room for every non-negative [int64], with a byte to spare. *)
Lemma digits_loop_room room n buf :
  0 ≤ n < 10 ^ Z.of_nat room →
  ∃ s, digits_loop (S room) n buf = Some s ∧ (0 < fst s)%nat.
Proof.
  revert n buf. induction room as [|room IH]; intros n buf Hn.
  { simpl in *. replace (0 <? n) with false by lia. eexists. split; [done|]. simpl. lia. }
  change (∃ s, (if 0 <? n then digits_loop (S room) (Z.quot n 10) (String (digit n) buf)
                else Some (S (S room), buf)) = Some s ∧ (0 < fst s)%nat).
  case_match; [|eexists; split; [done|simpl; lia]].
  apply IH. rewrite Nat2Z.inj_succ, Z.pow_succ_r in Hn by lia.
  Z.to_euclidean_division_equations; lia.
Qed.

(** The first byte of a printed positive number is a digit. *)
Lemma digits_loop_head room n buf room' s :
  0 < n → digits_loop room n buf = Some (room', s) →
  ∃ m rest, 0 ≤ m ∧ s = String (digit m) rest.
Proof.
  revert n buf. induction room as [|room IH]; intros n buf Hn H; simpl in H;
    replace (0 <? n) with true in H by lia; [done|].
  destruct (Z.lt_ge_cases (Z.quot n 10) 1) as [Hz | Hz].
  - assert (Z.quot n 10 = 0) as E0 by (pose proof (Z.quot_pos n 10); lia).
    rewrite E0 in H. destruct room; simpl in H; simplify_eq; exists n; eexists; (split; [lia|done]).
  - apply IH in H; [done|lia].
Qed.

Lemma digit_not_minus m : 0 ≤ m → Ascii.eqb (digit m) "-" = false.
Proof.
  intros Hm. apply Ascii.eqb_neq. intros E. pose proof (digit_value m Hm) as D.
  rewrite E in D. change (Z.of_nat (nat_of_ascii "-")) with 45 in D. pose proof (Z.mod_pos_bound m 10). lia.
Qed.

Lemma int64ToString_parse n :
  - 2 ^ 63 < n < 2 ^ 63 →
  ∃ s, int64ToString n = Some s ∧ stringToInt64 s = Ok n.
Proof.
  intros Hn. unfold int64ToString. case_match eqn:E0.
  { assert (n = 0) as -> by lia. eexists. split; [done|reflexivity]. }
  set (m := if n <? 0 then i64 (- n) else n).
  assert (m = Z.abs n) as Hm by (subst m; case_match; [rewrite i64_id by word|]; lia).
  destruct (digits_loop_room 19 m "") as ([room buf] & Hloop & Hroom);
    [change (10 ^ Z.of_nat 19) with 10000000000000000000; lia|].
  rewrite Hloop. pose proof (digits_loop_parse 20 m "" room buf ltac:(lia) Hloop) as Hp. simpl in Hp.
  destruct (n <? 0) eqn:E.
  - simpl in Hroom. destruct room as [|room]; [lia|]. eexists. split; [done|].
    simpl. rewrite Hp. simpl. f_equal. rewrite i64_id; word.
  - eexists. split; [done|].
    destruct (digits_loop_head 20 m "" room buf ltac:(lia) Hloop) as (d & rest & Hd & ->).
    unfold stringToInt64. rewrite digit_not_minus by done. by rewrite Hp.
Qed.

(** [math.MinInt64] has no positive counterpart, so its digits are lost: the
    conversion returns the lone sign, which parses back as zero. *)
Lemma int64ToString_min :
  int64ToString (- 2 ^ 63) = Some "-"%string ∧ stringToInt64 "-" = Ok 0.
Proof. done. Qed.

(** Overlong input wraps around silently instead of being refused. *)
Lemma stringToInt64_overflow : stringToInt64 "18446744073709551617" = Ok 1.
Proof. done. Qed.

(** ** Construction *)

Lemma foldl_WithEpoch es g :
  ∃ e, foldl (λ g opt, opt g) g (map WithEpoch es) =
       mkGenerator e (nodeID g) (timestamp g) (sequence g).
Proof.
  revert g. induction es as [|e es IH]; intros g; simpl.
  - exists (epoch g). by destruct g.
  - destruct (IH (WithEpoch e g)) as [e' ->]. by exists e'.
Qed.

Lemma New_Ok node es now g :
  New node (map WithEpoch es) now = Ok g →
  wf g ∧ nodeID g = node ∧ timestamp g = 0 ∧ sequence g = 0 ∧ epoch g ≤ now.
Proof.
  unfold New. change maxNodeID with 1023.
  destruct (foldl_WithEpoch es (mkGenerator DefaultEpoch node 0 0)) as [e ->].
  intros H. repeat case_match; simplify_eq/=. unfold wf; simpl. lia.
Qed.

(** ** Sequences of calls *)

Lemma generate_many_increasing n g clk rs g' clk' :
  wf g → Forall (reading_ok g) clk →
  generate_many n g clk = Some (rs, g', clk') →
  wf g' ∧ nodeID g' = nodeID g ∧ Forall (reading_ok g') clk' ∧
  StronglySorted Z.lt (id_value (timestamp g) (nodeID g) (sequence g) :: oks rs).
Proof.
  revert g clk rs. induction n as [|n IH]; intros g clk rs Hwf Hclk H; simpl in H.
  { simplify_eq/=. split_and!; [done..|repeat constructor]. }
  destruct (Generate g clk) as [[[r g1] clk1]|] eqn:EG; [|done].
  destruct (generate_many n g1 clk1) as [[[rs1 g2] clk2]|] eqn:EM; [|done]. simplify_eq.
  destruct (Generate_cases _ _ _ _ _ Hwf Hclk EG) as [Hclk1 [[-> ->] | Hok]]; [cbn [oks]; eauto|].
  destruct Hok as (now & seq & -> & -> & Hwf1 & Hlt).
  destruct (IH _ _ _ Hwf1 Hclk1 EM) as (Hwf2 & Hnode & Hclk2 & Hsort). simpl in *.
  split; [done|]. split; [done|]. split; [done|]. constructor; [done|].
  apply StronglySorted_inv in Hsort as [_ Hall].
  constructor; [done|]. eapply Forall_impl; [done|]. simpl. lia.
Qed.

Lemma generate_many_nodes n g clk rs g' clk' :
  wf g → Forall (reading_ok g) clk →
  generate_many n g clk = Some (rs, g', clk') →
  Forall (λ id, NodeID (Parse id) = nodeID g) (oks rs).
Proof.
  revert g clk rs. induction n as [|n IH]; intros g clk rs Hwf Hclk H; simpl in H.
  { simplify_eq. constructor. }
  destruct (Generate g clk) as [[[r g1] clk1]|] eqn:EG; [|done].
  destruct (generate_many n g1 clk1) as [[[rs1 g2] clk2]|] eqn:EM; [|done]. simplify_eq.
  destruct (Generate_cases _ _ _ _ _ Hwf Hclk EG) as [Hclk1 [[-> ->] | Hok]]; [cbn [oks]; eauto|].
  destruct Hok as (now & seq & -> & -> & Hwf1 & _). cbn [oks]. constructor.
  - destruct Hwf1 as (? & ? & ?). simpl in *|-. by rewrite parse_value by lia.
  - by apply (IH _ _ _ Hwf1 Hclk1 EM).
Qed.

(** Under a clock that never steps back, no call is refused. *)
Lemma Generate_monotone g clk r g' clk' :
  wf g → Forall (reading_ok g) clk →
  StronglySorted Z.le (timestamp g + epoch g :: clk) →
  Generate g clk = Some (r, g', clk') →
  is_ok r = true ∧ StronglySorted Z.le (timestamp g' + epoch g' :: clk').
Proof.
  intros Hwf Hclk Hs H. destruct clk as [|t clk]; [done|]. simpl in H.
  apply Forall_cons in Hclk as [Hrt Hclk].
  apply StronglySorted_inv in Hs as [Hs Hge]. apply Forall_cons in Hge as [Hge _].
  rewrite (reading_value g t Hwf Hrt) in H.
  case_match eqn:E1; [lia|]. case_match eqn:E2; [case_match eqn:E3|]; simplify_eq/=;
    try (split; [done|]; by replace (t - epoch g + epoch g) with t by lia).
  case_match eqn:E4; [|done]. destruct p as [now' clk'']. simplify_eq/=.
  destruct (waitNextMillis_spec _ _ _ _ _ E4) as (_ & sk & t' & -> & -> & _).
  apply Forall_app in Hclk as [_ Hclk]. apply Forall_cons in Hclk as [Hrt' Hclk].
  rewrite (reading_value g t' Hwf Hrt') in *. split; [done|].
  replace (t' - epoch g + epoch g) with t' by lia.
  apply StronglySorted_inv in Hs as [Hs _].
  clear -Hs. induction sk as [|u sk IH]; simpl in Hs; [done|].
  apply StronglySorted_inv in Hs as [Hs _]. auto.
Qed.

Lemma generate_many_monotone n g clk rs g' clk' :
  wf g → Forall (reading_ok g) clk →
  StronglySorted Z.le (timestamp g + epoch g :: clk) →
  generate_many n g clk = Some (rs, g', clk') →
  Forall (λ r, is_ok r = true) rs.
Proof.
  revert g clk rs. induction n as [|n IH]; intros g clk rs Hwf Hclk Hs H; simpl in H.
  { simplify_eq. constructor. }
  destruct (Generate g clk) as [[[r g1] clk1]|] eqn:EG; [|done].
  destruct (generate_many n g1 clk1) as [[[rs1 g2] clk2]|] eqn:EM; [|done]. simplify_eq.
  destruct (Generate_monotone _ _ _ _ _ Hwf Hclk Hs EG) as [Hok Hs1].
  destruct (Generate_cases _ _ _ _ _ Hwf Hclk EG) as [Hclk1 [[-> ->] | Hc]]; [done|].
  destruct Hc as (now & seq & -> & -> & Hwf1 & _). constructor; [done|]. eauto.
Qed.

(** ** Properties *)

(** C34. The identifiers a generator hands out are strictly increasing, hence
    pairwise distinct, and they carry its node, whatever the clock does (steps
    back are refused, a full sequence waits for the next millisecond), as long
    as the readings stay inside the 41-bit lifetime of the epoch. *)
Theorem ids_strictly_increase node es start g n clk rs g' clk' :
  New node (map WithEpoch es) start = Ok g →
  Forall (reading_ok g) clk →
  generate_many n g clk = Some (rs, g', clk') →
  StronglySorted Z.lt (oks rs) ∧ NoDup (oks rs) ∧
  Forall (λ id, 0 < id ∧ NodeID (Parse id) = node) (oks rs).
Proof.
  intros HN Hclk H. destruct (New_Ok _ _ _ _ HN) as (Hwf & Hnode & Ht & Hs & _).
  destruct (generate_many_increasing _ _ _ _ _ _ Hwf Hclk H) as (_ & _ & _ & Hsort).
  apply StronglySorted_inv in Hsort as [Hsort Hpos]. split; [done|]. split.
  - clear -Hsort. induction Hsort as [|a l _ IH Hall]; constructor; [|done].
    rewrite Forall_forall in Hall. intros Hin. specialize (Hall a Hin). lia.
  - pose proof (generate_many_nodes _ _ _ _ _ _ Hwf Hclk H) as Hnodes.
    rewrite Forall_forall in Hnodes, Hpos |- *. intros id Hin.
    rewrite (Hnodes id Hin). specialize (Hpos id Hin).
    rewrite Ht, Hs in Hpos. unfold id_value in Hpos. destruct Hwf. lia.
Qed.

Lemma ids_strictly_increase_witness :
  oks [Ok 5398528; Ok 5398529; Err ErrClockMovedBack; Ok 9592832] =
    [5398528; 5398529; 9592832] ∧
  StronglySorted Z.lt [5398528; 5398529; 9592832] ∧ NoDup [5398528; 5398529; 9592832] ∧
  Forall (λ id, 0 < id ∧ NodeID (Parse id) = 294) [5398528; 5398529; 9592832].
Proof.
  split; [done|].
  apply (ids_strictly_increase 294 [1000] 1001 (mkGenerator 1000 294 0 0) 4
           [1001; 1001; 1000; 1002]
           [Ok 5398528; Ok 5398529; Err ErrClockMovedBack; Ok 9592832]
           (mkGenerator 1000 294 2 0) []);
    [done | repeat constructor; simpl; lia | done].
Defined.

(** Printing a generated identifier and parsing the text gives back exactly
    the timestamp, node and sequence the generator stamped on it: [Generate],
    [int64ToString], [stringToInt64] and [Parse] compose to the identity. *)
Theorem string_id_roundtrip node es start g0 n clk0 rs g clk s g' clk' :
  New node (map WithEpoch es) start = Ok g0 →
  Forall (reading_ok g0) clk0 →
  generate_many n g0 clk0 = Some (rs, g, clk) →
  GenerateString g clk = Some (Ok s, g', clk') →
  ParseString s = Ok (mkID (timestamp g') node (sequence g')).
Proof.
  intros HN Hclk H HG. destruct (New_Ok _ _ _ _ HN) as (Hwf & <- & _).
  destruct (generate_many_increasing _ _ _ _ _ _ Hwf Hclk H) as (Hwf1 & Hn & Hclk1 & _).
  unfold GenerateString in HG.
  destruct (Generate g clk) as [[[[id|e] g1] clk1]|] eqn:EG; simplify_eq.
  destruct (Generate_cases _ _ _ _ _ Hwf1 Hclk1 EG)
    as [_ [[? _] | (now & seq & ? & -> & (Hd & Ht & Hs) & _)]]; simplify_eq. simpl in *.
  destruct (int64ToString_parse (id_value now (nodeID g) seq)) as (s' & E1 & E2).
  { unfold id_value. lia. }
  rewrite E1 in HG. simplify_eq/=. unfold ParseString. rewrite E2. simpl.
  by rewrite parse_value, Hn by lia.
Qed.

Lemma string_id_roundtrip_witness :
  ParseString "5398528" = Ok (mkID 1 294 0).
Proof.
  apply (string_id_roundtrip 294 [1000] 1001 (mkGenerator 1000 294 0 0) 0 [1001] []
           (mkGenerator 1000 294 0 0) [1001] "5398528" (mkGenerator 1000 294 1 0) []);
    [done | repeat constructor; simpl; lia | done | done].
Defined.

(** Progress: when the clock never steps back, every call succeeds, and a
    call returns as soon as some later reading lies past the current one, so
    the wait for the next millisecond always ends. *)
Theorem generate_progress g n clk :
  wf g → Forall (reading_ok g) clk →
  StronglySorted Z.le (timestamp g + epoch g :: clk) →
  (∀ rs g' clk', generate_many n g clk = Some (rs, g', clk') →
     Forall (λ r, is_ok r = true) rs) ∧
  (∀ t rest u, clk = t :: rest → u ∈ rest → t < u → is_Some (Generate g clk)).
Proof.
  intros Hwf Hclk Hs. split; [intros; by eapply generate_many_monotone|].
  intros t rest u -> Hin Hlt. apply Forall_cons in Hclk as [Hrt Hclk]. simpl.
  rewrite (reading_value g t Hwf Hrt). repeat case_match; try (by eauto).
  match goal with E : waitNextMillis _ _ _ = None |- _ => rename E into EW end.
  assert (is_Some (waitNextMillis g (t - epoch g) rest)) as [? ?]; [|congruence].
  eapply waitNextMillis_total; [done|]. rewrite Forall_forall in Hclk.
  rewrite (reading_value g u Hwf) by (by apply Hclk). lia.
Qed.

Lemma generate_progress_witness :
  wf (mkGenerator 0 7 5 4095) ∧ is_Some (Generate (mkGenerator 0 7 5 4095) [5; 5; 6]).
Proof.
  assert (wf (mkGenerator 0 7 5 4095)) as Hwf by (unfold wf; simpl; lia).
  split; [done|].
  apply (generate_progress (mkGenerator 0 7 5 4095) 1 [5; 5; 6]) with (rest := [5; 6]) (u := 6) (t := 5);
    [done | repeat constructor; simpl; lia | repeat constructor; simpl; lia
    | done | set_solver | lia].
Defined.

End Snowflake.
