(* ===== verification/Discovery.v ===== *)
(** * Service discovery (src/discovery/types.go)

    The in-memory registry.  The registry stores the caller's pointers, so the
    instances live in a shared store [heap] and the registry maps a service
    name and an instance id to a location; [Register] and [Heartbeat] write
    through the location, and a query returns copies of the stored records. *)

From stdpp Require Import pretty.
From S2P Require Import Prelude.

Module Discovery.

Inductive Error :=
| ErrInstanceNotFound
| ErrNoInstance
| ErrRegisterFailed
| ErrDeregisterFailed.

Record ServiceInstance := mkInstance {
  ID : string;
  Name : string;
  Address : string;
  Port : Z;
  Metadata : gmap string string;
  Version : string;
  Healthy : bool;
  Weight : Z;
  LastHeartbeat : Time
}.

(** [net.JoinHostPort] brackets a host that holds a colon. *)
Definition has_colon (s : string) : bool :=
  existsb (Ascii.eqb ":") (String.list_ascii_of_string s).

Definition JoinHostPort (host port : string) : string :=
  if has_colon host then ("[" +:+ host +:+ "]:" +:+ port)%string
  else (host +:+ ":" +:+ port)%string.

Definition Addr (s : ServiceInstance) : string :=
  if 0 <? Port s then JoinHostPort (Address s) (pretty (Port s)) else Address s.

Definition FullAddr (s : ServiceInstance) : string := Addr s.

Record Config := mkConfig {
  HeartbeatInterval : Duration;
  HeartbeatTimeout : Duration;
  RefreshInterval : Duration;
  TTL : Duration
}.

Definition DefaultConfig : Config :=
  mkConfig (10 * Second) (30 * Second) (30 * Second) (60 * Second).

(** Locations of the shared store. *)
Abbreviation loc := nat (only parsing).

Abbreviation Heap := (gmap nat ServiceInstance) (only parsing).

Record MemoryRegistry := mkRegistry {
  instances : gmap string (gmap string nat);
  config : Config
}.

Definition NewMemoryRegistry (cfgs : list Config) : MemoryRegistry :=
  mkRegistry ∅ (default DefaultConfig (head cfgs)).

(** The write that [Register] and [Heartbeat] make through the pointer. *)
Definition beat (now : Time) (i : ServiceInstance) : ServiceInstance :=
  mkInstance (ID i) (Name i) (Address i) (Port i) (Metadata i) (Version i)
    true (Weight i) now.

Definition set_instances (r : MemoryRegistry) (m : gmap string (gmap string nat)) :=
  mkRegistry m (config r).

(** [r.instances[name][id]], where a missing inner map reads as empty. *)
Definition find_loc (r : MemoryRegistry) (name id : string) : option nat :=
  m ← instances r !! name; m !! id.

(** [None] is the panic of a nil instance pointer. *)
Definition Register (now : Time) (r : MemoryRegistry) (h : Heap) (l : loc)
    : option (res Error unit * MemoryRegistry * Heap) :=
  match h !! l with
  | None => None
  | Some inst =>
      let m := default ∅ (instances r !! Name inst) in
      Some (Ok (), set_instances r (<[Name inst := <[ID inst := l]> m]> (instances r)),
            <[l := beat now inst]> h)
  end.

Definition Deregister (r : MemoryRegistry) (h : Heap) (l : loc)
    : option (res Error unit * MemoryRegistry) :=
  match h !! l with
  | None => None
  | Some inst =>
      match instances r !! Name inst with
      | Some m => Some (Ok (), set_instances r (<[Name inst := delete (ID inst) m]> (instances r)))
      | None => Some (Ok (), r)
      end
  end.

Definition Heartbeat (now : Time) (r : MemoryRegistry) (h : Heap) (l : loc)
    : option (res Error unit * Heap) :=
  match h !! l with
  | None => None
  | Some inst =>
      match find_loc r (Name inst) (ID inst) with
      | None => Some (Err ErrInstanceNotFound, h)
      | Some l' =>
          match h !! l' with
          | None => None
          | Some inst' => Some (Ok (), <[l' := beat now inst']> h)
          end
      end
  end.

Definition healthy (cfg : Config) (now : Time) (i : ServiceInstance) : bool :=
  Healthy i && (time_sub now (LastHeartbeat i) <=? HeartbeatTimeout cfg).

(** The copy [copyInst] with its health mark. *)
Definition copy_healthy (i : ServiceInstance) : ServiceInstance :=
  mkInstance (ID i) (Name i) (Address i) (Port i) (Metadata i) (Version i)
    true (Weight i) (LastHeartbeat i).

Definition getHealthyInstances `{RangeOrder} (now : Time) (r : MemoryRegistry) (h : Heap)
    (serviceName : string) : list ServiceInstance :=
  match instances r !! serviceName with
  | None => []
  | Some m =>
      omap (λ kv, i ← h !! kv.2;
                  if healthy (config r) now i then Some (copy_healthy i) else None)
           (range_map m)
  end.

Definition GetInstance `{RangeOrder} (now : Time) (r : MemoryRegistry) (h : Heap)
    (serviceName : string) : res Error ServiceInstance :=
  match getHealthyInstances now r h serviceName with
  | [] => Err ErrNoInstance
  | i :: _ => Ok i
  end.

Definition GetInstances `{RangeOrder} (now : Time) (r : MemoryRegistry) (h : Heap)
    (serviceName : string) : res Error (list ServiceInstance) :=
  match getHealthyInstances now r h serviceName with
  | [] => Err ErrNoInstance
  | l => Ok l
  end.

(** One tick of the goroutine of [Watch]: a snapshot is queued on a channel of
    capacity 10, and dropped when the consumer lags. *)
Definition watch_tick `{RangeOrder} (now : Time) (r : MemoryRegistry) (h : Heap)
    (serviceName : string) (ch : list (list ServiceInstance)) : list (list ServiceInstance) :=
  if (length ch <? 10)%nat then ch ++ [getHealthyInstances now r h serviceName] else ch.

(** Every stored location holds an instance under its own name and id. *)
Definition wf (r : MemoryRegistry) (h : Heap) : Prop :=
  ∀ name id l, find_loc r name id = Some l →
    ∃ i, h !! l = Some i ∧ Name i = name ∧ ID i = id.

(** A sample record for evaluations. *)
Definition sample_instance : ServiceInstance :=
  mkInstance "a" "users" "10.0.0.1" 8080 ∅ "v1" false 2 0.

(** ** Lemmas *)

Lemma find_loc_insert r name id l name' id' :
  find_loc (set_instances r (<[name := <[id := l]> (default ∅ (instances r !! name))]> (instances r)))
    name' id' = if decide (name = name' ∧ id = id') then Some l else find_loc r name' id'.
Proof.
  unfold find_loc. simpl. destruct (decide (name = name')) as [->|Hn].
  - rewrite lookup_insert_eq. simpl. destruct (decide (id = id')) as [->|Hi].
    + rewrite lookup_insert_eq. by rewrite decide_True.
    + rewrite lookup_insert_ne by done. rewrite decide_False by naive_solver.
      by destruct (instances r !! name').
  - rewrite lookup_insert_ne by done. by rewrite decide_False by naive_solver.
Qed.

Lemma wf_new cfgs h : wf (NewMemoryRegistry cfgs) h.
Proof. intros name id l H. unfold find_loc in H. simpl in H. by rewrite lookup_empty in H. Qed.

(** Writing a heartbeat through a location keeps every key in place. *)
Lemma wf_beat r h l i now : wf r h → h !! l = Some i → wf r (<[l := beat now i]> h).
Proof.
  intros Hwf Hl name id l' Hf. destruct (Hwf _ _ _ Hf) as (i' & Hi' & <- & <-).
  destruct (decide (l = l')) as [<-|]; simplify_eq.
  - exists (beat now i). by rewrite lookup_insert_eq.
  - exists i'. by rewrite lookup_insert_ne.
Qed.

Lemma Register_wf now r h l e r' h' :
  wf r h → Register now r h l = Some (e, r', h') → wf r' h'.
Proof.
  unfold Register. intros Hwf H. destruct (h !! l) as [i|] eqn:Hl; simplify_eq.
  intros name id l' Hf. rewrite find_loc_insert in Hf. case_decide as Hd.
  - destruct Hd as [<- <-]. simplify_eq. exists (beat now i). by rewrite lookup_insert_eq.
  - by apply (wf_beat r h l i now Hwf Hl).
Qed.

Lemma Heartbeat_wf now r h l e h' :
  wf r h → Heartbeat now r h l = Some (e, h') → wf r h'.
Proof.
  unfold Heartbeat. intros Hwf H. repeat case_match; simplify_eq; [by apply wf_beat|done].
Qed.

Lemma find_loc_delete r name id m name' id' :
  instances r !! name = Some m →
  find_loc (set_instances r (<[name := delete id m]> (instances r))) name' id' =
    if decide (name = name' ∧ id = id') then None else find_loc r name' id'.
Proof.
  intros Hm. unfold find_loc. simpl. destruct (decide (name = name')) as [<-|Hn].
  - rewrite lookup_insert_eq, Hm. simpl. rewrite lookup_delete.
    repeat case_decide; naive_solver.
  - rewrite lookup_insert_ne by done. by rewrite decide_False by naive_solver.
Qed.

Lemma Deregister_find r h l i e r' :
  h !! l = Some i → Deregister r h l = Some (e, r') →
  ∀ name id, find_loc r' name id =
    if decide (Name i = name ∧ ID i = id) then None else find_loc r name id.
Proof.
  unfold Deregister. intros -> H name id. case_match eqn:Hm; simplify_eq.
  - by apply find_loc_delete.
  - case_decide as Hd; [|done]. destruct Hd as [<- <-]. unfold find_loc. by rewrite Hm.
Qed.

Lemma Deregister_wf r h l e r' : wf r h → Deregister r h l = Some (e, r') → wf r' h.
Proof.
  intros Hwf H. destruct (h !! l) as [i|] eqn:Hl; [|unfold Deregister in H; by rewrite Hl in H].
  intros name id l' Hf. rewrite (Deregister_find _ _ _ _ _ _ Hl H) in Hf.
  case_decide; [done|]. by apply Hwf.
Qed.

(** The listing holds exactly the copies of the live registered instances. *)
Lemma elem_of_getHealthyInstances `{RangeOrder} now r h name i :
  i ∈ getHealthyInstances now r h name ↔
  ∃ id l j, find_loc r name id = Some l ∧ h !! l = Some j ∧
            healthy (config r) now j = true ∧ i = copy_healthy j.
Proof.
  unfold getHealthyInstances, find_loc. destruct (instances r !! name) as [m|]; simpl.
  - rewrite list_elem_of_omap. split.
    + intros ([id l] & Hin & Hb). apply elem_of_range_map in Hin. simpl in Hb.
      destruct (h !! l) as [j|] eqn:Hj; simpl in Hb; [|done].
      destruct (healthy (config r) now j) eqn:Hh; simplify_eq. by exists id, l, j.
    + intros (id & l & j & Hl & Hj & Hh & ->). exists (id, l). simpl.
      rewrite elem_of_range_map, Hj. simpl. by rewrite Hh.
  - split; [set_solver|naive_solver].
Qed.

Lemma GetInstances_iff `{RangeOrder} now r h name l :
  GetInstances now r h name = Ok l ↔ l ≠ [] ∧ getHealthyInstances now r h name = l.
Proof. unfold GetInstances. destruct (getHealthyInstances now r h name); naive_solver. Qed.

(** ** Properties *)

(** The life cycle of a registration: from [Register] (or a later
    [Heartbeat]) at instant [t], a query lists the instance at every [now]
    within the heartbeat timeout, never lists it after the timeout, and never
    lists it once it is deregistered; every listed record is marked healthy
    and belongs to the queried service. *)
Theorem registration_lifecycle `{RangeOrder} t r h l i r1 h1 :
  wf r h → h !! l = Some i → Register t r h l = Some (Ok (), r1, h1) →
  wf r1 h1 ∧
  (∀ now, time_sub now t ≤ HeartbeatTimeout (config r) →
     ∃ l, GetInstances now r1 h1 (Name i) = Ok l ∧ beat t i ∈ l) ∧
  (∀ now j, HeartbeatTimeout (config r) < time_sub now t →
     j ∈ getHealthyInstances now r1 h1 (Name i) → ID j ≠ ID i) ∧
  (∀ now r2 j, Deregister r1 h1 l = Some (Ok (), r2) →
     j ∈ getHealthyInstances now r2 h1 (Name i) → ID j ≠ ID i) ∧
  (∀ now name j, j ∈ getHealthyInstances now r1 h1 name → Healthy j = true ∧ Name j = name).
Proof.
  intros Hwf Hl HR. pose proof (Register_wf _ _ _ _ _ _ _ Hwf HR) as Hwf1.
  unfold Register in HR. rewrite Hl in HR. simplify_eq.
  split; [done|]. split_and!.
  - intros now Ht. set (r1 := set_instances _ _).
    assert (beat t i ∈ getHealthyInstances now r1 (<[l:=beat t i]> h) (Name i)) as Hin.
    { apply elem_of_getHealthyInstances. exists (ID i), l, (beat t i).
      subst r1. rewrite find_loc_insert, decide_True, lookup_insert_eq by done.
      split_and!; [done..| |done]. unfold healthy. simpl. lia. }
    eexists. rewrite GetInstances_iff. split; [split; [|done]|done]. intros E. rewrite E in Hin. set_solver.
  - intros now j Ht Hj E. apply elem_of_getHealthyInstances in Hj as (id & l' & k & Hf & Hk & Hh & ->).
    destruct (Hwf1 _ _ _ Hf) as (k' & Hk' & _ & Hid). simplify_eq. simpl in *.
    rewrite find_loc_insert, decide_True in Hf by done. simplify_eq.
    rewrite lookup_insert_eq in Hk. simplify_eq. unfold healthy in Hh. simpl in Hh. lia.
  - intros now r2 j HD Hj E. apply elem_of_getHealthyInstances in Hj as (id & l' & k & Hf & Hk & Hh & ->).
    pose proof (Deregister_wf _ _ _ _ _ Hwf1 HD) as Hwf2.
    destruct (Hwf2 _ _ _ Hf) as (k' & Hk' & _ & Hid). simplify_eq. simpl in *.
    rewrite (Deregister_find _ _ l (beat t i) _ _) with (1 := lookup_insert_eq _ _ _) (2 := HD) in Hf.
    by rewrite decide_True in Hf by done.
  - intros now name j Hj. apply elem_of_getHealthyInstances in Hj as (id & l' & k & Hf & Hk & Hh & ->).
    destruct (Hwf1 _ _ _ Hf) as (k' & Hk' & Hn & _). by simplify_eq.
Qed.

Lemma registration_lifecycle_witness :
  ∃ r1 h1, Register 5 (NewMemoryRegistry []) {[0%nat := sample_instance]} 0 = Some (Ok (), r1, h1) ∧
    ∃ l, @GetInstances range_first_key_order 10 r1 h1 "users" = Ok l ∧ beat 5 sample_instance ∈ l.
Proof.
  eexists _, _. split; [reflexivity|].
  apply (@registration_lifecycle range_first_key_order 5 (NewMemoryRegistry [])
           {[0%nat := sample_instance]} 0 sample_instance);
    [apply wf_new | reflexivity | reflexivity | vm_compute; discriminate].
Defined.

End Discovery.
