(* ===== verification/Watch.v ===== *)
(** * Watching the in-memory registry (src/discovery/types.go)

    [Watch] starts a goroutine that at every tick takes a snapshot of the
    healthy instances and offers it to a channel of ten.  The goroutine, its
    ticker, the consumer, the end of the context and the callers of the registry
    interleave.  At the end stands the package's default registry, behind the
    interface that the registries share. *)

From S2P Require Import Prelude Discovery.

Module Watch.
Import Discovery.

(** ** The goroutine *)

Definition capacity : nat := 10.

Abbreviation Snapshot := (list ServiceInstance) (only parsing).

(** What it does next: wait, offer a snapshot, or nothing any more. *)
Inductive Loop := WSelect | WSend (instances : list ServiceInstance) | WStopped.

Definition stopped (l : Loop) : bool := match l with WStopped => true | _ => false end.

(** [due] is the ticker's next tick and [fired] the one tick it keeps. *)
Record World := mkWorld {
  registry : MemoryRegistry;
  heap : gmap nat ServiceInstance;
  serviceName : string;
  ch : list (list ServiceInstance);
  loop : Loop;
  cancelled : bool;
  clock : Time;
  due : Time;
  fired : bool
}.

(** [None]: [time.NewTicker] panics for an interval that is not positive. *)
Definition Watch (r : MemoryRegistry) (h : gmap nat ServiceInstance) (name : string) (now : Time) : option World :=
  if 0 <? RefreshInterval (config r) then Some (mkWorld r h name [] WSelect false now (now + RefreshInterval (config r)) false)
  else None.

Definition set_registry (r : MemoryRegistry) (h : gmap nat ServiceInstance) (w : World) : World :=
  mkWorld r h (serviceName w) (ch w) (loop w) (cancelled w) (clock w) (due w) (fired w).

Definition set_loop (c : list (list ServiceInstance)) (l : Loop) (w : World) : World :=
  mkWorld (registry w) (heap w) (serviceName w) c l (cancelled w) (clock w) (due w) (fired w).

Definition set_ticker (d : Time) (f : bool) (w : World) : World :=
  mkWorld (registry w) (heap w) (serviceName w) (ch w) (loop w) (cancelled w) (clock w) d f.

(** Calls of the registry, the ticker, the goroutine's select (a tick, or the end
    of the context), its offer, the consumer, the context and the clock. *)
Inductive Event :=
| ERegister (l : nat) | EDeregister (l : nat) | EHeartbeat (l : nat)
| EFire | ETick | EDone | ESend | EReceive | ECancel | EElapse (d : Duration).

(** A snapshot was taken, a consumer received one, or found the channel closed. *)
Inductive Reply := RNone | RTaken (at_ : Time) (instances : list ServiceInstance) | RGot (instances : list ServiceInstance) | RClosed.

Definition step `{RangeOrder} (ev : Event) (w : World) : option (World * Reply) :=
  let quiet (w : World) := (w, RNone) in
  match ev with
  | ERegister l => (λ x, quiet (set_registry x.1.2 x.2 w)) <$> Register (clock w) (registry w) (heap w) l
  | EDeregister l => (λ x, quiet (set_registry x.2 (heap w) w)) <$> Deregister (registry w) (heap w) l
  | EHeartbeat l => (λ x, quiet (set_registry (registry w) x.2 w)) <$> Heartbeat (clock w) (registry w) (heap w) l
  | EFire =>
      if stopped (loop w) || (clock w <? due w) then None
      else Some (quiet (set_ticker (due w + RefreshInterval (config (registry w))) true w))
  | ETick =>
      match loop w with
      | WSelect =>
          if fired w then
            let instances := getHealthyInstances (clock w) (registry w) (heap w) (serviceName w) in
            Some (set_loop (ch w) (WSend instances) (set_ticker (due w) false w), RTaken (clock w) instances)
          else None
      | _ => None
      end
  | EDone => match loop w with WSelect => if cancelled w then Some (quiet (set_loop (ch w) WStopped w)) else None | _ => None end
  | ESend =>
      match loop w with
      | WSend instances => Some (quiet (set_loop (if (length (ch w) <? capacity)%nat then ch w ++ [instances] else ch w) WSelect w))
      | _ => None
      end
  | EReceive =>
      match ch w, loop w with
      | instances :: rest, l => Some (set_loop rest l w, RGot instances)
      | [], WStopped => Some (w, RClosed)
      | [], _ => None
      end
  | ECancel => Some (quiet (mkWorld (registry w) (heap w) (serviceName w) (ch w) (loop w) true (clock w) (due w) (fired w)))
  | EElapse d =>
      if 0 <=? d
      then Some (quiet (mkWorld (registry w) (heap w) (serviceName w) (ch w) (loop w) (cancelled w) (clock w + d) (due w) (fired w)))
      else None
  end.

(** Closing the registry stops no watch: [Close] does nothing. *)
Definition Close (r : MemoryRegistry) : option Error * MemoryRegistry := (None, r).

(** ** The interface of the registries, and the default one *)

(** [I] is an instance as a caller holds it and [W] what a registry works on. *)
Record RegistryDiscovery (I W : Type) := mkRegistryDiscovery {
  rd_Register : I → W → option Error * W;
  rd_Deregister : I → W → option Error * W;
  rd_Heartbeat : I → W → option Error * W;
  rd_GetInstance : string → W → res Error ServiceInstance;
  rd_GetInstances : string → W → res Error (list ServiceInstance);
  rd_Close : W → option Error * W
}.
Arguments mkRegistryDiscovery {I W}. Arguments rd_Register {I W}. Arguments rd_GetInstance {I W}. Arguments rd_GetInstances {I W}.

Section DefaultRegistry.
Context {I W : Type}.

Definition SetDefault (r : RegistryDiscovery I W) (_ : option (RegistryDiscovery I W)) : option (RegistryDiscovery I W) := Some r.

Definition Default (d : option (RegistryDiscovery I W)) : option (RegistryDiscovery I W) := d.

Definition default_Register (d : option (RegistryDiscovery I W)) (i : I) (w : W) : option Error * W :=
  match d with None => (Some ErrNoInstance, w) | Some r => rd_Register r i w end.

Definition default_GetInstance (d : option (RegistryDiscovery I W)) (name : string) (w : W) : res Error ServiceInstance :=
  match d with None => Err ErrNoInstance | Some r => rd_GetInstance r name w end.

Definition default_GetInstances (d : option (RegistryDiscovery I W)) (name : string) (w : W) : res Error (list ServiceInstance) :=
  match d with None => Err ErrNoInstance | Some r => rd_GetInstances r name w end.

(** *** Handlers of changes; [S] is what they work on *)

Record WatchHandlerFunc (S : Type) := mkHandlerFunc {
  AddFunc : option (ServiceInstance → S → S);
  DeleteFunc : option (ServiceInstance → S → S)
}.
Arguments AddFunc {S}. Arguments DeleteFunc {S}.

Definition OnAdd {S} (h : WatchHandlerFunc S) (i : ServiceInstance) (s : S) : S := match AddFunc h with Some f => f i s | None => s end.

Definition OnDelete {S} (h : WatchHandlerFunc S) (i : ServiceInstance) (s : S) : S := match DeleteFunc h with Some f => f i s | None => s end.

End DefaultRegistry.

(** ** What the theorems speak of *)

Definition got (r : Reply) : option (list ServiceInstance) := match r with RGot l => Some l | _ => None end.

Definition taken (r : Reply) : option (list ServiceInstance) := match r with RTaken _ l => Some l | _ => None end.

Definition in_hand (l : Loop) : list (list ServiceInstance) := match l with WSend i => [i] | _ => [] end.

(** The consumer keeps up: there is room when a snapshot is offered. *)
Definition keeps_up (w : World) (ev : Event) : Prop := match ev with ESend => (length (ch w) < capacity)%nat | _ => True end.

(** Received, waiting and in hand are snapshots that were taken, in their order. *)
Definition ordered (w : World) (rs : list Reply) : Prop :=
  omap got rs ++ ch w ++ in_hand (loop w) `sublist_of` omap taken rs ∧ (length (ch w) ≤ capacity)%nat.

(** An instance that was heard of in time, as of [t]. *)
Definition fresh (cfg : Config) (name : string) (t : Time) (i : ServiceInstance) : Prop :=
  Healthy i = true ∧ Name i = name ∧ time_sub t (LastHeartbeat i) ≤ HeartbeatTimeout cfg.

(** The registry stays well-formed, and every snapshot taken lists fresh instances. *)
Definition truthful (cfg : Config) (name : string) (w : World) (rs : list Reply) : Prop :=
  wf (registry w) (heap w) ∧ config (registry w) = cfg ∧ serviceName w = name ∧
  ∀ t l, RTaken t l ∈ rs → Forall (fresh cfg name t) l.

Definition sample_registry : MemoryRegistry := NewMemoryRegistry [].

(** A tick: the clock, the ticker, the snapshot and the offer. *)
Definition tick_events : list Event := [EElapse (30 * Second); EFire; ETick; ESend].

Definition sample_events : list Event := ERegister 0 :: tick_events ++ [EElapse Second] ++ tick_events ++ [EReceive].

(** ** Lemmas *)

Section Lemmas.
Context `{RangeOrder}.

Lemma step_ordered ev w w' r rs : ordered w rs → step ev w = Some (w', r) → ordered w' (rs ++ [r]).
Proof.
  intros [Hs Hl] E. unfold ordered, step in *. rewrite !omap_app. destruct ev.
  - destruct (Register _ _ _ _) as [[[]]|]; simplify_eq/=; by rewrite !app_nil_r.
  - destruct (Deregister _ _ _) as [[]|]; simplify_eq/=; by rewrite !app_nil_r.
  - destruct (Heartbeat _ _ _ _) as [[]|]; simplify_eq/=; by rewrite !app_nil_r.
  - case_match; simplify_eq/=; by rewrite !app_nil_r.
  - destruct (loop w); [|done..]. destruct (fired w); simplify_eq/=. rewrite app_nil_r in *. split; [|done].
    rewrite app_assoc. by apply sublist_app.
  - destruct (loop w) eqn:El; [|done..]. destruct (cancelled w); simplify_eq/=. by rewrite !app_nil_r in *.
  - destruct (loop w) as [|is_|]; [done| |done]. simplify_eq/=. rewrite !app_nil_r. destruct (Nat.ltb_spec (length (ch w)) capacity).
    + rewrite length_app. simpl in *. split; [done|lia].
    + split; [|done]. etrans; [|done]. apply sublist_app; [done|]. apply sublist_inserts_r. done.
  - destruct (ch w) as [|i rest] eqn:Ech.
    + destruct (loop w) eqn:El; simplify_eq/=. by rewrite Ech, El, !app_nil_r in *.
    + simplify_eq/=. rewrite <- app_assoc, app_nil_r. split; [done|lia].
  - simplify_eq/=. by rewrite !app_nil_r.
  - case_match; simplify_eq/=; by rewrite !app_nil_r.
Qed.

Lemma step_keeps_up ev w w' r rs :
  omap got rs ++ ch w ++ in_hand (loop w) = omap taken rs → keeps_up w ev → step ev w = Some (w', r) →
  omap got (rs ++ [r]) ++ ch w' ++ in_hand (loop w') = omap taken (rs ++ [r]).
Proof.
  intros Hs Hk E. unfold step in E. rewrite !omap_app. destruct ev.
  - destruct (Register _ _ _ _) as [[[]]|]; simplify_eq/=; by rewrite !app_nil_r.
  - destruct (Deregister _ _ _) as [[]|]; simplify_eq/=; by rewrite !app_nil_r.
  - destruct (Heartbeat _ _ _ _) as [[]|]; simplify_eq/=; by rewrite !app_nil_r.
  - case_match; simplify_eq/=; by rewrite !app_nil_r.
  - destruct (loop w); [|done..]. destruct (fired w); simplify_eq/=. rewrite app_nil_r in *. by rewrite app_assoc, Hs.
  - destruct (loop w) eqn:El; [|done..]. destruct (cancelled w); simplify_eq/=. by rewrite !app_nil_r in *.
  - destruct (loop w); simplify_eq/=. rewrite !app_nil_r. apply Nat.ltb_lt in Hk. by rewrite Hk.
  - destruct (ch w) as [|i rest] eqn:Ech.
    + destruct (loop w) eqn:El; simplify_eq/=. by rewrite Ech, El, !app_nil_r in *.
    + simplify_eq/=. by rewrite <- app_assoc, app_nil_r.
  - simplify_eq/=. by rewrite !app_nil_r.
  - case_match; simplify_eq/=; by rewrite !app_nil_r.
Qed.

Lemma step_truthful cfg name ev w w' r rs : truthful cfg name w rs → step ev w = Some (w', r) → truthful cfg name w' (rs ++ [r]).
Proof.
  intros (Hwf & Hc & Hn & Hs) E. unfold truthful, step in *.
  assert (∀ r, (∀ t l, r ≠ RTaken t l) → ∀ t l, RTaken t l ∈ rs ++ [r] → Forall (fresh cfg name t) l) as Hquiet.
  { intros r0 Hr t l [Hin|E0%list_elem_of_singleton]%elem_of_app; [by apply Hs|by destruct (Hr t l)]. }
  destruct ev.
  - destruct (Register _ _ _ _) as [[[e r'] h']|] eqn:ER; simplify_eq/=. split_and!; [by eapply Register_wf| |done|by apply Hquiet].
    unfold Register in ER. by case_match; simplify_eq/=.
  - destruct (Deregister _ _ _) as [[e r']|] eqn:ER; simplify_eq/=. split_and!; [by eapply Deregister_wf| |done|by apply Hquiet].
    unfold Deregister in ER. repeat case_match; by simplify_eq/=.
  - destruct (Heartbeat _ _ _ _) as [[e h']|] eqn:ER; simplify_eq/=. split_and!; [by eapply Heartbeat_wf|done|done|by apply Hquiet].
  - case_match; simplify_eq/=. split_and!; [done..|by apply Hquiet].
  - destruct (loop w); [|done..]. destruct (fired w); simplify_eq/=. split_and!; [done..|].
    intros t l [Hin|E%list_elem_of_singleton]%elem_of_app; [by apply Hs|]. injection E as -> ->. apply Forall_forall. intros i Hi.
    apply elem_of_getHealthyInstances in Hi as (id & l & j & Hf & Hj & Hh & ->). destruct (Hwf _ _ _ Hf) as (k & Hk & Hname & _).
    simplify_eq. unfold healthy in Hh. apply andb_true_iff in Hh as [_ Hh]. split_and!; simpl; [done..|lia].
  - destruct (loop w); [|done..]. destruct (cancelled w); simplify_eq/=. split_and!; [done..|by apply Hquiet].
  - destruct (loop w); simplify_eq/=. split_and!; [done..|by apply Hquiet].
  - destruct (ch w) as [|i rest]; [destruct (loop w)|]; simplify_eq/=; (split_and!; [done..|by apply Hquiet]).
  - simplify_eq/=. split_and!; [done..|by apply Hquiet].
  - case_match; simplify_eq/=. split_and!; [done..|by apply Hquiet].
Qed.

Lemma elem_of_taken (l : list ServiceInstance) (rs : list Reply) : l ∈ omap taken rs → ∃ t, RTaken t l ∈ rs.
Proof. intros (r & Hr & E)%list_elem_of_omap. destruct r; simplify_eq/=. by eexists. Qed.

Lemma Watch_start r h name now w :
  Watch r h name now = Some w → 0 < RefreshInterval (config r) ∧ registry w = r ∧ heap w = h ∧ serviceName w = name ∧ ch w = [] ∧ loop w = WSelect.
Proof. unfold Watch. destruct (Z.ltb_spec 0 (RefreshInterval (config r))); [|done]. by intros [= <-]. Qed.

End Lemmas.

(** ** Theorems *)

(** What a watch delivers.  In every interleaving of the registry's callers, the ticker,
    the goroutine and the consumer, the snapshots received, those waiting (ten at most) and the one being
    offered are snapshots that were taken, in their order; a consumer that leaves room
    gets every one.  Each lists only instances of the service that had been heard of within the timeout
    when it was taken. *)
Theorem watch_in_order `{RangeOrder} r h name now w0 evs w rs :
  wf r h → Watch r h name now = Some w0 → run_steps step evs w0 = Some (w, rs) →
  let seen := omap got rs ++ ch w ++ in_hand (loop w) in
  seen `sublist_of` omap taken rs ∧ (length (ch w) ≤ capacity)%nat ∧
  (along step keeps_up evs w0 → seen = omap taken rs) ∧
  ∀ l, l ∈ seen → ∃ t, RTaken t l ∈ rs ∧ Forall (fresh (config r) name t) l.
Proof.
  intros Hwf HW Hrun seen. destruct (Watch_start _ _ _ _ _ HW) as (_ & Hr & Hh & Hn & Hch & Hl).
  assert (ordered w rs) as [Hsub Hcap].
  { apply (run_steps_history step ordered (λ e w w' rs r, step_ordered e w w' r rs) evs w0); [|done].
    unfold ordered. rewrite Hch, Hl. split; simpl; [done|unfold capacity; lia]. }
  assert (truthful (config r) name w rs) as (_ & _ & _ & Htruth).
  { apply (run_steps_history step (truthful (config r) name) (λ e w w' rs r0, step_truthful _ _ e w w' r0 rs) evs w0); [|done].
    unfold truthful. rewrite Hr, Hh. split_and!; [done..|]. by intros t l Hin%elem_of_nil. }
  split_and!; [done|done| |].
  - intros Hal. apply (run_steps_history_along step (λ w rs, omap got rs ++ ch w ++ in_hand (loop w) = omap taken rs) keeps_up
      (λ e w w' rs r, step_keeps_up e w w' r rs) evs w0 w [] rs); [by rewrite Hch, Hl|done..].
  - intros l Hin. destruct (elem_of_taken l rs) as [t Ht]; [by eapply elem_of_submseteq; [done|by apply sublist_submseteq]|]. exists t. split; [done|by apply Htruth].
Qed.

Section Samples.
#[local] Existing Instance range_first_key_order.

Lemma watch_in_order_witness :
  let h := {[0%nat := sample_instance]} in
  let w0 := default (mkWorld sample_registry h "" [] WStopped true 0 0 false) (Watch sample_registry h "users" 0) in
  let wr := default (w0, []) (run_steps step sample_events w0) in
  omap got wr.2 ++ ch wr.1 ++ in_hand (loop wr.1) = omap taken wr.2 ∧ omap taken wr.2 = [[beat 0 sample_instance]; []].
Proof.
  intros h w0 wr. split; [|by vm_compute].
  refine (proj1 (proj2 (proj2 (watch_in_order sample_registry h "users" 0 w0 sample_events wr.1 wr.2 _ _ _))) _);
    [apply wf_new|by vm_compute|by vm_compute|vm_compute; repeat split; lia].
Defined.

(** ** What the code does besides *)

(** A full channel keeps its ten old snapshots and drops the new one: who comes back reads the past first. *)
Example old_snapshots_first :
  let h := {[0%nat := sample_instance]} in
  let evs := mjoin (replicate 10 tick_events) ++ [ERegister 0] ++ tick_events ++ [EReceive] in
  (λ w0, (λ x, (last (omap got x.2), last (omap taken x.2), length (ch x.1))) <$> run_steps step evs w0)
    <$> Watch sample_registry h "users" 0 = Some (Some (Some [], Some [beat (300 * Second) sample_instance], 9%nat)).
Proof. by vm_compute. Qed.

End Samples.

(** A refresh interval of zero ends the process. *)
Example zero_interval_panics : Watch (NewMemoryRegistry [mkConfig 0 0 0 0]) ∅ "users" 0 = None.
Proof. done. Qed.

(** Without a default registry its functions return an error, and not a panic. *)
Example no_default_registry {I W} (i : I) (w : W) : default_Register None i w = (Some ErrNoInstance, w).
Proof. done. Qed.

End Watch.
