(* ===== verification/Etcd.v ===== *)
(** * The etcd registry (src/discovery/etcd/etcd.go)

    One process registers instances in etcd under leases that goroutines keep
    alive.  A call and a goroutine are sequences of steps, one per command to
    etcd or access to the registry's maps, so that other calls, other clients
    and the server's own expiry of leases come in between.  The etcd client is
    a class of commands over a state that holds the server and the network:
    a command that fails may or may not have been carried out. *)

From stdpp Require Import pretty.
From S2P Require Import Prelude Text Discovery.

Module Etcd.
Import Text.

Abbreviation ServiceInstance := Discovery.ServiceInstance.

(** ** The etcd client *)

Class EtcdClient (E : Type) := {
  Grant : Z → E → res unit Z * E;
  Revoke : Z → E → res unit unit * E;
  KeepAliveOnce : Z → E → res unit unit * E;
  Put : string → string → Z → E → res unit unit * E;
  DeleteKey : string → E → res unit unit * E;
  GetPrefix : string → E → res unit (list (string * string)) * E;
  Expire : Z → E → E
}.

(** [encoding/json] on instances. *)
Class Json := {
  Marshal : ServiceInstance → option string;
  Unmarshal : string → option ServiceInstance
}.

(** ** The registry *)

Record Registry := mkRegistry {
  prefix : string;
  ttl : Z;
  closed : bool;
  leases : gmap string Z;
  services : gmap string nat
}.

Definition Option := Registry → Registry.

Definition WithPrefix (p : string) : Option := λ r, mkRegistry p (ttl r) (closed r) (leases r) (services r).

Definition WithTTL (t : Z) : Option := λ r, mkRegistry (prefix r) t (closed r) (leases r) (services r).

Definition New (opts : list Option) : Registry :=
  foldl (λ r opt, opt r) (mkRegistry "/services/" 30 false ∅ ∅) opts.

Definition serviceKey (r : Registry) (name id : string) : string := (prefix r +:+ name +:+ "/" +:+ id)%string.

(** A call or a goroutine, at the step it takes next: [R] is [Register], [D]
    [Deregister], [H] [Heartbeat], [K] [keepAlive] and [C] [Close]. *)
Inductive Thread :=
| RGrant (key value : string) (l : nat)
| RPut (key value : string) (l : nat) (lease : Z)
| RRevoke (lease : Z)
| RStore (key : string) (l : nat) (lease : Z)
| DRevoke (key : string) (lease : Z)
| DDelete (key : string)
| HKeep (lease : Z)
| KWait (key : string) (lease : Z)
| KCheck (key : string) (lease : Z)
| KGrant (key : string) (lease : Z) (l : nat)
| KPut (key : string) (lease : Z) (l : nat) (new : Z)
| KRevoke (key : string) (lease new : Z)
| KStore (key : string) (lease new : Z)
| CSnapshot
| CRevoke (ls : list Z)
| CWait
| Ended.

(** *** Watching one service *)

Abbreviation Snapshot := (list ServiceInstance) (only parsing).

(** What the goroutine of a watch does next: it waits for a response, or has a
    snapshot to push, to make room for, or to send after that. *)
Inductive WatchState := WWait | WPush (s : Snapshot) | WDrop (s : Snapshot) | WSend (s : Snapshot) | WEnded.

Record Watcher := mkWatcher {
  service : string;
  ch : list Snapshot;
  wstate : WatchState
}.

Inductive WatchEvent :=
| WResponse (s : Snapshot)
| WAdvance
| WReceive
| WStop.

Definition ch_capacity : nat := 8.

Definition watch_step (e : WatchEvent) (w : Watcher) : option Watcher :=
  match e, wstate w with
  | WResponse s, WWait => Some (mkWatcher (service w) (ch w) (WPush s))
  | WAdvance, WPush s =>
      Some (if (length (ch w) <? ch_capacity)%nat then mkWatcher (service w) (ch w ++ [s]) WWait
            else mkWatcher (service w) (ch w) (WDrop s))
  | WAdvance, WDrop s => Some (mkWatcher (service w) (tail (ch w)) (WSend s))
  | WAdvance, WSend s =>
      if (length (ch w) <? ch_capacity)%nat then Some (mkWatcher (service w) (ch w ++ [s]) WWait) else None
  | WReceive, _ => match ch w with [] => None | _ :: c => Some (mkWatcher (service w) c (wstate w)) end
  | WStop, WWait => Some (mkWatcher (service w) (ch w) WEnded)
  | _, _ => None
  end.

(** ** The process *)

Record World (E : Type) := mkWorld {
  etcd : E;
  registry : Registry;
  heap : list ServiceInstance;
  threads : list Thread;
  watchers : list Watcher
}.
Arguments mkWorld {E}. Arguments etcd {E}. Arguments registry {E}. Arguments heap {E}.
Arguments threads {E}. Arguments watchers {E}.

Inductive Error := ErrNotRegistered | ErrNoInstance | ErrMarshal | ErrClient.

(** What a step says: the call of a thread is over, or not yet. *)
Inductive Reply := Pending | Returned (i : nat) (err : option Error).

Inductive Event :=
| ERegister (l : nat)
| EDeregister (l : nat)
| EHeartbeat (l : nat)
| EClose
| EStep (i : nat)
| EStop (i : nat)
| EWatch (serviceName : string)
| EWatchResponse (j : nat)
| EWatcher (j : nat) (e : WatchEvent)
| EWrite (l : nat) (inst : ServiceInstance)
| EExpire (lease : Z)
| EOtherPut (key value : string) (lease : Z)
| EOtherDelete (key : string).

Section Methods.
Context {E : Type} `{EtcdClient E} `{Json} `{RangeOrder}.

Definition set_etcd (e : E) (w : World E) : World E :=
  mkWorld e (registry w) (heap w) (threads w) (watchers w).

Definition set_maps (ls : gmap string Z) (ss : gmap string nat) (w : World E) : World E :=
  let r := registry w in
  mkWorld (etcd w) (mkRegistry (prefix r) (ttl r) (closed r) ls ss) (heap w) (threads w) (watchers w).

Definition set_threads (ts : list Thread) (w : World E) : World E :=
  mkWorld (etcd w) (registry w) (heap w) ts (watchers w).

Definition set_watchers (ws : list Watcher) (w : World E) : World E :=
  mkWorld (etcd w) (registry w) (heap w) (threads w) ws.

Definition spawn (t : Thread) (w : World E) : World E := set_threads (threads w ++ [t]) w.

Definition goto (i : nat) (t : Thread) (e : E) (w : World E) : World E :=
  set_threads (<[i := t]> (threads w)) (set_etcd e w).

(** A command under the registry's context, which [Close] cancels. *)
Definition under_ctx {A} (w : World E) (command : E → res unit A * E) : res unit A * E :=
  if closed (registry w) then (Err (), etcd w) else command (etcd w).

Definition instance_key (w : World E) (inst : ServiceInstance) : string :=
  serviceKey (registry w) (Discovery.Name inst) (Discovery.ID inst).

Definition Register (l : nat) (w : World E) : option (World E * Reply) :=
  inst ← heap w !! l;
  match Marshal inst with
  | None => Some (spawn Ended w, Returned (length (threads w)) (Some ErrMarshal))
  | Some value => Some (spawn (RGrant (instance_key w inst) value l) w, Pending)
  end.

Definition Deregister (l : nat) (w : World E) : option (World E * Reply) :=
  inst ← heap w !! l;
  let key := instance_key w inst in
  let r := registry w in
  Some (match leases r !! key with
        | Some leaseID =>
            spawn (if decide (leaseID = 0) then DDelete key else DRevoke key leaseID)
              (set_maps (delete key (leases r)) (delete key (services r)) w)
        | None => spawn (DDelete key) w
        end, Pending).

Definition Heartbeat (l : nat) (w : World E) : option (World E * Reply) :=
  inst ← heap w !! l;
  match leases (registry w) !! instance_key w inst with
  | None => Some (spawn Ended w, Returned (length (threads w)) (Some ErrNotRegistered))
  | Some leaseID => Some (spawn (HKeep leaseID) w, Pending)
  end.

Definition Close (w : World E) : World E :=
  let r := registry w in
  spawn CSnapshot
    (mkWorld (etcd w) (mkRegistry (prefix r) (ttl r) true (leases r) (services r)) (heap w) (threads w) (watchers w)).

(** The goroutines [wg] counts. *)
Definition goroutine (t : Thread) : bool :=
  match t with
  | KWait _ _ | KCheck _ _ | KGrant _ _ _ | KPut _ _ _ _ | KRevoke _ _ _ | KStore _ _ _ => true
  | _ => false
  end.

Definition watching (x : Watcher) : bool := match wstate x with WEnded => false | _ => true end.

Definition Register_step (i : nat) (t : Thread) (w : World E) : option (World E * Reply) :=
  match t with
  | RGrant key value l =>
      match Grant (ttl (registry w)) (etcd w) with
      | (Err _, e) => Some (goto i Ended e w, Returned i (Some ErrClient))
      | (Ok leaseID, e) => Some (goto i (RPut key value l leaseID) e w, Pending)
      end
  | RPut key value l leaseID =>
      match Put key value leaseID (etcd w) with
      | (Err _, e) => Some (goto i (RRevoke leaseID) e w, Pending)
      | (Ok _, e) => Some (goto i (RStore key l leaseID) e w, Pending)
      end
  | RRevoke leaseID =>
      let '(_, e) := Revoke leaseID (etcd w) in Some (goto i Ended e w, Returned i (Some ErrClient))
  | RStore key l leaseID =>
      (* the thread goes on as the [keepAlive] that the call starts *)
      let r := registry w in
      Some (goto i (KWait key leaseID) (etcd w)
              (set_maps (<[key := leaseID]> (leases r)) (<[key := l]> (services r)) w), Returned i None)
  | _ => None
  end.

Definition Deregister_step (i : nat) (t : Thread) (w : World E) : option (World E * Reply) :=
  match t with
  | DRevoke key leaseID =>
      let '(_, e) := Revoke leaseID (etcd w) in Some (goto i (DDelete key) e w, Pending)
  | DDelete key =>
      match DeleteKey key (etcd w) with
      | (Err _, e) => Some (goto i Ended e w, Returned i (Some ErrClient))
      | (Ok _, e) => Some (goto i Ended e w, Returned i None)
      end
  | _ => None
  end.

Definition Heartbeat_step (i : nat) (leaseID : Z) (w : World E) : World E * Reply :=
  match KeepAliveOnce leaseID (etcd w) with
  | (Err _, e) => (goto i Ended e w, Returned i (Some ErrClient))
  | (Ok _, e) => (goto i Ended e w, Returned i None)
  end.

(** A tick of [keepAlive] starts in [KWait]. *)
Definition keepAlive_step (i : nat) (t : Thread) (w : World E) : option (World E) :=
  match t with
  | KWait key leaseID =>
      match under_ctx w (KeepAliveOnce leaseID) with
      | (Ok _, e) => Some (goto i (KWait key leaseID) e w)
      | (Err _, e) => Some (goto i (KCheck key leaseID) e w)
      end
  | KCheck key leaseID =>
      Some (match services (registry w) !! key with
            | None => goto i Ended (etcd w) w
            | Some l => goto i (KGrant key leaseID l) (etcd w) w
            end)
  | KGrant key leaseID l =>
      match under_ctx w (Grant (ttl (registry w))) with
      | (Err _, e) => Some (goto i (KWait key leaseID) e w)
      | (Ok newLeaseID, e) => Some (goto i (KPut key leaseID l newLeaseID) e w)
      end
  | KPut key leaseID l newLeaseID =>
      inst ← heap w !! l;
      match under_ctx w (Put key (default "" (Marshal inst)) newLeaseID) with
      | (Err _, e) => Some (goto i (KRevoke key leaseID newLeaseID) e w)
      | (Ok _, e) => Some (goto i (KStore key leaseID newLeaseID) e w)
      end
  | KRevoke key leaseID newLeaseID =>
      let '(_, e) := Revoke newLeaseID (etcd w) in Some (goto i (KWait key leaseID) e w)
  | KStore key _ newLeaseID =>
      let r := registry w in
      Some (goto i (KWait key newLeaseID) (etcd w) (set_maps (<[key := newLeaseID]> (leases r)) (services r) w))
  | _ => None
  end.

Definition Close_step (i : nat) (t : Thread) (w : World E) : option (World E * Reply) :=
  match t with
  | CSnapshot => Some (goto i (CRevoke (range_map (leases (registry w))).*2) (etcd w) w, Pending)
  | CRevoke [] => Some (goto i CWait (etcd w) w, Pending)
  | CRevoke (leaseID :: ls) =>
      let '(_, e) := Revoke leaseID (etcd w) in Some (goto i (CRevoke ls) e w, Pending)
  | CWait =>
      if forallb (λ t, negb (goroutine t)) (threads w) && forallb (λ x, negb (watching x)) (watchers w)
      then Some (goto i Ended (etcd w) w, Returned i None) else None
  | _ => None
  end.

Definition thread_step (i : nat) (w : World E) : option (World E * Reply) :=
  t ← threads w !! i;
  match t with
  | RGrant _ _ _ | RPut _ _ _ _ | RRevoke _ | RStore _ _ _ => Register_step i t w
  | DRevoke _ _ | DDelete _ => Deregister_step i t w
  | HKeep leaseID => Some (Heartbeat_step i leaseID w)
  | CSnapshot | CRevoke _ | CWait => Close_step i t w
  | Ended => None
  | _ => w' ← keepAlive_step i t w; Some (w', Pending)
  end.

(** The select's [r.ctx.Done()]. *)
Definition thread_stop (i : nat) (w : World E) : option (World E) :=
  match threads w !! i with
  | Some (KWait _ _) => if closed (registry w) then Some (goto i Ended (etcd w) w) else None
  | _ => None
  end.

Definition GetInstances (serviceName : string) (w : World E) : res Error (list ServiceInstance) * World E :=
  match GetPrefix (prefix (registry w) +:+ serviceName +:+ "/")%string (etcd w) with
  | (Err _, e) => (Err ErrClient, set_etcd e w)
  | (Ok kvs, e) => (Ok (omap (λ kv, Unmarshal kv.2) kvs), set_etcd e w)
  end.

Definition GetInstance (serviceName : string) (w : World E) : res Error ServiceInstance * World E :=
  match GetInstances serviceName w with
  | (Err e, w) => (Err e, w)
  | (Ok [], w) => (Err ErrNoInstance, w)
  | (Ok (i :: _), w) => (Ok i, w)
  end.

Definition Watch (serviceName : string) (w : World E) : World E :=
  match GetInstances serviceName w with
  | (Err _, w) => w
  | (Ok instances, w) => set_watchers (watchers w ++ [mkWatcher serviceName [instances] WWait]) w
  end.

(** A response of the watch fetches the list again; if that fails the
    goroutine waits for the next one. *)
Definition Watch_response (j : nat) (w : World E) : option (World E) :=
  x ← watchers w !! j;
  match GetInstances (service x) w with
  | (Err _, w) => match wstate x with WWait => Some w | _ => None end
  | (Ok latest, w) =>
      x ← watch_step (WResponse latest) x; Some (set_watchers (<[j := x]> (watchers w)) w)
  end.

Definition step (ev : Event) (w : World E) : option (World E * Reply) :=
  let quiet (w : World E) := (w, Pending) in
  match ev with
  | ERegister l => Register l w
  | EDeregister l => Deregister l w
  | EHeartbeat l => Heartbeat l w
  | EClose => Some (quiet (Close w))
  | EStep i => thread_step i w
  | EStop i => quiet <$> thread_stop i w
  | EWatch serviceName => Some (quiet (Watch serviceName w))
  | EWatchResponse j => quiet <$> Watch_response j w
  | EWatcher j e =>
      x ← watchers w !! j;
      match e with
      | WResponse _ => None
      | _ => x ← watch_step e x; Some (quiet (set_watchers (<[j := x]> (watchers w)) w))
      end
  | EWrite l inst =>
      _ ← heap w !! l;
      Some (quiet (mkWorld (etcd w) (registry w) (<[l := inst]> (heap w)) (threads w) (watchers w)))
  | EExpire lease => Some (quiet (set_etcd (Expire lease (etcd w)) w))
  | EOtherPut key value lease => Some (quiet (set_etcd (Put key value lease (etcd w)).2 w))
  | EOtherDelete key => Some (quiet (set_etcd (DeleteKey key (etcd w)).2 w))
  end.

Definition run : list Event → World E → option (World E * list Reply) := run_steps step.

End Methods.

(** ** What the theorems rely on of etcd *)

(** The keys with their values and leases (0 is none), the live leases, and
    the leases there have been. *)
Record View := mkView { kvs : gmap string (string * Z); live : gset Z; known : gset Z }.

Definition granted (l : Z) (v : View) : View := mkView (kvs v) ({[l]} ∪ live v) ({[l]} ∪ known v).

(** A lease that ends takes its keys with it. *)
Definition revoked (l : Z) (v : View) : View :=
  if decide (l = 0) then v else mkView (filter (λ kv, kv.2.2 ≠ l) (kvs v)) (live v ∖ {[l]}) (known v).

Definition stored (k value : string) (l : Z) (v : View) : View :=
  mkView (<[k := (value, l)]> (kvs v)) (live v) (known v).

Definition removed (k : string) (v : View) : View := mkView (delete k (kvs v)) (live v) (known v).

(** A command that errs may still have been carried out; [up] says that the
    server answers. *)
Class EtcdOk (E : Type) `{EtcdClient E} := {
  view : E → View;
  live_known : ∀ e, live (view e) ⊆ known (view e);
  Grant_ok : ∀ t e,
    match Grant t e with
    | (Ok l, e') => l ≠ 0 ∧ l ∉ known (view e) ∧ view e' = granted l (view e)
    | (Err _, e') => view e' = view e ∨ ∃ l, l ∉ known (view e) ∧ view e' = granted l (view e)
    end;
  Revoke_ok : ∀ l e,
    match Revoke l e with
    | (Ok _, e') => view e' = revoked l (view e)
    | (Err _, e') => view e' = view e ∨ view e' = revoked l (view e)
    end;
  KeepAliveOnce_ok : ∀ l e, let '(r, e') := KeepAliveOnce l e in view e' = view e ∧ (r = Ok () → l ∈ live (view e));
  Put_ok : ∀ k value l e,
    match Put k value l e with
    | (Ok _, e') => (l = 0 ∨ l ∈ live (view e)) ∧ view e' = stored k value l (view e)
    | (Err _, e') => view e' = view e ∨ view e' = stored k value l (view e)
    end;
  DeleteKey_ok : ∀ k e,
    match DeleteKey k e with
    | (Ok _, e') => view e' = removed k (view e)
    | (Err _, e') => view e' = view e ∨ view e' = removed k (view e)
    end;
  GetPrefix_ok : ∀ p e,
    match GetPrefix p e with
    | (Ok found, e') => view e' = view e ∧
        ∀ k value, (k, value) ∈ found ↔ (∃ l, kvs (view e) !! k = Some (value, l)) ∧ is_Some (cut_prefix p k)
    | (Err _, e') => view e' = view e
    end;
  Expire_ok : ∀ l e, view (Expire l e) = revoked l (view e);
  up : E → Prop;
  up_Grant : ∀ t e, up e → up (Grant t e).2 ∧ ∃ l, (Grant t e).1 = Ok l;
  up_Revoke : ∀ l e, up e → up (Revoke l e).2;
  up_KeepAliveOnce : ∀ l e, up e →
    up (KeepAliveOnce l e).2 ∧ (l ∈ live (view e) → (KeepAliveOnce l e).1 = Ok ());
  up_Put : ∀ k value l e, up e → up (Put k value l e).2 ∧ (l ∈ live (view e) → (Put k value l e).1 = Ok ());
  up_GetPrefix : ∀ p e, up e → ∃ found, (GetPrefix p e).1 = Ok found
}.

(** A [Put] that errs has not been carried out. *)
Class PutsFailCleanly (E : Type) `{EtcdOk E} :=
  put_err : ∀ k value l e err, (Put k value l e).1 = Err err → view (Put k value l e).2 = view e.

(** ** A server for the witnesses *)

(** A command succeeds, is lost, or is carried out with its answer lost. *)
Inductive Fault := Fine | Lost | Late.

Record ServerState := mkServer {
  s_kvs : gmap string (string * Z);
  s_live : gset Z;
  s_past : gset Z;
  s_faults : list Fault
}.

(** On a [clean] server no put is carried out with its answer lost. *)
Definition Server (clean : bool) : Type := ServerState.

Definition s_view (s : ServerState) : View := mkView (s_kvs s) (s_live s) (s_live s ∪ s_past s).

Definition s_next (s : ServerState) : Z := set_fold Z.max 0 (s_live s ∪ s_past s) + 1.

Definition s_grant (s : ServerState) : ServerState :=
  mkServer (s_kvs s) ({[s_next s]} ∪ s_live s) (s_past s) (s_faults s).

Definition s_revoke (l : Z) (s : ServerState) : ServerState :=
  if decide (l = 0) then s
  else mkServer (filter (λ kv, kv.2.2 ≠ l) (s_kvs s)) (s_live s ∖ {[l]}) (s_past s ∪ s_live s) (s_faults s).

Definition s_put (k value : string) (l : Z) (s : ServerState) : ServerState :=
  mkServer (<[k := (value, l)]> (s_kvs s)) (s_live s) (s_past s) (s_faults s).

Definition s_remove (k : string) (s : ServerState) : ServerState :=
  mkServer (delete k (s_kvs s)) (s_live s) (s_past s) (s_faults s).

(** Answer a command [f] that would succeed with [a], unless the next fault
    says otherwise. *)
Definition answer {A} (a : A) (f : ServerState → ServerState) (s : ServerState) : res unit A * ServerState :=
  let rest := mkServer (s_kvs s) (s_live s) (s_past s) (tail (s_faults s)) in
  match s_faults s with
  | [] | Fine :: _ => (Ok a, f rest)
  | Lost :: _ => (Err (), rest)
  | Late :: _ => (Err (), f rest)
  end.

#[export] Instance Server_client clean : EtcdClient (Server clean) := {|
  Grant t s := answer (s_next s) s_grant s;
  Revoke l s := answer () (s_revoke l) s;
  KeepAliveOnce l s := if decide (l ∈ s_live s) then answer () id s else (Err (), (answer () id s).2);
  Put k value l s :=
    if decide (l = 0 ∨ l ∈ s_live s) then
      match s_faults s with
      | Late :: _ => if clean then (Err (), (answer () id s).2) else answer () (s_put k value l) s
      | _ => answer () (s_put k value l) s
      end
    else (Err (), (answer () id s).2);
  DeleteKey k s := answer () (s_remove k) s;
  GetPrefix p s :=
    answer ((λ kv, (kv.1, kv.2.1)) <$> filter (λ kv, is_Some (cut_prefix p kv.1)) (map_to_list (s_kvs s))) id s;
  Expire l s := s_revoke l s
|}.

Definition empty_server (clean : bool) (faults : list Fault) : Server clean := mkServer ∅ ∅ ∅ faults.

Definition sample_instance : ServiceInstance := Discovery.mkInstance "1" "users" "10.0.0.1" 80 ∅ "" true 1 0.

(** An instance of a service whose name holds a slash. *)
Definition nested_instance : ServiceInstance := Discovery.mkInstance "1" "users/admin" "10.0.0.2" 80 ∅ "" true 1 0.

Definition sample_json : Json := {|
  Marshal i := Some (Discovery.Address i);
  Unmarshal s :=
    if String.eqb s "10.0.0.1" then Some sample_instance
    else if String.eqb s "10.0.0.2" then Some nested_instance else None
|}.

(** ** Specification-side definitions *)

Section Spec.
Context {E : Type} `{EtcdOk E} `{Json} `{RangeOrder}.

Definition start (e0 : E) (instances : list ServiceInstance) (p : string) (t : Z) : World E :=
  mkWorld e0 (New [WithPrefix p; WithTTL t]) instances [] [].

Definition reachable (w : World E) : Prop :=
  ∃ e0 instances p t evs rs, run evs (start e0 instances p t) = Some (w, rs).

(** The leases a thread holds. *)
Definition holds (t : Thread) : list Z :=
  match t with
  | RPut _ _ _ L | RRevoke L | RStore _ _ L | DRevoke _ L | HKeep L | KWait _ L | KCheck _ L | KGrant _ L _ => [L]
  | KPut _ L _ L' | KRevoke _ L L' | KStore _ L L' => [L; L']
  | CRevoke ls => ls
  | _ => []
  end.

(** The key a thread writes, deletes or keeps. *)
Definition concerns (key : string) (t : Thread) : Prop :=
  match t with
  | RGrant k _ _ | RPut k _ _ _ | RStore k _ _ | DRevoke k _ | DDelete k | KWait k _ | KCheck k _
  | KGrant k _ _ | KPut k _ _ _ | KRevoke k _ _ | KStore k _ _ => k = key
  | _ => False
  end.

(** A thread past the point from which it puts the key. *)
Definition may_put (key : string) (t : Thread) : Prop :=
  match t with
  | RGrant k _ _ | RPut k _ _ _ | RStore k _ _ | KGrant k _ _ | KPut k _ _ _ => k = key
  | _ => False
  end.

Definition attached (key value : string) (L : Z) (v : View) : Prop :=
  L ∈ live v → kvs v !! key = Some (value, L).

(** The event registers nothing under the key, and no other client puts it. *)
Definition no_new_put (key : string) (w : World E) (ev : Event) : Prop :=
  match ev with
  | ERegister l => ∀ inst, heap w !! l = Some inst → instance_key w inst ≠ key
  | EOtherPut k _ _ => k ≠ key
  | _ => True
  end.

(** The event leaves the registration of instance [l] under [key] alone: the
    registry is not closed, the instance not changed, and nobody registers or
    deregisters or, as another client, writes or deletes the key. *)
Definition leaves_alone (key : string) (l : nat) (w : World E) (ev : Event) : Prop :=
  no_new_put key w ev ∧
  match ev with
  | EDeregister l' => ∀ inst, heap w !! l' = Some inst → instance_key w inst ≠ key
  | EOtherDelete k => k ≠ key
  | EWrite l' _ => l' ≠ l
  | EClose => False
  | _ => True
  end.

(** A watch with what the consumer receives, and the responses of a run. *)
Definition watch_io (e : WatchEvent) (x : Watcher) : option (Watcher * option Snapshot) :=
  x' ← watch_step e x; Some (x', match e with WReceive => head (ch x) | _ => None end).

Definition response (e : WatchEvent) : option Snapshot := match e with WResponse s => Some s | _ => None end.

Definition pending (x : Watcher) : list Snapshot :=
  match wstate x with WPush s | WDrop s | WSend s => [s] | WWait | WEnded => [] end.

Definition watch_ok (x : Watcher) : Prop :=
  (length (ch x) ≤ ch_capacity)%nat ∧
  match wstate x with WSend _ => (length (ch x) < ch_capacity)%nat | _ => True end.

(** The thread of a registration: [Register] and then [keepAlive]. *)
Definition keeping (key value : string) (l : nat) (ss : gmap string nat) (v : View) (t : Thread) : Prop :=
  match t with
  | RGrant k x l' | RPut k x l' _ => k = key ∧ x = value ∧ l' = l
  | RStore k l' L => k = key ∧ l' = l ∧ attached key value L v
  | KWait k L | KCheck k L => k = key ∧ ss !! key = Some l ∧ attached key value L v
  | KGrant k L l' | KPut k L l' _ => k = key ∧ ss !! key = Some l ∧ l' = l ∧ attached key value L v
  | KRevoke k L _ => k = key ∧ ss !! key = Some l ∧ attached key value L v
  | KStore k _ L => k = key ∧ ss !! key = Some l ∧ attached key value L v
  | _ => False
  end.

(** What no command but a put of the key destroys. *)
Definition mild (key : string) (e e' : E) : Prop :=
  known (view e) ⊆ known (view e') ∧
  (∀ value L, L ∈ known (view e) → attached key value L (view e) → attached key value L (view e')) ∧
  (kvs (view e) !! key = None → kvs (view e') !! key = None).

(** Every lease in use is one there has been, and what is registered has a
    lease. *)
Definition sane (w : World E) : Prop :=
  (∀ t, t ∈ threads w → ∀ L, L ∈ holds t → L ∈ known (view (etcd w))) ∧
  (∀ k L, leases (registry w) !! k = Some L → L ∈ known (view (etcd w))) ∧
  (∀ k, is_Some (services (registry w) !! k) → is_Some (leases (registry w) !! k)).

Definition outside (ev : Event) : bool :=
  match ev with
  | EWatch _ | EWatchResponse _ | EWatcher _ _ | EWrite _ _ | EExpire _ | EOtherPut _ _ _ | EOtherDelete _ => true
  | _ => false
  end.

(** Nothing under way puts the key, and it is not registered. *)
Definition unregistered (key : string) (w : World E) : Prop :=
  services (registry w) !! key = None ∧ ∀ j t, threads w !! j = Some t → ¬ may_put key t.

Definition deregistering (key : string) (t : Thread) : Prop :=
  match t with DRevoke k _ | DDelete k => k = key | Ended => True | _ => False end.

Definition over (t : Thread) : Prop := match t with RRevoke _ | Ended => True | _ => False end.

(** The registration of instance [l] by thread [i], alone with its key. *)
Definition registration (key value : string) (l i : nat) (inst : ServiceInstance) (w : World E) : Prop :=
  sane w ∧ closed (registry w) = false ∧ heap w !! l = Some inst ∧
  (∃ t, threads w !! i = Some t ∧ (keeping key value l (services (registry w)) (view (etcd w)) t ∨ over t)) ∧
  (∀ j t, j ≠ i → threads w !! j = Some t → ¬ concerns key t).

Definition goroutine_alive (i : nat) (w : World E) : Prop := ∃ t, threads w !! i = Some t ∧ goroutine t = true.

Definition kept (key value : string) (i : nat) (w : World E) : Prop :=
  up (etcd w) ∧ ∃ L, threads w !! i = Some (KWait key L) ∧ kvs (view (etcd w)) !! key = Some (value, L) ∧
                     L ∈ live (view (etcd w)).

(** Steps of one thread. *)
Definition runs_to (i n : nat) (w w' : World E) : Prop := ∃ rs, run (repeat (EStep i) n) w = Some (w', rs).

(** The steps a goroutine is from its wait. *)
Definition distance (t : Thread) : nat :=
  match t with KCheck _ _ => 4 | KGrant _ _ _ => 3 | KPut _ _ _ _ => 2 | KRevoke _ _ _ | KStore _ _ _ => 1 | _ => 0 end.

End Spec.

(** *** Runs of the witnesses *)

Section Runs.
#[local] Existing Instances sample_json range_first_key_order.

Definition sample_world clean faults : World (Server clean) :=
  start (empty_server clean faults) [sample_instance; nested_instance] "/services/" 30.

(** [Register], whole, by thread [i]. *)
Definition register (l i : nat) : list Event := [ERegister l; EStep i; EStep i; EStep i].

Definition after {clean} (evs : list Event) (w : World (Server clean)) : World (Server clean) :=
  default w (fst <$> run evs w).

Definition users_key : string := "/services/users/1".

Definition stored_at {clean} (w : World (Server clean)) : option (string * Z) := s_kvs (etcd w) !! users_key.

End Runs.

(** ** Lemmas *)

Section Lemmas.
Context {E : Type} `{EtcdOk E} `{Json} `{RangeOrder}.
Implicit Types (w : World E) (e : E) (v : View).

(** *** Commands *)

Lemma mild_same key e e' : view e' = view e → mild key e e'.
Proof. intros E1. unfold mild. by rewrite E1. Qed.

Lemma mild_granted key l e e' : l ∉ known (view e) → view e' = granted l (view e) → mild key e e'.
Proof.
  intros Hl E1. unfold mild, attached. rewrite E1. simpl. split_and!; [set_solver| |done].
  intros value L HL Ha [->%elem_of_singleton|]%elem_of_union; [done|by apply Ha].
Qed.

Lemma mild_revoked key l e e' : view e' = revoked l (view e) → mild key e e'.
Proof.
  intros E1. unfold mild, attached. rewrite E1. unfold revoked. case_decide; [done|]. simpl. split_and!; [done| |].
  - intros value L _ Ha [HL Hne%not_elem_of_singleton]%elem_of_difference.
    apply map_lookup_filter_Some. by split; [apply Ha|].
  - intros Hn. apply map_lookup_filter_None. by left.
Qed.

Lemma mild_stored key k value l e e' : k ≠ key → view e' = stored k value l (view e) → mild key e e'.
Proof. intros Hk E1. unfold mild, attached. rewrite E1. simpl. split_and!; [done| |]; intros *; by rewrite lookup_insert_ne by congruence. Qed.

Lemma mild_removed key k e e' : k ≠ key → view e' = removed k (view e) → mild key e e'.
Proof. intros Hk E1. unfold mild, attached. rewrite E1. simpl. split_and!; [done| |]; intros *; by rewrite lookup_delete_ne by congruence. Qed.

Lemma Grant_mild key t e : mild key e (Grant t e).2.
Proof.
  pose proof (Grant_ok t e) as Hg. destruct (Grant t e) as [[l|err] e']; simpl.
  - destruct Hg as (_ & Hl & Hv). by eapply mild_granted.
  - destruct Hg as [Hv|(l & Hl & Hv)]; [by apply mild_same|by eapply mild_granted].
Qed.

Lemma Revoke_mild key l e : mild key e (Revoke l e).2.
Proof.
  pose proof (Revoke_ok l e) as Hr. destruct (Revoke l e) as [[|] e']; simpl.
  - by eapply mild_revoked.
  - destruct Hr; [by apply mild_same|by eapply mild_revoked].
Qed.

Lemma KeepAliveOnce_mild key l e : mild key e (KeepAliveOnce l e).2.
Proof.
  pose proof (KeepAliveOnce_ok l e) as Hk. destruct (KeepAliveOnce l e) as [r e']. apply mild_same, Hk.
Qed.

Lemma Put_mild key k value l e : k ≠ key → mild key e (Put k value l e).2.
Proof.
  intros Hk. pose proof (Put_ok k value l e) as Hp. destruct (Put k value l e) as [[|] e']; simpl.
  - by eapply mild_stored, Hp.
  - destruct Hp; [by apply mild_same|by eapply mild_stored].
Qed.

Lemma DeleteKey_mild key k e : k ≠ key → mild key e (DeleteKey k e).2.
Proof.
  intros Hk. pose proof (DeleteKey_ok k e) as Hd. destruct (DeleteKey k e) as [[|] e']; simpl.
  - by eapply mild_removed.
  - destruct Hd; [by apply mild_same|by eapply mild_removed].
Qed.

Lemma GetPrefix_mild key p e : mild key e (GetPrefix p e).2.
Proof.
  pose proof (GetPrefix_ok p e) as Hg. destruct (GetPrefix p e) as [[|] e']; apply mild_same; [apply Hg|done].
Qed.

Lemma Expire_mild key l e : mild key e (Expire l e).
Proof. eapply mild_revoked, Expire_ok. Qed.

Lemma under_ctx_mild {A} key w (command : E → res unit A * E) :
  mild key (etcd w) (command (etcd w)).2 → mild key (etcd w) (under_ctx w command).2.
Proof. unfold under_ctx. case_match; [by intros; apply mild_same|done]. Qed.

(** Every command keeps the leases there have been, and an absent key absent
    unless it puts the key. *)
Lemma known_Put k value l e : known (view (Put k value l e).2) = known (view e).
Proof.
  pose proof (Put_ok k value l e) as Hp. destruct (Put k value l e) as [[|] e']; simpl.
  - by destruct Hp as [_ ->].
  - by destruct Hp as [->| ->].
Qed.

Lemma known_DeleteKey k e : known (view (DeleteKey k e).2) = known (view e).
Proof.
  pose proof (DeleteKey_ok k e) as Hd. destruct (DeleteKey k e) as [[|] e']; simpl.
  - by rewrite Hd.
  - by destruct Hd as [->| ->].
Qed.

Lemma absent_DeleteKey k key e : kvs (view e) !! key = None → kvs (view (DeleteKey k e).2) !! key = None.
Proof.
  pose proof (DeleteKey_ok k e) as Hd. destruct (DeleteKey k e) as [[|] e']; simpl; intros Hn.
  - rewrite Hd. apply lookup_delete_None. by right.
  - destruct Hd as [->| ->]; [done|]. apply lookup_delete_None. by right.
Qed.

Lemma known_GetPrefix p e : view (GetPrefix p e).2 = view e.
Proof. pose proof (GetPrefix_ok p e) as Hg. destruct (GetPrefix p e) as [[|] e']; [apply Hg|done]. Qed.

Lemma under_ctx_ok {A} w (command : E → res unit A * E) a e :
  under_ctx w command = (Ok a, e) → command (etcd w) = (Ok a, e).
Proof. unfold under_ctx. by case_match. Qed.

Lemma under_ctx_known {A} w (command : E → res unit A * E) :
  known (view (etcd w)) ⊆ known (view (command (etcd w)).2) →
  known (view (etcd w)) ⊆ known (view (under_ctx w command).2).
Proof. unfold under_ctx. by case_match. Qed.

Lemma Grant_known t e l e' : Grant t e = (Ok l, e') → l ∈ known (view e').
Proof. intros Hg. pose proof (Grant_ok t e) as Ho. rewrite Hg in Ho. destruct Ho as (_ & _ & ->). simpl. set_solver. Qed.

Lemma known_grows key e e' : mild key e e' → known (view e) ⊆ known (view e').
Proof. by intros []. Qed.

(** *** Steps of a thread *)

(** Split the step [Hs] of the thread that [Ht] names into its branches, with
    each command's result in an equation. *)
Ltac branches Hs :=
  repeat (match type of Hs with
    | (match ?x with _ => _ end = _) => destruct x eqn:?
    | (match ?x with _ => _ end ≫= _ = _) => destruct x eqn:?
    | (?x ≫= _) ≫= _ = _ => destruct x eqn:?
    | ?x ≫= _ = _ => lazymatch x with Some _ => fail | _ => destruct x eqn:? end
    | context [match ?x with _ => _ end] => destruct x eqn:?
    end; cbn [mbind option_bind] in Hs; try discriminate Hs).

Ltac thread_cases Ht Hs :=
  unfold thread_step in Hs; rewrite Ht in Hs; cbn [mbind option_bind] in Hs;
  match type of Ht with _ = Some ?t => destruct t end;
  cbn [Register_step Deregister_step keepAlive_step Close_step] in Hs; unfold Heartbeat_step in Hs;
  branches Hs; cbn [mbind option_bind] in Hs; simplify_eq.

(** Learn what the commands of the context leave alone. *)
Ltac learn_mild key :=
  repeat match goal with
  | Hc : under_ctx ?w (Grant ?t) = (_, _) |- _ =>
      let Hm := fresh "Hmild" in
      pose proof (under_ctx_mild key w (Grant t) (Grant_mild key _ _)) as Hm; rewrite Hc in Hm; clear Hc
  | Hc : under_ctx ?w (KeepAliveOnce ?l) = (_, _) |- _ =>
      let Hm := fresh "Hmild" in
      pose proof (under_ctx_mild key w (KeepAliveOnce l) (KeepAliveOnce_mild key _ _)) as Hm; rewrite Hc in Hm; clear Hc
  | Hc : under_ctx ?w (Put ?k ?x ?l) = (_, _), Hk : ?k ≠ key |- _ =>
      let Hm := fresh "Hmild" in
      pose proof (under_ctx_mild key w (Put k x l) (Put_mild key _ _ _ _ Hk)) as Hm; rewrite Hc in Hm; clear Hc
  | Hc : Grant ?t ?e = (_, _) |- _ =>
      let Hm := fresh "Hmild" in pose proof (Grant_mild key t e) as Hm; rewrite Hc in Hm; clear Hc
  | Hc : Revoke ?l ?e = (_, _) |- _ =>
      let Hm := fresh "Hmild" in pose proof (Revoke_mild key l e) as Hm; rewrite Hc in Hm; clear Hc
  | Hc : KeepAliveOnce ?l ?e = (_, _) |- _ =>
      let Hm := fresh "Hmild" in pose proof (KeepAliveOnce_mild key l e) as Hm; rewrite Hc in Hm; clear Hc
  | Hc : Put ?k ?x ?l ?e = (_, _), Hk : ?k ≠ key |- _ =>
      let Hm := fresh "Hmild" in pose proof (Put_mild key k x l e Hk) as Hm; rewrite Hc in Hm; clear Hc
  | Hc : DeleteKey ?k ?e = (_, _), Hk : ?k ≠ key |- _ =>
      let Hm := fresh "Hmild" in pose proof (DeleteKey_mild key k e Hk) as Hm; rewrite Hc in Hm; clear Hc
  end; cbn [snd] in *.

(** The frame of a step: one thread moves, what it concerns does not grow. *)
Lemma thread_step_frame j t w w' r :
  threads w !! j = Some t → thread_step j w = Some (w', r) →
  ∃ t', threads w' = <[j := t']> (threads w) ∧ heap w' = heap w ∧ watchers w' = watchers w ∧
    prefix (registry w') = prefix (registry w) ∧ closed (registry w') = closed (registry w) ∧
    ∀ key, concerns key t' → concerns key t.
Proof. intros Ht Hs. thread_cases Ht Hs; eexists; split_and!; by simpl. Qed.

(** A thread that does not concern a key is mild to it. *)
Lemma thread_step_other key j t w w' r :
  threads w !! j = Some t → ¬ concerns key t → thread_step j w = Some (w', r) →
  mild key (etcd w) (etcd w') ∧ services (registry w') !! key = services (registry w) !! key.
Proof.
  intros Ht Hc Hs. thread_cases Ht Hs; simpl in Hc; learn_mild key; simpl.
  all: split; try done; try by apply mild_same.
  all: by rewrite lookup_insert_ne.
Qed.

(** One that will not put an absent, unregistered key leaves it so. *)
Lemma thread_step_no_put key j t w w' r :
  threads w !! j = Some t → ¬ may_put key t → services (registry w) !! key = None →
  thread_step j w = Some (w', r) →
  (∀ t', threads w' !! j = Some t' → ¬ may_put key t') ∧ services (registry w') !! key = None ∧
  (kvs (view (etcd w)) !! key = None → kvs (view (etcd w')) !! key = None).
Proof.
  intros Ht Hp Hn Hs. assert (Hj : (j < length (threads w))%nat) by by eapply lookup_lt_Some.
  thread_cases Ht Hs; simpl in Hp; simpl; rewrite ?list_lookup_insert_eq by done.
  all: split_and!; try done; try (intros t' [= <-]; simpl; congruence || tauto).
  all: try (match goal with Hd : DeleteKey ?k ?e = _ |- _ =>
              pose proof (absent_DeleteKey k key e) as Hab; by rewrite Hd in Hab end).
  all: learn_mild key.
  all: try (apply mild_same; done).
  all: try (match goal with Hm : mild _ _ _ |- _ => apply Hm end).
  all: try by rewrite lookup_insert_ne.
  all: congruence.
Qed.

(** *** Reachable worlds *)

Lemma sane_frame w w' :
  threads w' = threads w → registry w' = registry w → known (view (etcd w)) ⊆ known (view (etcd w')) → sane w → sane w'.
Proof. intros E1 E2 Hk (Ht & Hl & Hs). unfold sane. rewrite E1, E2. split_and!; [set_solver|set_solver|done]. Qed.

Lemma sane_spawn t w :
  (∀ L, L ∈ holds t → L ∈ known (view (etcd w))) → sane w → sane (spawn t w).
Proof. intros Hh (Ht & Hl & Hs). split_and!; [|done..]. simpl. set_solver. Qed.

Lemma sane_goto i t e w :
  known (view (etcd w)) ⊆ known (view e) → (∀ L, L ∈ holds t → L ∈ known (view e)) → sane w → sane (goto i t e w).
Proof.
  intros Hk Hh (Ht & Hl & Hs). split_and!; [|set_solver|done]. simpl.
  intros t' [j Hj]%list_elem_of_lookup. destruct (decide (i = j)) as [<-|Hij].
  - apply list_lookup_insert_Some in Hj as [(_ & <- & _)|[]]; done.
  - rewrite list_lookup_insert_ne in Hj by done. apply list_elem_of_lookup_2 in Hj. set_solver.
Qed.

Lemma sane_maps ls ss w :
  (∀ k L, ls !! k = Some L → L ∈ known (view (etcd w))) → (∀ k, is_Some (ss !! k) → is_Some (ls !! k)) →
  sane w → sane (set_maps ls ss w).
Proof. intros Hl Hs (Ht & _ & _). by split_and!. Qed.

(** Learn that the commands of the context only add leases. *)
Ltac learn_known :=
  repeat match goal with
  | Hc : under_ctx ?w (Grant ?t) = (Ok _, _) |- _ => apply under_ctx_ok in Hc
  | Hc : under_ctx ?w (Put ?k ?x ?l) = (_, _) |- _ =>
      let Hm := fresh "Hknown" in
      pose proof (under_ctx_known w (Put k x l)) as Hm; rewrite known_Put, Hc in Hm; specialize (Hm (reflexivity _)); clear Hc
  | Hc : Grant ?t ?e = (Ok ?l, _) |- _ =>
      let Hm := fresh "Hknown" in
      pose proof (Grant_known _ _ _ _ Hc); pose proof (known_grows "" _ _ (Grant_mild "" t e)) as Hm;
      rewrite Hc in Hm; clear Hc
  | Hc : Put ?k ?x ?l ?e = (_, _) |- _ =>
      let Hm := fresh "Hknown" in pose proof (known_Put k x l e) as Hm; rewrite Hc in Hm; clear Hc
  | Hc : DeleteKey ?k ?e = (_, _) |- _ =>
      let Hm := fresh "Hknown" in pose proof (known_DeleteKey k e) as Hm; rewrite Hc in Hm; clear Hc
  end;
  learn_mild "";
  repeat match goal with Hm : mild _ _ _ |- _ => apply known_grows in Hm end; cbn [snd] in *.

Lemma thread_step_sane j t w w' r :
  threads w !! j = Some t → thread_step j w = Some (w', r) → sane w → sane w'.
Proof.
  intros Ht Hs Hw. pose proof Hw as (Hh & Hl & Hss). specialize (Hh t ltac:(by eapply list_elem_of_lookup_2)).
  thread_cases Ht Hs; learn_known; simpl in Hh.
  all: try (apply sane_goto; [set_solver|set_solver|done]).
  3: { apply sane_goto; [done| |done]. simpl. intros L ([k L'] & -> & Hk)%list_elem_of_fmap.
       rewrite range_map_perm in Hk. apply elem_of_map_to_list in Hk. by eapply Hl. }
  all: apply sane_goto; [done|set_solver|apply sane_maps; [| |done]].
  all: try (intros k L [[_ <-]|[_ Hk]]%lookup_insert_Some; set_solver).
  all: intros k; specialize (Hss k); rewrite ?lookup_insert_is_Some'; tauto.
Qed.

(** *** Events of other parts: the watches, the caller's memory, the server
    and other clients *)

Lemma GetInstances_frame name w :
  view (etcd (GetInstances name w).2) = view (etcd w) ∧ registry (GetInstances name w).2 = registry w ∧
  heap (GetInstances name w).2 = heap w ∧ threads (GetInstances name w).2 = threads w.
Proof.
  unfold GetInstances. set (p := (prefix _ +:+ _)%string). pose proof (known_GetPrefix p (etcd w)) as Hv.
  by destruct (GetPrefix p (etcd w)) as [[|] e].
Qed.

Lemma Watch_frame name w :
  view (etcd (Watch name w)) = view (etcd w) ∧ registry (Watch name w) = registry w ∧
  heap (Watch name w) = heap w ∧ threads (Watch name w) = threads w.
Proof.
  pose proof (GetInstances_frame name w) as Hf. unfold Watch.
  by destruct (GetInstances name w) as [[|] w'].
Qed.

Lemma Watch_response_frame j w w' :
  Watch_response j w = Some w' →
  view (etcd w') = view (etcd w) ∧ registry w' = registry w ∧ heap w' = heap w ∧ threads w' = threads w.
Proof.
  unfold Watch_response. destruct (watchers w !! j) as [x|]; [|done]. simpl.
  pose proof (GetInstances_frame (service x) w) as Hf.
  destruct (GetInstances (service x) w) as [[s|] w1]; intros Hs; branches Hs; by simplify_eq.
Qed.

Lemma outside_frame ev w w' r :
  outside ev = true → step ev w = Some (w', r) →
  r = Pending ∧ threads w' = threads w ∧ registry w' = registry w ∧
  known (view (etcd w)) ⊆ known (view (etcd w')) ∧
  (∀ key, no_new_put key w ev → kvs (view (etcd w)) !! key = None → kvs (view (etcd w')) !! key = None) ∧
  (∀ key l, leaves_alone key l w ev → mild key (etcd w) (etcd w') ∧ heap w' !! l = heap w !! l).
Proof.
  intros Ho Hs. destruct ev; try done; simpl in Hs.
  - simplify_eq. destruct (Watch_frame serviceName w) as (Hv & -> & -> & ->). rewrite Hv.
    split_and!; try done. intros. by split; [apply mild_same|].
  - destruct (Watch_response j w) as [w1|] eqn:Hw; simplify_eq/=.
    destruct (Watch_response_frame j w w' Hw) as (Hv & -> & -> & ->). rewrite Hv.
    split_and!; try done. intros. by split; [apply mild_same|].
  - branches Hs; simplify_eq/=; split_and!; try done; intros; by split; [apply mild_same|].
  - branches Hs; simplify_eq/=; split_and!; try done. intros key l' [_ Hl].
    split; [by apply mild_same|by rewrite list_lookup_insert_ne].
  - simplify_eq/=. split_and!; try done; [eapply known_grows, (Expire_mild "")|intros key _|intros key l' _].
    + apply (Expire_mild key).
    + by split; [apply Expire_mild|].
  - simplify_eq/=. rewrite known_Put. split_and!; try done; [intros k' Hk|intros k' l' [Hk _]].
    + by apply Put_mild.
    + by split; [apply Put_mild|].
  - simplify_eq/=. rewrite known_DeleteKey. split_and!; try done; [intros k' _|intros k' l' [_ Hk]].
    + apply absent_DeleteKey.
    + by split; [apply DeleteKey_mild|].
Qed.

Lemma step_sane ev w w' r : step ev w = Some (w', r) → sane w → sane w'.
Proof.
  intros Hs Hw. destruct (outside ev) eqn:Ho.
  { destruct (outside_frame _ _ _ _ Ho Hs) as (_ & E1 & E2 & Hk & _). by eapply sane_frame. }
  pose proof Hw as (Hh & Hl & Hss). destruct ev; try done; simpl in Hs.
  - unfold Register in Hs. branches Hs; simplify_eq; apply sane_spawn; set_solver.
  - unfold Deregister in Hs. branches Hs; simplify_eq.
    all: apply sane_spawn; [set_solver|]; try done; apply sane_maps; try done.
    all: try (intros k L [_ Hk]%lookup_delete_Some; by eapply Hl).
    all: intros k; specialize (Hss k); rewrite !lookup_delete_is_Some; tauto.
  - unfold Heartbeat in Hs. branches Hs; simplify_eq; apply sane_spawn; set_solver.
  - simplify_eq. by apply sane_spawn; [set_solver|].
  - destruct (threads w !! i) as [t|] eqn:Ht; [by eapply thread_step_sane|].
    unfold thread_step in Hs. by rewrite Ht in Hs.
  - unfold thread_stop in Hs. branches Hs; simplify_eq/=. apply sane_goto; set_solver.
Qed.

Lemma reachable_sane w : reachable w → sane w.
Proof.
  intros (e0 & instances & p & t & evs & rs & Hrun). revert Hrun.
  apply (run_steps_invariant step sane (λ _ _, True)); [intros; by eapply step_sane| |].
  { split_and!; simpl; [by intros ? ?%elem_of_nil|by intros|by intros ? []]. }
  generalize (start e0 instances p t). induction evs as [|ev evs IH]; intros w0; [done|].
  split; [done|]. by case_match; [case_match|].
Qed.

(** *** The registry after a deregistration *)

Lemma unregistered_spawn key t w : ¬ may_put key t → unregistered key w → unregistered key (spawn t w).
Proof.
  intros Ht [Hs Hw]. split; [done|]. intros j t' [?|[_ ?]]%lookup_snoc_Some; naive_solver.
Qed.

Lemma step_unregistered key ev w w' r :
  no_new_put key w ev → step ev w = Some (w', r) → unregistered key w →
  unregistered key w' ∧ (kvs (view (etcd w)) !! key = None → kvs (view (etcd w')) !! key = None).
Proof.
  intros Hp Hs Hu. destruct (outside ev) eqn:Ho.
  { destruct (outside_frame _ _ _ _ Ho Hs) as (_ & E1 & E2 & _ & Hn & _).
    unfold unregistered. rewrite E1, E2. by split; [|apply Hn]. }
  destruct ev; try done; simpl in Hs.
  - simpl in Hp. unfold Register in Hs. branches Hs; simplify_eq; (split; [|done]); apply unregistered_spawn; try done.
    by apply Hp.
    simpl. tauto.
  - unfold Deregister in Hs. branches Hs; simplify_eq; (split; [|done]); apply unregistered_spawn; try done; simpl; try tauto.
    all: destruct Hu as [Hn Hw]; split; [|done]; simpl; rewrite lookup_delete_None; tauto.
  - unfold Heartbeat in Hs. branches Hs; simplify_eq; (split; [|done]); (apply unregistered_spawn; [simpl; tauto|done]).
  - simplify_eq. split; [|done]. apply unregistered_spawn; [simpl; tauto|done].
  - destruct (threads w !! i) as [t|] eqn:Ht; [|unfold thread_step in Hs; by rewrite Ht in Hs].
    destruct Hu as [Hn Hw].
    destruct (thread_step_no_put key i t w w' r Ht (Hw _ _ Ht) Hn Hs) as (Hi & Hn' & Hk).
    destruct (thread_step_frame i t w w' r Ht Hs) as (t' & Ets & _).
    split; [split; [done|]|done]. intros j u Hj. destruct (decide (j = i)) as [->|Hne]; [by apply Hi|].
    rewrite Ets, list_lookup_insert_ne in Hj by done. by apply (Hw j).
  - unfold thread_stop in Hs. branches Hs; simplify_eq/=. split; [|done].
    destruct Hu as [Hn Hw]. split; [done|]. intros j u [(_ & <- & _)|[_ Hj]]%list_lookup_insert_Some; [simpl; tauto|by apply (Hw j)].
Qed.

(** Threads only step at their own events. *)
Lemma step_thread_kept ev w w' r i t :
  threads w !! i = Some t → step ev w = Some (w', r) →
  threads w' !! i = Some t ∧ (∀ err, r = Returned i err → False) ∨
  ev = EStep i ∨ (ev = EStop i ∧ ∃ key L, t = KWait key L ∧ closed (registry w) = true).
Proof.
  intros Ht Hs. assert (Hi : (i < length (threads w))%nat) by by eapply lookup_lt_Some.
  destruct (outside ev) eqn:Ho.
  { destruct (outside_frame _ _ _ _ Ho Hs) as (-> & -> & _). by left. }
  destruct ev; try done; simpl in Hs.
  - left. unfold Register in Hs. branches Hs; simplify_eq/=; (split; [by apply lookup_app_l_Some|]); intros; simplify_eq; lia.
  - left. unfold Deregister in Hs. branches Hs; simplify_eq/=; (split; [by apply lookup_app_l_Some|done]).
  - left. unfold Heartbeat in Hs. branches Hs; simplify_eq/=; (split; [by apply lookup_app_l_Some|]); intros; simplify_eq; lia.
  - left. simplify_eq/=. split; [by apply lookup_app_l_Some|done].
  - destruct (decide (i0 = i)) as [->|Hne]; [by auto|]. left.
    destruct (threads w !! i0) as [t0|] eqn:Ht0; [|unfold thread_step in Hs; by rewrite Ht0 in Hs].
    destruct (thread_step_frame _ _ _ _ _ Ht0 Hs) as (t' & -> & _). rewrite list_lookup_insert_ne by done.
    split; [done|]. clear Ht. intros err ->. thread_cases Ht0 Hs.
  - destruct (decide (i0 = i)) as [->|Hne].
    + unfold thread_stop in Hs. rewrite Ht in Hs. right. right. destruct t; branches Hs; simplify_eq. eauto.
    + left. unfold thread_stop in Hs. branches Hs; simplify_eq/=. by rewrite list_lookup_insert_ne.
Qed.

Lemma step_deregistering key i ev w w' r :
  (∃ t, threads w !! i = Some t ∧ deregistering key t) → step ev w = Some (w', r) →
  (∃ t, threads w' !! i = Some t ∧ deregistering key t) ∧
  (r = Returned i None → kvs (view (etcd w')) !! key = None).
Proof.
  intros (t & Ht & Hd) Hs. assert (Hi : (i < length (threads w))%nat) by by eapply lookup_lt_Some.
  destruct (step_thread_kept ev w w' r i t Ht Hs) as [[Ht' Hr]|[->|(-> & k & L & -> & _)]]; [|simpl in Hs|done].
  { split; [by exists t|]. intros ->. by destruct (Hr None). }
  unfold thread_step in Hs. rewrite Ht in Hs. destruct t; try done; simpl in Hs, Hd; subst.
  - destruct (Revoke lease (etcd w)); simplify_eq/=. split; [|done]. exists (DDelete key).
    by rewrite list_lookup_insert_eq.
  - pose proof (DeleteKey_ok key (etcd w)) as Hk. destruct (DeleteKey key (etcd w)) as [[|] e]; simplify_eq/=.
    all: split; [exists Ended; by rewrite list_lookup_insert_eq|]; try done.
    intros _. rewrite Hk. apply lookup_delete_eq.
Qed.

(** What [Deregister] does at once. *)
Lemma Deregister_starts l inst w w1 r :
  sane w → heap w !! l = Some inst → (∀ t, t ∈ threads w → ¬ may_put (instance_key w inst) t) →
  Deregister l w = Some (w1, r) →
  unregistered (instance_key w inst) w1 ∧
  ∃ t, threads w1 !! length (threads w) = Some t ∧ deregistering (instance_key w inst) t.
Proof.
  intros (_ & _ & Hss) Hl Hp Hs. set (key := instance_key w inst) in *.
  assert (Hlast : ∀ t (w0 : World E), threads w0 = threads w → threads (spawn t w0) !! length (threads w) = Some t).
  { intros t w0 E1. simpl. rewrite E1. by rewrite lookup_app_r, Nat.sub_diag by done. }
  unfold Deregister in Hs. rewrite Hl in Hs. simpl in Hs. fold key in Hs.
  assert (Hu : ∀ t ls, ¬ may_put key t → unregistered key (spawn t (set_maps ls (delete key (services (registry w))) w))).
  { intros t ls Ht. apply unregistered_spawn; [done|]. split; [apply lookup_delete_eq|].
    intros j u Hj. by eapply Hp, list_elem_of_lookup_2. }
  destruct (leases (registry w) !! key) as [L|] eqn:HL; simplify_eq/=.
  - split; [apply Hu; case_decide; simpl; tauto|]. eexists. split; [by apply Hlast|]. by case_decide.
  - split; [|eexists; by split; [apply Hlast|]]. apply unregistered_spawn; [simpl; tauto|]. split.
    + apply eq_None_not_Some. intros Hi%Hss. by rewrite HL in Hi; apply is_Some_None in Hi.
    + intros j u Hj. by eapply Hp, list_elem_of_lookup_2.
Qed.

(** *** A registration and its goroutine *)

Lemma attached_mild key value L e e' :
  L ∈ known (view e) → mild key e e' → attached key value L (view e) → attached key value L (view e').
Proof. intros HL (_ & Ha & _). by apply Ha. Qed.

Lemma keeping_mild key value l ss ss' e e' t :
  (∀ L, L ∈ holds t → L ∈ known (view e)) → mild key e e' → ss' !! key = ss !! key →
  keeping key value l ss (view e) t → keeping key value l ss' (view e') t.
Proof.
  intros Hh Hm Es. destruct t; simpl in Hh |- *; rewrite ?Es; try done.
  all: intros Hk; destruct_and!; split_and!; try done.
  all: eapply attached_mild; [apply Hh; set_solver|done|done].
Qed.

(** Steps of other threads and events of other parts. *)
Lemma registration_frame key value l i inst w w' :
  registration key value l i inst w → sane w' → closed (registry w') = false → heap w' !! l = Some inst →
  threads w' !! i = threads w !! i → mild key (etcd w) (etcd w') →
  services (registry w') !! key = services (registry w) !! key →
  (∀ j t, j ≠ i → threads w' !! j = Some t → ¬ concerns key t) → registration key value l i inst w'.
Proof.
  intros ((Hh & _) & _ & _ & (t & Ht & Hk) & _) Hs Hc Hl Ei Hm Es Ho. split_and!; try done.
  exists t. rewrite Ei. split; [done|]. destruct Hk as [Hk|]; [left|by right].
  eapply keeping_mild; [|done|done|done]. apply Hh. by eapply list_elem_of_lookup_2.
Qed.

Lemma others_spawn key i t w :
  (i < length (threads w))%nat → (∀ j u, j ≠ i → threads w !! j = Some u → ¬ concerns key u) → ¬ concerns key t →
  ∀ j u, j ≠ i → (threads w ++ [t]) !! j = Some u → ¬ concerns key u.
Proof. intros Hi Ho Ht j u Hj [Hu|[_ <-]]%lookup_snoc_Some; [by eapply Ho, Hu|done]. Qed.

Lemma step_registration_other key value l i inst ev w w' r :
  ev ≠ EStep i → leaves_alone key l w ev → step ev w = Some (w', r) →
  registration key value l i inst w →
  registration key value l i inst w' ∧ threads w' !! i = threads w !! i ∧ (∀ err, r ≠ Returned i err).
Proof.
  intros Hne Hal Hs Hr. pose proof Hr as (Hw & Hc & Hl & (t & Ht & Hk) & Ho).
  assert (Hi : (i < length (threads w))%nat) by by eapply lookup_lt_Some.
  pose proof (step_sane _ _ _ _ Hs Hw) as Hw'.
  destruct (step_thread_kept ev w w' r i t Ht Hs) as [[Ht' Hret]|[->|(_ & ? & ? & _ & ?)]]; [|done|congruence].
  rewrite Ht, Ht'. split; [|split; [done|by intros err ->; eapply Hret]].
  destruct (outside ev) eqn:Hout.
  { destruct (outside_frame _ _ _ _ Hout Hs) as (-> & E1 & E2 & _ & _ & Hm).
    destruct (Hm key l Hal) as [Hm' El].
    apply (registration_frame _ _ _ _ _ w); rewrite ?E1, ?E2, ?El; try done. }
  assert (Hspawn : ∀ u w0, w' = spawn u w0 → threads w0 = threads w → etcd w0 = etcd w →
    closed (registry w0) = false → heap w0 = heap w → services (registry w0) !! key = services (registry w) !! key →
    ¬ concerns key u → registration key value l i inst w').
  { intros u w0 -> Et Ee Ec Eh Es Hu. apply (registration_frame _ _ _ _ _ w); try done; simpl in *.
    - by rewrite Eh.
    - by rewrite Ht'.
    - rewrite Ee. by apply mild_same.
    - rewrite Et. by apply (others_spawn key i). }
  destruct ev; try done; destruct Hal as [Hput Hal]; simpl in Hs, Hput, Hal; try done.
  - unfold Register in Hs. branches Hs; simplify_eq; eapply Hspawn; try done; simpl; [by apply Hput|tauto].
  - unfold Deregister in Hs. branches Hs; simplify_eq; specialize (Hal _ eq_refl).
    all: eapply Hspawn; try done; simpl; by rewrite lookup_delete_ne.
  - unfold Heartbeat in Hs. branches Hs; simplify_eq; eapply Hspawn; try done; simpl; tauto.
  - rename i0 into k. destruct (threads w !! k) as [u|] eqn:Hu; [|unfold thread_step in Hs; by rewrite Hu in Hs].
    assert (Hij : k ≠ i) by congruence.
    destruct (thread_step_frame _ _ _ _ _ Hu Hs) as (u' & Et & Eh & _ & _ & Ec & Hcon).
    destruct (thread_step_other key _ _ _ _ _ Hu (Ho _ _ Hij Hu) Hs) as [Hm Es].
    apply (registration_frame _ _ _ _ _ w); rewrite ?Et, ?Eh, ?Ec; try done.
    + by rewrite list_lookup_insert_ne.
    + intros j x Hj [(-> & <- & _)|[_ Hx]]%list_lookup_insert_Some; [|by eapply Ho].
      intros Hx%Hcon. by apply (Ho _ _ Hij Hu).
  - unfold thread_stop in Hs. rewrite Hc in Hs. branches Hs.
Qed.

Lemma attached_stored key value L e e' :
  view e' = stored key value L (view e) → attached key value L (view e').
Proof. intros Hv _. rewrite Hv. apply lookup_insert_eq. Qed.

(** The thread's own steps. *)
Lemma keeping_step `{!PutsFailCleanly E} key value l i inst t w w' r :
  sane w → closed (registry w) = false → heap w !! l = Some inst → Marshal inst = Some value →
  threads w !! i = Some t → keeping key value l (services (registry w)) (view (etcd w)) t →
  thread_step i w = Some (w', r) →
  ∃ t', threads w' !! i = Some t' ∧
    (keeping key value l (services (registry w')) (view (etcd w')) t' ∨ over t') ∧
    (r = Returned i None ∨ goroutine t = true → goroutine t' = true).
Proof.
  intros Hw Hc Hl Hm Ht Hk Hs. assert (Hi : (i < length (threads w))%nat) by by eapply lookup_lt_Some.
  assert (Hctx : ∀ A (c : E → res unit A * E), under_ctx w c = c (etcd w)) by (intros; unfold under_ctx; by rewrite Hc).
  destruct Hw as (Hh & _). specialize (Hh t ltac:(by eapply list_elem_of_lookup_2)).
  thread_cases Ht Hs; simpl in Hk, Hh; try done; rewrite ?Hctx in *; simplify_eq.
  all: eexists; (split; [apply list_lookup_insert_eq; simpl; lia|]); simpl.
  all: (split; [|naive_solver]); try (by right); left; destruct_and!; simplify_eq.
  all: try match goal with Hp : Put _ _ _ _ = _ |- _ => rewrite Hm in Hp; simpl in Hp end.
  all: split_and!; try done; try apply lookup_insert_eq; try congruence.
  all: try match goal with Hp : Put ?k ?x ?L ?e = (Ok _, _) |- _ =>
      pose proof (Put_ok k x L e) as Hput; rewrite Hp in Hput; by eapply attached_stored, Hput end.
  all: try match goal with Hp : Put ?k ?x ?L ?e = (Err ?err, _) |- _ =>
      pose proof (put_err k x L e err) as Hput; rewrite Hp in Hput; simpl in Hput; by rewrite (Hput eq_refl) end.
  all: learn_mild key; eapply attached_mild; [| |done]; [apply Hh; set_solver|done].
Qed.
Lemma over_step i t w w' r :
  threads w !! i = Some t → over t → thread_step i w = Some (w', r) →
  ∃ t', threads w' !! i = Some t' ∧ over t' ∧ (r = Returned i None ∨ goroutine t = true → goroutine t' = true).
Proof.
  intros Ht Ho Hs. assert (Hi : (i < length (threads w))%nat) by by eapply lookup_lt_Some.
  thread_cases Ht Hs; try done. exists Ended. simpl. rewrite list_lookup_insert_eq by done. naive_solver.
Qed.

Lemma step_registration `{!PutsFailCleanly E} key value l i inst ev w w' r :
  Marshal inst = Some value → registration key value l i inst w →
  leaves_alone key l w ev → step ev w = Some (w', r) →
  registration key value l i inst w' ∧ (r = Returned i None ∨ goroutine_alive i w → goroutine_alive i w').
Proof.
  intros Hm Hr Hal Hs. assert (ev = EStep i ∨ ev ≠ EStep i) as [->|Hne].
  { destruct ev; try (by right). destruct (decide (i0 = i)) as [->|]; [by left|right; congruence]. }
  - clear Hal. simpl in Hs. pose proof Hr as (Hw & Hc & Hl & (t & Ht & Hk) & Ho).
    destruct (thread_step_frame _ _ _ _ _ Ht Hs) as (u & Et & Eh & _ & _ & Ec & _).
    assert (Hnext : ∃ t', threads w' !! i = Some t' ∧
      (keeping key value l (services (registry w')) (view (etcd w')) t' ∨ over t') ∧
      (r = Returned i None ∨ goroutine t = true → goroutine t' = true)).
    { destruct Hk as [Hk|Hk]; [by eapply keeping_step|].
      destruct (over_step i t w w' r Ht Hk Hs) as (t' & ? & ? & ?). eauto. }
    destruct Hnext as (t' & Ht' & Hk' & Hg). split.
    + split; [exact (thread_step_sane i t w w' r Ht Hs Hw)|]. split_and!; [congruence|congruence|by exists t'|].
      intros j x Hj. rewrite Et, list_lookup_insert_ne by done. by apply Ho.
    + intros [Hret|(t0 & Ht0 & Hg0)]; exists t'; (split; [done|]); apply Hg; [by left|right; congruence].
  - destruct (step_registration_other key value l i inst ev w w' r Hne Hal Hs Hr) as (Hr' & Ei & Hret).
    split; [done|]. unfold goroutine_alive. rewrite Ei. intros [->|]; [by destruct (Hret None)|done].
Qed.

(** *** With a server that answers, the goroutine brings the key back *)

Lemma runs_to_S i n w w1 w2 r : thread_step i w = Some (w1, r) → runs_to i n w1 w2 → runs_to i (S n) w w2.
Proof. intros Hs [rs Hr]. exists (r :: rs). unfold run in *. simpl. rewrite Hs. simpl. by rewrite Hr. Qed.

Lemma runs_to_app i n m w w1 w2 : runs_to i n w w1 → runs_to i m w1 w2 → runs_to i (n + m) w w2.
Proof.
  intros [rs1 H3] [rs2 H4]. exists (rs1 ++ rs2). unfold run in *. rewrite repeat_app.
  rewrite (run_steps_app _ _ _ _ _ _ H3), H4. done.
Qed.

Lemma goroutine_step key value l i inst t w :
  registration key value l i inst w → threads w !! i = Some t → goroutine t = true → up (etcd w) →
  ∃ w', thread_step i w = Some (w', Pending) ∧ up (etcd w') ∧
    (distance t ≠ 0%nat → ∃ t', threads w' !! i = Some t' ∧ (distance t' < distance t)%nat).
Proof.
  intros (_ & Hc & Hl & (t0 & Ht0 & Hk) & _) Ht Hg Hup. assert (t0 = t) as -> by congruence.
  assert (Hi : (i < length (threads w))%nat) by by eapply lookup_lt_Some.
  assert (Hctx : ∀ A (c : E → res unit A * E), under_ctx w c = c (etcd w)) by (intros; unfold under_ctx; by rewrite Hc).
  destruct Hk as [Hk|]; [|by destruct t]. unfold thread_step. rewrite Ht. cbn [mbind option_bind].
  assert (Hto : ∀ u, threads w !! i = Some t → <[i := u]> (threads w) !! i = Some u)
    by (intros; by apply list_lookup_insert_eq).
  destruct t; try done; cbn [keepAlive_step]; rewrite ?Hctx; simpl in Hk.
  - pose proof (up_KeepAliveOnce lease (etcd w) Hup) as [Hup' _].
    destruct (KeepAliveOnce lease (etcd w)) as [[|] e]; eexists; by split_and!.
  - destruct Hk as (-> & -> & _). eexists. split_and!; [done|done|]. intros _. eexists. split; [by apply Hto|simpl; lia].
  - pose proof (up_Grant (ttl (registry w)) (etcd w) Hup) as [Hup' _].
    destruct (Grant (ttl (registry w)) (etcd w)) as [[|] e]; eexists; (split_and!; [done|done|]).
    all: intros _; eexists; split; [by apply Hto|simpl; lia].
  - destruct Hk as (-> & _ & -> & _). rewrite Hl. cbn [mbind option_bind]. rewrite Hctx.
    pose proof (up_Put key (default "" (Marshal inst)) new (etcd w) Hup) as [Hup' _].
    destruct (Put key _ new (etcd w)) as [[|] e]; eexists; (split_and!; [done|done|]).
    all: intros _; eexists; split; [by apply Hto|simpl; lia].
  - pose proof (up_Revoke new (etcd w) Hup) as Hup'. destruct (Revoke new (etcd w)) as [r e].
    eexists; (split_and!; [done|done|]). intros _; eexists; split; [by apply Hto|simpl; lia].
  - eexists; (split_and!; [done|done|]). intros _; eexists; split; [by apply Hto|simpl; lia].
Qed.

Lemma registration_own `{!PutsFailCleanly E} key value l i inst w w' r :
  Marshal inst = Some value → registration key value l i inst w → goroutine_alive i w →
  thread_step i w = Some (w', r) →
  registration key value l i inst w' ∧ goroutine_alive i w' ∧ prefix (registry w') = prefix (registry w).
Proof.
  intros Hm Hr Hg Hs. pose proof Hg as (t & Ht & Ht').
  destruct (thread_step_frame _ _ _ _ _ Ht Hs) as (u & _ & _ & _ & Hp & _).
  destruct (step_registration key value l i inst (EStep i) w w' r Hm Hr) as [Hr' Hg']; [done|done|].
  split_and!; [apply Hr'..|by apply Hg'; right|done].
Qed.

Lemma goroutine_waits `{!PutsFailCleanly E} key value l i inst d t w :
  Marshal inst = Some value → registration key value l i inst w → threads w !! i = Some t → goroutine t = true →
  up (etcd w) → (distance t ≤ d)%nat →
  ∃ n w' L, (n ≤ d)%nat ∧ runs_to i n w w' ∧ registration key value l i inst w' ∧ up (etcd w') ∧
    prefix (registry w') = prefix (registry w) ∧ threads w' !! i = Some (KWait key L).
Proof.
  intros Hm. revert t w. induction d as [|d IH]; intros t w Hr Ht Hg Hup Hd.
  { exists 0%nat, w. pose proof Hr as (_ & _ & _ & (t0 & Ht0 & Hk) & _).
    destruct t; simpl in Hd, Hg; try done; try lia. simplify_eq. destruct Hk as [[-> _]|[]].
    eexists. split_and!; [lia|by exists []|apply Hr..|done|done|done]. }
  destruct (decide (distance t = 0%nat)) as [E0|E0].
  { destruct (IH t w Hr Ht Hg Hup ltac:(lia)) as (n & w' & L & Hn & Hrest). exists n, w', L. split; [lia|done]. }
  destruct (goroutine_step key value l i inst t w Hr Ht Hg Hup) as (w1 & Hs & Hup1 & Hd1).
  destruct (Hd1 E0) as (t1 & Ht1 & Hlt).
  destruct (registration_own key value l i inst w w1 Pending Hm Hr (ex_intro _ t (conj Ht Hg)) Hs) as (Hr1 & (t1' & Ht1' & Hg1) & Hp1).
  assert (t1' = t1) as -> by congruence.
  destruct (IH t1 w1 Hr1 Ht1 Hg1 Hup1 ltac:(lia)) as (n & w' & L & Hn & Hrun & Hr' & Hup' & Hp' & Ht').
  exists (S n), w', L. split_and!; [lia|by eapply runs_to_S|apply Hr'..|done|congruence|done].
Qed.

Lemma runs_to_0 i w : runs_to i 0 w w.
Proof. by exists []. Qed.

(** One step of the goroutine, its own state looked up. *)
Ltac own_step :=
  eapply runs_to_S; [unfold thread_step, under_ctx; simpl; rewrite ?list_lookup_insert_eq by (rewrite ?length_insert; done); simpl|].

(** A tick that finds its lease gone grants another and puts the key under it. *)
Lemma tick_renews key value l i inst L w :
  closed (registry w) = false → heap w !! l = Some inst → Marshal inst = Some value →
  services (registry w) !! key = Some l → threads w !! i = Some (KWait key L) → up (etcd w) → L ∉ live (view (etcd w)) →
  ∃ w', runs_to i 5 w w' ∧ prefix (registry w') = prefix (registry w) ∧ kept key value i w'.
Proof.
  intros Hc Hl Hm Hs Ht Hup HL. assert (Hi : (i < length (threads w))%nat) by by eapply lookup_lt_Some.
  pose proof (KeepAliveOnce_ok L (etcd w)) as Hk. pose proof (up_KeepAliveOnce L (etcd w) Hup) as [Hup1 _].
  destruct (KeepAliveOnce L (etcd w)) as [[[]|err] e1] eqn:E1; [by destruct HL; apply Hk|]. destruct Hk as [Hv1 _].
  pose proof (Grant_ok (ttl (registry w)) e1) as Hg. pose proof (up_Grant (ttl (registry w)) e1 Hup1) as [Hup2 [L' HL']].
  destruct (Grant (ttl (registry w)) e1) as [r e2] eqn:E2. simpl in HL', Hup2. subst r. destruct Hg as (_ & _ & Hv2).
  assert (Hlive : L' ∈ live (view e2)) by (rewrite Hv2; simpl; set_solver).
  pose proof (Put_ok key value L' e2) as Hp. pose proof (up_Put key value L' e2 Hup2) as [Hup3 HP].
  specialize (HP Hlive). destruct (Put key value L' e2) as [r e3] eqn:E3. simpl in HP, Hup3. subst r. destruct Hp as (_ & Hv3).
  eexists. split; [|shelve].
  own_step. { rewrite Ht. simpl. unfold under_ctx. rewrite Hc, E1. done. }
  own_step. { rewrite Hs. done. }
  own_step. { unfold under_ctx. simpl. rewrite Hc, E2. done. }
  own_step. { rewrite Hl. simpl. unfold under_ctx. simpl. rewrite Hc, Hm. simpl. rewrite E3. done. }
  own_step. { done. }
  apply runs_to_0. Unshelve. split; [done|]. split; [done|]. exists L'. simpl.
  split_and!; [by apply list_lookup_insert_eq; rewrite !length_insert|by rewrite Hv3; apply lookup_insert_eq|by rewrite Hv3].
Qed.

Lemma serviceKey_prefix r name id :
  serviceKey r name id = ((prefix r +:+ name +:+ "/") +:+ id)%string.
Proof. unfold serviceKey. by rewrite !str_app_assoc. Qed.

Lemma kept_listed key value i inst r w :
  Unmarshal value = Some inst → kept key value i w → key = serviceKey r (Discovery.Name inst) (Discovery.ID inst) →
  prefix (registry w) = prefix r →
  ∃ found, (GetInstances (Discovery.Name inst) w).1 = Ok found ∧ inst ∈ found.
Proof.
  intros Hu (Hup & L & _ & Hkv & _) Hkey Hp. unfold GetInstances. rewrite Hp.
  set (p := (prefix r +:+ _)%string). pose proof (GetPrefix_ok p (etcd w)) as Hg.
  destruct (up_GetPrefix p (etcd w) Hup) as [found Hf].
  destruct (GetPrefix p (etcd w)) as [r' e]. simpl in Hf. subst r'. destruct Hg as [_ Hin].
  eexists. split; [done|]. apply list_elem_of_omap. exists (key, value). split; [|done].
  apply Hin. split; [by exists L|]. rewrite Hkey, serviceKey_prefix. fold p. rewrite cut_prefix_app. by eexists.
Qed.

(** What [Register] does at once. *)
Lemma Register_starts key value l inst w w1 r :
  sane w → closed (registry w) = false → heap w !! l = Some inst → Marshal inst = Some value →
  key = instance_key w inst → (∀ t, t ∈ threads w → ¬ concerns key t) → Register l w = Some (w1, r) →
  registration key value l (length (threads w)) inst w1 ∧ registry w1 = registry w.
Proof.
  intros Hw Hc Hl Hm -> Ho Hs. unfold Register in Hs. rewrite Hl in Hs. simpl in Hs. rewrite Hm in Hs. simplify_eq.
  split; [|done]. split; [by apply sane_spawn; [set_solver|]|]. split_and!; [done|done| |]; simpl.
  - eexists. rewrite lookup_app_r, Nat.sub_diag by done. split; [done|]. by left.
  - intros j t Hj [[_ Ht]|[-> _]]%lookup_snoc_Some; [|done]. apply Ho. by eapply list_elem_of_lookup_2.
Qed.

Lemma step_prefix ev w w' r : step ev w = Some (w', r) → prefix (registry w') = prefix (registry w).
Proof.
  intros Hs. destruct (outside ev) eqn:Ho; [by destruct (outside_frame _ _ _ _ Ho Hs) as (_ & _ & -> & _)|].
  destruct ev; try done; simpl in Hs.
  - unfold Register in Hs. branches Hs; by simplify_eq.
  - unfold Deregister in Hs. branches Hs; by simplify_eq.
  - unfold Heartbeat in Hs. branches Hs; by simplify_eq.
  - by simplify_eq.
  - destruct (threads w !! i) as [t|] eqn:Ht; [|unfold thread_step in Hs; by rewrite Ht in Hs].
    by destruct (thread_step_frame _ _ _ _ _ Ht Hs) as (_ & _ & _ & _ & Hp & _).
  - unfold thread_stop in Hs. branches Hs; by simplify_eq/=.
Qed.

(** A registered thread with a server that answers gets its key listed. *)
Lemma goroutine_lists `{!PutsFailCleanly E} key value l i inst r w :
  Marshal inst = Some value → Unmarshal value = Some inst → registration key value l i inst w → goroutine_alive i w →
  up (etcd w) → key = serviceKey r (Discovery.Name inst) (Discovery.ID inst) → prefix (registry w) = prefix r →
  ∃ n w2 rs2, (n ≤ 9)%nat ∧ run (repeat (EStep i) n) w = Some (w2, rs2) ∧
     ∃ found, (GetInstances (Discovery.Name inst) w2).1 = Ok found ∧ inst ∈ found.
Proof.
  intros Hm Hu Hr (t & Ht & Hg) Hup Hkey Hp.
  assert (Hd : (distance t ≤ 4)%nat) by (destruct t; simpl; lia).
  destruct (goroutine_waits key value l i inst 4 t w Hm Hr Ht Hg Hup Hd) as (n & w2 & L & Hn & Hrun & Hr2 & Hup2 & Hp2 & Ht2).
  pose proof Hr2 as (_ & Hc & Hl & (t' & Ht' & Hk) & _). rewrite Ht2 in Ht'. injection Ht' as <-.
  destruct Hk as [(_ & Hs & Hatt)|[]].
  assert (Hkept : ∃ m w3, (m ≤ 5)%nat ∧ runs_to i m w2 w3 ∧ prefix (registry w3) = prefix (registry w2) ∧ kept key value i w3).
  { destruct (decide (L ∈ live (view (etcd w2)))) as [HL|HL].
    - exists 0%nat, w2. split_and!; [lia|apply runs_to_0|done|]. split; [done|]. exists L. by split_and!; [|apply Hatt|].
    - destruct (tick_renews key value l i inst L w2) as (w3 & ? & ? & ?); [done..|]. exists 5%nat, w3. split_and!; [lia|done..]. }
  destruct Hkept as (m & w3 & Hm' & Hrun' & Hp3 & Hk).
  destruct (runs_to_app _ _ _ _ _ _ Hrun Hrun') as [rs Hrs].
  exists (n + m)%nat, w3, rs. split_and!; [lia|done|]. eapply kept_listed; [done..|congruence].
Qed.

(** *** Watches *)

Lemma watch_io_step ev x x' got :
  watch_ok x → watch_io ev x = Some (x', got) →
  watch_ok x' ∧ ∃ gone, ch x ++ pending x ++ option_list (response ev) = gone ++ ch x' ++ pending x' ∧
                        option_list got `sublist_of` gone.
Proof.
  intros [Hlen Hst] Hs. unfold watch_io, watch_step in Hs. unfold watch_ok, pending.
  destruct ev, (wstate x) eqn:Ew; simpl in Hs; try done.
  all: repeat (case_match; simplify_eq/=; try done); simpl in *.
  all: try match goal with Hb : (_ <? _)%nat = true |- _ => apply Nat.ltb_lt in Hb end.
  all: try match goal with Hb : (_ <? _)%nat = false |- _ => apply Nat.ltb_ge in Hb end.
  all: rewrite ?length_app; unfold ch_capacity in *; simpl.
  4: { destruct (ch x) as [|y c]; simpl in *; (split; [lia|]); [by exists []|].
       exists [y]. split; [done|apply sublist_nil_l]. }
  all: split; [split; try done; lia|].
  all: first [by exists []; rewrite ?app_nil_r|by eexists [_]].
Qed.

Lemma watch_io_advances x : watch_ok x → pending x ≠ [] → is_Some (watch_step WAdvance x).
Proof.
  unfold watch_ok, pending, watch_step. intros [_ Hst] Hp. destruct (wstate x); try done.
  apply Nat.ltb_lt in Hst. rewrite Hst. by eexists.
Qed.

Lemma watch_run evs x0 x got :
  watch_ok x0 → run_steps watch_io evs x0 = Some (x, got) →
  watch_ok x ∧ ∃ gone, ch x0 ++ pending x0 ++ omap response evs = gone ++ ch x ++ pending x ∧
                       omap id got `sublist_of` gone.
Proof.
  revert x0 got. induction evs as [|ev evs IH]; intros x0 got Hok Hrun.
  { simplify_eq/=. split; [done|]. exists []. by rewrite app_nil_r. }
  destruct (run_steps_cons _ _ _ _ _ _ Hrun) as (x1 & r & rs & Hs & Hr & ->).
  destruct (watch_io_step ev x0 x1 r Hok Hs) as [Hok1 (gone1 & E1 & Hg1)].
  destruct (IH x1 rs Hok1 Hr) as [Hok' (gone2 & E2 & Hg2)]. split; [done|].
  exists (gone1 ++ gone2). split.
  - assert (omap response (ev :: evs) = option_list (response ev) ++ omap response evs) as ->
      by (simpl; by destruct (response ev)).
    rewrite <- (app_assoc gone1), <- E2.
    transitivity ((ch x0 ++ pending x0 ++ option_list (response ev)) ++ omap response evs);
      [|rewrite E1]; by rewrite <- !app_assoc.
  - assert (omap id (r :: rs) = option_list r ++ omap id rs) as -> by by destruct r.
    by apply sublist_app.
Qed.

End Lemmas.

(** *** The server of the witnesses keeps what the theorems ask *)

Lemma fold_max_le (X : gset Z) x : x ∈ X → x ≤ set_fold Z.max 0 X.
Proof.
  revert x. apply (set_fold_ind_L (λ r X, ∀ x, x ∈ X → x ≤ r)); [set_solver|].
  intros y X' r _ IH x [->%elem_of_singleton|Hx]%elem_of_union; [lia|]. specialize (IH x Hx). lia.
Qed.

Lemma s_next_fresh s : s_next s ∉ s_live s ∪ s_past s.
Proof. intros Hin%fold_max_le. unfold s_next in Hin. lia. Qed.

Lemma s_next_positive s : s_next s ≠ 0.
Proof.
  unfold s_next. assert (0 ≤ set_fold Z.max 0 (s_live s ∪ s_past s)); [|lia].
  apply (set_fold_ind_L (λ r _, 0 ≤ r)); [done|lia].
Qed.

Lemma s_view_revoke l s : s_view (s_revoke l s) = revoked l (s_view s).
Proof.
  unfold s_revoke, revoked. case_decide; [done|]. unfold s_view. simpl. f_equal. set_solver.
Qed.

Lemma s_view_grant s : s_view (s_grant s) = granted (s_next s) (s_view s).
Proof. unfold s_view, granted. simpl. f_equal. set_solver. Qed.

Lemma answer_cases {A} (a : A) f s :
  let rest := mkServer (s_kvs s) (s_live s) (s_past s) (tail (s_faults s)) in
  answer a f s = (Ok a, f rest) ∨
  (s_faults s ≠ [] ∧ (answer a f s = (Err (), rest) ∨ head (s_faults s) = Some Late ∧ answer a f s = (Err (), f rest))).
Proof. unfold answer. destruct s as [k li pa [|[] fs]]; simpl; auto. Qed.

Lemma answer_up {A} (a : A) f s : s_faults s = [] → answer a f s = (Ok a, f s).
Proof. unfold answer. destruct s as [k li pa fs]. simpl. by intros ->. Qed.

#[export] Program Instance Server_ok clean : EtcdOk (Server clean) := {|
  view := s_view : Server clean → View;
  up := (λ s : ServerState, s_faults s = []) : Server clean → Prop
|}.
Next Obligation. simpl. set_solver. Qed.
Next Obligation.
  intros clean t s. cbn [Grant Server_client].
  destruct (answer_cases (s_next s) s_grant s) as [->|[_ [->|[_ ->]]]]; [|by left|right; exists (s_next s)].
  - split_and!; [apply s_next_positive|apply s_next_fresh|by rewrite s_view_grant].
  - split; [apply s_next_fresh|by rewrite s_view_grant].
Qed.
Next Obligation.
  intros clean l s. cbn [Revoke Server_client].
  destruct (answer_cases () (s_revoke l) s) as [->|[_ [->|[_ ->]]]]; rewrite ?s_view_revoke; auto.
Qed.
Next Obligation.
  intros clean l s. cbn [KeepAliveOnce Server_client].
  destruct (answer_cases () id s) as [->|[_ [->|[_ ->]]]]; by case_decide.
Qed.
Next Obligation.
  intros clean k value l s. cbn [Put Server_client]. case_decide; [|left; by destruct (answer_cases () id s) as [->|[_ [->|[_ ->]]]]].
  assert (Hput : match answer () (s_put k value l) s with
                 | (Ok _, s') => (l = 0 ∨ l ∈ s_live s) ∧ s_view s' = stored k value l (s_view s)
                 | (Err _, s') => s_view s' = s_view s ∨ s_view s' = stored k value l (s_view s)
                 end)
    by (destruct (answer_cases () (s_put k value l) s) as [->|[_ [->|[_ ->]]]]; auto).
  destruct (s_faults s) as [|[] fs]; try done. destruct clean; [|done].
  left. by destruct (answer_cases () id s) as [->|[_ [->|[_ ->]]]].
Qed.
Next Obligation.
  intros clean k s. cbn [DeleteKey Server_client].
  destruct (answer_cases () (s_remove k) s) as [->|[_ [->|[_ ->]]]]; auto.
Qed.
Next Obligation.
  intros clean p s. cbn [GetPrefix Server_client]. set (found := _ <$> _).
  destruct (answer_cases found id s) as [->|[_ [->|[_ ->]]]]; [|done..]. split; [done|].
  intros k value. unfold found. rewrite list_elem_of_fmap. split.
  - intros ([k' [v' L]] & [= -> ->] & [Hp Hin]%list_elem_of_filter). apply elem_of_map_to_list in Hin. eauto.
  - intros [[L HL] Hp]. exists (k, (value, L)). split; [done|]. apply list_elem_of_filter. split; [done|].
    by apply elem_of_map_to_list.
Qed.
Next Obligation. intros clean l s. apply s_view_revoke. Qed.
Next Obligation.
  intros clean t s Hs. cbn [Grant Server_client]. rewrite answer_up by done. split; [done|by eexists].
Qed.
Next Obligation.
  intros clean l s Hs. cbn [Revoke Server_client]. rewrite answer_up by done. simpl. unfold s_revoke. by case_decide.
Qed.
Next Obligation.
  intros clean l s Hs. cbn [KeepAliveOnce Server_client]. rewrite answer_up by done. by case_decide.
Qed.
Next Obligation.
  intros clean k value l s Hs. cbn [Put Server_client]. rewrite !answer_up, Hs by done.
  case_decide as Hl; [done|]. split; [done|]. intros ?. destruct Hl. by right.
Qed.
Next Obligation. intros clean p s Hs. cbn [GetPrefix Server_client]. rewrite answer_up by done. by eexists. Qed.

#[export] Instance Server_clean : PutsFailCleanly (Server true).
Proof.
  intros k value l s err. cbn [Put Server_client]. case_decide; [|by destruct (answer_cases () id s) as [->|[_ [->|[_ ->]]]]].
  destruct (s_faults s) as [|[] fs] eqn:Ef; simpl; unfold answer; rewrite ?Ef; by intros [=].
Qed.

(** ** Properties *)

Section Properties.
Context {E : Type} `{EtcdOk E} `{Json} `{RangeOrder}.

(** C10. A deregistered instance stays gone.  In any world the registry can be in,
    if no call or goroutine under way is past the point from which it puts the
    key, then after [Deregister] the instance is unregistered, and once the call
    has returned without error etcd no longer holds the key, whatever steps
    the goroutines still alive, the other calls, the server and the other clients
    take meanwhile and later, unless somebody puts the key again. *)
Theorem deregistered_stays_gone (w : World E) l inst w1 a evs w' rs :
  let key := instance_key w inst in
  reachable w → heap w !! l = Some inst → (∀ t, t ∈ threads w → ¬ may_put key t) →
  step (EDeregister l) w = Some (w1, a) →
  along step (no_new_put key) evs w1 → run evs w1 = Some (w', rs) →
  services (registry w') !! key = None ∧ (∀ t, t ∈ threads w' → ¬ may_put key t) ∧
  (Returned (length (threads w)) None ∈ rs → kvs (view (etcd w')) !! key = None).
Proof.
  intros key Hr%reachable_sane Hl Hp Hs Hal Hrun.
  destruct (Deregister_starts l inst w w1 a Hr Hl Hp Hs) as [Hu Hd].
  set (i := length (threads w)) in *.
  assert (Hinv : unregistered key w' ∧ ∃ t, threads w' !! i = Some t ∧ deregistering key t).
  { revert Hal Hrun. apply (run_steps_invariant step
      (λ w, unregistered key w ∧ ∃ t, threads w !! i = Some t ∧ deregistering key t)); [|done].
    intros v ev v' r [Hv Ht] Hn He. split; [by eapply step_unregistered|by eapply step_deregistering]. }
  destruct Hinv as [[Hn Hw'] _]. split; [done|]. split.
  { intros t [j Hj]%list_elem_of_lookup. by eapply Hw'. }
  intros Hret. assert (Hex : kvs (view (etcd w1)) !! key = None ∨ Exists (λ r, r = Returned i None) rs)
    by (right; apply Exists_exists; eauto).
  revert Hal Hrun Hex.
  apply (run_steps_after step (λ w, unregistered key w ∧ ∃ t, threads w !! i = Some t ∧ deregistering key t)
           (λ w, kvs (view (etcd w)) !! key = None) (no_new_put key) (λ r, r = Returned i None)); [|done].
  intros v ev v' r [Hv Ht] Hn' He. destruct (step_unregistered key ev v v' r Hn' He Hv) as [Hv' Hk].
  destruct (step_deregistering key i ev v v' r Ht He) as [Ht' Hk']. split; [done|]. tauto.
Qed.

(** C2. A registration is kept.  [Register] a service instance whose key nobody
    deals with yet.  Once the call has returned without error its goroutine never
    ends, whatever else happens in the process and in etcd, however often commands
    fail and leases run out, as long as the registry is not closed and nobody else
    registers, deregisters or writes the key; and whenever etcd answers, nine
    steps of the goroutine at most bring the key back, so that a query for the
    service lists the instance.  A [Put] that errs must not have been carried
    out. *)
Theorem registration_kept `{!PutsFailCleanly E} (w : World E) l inst value w1 a evs w' rs :
  let key := instance_key w inst in
  let i := length (threads w) in
  reachable w → closed (registry w) = false → heap w !! l = Some inst →
  Marshal inst = Some value → Unmarshal value = Some inst → (∀ t, t ∈ threads w → ¬ concerns key t) →
  step (ERegister l) w = Some (w1, a) →
  along step (leaves_alone key l) evs w1 → run evs w1 = Some (w', rs) → Returned i None ∈ rs →
  (∃ t, threads w' !! i = Some t ∧ goroutine t = true) ∧
  (up (etcd w') → ∃ n w2 rs2, (n ≤ 9)%nat ∧ run (repeat (EStep i) n) w' = Some (w2, rs2) ∧
     ∃ found, (GetInstances (Discovery.Name inst) w2).1 = Ok found ∧ inst ∈ found).
Proof.
  intros key i Hre%reachable_sane Hc Hl Hm Hu Ho Hs Hal Hrun Hret.
  destruct (Register_starts key value l inst w w1 a Hre Hc Hl Hm eq_refl Ho Hs) as [Hr1 Er1]. fold i in Hr1.
  assert (Hr : registration key value l i inst w' ∧ prefix (registry w') = prefix (registry w1)).
  { revert Hal Hrun. apply (run_steps_invariant step
      (λ v, registration key value l i inst v ∧ prefix (registry v) = prefix (registry w1)) (leaves_alone key l)); [|done].
    intros v ev v' r [Hv Hp] Hev He. split; [by eapply step_registration|]. rewrite <- Hp. by eapply step_prefix. }
  assert (Hg : goroutine_alive i w').
  { assert (Hex : goroutine_alive i w1 ∨ Exists (λ r, r = Returned i None) rs)
      by (right; apply Exists_exists; eauto).
    revert Hal Hrun Hex. apply (run_steps_after step (registration key value l i inst) (goroutine_alive i)
      (leaves_alone key l) (λ r, r = Returned i None)); [|done].
    intros v ev v' r Hv Hev He. by eapply step_registration. }
  destruct Hr as [Hr Hp]. split; [done|]. intros Hup.
  eapply (goroutine_lists key value l i inst (registry w)); try done. congruence.
Qed.

(** A watch delivers the latest.  Whatever the order of responses, steps of the
    watch goroutine and receives, the snapshots fetched so far are, in order, those
    that were received or dropped and then those waiting in the channel, so
    that a consumer that drains it ends with the newest one; the channel never
    overflows; and the goroutine never blocks on it. *)
Theorem watch_keeps_latest name s0 evs (x : Watcher) got :
  run_steps watch_io evs (mkWatcher name [s0] WWait) = Some (x, got) →
  (∃ gone, s0 :: omap response evs = gone ++ ch x ++ pending x ∧ omap id got `sublist_of` gone) ∧
  (length (ch x) ≤ ch_capacity)%nat ∧ (pending x ≠ [] → is_Some (watch_step WAdvance x)).
Proof.
  intros Hrun.
  assert (Hok0 : watch_ok (mkWatcher name [s0] WWait)) by (split; [unfold ch_capacity; simpl; lia|done]).
  destruct (watch_run evs _ x got Hok0 Hrun) as [Hok Hg].
  split_and!; [done|apply Hok|by apply watch_io_advances].
Qed.

End Properties.

(** ** Witnesses, and what goes wrong *)

Section Samples.
#[local] Existing Instances sample_json range_first_key_order.

(** Nine more snapshots than are received: the channel drops the oldest. *)
Lemma watch_keeps_latest_witness :
  let push (i : nat) := [WResponse (repeat sample_instance i); WAdvance] in
  let evs := mjoin (push <$> seq 2 8) ++ [WAdvance; WAdvance; WReceive] in
  ∃ x got, run_steps watch_io evs (mkWatcher "users" [[sample_instance]] WWait) = Some (x, got) ∧
    length <$> ch x = seq 3 7 ∧ length <$> omap id got = [2]%nat ∧
    ∃ gone, [sample_instance] :: omap response evs = gone ++ ch x ++ pending x ∧ omap id got `sublist_of` gone.
Proof.
  intros push evs. eexists _, _. split; [vm_compute; reflexivity|]. split; [done|]. split; [done|].
  eapply (watch_keeps_latest "users" [sample_instance] evs). vm_compute. reflexivity.
Defined.

Lemma deregistered_stays_gone_witness :
  let w := after (register 0 0) (sample_world false []) in
  ∃ w1 a w' rs, step (EDeregister 0) w = Some (w1, a) ∧
    run [EStep 1; EStep 1; EStep 0; EStep 0] w1 = Some (w', rs) ∧ kvs (view (etcd w')) !! users_key = None.
Proof.
  intros w. eexists _, _, _, _. split; [vm_compute; reflexivity|]. split; [vm_compute; reflexivity|].
  eapply (deregistered_stays_gone w 0 sample_instance _ _ [EStep 1; EStep 1; EStep 0; EStep 0]).
  - exists (empty_server false []), [sample_instance; nested_instance], "/services/", 30, (register 0 0).
    eexists. vm_compute. reflexivity.
  - done.
  - apply Forall_forall. vm_compute. repeat constructor; by intros [].
  - vm_compute. reflexivity.
  - vm_compute. tauto.
  - vm_compute. reflexivity.
  - vm_compute. set_solver.
Defined.


(** The lease runs out and two commands fail, and the goroutine registers anew. *)
Lemma registration_kept_witness :
  let w := sample_world true [] in
  ∃ w1 a w' rs, step (ERegister 0) w = Some (w1, a) ∧
    run [EStep 0; EStep 0; EStep 0; EExpire 1; EStep 0; EStep 0] w1 = Some (w', rs) ∧
    ∃ n w2 rs2, (n ≤ 9)%nat ∧ run (repeat (EStep 0) n) w' = Some (w2, rs2) ∧
      ∃ found, (GetInstances "users" w2).1 = Ok found ∧ sample_instance ∈ found.
Proof.
  intros w. eexists _, _, _, _. split; [vm_compute; reflexivity|]. split; [vm_compute; reflexivity|].
  eapply (registration_kept w 0 sample_instance "10.0.0.1" _ _
    [EStep 0; EStep 0; EStep 0; EExpire 1; EStep 0; EStep 0]); [|done..| | | | | |].
  - exists (empty_server true []), [sample_instance; nested_instance], "/services/", 30, [], []. reflexivity.
  - by intros t ?%elem_of_nil.
  - vm_compute. reflexivity.
  - vm_compute. tauto.
  - vm_compute. reflexivity.
  - vm_compute. set_solver.
  - vm_compute. reflexivity.
Defined.

(** A goroutine that looked the instance up just before [Deregister] puts the key
    back after it, and keeps it alive from then on. *)
Lemma deregister_loses_race :
  ∃ w w' rs, run (register 0 0 ++ [EExpire 1; EStep 0; EStep 0; EDeregister 0; EStep 1; EStep 1]) (sample_world true [])
      = Some (w, rs) ∧ Returned 1 None ∈ rs ∧ stored_at w = None ∧
    run [EStep 0; EStep 0; EStep 0] w = Some (w', [Pending; Pending; Pending]) ∧
    stored_at w' = Some ("10.0.0.1", 2) ∧ step (EStep 0) w' = Some (w', Pending).
Proof.
  eexists _, _, _. split; [vm_compute; reflexivity|]. split; [vm_compute; set_solver|].
  split; [by vm_compute|]. split; [vm_compute; reflexivity|]. by split; vm_compute.
Qed.

(** A keep-alive fails, the put that follows is carried out but its answer is
    lost: revoking its lease deletes the key, while the old lease lives on and
    every later tick finds it well. *)
Lemma lost_answer_loses_key :
  ∃ w rs, run (register 0 0 ++ repeat (EStep 0) 5) (sample_world false [Fine; Fine; Lost; Fine; Late])
      = Some (w, rs) ∧ Returned 0 None ∈ rs ∧ stored_at w = None ∧ step (EStep 0) w = Some (w, Pending).
Proof.
  eexists _, _. split; [vm_compute; reflexivity|]. split; [vm_compute; set_solver|]. by split; vm_compute.
Qed.

(** Registering twice starts a second goroutine, and [Deregister] ends one of
    them only: the other keeps its lease for ever. *)
Lemma registered_twice_leaks :
  ∃ w rs, run (register 0 0 ++ register 0 1 ++ [EDeregister 0; EStep 2; EStep 2]) (sample_world true []) = Some (w, rs) ∧
    stored_at w = None ∧ threads w !! 0%nat = Some (KWait users_key 1) ∧ 1 ∈ s_live (etcd w) ∧
    step (EStep 0) w = Some (w, Pending).
Proof.
  eexists _, _. split; [vm_compute; reflexivity|]. split; [by vm_compute|]. split; [done|].
  split; [by apply (bool_decide_unpack _); vm_compute|by vm_compute].
Qed.

(** A service whose name extends another's by a slash is listed as the other. *)
Lemma nested_name_listed :
  ∃ w rs, run (register 1 0) (sample_world true []) = Some (w, rs) ∧
    (GetInstances "users" w).1 = Ok [nested_instance].
Proof. eexists _, _. split; [vm_compute; reflexivity|by vm_compute]. Qed.

End Samples.

End Etcd.
