(* ===== verification/LoadBalance.v ===== *)
(** * Load balancers (src/loadbalance/loadbalance.go)

    Each balancer is a state record with a [Select] that returns the chosen
    instance and the new state; the interface [LoadBalancer] and its laws
    [LoadBalancerOk] are what the discovery client at the end relies on.
    [sort.Slice] is not stable, so the ring's sort is any function satisfying
    its contract ([SortSlice]); [sort.Search] is the library's binary search. *)

From stdpp Require Import pretty.
From S2P Require Import Prelude Discovery.
Import Discovery.

Module LoadBalance.

(** The interface: [None] is a run-time panic. *)
Class LoadBalancer (St : Type) := {
  lb_inv : St → Prop;
  Select : list ServiceInstance → St → option (res Discovery.Error ServiceInstance * St);
  lb_Name : string
}.

Class LoadBalancerOk (St : Type) `{LoadBalancer St} : Prop := {
  Select_empty s : Select [] s = Some (Err ErrNoInstance, s);
  Select_member l s : l ≠ [] → lb_inv s →
    ∃ i s', Select l s = Some (Ok i, s') ∧ i ∈ l ∧ lb_inv s'
}.

(** [n] successive selections over a fixed list: the picks and the last state. *)
Fixpoint lb_run `{LoadBalancer St} (n : nat) (l : list ServiceInstance) (s : St)
    : option (list ServiceInstance * St) :=
  match n with
  | O => Some ([], s)
  | S n =>
      match Select l s with
      | Some (Ok i, s') => '(picks, s'') ← lb_run n l s'; Some (i :: picks, s'')
      | _ => None
      end
  end.

(** ** Round robin *)

Record RoundRobin := mkRR { rr_counter : Z }.

Definition NewRoundRobin : RoundRobin := mkRR 0.

Definition rr_Select (l : list ServiceInstance) (lb : RoundRobin)
    : option (res Discovery.Error ServiceInstance * RoundRobin) :=
  match l with
  | [] => Some (Err ErrNoInstance, lb)
  | _ =>
      let c := u64 (rr_counter lb + 1) in
      let idx := u64 (c - 1) in
      i ← l !! Z.to_nat (idx `mod` Z.of_nat (length l)); Some (Ok i, mkRR c)
  end.

#[export] Instance RoundRobin_lb : LoadBalancer RoundRobin := {
  lb_inv lb := 0 ≤ rr_counter lb < 2 ^ 64;
  Select := rr_Select;
  lb_Name := "round-robin"
}.

(** ** Smooth weighted round robin *)

Record WeightedRoundRobin := mkWRR { wrr_state : gmap string Z }.

Definition NewWeightedRoundRobin : WeightedRoundRobin := mkWRR ∅.

(** A non-positive weight counts as one. *)
Definition eff_weight (i : ServiceInstance) : Z :=
  if Weight i <=? 0 then 1 else Weight i.

(** Drop the state of instances that are gone. *)
Definition wrr_cleanup (l : list ServiceInstance) (st : gmap string Z) : gmap string Z :=
  filter (λ kv, kv.1 ∈ ID <$> l) st.

(** The selection loop: state, selected instance, [maxCurrent], [totalWeight]. *)
Fixpoint wrr_scan (l : list ServiceInstance) (st : gmap string Z)
    (selected : option ServiceInstance) (maxCurrent totalWeight : Z)
    : gmap string Z * option ServiceInstance * Z * Z :=
  match l with
  | [] => (st, selected, maxCurrent, totalWeight)
  | inst :: l =>
      let w := eff_weight inst in
      let totalWeight := i64 (totalWeight + w) in
      let cur := i64 (default 0 (st !! ID inst) + w) in
      let st := <[ID inst := cur]> st in
      if match selected with None => true | Some _ => false end || (maxCurrent <? cur)
      then wrr_scan l st (Some inst) cur totalWeight
      else wrr_scan l st selected maxCurrent totalWeight
  end.

Definition wrr_Select (l : list ServiceInstance) (lb : WeightedRoundRobin)
    : option (res Discovery.Error ServiceInstance * WeightedRoundRobin) :=
  match l with
  | [] => Some (Err ErrNoInstance, lb)
  | first :: _ =>
      let st := wrr_cleanup l (wrr_state lb) in
      let '(st, selected, _, totalWeight) := wrr_scan l st None 0 0 in
      match selected with
      | None => Some (Ok first, mkWRR st)
      | Some s =>
          Some (Ok s, mkWRR (<[ID s := i64 (default 0 (st !! ID s) - totalWeight)]> st))
      end
  end.

#[export] Instance WeightedRoundRobin_lb : LoadBalancer WeightedRoundRobin := {
  lb_inv _ := True;
  Select := wrr_Select;
  lb_Name := "weighted-round-robin"
}.

(** ** Random: the generator of math/rand, whose [Intn n] is a number below [n] *)

Class Rand (G : Type) := {
  Intn : Z → G → Z * G;
  Intn_below n g : 0 < n → 0 ≤ (Intn n g).1 < n
}.

Record Random (G : Type) := mkRandom { rand : G }.
Arguments mkRandom {G}. Arguments rand {G}.

(** From a generator seeded with the time. *)
Definition NewRandom {G} (seeded : G) : Random G := mkRandom seeded.

Definition random_Select `{Rand G} (l : list ServiceInstance) (lb : Random G)
    : option (res Discovery.Error ServiceInstance * Random G) :=
  match l with
  | [] => Some (Err ErrNoInstance, lb)
  | _ =>
      let '(idx, g) := Intn (Z.of_nat (length l)) (rand lb) in
      i ← l !! Z.to_nat idx; Some (Ok i, mkRandom g)
  end.

#[export] Instance Random_lb `{Rand G} : LoadBalancer (Random G) := {
  lb_inv _ := True;
  Select := random_Select;
  lb_Name := "random"
}.

(** ** Least connections *)

Record LeastConnections := mkLC { connections : gmap string Z }.

Definition NewLeastConnections : LeastConnections := mkLC ∅.

Definition conns (m : gmap string Z) (i : ServiceInstance) : Z := default 0 (m !! ID i).

Fixpoint lc_scan (l : list ServiceInstance) (m : gmap string Z)
    (selected : option ServiceInstance) (minConns : Z) : option ServiceInstance :=
  match l with
  | [] => selected
  | inst :: l =>
      let c := conns m inst in
      if (minConns =? -1) || (c <? minConns) then lc_scan l m (Some inst) c
      else lc_scan l m selected minConns
  end.

(** The code returns [selected] even when it is nil, with a nil error: a nil
    pointer result, here [None], which the laws below exclude. *)
Definition lc_Select (l : list ServiceInstance) (lb : LeastConnections)
    : option (res Discovery.Error ServiceInstance * LeastConnections) :=
  match l with
  | [] => Some (Err ErrNoInstance, lb)
  | _ =>
      s ← lc_scan l (connections lb) None (-1);
      Some (Ok s, mkLC (<[ID s := i64 (conns (connections lb) s + 1)]> (connections lb)))
  end.

Definition lc_Release (i : ServiceInstance) (lb : LeastConnections) : LeastConnections :=
  if 0 <? conns (connections lb) i
  then mkLC (<[ID i := i64 (conns (connections lb) i - 1)]> (connections lb))
  else lb.

Definition lc_nonneg (lb : LeastConnections) : Prop :=
  ∀ id c, connections lb !! id = Some c → 0 ≤ c.

#[export] Instance LeastConnections_lb : LoadBalancer LeastConnections := {
  lb_inv _ := True;
  Select := lc_Select;
  lb_Name := "least-connections"
}.

(** ** Consistent hashing *)

(** The contract of [sort.Slice] with the comparison of the ring. *)
Class SortSlice := {
  sort_slice : list (Z * ServiceInstance) → list (Z * ServiceInstance);
  sort_slice_perm l : sort_slice l ≡ₚ l;
  sort_slice_sorted l : StronglySorted (λ a b, a.1 ≤ b.1) (sort_slice l)
}.

(** [sort.Search n f]: the library's binary search, [fuel] bounding its loop. *)
Fixpoint search_loop (fuel : nat) (f : Z → bool) (i j : Z) : option Z :=
  if i <? j then
    match fuel with
    | O => None
    | S fuel =>
        let h := Z.shiftr (i + j) 1 in
        if f h then search_loop fuel f i h else search_loop fuel f (h + 1) j
    end
  else Some i.

Definition sort_Search (n : Z) (f : Z → bool) : option Z :=
  search_loop (Z.to_nat n) f 0 n.

Record ConsistentHash := mkCH {
  virtualNodes : Z;
  hashFunc : string → Z;
  ch_counter : Z
}.

(** FNV-1a, 32 bits. *)
Definition defaultHashFunc (key : string) : Z :=
  foldl (λ h c, u32 (Z.lxor h (Z.of_nat (nat_of_ascii c)) * 16777619)) 2166136261
    (String.list_ascii_of_string key).

Definition NewConsistentHash (vns : list Z) : ConsistentHash :=
  let vn := match vns with v :: _ => if 0 <? v then v else 150 | [] => 150 end in
  mkCH vn defaultHashFunc 0.

Definition virtualKey (inst : ServiceInstance) (i : Z) : string :=
  (ID inst +:+ "#" +:+ pretty i)%string.

Definition build_ring (lb : ConsistentHash) (l : list ServiceInstance)
    : list (Z * ServiceInstance) :=
  l ≫= λ inst, (λ i, (hashFunc lb (virtualKey inst i), inst)) <$> seqZ 0 (virtualNodes lb).

Definition hash_at (ring : list (Z * ServiceInstance)) (i : Z) : Z :=
  default 0 (fst <$> ring !! Z.to_nat i).

Definition SelectByKey `{SortSlice} (lb : ConsistentHash) (l : list ServiceInstance)
    (key : string) : option (res Discovery.Error ServiceInstance) :=
  match l with
  | [] => Some (Err ErrNoInstance)
  | _ =>
      let ring := sort_slice (build_ring lb l) in
      let keyHash := hashFunc lb key in
      let n := Z.of_nat (length ring) in
      idx ← sort_Search n (λ i, keyHash <=? hash_at ring i);
      let idx := if idx =? n then 0 else idx in
      e ← ring !! Z.to_nat idx; Some (Ok e.2)
  end.

Definition ch_Select `{SortSlice} (l : list ServiceInstance) (lb : ConsistentHash)
    : option (res Discovery.Error ServiceInstance * ConsistentHash) :=
  match l with
  | [] => Some (Err ErrNoInstance, lb)
  | _ =>
      let idx := u64 (ch_counter lb + 1) in
      r ← SelectByKey lb l ("req#" +:+ pretty idx)%string;
      Some (r, mkCH (virtualNodes lb) (hashFunc lb) idx)
  end.

#[export] Instance ConsistentHash_lb `{SortSlice} : LoadBalancer ConsistentHash := {
  lb_inv lb := 0 < virtualNodes lb;
  Select := ch_Select;
  lb_Name := "consistent-hash"
}.

(** ** The package's default *)

(** A balancer of any kind, as a variable of the interface's type holds it. *)
Record AnyBalancer := mkAny { any_state : Type; any_lb : LoadBalancer any_state; any_value : any_state }.
Arguments mkAny {any_state any_lb}.

Definition any_Select (l : list ServiceInstance) (a : AnyBalancer) : option (res Discovery.Error ServiceInstance * AnyBalancer) :=
  '(r, s) ← Select (LoadBalancer := any_lb a) l (any_value a); Some (r, mkAny (any_lb := any_lb a) s).

Definition any_Name (a : AnyBalancer) : string := lb_Name (LoadBalancer := any_lb a).

(** [None] is nil. *)
Definition SetDefault (lb : option AnyBalancer) (_ : option AnyBalancer) : option AnyBalancer := lb.

(** Without one, a round robin is made and kept. *)
Definition Default (d : option AnyBalancer) : AnyBalancer * option AnyBalancer :=
  match d with Some a => (a, d) | None => let a := mkAny NewRoundRobin in (a, Some a) end.

Definition Select_default (l : list ServiceInstance) (d : option AnyBalancer)
    : option (res Discovery.Error ServiceInstance * option AnyBalancer) :=
  let '(a, d) := Default d in
  '(r, a) ← any_Select l a; Some (r, Some a).

Fixpoint default_run (n : nat) (l : list ServiceInstance) (d : option AnyBalancer) : option (list ServiceInstance) :=
  match n with
  | O => Some []
  | S n => match Select_default l d with Some (Ok i, d) => cons i <$> default_run n l d | _ => None end
  end.

(** ** Specifications *)

(** A balancer that is as the interface promises. *)
Definition promises (a : AnyBalancer) : Prop :=
  @LoadBalancerOk (any_state a) (any_lb a) ∧ @lb_inv (any_state a) (any_lb a) (any_value a).

(** Total effective weight. *)
Definition total_weight (l : list ServiceInstance) : Z := sumZ eff_weight l.

(** How often instance [i] occurs among the picks. *)
Definition picked (i : ServiceInstance) (picks : list ServiceInstance) : Z :=
  countb (λ p, bool_decide (ID p = ID i)) picks.

(** What the loop establishes: every weight is added once, other entries keep
    their value, and the selection is the maximum of what was seen. *)
Definition scan_post (l : list ServiceInstance) (st : gmap string Z)
    (sel : option ServiceInstance) (mx : Z)
    (st' : gmap string Z) (sel' : option ServiceInstance) (mx' : Z) : Prop :=
  (∀ i, i ∈ l → default 0 (st' !! ID i) = default 0 (st !! ID i) + eff_weight i) ∧
  (∀ id, id ∉ ID <$> l → st' !! id = st !! id) ∧
  (∀ i, i ∈ l → default 0 (st' !! ID i) ≤ mx') ∧
  (sel = None ∨ mx ≤ mx') ∧
  match sel' with
  | None => l = [] ∧ sel = None
  | Some s => (s ∈ l ∧ mx' = default 0 (st' !! ID s)) ∨ (sel = Some s ∧ mx' = mx)
  end.

(** The ledger of the smooth weighted round robin: after [t] selections each current weight is [t * w_i - W * n_i], where
    [n_i] counts the picks of [i]; it never falls to [- W] or below. *)
Definition wrr_ledger (l : list ServiceInstance) (picks : list ServiceInstance)
    (lb : WeightedRoundRobin) : Prop :=
  (∀ p, p ∈ picks → p ∈ l) ∧
  ∀ i, i ∈ l →
    default 0 (wrr_state lb !! ID i) =
      Z.of_nat (length picks) * eff_weight i - total_weight l * picked i picks ∧
    - total_weight l < default 0 (wrr_state lb !! ID i).

(** The ring entry that owns a hash: the first one clockwise from [k]. *)
Definition clockwise (k : Z) (ring : list (Z * ServiceInstance)) (e : Z * ServiceInstance) : Prop :=
  e ∈ ring ∧
  ((k ≤ e.1 ∧ ∀ e', e' ∈ ring → k ≤ e'.1 → e.1 ≤ e'.1) ∨
   ((∀ e', e' ∈ ring → e'.1 < k) ∧ ∀ e', e' ∈ ring → e.1 ≤ e'.1)).

(** A query followed by a selection, as the client calls them. *)
Definition discover_and_select `{RangeOrder} `{LoadBalancer St}
    (now : Time) (r : MemoryRegistry) (h : gmap nat ServiceInstance) (name : string) (s : St)
    : option (res Discovery.Error ServiceInstance * St) :=
  match GetInstances now r h name with
  | Err e => Some (Err e, s)
  | Ok l => Select l s
  end.

(** An insertion sort meets the contract of [sort.Slice]. *)
Definition ring_le (a b : Z * ServiceInstance) : Prop := a.1 ≤ b.1.

#[export] Instance ring_le_dec : RelDecision ring_le := λ a b, Z_le_dec a.1 b.1.

#[export] Instance ring_le_total : Total ring_le.
Proof. intros a b. unfold ring_le. lia. Qed.

#[export] Instance ring_le_trans : Transitive ring_le.
Proof. intros a b c. unfold ring_le. lia. Qed.

Definition merge_sort_slice : SortSlice :=
  Build_SortSlice (merge_sort ring_le) (merge_sort_Permutation ring_le)
    (StronglySorted_merge_sort ring_le).

(** Three instances of different weights, for evaluations. *)
Definition sample (id : string) (w : Z) : ServiceInstance :=
  mkInstance id "users" "10.0.0.1" 8080 ∅ "v1" true w 0.

Definition sample_pool : list ServiceInstance := [sample "a" 5; sample "b" 1; sample "c" 0].

(** ** Round robin *)

Lemma rr_Select_at l lb :
  l ≠ [] → 0 ≤ rr_counter lb < 2 ^ 64 →
  ∃ i, l !! Z.to_nat (rr_counter lb `mod` Z.of_nat (length l)) = Some i ∧
       rr_Select l lb = Some (Ok i, mkRR (u64 (rr_counter lb + 1))).
Proof.
  intros Hl Hc. assert (0 < Z.of_nat (length l)) as Hpos by (destruct l; simpl; [done|lia]).
  pose proof (Z.mod_pos_bound (rr_counter lb) (Z.of_nat (length l)) Hpos).
  destruct (lookup_lt_is_Some_2 l (Z.to_nat (rr_counter lb `mod` Z.of_nat (length l)))) as [i Hi];
    [lia|].
  exists i. split; [done|]. unfold rr_Select. destruct l as [|x l]; [done|].
  assert (u64 (u64 (rr_counter lb + 1) - 1) = rr_counter lb) as ->.
  { unfold u64. rewrite Zminus_mod_idemp_l. rewrite Z.mod_small; lia. }
  by rewrite Hi.
Qed.

#[export] Instance RoundRobin_ok : LoadBalancerOk RoundRobin.
Proof.
  split; [done|]. intros l s Hl Hs. destruct (rr_Select_at l s Hl Hs) as (i & Hi & HS).
  exists i, (mkRR (u64 (rr_counter s + 1))). split; [done|]. split; [by eapply list_elem_of_lookup_2|].
  apply Z.mod_pos_bound. lia.
Qed.

(** [n] selections from counter [c] read the positions [c, c+1, ...] modulo the length. *)
Lemma rr_run_lookup n l c :
  l ≠ [] → 0 ≤ c → c + Z.of_nat n < 2 ^ 64 →
  ∃ picks, lb_run n l (mkRR c) = Some (picks, mkRR (c + Z.of_nat n)) ∧ length picks = n ∧
    ∀ j, (j < n)%nat → picks !! j = l !! Z.to_nat ((c + Z.of_nat j) `mod` Z.of_nat (length l)).
Proof.
  intros Hl. revert c. induction n as [|n IH]; intros c Hc Hn; simpl.
  { exists []. split; [|split]; [by rewrite Z.add_0_r|done|lia]. }
  destruct (rr_Select_at l (mkRR c) Hl) as (i & Hi & HS); [simpl; lia|]. simpl in *. rewrite HS.
  rewrite u64_id by lia. destruct (IH (c + 1)) as (picks & -> & Hlen & Hp); [lia..|]. simpl.
  exists (i :: picks). split; [do 3 f_equal; lia|]. split; [simpl; lia|].
  intros [|j] Hj; simpl; [by rewrite Z.add_0_r, Hi|]. rewrite Hp by lia. do 3 f_equal. lia.
Qed.

Lemma mod_rotate c n j :
  0 < n → 0 ≤ j < n → (c + j) `mod` n = (c `mod` n + j) `mod` n.
Proof. intros. by rewrite Zplus_mod_idemp_l. Qed.

(** One full turn is a rotation of the pool. *)
Lemma rr_turn l c :
  l ≠ [] → 0 ≤ c → c + Z.of_nat (length l) < 2 ^ 64 →
  let k := Z.to_nat (c `mod` Z.of_nat (length l)) in
  lb_run (length l) l (mkRR c) =
    Some (drop k l ++ take k l, mkRR (c + Z.of_nat (length l))).
Proof.
  intros Hl Hc Hn k. destruct (rr_run_lookup (length l) l c Hl Hc Hn) as (picks & -> & Hlen & Hp).
  do 2 f_equal. apply list_eq. intros j.
  assert (0 < Z.of_nat (length l)) as Hpos by (destruct l; simpl; [done|lia]).
  pose proof (Z.mod_pos_bound c (Z.of_nat (length l)) Hpos) as Hk.
  destruct (decide (j < length l)%nat) as [Hj|Hj].
  2:{ rewrite !lookup_ge_None_2; [done| |lia]. rewrite length_app, length_drop, length_take. lia. }
  rewrite Hp, mod_rotate by lia. subst k.
  set (m := c `mod` Z.of_nat (length l)) in *.
  destruct (decide (m + Z.of_nat j < Z.of_nat (length l))) as [Hlt|Hge].
  - rewrite Z.mod_small by lia. rewrite lookup_app_l by (rewrite length_drop; lia).
    rewrite lookup_drop. f_equal. lia.
  - rewrite lookup_app_r by (rewrite length_drop; lia). rewrite length_drop.
    rewrite lookup_take_lt by lia. f_equal.
    rewrite <- (Z.mod_unique_pos _ _ 1 (m + Z.of_nat j - Z.of_nat (length l))) by lia. lia.
Qed.

(** ** Smooth weighted round robin *)

Lemma eff_weight_pos i : 1 ≤ eff_weight i.
Proof. unfold eff_weight. case_match; lia. Qed.

Lemma sum_weight_nonneg l : 0 ≤ sumZ eff_weight l.
Proof. induction l as [|i l IH]; simpl; [done|]. pose proof (eff_weight_pos i). lia. Qed.

Lemma total_weight_pos l : l ≠ [] → 0 < total_weight l.
Proof.
  intros Hl. destruct l as [|i l]; [done|]. unfold total_weight. simpl.
  pose proof (eff_weight_pos i). pose proof (sum_weight_nonneg l). lia.
Qed.

(** One iteration of the loop extends [scan_post] by the head of the list. *)
Lemma scan_post_cons x l st sel mx sel0 mx0 cur st' sel' mx' :
  NoDup (ID <$> (x :: l)) → cur = default 0 (st !! ID x) + eff_weight x →
  (sel0 = sel ∧ mx0 = mx ∧ sel ≠ None ∧ cur ≤ mx) ∨
    (sel0 = Some x ∧ mx0 = cur ∧ (sel = None ∨ mx < cur)) →
  scan_post l (<[ID x:=cur]> st) sel0 mx0 st' sel' mx' →
  scan_post (x :: l) st sel mx st' sel' mx'.
Proof.
  intros [Hx Hnd]%NoDup_cons Hcur Hcase (Hadd & Hout & Hmax & Hmono & Hsel).
  assert (∀ i, i ∈ l → ID x ≠ ID i) as Hne.
  { intros i Hi E. apply Hx. rewrite E. apply list_elem_of_fmap. eauto. }
  assert (st' !! ID x = Some cur) as Hcx by (rewrite Hout by done; apply lookup_insert_eq).
  split_and!.
  - intros i [->|Hi]%elem_of_cons; [by rewrite Hcx|].
    rewrite Hadd by done. by rewrite lookup_insert_ne by auto.
  - intros id Hid. rewrite fmap_cons, not_elem_of_cons in Hid.
    rewrite Hout by naive_solver. by rewrite lookup_insert_ne by naive_solver.
  - intros i [->|Hi]%elem_of_cons; [|auto]. rewrite Hcx. simpl.
    destruct Hcase as [(-> & -> & ? & ?)|(-> & -> & ?)]; destruct Hmono; try done; lia.
  - destruct Hcase as [(-> & -> & ? & ?)|(-> & -> & [?|?])]; destruct Hmono; try done; auto with lia.
  - destruct sel' as [s|].
    + destruct Hsel as [[? ?]|[? ?]]; [left; set_solver|].
      destruct Hcase as [(-> & -> & ? & ?)|(-> & -> & ?)]; [auto|].
      simplify_eq. left. split; [set_solver|]. by rewrite Hcx.
    + destruct Hsel as [_ ?]. destruct Hcase as [(-> & -> & ? & ?)|(-> & -> & ?)]; done.
Qed.

Lemma wrr_scan_spec B l st sel mx tot :
  NoDup (ID <$> l) → 0 ≤ B → 0 ≤ tot →
  (∀ i, i ∈ l → - B ≤ default 0 (st !! ID i) ≤ B) →
  B + total_weight l < 2 ^ 63 → tot + total_weight l < 2 ^ 63 →
  ∃ st' sel' mx', wrr_scan l st sel mx tot = (st', sel', mx', tot + total_weight l) ∧
    scan_post l st sel mx st' sel' mx'.
Proof.
  intros Hnd HB0 Ht Hst HB Hov. revert st sel mx tot Ht Hst Hov HB.
  induction l as [|x l IH]; intros st sel mx tot Ht Hst Hov HB.
  { exists st, sel, mx. simpl. rewrite Z.add_0_r. split; [done|].
    split; [set_solver|]. split; [set_solver|]. split; [set_solver|].
    destruct sel; auto with lia. }
  pose proof Hnd as [Hx Hnd']%NoDup_cons. unfold total_weight in *. cbn [sumZ wrr_scan] in *.
  pose proof (eff_weight_pos x) as Hw. pose proof (sum_weight_nonneg l) as Hsum.
  assert (Hbx := Hst x (list_elem_of_here _ _)).
  rewrite (i64_id (tot + _)), (i64_id (default 0 (st !! ID x) + _)) by word.
  set (cur := default 0 (st !! ID x) + eff_weight x). cbv zeta.
  assert (∀ i, i ∈ l → - B ≤ default 0 (<[ID x:=cur]> st !! ID i) ≤ B) as Hst'.
  { intros i Hi. rewrite lookup_insert_ne; [apply Hst; set_solver|].
    intros E. apply Hx. rewrite E. apply list_elem_of_fmap. eauto. }
  rewrite Z.add_assoc in Hov |- *.
  destruct (match sel with None => true | Some _ => false end || (mx <? cur)) eqn:E.
  - destruct (IH Hnd' (<[ID x:=cur]> st) (Some x) cur (tot + eff_weight x))
      as (st' & sel' & mx' & -> & Hpost); [lia|done|lia|lia|].
    exists st', sel', mx'. split; [done|]. eapply scan_post_cons; [done..| |done].
    right. destruct sel; auto with lia.
  - destruct (IH Hnd' (<[ID x:=cur]> st) sel mx (tot + eff_weight x))
      as (st' & sel' & mx' & -> & Hpost); [lia|done|lia|lia|].
    exists st', sel', mx'. split; [done|]. eapply scan_post_cons; [done..| |done].
    left. destruct sel; [|done]. split_and!; [done..|simpl in E; lia].
Qed.

(** ** Counting picks *)

Lemma picked_snoc i picks s :
  picked i (picks ++ [s]) = picked i picks + (if bool_decide (ID s = ID i) then 1 else 0).
Proof. unfold picked. rewrite countb_app. unfold countb. simpl. lia. Qed.

Lemma sum_indicator l s :
  NoDup (ID <$> l) → s ∈ l →
  sumZ (λ i, if bool_decide (ID s = ID i) then 1 else 0) l = 1.
Proof.
  induction l as [|x l IH]; intros Hnd Hin; [set_solver|].
  apply NoDup_cons in Hnd as [Hx Hnd]. simpl. apply elem_of_cons in Hin as [->|Hin].
  - rewrite bool_decide_eq_true_2 by done.
    rewrite (sumZ_ext _ (λ _, 0)); [|intros a Ha; rewrite bool_decide_eq_false_2; [done|]].
    + clear. assert (sumZ (λ _ : ServiceInstance, 0) l = 0) by (induction l; simpl; lia). lia.
    + intros E. apply Hx. rewrite E. apply list_elem_of_fmap. eauto.
  - rewrite bool_decide_eq_false_2, IH by
      (done || (intros E; apply Hx; rewrite <- E; apply list_elem_of_fmap; eauto)). done.
Qed.

(** Every pick is a pick of some instance of the pool. *)
Lemma sum_picked l picks :
  NoDup (ID <$> l) → (∀ p, p ∈ picks → p ∈ l) →
  sumZ (λ i, picked i picks) l = Z.of_nat (length picks).
Proof.
  intros Hnd. induction picks as [|s picks IH]; intros Hp.
  - clear. induction l; simpl; [done|]. unfold picked, countb in *. simpl in *. lia.
  - change (sumZ (λ i, (if bool_decide (ID s = ID i) then 1 else 0) + picked i picks) l =
            Z.of_nat (S (length picks))).
    rewrite sumZ_add, sum_indicator, IH by set_solver. lia.
Qed.

(** A member of a sum bounded below by the other members is bounded above. *)
Lemma sumZ_member_upper {A} (f : A → Z) B l a :
  0 ≤ B → (∀ x, x ∈ l → - B ≤ f x) → a ∈ l →
  f a ≤ sumZ f l + B * (Z.of_nat (length l) - 1).
Proof.
  intros HB. induction l as [|x l IH]; intros Hlo Hin; [set_solver|]. simpl.
  assert (- (B * Z.of_nat (length l)) ≤ sumZ f l) as Hs.
  { clear IH Hin. revert Hlo. induction l as [|y l IH]; intros Hlo; simpl; [lia|].
    assert (- B ≤ f y) by (apply Hlo; set_solver).
    assert (- (B * Z.of_nat (length l)) ≤ sumZ f l) by (apply IH; set_solver). lia. }
  apply elem_of_cons in Hin as [->|Hin]; [lia|].
  assert (- B ≤ f x) by (apply Hlo; set_solver).
  assert (f a ≤ sumZ f l + B * (Z.of_nat (length l) - 1)) by (apply IH; set_solver). lia.
Qed.

(** Some member reaches the average, so a positive sum has a positive member. *)
Lemma sumZ_pos_member {A} (f : A → Z) l : 0 < sumZ f l → ∃ a, a ∈ l ∧ 0 < f a.
Proof.
  induction l as [|x l IH]; simpl; intros H; [lia|].
  destruct (decide (0 < f x)); [exists x; set_solver|].
  destruct IH as (a & ? & ?); [lia|]. exists a. set_solver.
Qed.

Lemma equal_sums_pointwise {A} (f g : A → Z) l :
  (∀ a, a ∈ l → f a ≤ g a) → sumZ f l = sumZ g l → ∀ a, a ∈ l → f a = g a.
Proof.
  induction l as [|x l IH]; intros Hle Heq a Hin; [set_solver|]. simpl in Heq.
  assert (f x ≤ g x) by (apply Hle; set_solver).
  assert (sumZ f l ≤ sumZ g l) by (apply sumZ_le; set_solver).
  apply elem_of_cons in Hin as [->|Hin]; [lia|]. apply IH; [set_solver|lia|done].
Qed.

(** ** The ledger *)

Lemma wrr_ledger_sum l picks lb :
  NoDup (ID <$> l) → wrr_ledger l picks lb →
  sumZ (λ i, default 0 (wrr_state lb !! ID i)) l = 0.
Proof.
  intros Hnd [Hp Hled].
  rewrite (sumZ_ext _ (λ i, Z.of_nat (length picks) * eff_weight i +
                            (- total_weight l) * picked i picks)).
  - rewrite sumZ_add, !sumZ_mul, sum_picked by done. unfold total_weight. lia.
  - intros i Hi. destruct (Hled i Hi) as [-> _]. lia.
Qed.

Lemma wrr_ledger_bound l picks lb i :
  NoDup (ID <$> l) → wrr_ledger l picks lb → i ∈ l →
  let B := total_weight l * Z.of_nat (length l) in
  - B ≤ default 0 (wrr_state lb !! ID i) ≤ B.
Proof.
  intros Hnd Hled Hin B. assert (l ≠ []) as Hl by (by destruct l; [apply not_elem_of_nil in Hin|]).
  pose proof (total_weight_pos l Hl). pose proof (wrr_ledger_sum l picks lb Hnd Hled) as H0.
  assert (1 ≤ Z.of_nat (length l)) by (destruct l; simpl; [done|lia]).
  destruct Hled as [Hp Hled]. destruct (Hled i Hin) as [_ Hlo].
  pose proof (sumZ_member_upper (λ i, default 0 (wrr_state lb !! ID i)) (total_weight l) l i) as Hup.
  simpl in Hup. rewrite H0 in Hup. split; [subst B; nia|].
  etrans; [apply Hup|]; [lia| |done|subst B; nia].
  intros x Hx. destruct (Hled x Hx). lia.
Qed.

Lemma wrr_cleanup_lookup l st i : i ∈ l → wrr_cleanup l st !! ID i = st !! ID i.
Proof.
  intros Hi. unfold wrr_cleanup. destruct (st !! ID i) as [c|] eqn:E.
  - apply map_lookup_filter_Some. split; [done|]. simpl. apply list_elem_of_fmap. eauto.
  - apply map_lookup_filter_None. auto.
Qed.

(** One selection extends the ledger by the pick. *)
Lemma wrr_Select_step l picks lb :
  NoDup (ID <$> l) → l ≠ [] → total_weight l * (Z.of_nat (length l) + 1) < 2 ^ 63 →
  wrr_ledger l picks lb →
  ∃ s lb', wrr_Select l lb = Some (Ok s, lb') ∧ s ∈ l ∧ wrr_ledger l (picks ++ [s]) lb'.
Proof.
  intros Hnd Hl HW Hled. pose proof (total_weight_pos l Hl) as HWpos.
  set (B := total_weight l * Z.of_nat (length l)).
  destruct (wrr_scan_spec B l (wrr_cleanup l (wrr_state lb)) None 0 0)
    as (st & sel & mx & Hscan & Hadd & Hout & Hmax & _ & Hsel); [done|nia|lia| |nia|nia|].
  { intros i Hi. rewrite wrr_cleanup_lookup by done. by apply (wrr_ledger_bound l picks). }
  destruct sel as [s|]; [|by destruct Hsel].
  destruct Hsel as [[Hs Hmx]|[? _]]; [|done].
  assert (∀ i, i ∈ l → default 0 (st !! ID i) =
            default 0 (wrr_state lb !! ID i) + eff_weight i) as Hst.
  { intros i Hi. rewrite Hadd by done. by rewrite wrr_cleanup_lookup. }
  assert (1 ≤ default 0 (st !! ID s)) as Hpos.
  { destruct (sumZ_pos_member (λ i, default 0 (st !! ID i)) l) as (a & Ha & Hlt).
    - rewrite (sumZ_ext _ (λ i, default 0 (wrr_state lb !! ID i) + eff_weight i)) by done.
      rewrite sumZ_add, (wrr_ledger_sum l picks lb) by done. unfold total_weight in HWpos. lia.
    - specialize (Hmax a Ha). simpl in Hlt. lia. }
  assert (Hbs := wrr_ledger_bound l picks lb s Hnd Hled Hs).
  assert (in_i64 (default 0 (st !! ID s) - total_weight l)) as Hin64.
  { rewrite Hst in * by done. pose proof (eff_weight_pos s).
    assert (eff_weight s ≤ total_weight l) as He.
    { apply elem_of_Permutation in Hs as [l' E]. unfold total_weight. rewrite E. simpl.
      pose proof (sum_weight_nonneg l'). lia. }
    unfold in_i64. cbv zeta in Hbs. nia. }
  exists s, (mkWRR (<[ID s := default 0 (st !! ID s) - total_weight l]> st)).
  split; [|split; [done|]].
  - unfold wrr_Select. destruct l as [|x l]; [done|]. rewrite Hscan. simpl Z.add.
    by rewrite i64_id.
  - destruct Hled as [Hp Hled]. split; [set_solver|]. intros i Hi. simpl.
    rewrite picked_snoc, length_app. simpl. destruct (Hled i Hi) as [Heq Hlo].
    specialize (Hst i Hi). pose proof (eff_weight_pos i).
    case_bool_decide as Hid.
    + rewrite Hid, lookup_insert_eq. simpl. rewrite <- Hid in Hst.
      rewrite Hid in *. split; nia.
    + rewrite lookup_insert_ne by done. split; nia.
Qed.

Lemma wrr_run l n picks lb :
  NoDup (ID <$> l) → l ≠ [] → total_weight l * (Z.of_nat (length l) + 1) < 2 ^ 63 →
  wrr_ledger l picks lb →
  ∃ more lb', lb_run n l lb = Some (more, lb') ∧ length more = n ∧ wrr_ledger l (picks ++ more) lb'.
Proof.
  intros Hnd Hl HW. revert picks lb. induction n as [|n IH]; intros picks lb Hled.
  { exists [], lb. by rewrite app_nil_r. }
  destruct (wrr_Select_step l picks lb Hnd Hl HW Hled) as (s & lb1 & HS & Hs & Hled1).
  destruct (IH _ _ Hled1) as (more & lb2 & Hrun & Hlen & Hled2).
  exists (s :: more), lb2. simpl. rewrite HS, Hrun. simpl.
  split; [done|]. split; [lia|]. by rewrite <- app_assoc in Hled2.
Qed.

Lemma wrr_ledger_new l : l ≠ [] → wrr_ledger l [] NewWeightedRoundRobin.
Proof.
  intros Hl. split; [set_solver|]. intros i Hi. pose proof (total_weight_pos l Hl).
  change (wrr_state NewWeightedRoundRobin) with (∅ : gmap string Z).
  rewrite lookup_empty. simpl. unfold picked, countb. simpl. lia.
Qed.

(** The interface laws need neither distinct ids nor the absence of overflow. *)
Lemma wrr_scan_member l st sel mx tot st' sel' mx' tot' :
  wrr_scan l st sel mx tot = (st', sel', mx', tot') →
  sel' = sel ∧ (l = [] ∨ sel ≠ None) ∨ ∃ s, sel' = Some s ∧ s ∈ l.
Proof.
  revert st sel mx tot. induction l as [|x l IH]; intros st sel mx tot H; simpl in H.
  { simplify_eq. auto. }
  case_match eqn:E; apply IH in H as [[-> H]|(s & -> & Hs)].
  - right. exists x. set_solver.
  - right. exists s. set_solver.
  - left. destruct sel; [auto|done].
  - right. exists s. set_solver.
Qed.

#[export] Instance WeightedRoundRobin_ok : LoadBalancerOk WeightedRoundRobin.
Proof.
  split; [done|]. intros l lb Hl _. unfold Select. simpl. unfold wrr_Select.
  destruct l as [|x l]; [done|].
  destruct (wrr_scan (x :: l) (wrr_cleanup (x :: l) (wrr_state lb)) None 0 0)
    as [[[st sel] mx] tot] eqn:E.
  apply wrr_scan_member in E as [[_ [?|?]]|(s & -> & Hs)]; [done..|]. eauto.
Qed.

(** ** Least connections *)

Lemma lc_scan_member l m sel mn :
  lc_scan l m sel mn = sel ∧ (mn = -1 → l = []) ∨ ∃ s, lc_scan l m sel mn = Some s ∧ s ∈ l.
Proof.
  revert sel mn. induction l as [|x l IH]; intros sel mn; [auto|]. simpl.
  case_match eqn:E; (edestruct IH as [[-> H]|(s & -> & Hs)]; [|right; exists s; set_solver]).
  - right. exists x. set_solver.
  - left. split; [done|lia].
Qed.

#[export] Instance LeastConnections_ok : LoadBalancerOk LeastConnections.
Proof.
  split; [done|]. intros l lb Hl _. unfold Select. simpl. unfold lc_Select.
  destruct l as [|x l]; [done|].
  destruct (lc_scan_member (x :: l) (connections lb) None (-1)) as [[_ H]|(s & -> & Hs)];
    [by specialize (H eq_refl)|]. simpl. eauto.
Qed.

Lemma conns_nonneg lb i : lc_nonneg lb → 0 ≤ conns (connections lb) i.
Proof.
  intros H. unfold conns. destruct (connections lb !! ID i) eqn:E; simpl; [by eapply H|done].
Qed.

Lemma lc_scan_least l lb s0 :
  lc_nonneg lb →
  ∃ s, lc_scan l (connections lb) (Some s0) (conns (connections lb) s0) = Some s ∧ s ∈ s0 :: l ∧
    ∀ i, i ∈ s0 :: l → conns (connections lb) s ≤ conns (connections lb) i.
Proof.
  intros Hnn. revert s0. induction l as [|x l IH]; intros s0; simpl.
  { exists s0. split; [done|]. split; [set_solver|]. by intros i ->%list_elem_of_singleton. }
  pose proof (conns_nonneg lb s0 Hnn). replace (conns _ s0 =? -1) with false by lia. simpl.
  case_match.
  - destruct (IH x) as (s & -> & Hs & Hmin). exists s. split; [done|]. split; [set_solver|].
    intros i [->|Hi]%elem_of_cons; [|auto]. specialize (Hmin x (list_elem_of_here _ _)). lia.
  - destruct (IH s0) as (s & -> & Hs & Hmin). exists s. split; [done|]. split; [set_solver|].
    intros i [->|[->|Hi]%elem_of_cons]%elem_of_cons; [apply Hmin; set_solver| |apply Hmin; set_solver].
    specialize (Hmin s0 (list_elem_of_here _ _)). lia.
Qed.

(** ** Binary search *)

Lemma search_loop_spec fuel n f i j :
  0 ≤ i ≤ j → j ≤ n → j - i ≤ Z.of_nat fuel →
  (∀ k, 0 ≤ k < i → f k = false) → (∀ k, j ≤ k < n → f k = true) →
  (∀ k k', 0 ≤ k ≤ k' → k' < n → f k = true → f k' = true) →
  ∃ r, search_loop fuel f i j = Some r ∧ 0 ≤ r ≤ n ∧
    (∀ k, 0 ≤ k < r → f k = false) ∧ (∀ k, r ≤ k < n → f k = true).
Proof.
  revert i j. induction fuel as [|fuel IH]; intros i j Hij Hj Hfuel Hlo Hhi Hmono; simpl.
  { replace (i <? j) with false by lia. exists i. split; [done|]. split; [lia|].
    split; [done|]. intros k Hk. apply Hhi. lia. }
  case_match eqn:E.
  - rewrite Z.shiftr_div_pow2 by lia. change (2 ^ 1) with 2. set (h := (i + j) / 2).
    assert (i ≤ h < j) as Hh by (subst h; Z.to_euclidean_division_equations; lia).
    destruct (f h) eqn:Efh; apply IH; try lia; try done.
    + intros k Hk. by apply (Hmono h k); [lia|lia|].
    + intros k Hk. destruct (f k) eqn:Efk; [|done].
      rewrite (Hmono k h) in Efh; [done|lia|lia|done].
  - exists i. split; [done|]. split; [lia|]. split; [done|]. intros k Hk. apply Hhi. lia.
Qed.

Lemma sort_Search_spec n f :
  0 ≤ n → (∀ k k', 0 ≤ k ≤ k' → k' < n → f k = true → f k' = true) →
  ∃ r, sort_Search n f = Some r ∧ 0 ≤ r ≤ n ∧
    (∀ k, 0 ≤ k < r → f k = false) ∧ (∀ k, r ≤ k < n → f k = true).
Proof. intros Hn Hm. apply search_loop_spec; try lia; done. Qed.

(** ** The hash ring *)

Lemma sorted_hash_at ring k k' :
  StronglySorted (λ a b : Z * ServiceInstance, a.1 ≤ b.1) ring →
  0 ≤ k ≤ k' → k' < Z.of_nat (length ring) → hash_at ring k ≤ hash_at ring k'.
Proof.
  intros Hs Hk Hk'. unfold hash_at.
  destruct (decide (k = k')) as [->|Hne]; [done|].
  destruct (lookup_lt_is_Some_2 ring (Z.to_nat k)) as [a Ha]; [lia|].
  destruct (lookup_lt_is_Some_2 ring (Z.to_nat k')) as [b Hb]; [lia|].
  rewrite Ha, Hb. simpl. by apply (StronglySorted_lookup_lt _ _ _ _ _ _ Hs Ha Hb); lia.
Qed.

(** A lookup on a sorted non-empty ring finds the clockwise owner. *)
Lemma ring_lookup_clockwise ring k :
  ring ≠ [] → StronglySorted (λ a b : Z * ServiceInstance, a.1 ≤ b.1) ring →
  ∃ idx e, sort_Search (Z.of_nat (length ring)) (λ i, k <=? hash_at ring i) = Some idx ∧
    ring !! Z.to_nat (if idx =? Z.of_nat (length ring) then 0 else idx) = Some e ∧
    clockwise k ring e.
Proof.
  intros Hne Hs. set (n := Z.of_nat (length ring)).
  assert (0 < n) as Hn by (subst n; destruct ring; simpl; [done|lia]).
  destruct (sort_Search_spec n (λ i, k <=? hash_at ring i)) as (r & HS & Hr & Hlo & Hhi); [lia| |].
  { intros a b Hab Hb Ha. pose proof (sorted_hash_at ring a b Hs Hab Hb). lia. }
  set (p := if r =? n then 0 else r).
  destruct (lookup_lt_is_Some_2 ring (Z.to_nat p)) as [e He]; [subst p; case_match; lia|].
  exists r, e. split; [done|]. split; [done|]. split; [by eapply list_elem_of_lookup_2|].
  assert (∀ i x, ring !! i = Some x → hash_at ring (Z.of_nat i) = x.1) as Hat.
  { intros i x Hx. unfold hash_at. by rewrite Nat2Z.id, Hx. }
  assert (hash_at ring p = e.1) as Hp by (unfold hash_at; by rewrite He).
  destruct (r =? n) eqn:E; subst p.
  - right. split; intros e' [i Hi]%list_elem_of_lookup; pose proof (lookup_lt_Some _ _ _ Hi);
      rewrite <- (Hat i e' Hi).
    + specialize (Hlo (Z.of_nat i)). simpl in Hlo. lia.
    + rewrite <- Hp. apply sorted_hash_at; [done|lia|lia].
  - left. split; [rewrite <- Hp; specialize (Hhi r); simpl in Hhi; lia|].
    intros e' [i Hi]%list_elem_of_lookup Hk. pose proof (lookup_lt_Some _ _ _ Hi).
    rewrite <- (Hat i e' Hi) in Hk |- *. rewrite <- Hp.
    apply sorted_hash_at; [done| |lia].
    destruct (decide (Z.of_nat i < r)) as [Hlt|]; [|lia].
    specialize (Hlo (Z.of_nat i)). simpl in Hlo. lia.
Qed.

Lemma clockwise_perm k r1 r2 e : r1 ≡ₚ r2 → clockwise k r1 e → clockwise k r2 e.
Proof. unfold clockwise. intros HP. setoid_rewrite HP. done. Qed.

Lemma clockwise_hash_unique k ring e1 e2 :
  clockwise k ring e1 → clockwise k ring e2 → e1.1 = e2.1.
Proof.
  intros [H1 [[Hk1 Hm1]|[Ha1 Hm1]]] [H2 [[Hk2 Hm2]|[Ha2 Hm2]]].
  - specialize (Hm1 e2 H2 Hk2). specialize (Hm2 e1 H1 Hk1). lia.
  - specialize (Ha2 e1 H1). lia.
  - specialize (Ha1 e2 H2). lia.
  - specialize (Hm1 e2 H2). specialize (Hm2 e1 H1). lia.
Qed.

Lemma clockwise_unique k ring e1 e2 :
  NoDup ring.*1 → clockwise k ring e1 → clockwise k ring e2 → e1 = e2.
Proof.
  intros Hnd H1 H2. pose proof (clockwise_hash_unique _ _ _ _ H1 H2) as Heq.
  destruct H1 as [H1 _], H2 as [H2 _]. destruct e1 as [h1 i1], e2 as [h2 i2]. simpl in Heq. subst.
  f_equal. by eapply NoDup_fst_unique.
Qed.

(** An owner that survives in a smaller ring stays the owner. *)
Lemma clockwise_subset k ring ring' e :
  (∀ x, x ∈ ring' → x ∈ ring) → e ∈ ring' → clockwise k ring e → clockwise k ring' e.
Proof. intros Hsub He [_ H]. split; [done|]. naive_solver. Qed.

Lemma build_ring_app lb l1 l2 : build_ring lb (l1 ++ l2) = build_ring lb l1 ++ build_ring lb l2.
Proof. apply bind_app. Qed.

Lemma elem_of_build_ring lb l e :
  e ∈ build_ring lb l → e.2 ∈ l ∧ ∃ i, 0 ≤ i < virtualNodes lb ∧ e.1 = hashFunc lb (virtualKey e.2 i).
Proof.
  unfold build_ring. rewrite list_elem_of_bind.
  intros (inst & (i & -> & Hi)%list_elem_of_fmap & Hin). simpl.
  apply elem_of_seqZ in Hi. split; [done|]. exists i. split; [lia|done].
Qed.

Lemma build_ring_nonempty lb l : l ≠ [] → 0 < virtualNodes lb → build_ring lb l ≠ [].
Proof.
  destruct l as [|x l]; [done|]. intros _ Hv. unfold build_ring. simpl.
  rewrite seqZ_cons by lia. done.
Qed.

(** [SelectByKey] returns the owner of the key on the ring of the pool. *)
Lemma SelectByKey_owner `{SortSlice} lb l key :
  l ≠ [] → 0 < virtualNodes lb →
  ∃ e, SelectByKey lb l key = Some (Ok e.2) ∧ clockwise (hashFunc lb key) (build_ring lb l) e.
Proof.
  intros Hl Hv. unfold SelectByKey. destruct l as [|x l]; [done|].
  set (ring := sort_slice (build_ring lb (x :: l))).
  assert (ring ≡ₚ build_ring lb (x :: l)) as HP by apply sort_slice_perm.
  destruct (ring_lookup_clockwise ring (hashFunc lb key)) as (idx & e & -> & He & Hcw).
  - intros E. rewrite E in HP. symmetry in HP. apply Permutation_nil_r in HP.
    by eapply build_ring_nonempty in HP.
  - apply sort_slice_sorted.
  - exists e. cbn [mbind option_bind]. rewrite He. split; [done|]. by eapply clockwise_perm.
Qed.

#[export] Instance ConsistentHash_ok `{SortSlice} : LoadBalancerOk ConsistentHash.
Proof.
  split; [done|]. intros l lb Hl Hv. unfold Select. simpl. unfold ch_Select.
  destruct l as [|x l]; [done|].
  edestruct (SelectByKey_owner lb (x :: l)) as (e & HS & [Hin _]); [done|done|].
  rewrite HS. simpl. apply elem_of_build_ring in Hin as [Hin _]. eauto.
Qed.

(** ** Properties *)

(** C18. Exact proportional share: starting from a new balancer, over as many
    selections as the total effective weight, smooth weighted round robin
    never fails, picks every instance exactly as often as its weight says, and
    is back in its initial weights. *)
Theorem wrr_exact_share l :
  NoDup (ID <$> l) → l ≠ [] → total_weight l * (Z.of_nat (length l) + 1) < 2 ^ 63 →
  ∃ picks lb, lb_run (Z.to_nat (total_weight l)) l NewWeightedRoundRobin = Some (picks, lb) ∧
    (∀ p, p ∈ picks → p ∈ l) ∧
    ∀ i, i ∈ l → picked i picks = eff_weight i ∧ default 0 (wrr_state lb !! ID i) = 0.
Proof.
  intros Hnd Hl HW. pose proof (total_weight_pos l Hl) as Hpos.
  destruct (wrr_run l (Z.to_nat (total_weight l)) [] NewWeightedRoundRobin Hnd Hl HW
              (wrr_ledger_new l Hl)) as (picks & lb & Hrun & Hlen & Hp & Hled).
  simpl in *. exists picks, lb. split; [done|]. split; [done|].
  assert (∀ i, i ∈ l → picked i picks ≤ eff_weight i) as Hle.
  { intros i Hi. destruct (Hled i Hi) as [Heq Hlo]. rewrite Hlen in Heq. nia. }
  assert (sumZ (λ i, picked i picks) l = sumZ eff_weight l) as Hsum.
  { rewrite sum_picked, Hlen by done. unfold total_weight in *. lia. }
  intros i Hi. pose proof (equal_sums_pointwise _ _ _ Hle Hsum i Hi) as Heqi.
  split; [done|]. destruct (Hled i Hi) as [-> _]. rewrite Heqi, Hlen. lia.
Qed.

Lemma wrr_exact_share_witness :
  (ID <$> default [] (fst <$> lb_run 7 sample_pool NewWeightedRoundRobin)) =
    ["a"; "a"; "b"; "a"; "c"; "a"; "a"]%string ∧
  ∃ picks lb, lb_run 7 sample_pool NewWeightedRoundRobin = Some (picks, lb) ∧
    (∀ p, p ∈ picks → p ∈ sample_pool) ∧
    ∀ i, i ∈ sample_pool →
      picked i picks = eff_weight i ∧ default 0 (wrr_state lb !! ID i) = 0.
Proof.
  split; [vm_compute; reflexivity|].
  apply (wrr_exact_share sample_pool); [|done|vm_compute; reflexivity].
  apply (bool_decide_unpack _). vm_compute. exact I.
Defined.

(** Round robin is exactly fair: from any counter, one turn of as many
    selections as there are instances is the pool rotated to the counter's
    position, so each instance is picked once. *)
Theorem rr_fair_turn l c :
  l ≠ [] → 0 ≤ c → c + Z.of_nat (length l) < 2 ^ 64 →
  ∃ picks, lb_run (length l) l (mkRR c) = Some (picks, mkRR (c + Z.of_nat (length l))) ∧
    picks ≡ₚ l ∧ head picks = l !! Z.to_nat (c `mod` Z.of_nat (length l)).
Proof.
  intros Hl Hc Hn. eexists. split; [by apply rr_turn|]. split.
  - rewrite Permutation_app_comm. by rewrite take_drop.
  - assert (0 < Z.of_nat (length l)) as Hpos by (destruct l; simpl; [done|lia]).
    pose proof (Z.mod_pos_bound c _ Hpos).
    destruct (lookup_lt_is_Some_2 l (Z.to_nat (c `mod` Z.of_nat (length l)))) as [x Hx]; [lia|].
    rewrite (drop_S _ _ _ Hx). simpl. done.
Qed.

Lemma rr_fair_turn_witness :
  ∃ picks, lb_run 3 sample_pool (mkRR 4) = Some (picks, mkRR 7) ∧
    picks ≡ₚ sample_pool ∧ head picks = Some (sample "b" 1).
Proof. apply (rr_fair_turn sample_pool 4); [done|lia|vm_compute; reflexivity]. Defined.

(** Least connections picks an instance with the fewest open connections,
    counts it up by one and nobody else, keeps counts non-negative, and
    releasing that instance restores every count. *)
Theorem lc_select_least l lb :
  lc_nonneg lb → l ≠ [] → (∀ i, i ∈ l → conns (connections lb) i < 2 ^ 63 - 1) →
  ∃ s lb', Select l lb = Some (Ok s, lb') ∧ s ∈ l ∧ lc_nonneg lb' ∧
    (∀ i, i ∈ l → conns (connections lb) s ≤ conns (connections lb) i) ∧
    (∀ i, conns (connections lb') i =
          conns (connections lb) i + if bool_decide (ID s = ID i) then 1 else 0) ∧
    (∀ i, conns (connections (lc_Release s lb')) i = conns (connections lb) i) ∧
    lc_nonneg (lc_Release s lb').
Proof.
  intros Hnn Hl Hmax. destruct l as [|x l]; [done|].
  destruct (lc_scan_least l lb x Hnn) as (s & Hscan & Hs & Hmin).
  pose proof (conns_nonneg lb s Hnn) as Hs0. specialize (Hmax s Hs).
  set (m' := <[ID s := conns (connections lb) s + 1]> (connections lb)).
  assert (conns m' s = conns (connections lb) s + 1) as Hcs.
  { unfold conns, m'. by rewrite lookup_insert_eq. }
  assert (lc_Release s (mkLC m') = mkLC (<[ID s := conns (connections lb) s]> m')) as Hrel.
  { unfold lc_Release. simpl. rewrite Hcs. replace (0 <? _) with true by lia.
    rewrite i64_id by word. by replace (conns (connections lb) s + 1 - 1)
      with (conns (connections lb) s) by lia. }
  exists s, (mkLC m'). rewrite Hrel. unfold lc_nonneg. simpl.
  split_and!; [|done| |done| | |].
  - unfold lc_Select. cbn [lc_scan]. rewrite Hscan. simpl. by rewrite i64_id by word.
  - intros id c. unfold m'. rewrite lookup_insert_Some. intros [[_ <-]|[_ ?]]; [lia|by eapply Hnn].
  - intros i. unfold conns, m'. case_bool_decide as E.
    + rewrite <- E, lookup_insert_eq. simpl. done.
    + rewrite lookup_insert_ne by done. lia.
  - intros i. unfold conns, m'. rewrite insert_insert_eq. destruct (decide (ID s = ID i)) as [E|E].
    + by rewrite <- E, lookup_insert_eq.
    + by rewrite lookup_insert_ne by done.
  - intros id c. unfold m'. rewrite insert_insert_eq, lookup_insert_Some.
    intros [[_ <-]|[_ ?]]; [lia|by eapply Hnn].
Qed.

Lemma lc_select_least_witness :
  ∃ s lb', Select sample_pool (mkLC {["a"%string := 2; "b"%string := 1; "c"%string := 1]}) =
      Some (Ok s, lb') ∧ s = sample "b" 1 ∧ lc_nonneg lb'.
Proof.
  destruct (lc_select_least sample_pool (mkLC {["a"%string := 2; "b"%string := 1; "c"%string := 1]}))
    as (s & lb' & HS & _ & Hnn & _).
  - refine (bool_decide_unpack (map_Forall (λ _ c, 0 ≤ c) _) _). vm_compute. exact I.
  - done.
  - intros i Hi. unfold sample_pool in Hi. repeat (apply elem_of_cons in Hi as [->|Hi]; [vm_compute; done|]).
    by apply not_elem_of_nil in Hi.
  - exists s, lb'. split; [done|]. split; [|done]. vm_compute in HS. by simplify_eq.
Defined.

(** C35. Consistent hashing disrupts minimally: when an instance leaves the
    pool, every key that was not on it keeps its instance, whatever order the
    two unstable sorts give, as long as the virtual-node hashes are distinct.
    (Read backwards: when an instance joins, a key either stays or moves to it.) *)
Theorem ch_minimal_disruption (sortA sortB : SortSlice) lb l1 x l2 key i :
  0 < virtualNodes lb → NoDup (build_ring lb (l1 ++ x :: l2)).*1 →
  @SelectByKey sortA lb (l1 ++ x :: l2) key = Some (Ok i) → i ≠ x →
  @SelectByKey sortB lb (l1 ++ l2) key = Some (Ok i).
Proof.
  intros Hv Hnd HS Hne.
  destruct (@SelectByKey_owner sortA lb (l1 ++ x :: l2) key) as (e & HS' & Hcw); [by destruct l1|done|].
  rewrite HS in HS'. simplify_eq.
  assert (∀ f, f ∈ build_ring lb (l1 ++ l2) → f ∈ build_ring lb (l1 ++ x :: l2)) as Hsub.
  { intros f. rewrite !build_ring_app. change (x :: l2) with ([x] ++ l2).
    rewrite build_ring_app. set_solver. }
  assert (e ∈ build_ring lb (l1 ++ l2)) as He.
  { destruct Hcw as [He _]. revert He. rewrite !build_ring_app. change (x :: l2) with ([x] ++ l2).
    rewrite build_ring_app, !elem_of_app. intros [?|[Hx|?]]; [auto| |auto].
    apply elem_of_build_ring in Hx as [Hx _]. set_solver. }
  assert (l1 ++ l2 ≠ []) as Hl by (intros E; rewrite E in He; set_solver).
  destruct (@SelectByKey_owner sortB lb (l1 ++ l2) key Hl Hv) as (e' & HS' & Hcw').
  rewrite HS'. do 2 f_equal. pose proof (clockwise_subset _ _ _ e Hsub He Hcw) as Hcwe.
  f_equal. eapply clockwise_unique; [|done|done].
  revert Hnd. rewrite !build_ring_app. change (x :: l2) with ([x] ++ l2).
  rewrite build_ring_app, !fmap_app, !NoDup_app. intros (HA & HD & HB & _ & HC).
  split; [done|]. split; [|done]. intros y Hy HyC. apply (HD y Hy). rewrite elem_of_app. auto.
Qed.

Lemma ch_minimal_disruption_witness :
  @SelectByKey merge_sort_slice (NewConsistentHash [4]) [sample "a" 5; sample "c" 0] "req#1" =
    Some (Ok (sample "a" 5)).
Proof.
  apply (ch_minimal_disruption merge_sort_slice merge_sort_slice (NewConsistentHash [4])
           [sample "a" 5] (sample "b" 1) [sample "c" 0] "req#1" (sample "a" 5)).
  - done.
  - apply (bool_decide_unpack _). vm_compute. exact I.
  - vm_compute. reflexivity.
  - done.
Defined.

(** The client's contract, against the balancer interface alone: resolving
    a service and selecting with any lawful balancer yields a live registered
    instance of that service, and "no instance" exactly when none is live. *)
Theorem discover_and_select_live `{RangeOrder} `{LoadBalancerOk St} now r h name (s : St) :
  Discovery.wf r h → lb_inv s →
  (getHealthyInstances now r h name = [] →
     discover_and_select now r h name s = Some (Err ErrNoInstance, s)) ∧
  (getHealthyInstances now r h name ≠ [] →
     ∃ i s', discover_and_select now r h name s = Some (Ok i, s') ∧ lb_inv s' ∧
       Name i = name ∧ Healthy i = true ∧
       time_sub now (LastHeartbeat i) ≤ HeartbeatTimeout (config r)).
Proof.
  intros Hwf Hinv. unfold discover_and_select, GetInstances. split.
  - by intros ->.
  - intros Hne. destruct (getHealthyInstances now r h name) as [|x l] eqn:E; [done|].
    destruct (Select_member (x :: l) s Hne Hinv) as (i & s' & -> & Hi & Hinv').
    exists i, s'. split; [done|]. split; [done|]. rewrite <- E in Hi.
    apply elem_of_getHealthyInstances in Hi as (id & lo & j & Hf & Hj & Hh & ->).
    destruct (Hwf _ _ _ Hf) as (j' & Hj' & Hn & _). simplify_eq. unfold healthy in Hh.
    split; [done|]. split; [done|]. simpl. lia.
Qed.

Lemma discover_and_select_live_witness :
  discover_and_select (H := range_first_key_order) 3 (NewMemoryRegistry []) ∅ "users" NewRoundRobin =
    Some (Err ErrNoInstance, NewRoundRobin).
Proof.
  apply (@discover_and_select_live range_first_key_order RoundRobin _ _ 3 (NewMemoryRegistry []) ∅ "users"
           NewRoundRobin); [apply Discovery.wf_new | simpl; lia | reflexivity].
Defined.

(** ** Random and the default *)

#[export] Instance Random_ok `{Rand G} : LoadBalancerOk (Random G).
Proof.
  split; [done|]. intros [|x l] s Hl _; [done|]. pose proof (Intn_below (Z.of_nat (length (x :: l))) (rand s) ltac:(simpl; lia)) as Hb.
  change (Select (x :: l) s) with (random_Select (x :: l) s). unfold random_Select. destruct (Intn _ _) as [idx g]. cbn [fst] in Hb.
  destruct (lookup_lt_is_Some_2 (x :: l) (Z.to_nat idx)) as [i Hi]; [lia|]. rewrite Hi.
  exists i, (mkRandom g). split; [done|]. split; [by eapply list_elem_of_lookup_2|done].
Qed.

(** Whatever balancer is set: an instance of the list, if there is any. *)
Lemma default_selects_member l d :
  l ≠ [] → (∀ a, d = Some a → promises a) →
  ∃ i a, Select_default l d = Some (Ok i, Some a) ∧ i ∈ l ∧ promises a.
Proof.
  intros Hl Hd. assert (promises (Default d).1) as [Hok Hinv].
  { destruct d as [a|]; [by apply Hd|]. split; cbn; [apply _|done]. }
  unfold Select_default, any_Select. destruct (Default d) as [a d'] eqn:E. cbn in *.
  destruct (Select_member l (any_value a) Hl Hinv) as (i & s' & -> & Hi & Hs). cbn. by exists i, (mkAny (any_lb := any_lb a) s').
Qed.

(** A default of some kind picks what a balancer of that kind picks. *)
Lemma default_runs_as `{LoadBalancer St} n l : ∀ (s : St), default_run n l (Some (mkAny s)) = fst <$> lb_run n l s.
Proof.
  induction n as [|n IH]; intros s; [done|]. cbn [default_run lb_run]. unfold Select_default, any_Select. cbn.
  destruct (Select l s) as [[[i|e] s']|]; [|done..]. cbn. rewrite IH. by destruct (lb_run n l s') as [[picks s'']|].
Qed.

(** Nil, the default goes round robin from then on. *)
Lemma unset_default_rotates n l : default_run n l None = fst <$> lb_run n l NewRoundRobin.
Proof. rewrite <- default_runs_as. by destruct n. Qed.

End LoadBalance.
