(* ===== verification/CircuitBreaker.v ===== *)
(** * Circuit breaker (src/middlewares/circuitbreaker/middleware.go)

    The breaker's atomics are a record and each method call is one transition
    of it; requests overlap because a request is an [Allow] followed, any number
    of other calls later, by a [RecordSuccess] or [RecordFailure].  The methods
    hold no lock: [BreakerSteps.v] takes them access by access, and says when
    whole calls are a faithful granularity and what finer interleavings do.
    [time.Now()] is an argument.  The gin middleware is its two halves around
    [c.Next()], over a map of breakers keyed by [keyFunc]. *)

From S2P Require Import Prelude.

Module CircuitBreaker.

Inductive State := StateClosed | StateOpen | StateHalfOpen.

#[export] Instance State_eq_dec : EqDecision State.
Proof. solve_decision. Defined.

Definition StateString (s : State) : string :=
  match s with
  | StateClosed => "closed"
  | StateOpen => "open"
  | StateHalfOpen => "half-open"
  end.

Record Config := mkConfig {
  FailureThreshold : Z;
  SuccessThreshold : Z;
  Timeout : Duration;
  HalfOpenRequests : Z
}.

Definition DefaultConfig : Config := mkConfig 5 3 (30 * Second) 1.

Record CircuitBreaker := mkCB {
  config : Config;
  state : State;
  failureCount : Z;
  successCount : Z;
  lastFailureTime : Z;
  requests : Z;
  failures : Z;
  halfOpenInFlight : Z
}.

Definition New (cfgs : list Config) : CircuitBreaker :=
  mkCB (default DefaultConfig (head cfgs)) StateClosed 0 0 0 0 0 0.

(** Stores to single atomics. *)
Definition set_state (s : State) (cb : CircuitBreaker) : CircuitBreaker :=
  mkCB (config cb) s (failureCount cb) (successCount cb) (lastFailureTime cb)
    (requests cb) (failures cb) (halfOpenInFlight cb).

Definition set_failureCount (n : Z) (cb : CircuitBreaker) : CircuitBreaker :=
  mkCB (config cb) (state cb) n (successCount cb) (lastFailureTime cb)
    (requests cb) (failures cb) (halfOpenInFlight cb).

Definition set_successCount (n : Z) (cb : CircuitBreaker) : CircuitBreaker :=
  mkCB (config cb) (state cb) (failureCount cb) n (lastFailureTime cb)
    (requests cb) (failures cb) (halfOpenInFlight cb).

Definition set_lastFailureTime (t : Z) (cb : CircuitBreaker) : CircuitBreaker :=
  mkCB (config cb) (state cb) (failureCount cb) (successCount cb) t
    (requests cb) (failures cb) (halfOpenInFlight cb).

Definition set_requests (n : Z) (cb : CircuitBreaker) : CircuitBreaker :=
  mkCB (config cb) (state cb) (failureCount cb) (successCount cb) (lastFailureTime cb)
    n (failures cb) (halfOpenInFlight cb).

Definition set_failures (n : Z) (cb : CircuitBreaker) : CircuitBreaker :=
  mkCB (config cb) (state cb) (failureCount cb) (successCount cb) (lastFailureTime cb)
    (requests cb) n (halfOpenInFlight cb).

Definition set_inFlight (n : Z) (cb : CircuitBreaker) : CircuitBreaker :=
  mkCB (config cb) (state cb) (failureCount cb) (successCount cb) (lastFailureTime cb)
    (requests cb) (failures cb) n.

(** [transitionTo]: the swap, and the slot reset on a real change. *)
Definition transitionTo (s : State) (cb : CircuitBreaker) : CircuitBreaker :=
  let cb' := set_state s cb in
  if decide (state cb = s) then cb'
  else if decide (s = StateHalfOpen) then cb' else set_inFlight 0 cb'.

Definition half_open_limit (cfg : Config) : Z :=
  if HalfOpenRequests cfg <=? 0 then 1 else HalfOpenRequests cfg.

Definition allowHalfOpenRequest (cb : CircuitBreaker) : bool * CircuitBreaker :=
  let current := i32 (halfOpenInFlight cb + 1) in
  let cb := set_inFlight current cb in
  if half_open_limit (config cb) <? current
  then (false, set_inFlight (i32 (halfOpenInFlight cb - 1)) cb)
  else (true, cb).

Definition releaseHalfOpenRequest (cb : CircuitBreaker) : CircuitBreaker :=
  if halfOpenInFlight cb <=? 0 then cb
  else set_inFlight (i32 (halfOpenInFlight cb - 1)) cb.

Definition Allow (now : Time) (cb : CircuitBreaker) : bool * CircuitBreaker :=
  match state cb with
  | StateClosed => (true, cb)
  | StateOpen =>
      if Timeout (config cb) <=? time_sub now (lastFailureTime cb)
      then allowHalfOpenRequest (transitionTo StateHalfOpen cb)
      else (false, cb)
  | StateHalfOpen => allowHalfOpenRequest cb
  end.

Definition RecordSuccess (cb : CircuitBreaker) : CircuitBreaker :=
  let cb := set_requests (i64 (requests cb + 1)) cb in
  match state cb with
  | StateClosed => set_failureCount 0 cb
  | StateHalfOpen =>
      let cb := releaseHalfOpenRequest cb in
      let count := i32 (successCount cb + 1) in
      let cb := set_successCount count cb in
      if SuccessThreshold (config cb) <=? count
      then set_successCount 0 (set_failureCount 0 (transitionTo StateClosed cb))
      else cb
  | StateOpen => cb
  end.

Definition RecordFailure (now : Time) (cb : CircuitBreaker) : CircuitBreaker :=
  let cb := set_requests (i64 (requests cb + 1)) cb in
  let cb := set_failures (i64 (failures cb + 1)) cb in
  let cb := set_lastFailureTime (UnixNano now) cb in
  match state cb with
  | StateClosed =>
      let count := i32 (failureCount cb + 1) in
      let cb := set_failureCount count cb in
      if FailureThreshold (config cb) <=? count then transitionTo StateOpen cb else cb
  | StateHalfOpen =>
      let cb := releaseHalfOpenRequest cb in
      set_successCount 0 (transitionTo StateOpen cb)
  | StateOpen => cb
  end.

Record Stats := mkStats {
  StatsState : string;
  TotalRequests : Z;
  TotalFailures : Z;
  StatsFailureCount : Z;
  StatsSuccessCount : Z;
  StatsLastFailureTime : Time
}.

Definition get_stats (cb : CircuitBreaker) : Stats :=
  mkStats (StateString (state cb)) (requests cb) (failures cb)
    (failureCount cb) (successCount cb) (lastFailureTime cb).

(** ** HTTP client breaker: [fn] is the protected call, [None] its success. *)
Definition Do {E} (t0 t1 : Time) (fn : option E) (cb : CircuitBreaker)
    : res (option E) unit * CircuitBreaker :=
  let '(ok, cb) := Allow t0 cb in
  if negb ok then (Err None, cb)
  else match fn with
       | Some e => (Err (Some e), RecordFailure t1 cb)
       | None => (Ok (), RecordSuccess cb)
       end.

(** A client's breaker is a breaker of its own. *)
Definition NewHTTPBreaker (cfgs : list Config) : CircuitBreaker := New cfgs.

Definition http_State (cb : CircuitBreaker) : State := state cb.

Definition http_Stats (cb : CircuitBreaker) : Stats := get_stats cb.

(** ** Middleware *)

Section Middleware.
Context {Req : Type}.

(** [fallback] tells whether a fallback handler is set; [judgeFunc] sees the
    request and the response status. *)
Record Builder := mkBuilder {
  breaker : CircuitBreaker;
  fallback : bool;
  judgeFunc : option (Req → Z → bool);
  keyFunc : Req → string;
  breakers : gmap string CircuitBreaker;
  singleMode : bool
}.

Definition NewBuilder (cfgs : list Config) : Builder :=
  mkBuilder (New cfgs) false None (λ _, ""%string) ∅ true.

Definition WithFallback (b : Builder) : Builder :=
  mkBuilder (breaker b) true (judgeFunc b) (keyFunc b) (breakers b) (singleMode b).

Definition WithJudge (f : Req → Z → bool) (b : Builder) : Builder :=
  mkBuilder (breaker b) (fallback b) (Some f) (keyFunc b) (breakers b) (singleMode b).

Definition WithKeyFunc (f : Req → string) (b : Builder) : Builder :=
  mkBuilder (breaker b) (fallback b) (judgeFunc b) f (breakers b) false.

(** The shorthands: a builder to be built at once. *)
Definition default_Middleware (cfgs : list Config) : Builder := NewBuilder cfgs.

Definition fallback_Middleware (cfgs : list Config) : Builder := WithFallback (NewBuilder cfgs).

(** Which breaker a request uses: the builder's own, or that of a key. *)
Definition slot (b : Builder) (c : Req) : option string :=
  if singleMode b then None
  else if String.eqb (keyFunc b c) "" then None else Some (keyFunc b c).

Definition get_slot (b : Builder) (s : option string) : CircuitBreaker :=
  match s with
  | None => breaker b
  | Some k => default (New [config (breaker b)]) (breakers b !! k)
  end.

Definition set_slot (b : Builder) (s : option string) (cb : CircuitBreaker) : Builder :=
  match s with
  | None => mkBuilder cb (fallback b) (judgeFunc b) (keyFunc b) (breakers b) (singleMode b)
  | Some k => mkBuilder (breaker b) (fallback b) (judgeFunc b) (keyFunc b)
                (<[k := cb]> (breakers b)) (singleMode b)
  end.

(** [getBreaker]: a missing key is stored as a new breaker of the same config. *)
Definition getBreaker (b : Builder) (c : Req) : option string * CircuitBreaker * Builder :=
  let s := slot b c in
  let cb := get_slot b s in
  (s, cb, match s with
          | None => b
          | Some k => match breakers b !! k with Some _ => b | None => set_slot b s cb end
          end).

(** A [Fallback] has run its handler and aborts nothing of its own: whether the
    chain goes on is up to that handler. *)
Inductive Verdict :=
| Proceed (s : option string)
| Fallback
| Unavailable (code : Z) (shown : string).

(** The handler up to [c.Next()]. *)
Definition handler_before (now : Time) (c : Req) (b : Builder) : Verdict * Builder :=
  let '(s, cb, b) := getBreaker b c in
  let '(ok, cb') := Allow now cb in
  let b := set_slot b s cb' in
  if ok then (Proceed s, b)
  else if fallback b then (Fallback, b)
  else (Unavailable 503 (StateString (state cb')), b).

(** The handler after [c.Next()]: the breaker it holds records the outcome. *)
Definition handler_after (now : Time) (c : Req) (s : option string) (status : Z)
    (b : Builder) : Builder :=
  let isFailure := match judgeFunc b with
                   | Some f => f c status
                   | None => 500 <=? status
                   end in
  let cb := get_slot b s in
  set_slot b s (if isFailure then RecordFailure now cb else RecordSuccess cb).

Definition BuilderStats (b : Builder) : gmap string Stats :=
  if singleMode b then {["default"%string := get_stats (breaker b)]}
  else get_stats <$> breakers b.

End Middleware.
Arguments Builder : clear implicits.

(** ** Traces *)

(** A transition of the breaker by some request. *)
Inductive Event :=
| EAllow (now : Time)
| ESuccess
| EFailure (now : Time).

Definition step (cb : CircuitBreaker) (e : Event) : CircuitBreaker :=
  match e with
  | EAllow now => (Allow now cb).2
  | ESuccess => RecordSuccess cb
  | EFailure now => RecordFailure now cb
  end.

Definition run (cb : CircuitBreaker) (es : list Event) : CircuitBreaker := foldl step cb es.

(** Thresholds that fit the 32-bit counters. *)
Definition config_ok (cfg : Config) : Prop :=
  1 ≤ FailureThreshold cfg < 2 ^ 31 ∧ 1 ≤ SuccessThreshold cfg < 2 ^ 31 ∧
  HalfOpenRequests cfg < 2 ^ 31 - 1.

(** The invariant of every reachable breaker. *)
Definition inv (cb : CircuitBreaker) : Prop :=
  config_ok (config cb) ∧
  0 ≤ failureCount cb ≤ FailureThreshold (config cb) ∧
  0 ≤ halfOpenInFlight cb ≤ half_open_limit (config cb) ∧
  0 ≤ successCount cb < SuccessThreshold (config cb) ∧
  (state cb ≠ StateHalfOpen → halfOpenInFlight cb = 0 ∧ successCount cb = 0) ∧
  (state cb = StateClosed → failureCount cb < FailureThreshold (config cb)).

(** The longest run of consecutive failures, [cur] being already under way. *)
Fixpoint max_streak (cur best : Z) (outcomes : list (option Time)) : Z :=
  match outcomes with
  | [] => best
  | Some _ :: os => max_streak (cur + 1) (Z.max best (cur + 1)) os
  | None :: os => max_streak 0 best os
  end.

(** The event that reports an outcome: [Some t] is a failure at [t]. *)
Definition outcome_event (o : option Time) : Event :=
  match o with Some t => EFailure t | None => ESuccess end.

(** The answers to a sequence of [Allow] calls. *)
Fixpoint admissions (cb : CircuitBreaker) (nows : list Time) : list bool * CircuitBreaker :=
  match nows with
  | [] => ([], cb)
  | now :: nows =>
      let '(ok, cb) := Allow now cb in
      let '(oks, cb) := admissions cb nows in (ok :: oks, cb)
  end.

(** Requests with identities: the running requests that were admitted as
    probes of the current half-open period, and the other running requests. *)
Record Tracked := mkTracked {
  tcb : CircuitBreaker;
  probes : list nat;
  others : list nat
}.

Inductive Action :=
| Begin (r : nat) (now : Time)
| Finish (r : nat) (ok : bool) (now : Time).

Definition drop_id (r : nat) (l : list nat) : list nat := filter (λ x, x ≠ r) l.

(** Probes outlive their period as ordinary running requests. *)
Definition retrack (cb : CircuitBreaker) (ps os : list nat) : Tracked :=
  if decide (state cb = StateHalfOpen) then mkTracked cb ps os else mkTracked cb [] (ps ++ os).

(** The outcome a finished request records. *)
Definition record_outcome (ok : bool) (now : Time) (cb : CircuitBreaker) : CircuitBreaker :=
  if ok then RecordSuccess cb else RecordFailure now cb.

Definition tracked_step (s : Tracked) (a : Action) : Tracked :=
  match a with
  | Begin r now =>
      let '(ok, cb) := Allow now (tcb s) in
      retrack cb (if ok then r :: probes s else probes s) (others s)
  | Finish r ok now =>
      retrack (record_outcome ok now (tcb s))
        (drop_id r (probes s)) (drop_id r (others s))
  end.

Definition tracked_run (s : Tracked) (acts : list Action) : Tracked := foldl tracked_step s acts.

Definition tracked_New (cfg : Config) : Tracked := mkTracked (New [cfg]) [] [].

(** Identities are fresh, and no request from before the current half-open
    period finishes inside it. *)
Definition no_straggler (s : Tracked) (a : Action) : Prop :=
  match a with
  | Begin r _ => r ∉ probes s ∧ r ∉ others s
  | Finish r _ _ => state (tcb s) = StateHalfOpen → r ∈ probes s
  end.

Fixpoint no_stragglers (s : Tracked) (acts : list Action) : Prop :=
  match acts with
  | [] => True
  | a :: acts => no_straggler s a ∧ no_stragglers (tracked_step s a) acts
  end.

#[export] Instance no_straggler_dec s a : Decision (no_straggler s a).
Proof. destruct a; simpl; apply _. Defined.

#[export] Instance no_stragglers_dec s acts : Decision (no_stragglers s acts).
Proof. revert s. induction acts as [|a acts IH]; intros s; simpl; apply _. Defined.

(** The slots in use are the running probes. *)
Definition tracked_ok (s : Tracked) : Prop :=
  inv (tcb s) ∧ NoDup (probes s) ∧
  if decide (state (tcb s) = StateHalfOpen)
  then Z.of_nat (length (probes s)) = halfOpenInFlight (tcb s)
  else probes s = [].

(** A sample configuration: one failure opens, two successes close, one probe. *)
Definition sample_config : Config := mkConfig 1 2 100 1.

(** Request 2 starts on the closed breaker and ends in the half-open period. *)
Definition straggler_trace : list Action :=
  [Begin 1 0; Begin 2 0; Finish 1 false 10; Begin 3 110; Finish 2 true 111; Begin 4 112].

(** ** Lemmas *)

Lemma half_open_limit_pos cfg : 1 ≤ half_open_limit cfg.
Proof. unfold half_open_limit. case_match; lia. Qed.

Lemma half_open_limit_small cfg : config_ok cfg → half_open_limit cfg < 2 ^ 31 - 1.
Proof. unfold half_open_limit, config_ok. case_match; lia. Qed.

Lemma inv_New cfgs : config_ok (default DefaultConfig (head cfgs)) → inv (New cfgs).
Proof.
  intros H. pose proof (half_open_limit_pos (default DefaultConfig (head cfgs))).
  unfold inv, New; simpl. destruct H as (? & ? & ?). unfold config_ok. split_and!; try done; lia.
Qed.

(** Closes [inv] of an updated record: compute the fields, then arithmetic. *)
Ltac inv_solve :=
  unfold inv, config_ok in *; simpl in *;
  repeat match goal with
         | E : state ?cb = _, H : context [state ?cb] |- _ => lazymatch H with E => fail | _ => rewrite E in H end
         | E : state ?cb = _ |- context [state ?cb] => rewrite E
         end;
  destruct_and?;
  repeat match goal with
         | H : _ ≠ _ → _ |- _ => specialize (H ltac:(done))
         | H : _ = _ → _ |- _ => specialize (H ltac:(done))
         end;
  destruct_and?; split_and!; intros; try done; try lia.

(** Admission under the slot limit. *)
Lemma allowHalfOpenRequest_spec cb :
  inv cb →
  allowHalfOpenRequest cb =
    if halfOpenInFlight cb <? half_open_limit (config cb)
    then (true, set_inFlight (halfOpenInFlight cb + 1) cb) else (false, cb).
Proof.
  intros (Hcfg & _ & Hin & _). pose proof (half_open_limit_small _ Hcfg).
  unfold allowHalfOpenRequest. rewrite (i32_id (_ + 1)) by word. simpl.
  repeat case_match; try lia; [|done].
  rewrite i32_id by word. destruct cb; simpl. f_equal. unfold set_inFlight. simpl. f_equal. lia.
Qed.

Lemma transitionTo_half cb :
  state cb = StateOpen → transitionTo StateHalfOpen cb = set_state StateHalfOpen cb.
Proof. intros E. unfold transitionTo. by rewrite E. Qed.

(** Leaving a state for an open or closed breaker frees every slot. *)
Lemma transitionTo_reset s cb :
  state cb ≠ s → s ≠ StateHalfOpen → transitionTo s cb = set_inFlight 0 (set_state s cb).
Proof. intros ? ?. unfold transitionTo. by rewrite !decide_False by done. Qed.

Lemma release_spec cb :
  inv cb → releaseHalfOpenRequest cb = set_inFlight (Z.max 0 (halfOpenInFlight cb - 1)) cb.
Proof.
  intros (Hcfg & _ & Hin & _). pose proof (half_open_limit_small _ Hcfg).
  unfold releaseHalfOpenRequest. case_match.
  - destruct cb; unfold set_inFlight; simpl in *. f_equal. lia.
  - rewrite i32_id by word. f_equal. lia.
Qed.

(** The statistics do not matter to the invariant. *)
Lemma inv_stats cb n m t :
  inv cb → inv (set_requests n cb) ∧ inv (set_lastFailureTime t (set_failures m (set_requests n cb))).
Proof. done. Qed.

Lemma Allow_inv now cb : inv cb → inv (Allow now cb).2.
Proof.
  intros Hinv. unfold Allow. destruct (state cb) eqn:Es; [done| |].
  - case_match; [|done]. rewrite transitionTo_half by done.
    assert (inv (set_state StateHalfOpen cb)) as Hi by inv_solve.
    rewrite allowHalfOpenRequest_spec by done. case_match; [|done]. inv_solve.
  - rewrite allowHalfOpenRequest_spec by done. case_match; [|done]. inv_solve.
Qed.

Lemma RecordSuccess_inv cb : inv cb → inv (RecordSuccess cb).
Proof.
  intros Hinv. destruct (inv_stats cb (i64 (requests cb + 1)) 0 0 Hinv) as [Hi _].
  unfold RecordSuccess. simpl. destruct (state cb) eqn:Es; [inv_solve|done|].
  rewrite release_spec by done. simpl.
  rewrite i32_id by (unfold inv, config_ok in Hinv; word). case_match.
  - rewrite transitionTo_reset by (simpl; congruence). inv_solve.
  - pose proof (half_open_limit_pos (config cb)). inv_solve.
Qed.

Lemma closed_count_small cb :
  inv cb → state cb = StateClosed → 0 ≤ failureCount cb < 2 ^ 31 - 1.
Proof. intros ([? ?] & ? & ? & ? & ? & Hc) Es. specialize (Hc Es). lia. Qed.

Lemma RecordFailure_inv now cb : inv cb → inv (RecordFailure now cb).
Proof.
  intros Hinv. destruct (inv_stats cb (i64 (requests cb + 1)) (i64 (failures cb + 1)) (UnixNano now) Hinv)
    as [_ Hi].
  unfold RecordFailure. simpl. destruct (state cb) eqn:Es; [|done|].
  - pose proof (closed_count_small cb Hinv Es). rewrite i32_id by word. case_match.
    + rewrite transitionTo_reset by (simpl; congruence). inv_solve.
    + inv_solve.
  - rewrite release_spec by done. rewrite transitionTo_reset by (simpl; congruence).
    pose proof (half_open_limit_pos (config cb)). inv_solve.
Qed.

Lemma step_inv cb e : inv cb → inv (step cb e).
Proof. destruct e; simpl; [apply Allow_inv|apply RecordSuccess_inv|apply RecordFailure_inv]. Qed.

#[export] Hint Resolve inv_New Allow_inv RecordSuccess_inv RecordFailure_inv step_inv : gint.

Lemma run_inv cb es : inv cb → inv (run cb es).
Proof.
  unfold run. revert cb. induction es as [|e es IH]; intros cb H; simpl; [done|].
  auto with gint.
Qed.

Lemma step_config cb e : config (step cb e) = config cb.
Proof.
  destruct e; simpl; unfold Allow, RecordSuccess, RecordFailure, allowHalfOpenRequest,
    releaseHalfOpenRequest, transitionTo; repeat (case_match; simplify_eq/=); done.
Qed.

Lemma run_config cb es : config (run cb es) = config cb.
Proof.
  unfold run. revert cb. induction es as [|e es IH]; intros cb; simpl; [done|].
  by rewrite IH, step_config.
Qed.

(** ** Tripping *)

Lemma max_streak_ge cur best os : best ≤ max_streak cur best os.
Proof.
  revert cur best. induction os as [|[t|] os IH]; intros cur best; simpl; [done| |auto].
  specialize (IH (cur + 1) (Z.max best (cur + 1))). lia.
Qed.

(** An open breaker stays open while nothing asks for admission. *)
Lemma open_stays os cb :
  state cb = StateOpen → state (run cb (map outcome_event os)) = StateOpen.
Proof.
  unfold run. revert cb. induction os as [|[t|] os IH]; intros cb E; simpl; [done|apply IH|apply IH].
  - unfold RecordFailure. simpl. by rewrite E.
  - unfold RecordSuccess. simpl. by rewrite E.
Qed.

Lemma closed_run os cb best :
  inv cb → state cb = StateClosed →
  failureCount cb ≤ best < FailureThreshold (config cb) →
  state (run cb (map outcome_event os)) =
    if FailureThreshold (config cb) <=? max_streak (failureCount cb) best os
    then StateOpen else StateClosed.
Proof.
  revert cb best. induction os as [|o os IH]; intros cb best Hinv E Hb.
  { simpl. rewrite E. case_match; [lia|done]. }
  change (run cb (map outcome_event (o :: os)))
    with (run (step cb (outcome_event o)) (map outcome_event os)).
  pose proof (step_inv cb (outcome_event o) Hinv) as Hinv'.
  pose proof (step_config cb (outcome_event o)) as Hcfg.
  destruct o as [t|]; cbn [outcome_event step] in *.
  - pose proof (closed_count_small cb Hinv E) as Hsmall.
    assert (failureCount cb < FailureThreshold (config cb)) as Hlt by (by apply Hinv).
    cbn [max_streak]. unfold RecordFailure in *. cbn [state set_requests set_failures set_lastFailureTime
      failureCount config set_failureCount] in *. rewrite E in *.
    rewrite i32_id in * by word. case_match eqn:Et.
    + rewrite open_stays by (rewrite transitionTo_reset by (simpl; congruence); done).
      pose proof (max_streak_ge (failureCount cb + 1) (Z.max best (failureCount cb + 1)) os).
      case_match; [done|lia].
    + rewrite (IH _ (Z.max best (failureCount cb + 1))); [done|done|done|simpl; lia].
  - cbn [max_streak]. unfold RecordSuccess in *. cbn [state set_requests] in *. rewrite E in *.
    rewrite (IH _ best); [done|done|done|]. simpl. destruct Hinv as (_ & [? _] & _). lia.
Qed.

(** ** Recovery *)

Lemma admissions_half_open cb nows :
  inv cb → state cb = StateHalfOpen →
  ∃ cb', admissions cb nows =
      (replicate (Nat.min (length nows) (Z.to_nat (half_open_limit (config cb) - halfOpenInFlight cb))) true ++
       replicate (length nows - Z.to_nat (half_open_limit (config cb) - halfOpenInFlight cb)) false, cb') ∧
    inv cb' ∧ state cb' = StateHalfOpen ∧ config cb' = config cb ∧ successCount cb' = successCount cb.
Proof.
  revert cb. induction nows as [|now nows IH]; intros cb Hinv E; [by exists cb|].
  pose proof (Allow_inv now cb Hinv) as HAinv. cbn [admissions].
  assert (Allow now cb = allowHalfOpenRequest cb) as HA by (unfold Allow; by rewrite E).
  rewrite HA in *. rewrite allowHalfOpenRequest_spec in * by done. case_match eqn:Hlt.
  - destruct (IH (set_inFlight (halfOpenInFlight cb + 1) cb) HAinv E) as (cb' & -> & ? & ? & ? & ?).
    exists cb'. split; [|done]. simpl.
    replace (Z.to_nat (half_open_limit (config cb) - halfOpenInFlight cb))
      with (S (Z.to_nat (half_open_limit (config cb) - (halfOpenInFlight cb + 1)))) by lia. done.
  - destruct (IH cb Hinv E) as (cb' & -> & ? & ? & ? & ?). exists cb'. split; [|done].
    replace (Z.to_nat (half_open_limit (config cb) - halfOpenInFlight cb)) with 0%nat by lia.
    rewrite !Nat.min_0_r, !Nat.sub_0_r. done.
Qed.

Lemma successes_stay_closed n cb :
  state cb = StateClosed → state (run cb (replicate n ESuccess)) = StateClosed.
Proof.
  unfold run. revert cb. induction n as [|n IH]; intros cb E; simpl; [done|]. apply IH.
  unfold RecordSuccess. simpl. by rewrite E.
Qed.

Lemma half_open_successes n cb :
  inv cb → state cb = StateHalfOpen →
  state (run cb (replicate n ESuccess)) =
    if SuccessThreshold (config cb) <=? successCount cb + Z.of_nat n
    then StateClosed else StateHalfOpen.
Proof.
  revert cb. induction n as [|n IH]; intros cb Hinv E.
  { simpl. rewrite E, Z.add_0_r. destruct Hinv as (_ & _ & _ & ? & _). case_match; [lia|done]. }
  change (run cb (replicate (S n) ESuccess)) with (run (RecordSuccess cb) (replicate n ESuccess)).
  pose proof (RecordSuccess_inv cb Hinv) as Hinv'.
  assert (i32 (successCount cb + 1) = successCount cb + 1) as Hi.
  { apply i32_id. destruct Hinv as ([? ?] & _ & _ & ? & _). word. }
  destruct (decide (SuccessThreshold (config cb) ≤ successCount cb + 1)) as [Hle|Hgt].
  - rewrite successes_stay_closed; [case_match; [done|zlia]|].
    unfold RecordSuccess. simpl. rewrite E, release_spec by done. simpl. rewrite Hi.
    case_match; [|lia]. by rewrite transitionTo_reset by (simpl; congruence).
  - assert (state (RecordSuccess cb) = StateHalfOpen ∧ config (RecordSuccess cb) = config cb ∧
            successCount (RecordSuccess cb) = successCount cb + 1) as (E' & Hc & Hs).
    { unfold RecordSuccess. simpl. rewrite E, release_spec by done. simpl. rewrite Hi.
      case_match; [lia|done]. }
    rewrite IH, Hc, Hs by done. repeat case_match; done || zlia.
Qed.

Lemma half_open_failure now cb :
  inv cb → state cb = StateHalfOpen →
  state (RecordFailure now cb) = StateOpen ∧ lastFailureTime (RecordFailure now cb) = UnixNano now.
Proof.
  intros Hinv E. unfold RecordFailure. simpl. rewrite E, release_spec by done.
  by rewrite transitionTo_reset by (simpl; congruence).
Qed.

(** ** Probe slots *)

Lemma length_drop_id r l :
  NoDup l → r ∈ l → Z.of_nat (length (drop_id r l)) = Z.of_nat (length l) - 1.
Proof.
  intros Hnd Hr. unfold drop_id. induction l as [|x l IH]; [set_solver|].
  apply NoDup_cons in Hnd as [Hx Hnd]. rewrite filter_cons. case_decide as Hd.
  - cbn [length]. rewrite !Nat2Z.inj_succ, IH; [lia|done|set_solver].
  - assert (x = r) as -> by (by destruct (decide (x = r))).
    assert (filter (λ y, y ≠ r) l = l) as ->.
    { apply filter_all. apply Forall_forall. intros y Hy ->. done. }
    cbn [length]. lia.
Qed.

Lemma NoDup_drop_id r l : NoDup l → NoDup (drop_id r l).
Proof. apply NoDup_filter. Qed.

Lemma tracked_New_ok cfg : config_ok cfg → tracked_ok (tracked_New cfg).
Proof. intros H. split; [by apply inv_New|]. split; [constructor|done]. Qed.

Lemma tracked_ok_retrack cb ps os :
  inv cb → NoDup ps →
  (state cb = StateHalfOpen → Z.of_nat (length ps) = halfOpenInFlight cb) →
  tracked_ok (retrack cb ps os).
Proof.
  intros Hinv Hnd Hlen. unfold retrack, tracked_ok. case_decide; simpl.
  - rewrite decide_True by done. auto.
  - rewrite decide_False by done. split; [done|]. split; [constructor|done].
Qed.

Lemma tracked_begin_ok s r now :
  tracked_ok s → r ∉ probes s → tracked_ok (tracked_step s (Begin r now)).
Proof.
  intros (Hinv & Hnd & Hlen) Hr. pose proof (Allow_inv now (tcb s) Hinv) as Hinv'. simpl.
  destruct (Allow now (tcb s)) as [ok cb'] eqn:HA.
  apply tracked_ok_retrack; [done|destruct ok; [by constructor|done]|]. intros E'.
  unfold Allow in HA. destruct (state (tcb s)) eqn:E; simpl in Hlen; simplify_eq.
  - congruence.
  - case_match; [|simplify_eq; congruence]. rewrite transitionTo_half in HA by done.
    rewrite allowHalfOpenRequest_spec in HA by inv_solve. simpl in HA. rewrite Hlen.
    assert (halfOpenInFlight (tcb s) = 0) as H0 by (apply Hinv; congruence).
    case_match; simplify_eq; simpl; lia.
  - rewrite allowHalfOpenRequest_spec in HA by done. case_match; simplify_eq; simpl; lia.
Qed.

(** How a finishing request changes the slots of a breaker that stays half-open. *)
Lemma finish_half_open cb ok now :
  inv cb → state (record_outcome ok now cb) = StateHalfOpen →
  state cb = StateHalfOpen ∧
  halfOpenInFlight (record_outcome ok now cb) = Z.max 0 (halfOpenInFlight cb - 1).
Proof.
  intros Hinv E'. destruct ok; simpl in *.
  - revert E'. unfold RecordSuccess. simpl. destruct (state cb) eqn:E; simpl; [congruence..|].
    rewrite release_spec by done. simpl. case_match; simpl; [|done].
    by rewrite transitionTo_reset by (simpl; congruence).
  - revert E'. unfold RecordFailure. simpl. destruct (state cb) eqn:E; simpl; [|congruence|].
    + case_match; simpl; [|congruence]. by rewrite transitionTo_reset by (simpl; congruence).
    + rewrite release_spec by done. by rewrite transitionTo_reset by (simpl; congruence).
Qed.

Lemma tracked_finish_ok s r ok now :
  tracked_ok s → no_straggler s (Finish r ok now) → tracked_ok (tracked_step s (Finish r ok now)).
Proof.
  intros (Hinv & Hnd & Hlen) Hns. simpl.
  apply tracked_ok_retrack; [destruct ok; simpl; auto with gint|by apply NoDup_drop_id|]. intros E'.
  destruct (finish_half_open (tcb s) ok now Hinv E') as [E Hf]. specialize (Hns E).
  rewrite E in Hlen. simpl in Hlen. rewrite Hf, length_drop_id by done.
  destruct (probes s); [set_solver|]. cbn [length] in *. lia.
Qed.

Lemma tracked_run_ok acts s : tracked_ok s → no_stragglers s acts → tracked_ok (tracked_run s acts).
Proof.
  unfold tracked_run. revert s. induction acts as [|a acts IH]; intros s Hs Hns; simpl; [done|].
  destruct Hns as [Ha Hns]. apply IH; [|done]. destruct a as [r now|r ok now].
  - apply tracked_begin_ok; [done|apply Ha].
  - by apply tracked_finish_ok.
Qed.

(** Without that discipline the limit fails: a request admitted while the
    breaker was closed finishes during the half-open period, frees a slot it
    never held, and a second probe runs beside the first. *)
Lemma half_open_limit_breached :
  half_open_limit sample_config = 1 ∧
  probes (tracked_run (tracked_New sample_config) straggler_trace) = [4; 3]%nat.
Proof. done. Qed.

(** ** The middleware's slots *)

Section MiddlewareLemmas.
Context {Req : Type}.
Implicit Types b : Builder Req.

Lemma get_set_slot b s cb : get_slot (set_slot b s cb) s = cb.
Proof. destruct s; simpl; [by rewrite lookup_insert_eq|done]. Qed.

Lemma get_set_slot_ne b s s' cb :
  s' ≠ s → config cb = config (get_slot b s) → get_slot (set_slot b s cb) s' = get_slot b s'.
Proof.
  intros Hne Hcfg. destruct s as [k|], s' as [k'|]; simpl in *; [| |by rewrite Hcfg|done].
  - by rewrite lookup_insert_ne by congruence.
  - done.
Qed.

Lemma set_slot_judge b s cb : judgeFunc (set_slot b s cb) = judgeFunc b.
Proof. by destruct s. Qed.

(** Storing a new breaker for a key and then updating it is one update. *)
Lemma handler_before_spec b c now :
  let s := slot b c in
  ((handler_before now c b).1 = Proceed s ↔ (Allow now (get_slot b s)).1 = true) ∧
  (handler_before now c b).2 = set_slot b s (Allow now (get_slot b s)).2 ∧
  judgeFunc (handler_before now c b).2 = judgeFunc b.
Proof.
  cbv zeta. unfold handler_before, getBreaker.
  destruct (Allow now (get_slot b (slot b c))) as [ok cb'] eqn:HA.
  assert (∀ b0, b0 = b ∨ b0 = set_slot b (slot b c) (get_slot b (slot b c)) →
            set_slot b0 (slot b c) cb' = set_slot b (slot b c) cb') as Hset.
  { intros b0 [->| ->]; [done|]. destruct (slot b c); simpl; [|done]. by rewrite insert_insert_eq. }
  match goal with |- context [set_slot ?x (slot b c) cb'] => rewrite (Hset x) end.
  - simpl. destruct ok; simpl; [|case_match; simpl]; by rewrite set_slot_judge.
  - destruct (slot b c) as [k|]; [|auto]. case_match; auto.
Qed.

End MiddlewareLemmas.

(** ** Properties *)

(** C38. Safety of every breaker reached by whole calls, in any order: the slots
    in use are between zero and the half-open limit and all free outside the
    half-open state, a closed breaker has seen fewer failures than its
    threshold, and the success count never reaches its threshold. *)
Theorem breaker_invariant cfg es :
  config_ok cfg →
  let cb := run (New [cfg]) es in
  0 ≤ halfOpenInFlight cb ≤ half_open_limit cfg ∧
  (state cb ≠ StateHalfOpen → halfOpenInFlight cb = 0 ∧ successCount cb = 0) ∧
  (state cb = StateClosed → 0 ≤ failureCount cb < FailureThreshold cfg) ∧
  0 ≤ successCount cb < SuccessThreshold cfg.
Proof.
  intros Hcfg cb. assert (inv cb) as Hinv by (apply run_inv, inv_New, Hcfg).
  assert (config cb = cfg) as E by apply run_config. unfold inv in Hinv. rewrite E in Hinv.
  destruct Hinv as (_ & Hf & Hi & Hs & Hn & Hc). split_and!; try done; try lia.
  intros E'. specialize (Hc E'). lia.
Qed.

Lemma breaker_invariant_witness :
  0 ≤ halfOpenInFlight (run (New [sample_config]) [EFailure 10; EAllow 120; EAllow 121]) ≤ 1.
Proof.
  apply (breaker_invariant sample_config [EFailure 10; EAllow 120; EAllow 121]).
  unfold config_ok; simpl; lia.
Defined.

(** The breaker trips exactly when [FailureThreshold] failures come in a row,
    a success in between starting the count again. *)
Theorem breaker_trips_exactly cfg outcomes :
  config_ok cfg →
  state (run (New [cfg]) (map outcome_event outcomes)) =
    if FailureThreshold cfg <=? max_streak 0 0 outcomes then StateOpen else StateClosed.
Proof.
  intros Hcfg. rewrite (closed_run outcomes (New [cfg]) 0); [done|by apply inv_New|done|].
  simpl. destruct Hcfg. lia.
Qed.

Lemma breaker_trips_exactly_witness :
  state (run (New [mkConfig 2 1 5 1]) (map outcome_event [Some 1; None; Some 2; Some 3])) = StateOpen.
Proof.
  rewrite (breaker_trips_exactly (mkConfig 2 1 5 1)); [reflexivity|unfold config_ok; simpl; lia].
Defined.

(** The recovery cycle of an open breaker: before the timeout since the last
    failure nothing is admitted; from the timeout on, of any burst exactly the
    half-open limit is admitted; then as many successes as the threshold close
    the breaker, fewer leave it half-open, and one failure opens it again. *)
Theorem breaker_recovery cb :
  inv cb → state cb = StateOpen →
  (∀ now, time_sub now (lastFailureTime cb) < Timeout (config cb) → Allow now cb = (false, cb)) ∧
  (∀ now nows, Timeout (config cb) ≤ time_sub now (lastFailureTime cb) →
     let n := S (length nows) in
     let limit := Z.to_nat (half_open_limit (config cb)) in
     ∃ cb', admissions cb (now :: nows) =
         (replicate (Nat.min n limit) true ++ replicate (n - limit) false, cb') ∧
       state cb' = StateHalfOpen ∧
       (∀ k, state (run cb' (replicate k ESuccess)) =
             if SuccessThreshold (config cb) <=? Z.of_nat k then StateClosed else StateHalfOpen) ∧
       ∀ t, state (RecordFailure t cb') = StateOpen ∧ lastFailureTime (RecordFailure t cb') = UnixNano t).
Proof.
  intros Hinv E. split.
  - intros now Hlt. unfold Allow. rewrite E. case_match; [zlia|done].
  - intros now nows Hle n limit. destruct (proj1 (proj2 (proj2 (proj2 (proj2 Hinv)))) ltac:(congruence)) as [Hfl Hsc].
    assert (inv (set_state StateHalfOpen cb)) as Hinv' by inv_solve.
    destruct (admissions_half_open (set_state StateHalfOpen cb) (now :: nows) Hinv' eq_refl)
      as (cb' & Hadm & Hinv2 & E2 & Hcfg & Hs).
    exists cb'. split; [|split; [done|split]].
    + cbn [halfOpenInFlight config set_state] in Hadm. rewrite Hfl, Z.sub_0_r in Hadm.
      unfold n, limit. change (S (length nows)) with (length (now :: nows)). rewrite <- Hadm. cbn [admissions]. unfold Allow. rewrite E. cbn [state set_state].
      destruct (Z.leb_spec (Timeout (config cb)) (time_sub now (lastFailureTime cb))); [|lia].
      by rewrite transitionTo_half.
    + intros k. rewrite half_open_successes, Hcfg, Hs by done. cbn [successCount set_state config].
      by rewrite Hsc, Z.add_0_l.
    + intros t. by apply half_open_failure.
Qed.

Lemma breaker_recovery_witness :
  Allow 50 (RecordFailure 10 (New [sample_config])) = (false, RecordFailure 10 (New [sample_config])).
Proof.
  apply (breaker_recovery (RecordFailure 10 (New [sample_config]))); [|reflexivity|reflexivity].
  apply RecordFailure_inv, inv_New. unfold config_ok; simpl; lia.
Defined.

(** The probe limit, for requests whose calls do not interleave: as long as
    no request from before the current half-open period finishes inside it, the
    probes running at once never exceed the half-open limit, and each holds
    exactly one slot. *)
Theorem probes_within_limit cfg acts :
  config_ok cfg → no_stragglers (tracked_New cfg) acts →
  let s := tracked_run (tracked_New cfg) acts in
  Z.of_nat (length (probes s)) ≤ half_open_limit (config (tcb s)) ∧
  (state (tcb s) = StateHalfOpen → Z.of_nat (length (probes s)) = halfOpenInFlight (tcb s)) ∧
  (state (tcb s) ≠ StateHalfOpen → probes s = []).
Proof.
  intros Hcfg Hns s.
  destruct (tracked_run_ok acts _ (tracked_New_ok cfg Hcfg) Hns) as (Hinv & _ & Hlen).
  fold s in Hinv, Hlen. pose proof (half_open_limit_pos (config (tcb s))).
  destruct Hinv as (_ & _ & Hi & _). case_decide.
  - split_and!; [lia|done|done].
  - rewrite Hlen. simpl. split_and!; [lia|done|done].
Qed.

Lemma probes_within_limit_witness :
  Z.of_nat (length (probes (tracked_run (tracked_New sample_config)
    [Begin 1 0; Finish 1 false 10; Begin 3 110; Begin 4 112]))) ≤ 1.
Proof.
  apply (probes_within_limit sample_config
    [Begin 1 0; Finish 1 false 10; Begin 3 110; Begin 4 112]).
  - unfold config_ok; simpl; lia.
  - apply (bool_decide_unpack _). vm_compute. exact I.
Defined.

(** Keyed isolation in the middleware: a request proceeds exactly when the
    breaker of its own key admits it, its outcome is recorded on that breaker,
    and neither half of the handler touches the breaker of any other key. *)
Theorem keyed_isolation {Req} (b : Builder Req) (c : Req) now :
  let s := slot b c in
  let v := (handler_before now c b).1 in
  let b' := (handler_before now c b).2 in
  (v = Proceed s ↔ (Allow now (get_slot b s)).1 = true) ∧
  get_slot b' s = (Allow now (get_slot b s)).2 ∧
  (∀ s', s' ≠ s → get_slot b' s' = get_slot b s') ∧
  (∀ later status, judgeFunc b = None →
     get_slot (handler_after later c s status b') s =
       record_outcome (status <? 500) later (get_slot b' s)) ∧
  (∀ later status s', s' ≠ s → get_slot (handler_after later c s status b') s' = get_slot b' s').
Proof.
  cbv zeta. pose proof (handler_before_spec b c now) as (Hv & Hb & Hj).
  split; [done|]. rewrite Hb. split; [by rewrite get_set_slot|]. split.
  { intros s' Hs'. apply get_set_slot_ne; [done|]. apply (step_config _ (EAllow now)). }
  split.
  - intros later status Hn. unfold handler_after.
    rewrite set_slot_judge, Hn, !get_set_slot. unfold record_outcome.
    destruct (500 <=? status) eqn:E1, (status <? 500) eqn:E2; try done; lia.
  - intros later status s' Hs'. unfold handler_after. apply get_set_slot_ne; [done|].
    rewrite get_set_slot. case_match; [apply (step_config _ (EFailure later))|apply (step_config _ ESuccess)].
Qed.

End CircuitBreaker.
