(* ===== verification/BreakerSteps.v ===== *)
(** * The circuit breaker's atomics (src/middlewares/circuitbreaker/middleware.go)

    The breaker has no lock: its methods are sequences of accesses to separate
    atomics.  Here each method is a program whose steps are those accesses, so
    that requests interleave between any two of them.  A call that meets no
    interference is one transition of [CircuitBreaker.v]; a burst of [Allow]
    calls admits the same number of requests whatever their interleaving; and
    two interleavings with [RecordFailure] lose a slot for good. *)

From S2P Require Import Prelude CircuitBreaker.

Module BreakerSteps.

Import CircuitBreaker.CircuitBreaker.

(** ** Programs over the atomics *)

(** [Act] is one access, given the time and the breaker; [Release] and
    [ReleaseCAS] are the two points of the compare-and-swap loop. *)
Inductive Prog : Type :=
| Ret (answer : bool)
| Act (X : Type) (f : Time → CircuitBreaker → X * CircuitBreaker) (k : X → Prog)
| Release (k : Prog)
| ReleaseCAS (current : Z) (k : Prog).
Arguments Act {X} f k.

Definition tick (now : Time) (p : Prog) (cb : CircuitBreaker) : Prog * CircuitBreaker :=
  match p with
  | Ret _ => (p, cb)
  | Act f k => let '(x, cb) := f now cb in (k x, cb)
  | Release k =>
      if halfOpenInFlight cb <=? 0 then (k, cb) else (ReleaseCAS (halfOpenInFlight cb) k, cb)
  | ReleaseCAS current k =>
      if halfOpenInFlight cb =? current then (k, set_inFlight (i32 (current - 1)) cb)
      else (Release k, cb)
  end.

(** Loads, stores, additions and swaps. *)
Definition load {X} (f : CircuitBreaker → X) : Time → CircuitBreaker → X * CircuitBreaker :=
  λ _ cb, (f cb, cb).

Definition store (f : CircuitBreaker → CircuitBreaker) : Time → CircuitBreaker → unit * CircuitBreaker :=
  λ _ cb, ((), f cb).

Definition clock : Time → CircuitBreaker → Time * CircuitBreaker := λ now cb, (now, cb).

Definition swap_state (s : State) : Time → CircuitBreaker → State * CircuitBreaker :=
  λ _ cb, (state cb, set_state s cb).

Definition add_inFlight (d : Z) : Time → CircuitBreaker → Z * CircuitBreaker :=
  λ _ cb, let current := i32 (halfOpenInFlight cb + d) in (current, set_inFlight current cb).

Definition add_failureCount : Time → CircuitBreaker → Z * CircuitBreaker :=
  λ _ cb, let count := i32 (failureCount cb + 1) in (count, set_failureCount count cb).

Definition add_successCount : Time → CircuitBreaker → Z * CircuitBreaker :=
  λ _ cb, let count := i32 (successCount cb + 1) in (count, set_successCount count cb).

Section Methods.
Variable cfg : Config.

Definition transitionTo_p (s : State) (k : Prog) : Prog :=
  Act (swap_state s) (λ oldState,
    if decide (oldState = s) then k
    else if decide (s = StateHalfOpen) then k
    else Act (store (set_inFlight 0)) (λ _, k)).

Definition allowHalfOpenRequest_p : Prog :=
  Act (add_inFlight 1) (λ current,
    if half_open_limit cfg <? current then Act (add_inFlight (-1)) (λ _, Ret false) else Ret true).

Definition Allow_p : Prog :=
  Act (load state) (λ s,
    match s with
    | StateClosed => Ret true
    | StateOpen =>
        Act (load lastFailureTime) (λ last,
        Act clock (λ now,
          if Timeout cfg <=? time_sub now last
          then transitionTo_p StateHalfOpen allowHalfOpenRequest_p else Ret false))
    | StateHalfOpen => allowHalfOpenRequest_p
    end).

Definition RecordSuccess_p : Prog :=
  Act (store (λ cb, set_requests (i64 (requests cb + 1)) cb)) (λ _,
  Act (load state) (λ s,
    match s with
    | StateClosed => Act (store (set_failureCount 0)) (λ _, Ret true)
    | StateHalfOpen =>
        Release (Act add_successCount (λ count,
          if SuccessThreshold cfg <=? count
          then transitionTo_p StateClosed
                 (Act (store (set_failureCount 0)) (λ _, Act (store (set_successCount 0)) (λ _, Ret true)))
          else Ret true))
    | StateOpen => Ret true
    end)).

Definition RecordFailure_p : Prog :=
  Act (store (λ cb, set_requests (i64 (requests cb + 1)) cb)) (λ _,
  Act (store (λ cb, set_failures (i64 (failures cb + 1)) cb)) (λ _,
  Act clock (λ now,
  Act (store (set_lastFailureTime (UnixNano now))) (λ _,
  Act (load state) (λ s,
    match s with
    | StateClosed =>
        Act add_failureCount (λ count,
          if FailureThreshold cfg <=? count then transitionTo_p StateOpen (Ret true) else Ret true)
    | StateHalfOpen =>
        Release (transitionTo_p StateOpen (Act (store (set_successCount 0)) (λ _, Ret true)))
    | StateOpen => Ret true
    end))))).

End Methods.

(** The call of an event, its clock, and its answer (true for a record). *)
Definition call (cfg : Config) (e : Event) : Prog :=
  match e with
  | EAllow _ => Allow_p cfg
  | ESuccess => RecordSuccess_p cfg
  | EFailure _ => RecordFailure_p cfg
  end.

Definition event_time (e : Event) : Time :=
  match e with EAllow t | EFailure t => t | ESuccess => 0 end.

Definition event_answer (cb : CircuitBreaker) (e : Event) : bool :=
  match e with EAllow t => (Allow t cb).1 | _ => true end.

(** [n] steps of one call alone. *)
Fixpoint alone (n : nat) (now : Time) (p : Prog) (cb : CircuitBreaker) : Prog * CircuitBreaker :=
  match n with
  | O => (p, cb)
  | S n => let '(p, cb) := tick now p cb in alone n now p cb
  end.

(** The program answers [a] in at most [n] steps and leaves the breaker [cb']. *)
Definition runs (now : Time) (n : nat) (p : Prog) (cb : CircuitBreaker) (a : bool) (cb' : CircuitBreaker) : Prop :=
  ∀ m, (n ≤ m)%nat → alone m now p cb = (Ret a, cb').

(** No call, alone, takes more steps than this. *)
Definition call_steps : nat := 12.

(** Calls made one after the other: the answers and the breaker, if every
    call ended. *)
Fixpoint calls (cb : CircuitBreaker) (es : list Event) : option (list bool * CircuitBreaker) :=
  match es with
  | [] => Some ([], cb)
  | e :: es =>
      match alone call_steps (event_time e) (call (config cb) e) cb with
      | (Ret answer, cb) => '(answers, cb) ← calls cb es; Some (answer :: answers, cb)
      | _ => None
      end
  end.

(** The answers of the same calls as transitions. *)
Fixpoint answers (cb : CircuitBreaker) (es : list Event) : list bool :=
  match es with
  | [] => []
  | e :: es => event_answer cb e :: answers (step cb e) es
  end.

(** ** Interleavings: a schedule names who steps next, and when *)

Record Pool := mkPool { threads : list Prog; shared : CircuitBreaker }.

Definition pool_step (s : Pool) (who : nat * Time) : Pool :=
  match threads s !! who.1 with
  | Some p => let '(p, cb) := tick who.2 p (shared s) in mkPool (<[who.1 := p]> (threads s)) cb
  | None => s
  end.

Definition pool_run (s : Pool) (sched : list (nat * Time)) : Pool := foldl pool_step s sched.

Definition burst (n : nat) (cb : CircuitBreaker) : Pool :=
  mkPool (replicate n (Allow_p (config cb))) cb.

(** How often a thread is scheduled. *)
Definition turns (i : nat) (sched : list (nat * Time)) : Z :=
  countb (λ who, Nat.eqb who.1 i) sched.

Definition answered (b : bool) (p : Prog) : bool :=
  match p with Ret a => Bool.eqb a b | _ => false end.

Definition finished (p : Prog) : bool :=
  match p with Ret _ => true | _ => false end.

(** *** The points of an [Allow] in a burst *)

Inductive Phase :=
| PStart | PLast | PClock (last : Z) | PSwap | PAdd | PUndo | PDone (answer : bool).

Definition prog_of (cfg : Config) (p : Phase) : Prog :=
  match p with
  | PStart => Allow_p cfg
  | PLast =>
      Act (load lastFailureTime) (λ last,
      Act clock (λ now,
        if Timeout cfg <=? time_sub now last
        then transitionTo_p StateHalfOpen (allowHalfOpenRequest_p cfg) else Ret false))
  | PClock last =>
      Act clock (λ now,
        if Timeout cfg <=? time_sub now last
        then transitionTo_p StateHalfOpen (allowHalfOpenRequest_p cfg) else Ret false)
  | PSwap => transitionTo_p StateHalfOpen (allowHalfOpenRequest_p cfg)
  | PAdd => allowHalfOpenRequest_p cfg
  | PUndo => Act (add_inFlight (-1)) (λ _, Ret false)
  | PDone answer => Ret answer
  end.

(** Steps left, at most. *)
Definition rank (p : Phase) : Z :=
  match p with
  | PStart => 6 | PLast => 5 | PClock _ => 4 | PSwap => 3 | PAdd => 2 | PUndo => 1 | PDone _ => 0
  end.

Definition is_admitted (p : Phase) : bool := match p with PDone true => true | _ => false end.

Definition is_undo (p : Phase) : bool := match p with PUndo => true | _ => false end.

Definition is_rejected (p : Phase) : bool := match p with PUndo | PDone false => true | _ => false end.

(** The phases that only a half-open breaker sees. *)
Definition past_swap (p : Phase) : bool :=
  match p with PAdd | PUndo | PDone _ => true | _ => false end.

(** The step of an [Allow] in a burst. *)
Definition phase_step (cfg : Config) (now : Time) (p : Phase) (cb : CircuitBreaker) : Phase * CircuitBreaker :=
  match p with
  | PStart =>
      (match state cb with StateClosed => PDone true | StateOpen => PLast | StateHalfOpen => PAdd end, cb)
  | PLast => (PClock (lastFailureTime cb), cb)
  | PClock last => (if Timeout cfg <=? time_sub now last then PSwap else PDone false, cb)
  | PSwap => (PAdd, set_state StateHalfOpen cb)
  | PAdd =>
      let current := i32 (halfOpenInFlight cb + 1) in
      (if half_open_limit cfg <? current then PUndo else PDone true, set_inFlight current cb)
  | PUndo => (PDone false, set_inFlight (i32 (halfOpenInFlight cb - 1)) cb)
  | PDone answer => (PDone answer, cb)
  end.

(** What a phase says of the breaker. *)
Definition phase_ok (cb : CircuitBreaker) (p : Phase) : Prop :=
  match p with
  | PClock last => last = lastFailureTime cb
  | PAdd | PUndo | PDone _ => state cb = StateHalfOpen
  | _ => True
  end.

(** A breaker [cb] that started open as [cb0], with a burst in phases [ps]. *)
Definition burst_inv (cb0 : CircuitBreaker) (ps : list Phase) (cb : CircuitBreaker) : Prop :=
  config cb = config cb0 ∧ lastFailureTime cb = lastFailureTime cb0 ∧ state cb ≠ StateClosed ∧
  Forall (phase_ok cb) ps ∧
  halfOpenInFlight cb = countb is_admitted ps + countb is_undo ps ∧
  countb is_admitted ps ≤ half_open_limit (config cb0) ∧
  (0 < countb is_rejected ps → countb is_admitted ps = half_open_limit (config cb0)).

(** A request that has loaded the half-open state takes its slot only after
    the breaker has opened again, and finishes before the next period. *)
Definition lost_slot : list Prog :=
  let cfg := mkConfig 1 1 100 1 in
  [RecordFailure_p cfg; Allow_p cfg; Allow_p cfg; RecordFailure_p cfg; RecordSuccess_p cfg].

Definition lost_slot_schedule : list (nat * Time) :=
  replicate 12 (0%nat, 0) ++ replicate 6 (1%nat, 100) ++ [(2%nat, 101)] ++
  replicate 12 (3%nat, 102) ++ [(2%nat, 103)] ++ replicate 12 (4%nat, 104).

(** ** Lemmas *)

(** *** One call alone *)

Lemma runs_Ret now n a cb : runs now n (Ret a) cb a cb.
Proof. intros m _. by induction m. Qed.

Lemma runs_Act {X} now n (f : Time → CircuitBreaker → X * CircuitBreaker) k cb a cb' :
  runs now n (k (f now cb).1) (f now cb).2 a cb' → runs now (S n) (Act f k) cb a cb'.
Proof. intros H [|m] Hm; [lia|]. simpl. destruct (f now cb). apply H. lia. Qed.

Lemma runs_weaken now n n' p cb a cb' :
  runs now n p cb a cb' → (n ≤ n')%nat → runs now n' p cb a cb'.
Proof. intros H Hn m Hm. apply H. lia. Qed.

(** Without interference the compare-and-swap loop runs once. *)
Lemma runs_Release now n k cb a cb' :
  runs now n k (releaseHalfOpenRequest cb) a cb' → runs now (S (S n)) (Release k) cb a cb'.
Proof.
  unfold releaseHalfOpenRequest. intros H [|[|m]] Hm; [lia..|]. cbn [alone tick].
  destruct (halfOpenInFlight cb <=? 0); [apply (H (S m)); lia|].
  cbn [tick]. rewrite Z.eqb_refl. apply H. lia.
Qed.

Lemma runs_transition now n s k cb a cb' :
  runs now n k (transitionTo s cb) a cb' → runs now (S (S n)) (transitionTo_p s k) cb a cb'.
Proof.
  unfold transitionTo. intros H. apply runs_Act. cbn [fst snd swap_state].
  do 2 (case_match; [eapply runs_weaken; [exact H|lia]|]). by apply runs_Act.
Qed.

Lemma config_transitionTo s cb : config (transitionTo s cb) = config cb.
Proof. unfold transitionTo. by repeat case_match. Qed.

Lemma config_release cb : config (releaseHalfOpenRequest cb) = config cb.
Proof. unfold releaseHalfOpenRequest. by repeat case_match. Qed.

Lemma runs_allow now n cfg cb :
  config cb = cfg →
  runs now (S (S n)) (allowHalfOpenRequest_p cfg) cb
    (allowHalfOpenRequest cb).1 (allowHalfOpenRequest cb).2.
Proof.
  intros <-. unfold allowHalfOpenRequest. apply runs_Act. cbn [fst snd add_inFlight config set_inFlight].
  case_match; [|apply runs_Ret]. apply runs_Act, runs_Ret.
Qed.

(** Follows a call access by access. *)
Ltac follow :=
  repeat first
    [ apply runs_Ret | apply runs_allow; by rewrite ?config_transitionTo | apply runs_Release | apply runs_transition
    | apply runs_Act;
      cbn [fst snd load store clock swap_state add_successCount add_failureCount
           state config successCount failureCount
           set_requests set_failures set_lastFailureTime set_failureCount set_successCount];
      match goal with E : state ?cb = _ |- context [state ?cb] => rewrite E | _ => idtac end
    | progress case_match ].

Lemma call_runs cb e :
  runs (event_time e) call_steps (call (config cb) e) cb (event_answer cb e) (step cb e).
Proof.
  destruct e as [now| |now]; unfold call_steps, call, event_time, event_answer, step.
  - unfold Allow_p, Allow. destruct (state cb) eqn:E; follow.
  - unfold RecordSuccess_p, RecordSuccess. cbn [state set_requests set_successCount config].
    rewrite config_release. destruct (state cb) eqn:E; follow.
  - unfold RecordFailure_p, RecordFailure.
    cbn [state set_requests set_failures set_lastFailureTime set_failureCount config failureCount].
    destruct (state cb) eqn:E; follow.
Qed.

Lemma calls_run es cb : calls cb es = Some (answers cb es, run cb es).
Proof.
  revert cb. induction es as [|e es IH]; intros cb; [done|]. cbn [calls].
  rewrite (call_runs cb e call_steps) by done. by rewrite IH.
Qed.

(** *** A burst of admissions *)

Lemma tick_prog_of cfg now p cb :
  tick now (prog_of cfg p) cb =
    (prog_of cfg (phase_step cfg now p cb).1, (phase_step cfg now p cb).2).
Proof.
  destruct p; simpl; try done.
  - by destruct (state cb).
  - by case_match.
  - by repeat case_match.
  - by case_match.
Qed.

Lemma rank_step cfg now p cb : rank (phase_step cfg now p cb).1 ≤ Z.max 0 (rank p - 1).
Proof. destruct p; simpl; repeat case_match; simpl; lia. Qed.

Lemma rank_bound p : 0 ≤ rank p ≤ 6.
Proof. destruct p; simpl; lia. Qed.

Lemma turns_cons i j now sched :
  turns i ((j, now) :: sched) = (if Nat.eqb j i then 1 else 0) + turns i sched.
Proof. done. Qed.

Lemma phase_ok_later cb cb' p :
  lastFailureTime cb' = lastFailureTime cb → (state cb = StateHalfOpen → state cb' = StateHalfOpen) →
  phase_ok cb p → phase_ok cb' p.
Proof. destruct p; simpl; intuition congruence. Qed.

(** Splits the invariant of an updated burst; [Hall] is the thread-local part. *)
Ltac burst_close :=
  split_and!;
  first [ done | congruence
        | match goal with Hall : ∀ p' cb', _ → _ |- Forall _ _ => apply Hall; first [done|simpl; congruence] end
        | simpl; lia ].

Lemma burst_step cb0 ps cb i p now :
  config_ok (config cb0) → Z.of_nat (length ps) < 2 ^ 31 - 1 →
  burst_inv cb0 ps cb → ps !! i = Some p → Timeout (config cb0) ≤ time_sub now (lastFailureTime cb0) →
  let '(p', cb') := phase_step (config cb0) now p cb in burst_inv cb0 (<[i := p']> ps) cb'.
Proof.
  intros Hcfg Hlen (Hc & Hl & Hs & Hok & Hfl & Had & Hrej) Hi Ht.
  assert (phase_ok cb p) as Hp by (by eapply Forall_lookup_1).
  pose proof (half_open_limit_pos (config cb0)).
  pose proof (half_open_limit_small _ Hcfg).
  assert (countb is_undo ps ≤ countb is_rejected ps) as Hur.
  { apply sumZ_le. intros q _. by destruct q as [| | | | | |[]]. }
  assert (countb is_admitted ps + countb is_undo ps ≤ Z.of_nat (length ps)) as Hsum.
  { clear. unfold countb. rewrite <- sumZ_add. induction ps as [|q ps IH]; simpl; [done|].
    destruct q as [| | | | | |[]]; simpl; lia. }
  pose proof (countb_nonneg is_undo ps). pose proof (countb_nonneg is_admitted ps).
  assert (∀ p' cb', config cb' = config cb → lastFailureTime cb' = lastFailureTime cb →
            state cb' ≠ StateClosed → (state cb = StateHalfOpen → state cb' = StateHalfOpen) →
            phase_ok cb' p' →
            Forall (phase_ok cb') (<[i := p']> ps)) as Hall.
  { intros p' cb' ?????. apply Forall_insert; [|done]. eapply Forall_impl; [exact Hok|].
    intros q. by apply phase_ok_later. }
  destruct (phase_step (config cb0) now p cb) as [p' cb'] eqn:Estep.
  unfold burst_inv. rewrite !(countb_insert _ _ _ _ _ Hi).
  destruct p; simpl in Estep, Hp.
  - destruct (state cb) eqn:E; [done|..]; injection Estep as <- <-; burst_close.
  - injection Estep as <- <-. burst_close.
  - rewrite Hp, Hl in Estep.
    destruct (Z.leb_spec (Timeout (config cb0)) (time_sub now (lastFailureTime cb0))); [|lia].
    injection Estep as <- <-. burst_close.
  - injection Estep as <- <-. burst_close.
  - rewrite Hfl, i32_id in Estep by word.
    destruct (Z.ltb_spec (half_open_limit (config cb0)) (countb is_admitted ps + countb is_undo ps + 1));
      injection Estep as <- <-; burst_close.
  - rewrite Hfl, i32_id in Estep by word. injection Estep as <- <-. burst_close.
  - injection Estep as <- <-. destruct answer; burst_close.
Qed.

Lemma burst_run cb0 sched ps cb :
  config_ok (config cb0) → Z.of_nat (length ps) < 2 ^ 31 - 1 → burst_inv cb0 ps cb →
  Forall (λ who, Timeout (config cb0) ≤ time_sub who.2 (lastFailureTime cb0)) sched →
  ∃ ps' cb', pool_run (mkPool (prog_of (config cb0) <$> ps) cb) sched =
      mkPool (prog_of (config cb0) <$> ps') cb' ∧
    burst_inv cb0 ps' cb' ∧ length ps' = length ps ∧
    ∀ i p, ps !! i = Some p →
      ∃ p', ps' !! i = Some p' ∧ rank p' ≤ Z.max 0 (rank p - turns i sched).
Proof.
  intros Hcfg Hlen Hinv Hs. unfold pool_run. revert ps cb Hlen Hinv.
  induction Hs as [|[j now] sched Ht _ IH]; intros ps cb Hlen Hinv.
  { exists ps, cb. split_and!; [done..|]. intros i p Hi. exists p. split; [done|].
    change (turns i []) with 0. pose proof (rank_bound p). lia. }
  cbn [foldl]. unfold pool_step at 2. cbn [threads shared fst snd].
  rewrite list_lookup_fmap. destruct (ps !! j) as [q|] eqn:Hj; cbn [fmap option_fmap option_map].
  - rewrite tick_prog_of. pose proof (burst_step cb0 ps cb j q now Hcfg Hlen Hinv Hj Ht) as Hinv'.
    pose proof (rank_step (config cb0) now q cb) as Hr.
    destruct (phase_step (config cb0) now q cb) as [q' cb'].
    rewrite <- list_fmap_insert. cbn [fst snd] in *.
    destruct (IH (<[j := q']> ps) cb' ltac:(by rewrite length_insert) Hinv') as (ps' & cb'' & -> & Hi' & Hl' & Hrk).
    exists ps', cb''. split; [done|]. split; [done|]. split; [by rewrite Hl', length_insert|].
    intros i p Hi. rewrite turns_cons. destruct (Nat.eqb_spec j i) as [<-|Hne]; rewrite ?Z.add_0_l.
    + destruct (Hrk j q') as (p' & ? & ?); [apply list_lookup_insert_eq; by eapply lookup_lt_Some|].
      exists p'. split; [done|]. simplify_eq.
      pose proof (countb_nonneg (λ who : nat * Time, Nat.eqb who.1 j) sched). unfold turns in *. lia.
    + destruct (Hrk i p) as (p' & ? & ?); [by rewrite list_lookup_insert_ne|]. exists p'. split; [done|lia].
  - destruct (IH ps cb Hlen Hinv) as (ps' & cb'' & Hrun & Hi' & Hl' & Hrk).
    exists ps', cb''. split; [done|]. split; [done|]. split; [done|].
    intros i p Hi. rewrite turns_cons. destruct (Nat.eqb_spec j i) as [<-|Hne]; [congruence|].
    rewrite Z.add_0_l.
    destruct (Hrk i p Hi) as (p' & ? & ?). exists p'. split; [done|lia].
Qed.

Lemma countb_fmap {A B} (f : B → bool) (g : A → B) l : countb f (g <$> l) = countb (λ a, f (g a)) l.
Proof. unfold countb. induction l as [|a l IH]; [done|]. rewrite fmap_cons. simpl. f_equal. exact IH. Qed.

Lemma answered_prog_of cfg p : answered true (prog_of cfg p) = is_admitted p.
Proof. by destruct p as [| | | | | |[]]. Qed.

(** When every call has answered, the counts are settled. *)
Lemma burst_done cb0 ps cb :
  burst_inv cb0 ps cb → Forall (λ p, rank p ≤ 0) ps →
  countb is_admitted ps = Z.min (Z.of_nat (length ps)) (half_open_limit (config cb0)) ∧
  halfOpenInFlight cb = countb is_admitted ps ∧
  (ps ≠ [] → state cb = StateHalfOpen).
Proof.
  intros (_ & _ & _ & Hok & Hfl & Had & Hrej) Hdone.
  assert (countb is_undo ps = 0 ∧ countb is_admitted ps + countb is_rejected ps = Z.of_nat (length ps)) as [Hu Hsum].
  { unfold countb. clear -Hdone. induction Hdone as [|p ps Hp _ [IH1 IH2]]; [done|].
    destruct p as [| | | | | |[]]; simpl in Hp |- *; lia. }
  pose proof (countb_nonneg is_rejected ps). split_and!; [lia|lia|].
  destruct ps as [|p ps]; [done|]. intros _. apply Forall_inv in Hok. apply Forall_inv in Hdone.
  destruct p; simpl in *; lia || done.
Qed.

(** ** Properties *)

(** The calls of the breaker, taken access by access, refine its
    transitions: each call that is not interleaved with another ends within
    twelve accesses, the compare-and-swap loop included, with the answer and
    the effect of its transition, and so does any sequence of calls. *)
Theorem calls_refine_transitions cfgs es :
  calls (New cfgs) es = Some (answers (New cfgs) es, run (New cfgs) es) ∧
  ∀ e, let cb := run (New cfgs) es in
    alone call_steps (event_time e) (call (config cb) e) cb = (Ret (event_answer cb e), step cb e).
Proof. split; [apply calls_run|]. intros e cb. by apply (call_runs cb e call_steps). Qed.

(** C1. A burst of [n] requests asking an open breaker for admission after its
    timeout, interleaved access by access in any order: never more than the
    half-open limit are admitted; a request that has made six accesses has its
    answer, whatever the others do; and when all have, exactly the limit (or
    all, if fewer) were admitted, and they hold the slots in use. *)
Theorem concurrent_burst_exact cb n sched :
  inv cb → state cb = StateOpen → Z.of_nat n < 2 ^ 31 - 1 →
  Forall (λ who, Timeout (config cb) ≤ time_sub who.2 (lastFailureTime cb)) sched →
  let s := pool_run (burst n cb) sched in
  let admitted := countb (answered true) (threads s) in
  admitted ≤ half_open_limit (config cb) ∧
  (∀ i, (i < n)%nat → 6 ≤ turns i sched → finished <$> threads s !! i = Some true) ∧
  ((∀ i, (i < n)%nat → 6 ≤ turns i sched) →
     admitted = Z.min (Z.of_nat n) (half_open_limit (config cb)) ∧
     halfOpenInFlight (shared s) = admitted ∧
     (n ≠ 0%nat → state (shared s) = StateHalfOpen)).
Proof.
  intros (Hcfg & _ & _ & _ & Hfree & _) E Hn Hs s admitted.
  assert (burst_inv cb (replicate n PStart) cb) as Hinv.
  { pose proof (half_open_limit_pos (config cb)).
    assert (∀ f, f PStart = false → countb f (replicate n PStart) = 0) as H0.
    { intros f Hf. unfold countb. clear -Hf. induction n as [|n IH]; [done|].
      cbn [replicate sumZ]. by rewrite Hf, IH. }
    unfold burst_inv. rewrite !H0 by done. split_and!; try done; try congruence; try lia.
    - by apply Forall_replicate.
    - apply Hfree. congruence. }
  assert (burst n cb = mkPool (prog_of (config cb) <$> replicate n PStart) cb) as Eb
    by (unfold burst; by rewrite fmap_replicate).
  destruct (burst_run cb sched (replicate n PStart) cb Hcfg ltac:(by rewrite length_replicate) Hinv Hs)
    as (ps' & cb' & Hrun & Hinv' & Hl' & Hrk).
  rewrite length_replicate in Hl'. rewrite <- Eb in Hrun. fold s in Hrun.
  assert (admitted = countb is_admitted ps') as ->.
  { unfold admitted. rewrite Hrun. cbn [threads]. rewrite countb_fmap. apply sumZ_ext. intros p _. by rewrite answered_prog_of. }
  assert (∀ i, (i < n)%nat → 6 ≤ turns i sched → ∃ p', ps' !! i = Some p' ∧ rank p' ≤ 0) as Hdone.
  { intros i Hi Ht. destruct (Hrk i PStart) as (p' & ? & ?); [by apply lookup_replicate_2|].
    exists p'. split; [done|]. simpl in *. lia. }
  rewrite Hrun. cbn [threads shared]. split; [apply Hinv'|]. split.
  - intros i Hi Ht. destruct (Hdone i Hi Ht) as (p' & Hp & Hr). rewrite list_lookup_fmap, Hp.
    by destruct p'; simpl in Hr; try lia.
  - intros Hall. rewrite <- Hl'. destruct (burst_done cb ps' cb' Hinv') as (H1 & H2 & H3).
    + apply Forall_lookup. intros i p Hi. pose proof (lookup_lt_Some _ _ _ Hi).
      destruct (Hdone i) as (p' & ? & ?); [lia|apply Hall; lia|congruence].
    + split_and!; [done|done|]. intros Hne. apply H3. by intros ->.
Qed.

Lemma concurrent_burst_exact_witness :
  let cb := RecordFailure 10 (New [sample_config]) in
  let sched := concat (replicate 6 [(0%nat, 120); (1%nat, 121)]) in
  countb (answered true) (threads (pool_run (burst 2 cb) sched)) = 1.
Proof.
  cbv zeta.
  refine (eq_trans (proj1 (proj2 (proj2 (concurrent_burst_exact (RecordFailure 10 (New [sample_config])) 2
    (concat (replicate 6 [(0%nat, 120); (1%nat, 121)])) _ _ _ _)) _)) _).
  - apply RecordFailure_inv, inv_New. unfold config_ok; simpl; lia.
  - reflexivity.
  - reflexivity.
  - apply (bool_decide_unpack _). vm_compute. exact I.
  - intros [|[|i]] Hi; [by vm_compute|by vm_compute|lia].
  - reflexivity.
Defined.

(** ** What interleaving breaks *)

(** Request 2 loads the half-open state, the breaker opens again and frees all
    slots, and only then does request 2 take one; it succeeds while the breaker
    is open, which frees nothing.  From then on the slot is lost, and a
    breaker with one slot admits nobody in any later half-open period. *)
Lemma slot_lost_for_good :
  let s := pool_run (mkPool lost_slot (New [mkConfig 1 1 100 1])) lost_slot_schedule in
  forallb finished (threads s) = true ∧
  state (shared s) = StateOpen ∧ halfOpenInFlight (shared s) = 1 ∧
  (admissions (shared s) [1000; 2000; 3000]).1 = [false; false; false].
Proof. vm_compute. repeat split. Qed.

(** A probe that never reports, because its handler panicked, does the same
    without any interleaving. *)
Lemma silent_probe_blocks cb nows :
  inv cb → state cb = StateHalfOpen → halfOpenInFlight cb = half_open_limit (config cb) →
  (admissions cb nows).1 = replicate (length nows) false.
Proof.
  intros Hinv E Hfull. destruct (admissions_half_open cb nows Hinv E) as (cb' & -> & _).
  rewrite Hfull, Z.sub_diag. simpl. by rewrite Nat.min_0_r, Nat.sub_0_r.
Qed.

End BreakerSteps.
