(* ===== verification/RateLimit.v ===== *)
(** * Rate limiting (src/middlewares/ratelimit/middleware.go)

    The fixed-window and the sliding-window limiter behind the [Limiter]
    interface, with their cleanup loops, and the gin middleware over any
    limiter.  One call of [Allow] and one tick of a cleanup loop are one step
    each; [time.Now()] is an argument of the step. *)

From S2P Require Import Prelude.

Module RateLimit.

(** ** The interface and the middleware *)

(** [Limiter]: one decision for a key at an instant; [None] is a panic. *)
Class Limiter (St : Type) := {
  Allow : Time → string → St → option (bool * St)
}.

(** What the key functions read of the request: the client address, the user
    id of the session ("" when anonymous) and the path. *)
Record GinContext := mkGin { ClientIP : string; UserId : string; Path : string }.

Definition KeyFunc := GinContext → string.

Record Builder (St : Type) := mkBuilder { limiter : St; keyFunc : KeyFunc }.
Arguments mkBuilder {St} _ _.
Arguments limiter {St} _.
Arguments keyFunc {St} _.

Definition NewBuilder {St} (l : St) : Builder St :=
  mkBuilder l (λ c, "ip:" +:+ ClientIP c)%string.

Definition WithKeyFunc {St} (f : KeyFunc) (b : Builder St) : Builder St :=
  mkBuilder (limiter b) f.

Definition WithUserIDKey {St} (b : Builder St) : Builder St :=
  mkBuilder (limiter b) (λ c,
    if decide (UserId c = "") then "ip:" +:+ ClientIP c else "user:" +:+ UserId c)%string.

Definition IPKeyFunc : KeyFunc := λ c, ("ip:" +:+ ClientIP c)%string.

Definition UserIDKeyFunc : KeyFunc := λ c,
  if decide (UserId c = "") then IPKeyFunc c else ("user:" +:+ UserId c)%string.

Definition PathKeyFunc : KeyFunc := λ c,
  ("path:" +:+ Path c +:+ ":ip:" +:+ ClientIP c)%string.

Inductive Response := TooManyRequests | Next.

Definition Build `{Limiter St} (now : Time) (c : GinContext) (b : Builder St)
    : option (Response * Builder St) :=
  match Allow now (keyFunc b c) (limiter b) with
  | None => None
  | Some (ok, l) => Some (if ok then Next else TooManyRequests, mkBuilder l (keyFunc b))
  end.

(** ** The fixed-window limiter *)

Record counter := mkCounter { count : Z; windowStart : Time }.

Record SimpleLimiter := mkSimple {
  rate : Z;
  window : Duration;
  counters : gmap string counter;
  cleanup : Duration
}.

(** [None]: the cleanup goroutine's [time.NewTicker] panics unless the period
    is positive. *)
Definition NewSimpleLimiter (r : Z) (w : Duration) : option SimpleLimiter :=
  let c := i64 (w * 2) in
  if c <=? 0 then None else Some (mkSimple r w ∅ c).

(** The locked part of [Allow], on one counter. *)
Definition simple_count (r : Z) (w : Duration) (now : Time) (c : counter) : bool * counter :=
  if w <=? time_sub now (windowStart c) then (true, mkCounter 1 now)
  else if r <=? count c then (false, c)
  else (true, mkCounter (i64 (count c + 1)) (windowStart c)).

Definition simple_Allow (now : Time) (key : string) (l : SimpleLimiter) : bool * SimpleLimiter :=
  let c := default (mkCounter 0 now) (counters l !! key) in
  let '(ok, c) := simple_count (rate l) (window l) now c in
  (ok, mkSimple (rate l) (window l) (<[key := c]> (counters l)) (cleanup l)).

(** The test of a cleanup tick. *)
Definition simple_expired (w : Duration) (now : Time) (c : counter) : bool :=
  i64 (w * 2) <=? time_sub now (windowStart c).

Definition simple_cleanup (now : Time) (l : SimpleLimiter) : SimpleLimiter :=
  mkSimple (rate l) (window l)
    (filter (λ kc, simple_expired (window l) now kc.2 = false) (counters l)) (cleanup l).

#[export] Instance SimpleLimiter_limiter : Limiter SimpleLimiter :=
  { Allow now key l := Some (simple_Allow now key l) }.

(** ** The sliding-window limiter *)

Record SlidingWindowLimiter := mkSliding {
  sl_rate : Z;
  sl_window : Duration;
  sl_counters : gmap string (list Time);
  sl_cleanup : Duration
}.

Definition NewSlidingWindowLimiter (r : Z) (w : Duration) : option SlidingWindowLimiter :=
  let c := i64 (w * 2) in
  if c <=? 0 then None else Some (mkSliding r w ∅ c).

(** The locked part of [Allow], on the recorded request times of one key. *)
Definition sliding_count (r : Z) (w : Duration) (now : Time) (requests : list Time)
    : bool * list Time :=
  let cutoff := now + i64 (- w) in
  let validRequests := filter (λ t, cutoff < t) requests in
  if r <=? Z.of_nat (length validRequests) then (false, validRequests)
  else (true, validRequests ++ [now]).

(** [None]: the fresh record's [make] panics on a negative capacity. *)
Definition sliding_Allow (now : Time) (key : string) (l : SlidingWindowLimiter)
    : option (bool * SlidingWindowLimiter) :=
  if sl_rate l <? 0 then None
  else
    let '(ok, reqs) :=
      sliding_count (sl_rate l) (sl_window l) now (default [] (sl_counters l !! key)) in
    Some (ok, mkSliding (sl_rate l) (sl_window l) (<[key := reqs]> (sl_counters l)) (sl_cleanup l)).

(** The test of a cleanup tick: no request left, or the last one is old. *)
Definition sliding_expired (w : Duration) (now : Time) (requests : list Time) : bool :=
  match last requests with
  | None => true
  | Some t => t <? now + i64 (i64 (- w) * 2)
  end.

Definition sliding_cleanup (now : Time) (l : SlidingWindowLimiter) : SlidingWindowLimiter :=
  mkSliding (sl_rate l) (sl_window l)
    (filter (λ kr, sliding_expired (sl_window l) now kr.2 = false) (sl_counters l)) (sl_cleanup l).

#[export] Instance SlidingWindowLimiter_limiter : Limiter SlidingWindowLimiter :=
  { Allow := sliding_Allow }.

(** ** Executions *)

(** A limiter's life: requests for keys and ticks of its cleanup loop. *)
Inductive Event :=
| Request (key : string) (now : Time)
| Tick (now : Time).

Definition at_time (e : Event) : Time :=
  match e with Request _ t => t | Tick t => t end.

(** The clock never goes back below [from]. *)
Fixpoint monotone (from : Time) (es : list Event) : Prop :=
  match es with
  | [] => True
  | e :: es => from ≤ at_time e ∧ monotone (at_time e) es
  end.

(** The admitted requests, in order. *)
Fixpoint run {St} `{Limiter St} (tick : Time → St → St) (l : St) (es : list Event)
    : option (list (string * Time) * St) :=
  match es with
  | [] => Some ([], l)
  | Request key now :: es =>
      match Allow now key l with
      | None => None
      | Some (ok, l) =>
          match run tick l es with
          | None => None
          | Some (log, l) => Some ((if ok then [(key, now)] else []) ++ log, l)
          end
      end
  | Tick now :: es => run tick (tick now l) es
  end.

(** The time an execution has reached. *)
Definition end_time (from : Time) (es : list Event) : Time :=
  foldl (λ _ e, at_time e) from es.

(** How many requests of [key] a log admits in the instants satisfying [p]. *)
Definition admitted (key : string) (p : Time → bool) (log : list (string * Time)) : Z :=
  countb (λ kt, bool_decide (kt.1 = key) && p kt.2) log.

(** ** The specification: a log of everything ever admitted *)

(** A request passes when fewer than [r] were admitted in the window before it. *)
Definition log_allows (r : Z) (w : Duration) (key : string) (now : Time)
    (log : list (string * Time)) : bool :=
  admitted key (λ t, now - w <? t) log <? r.

Fixpoint log_run (r : Z) (w : Duration) (log : list (string * Time)) (es : list Event)
    : list (string * Time) :=
  match es with
  | [] => []
  | Request key now :: es =>
      if log_allows r w key now log
      then (key, now) :: log_run r w (log ++ [(key, now)]) es
      else log_run r w log es
  | Tick _ :: es => log_run r w log es
  end.

(** Windows that the arithmetic of [time.Duration] can double. *)
Definition window_ok (w : Duration) : Prop := 0 < w < 2 ^ 61.

(** ** Ledgers: how a limiter's table stands to what it has admitted *)

(** A fixed-window counter at [last]: what is recorded since the window's start
    is its count, and little precedes it. *)
Definition simple_ledger (r : Z) (w : Duration) (last : Time) (key : string)
    (log : list (string * Time)) (c : option counter) : Prop :=
  (∀ a, admitted key (λ t, (a <=? t) && (t <? a + w)) log ≤ 2 * r) ∧
  admitted key (λ t, last <? t) log = 0 ∧
  match c with
  | None => admitted key (λ t, last - w <=? t) log = 0
  | Some c =>
      windowStart c ≤ last ∧ 0 ≤ count c ≤ r ∧
      admitted key (λ t, windowStart c <=? t) log = count c ∧
      admitted key (λ t, windowStart c + w <=? t) log = 0 ∧
      admitted key (λ t, (windowStart c - w <=? t) && (t <? windowStart c)) log ≤ r
  end.

(** The whole table at an instant. *)
Definition simple_table (r : Z) (w : Duration) (last : Time) (log : list (string * Time))
    (l : SimpleLimiter) : Prop :=
  rate l = r ∧ window l = w ∧ ∀ key, simple_ledger r w last key log (counters l !! key).

(** A sliding counter at [last]: its requests are those admitted for the key
    and not older than some horizon at or before [last - w]. *)
Definition sliding_ledger (w : Duration) (last : Time) (key : string)
    (log : list (string * Time)) (reqs : list Time) : Prop :=
  ∃ horizon, horizon ≤ last - w ∧
    reqs = filter (λ t, horizon < t) (filter (λ kt, kt.1 = key) log).*2 ∧
    StronglySorted Z.le reqs ∧ Forall (λ t, t ≤ last) reqs.

Definition sliding_table (r : Z) (w : Duration) (last : Time) (log : list (string * Time))
    (l : SlidingWindowLimiter) : Prop :=
  sl_rate l = r ∧ sl_window l = w ∧
  ∀ key, sliding_ledger w last key log (default [] (sl_counters l !! key)).

(** No window of length [w] holds more than [r] admissions of a key. *)
Definition sliding_bound (r : Z) (w : Duration) (log : list (string * Time)) : Prop :=
  ∀ key a, admitted key (λ t, (a <? t) && (t <=? a + w)) log ≤ r.

Definition sample_events : list Event :=
  [Request "a" 0; Request "a" 90; Request "a" 99; Tick 150; Request "a" 195; Request "b" 196].

(** ** Counting admissions *)

Lemma admitted_app key p log1 log2 :
  admitted key p (log1 ++ log2) = admitted key p log1 + admitted key p log2.
Proof. apply countb_app. Qed.

Lemma admitted_nonneg key p log : 0 ≤ admitted key p log.
Proof. apply countb_nonneg. Qed.

Lemma admitted_one key p k t :
  admitted key p [(k, t)] = if bool_decide (k = key) && p t then 1 else 0.
Proof. unfold admitted, countb. simpl. by case_match. Qed.

Lemma admitted_mono key p q log :
  (∀ t, p t = true → q t = true) → admitted key p log ≤ admitted key q log.
Proof.
  intros H. apply sumZ_le. intros [k t] _. simpl. specialize (H t).
  destruct (bool_decide (k = key)), (p t), (q t); simpl; lia.
Qed.

Lemma admitted_split key p q s log :
  (∀ t, p t = true → q t || s t = true) →
  admitted key p log ≤ admitted key q log + admitted key s log.
Proof.
  intros H. unfold admitted, countb. rewrite <- sumZ_add. apply sumZ_le.
  intros [k t] _. simpl. specialize (H t).
  destruct (bool_decide (k = key)), (p t), (q t), (s t); simpl in *; lia.
Qed.

Lemma admitted_zero key p q log :
  admitted key q log = 0 → (∀ t, p t = true → q t = true) → admitted key p log = 0.
Proof.
  intros H Hpq. pose proof (admitted_mono key p q log Hpq). pose proof (admitted_nonneg key p log). lia.
Qed.

Lemma window_sub w now t : window_ok w → (w <=? time_sub now t) = (w <=? now - t).
Proof. unfold window_ok, time_sub. intros Hw. lia. Qed.

Lemma window_double w : window_ok w → i64 (w * 2) = w * 2.
Proof. unfold window_ok. intros. apply i64_id. word. Qed.

Lemma window_opp w : window_ok w → i64 (- w) = - w.
Proof. unfold window_ok. intros. apply i64_id. word. Qed.

(** Pointwise reasoning on the instants a count ranges over. *)
Ltac instants := intros ?t ?Ht; cbv beta in *; lia.

(** ** The fixed-window ledger *)

Section Simple.
Context (r : Z) (w : Duration).
Context (Hr : 1 ≤ r < 2 ^ 62) (Hw : window_ok w).

Lemma ledger_later last now key log c :
  last ≤ now → simple_ledger r w last key log c → simple_ledger r w now key log c.
Proof using Hw.
  intros Hle (Hall & Hfut & Hc). split; [done|]. split.
  - apply (admitted_zero _ _ _ _ Hfut). instants.
  - destruct c as [c|].
    + destruct Hc as (? & ?). split; [lia|done].
    + apply (admitted_zero _ _ _ _ Hc). instants.
Qed.

Lemma ledger_other last key k t log c :
  k ≠ key → simple_ledger r w last key log c → simple_ledger r w last key (log ++ [(k, t)]) c.
Proof using.
  intros Hne. assert (∀ p, admitted key p (log ++ [(k, t)]) = admitted key p log) as E.
  { intros p. rewrite admitted_app, admitted_one, bool_decide_eq_false_2 by done. simpl. lia. }
  intros (Hall & Hfut & Hc). split; [intros a; by rewrite E|]. split; [by rewrite E|].
  destruct c; [|by rewrite E]. by rewrite !E.
Qed.

Lemma admitted_snoc key p t log :
  admitted key p (log ++ [(key, t)]) = admitted key p log + (if p t then 1 else 0).
Proof using. rewrite admitted_app, admitted_one, bool_decide_eq_true_2 by done. done. Qed.

(** Opening a window: nothing is admitted from [now] on and little just before. *)
Lemma ledger_reset last now key log c :
  last ≤ now → simple_ledger r w last key log c →
  admitted key (λ t, now <=? t) log = 0 → admitted key (λ t, now - w <=? t) log ≤ r →
  simple_ledger r w now key (log ++ [(key, now)]) (Some (mkCounter 1 now)).
Proof using Hr Hw.
  intros Hle (Hall & Hfut & _) H0 Hprev. unfold window_ok in Hw. split; [|split].
  - intros a. rewrite admitted_snoc. destruct (_ && _) eqn:E; [|specialize (Hall a); lia].
    pose proof (admitted_mono key (λ t, (a <=? t) && (t <? a + w)) (λ t, now - w <=? t) log ltac:(instants)).
    lia.
  - rewrite admitted_snoc, (admitted_zero _ _ _ _ Hfut) by instants. case_match; lia.
  - cbn [count windowStart]. rewrite !admitted_snoc, H0.
    rewrite (admitted_zero key (λ t, now + w <=? t) _ log Hfut) by instants.
    pose proof (admitted_mono key (λ t, (now - w <=? t) && (t <? now)) (λ t, now - w <=? t) log ltac:(instants)).
    split_and!; try lia; repeat case_match; lia.
Qed.

(** One more request inside the current window. *)
Lemma ledger_count last now key log c :
  last ≤ now → simple_ledger r w last key log (Some c) →
  now < windowStart c + w → count c < r →
  simple_ledger r w now key (log ++ [(key, now)]) (Some (mkCounter (count c + 1) (windowStart c))).
Proof using Hr Hw.
  intros Hle (Hall & Hfut & Hs & Hcr & Hin & Hend & Hbefore) Hnow Hlt. unfold window_ok in Hw.
  split; [|split].
  - intros a. rewrite admitted_snoc. destruct (_ && _) eqn:E; [|specialize (Hall a); lia].
    pose proof (admitted_split key (λ t, (a <=? t) && (t <? a + w))
      (λ t, (windowStart c - w <=? t) && (t <? windowStart c)) (λ t, windowStart c <=? t) log ltac:(instants)).
    lia.
  - rewrite admitted_snoc, (admitted_zero _ _ _ _ Hfut) by instants. case_match; lia.
  - cbn [count windowStart]. rewrite !admitted_snoc, Hin, Hend. split_and!; try lia; repeat case_match; lia.
Qed.

(** The locked section keeps the ledger, whatever it decides; a refusal means a
    full quota inside the window before it. *)
Lemma simple_count_ledger last now key log co :
  last ≤ now → simple_ledger r w last key log co →
  let '(ok, c') := simple_count r w now (default (mkCounter 0 now) co) in
  simple_ledger r w now key (log ++ if ok then [(key, now)] else []) (Some c') ∧
  (ok = false → r ≤ admitted key (λ t, now - w <? t) log).
Proof using Hr Hw.
  intros Hle HL. pose proof HL as (_ & Hfut & Hc). unfold simple_count.
  rewrite window_sub by done. unfold window_ok in Hw. destruct co as [c|]; simpl.
  - destruct Hc as (Hs & Hcr & Hin & Hend & _). destruct (Z.leb_spec w (now - windowStart c)) as [E1|E1];
      [|destruct (Z.leb_spec r (count c)) as [E2|E2]].
    + split; [|done]. eapply ledger_reset; [done|done| |].
      * apply (admitted_zero _ _ _ _ Hend). instants.
      * etrans; [|apply Hcr]. rewrite <- Hin. apply admitted_mono. instants.
    + rewrite app_nil_r. split; [by apply (ledger_later last)|]. intros _.
      assert (admitted key (λ t, windowStart c <=? t) log ≤ admitted key (λ t, now - w <? t) log)
        by (apply admitted_mono; instants). lia.
    + split; [|done]. rewrite i64_id by word. eapply ledger_count; [done|done|lia|lia].
  - replace (w <=? now - now) with false by lia. replace (r <=? 0) with false by lia.
    split; [|done]. eapply ledger_reset; [done|done| |].
    + apply (admitted_zero _ _ _ _ Hc). instants.
    + rewrite (admitted_zero key (λ t, now - w <=? t) _ log Hc) by instants. lia.
Qed.

Lemma simple_Allow_table last now key log l :
  last ≤ now → simple_table r w last log l →
  simple_table r w now (log ++ if (simple_Allow now key l).1 then [(key, now)] else []) (simple_Allow now key l).2 ∧
  ((simple_Allow now key l).1 = false → r ≤ admitted key (λ t, now - w <? t) log).
Proof using Hr Hw.
  intros Hle (Er & Ew & HL). unfold simple_Allow. rewrite Er, Ew.
  pose proof (simple_count_ledger last now key log _ Hle (HL key)) as Hc.
  destruct (simple_count r w now (default (mkCounter 0 now) (counters l !! key))) as [ok c'].
  destruct Hc as [Hc Hrej]. split; [|done]. split; [done|]. split; [done|]. intros k. simpl.
  destruct (decide (key = k)) as [->|Hne].
  - by rewrite lookup_insert_eq.
  - rewrite lookup_insert_ne by done. specialize (HL k). apply (ledger_later last now) in HL; [|done].
    destruct ok; [by apply ledger_other|by rewrite app_nil_r].
Qed.

Lemma simple_cleanup_table last now log l :
  last ≤ now → simple_table r w last log l → simple_table r w now log (simple_cleanup now l).
Proof using Hr Hw.
  intros Hle (Er & Ew & HL). split; [done|]. split; [done|]. intros key. simpl.
  specialize (HL key). apply (ledger_later last now) in HL; [|done].
  rewrite map_lookup_filter. destruct (counters l !! key) as [c|]; simpl; [|done].
  unfold simple_expired. rewrite Ew, window_double by done. unfold window_ok in Hw.
  case_guard as Hexp; [done|]. simpl. destruct HL as (? & ? & ? & ? & ? & Hend & _).
  split; [done|]. split; [done|]. apply (admitted_zero _ _ _ _ Hend).
  unfold time_sub in Hexp. instants.
Qed.

End Simple.

(** A step-preserved relation to the log holds along a whole execution. *)
Lemma simple_run_inv {St} `{Limiter St} (tick : Time → St → St)
    (R : Time → list (string * Time) → St → Prop) :
  (∀ last now key log l, last ≤ now → R last log l →
     ∃ ok l', Allow now key l = Some (ok, l') ∧ R now (log ++ if ok then [(key, now)] else []) l') →
  (∀ last now log l, last ≤ now → R last log l → R now log (tick now l)) →
  ∀ es last log0 l, monotone last es → R last log0 l →
    ∃ log l', run tick l es = Some (log, l') ∧ R (end_time last es) (log0 ++ log) l'.
Proof.
  intros Hreq Htick es. induction es as [|[key now|now] es IH]; intros last log0 l Hm HR; simpl in *.
  - exists [], l. by rewrite app_nil_r.
  - destruct Hm as [Hle Hm]. destruct (Hreq last now key log0 l Hle HR) as (ok & l1 & -> & HR1).
    destruct (IH now _ l1 Hm HR1) as (log & l' & -> & HR').
    eexists _, l'. split; [done|]. by rewrite app_assoc.
  - destruct Hm as [Hle Hm]. apply (IH now); [done|]. by apply (Htick last).
Qed.

(** ** The sliding-window ledger *)

Lemma sorted_below_last (l : list Z) m :
  StronglySorted Z.le l → last l = Some m → Forall (λ t, t ≤ m) l.
Proof.
  intros Hs Hl. apply last_Some in Hl as [l' ->]. apply Forall_app. split; [|repeat constructor; lia].
  apply Forall_forall. intros t Ht. eapply StronglySorted_app_1_elem_of; [exact Hs|done|set_solver].
Qed.

Section Sliding.
Context (r : Z) (w : Duration).
Context (Hr : 0 ≤ r) (Hw : window_ok w).

Lemma admitted_length key (P : Z) log :
  admitted key (λ t, P <? t) log =
  Z.of_nat (length (filter (λ t, P < t) (filter (λ kt : string * Z, kt.1 = key) log).*2)).
Proof using.
  unfold admitted, countb. induction log as [|[k t] log IH]; [done|]. cbn [sumZ fst snd].
  rewrite filter_cons. cbn [fst]. case_decide as E.
  - rewrite bool_decide_eq_true_2, fmap_cons, filter_cons by done. cbn [andb snd].
    destruct (Z.ltb_spec P t); case_decide; try lia; cbn [length]; lia.
  - rewrite bool_decide_eq_false_2 by done. simpl. lia.
Qed.

Lemma filter_later (h P : Z) (l : list Z) :
  h ≤ P → filter (λ t, P < t) (filter (λ t, h < t) l) = filter (λ t, P < t) l.
Proof using.
  intros Hle. rewrite list_filter_filter. apply list_filter_iff. intros t. lia.
Qed.

Lemma sliding_later last now key log reqs :
  last ≤ now → sliding_ledger w last key log reqs → sliding_ledger w now key log reqs.
Proof using.
  intros Hle (h & Hh & E & Hs & Hall). exists h. split_and!; [lia|done|done|].
  eapply Forall_impl; [exact Hall|]. simpl. lia.
Qed.

Lemma sliding_other last key k t log reqs :
  k ≠ key → sliding_ledger w last key log reqs → sliding_ledger w last key (log ++ [(k, t)]) reqs.
Proof using.
  intros Hne (h & Hh & E & Hs & Hall). exists h. split_and!; [done| |done|done].
  rewrite filter_app, (filter_cons_False _ (k, t)), filter_nil, app_nil_r by done. done.
Qed.

(** The locked section decides as the log does and keeps the ledger. *)
Lemma sliding_count_ledger last now key log reqs :
  last ≤ now → sliding_ledger w last key log reqs →
  let '(ok, reqs') := sliding_count r w now reqs in
  ok = log_allows r w key now log ∧
  sliding_ledger w now key (log ++ if ok then [(key, now)] else []) reqs'.
Proof using Hw.
  intros Hle (h & Hh & E & Hs & Hall). unfold sliding_count, log_allows. rewrite window_opp by done.
  rewrite admitted_length. change (now + - w) with (now - w).
  assert (filter (λ t, now - w < t) reqs =
          filter (λ t, now - w < t) (filter (λ kt : string * Z, kt.1 = key) log).*2) as Ev
    by (rewrite E; apply filter_later; lia).
  rewrite Ev. pose proof (StronglySorted_filter Z.le (λ t, now - w < t) reqs Hs) as Hs'. rewrite Ev in Hs'.
  assert (Forall (λ t, t ≤ now) (filter (λ t, now - w < t) (filter (λ kt : string * Z, kt.1 = key) log).*2)) as Hall'.
  { rewrite <- Ev. apply Forall_filter. eapply Forall_impl; [exact Hall|]. simpl. lia. }
  unfold window_ok in Hw.
  destruct (Z.leb_spec r (Z.of_nat (length (filter (λ t, now - w < t)
    (filter (λ kt : string * Z, kt.1 = key) log).*2)))) as [Hge|Hlt]; (split; [zlia|]);
    exists (now - w).
  - rewrite app_nil_r. done.
  - split; [lia|]. split; [|split].
    + rewrite filter_app, (filter_cons_True _ (key, now)), filter_nil, fmap_app, filter_app by done.
      simpl. rewrite (filter_cons_True _ now), filter_nil by lia. done.
    + apply StronglySorted_app_2; [|done|repeat constructor].
      intros x1 x2 Hx1 ->%list_elem_of_singleton. rewrite Forall_forall in Hall'. by apply Hall'.
    + apply Forall_app. split; [done|]. repeat constructor. lia.
Qed.

Lemma sliding_Allow_table last now key log l :
  last ≤ now → sliding_table r w last log l →
  let ok := log_allows r w key now log in
  ∃ l', sliding_Allow now key l = Some (ok, l') ∧
    sliding_table r w now (log ++ if ok then [(key, now)] else []) l'.
Proof using Hr Hw.
  intros Hle (Er & Ew & HL) ok. unfold sliding_Allow. rewrite Er, Ew. replace (r <? 0) with false by lia.
  pose proof (sliding_count_ledger last now key log _ Hle (HL key)) as Hc.
  destruct (sliding_count r w now (default [] (sl_counters l !! key))) as [ok' reqs'].
  destruct Hc as [-> Hc]. fold ok in Hc. fold ok. eexists. split; [done|]. split; [done|]. split; [done|].
  intros k. simpl. destruct (decide (key = k)) as [->|Hne].
  - by rewrite lookup_insert_eq.
  - rewrite lookup_insert_ne by done. specialize (HL k). apply (sliding_later last now) in HL; [|done].
    destruct ok; [by apply sliding_other|by rewrite app_nil_r].
Qed.

Lemma sliding_cleanup_table t0 now log l :
  t0 ≤ now → sliding_table r w t0 log l → sliding_table r w now log (sliding_cleanup now l).
Proof using Hw.
  intros Hle (Er & Ew & HL). split; [done|]. split; [done|]. intros key. simpl.
  specialize (HL key). apply (sliding_later t0 now) in HL; [|done]. rewrite Ew, map_lookup_filter.
  destruct (sl_counters l !! key) as [reqs|]; simpl in *; [|done].
  case_guard as Hexp; [done|]. apply not_false_is_true in Hexp. simpl.
  destruct HL as (h & Hh & E & Hs & Hall). exists (now - w). split; [done|].
  split; [|split; constructor]. symmetry. unfold sliding_expired in Hexp.
  rewrite <- (filter_later h), <- E by lia. apply filter_none.
  destruct (last reqs) as [m|] eqn:Em; [|apply last_None in Em; by rewrite Em].
  rewrite window_opp, i64_id in Hexp by (unfold window_ok in Hw; word || done).
  apply sorted_below_last in Em; [|done]. unfold window_ok in Hw.
  eapply Forall_impl; [exact Em|]. simpl. lia.
Qed.

Lemma sliding_run es last log l :
  monotone last es → sliding_table r w last log l →
  ∃ l', run sliding_cleanup l es = Some (log_run r w log es, l').
Proof using Hr Hw.
  revert last log l. induction es as [|[key now|now] es IH]; intros last log l Hm HR; simpl in *.
  - by exists l.
  - destruct Hm as [Hle Hm]. destruct (sliding_Allow_table last now key log l Hle HR) as (l1 & -> & HR1).
    destruct (IH _ _ _ Hm HR1) as (l' & ->). exists l'.
    destruct (log_allows r w key now log); [done|by rewrite app_nil_r].
  - destruct Hm as [Hle Hm]. apply (IH now); [done|]. by apply (sliding_cleanup_table last).
Qed.

(** The log itself never overfills a window. *)
Lemma log_run_bound es last log :
  monotone last es → (∀ key, admitted key (λ t, last <? t) log = 0) → sliding_bound r w log →
  sliding_bound r w (log ++ log_run r w log es).
Proof using Hw.
  revert last log. induction es as [|[key now|now] es IH]; intros last log Hm Hfut Hb; simpl in *.
  - by rewrite app_nil_r.
  - destruct Hm as [Hle Hm].
    assert (∀ k, admitted k (λ t, now <? t) log = 0) as Hfut'
      by (intros k; apply (admitted_zero _ _ _ _ (Hfut k)); instants).
    destruct (log_allows r w key now log) eqn:Ea; [|by apply (IH now)].
    rewrite cons_middle, app_assoc. apply (IH now); [done| |].
    + intros k. rewrite admitted_app, Hfut', admitted_one, Z.ltb_irrefl, andb_false_r. done.
    + intros k a. rewrite admitted_app, admitted_one. specialize (Hb k a).
      destruct (bool_decide (key = k)) eqn:Ek; cbn [andb]; [|lia].
      apply bool_decide_eq_true in Ek as ->. destruct (_ && _) eqn:Et; [|lia].
      unfold log_allows in Ea.
      pose proof (admitted_mono k (λ t, (a <? t) && (t <=? a + w)) (λ t, now - w <? t) log ltac:(instants)).
      lia.
  - destruct Hm as [Hle Hm]. apply (IH now); [done| |done].
    intros k. apply (admitted_zero _ _ _ _ (Hfut k)). instants.
Qed.

End Sliding.

(** ** Properties *)

(** The fixed-window limiter, over any clock-ordered run of requests and
    cleanup ticks: the run never panics, no key gets more than twice its rate
    in any interval of one window's length, and a request is refused only when
    its key was granted the full rate in the window before it. *)
Theorem fixed_window_bound r w from es :
  1 ≤ r < 2 ^ 62 → window_ok w → monotone from es →
  ∃ l0 log l, NewSimpleLimiter r w = Some l0 ∧ run simple_cleanup l0 es = Some (log, l) ∧
    (∀ key a, admitted key (λ t, (a <=? t) && (t <? a + w)) log ≤ 2 * r) ∧
    (∀ key now, end_time from es ≤ now → (simple_Allow now key l).1 = false →
       r ≤ admitted key (λ t, now - w <? t) log).
Proof.
  intros Hr Hw Hm. unfold NewSimpleLimiter. rewrite window_double by done.
  replace (w * 2 <=? 0) with false by (unfold window_ok in Hw; lia).
  destruct (simple_run_inv simple_cleanup (simple_table r w)) with
    (es := es) (last := from) (log0 := @nil (string * Time)) (l := mkSimple r w ∅ (w * 2))
    as (log & l & Hrun & HR).
  - intros last now key log l Hle HR. eexists _, _.
    split; [cbn [Allow SimpleLimiter_limiter]; by rewrite (surjective_pairing (simple_Allow now key l))|]. by apply (simple_Allow_table r w Hr Hw last).
  - intros last now log l. by apply simple_cleanup_table.
  - done.
  - split; [done|]. split; [done|]. intros key. simpl. rewrite lookup_empty.
    split; [|done]. intros a. unfold admitted, countb. simpl. lia.
  - eexists _, log, l. split; [done|]. split; [done|]. split.
    + intros key a. apply HR.
    + intros key now Hnow. by eapply simple_Allow_table.
Qed.

Lemma fixed_window_bound_witness :
  ∃ l0 log l, NewSimpleLimiter 2 100 = Some l0 ∧ run simple_cleanup l0 sample_events = Some (log, l) ∧
    admitted "a" (λ t, (90 <=? t) && (t <? 90 + 100)) log ≤ 4.
Proof.
  destruct (fixed_window_bound 2 100 0 sample_events) as (l0 & log & l & H1 & H2 & H3 & _).
  - lia.
  - unfold window_ok; lia.
  - simpl. lia.
  - exists l0, log, l. split; [exact H1|]. split; [exact H2|]. apply H3.
Defined.



End RateLimit.
