(* ===== verification/RedisLimit.v ===== *)
(** * The limiter over Redis (src/middlewares/ratelimit/redis_limiter.go)

    The script runs in the server as one step.  Its numbers are doubles, which
    round a count of nanoseconds to a multiple of 256, and Lua writes the time of
    a request into the member's name with fourteen digits; both are written out.
    Sorted sets are a class of the commands the script uses with their documented
    effect.  Clients and server share one clock, and the client sends the script once. *)

From S2P Require Import Prelude RateLimit.

Module RedisLimit.

(** ** Numbers of the script *)

(** [x] to the nearest multiple of [g], halves to the even one. *)
Definition round_even (x g : Z) : Z :=
  let q := x / g in
  let r := x `mod` g in
  if (g <? 2 * r) || ((2 * r =? g) && Z.odd q) then (q + 1) * g else q * g.

Definition double_pos (x : Z) : Z := if x <=? 2 ^ 53 then x else round_even x (2 ^ (Z.log2 x - 52)).

(** [tonumber]: the nearest double of a whole number. *)
Definition double (x : Z) : Z := if x <? 0 then - double_pos (- x) else double_pos x.

(** The decimal digits of a positive number. *)
Fixpoint digits_fuel (fuel : nat) (x : Z) : Z :=
  match fuel with O => 0 | S fuel => if x <? 10 then 1 else 1 + digits_fuel fuel (x / 10) end.

(** The number that [%.14g] writes; the text determines it and is determined by it. *)
Definition shown (x : Z) : Z := let d := digits_fuel 20 x in if d <=? 14 then x else round_even x (10 ^ (d - 14)).

(** ** The server *)

(** A member is the time shown and the random number after it. *)
Record SortedSet := mkSet { members : gmap (Z * Z) Z; expire_at : option Time }.

Class RedisSortedSets (R : Type) := {
  redis_ZREMRANGEBYSCORE : Time → string → Z → R → R;
  redis_ZCARD : Time → string → R → Z;
  redis_ZADD : Time → string → Z → Z * Z → R → R;
  redis_EXPIRE : Time → string → Z → R → R
}.

(** A key that has expired is gone. *)
Definition live_set (now : Time) (s : option SortedSet) : SortedSet :=
  match s with
  | Some s => if from_option (λ t, t <=? now) false (expire_at s) then mkSet ∅ None else s
  | None => mkSet ∅ None
  end.

(** So is one without members. *)
Definition kept_set (s : SortedSet) : SortedSet := if decide (members s = ∅) then mkSet ∅ None else s.

Class RedisSortedSetsOk (R : Type) `{RedisSortedSets R} := {
  sorted_set : R → string → option SortedSet;
  redis_ZREMRANGEBYSCORE_ok : ∀ now k hi r,
    live_set now (sorted_set (redis_ZREMRANGEBYSCORE now k hi r) k) =
      (let s := live_set now (sorted_set r k) in kept_set (mkSet (filter (λ ms, hi < ms.2) (members s)) (expire_at s))) ∧
    ∀ k', k' ≠ k → sorted_set (redis_ZREMRANGEBYSCORE now k hi r) k' = sorted_set r k';
  redis_ZCARD_ok : ∀ now k r, redis_ZCARD now k r = Z.of_nat (size (members (live_set now (sorted_set r k))));
  redis_ZADD_ok : ∀ now k score m r,
    live_set now (sorted_set (redis_ZADD now k score m r) k) =
      (let s := live_set now (sorted_set r k) in mkSet (<[m := score]> (members s)) (expire_at s)) ∧
    ∀ k', k' ≠ k → sorted_set (redis_ZADD now k score m r) k' = sorted_set r k';
  redis_EXPIRE_ok : ∀ now k seconds r, 0 < seconds →
    live_set now (sorted_set (redis_EXPIRE now k seconds r) k) =
      (let s := live_set now (sorted_set r k) in kept_set (mkSet (members s) (Some (now + seconds * Second)))) ∧
    ∀ k', k' ≠ k → sorted_set (redis_EXPIRE now k seconds r) k' = sorted_set r k'
}.

(** ** The script and the limiter *)

Section limiter.
  Context {R : Type} `{RedisSortedSets R}.

(** [math.random] is seeded alike for each run of a script: [rnd] is its first
    number.  [clock] is the time the server reads. *)
Definition slidingWindowLua (rnd : Z) (clock : Time) (KEYS1 : string) (ARGV1 ARGV2 ARGV3 ARGV4 : Z) (r : R) : Z * R :=
  let now := double ARGV1 in
  let window := double ARGV2 in
  let limit := double ARGV3 in
  let r := redis_ZREMRANGEBYSCORE clock KEYS1 (double (now - window)) r in
  let count := redis_ZCARD clock KEYS1 r in
  if limit <=? count then (0, r)
  else
    let r := redis_ZADD clock KEYS1 now (shown now, rnd) r in
    let r := redis_EXPIRE clock KEYS1 ARGV4 r in
    (1, r).

Record RedisLimiter := mkLimiter { client : R; rate : Z; window : Duration; prefix : string; seed : Z }.

Definition NewRedisLimiter (client : R) (seed rate : Z) (window : Duration) (prefix : list string) : RedisLimiter :=
  let p := match prefix with p :: _ => if decide (p ≠ "") then p else "gw:rl" | [] => "gw:rl" end in
  mkLimiter client rate window p seed.

Definition fullKey (l : RedisLimiter) (key : string) : string := (prefix l +:+ ":" +:+ key)%string.

Definition expireSec (l : RedisLimiter) : Z := window l / Second + 1.

(** [reached] says whether the script ran and [answered] whether its answer came in
    time; without an answer the request passes. *)
Definition Allow (reached answered : bool) (now : Time) (key : string) (l : RedisLimiter) : bool * RedisLimiter :=
  if reached then
    let '(result, r) := slidingWindowLua (seed l) now (fullKey l key) now (window l) (rate l) (expireSec l) (client l) in
    (if answered then result =? 1 else true, mkLimiter r (rate l) (window l) (prefix l) (seed l))
  else (true, l).

(** ** Runs *)

Record Request := mkRequest { r_key : string; r_time : Time; r_reached : bool; r_answered : bool }.

Fixpoint run (l : RedisLimiter) (rs : list Request) : list bool * RedisLimiter :=
  match rs with
  | [] => ([], l)
  | r :: rs =>
      let '(ok, l) := Allow (r_reached r) (r_answered r) (r_time r) (r_key r) l in
      let '(oks, l) := run l rs in (ok :: oks, l)
  end.

End limiter.
Arguments RedisLimiter : clear implicits.

#[export] Instance RedisLimiter_limiter {R} `{RedisSortedSets R} : RateLimit.Limiter (RedisLimiter R) :=
  { Allow now key l := Some (Allow true true now key l) }.

(** ** What the theorems speak of *)

(** Where the window of a request begins, in the script's numbers. *)
Definition start (w : Duration) (now : Time) : Z := double (double now - double w).

(** The reference: times of the requests counted for a key, latest first. *)
Definition counted (key : string) (log : list (string * Time)) : list Time :=
  omap (λ kt, if decide (kt.1 = key) then Some kt.2 else None) log.

Definition in_window (w : Duration) (now : Time) (ts : list Time) : Z :=
  countb (λ t, start w now <? double t) ts.

(** A request that reaches the server passes when fewer than [r] were counted in
    its window. *)
Fixpoint ref_run (r : Z) (w : Duration) (log : list (string * Time)) (rs : list Request) : list bool * list (string * Time) :=
  match rs with
  | [] => ([], log)
  | q :: rs =>
      let ok := in_window w (r_time q) (counted (r_key q) log) <? r in
      let log' := if r_reached q && ok then (r_key q, r_time q) :: log else log in
      let '(oks, log) := ref_run r w log' rs in
      ((if r_reached q && r_answered q then ok else true) :: oks, log)
  end.

Definition in_range (t : Time) : Prop := 0 ≤ t < 2 ^ 62.

(** The clock of the requests, which does not go back, and their stamps, which tell
    those of one key apart. *)
Fixpoint clocked (from : Time) (rs : list Request) : Prop :=
  match rs with [] => True | r :: rs => from ≤ r_time r ∧ in_range (r_time r) ∧ clocked (r_time r) rs end.

Definition stamps (key : string) (rs : list Request) : list Z :=
  omap (λ r, if decide (r_key r = key ∧ r_reached r = true) then Some (shown (double (r_time r))) else None) rs.

(** Windows below a hundred days that end well before the second they are rounded
    up to, as whole seconds do. *)
Definition window_ok (w : Duration) : Prop := 1024 ≤ w ≤ 2 ^ 53 ∧ w `mod` Second ≤ Second - 1024.

(** A server that holds nothing but sorted sets. *)
#[export] Instance sets_server : RedisSortedSets (gmap string SortedSet) := {
  redis_ZREMRANGEBYSCORE now k hi r :=
    let s := live_set now (r !! k) in <[k := kept_set (mkSet (filter (λ ms, hi < ms.2) (members s)) (expire_at s))]> r;
  redis_ZCARD now k r := Z.of_nat (size (members (live_set now (r !! k))));
  redis_ZADD now k score m r :=
    let s := live_set now (r !! k) in <[k := mkSet (<[m := score]> (members s)) (expire_at s)]> r;
  redis_EXPIRE now k seconds r :=
    let s := live_set now (r !! k) in <[k := kept_set (mkSet (members s) (Some (now + seconds * Second)))]> r
}.

Definition entry (seed : Z) (t : Time) : (Z * Z) * Z := ((shown (double t), seed), double t).

(** The members that stand for the counted times after [lo]. *)
Definition set_of (seed lo : Z) (ts : list Time) : gmap (Z * Z) Z :=
  list_to_map (entry seed <$> filter (λ t, lo < double t) ts).

Definition stamp (t : Time) : Z := shown (double t).

(** What the server holds at the time [from] for the counted times [ts]. *)
Definition represents (seed : Z) (w : Duration) (from : Time) (s : SortedSet) (ts : list Time) : Prop :=
  (∃ lo, lo ≤ start w from ∧ members s = set_of seed lo ts) ∧
  (∀ e, expire_at s = Some e → Forall (λ t, t + w + 1024 ≤ e) ts).

Definition log_ok (from : Time) (log : list (string * Time)) : Prop := ∀ key, Forall (λ t, in_range t ∧ t ≤ from) (counted key log).

Definition sparse (r : Z) (w : Duration) (log : list (string * Time)) : Prop :=
  ∀ key a, countb (λ t, (a <? t) && (t <=? a + w - 2048)) (counted key log) ≤ Z.max 0 r.

Definition next_log (r : Z) (w : Duration) (q : Request) (log : list (string * Time)) : list (string * Time) :=
  if r_reached q && (in_window w (r_time q) (counted (r_key q) log) <? r) then (r_key q, r_time q) :: log else log.

Definition simulates {R} `{RedisSortedSetsOk R} (l : RedisLimiter R) (from : Time) (log : list (string * Time)) : Prop :=
  ∀ key, represents (seed l) (window l) from (live_set from (sorted_set (client l) (fullKey l key))) (counted key log).

(** ** Lemmas *)

(** *** Rounding *)

Lemma round_even_between x g m : 0 < g → (m * g ≤ x → m * g ≤ round_even x g) ∧ (x ≤ m * g → round_even x g ≤ m * g).
Proof.
  intros Hg. unfold round_even. pose proof (Z.div_mod x g ltac:(lia)). pose proof (Z.mod_pos_bound x g Hg).
  set (q := x / g) in *. set (r := x `mod` g) in *.
  split; intros Hx.
  - assert (m ≤ q) by nia. case_match; nia.
  - destruct (decide (x = m * g)) as [->|].
    + assert (r = 0) as Hr by (unfold r; apply Z_mod_mult). assert (q = m) as Hq by nia.
      rewrite Hr. replace (g <? 2 * 0) with false by lia. replace (2 * 0 =? g) with false by lia. simpl. nia.
    + assert (q < m) by nia. case_match; nia.
Qed.

Lemma round_even_near x g : 0 < g → 2 * Z.abs (round_even x g - x) ≤ g.
Proof.
  intros Hg. unfold round_even. pose proof (Z.div_mod x g ltac:(lia)). pose proof (Z.mod_pos_bound x g Hg).
  set (q := x / g) in *. set (r := x `mod` g) in *. destruct ((g <? 2 * r) || ((2 * r =? g) && Z.odd q)) eqn:E; [|nia].
  assert (g ≤ 2 * r) by (apply orb_true_iff in E as [E|[E _]%andb_true_iff]; lia). nia.
Qed.

Lemma round_even_mono x y g : 0 < g → x ≤ y → round_even x g ≤ round_even y g.
Proof.
  intros Hg Hxy. destruct (decide (x / g = y / g)) as [E|E].
  - unfold round_even. rewrite <- E. pose proof (Z.div_mod x g ltac:(lia)). pose proof (Z.div_mod y g ltac:(lia)).
    assert (x `mod` g ≤ y `mod` g) by nia. set (r := x `mod` g) in *. set (r' := y `mod` g) in *.
    destruct (Z.odd (x / g)); repeat case_match; lia.
  - assert (x / g < y / g) as Hlt by (pose proof (Z.div_le_mono x y g Hg Hxy); lia).
    assert (x ≤ (x / g + 1) * g) as Hx by (pose proof (Z.div_mod x g ltac:(lia)); pose proof (Z.mod_pos_bound x g Hg); nia).
    assert (y / g * g ≤ y) as Hy by (pose proof (Z.div_mod y g ltac:(lia)); pose proof (Z.mod_pos_bound y g Hg); nia).
    apply (round_even_between x g) in Hx; [|done]. apply (round_even_between y g) in Hy; [|done]. nia.
Qed.

Lemma log2_big x : 2 ^ 53 < x → 53 ≤ Z.log2 x.
Proof. intros. change 53 with (Z.log2 (2 ^ 53)). apply Z.log2_le_mono; lia. Qed.

Lemma double_pos_near x : 0 ≤ x < 2 ^ 62 → Z.abs (double_pos x - x) ≤ 256.
Proof.
  intros Hx. unfold double_pos. destruct (x <=? 2 ^ 53) eqn:E; [lia|].
  assert (2 ^ (Z.log2 x - 52) ≤ 512).
  { change 512 with (2 ^ 9). apply Z.pow_le_mono_r; [lia|]. assert (Z.log2 x < 62) by (apply Z.log2_lt_pow2; lia). lia. }
  pose proof (log2_big x ltac:(lia)).
  assert (0 < 2 ^ (Z.log2 x - 52)) as Hg by (apply Z.pow_pos_nonneg; lia).
  pose proof (round_even_near x _ Hg). lia.
Qed.

(** The powers of two that surround a number surround its double. *)
Lemma double_pos_binade x : 2 ^ 53 < x → 2 ^ Z.log2 x ≤ double_pos x ≤ 2 ^ (Z.log2 x + 1).
Proof.
  intros Hx. pose proof (log2_big x Hx). destruct (Z.log2_spec x ltac:(lia)) as [Hl Hu]. rewrite <- Z.add_1_r in Hu.
  unfold double_pos. replace (x <=? 2 ^ 53) with false by lia.
  assert (0 < 2 ^ (Z.log2 x - 52)) as Hg by (apply Z.pow_pos_nonneg; lia).
  assert (2 ^ Z.log2 x = 2 ^ 52 * 2 ^ (Z.log2 x - 52)) as E1 by (rewrite <- Z.pow_add_r by lia; f_equal; lia).
  assert (2 ^ (Z.log2 x + 1) = 2 ^ 53 * 2 ^ (Z.log2 x - 52)) as E2 by (rewrite <- Z.pow_add_r by lia; f_equal; lia).
  pose proof (round_even_between x _ (2 ^ 52) Hg) as [H1 _]. pose proof (round_even_between x _ (2 ^ 53) Hg) as [_ H2].
  rewrite E1 in Hl |- *. rewrite E2 in Hu |- *. split; [apply H1, Hl | apply H2; lia].
Qed.

Lemma double_pos_mono x y : 0 ≤ x → x ≤ y → double_pos x ≤ double_pos y.
Proof.
  intros H0 Hxy. destruct (decide (y ≤ 2 ^ 53)).
  { unfold double_pos. replace (x <=? 2 ^ 53) with true by lia. by replace (y <=? 2 ^ 53) with true by lia. }
  pose proof (double_pos_binade y ltac:(lia)) as [Hy _]. pose proof (log2_big y ltac:(lia)).
  destruct (decide (x ≤ 2 ^ 53)).
  { unfold double_pos at 1. replace (x <=? 2 ^ 53) with true by lia.
    assert (2 ^ 53 ≤ 2 ^ Z.log2 y) by (apply Z.pow_le_mono_r; lia). lia. }
  destruct (decide (Z.log2 x = Z.log2 y)) as [E|E].
  - unfold double_pos. replace (x <=? 2 ^ 53) with false by lia. replace (y <=? 2 ^ 53) with false by lia.
    rewrite E. apply round_even_mono; [apply Z.pow_pos_nonneg; lia | done].
  - pose proof (double_pos_binade x ltac:(lia)) as [_ Hx]. pose proof (Z.log2_le_mono x y Hxy).
    assert (2 ^ (Z.log2 x + 1) ≤ 2 ^ Z.log2 y) by (apply Z.pow_le_mono_r; lia). lia.
Qed.

Lemma double_pos_nonneg x : 0 ≤ x → 0 ≤ double_pos x.
Proof. intros. change 0 with (double_pos 0). by apply double_pos_mono. Qed.

Lemma double_mono x y : x ≤ y → double x ≤ double y.
Proof.
  intros Hxy. unfold double. destruct (x <? 0) eqn:Ex, (y <? 0) eqn:Ey; try lia.
  - apply Z.opp_le_mono. rewrite !Z.opp_involutive. apply double_pos_mono; lia.
  - pose proof (double_pos_nonneg (- x)). pose proof (double_pos_nonneg y). lia.
  - apply double_pos_mono; lia.
Qed.

Lemma double_near x : - 2 ^ 62 < x < 2 ^ 62 → Z.abs (double x - x) ≤ 256.
Proof.
  intros Hx. unfold double. destruct (x <? 0) eqn:E; [pose proof (double_pos_near (- x)) | pose proof (double_pos_near x)]; lia.
Qed.

Lemma double_exact x : - 2 ^ 53 ≤ x ≤ 2 ^ 53 → double x = x.
Proof.
  intros Hx. unfold double, double_pos.
  destruct (x <? 0) eqn:E; [replace (- x <=? 2 ^ 53) with true by lia | replace (x <=? 2 ^ 53) with true by lia]; lia.
Qed.

Lemma start_mono w t t' : t ≤ t' → start w t ≤ start w t'.
Proof. intros. apply double_mono. pose proof (double_mono t t'). lia. Qed.

(** The window begins within 512 nanoseconds of where the clock says. *)
Lemma start_near w t : 0 < w ≤ 2 ^ 53 → in_range t → Z.abs (start w t - (t - w)) ≤ 512.
Proof.
  intros Hw Ht. unfold start. unfold in_range in Ht. rewrite (double_exact w) by lia. pose proof (double_near t ltac:(lia)).
  assert (double t ≤ 2 ^ 62) by exact (double_mono t (2 ^ 62) ltac:(lia)).
  assert (0 ≤ double t) by exact (double_mono 0 t ltac:(lia)).
  pose proof (double_near (double t - w) ltac:(lia)). lia.
Qed.

(** *** Sorted sets *)

Lemma set_of_cons seed lo t ts :
  set_of seed lo (t :: ts) = if decide (lo < double t) then <[(stamp t, seed) := double t]> (set_of seed lo ts) else set_of seed lo ts.
Proof. unfold set_of. rewrite filter_cons. destruct (decide (lo < double t)); done. Qed.

Lemma set_of_fresh seed lo t ts : stamp t ∉ (stamp <$> ts) → set_of seed lo ts !! (stamp t, seed) = None.
Proof.
  intros Ht. apply not_elem_of_list_to_map_1. intros (e & He & (t' & -> & [_ Hin]%list_elem_of_filter)%list_elem_of_fmap)%list_elem_of_fmap.
  simplify_eq He. intros He'. apply Ht, list_elem_of_fmap. by exists t'.
Qed.

Lemma set_of_filter seed lo hi ts :
  NoDup (stamp <$> ts) → lo ≤ hi → filter (λ ms, hi < ms.2) (set_of seed lo ts) = set_of seed hi ts.
Proof.
  intros Hnd Hlo. induction ts as [|t ts IH]; [apply map_filter_empty|]. apply NoDup_cons in Hnd as [Ht Hnd].
  rewrite !set_of_cons. destruct (decide (hi < double t)).
  - rewrite decide_True by lia. rewrite map_filter_insert_True by done. by rewrite IH.
  - case_decide; [|by apply IH]. rewrite map_filter_insert_not'; [by apply IH | done|].
    intros y. by rewrite set_of_fresh.
Qed.

Lemma set_of_size seed lo ts : NoDup (stamp <$> ts) → Z.of_nat (size (set_of seed lo ts)) = countb (λ t, lo <? double t) ts.
Proof.
  unfold countb. induction ts as [|t ts IH]; [done|]. intros [Ht Hnd]%NoDup_cons. rewrite set_of_cons. cbn [sumZ].
  destruct (decide (lo < double t)).
  - rewrite map_size_insert_None by by apply set_of_fresh. replace (lo <? double t) with true by lia. specialize (IH Hnd). lia.
  - replace (lo <? double t) with false by lia. specialize (IH Hnd). lia.
Qed.

Section runs.
  Context (w : Duration) (Hw : window_ok w).

Lemma early_is_out now t : in_range now → in_range t → t + w + 1024 ≤ now → double t ≤ start w now.
Proof using Hw.
  intros Hn Ht Hlt. destruct Hw as [? _]. pose proof (start_near w now ltac:(lia) Hn). unfold in_range in *.
  pose proof (double_near t ltac:(lia)). lia.
Qed.

Lemma now_is_in now : in_range now → start w now < double now.
Proof using Hw.
  intros Hn. destruct Hw as [? _]. pose proof (start_near w now ltac:(lia) Hn). unfold in_range in *.
  pose proof (double_near now ltac:(lia)). lia.
Qed.

Lemma set_of_none seed lo ts : Forall (λ t, double t ≤ lo) ts → set_of seed lo ts = ∅.
Proof. induction 1 as [|t ts Ht _ IH]; [done|]. rewrite set_of_cons. by rewrite decide_False by lia. Qed.

Lemma live_later now now' s : now ≤ now' → live_set now' s = live_set now' (Some (live_set now s)).
Proof.
  intros Hle. destruct s as [[m [e|]]|]; simpl; try done. destruct (e <=? now) eqn:E; simpl; [by replace (e <=? now') with true by lia|done].
Qed.

(** What the script finds in the window. *)
Lemma live_window seed from now s ts :
  represents seed w from s ts → from ≤ now → in_range now → Forall in_range ts → NoDup (stamp <$> ts) →
  filter (λ ms, start w now < ms.2) (members (live_set now (Some s))) = set_of seed (start w now) ts.
Proof using Hw.
  intros [(lo & Hlo & Hm) He] Hfrom Hn Hts Hnd. cbn [live_set].
  destruct (from_option _ false (expire_at s)) eqn:E; cbn [members].
  - rewrite map_filter_empty. symmetry. apply set_of_none. destruct (expire_at s) as [e|]; [|done]. simpl in E.
    specialize (He e eq_refl). rewrite Forall_forall in *. intros t Ht. apply early_is_out; auto. specialize (He t Ht). lia.
  - rewrite Hm. apply set_of_filter; [done|]. pose proof (start_mono w from now Hfrom). lia.
Qed.

Lemma live_expiry now e (s : SortedSet) ts : (∀ e, expire_at s = Some e → Forall (λ t, t + w + 1024 ≤ e) ts) →
  expire_at (live_set now (Some s)) = Some e → Forall (λ t, t + w + 1024 ≤ e) ts.
Proof using. intros He. simpl. case_match; [done|]. apply He. Qed.

Lemma expires_late now : now + w + 1024 ≤ now + (w / Second + 1) * Second.
Proof using Hw. destruct Hw as [_ Hs]. pose proof (Z.div_mod w Second ltac:(done)). lia. Qed.

Lemma members_kept s : members (kept_set s) = members s.
Proof using. unfold kept_set. by case_decide. Qed.

Context {R : Type} `{RedisSortedSetsOk R}.

(** One run of the script. *)
Lemma script_step seed lim from now key r ts :
  represents seed w from (live_set from (sorted_set r key)) ts → from ≤ now → in_range now → Forall (λ t, in_range t ∧ t ≤ now) ts →
  - 2 ^ 53 ≤ lim ≤ 2 ^ 53 → NoDup (stamp <$> ts) → stamp now ∉ (stamp <$> ts) →
  let ok := in_window w now ts <? lim in
  ∃ r', slidingWindowLua seed now key now w lim (w / Second + 1) r = (if ok then 1 else 0, r') ∧
    represents seed w now (live_set now (sorted_set r' key)) (if ok then now :: ts else ts) ∧
    ∀ k', k' ≠ key → sorted_set r' k' = sorted_set r k'.
Proof using Hw.
  intros Hs Hfrom Hn Hts Hr Hnd Hfresh ok. unfold slidingWindowLua.
  assert (Forall in_range ts) as Hts1 by (eapply Forall_impl; [exact Hts|]; tauto).
  pose proof (live_window seed from now _ ts Hs Hfrom Hn Hts1 Hnd) as Hm. rewrite <- live_later in Hm by done.
  fold (start w now). rewrite (double_exact lim) by done.
  destruct (redis_ZREMRANGEBYSCORE_ok now key (start w now) r) as [Hrem Hrem'].
  set (r1 := redis_ZREMRANGEBYSCORE now key (start w now) r) in *. cbv zeta in Hrem.
  rewrite redis_ZCARD_ok, Hrem, members_kept. cbn [members]. rewrite Hm, set_of_size by done. fold (in_window w now ts).
  replace (lim <=? in_window w now ts) with (negb ok) by (unfold ok; lia).
  assert (members (live_set now (sorted_set r1 key)) = set_of seed (start w now) ts) as Hm1 by (by rewrite Hrem, members_kept).
  destruct ok; cbn [negb]; eexists; (split; [done|]).
  - destruct (redis_ZADD_ok now key (double now) (shown (double now), seed) r1) as [Hadd Hadd'].
    set (r2 := redis_ZADD _ _ _ _ r1) in *. assert (0 < w / Second + 1) as Hpos.
    { destruct Hw as [? _]. pose proof (Z.div_pos w Second ltac:(lia) ltac:(done)). lia. }
    destruct (redis_EXPIRE_ok now key (w / Second + 1) r2 Hpos) as [Hexp Hexp'].
    split; [|intros k' Hk; by rewrite Hexp', Hadd', Hrem'].
    assert (members (live_set now (sorted_set r2 key)) = set_of seed (start w now) (now :: ts)) as Hm2.
    { rewrite Hadd. cbn [members]. rewrite Hm1, set_of_cons, decide_True by by apply now_is_in. done. }
    rewrite Hexp. split.
    + exists (start w now). split; [done|]. by rewrite members_kept.
    + intros e. unfold kept_set. case_decide; cbn [expire_at]; [done|]. intros [= <-]. pose proof (expires_late now).
      constructor; [done|]. eapply Forall_impl; [exact Hts|]. simpl. lia.
  - split; [|done]. split; [by exists (start w now)|]. intros e. rewrite Hrem. unfold kept_set. case_decide; [done|]. cbn [expire_at].
    rewrite (live_later from now) by done. apply live_expiry, Hs.
Qed.

End runs.

(** *** Runs *)

Lemma countb_impl {A} (p q : A → bool) l : Forall (λ x, p x = true → q x = true) l → countb p l ≤ countb q l.
Proof.
  unfold countb. induction 1 as [|x l Hx _ IH]; cbn [sumZ]; [done|]. destruct (p x); [rewrite Hx by done; lia|]. destruct (q x); lia.
Qed.

Lemma counted_cons key k t log : counted key ((k, t) :: log) = if decide (k = key) then t :: counted key log else counted key log.
Proof. unfold counted. cbn [omap list_omap fst snd]. by destruct (decide (k = key)). Qed.

Lemma stamps_cons key q rs :
  stamps key (q :: rs) = if decide (r_key q = key ∧ r_reached q = true) then stamp (r_time q) :: stamps key rs else stamps key rs.
Proof. unfold stamps, stamp. cbn [omap list_omap]. by destruct (decide _). Qed.

Lemma log_ok_later from from' log : from ≤ from' → log_ok from log → log_ok from' log.
Proof. intros ? H key. eapply Forall_impl; [apply H|]. intros t [??]. split; [done|lia]. Qed.

Lemma log_ok_cons from now log key : log_ok from log → from ≤ now → in_range now → log_ok now ((key, now) :: log).
Proof.
  intros Hl Hf Hn k. pose proof (log_ok_later from now log Hf Hl k). rewrite counted_cons. case_decide; [|done].
  constructor; [split; [done|lia] | done].
Qed.

Lemma sparse_cons r w from now key log :
  window_ok w → log_ok from log → from ≤ now → in_range now → in_window w now (counted key log) < r →
  sparse r w log → sparse r w ((key, now) :: log).
Proof.
  intros Hw Hl Hf Hn Hlt Hs k a. rewrite counted_cons. case_decide; [subst k|apply Hs].
  specialize (Hs key a). unfold countb in Hs |- *. cbn [sumZ]. destruct ((a <? now) && (now <=? a + w - 2048)) eqn:E; [|lia].
  apply andb_true_iff in E as [Ea Eb]. enough (countb (λ t, (a <? t) && (t <=? a + w - 2048)) (counted key log) ≤ in_window w now (counted key log)) as He
    by (unfold countb in He; lia).
  apply countb_impl. eapply Forall_impl; [apply Hl|]. intros t [Ht _] [Hat _]%andb_true_iff. destruct Hw as [Hw _].
  pose proof (start_near w now ltac:(lia) Hn). unfold in_range in *. pose proof (double_near t ltac:(lia)). lia.
Qed.

Section servers.
  Context {R : Type} `{RedisSortedSetsOk R}.

Lemma represents_later sd w from from' s ts :
  from ≤ from' → window_ok w → in_range from' → Forall in_range ts → represents sd w from (live_set from s) ts →
  represents sd w from' (live_set from' s) ts.
Proof using.
  intros Hf Hw Hn Hts [(lo & Hlo & Hm) He]. rewrite (live_later from from') by done. set (s1 := live_set from s) in *. cbn [live_set].
  destruct (from_option _ false (expire_at s1)) eqn:E; (split; [|done]).
  - exists (start w from'). split; [done|]. symmetry. apply set_of_none. destruct (expire_at s1) as [e|]; [|done]. simpl in E.
    specialize (He e eq_refl). rewrite Forall_forall in *. intros t Ht. apply early_is_out; auto. specialize (He t Ht). lia.
  - exists lo. split; [|done]. pose proof (start_mono w from from' Hf). lia.
Qed.

Lemma Allow_sim l from log q :
  window_ok (window l) → - 2 ^ 53 ≤ rate l ≤ 2 ^ 53 → log_ok from log → from ≤ r_time q → in_range (r_time q) →
  NoDup (stamp <$> counted (r_key q) log) → (r_reached q = true → stamp (r_time q) ∉ (stamp <$> counted (r_key q) log)) →
  simulates l from log →
  let '(ok, l') := Allow (r_reached q) (r_answered q) (r_time q) (r_key q) l in
  ok = (if r_reached q && r_answered q then in_window (window l) (r_time q) (counted (r_key q) log) <? rate l else true) ∧
  rate l' = rate l ∧ window l' = window l ∧ simulates l' (r_time q) (next_log (rate l) (window l) q log).
Proof using.
  intros Hw Hr Hlog Hf Hn Hnd Hfresh Hs. unfold Allow, next_log, expireSec.
  assert (∀ key, Forall in_range (counted key log)) as Hin by (intros key; eapply Forall_impl; [apply Hlog|]; tauto).
  assert (∀ key, represents (seed l) (window l) (r_time q) (live_set (r_time q) (sorted_set (client l) (fullKey l key))) (counted key log)) as Hlater
    by (intros key; by apply (represents_later _ _ from)).
  destruct (r_reached q); cbn [andb]; [|done].
  destruct (script_step (window l) Hw (seed l) (rate l) from (r_time q) _ _ _ (Hs (r_key q)) Hf Hn
    (log_ok_later from _ log Hf Hlog (r_key q)) Hr Hnd (Hfresh eq_refl)) as (r' & -> & Hs' & Hother).
  cbn [rate window]. split; [by destruct (r_answered q), (_ <? _)|]. do 2 (split; [done|]). intros key. cbn [seed window client].
  change (fullKey _ key) with (fullKey l key). destruct (decide (key = r_key q)) as [->|Hne].
  - destruct (_ <? _); [|done]. by rewrite counted_cons, decide_True.
  - rewrite Hother by (intros E; apply (inj (String.app _)), (inj (String.app _)) in E; congruence).
    destruct (_ <? _); [rewrite counted_cons, decide_False by congruence|]; apply Hlater.
Qed.

Lemma run_sim rs : ∀ l from log,
  window_ok (window l) → - 2 ^ 53 ≤ rate l ≤ 2 ^ 53 → log_ok from log → clocked from rs →
  (∀ key, NoDup ((stamp <$> counted key log) ++ stamps key rs)) → simulates l from log → sparse (rate l) (window l) log →
  (run l rs).1 = (ref_run (rate l) (window l) log rs).1 ∧ sparse (rate l) (window l) (ref_run (rate l) (window l) log rs).2.
Proof using.
  induction rs as [|q rs IH]; intros l from log Hw Hr Hlog Hcl Hnd Hs Hsp; [done|]. destruct Hcl as (Hf & Hn & Hcl).
  pose proof (Hnd (r_key q)) as Hq. rewrite stamps_cons in Hq. apply NoDup_app in Hq as (Hq1 & Hq2 & _).
  assert (r_reached q = true → stamp (r_time q) ∉ (stamp <$> counted (r_key q) log)) as Hfresh.
  { intros Hreach Hin. apply (Hq2 _ Hin). rewrite decide_True by done. left. }
  pose proof (Allow_sim l from log q Hw Hr Hlog Hf Hn Hq1 Hfresh Hs) as Hstep. cbn [run ref_run].
  destruct (Allow _ _ _ _ l) as [ok l']. destruct Hstep as (-> & Hrate & Hwin & Hs'). fold (next_log (rate l) (window l) q log).
  specialize (IH l' (r_time q) (next_log (rate l) (window l) q log)). rewrite Hrate, Hwin in IH.
  destruct (run l' rs) as [oks l''], (ref_run _ _ (next_log _ _ _ _) rs) as [oks' log'].
  unfold next_log in IH, Hs'. cbn [fst snd] in IH |- *. destruct (r_reached q && (in_window _ _ _ <? _)) eqn:E.
  - apply andb_true_iff in E as [Er Ew].
    destruct IH as [-> Hsp']; auto; [by eapply log_ok_cons | | eapply sparse_cons; eauto; lia].
    intros key. specialize (Hnd key). rewrite counted_cons. rewrite stamps_cons in Hnd. destruct (decide (r_key q = key)) as [<-|Hne].
    + rewrite decide_True in Hnd by done. rewrite fmap_cons, <- app_comm_cons. by rewrite Permutation_middle.
    + by rewrite decide_False in Hnd by naive_solver.
  - destruct IH as [-> Hsp']; auto; [by eapply log_ok_later|].
    intros key. specialize (Hnd key). rewrite stamps_cons in Hnd. destruct (decide (r_key q = key ∧ _)); [|done].
    apply (sublist_NoDup _ _ Hnd). apply sublist_app; [done|]. by constructor.
Qed.

End servers.

(** ** Theorems *)

Lemma sets_server_ok : RedisSortedSetsOk (gmap string SortedSet).
Proof.
  refine {| sorted_set (r : gmap string SortedSet) k := r !! k |}.
  - intros. cbn. rewrite lookup_insert_eq. split; [|intros k' Hk; by rewrite lookup_insert_ne].
    unfold kept_set. case_decide; [done|]. destruct (r !! k) as [[m [e|]]|]; cbn; try done.
    destruct (e <=? now) eqn:E; cbn; [done|by rewrite E].
  - done.
  - intros. cbn. rewrite lookup_insert_eq. split; [|intros k' Hk; by rewrite lookup_insert_ne].
    destruct (r !! k) as [[m' [e|]]|]; cbn; try done. destruct (e <=? now) eqn:E; cbn; [done|by rewrite E].
  - intros. cbn. rewrite lookup_insert_eq. split; [|intros k' Hk; by rewrite lookup_insert_ne].
    unfold kept_set. case_decide; [done|]. cbn. by replace (now + seconds * Second <=? now) with false by (unfold Second, Millisecond, Microsecond; lia).
Defined.
#[export] Existing Instance sets_server_ok.

(** C26. The limiter over Redis: on a clock that does not go back, with requests of
    one key told apart by the fourteen digits of their time, it decides every
    request the server answers as the reference does - it passes when fewer than the
    limit were counted in the window before it, expiry of the key notwithstanding -
    and lets every other request pass, counted or not; and within any stretch of the window's
    length, less two microseconds, it counts at most the limit. *)
Theorem redis_limiter_refines {R} `{RedisSortedSetsOk R} (l : RedisLimiter R) (rs : list Request) (from : Time) :
  (∀ key, sorted_set (client l) (fullKey l key) = None) → window_ok (window l) → - 2 ^ 53 ≤ rate l ≤ 2 ^ 53 →
  clocked from rs → (∀ key, NoDup (stamps key rs)) →
  let '(oks, log) := ref_run (rate l) (window l) [] rs in
  (run l rs).1 = oks ∧
  ∀ key a, countb (λ t, (a <? t) && (t <=? a + window l - 2048)) (counted key log) ≤ Z.max 0 (rate l).
Proof.
  intros He Hw Hr Hcl Hnd. destruct (run_sim rs l from [] Hw Hr) as [H1 H2]; auto.
  - intros key. constructor.
  - intros key. rewrite He. split; [by exists (start (window l) from)|done].
  - intros key a. unfold countb. simpl. lia.
  - by destruct (ref_run _ _ _ _).
Qed.

Lemma redis_limiter_refines_witness :
  let l := NewRedisLimiter (∅ : gmap string SortedSet) 170829 2 Second [] in
  let at_ms ms := mkRequest "u" (1700000000000000000 + ms * 1000000) true true in
  let rs := [at_ms 0; at_ms 300; at_ms 600; at_ms 1100; mkRequest "u" 1700000001150000000 false false; at_ms 1200] in
  (run l rs).1 = [true; true; false; true; true; false].
Proof.
  pose proof (redis_limiter_refines (NewRedisLimiter (∅ : gmap string SortedSet) 170829 2 Second [])
    (let at_ms ms := mkRequest "u" (1700000000000000000 + ms * 1000000) true true in
     [at_ms 0; at_ms 300; at_ms 600; at_ms 1100; mkRequest "u" 1700000001150000000 false false; at_ms 1200]) 0) as H.
  apply H; clear H.
  - done.
  - by vm_compute.
  - by vm_compute.
  - by vm_compute.
  - intros key. unfold stamps. cbn [omap list_omap r_key r_reached r_time].
    destruct (decide ("u" = key)) as [<-|Hne]; cbn [app].
    + apply (bool_decide_unpack _); by vm_compute.
    + repeat (rewrite decide_False by naive_solver). constructor.
Defined.

(** Ten requests within a tenth of a millisecond share a member, so the set never
    holds two of them and all pass a limit of two. *)
Example burst_shares_member :
  let at_us us := mkRequest "u" (1700000000000000000 + us * 1000) true true in
  (run (NewRedisLimiter (∅ : gmap string SortedSet) 170829 2 Second []) (at_us <$> [0; 5; 10; 15; 20; 25; 30; 35; 40; 45])).1 = replicate 10 true.
Proof. by vm_compute. Qed.

(** A prefix of "" is the default one, shared with every other limiter that has it. *)
Example empty_prefix_is_default : prefix (NewRedisLimiter (∅ : gmap string SortedSet) 0 1 Second [""]) = "gw:rl".
Proof. done. Qed.

End RedisLimit.
