(* ===== verification/ActiveLimit.v ===== *)
(** * Active-request limiting (src/middlewares/activelimit/middleware.go)

    The handler built over one shared counter: its two atomic additions are
    steps of their own, so any number of requests interleave between them. *)

From S2P Require Import Prelude.

Module ActiveLimit.

Record Builder := mkBuilder { maxActive : Z }.

Definition NewBuilder (n : Z) : Builder := mkBuilder n.

(** What a request that has added itself to the counter is doing. *)
Inductive Phase := Inside | Aborted.

#[export] Instance Phase_eq_dec : EqDecision Phase.
Proof. solve_decision. Defined.

(** The shared counter and the requests whose deferred decrement is pending. *)
Record St := mkSt { currentActive : Z; running : list Phase }.

Definition init : St := mkSt 0 [].

(** The increment and the check; the request then runs [c.Next()] or aborts. *)
Definition enter (b : Builder) (s : St) : Phase * St :=
  let current := i64 (currentActive s + 1) in
  let p := if maxActive b <? current then Aborted else Inside in
  (p, mkSt current (running s ++ [p])).

(** The deferred decrement of the [i]-th pending request. *)
Definition leave (i : nat) (s : St) : St :=
  match running s !! i with
  | None => s
  | Some _ => mkSt (i64 (currentActive s - 1)) (delete i (running s))
  end.

(** Interleavings: requests arrive and finish in any order. *)
Inductive step (b : Builder) : St → St → Prop :=
| StepEnter s : step b s (enter b s).2
| StepLeave s i p : running s !! i = Some p → step b s (leave i s).

(** The requests inside the protected handler. *)
Definition inside (s : St) : Z := countb (λ p, bool_decide (p = Inside)) (running s).

(** The counter is exact, and the requests inside are within the limit. *)
Definition inv (b : Builder) (s : St) : Prop :=
  currentActive s = Z.of_nat (length (running s)) ∧ inside s ≤ Z.max 0 (maxActive b).

Lemma countb_delete {A} (p : A → bool) l i : countb p (delete i l) ≤ countb p l.
Proof.
  unfold countb. revert i. induction l as [|a l IH]; intros [|i]; simpl; try done.
  - case_match; lia.
  - specialize (IH i). lia.
Qed.

Lemma enter_inv b s :
  inv b s → Z.of_nat (length (running s)) < 2 ^ 63 - 1 → inv b (enter b s).2.
Proof.
  intros [Hc Hi] Hlt. unfold enter, inv, inside in *. simpl. rewrite Hc, i64_id by word.
  rewrite length_app, countb_app. simpl. split; [lia|].
  pose proof (countb_le_length (λ p, bool_decide (p = Inside)) (running s)).
  unfold countb at 2. case_match; simpl; lia.
Qed.

Lemma leave_inv b s i p :
  inv b s → Z.of_nat (length (running s)) < 2 ^ 63 → running s !! i = Some p → inv b (leave i s).
Proof.
  intros [Hc Hi] Hlt Hp. unfold leave. rewrite Hp. unfold inv, inside in *. simpl.
  pose proof (lookup_lt_Some _ _ _ Hp). rewrite length_delete by done.
  rewrite Hc, i64_id by word. split; [lia|].
  pose proof (countb_delete (λ p, bool_decide (p = Inside)) (running s) i). lia.
Qed.

Lemma step_length b s s' : step b s s' → (length (running s') ≤ S (length (running s)))%nat.
Proof.
  destruct 1 as [s|s i p Hp]; simpl; [rewrite length_app; simpl; lia|].
  unfold leave. rewrite Hp. simpl. pose proof (lookup_lt_Some _ _ _ Hp).
  rewrite length_delete by done. lia.
Qed.

Lemma nsteps_inv b n s s' :
  nsteps (step b) n s s' → inv b s → Z.of_nat (length (running s)) + Z.of_nat n < 2 ^ 63 →
  inv b s' ∧ (length (running s') ≤ length (running s) + n)%nat.
Proof.
  induction 1 as [s|n s1 s2 s3 Hs _ IH]; intros Hinv Hlt; [split; [done|lia]|].
  pose proof (step_length _ _ _ Hs).
  assert (inv b s2) as Hinv2; [|destruct (IH Hinv2) as [? ?]; [lia|split; [done|lia]]]. destruct Hs as [s|s i p Hp].
  - apply enter_inv; [done|lia].
  - apply leave_inv with p; [done|lia|done].
Qed.

(** However requests interleave, the handler is never run by more than
    [maxActive] of them at once; the counter is exactly the number of requests
    whose decrement is pending, so it is back to zero when all are done; and a
    request that finds fewer than [maxActive] pending is let in. *)
Theorem active_limit_safe b n s :
  nsteps (step b) n init s → Z.of_nat n < 2 ^ 63 - 1 →
  inside s ≤ Z.max 0 (maxActive b) ∧
  currentActive s = Z.of_nat (length (running s)) ∧
  ((enter b s).1 = Inside ↔ Z.of_nat (length (running s)) < maxActive b).
Proof.
  intros Hn Hlt. assert (inv b init) as H0 by (unfold inv, inside, countb; simpl; lia).
  pose proof (nsteps_inv b n init s Hn H0 ltac:(simpl; lia)) as [[Hc Hi] Hlen]. simpl in Hlen.
  split; [done|]. split; [done|]. unfold enter. cbn [fst]. rewrite Hc, i64_id by word.
  case_match; split; intros; try done; zlia.
Qed.

Lemma active_limit_safe_witness :
  inside (leave 0 (enter (NewBuilder 1) (enter (NewBuilder 1) init).2).2) ≤ 1.
Proof.
  apply (active_limit_safe (NewBuilder 1) 3).
  - eapply nsteps_l; [apply StepEnter|]. eapply nsteps_l; [apply StepEnter|].
    eapply nsteps_l; [apply (StepLeave _ _ 0 Inside); reflexivity|constructor].
  - lia.
Defined.

End ActiveLimit.
