(* ===== verification/CacheMemory.v ===== *)
(** * In-memory cache and typed cache (src/cache/memory/cache.go, src/cache/types.go)

    [Memory] is the item map under its lock: one definition per method, each
    taking the clock reading of its critical section.  [Cache] is the interface
    the typed wrapper is written against; JSON is a parameter of the wrapper. *)

From S2P Require Import Prelude.

Module CacheMemory.

Inductive Error := ErrCacheNotFound | ErrCacheExpired | ErrCacheNotInitialized.

(** A Go byte slice: [None] is nil. *)
Definition bytes := option string.

Inductive ExpireStrategy :=
| ExpireNever | ExpireAfterWrite | ExpireAfterAccess | ExpireAfterWriteOrAccess.

Record Config := mkConfig {
  DefaultExpiration : Duration;
  CleanupInterval : Duration;
  MaxSize : Z;
  Strategy : ExpireStrategy
}.

Definition DefaultConfig : Config := mkConfig (30 * Minute) (1 * Minute) 10000 ExpireAfterWrite.

(** [expiration] is in nanoseconds since the epoch, 0 for never. *)
Record item := mkItem { value : bytes; expiration : Z }.

Definition expired (now : Time) (i : item) : bool :=
  if expiration i =? 0 then false else expiration i <? UnixNano now.

Record Memory := mkMemory {
  items : gmap string item;
  config : Config;
  stopped : bool
}.

Definition set_items (its : gmap string item) (m : Memory) : Memory :=
  mkMemory its (config m) (stopped m).

Definition New (cfgs : list Config) : Memory :=
  mkMemory ∅ (default DefaultConfig (head cfgs)) false.

Definition DeleteExpired (now : Time) (m : Memory) : Memory :=
  set_items (filter (λ ki, expired now ki.2 = false) (items m)) m.

(** One turn of the cleanup goroutine, which [New] starts for a positive interval. *)
Definition cleanup_tick (now : Time) (m : Memory) : Memory :=
  if (0 <? CleanupInterval (config m)) && negb (stopped m) then DeleteExpired now m else m.

(** Closing a closed channel panics. *)
Definition Close (m : Memory) : option Memory :=
  if stopped m then None else Some (mkMemory (items m) (config m) true).

Definition Get (now : Time) (m : Memory) (key : string) : res Error bytes :=
  match items m !! key with
  | None => Err ErrCacheNotFound
  | Some i => if expired now i then Err ErrCacheExpired else Ok (value i)
  end.

(** The scan of [deleteOldest]: the key and expiration kept so far. *)
Fixpoint oldest_scan (l : list (string * item)) (oldestKey : string) (oldestExp : Z) : string * Z :=
  match l with
  | [] => (oldestKey, oldestExp)
  | (key, i) :: l =>
      if (oldestExp =? -1) || (expiration i <? oldestExp)
      then oldest_scan l key (expiration i)
      else oldest_scan l oldestKey oldestExp
  end.

Definition deleteOldest `{RangeOrder} (m : Memory) : Memory :=
  let '(oldestKey, _) := oldest_scan (range_map (items m)) "" (-1) in
  if decide (oldestKey = "") then m else set_items (delete oldestKey (items m)) m.

Definition Set_ `{RangeOrder} (now : Time) (m : Memory) (key : string) (v : bytes)
    (exp : Duration) : Memory :=
  let m :=
    if (0 <? MaxSize (config m)) && (MaxSize (config m) <=? Z.of_nat (size (items m)))
    then deleteOldest m else m in
  let e :=
    if 0 <? exp then UnixNano (now + exp)
    else if 0 <? DefaultExpiration (config m) then UnixNano (now + DefaultExpiration (config m))
    else 0 in
  set_items (<[key := mkItem v e]> (items m)) m.

(** [now] is the reading of [expired], [now'] that of the new deadline. *)
Definition SetNX (now now' : Time) (m : Memory) (key : string) (v : bytes) (exp : Duration)
    : bool * Memory :=
  if match items m !! key with Some i => negb (expired now i) | None => false end
  then (false, m)
  else
    let e := if 0 <? exp then UnixNano (now' + exp) else 0 in
    (true, set_items (<[key := mkItem v e]> (items m)) m).

(** The callback runs between the two critical sections: its result is [fn]. *)
Definition GetOrSet `{RangeOrder} {E} (now now' : Time) (m : Memory) (key : string)
    (fn : res E bytes) (exp : Duration) : res E bytes * Memory :=
  match Get now m key with
  | Ok v => (Ok v, m)
  | Err _ =>
      match fn with
      | Err e => (Err e, m)
      | Ok v => (Ok v, Set_ now' m key v exp)
      end
  end.

Definition Delete (m : Memory) (key : string) : Memory := set_items (delete key (items m)) m.

Definition Exists (now : Time) (m : Memory) (key : string) : bool :=
  match items m !! key with None => false | Some i => negb (expired now i) end.

Definition Expire (now : Time) (m : Memory) (key : string) (exp : Duration) : res Error unit * Memory :=
  match items m !! key with
  | None => (Err ErrCacheNotFound, m)
  | Some i => (Ok tt, set_items (<[key := mkItem (value i) (UnixNano (now + exp))]> (items m)) m)
  end.

Definition TTL (now : Time) (m : Memory) (key : string) : res Error Duration :=
  match items m !! key with
  | None => Err ErrCacheNotFound
  | Some i =>
      if expiration i =? 0 then Ok (-1)
      else
        let remaining := time_sub (expiration i) now in
        if remaining <? 0 then Err ErrCacheExpired else Ok remaining
  end.

Definition Clear (m : Memory) : Memory := set_items ∅ m.

Definition Count `{RangeOrder} (now : Time) (m : Memory) : Z :=
  countb (λ ki, negb (expired now ki.2)) (range_map (items m)).

Definition Keys `{RangeOrder} (now : Time) (m : Memory) : list string :=
  (filter (λ ki, expired now ki.2 = false) (range_map (items m))).*1.

(** ** The [Cache] interface and the typed wrapper *)

(** The operations [TypedCache] uses, over a state [St]. *)
Class Cache (St E : Type) := {
  cache_Get : Time → St → string → res E bytes;
  cache_Set : Time → St → string → bytes → Duration → res E unit * St;
  cache_GetOrSet : Time → Time → St → string → res E bytes → Duration → res E bytes * St;
  cache_Delete : St → string → res E unit * St
}.

(** What a client may rely on: while it lives an entry reads back, a loader runs
    only on a miss, and what is deleted is gone. *)
Class CacheOk (St E : Type) `{Cache St E} := {
  cache_ready : Time → Duration → St → Prop;
  cache_lives : Time → Duration → Time → Prop;
  cache_get_set now now' s k v d :
    cache_ready now d s → cache_lives now d now' →
    is_ok (cache_Set now s k (Some v) d).1 = true ∧ cache_Get now' (cache_Set now s k (Some v) d).2 k = Ok (Some v);
  cache_get_or_set_hit now now' s k fn d v :
    cache_Get now s k = Ok v → cache_GetOrSet now now' s k fn d = (Ok v, s);
  cache_get_or_set_miss now now' s k fn d v :
    is_ok (cache_Get now s k) = false → fn = Ok v →
    cache_GetOrSet now now' s k fn d =
      (match (cache_Set now' s k v d).1 with Ok _ => Ok v | Err e => Err e end, (cache_Set now' s k v d).2);
  cache_get_delete now s k : is_ok (cache_Get now (cache_Delete s k).2 k) = false
}.

(** [encoding/json] on the wrapped type: marshalling a value and a pointer. *)
Class Json (T E : Type) := {
  json_Marshal : T → res E string;
  json_Marshal_ptr : option T → res E string;
  json_Unmarshal : string → res E T
}.

Section Typed.
Context {St T E : Type} `{Cache St E} `{Json T E}.

Record TypedCache := mkTyped { cache : St; prefix : string }.

Definition NewTypedCache (c : St) (p : string) : TypedCache := mkTyped c p.

(** [Ok None] is the nil pointer returned for nil data. *)
Definition typed_Get (now : Time) (c : TypedCache) (key : string) : res E (option T) :=
  let? data := cache_Get now (cache c) (prefix c +:+ key)%string in
  match data with
  | None => Ok None
  | Some s => let? r := json_Unmarshal s in Ok (Some r)
  end.

Definition typed_Set (now : Time) (c : TypedCache) (key : string) (v : T) (d : Duration)
    : res E unit * TypedCache :=
  match json_Marshal v with
  | Err e => (Err e, c)
  | Ok data =>
      let '(r, s) := cache_Set now (cache c) (prefix c +:+ key)%string (Some data) d in
      (r, mkTyped s (prefix c))
  end.

(** Unmarshalling nil data is unmarshalling the empty input. *)
Definition typed_GetOrSet (now now' : Time) (c : TypedCache) (key : string)
    (fn : res E (option T)) (d : Duration) : res E T * TypedCache :=
  let load := let? v := fn in let? s := json_Marshal_ptr v in Ok (Some s) in
  let '(r, s) := cache_GetOrSet now now' (cache c) (prefix c +:+ key)%string load d in
  ((let? data := r in json_Unmarshal (default "" data)), mkTyped s (prefix c)).

Definition typed_Delete (c : TypedCache) (key : string) : res E unit * TypedCache :=
  let '(r, s) := cache_Delete (cache c) (prefix c +:+ key)%string in (r, mkTyped s (prefix c)).

End Typed.
Arguments TypedCache : clear implicits.

(** The package-level functions over the default cache. *)
Definition default_Get {St} `{Cache St Error} (now : Time) (d : option St) (key : string)
    : res Error bytes :=
  match d with None => Err ErrCacheNotInitialized | Some s => cache_Get now s key end.

Definition default_Set {St} `{Cache St Error} (now : Time) (d : option St) (key : string)
    (v : bytes) (exp : Duration) : res Error unit * option St :=
  match d with
  | None => (Err ErrCacheNotInitialized, d)
  | Some s => let '(r, s) := cache_Set now s key v exp in (r, Some s)
  end.

Definition default_Delete {St} `{Cache St Error} (d : option St) (key : string)
    : res Error unit * option St :=
  match d with
  | None => (Err ErrCacheNotInitialized, d)
  | Some s => let '(r, s) := cache_Delete s key in (r, Some s)
  end.

#[export] Instance Memory_cache `{RangeOrder} : Cache Memory Error := {
  cache_Get := Get;
  cache_Set now m k v d := (Ok tt, Set_ now m k v d);
  cache_GetOrSet now now' m k fn d := GetOrSet now now' m k fn d;
  cache_Delete m k := (Ok tt, Delete m k)
}.

(** ** The specification: a map of values with optional deadlines, from which
    dead entries vanish by themselves *)

Record entry := mkEntry { content : bytes; deadline : option Time }.

Definition alive (now : Time) (e : entry) : bool :=
  match deadline e with None => true | Some d => now <=? d end.

Definition purge (now : Time) (s : gmap string entry) : gmap string entry :=
  filter (λ ke, alive now ke.2 = true) s.

Inductive Op :=
| OGet (key : string)
| OSet (key : string) (v : bytes) (exp : Duration)
| OSetNX (key : string) (v : bytes) (exp : Duration)
| ODelete (key : string)
| OExists (key : string)
| OExpire (key : string) (exp : Duration)
| OTTL (key : string)
| OClear
| OCount
| OKeys
| OSweep.

Inductive Resp :=
| RDone
| RMiss
| RValue (v : bytes)
| RBool (b : bool)
| RTTL (left : option Duration)
| RCount (n : Z)
| RKeys (keys : gset string).

(** The deadline a write gives: the requested one, else the default, else none. *)
Definition write_deadline (now : Time) (exp dflt : Duration) : option Time :=
  if 0 <? exp then Some (now + exp) else if 0 <? dflt then Some (now + dflt) else None.

Definition spec_op (dflt : Duration) (now : Time) (o : Op) (s : gmap string entry)
    : Resp * gmap string entry :=
  match o with
  | OGet k => (match s !! k with Some e => RValue (content e) | None => RMiss end, s)
  | OSet k v d => (RDone, <[k := mkEntry v (write_deadline now d dflt)]> s)
  | OSetNX k v d =>
      match s !! k with
      | Some _ => (RBool false, s)
      | None => (RBool true, <[k := mkEntry v (write_deadline now d 0)]> s)
      end
  | ODelete k => (RDone, delete k s)
  | OExists k => (RBool (bool_decide (is_Some (s !! k))), s)
  | OExpire k d =>
      match s !! k with
      | Some e => (RDone, <[k := mkEntry (content e) (Some (now + d))]> s)
      | None => (RMiss, s)
      end
  | OTTL k =>
      (match s !! k with
       | Some e => RTTL ((λ d, d - now) <$> deadline e)
       | None => RMiss
       end, s)
  | OClear => (RDone, ∅)
  | OCount => (RCount (Z.of_nat (size s)), s)
  | OKeys => (RKeys (dom s), s)
  | OSweep => (RDone, s)
  end.

(** The code's methods as the same operations, misses of either kind alike. *)
Definition mem_op `{RangeOrder} (now : Time) (o : Op) (m : Memory) : Resp * Memory :=
  match o with
  | OGet k => (match Get now m k with Ok v => RValue v | Err _ => RMiss end, m)
  | OSet k v d => (RDone, Set_ now m k v d)
  | OSetNX k v d => let '(b, m) := SetNX now now m k v d in (RBool b, m)
  | ODelete k => (RDone, Delete m k)
  | OExists k => (RBool (Exists now m k), m)
  | OExpire k d =>
      let '(r, m) := Expire now m k d in (match r with Ok _ => RDone | Err _ => RMiss end, m)
  | OTTL k =>
      (match TTL now m k with
       | Ok d => RTTL (if d =? -1 then None else Some d)
       | Err _ => RMiss
       end, m)
  | OClear => (RDone, Clear m)
  | OCount => (RCount (Count now m), m)
  | OKeys => (RKeys (list_to_set (Keys now m)), m)
  | OSweep => (RDone, cleanup_tick now m)
  end.

Fixpoint mem_run `{RangeOrder} (os : list (Time * Op)) (m : Memory) : list Resp * Memory :=
  match os with
  | [] => ([], m)
  | (now, o) :: os =>
      let '(r, m) := mem_op now o m in
      let '(rs, m) := mem_run os m in (r :: rs, m)
  end.

Fixpoint spec_run (dflt : Duration) (os : list (Time * Op)) (s : gmap string entry)
    : list Resp * gmap string entry :=
  match os with
  | [] => ([], s)
  | (now, o) :: os =>
      let '(r, s) := spec_op dflt now o (purge now s) in
      let '(rs, s) := spec_run dflt os s in (r :: rs, s)
  end.

(** The instants and durations the arithmetic is exact for. *)
Definition time_ok (t : Time) : Prop := 0 < t < 2 ^ 61.

Definition duration_ok (d : Duration) : Prop := d < 2 ^ 61.

Definition op_ok (now : Time) (o : Op) : Prop :=
  match o with
  | OSet _ _ d | OSetNX _ _ d => duration_ok d
  | OExpire _ d => duration_ok d ∧ 0 < now + d
  | _ => True
  end.

(** A trace is disciplined when its clock does not go back, its durations are
    in range and [Expire] is not called on a key whose entry has died. *)
Fixpoint disciplined (dflt : Duration) (last : Time) (os : list (Time * Op))
    (s : gmap string entry) : Prop :=
  match os with
  | [] => True
  | (now, o) :: os =>
      last ≤ now ∧ time_ok now ∧ op_ok now o ∧
      match o with OExpire k _ => is_Some (purge now s !! k) | _ => True end ∧
      disciplined dflt now os (spec_op dflt now o (purge now s)).2
  end.

(** The abstraction: the live items, with 0 read as no deadline. *)
Definition entry_of (i : item) : entry :=
  mkEntry (value i) (if expiration i =? 0 then None else Some (expiration i)).

Definition abs (now : Time) (m : Memory) : gmap string entry :=
  purge now (entry_of <$> items m).

(** Expirations are instants the clock can reach. *)
Definition wf (m : Memory) : Prop := map_Forall (λ _ i, 0 ≤ expiration i < 2 ^ 63) (items m).

(** Operations on non-empty keys that respect the capacity test. *)
Definition capped_op (o : Op) : bool :=
  match o with
  | OSetNX _ _ _ => false
  | OSet k _ _ => bool_decide (k ≠ "")
  | _ => true
  end.

(** What capped operations preserve. *)
Definition capped (m : Memory) : Prop :=
  wf m ∧ items m !! "" = None ∧ Z.of_nat (size (items m)) ≤ MaxSize (config m).

(** A JSON for the witnesses: strings as they are. *)
Definition plain_json : Json string Error := {|
  json_Marshal := Ok;
  json_Marshal_ptr := λ o, Ok (default "null" o);
  json_Unmarshal := Ok
|}.

Definition sample_cache : Memory := New [mkConfig 0 0 2 ExpireAfterWrite].

Definition sample_ops : list (Time * Op) :=
  [(10, OSet "a" (Some "x") 5); (12, OSetNX "a" (Some "y") 5); (14, OTTL "a"); (16, OGet "a");
   (17, OSetNX "a" (Some "y") 0); (18, OSweep); (30, OExpire "a" 3); (33, OCount); (34, OKeys)].

(** ** The abstraction *)

Lemma purge_lookup now s k :
  purge now s !! k = (s !! k) ≫= λ e, if alive now e then Some e else None.
Proof.
  unfold purge. rewrite map_lookup_filter. destruct (s !! k) as [e|]; simpl; [|done].
  case_guard as E; simpl in *; [by rewrite E|]. by destruct (alive now e).
Qed.

Lemma purge_later now now' s : now ≤ now' → purge now' (purge now s) = purge now' s.
Proof.
  intros Hle. apply map_eq. intros k. rewrite !purge_lookup.
  destruct (s !! k) as [[c [d|]]|]; simpl; try done. unfold alive; simpl.
  destruct (Z.leb_spec now d); simpl; [done|]. by replace (now' <=? d) with false by lia.
Qed.

Lemma purge_insert now k e s : purge now (<[k := e]> (purge now s)) = purge now (<[k := e]> s).
Proof.
  apply map_eq. intros k'. rewrite !purge_lookup. destruct (decide (k = k')) as [->|Hne].
  - by rewrite !lookup_insert_eq.
  - rewrite !lookup_insert_ne, purge_lookup by done. destruct (s !! k') as [e'|]; simpl; [|done].
    by destruct (alive now e') eqn:E; simpl; rewrite ?E.
Qed.

Lemma purge_purge now s : purge now (purge now s) = purge now s.
Proof. by apply purge_later. Qed.

Lemma alive_entry_of now i :
  time_ok now → 0 ≤ expiration i → alive now (entry_of i) = negb (expired now i).
Proof.
  intros Ht Hi. unfold alive, entry_of, expired, UnixNano, time_ok in *. simpl.
  rewrite i64_id by word. destruct (Z.eqb_spec (expiration i) 0); simpl; lia.
Qed.

Lemma abs_lookup now m k :
  time_ok now → wf m →
  abs now m !! k = items m !! k ≫= λ i, if expired now i then None else Some (entry_of i).
Proof.
  intros Ht Hwf. unfold abs. rewrite purge_lookup, lookup_fmap.
  destruct (items m !! k) as [i|] eqn:Hi; simpl; [|done]. specialize (Hwf k i Hi). simpl in Hwf.
  rewrite alive_entry_of by (done || lia). by destruct (expired now i).
Qed.

Lemma abs_insert now m k i :
  abs now (set_items (<[k := i]> (items m)) m) = purge now (<[k := entry_of i]> (abs now m)).
Proof. unfold abs. simpl. by rewrite fmap_insert, purge_insert. Qed.

Lemma wf_insert m k i :
  wf m → 0 ≤ expiration i < 2 ^ 63 → wf (set_items (<[k := i]> (items m)) m).
Proof. intros Hm Hi. by apply map_Forall_insert_2. Qed.

Lemma wf_delete m k : wf m → wf (set_items (delete k (items m)) m).
Proof. intros Hm. by apply map_Forall_delete. Qed.

Lemma abs_delete now m k : abs now (Delete m k) = delete k (abs now m).
Proof. unfold abs. simpl. rewrite fmap_delete. apply map_filter_delete. Qed.

(** The stored word of a deadline reads back as that deadline. *)
Lemma entry_of_write now v exp dflt :
  time_ok now → duration_ok exp → duration_ok dflt →
  let e := if 0 <? exp then UnixNano (now + exp) else if 0 <? dflt then UnixNano (now + dflt) else 0 in
  0 ≤ e < 2 ^ 63 ∧ entry_of (mkItem v e) = mkEntry v (write_deadline now exp dflt).
Proof.
  intros Ht He Hd e. subst e. unfold time_ok, duration_ok, UnixNano, entry_of, write_deadline in *.
  destruct (Z.ltb_spec 0 exp); [|destruct (Z.ltb_spec 0 dflt)]; simpl.
  - rewrite i64_id by word. replace (now + exp =? 0) with false by lia. split; [lia|done].
  - rewrite i64_id by word. replace (now + dflt =? 0) with false by lia. split; [lia|done].
  - split; [lia|done].
Qed.

Section Sim.
Context `{RangeOrder}.

Lemma elem_of_Keys now m k :
  k ∈ Keys now m ↔ ∃ i, items m !! k = Some i ∧ expired now i = false.
Proof.
  unfold Keys. rewrite list_elem_of_fmap. split.
  - intros ([k' i] & -> & [Hx Hin]%list_elem_of_filter). apply elem_of_range_map in Hin. by exists i.
  - intros (i & Hi & Hx). exists (k, i). split; [done|]. by rewrite list_elem_of_filter, elem_of_range_map.
Qed.

Lemma NoDup_Keys now m : NoDup (Keys now m).
Proof.
  apply NoDup_fmap_filter, NoDup_fst_range_map.
Qed.

Lemma Count_Keys now m : Count now m = Z.of_nat (length (Keys now m)).
Proof.
  unfold Count, Keys, countb. rewrite length_fmap.
  induction (range_map (items m)) as [|[k i] l IH]; [done|]. cbn [sumZ snd]. rewrite filter_cons. simpl.
  destruct (expired now i); simpl; lia.
Qed.

Lemma dom_abs now m :
  time_ok now → wf m → dom (abs now m) = list_to_set (Keys now m).
Proof.
  intros Ht Hwf. apply set_eq. intros k. rewrite elem_of_dom, elem_of_list_to_set, elem_of_Keys.
  rewrite abs_lookup by done. split.
  - intros [e He]. destruct (items m !! k) as [i|]; [|done]. simpl in He.
    destruct (expired now i) eqn:E; [done|]. by exists i.
  - intros (i & -> & E). simpl. rewrite E. by eexists.
Qed.

Lemma Set_unbounded now m k v d :
  MaxSize (config m) ≤ 0 → time_ok now → duration_ok d → duration_ok (DefaultExpiration (config m)) → wf m →
  abs now (Set_ now m k v d) =
    purge now (<[k := mkEntry v (write_deadline now d (DefaultExpiration (config m)))]> (abs now m)) ∧
  wf (Set_ now m k v d).
Proof.
  intros Hmax Ht Hd Hdd Hwf. unfold Set_. replace (0 <? MaxSize (config m)) with false by lia.
  cbn [andb]. destruct (entry_of_write now v d _ Ht Hd Hdd) as [He1 He2]. split.
  - by rewrite abs_insert, He2.
  - by apply wf_insert.
Qed.

Lemma abs_sweep now m : time_ok now → wf m → abs now (cleanup_tick now m) = abs now m ∧ wf (cleanup_tick now m).
Proof.
  intros Ht Hwf. unfold cleanup_tick. destruct (_ && _); [|done].
  assert (wf (DeleteExpired now m)) as Hwf' by (intros k i [Hk _]%map_lookup_filter_Some; by apply (Hwf k)).
  split; [|done]. apply map_eq. intros k. rewrite !abs_lookup by done. simpl. rewrite map_lookup_filter.
  destruct (items m !! k) as [i|]; simpl; [|done]. case_guard as E; simpl in *; [done|].
  by destruct (expired now i).
Qed.

(** One operation simulates its specification. *)
Lemma mem_op_sim now o m :
  MaxSize (config m) ≤ 0 → duration_ok (DefaultExpiration (config m)) → wf m →
  time_ok now → op_ok now o →
  match o with OExpire k _ => is_Some (abs now m !! k) | _ => True end →
  (mem_op now o m).1 = (spec_op (DefaultExpiration (config m)) now o (abs now m)).1 ∧
  abs now (mem_op now o m).2 = purge now (spec_op (DefaultExpiration (config m)) now o (abs now m)).2 ∧
  wf (mem_op now o m).2 ∧ config (mem_op now o m).2 = config m.
Proof.
  intros Hmax Hd Hwf Ht Ho Hguard.
  assert (purge now (abs now m) = abs now m) as Hp by apply purge_purge.
  pose proof (abs_lookup now m) as Hl.
  destruct o as [k|k v d|k v d|k|k|k d|k| | | |]; simpl in *.
  - rewrite Hp, Hl by done. unfold Get. split; [|done].
    destruct (items m !! k) as [i|]; simpl; [|done]. by destruct (expired now i).
  - destruct (Set_unbounded now m k v d) as [-> ?]; [done..|]. split_and!; try done.
    unfold Set_. by replace (0 <? MaxSize (config m)) with false by lia.
  - rewrite Hl by done. unfold SetNX.
    assert (duration_ok 0) as H0 by (unfold duration_ok; lia).
    destruct (entry_of_write now v d 0 Ht Ho H0) as [He1 He2]. simpl in He1, He2.
    destruct (items m !! k) as [i|] eqn:Hi; simpl; [destruct (expired now i) eqn:E; simpl|].
    2: by rewrite Hp.
    all: split; [done|]; split; [by rewrite abs_insert, He2|]; split; [by apply wf_insert|done].
  - rewrite abs_delete. split; [done|]. split; [|split; [by apply wf_delete|done]].
    rewrite <- Hp at 1. symmetry. apply map_filter_delete.
  - rewrite Hp, Hl by done. unfold Exists. split; [|done].
    destruct (items m !! k) as [i|]; simpl; [|done]. by destruct (expired now i).
  - rewrite Hl in * by done. unfold Expire. destruct Hguard as [e He].
    destruct (items m !! k) as [i|]; [|done]. simpl in *. destruct (expired now i); [done|].
    unfold duration_ok, time_ok in *. simplify_eq. simpl. split; [done|].
    assert (UnixNano (now + d) = now + d) as -> by (unfold UnixNano; apply i64_id; word).
    split; [|split; [apply wf_insert; simpl; [done|lia]|done]].
    rewrite abs_insert. unfold entry_of. simpl. by replace (now + d =? 0) with false by lia.
  - rewrite Hp, Hl by done. unfold TTL. split; [|done].
    destruct (items m !! k) as [i|] eqn:Hi; simpl; [|done]. specialize (Hwf k i Hi). simpl in Hwf.
    unfold expired, entry_of, UnixNano, time_ok in *. rewrite i64_id by word.
    destruct (Z.eqb_spec (expiration i) 0) as [E|E]; simpl; [done|].
    assert (time_sub (expiration i) now = expiration i - now) as -> by (unfold time_sub; lia).
    destruct (Z.ltb_spec (expiration i) now), (Z.ltb_spec (expiration i - now) 0); try lia; simpl; [done|].
    by replace (expiration i - now =? -1) with false by lia.
  - split; [done|]. split; [|done]. done.
  - rewrite Hp. split; [|done]. f_equal. rewrite Count_Keys, <- size_dom, dom_abs by done.
    by rewrite size_list_to_set by apply NoDup_Keys.
  - rewrite Hp, dom_abs by done. done.
  - rewrite Hp. destruct (abs_sweep now m) as [-> ?]; [done..|]. split_and!; try done.
    unfold cleanup_tick. by case_match.
Qed.

Lemma mem_run_sim os dflt last m s :
  MaxSize (config m) ≤ 0 → DefaultExpiration (config m) = dflt → duration_ok dflt → wf m →
  (∀ now, last ≤ now → time_ok now → purge now s = abs now m) →
  disciplined dflt last os s →
  (mem_run os m).1 = (spec_run dflt os s).1.
Proof.
  revert last m s. induction os as [|[now o] os IH]; intros last m s Hmax Hdf Hd Hwf Habs Hdis; simpl; [done|].
  destruct Hdis as (Hle & Ht & Ho & Hg & Hdis). rewrite (Habs now Hle Ht) in *.
  assert (match o with OExpire k _ => is_Some (abs now m !! k) | _ => True end) as Hg' by (by destruct o).
  rewrite <- Hdf in Hd. destruct (mem_op_sim now o m Hmax Hd Hwf Ht Ho Hg') as (E1 & E2 & Hwf' & Hcfg).
  rewrite Hdf in *.
  destruct (mem_op now o m) as [r m'], (spec_op dflt now o (abs now m)) as [r' s']. simpl in *. subst r'.
  specialize (IH now m' s'). rewrite Hcfg in IH.
  assert ((mem_run os m').1 = (spec_run dflt os s').1) as E; [apply IH; try done|].
  - intros t Hle' Ht'. rewrite <- (purge_later now t) by done. rewrite <- E2. unfold abs. by apply purge_later.
  - by destruct (mem_run os m'), (spec_run dflt os s'); simpl in *; rewrite E.
Qed.

End Sim.

(** ** Eviction *)

Lemma oldest_scan_spec l k0 e0 :
  0 ≤ e0 → Forall (λ ki, 0 ≤ expiration ki.2) l →
  let '(k, e) := oldest_scan l k0 e0 in
  0 ≤ e ≤ e0 ∧ Forall (λ ki, e ≤ expiration ki.2) l ∧
  ((k, e) = (k0, e0) ∨ ∃ i, (k, i) ∈ l ∧ expiration i = e).
Proof.
  intros He Hl. revert k0 e0 He. induction Hl as [|[k1 i1] l Hi Hl IH]; intros k0 e0 He; simpl in *.
  - split; [lia|]. split; [constructor|by left].
  - replace (e0 =? -1) with false by lia. simpl. destruct (Z.ltb_spec (expiration i1) e0) as [Hlt|Hge].
    + specialize (IH k1 (expiration i1) Hi). destruct (oldest_scan l k1 (expiration i1)) as [k e].
      destruct IH as (? & ? & Hor). split; [lia|]. split; [constructor; [simpl; lia|done]|]. right.
      destruct Hor as [[= -> ->]|(i & ? & ?)]; [exists i1|exists i]; set_solver.
    + specialize (IH k0 e0 He). destruct (oldest_scan l k0 e0) as [k e].
      destruct IH as (? & ? & Hor). split; [lia|]. split; [constructor; [simpl; lia|done]|].
      destruct Hor as [?|(i & ? & ?)]; [by left|right; exists i; set_solver].
Qed.

Section Capacity.
Context `{RangeOrder}.

(** The victim of [deleteOldest] is an item with the least expiration. *)
Lemma deleteOldest_spec m :
  wf m → items m !! "" = None → items m ≠ ∅ →
  ∃ victim i, items m !! victim = Some i ∧
    (∀ k' i', items m !! k' = Some i' → expiration i ≤ expiration i') ∧
    deleteOldest m = set_items (delete victim (items m)) m.
Proof.
  intros Hwf Hne Hm. unfold deleteOldest.
  assert (Forall (λ ki, 0 ≤ expiration ki.2) (range_map (items m))) as Hall.
  { apply Forall_forall. intros [k i] Hki%elem_of_range_map. by destruct (Hwf k i Hki). }
  destruct (range_map (items m)) as [|[k1 i1] l] eqn:El.
  { destruct Hm. apply map_eq. intros k. rewrite lookup_empty. apply eq_None_not_Some. intros [i Hi].
    apply elem_of_range_map in Hi. rewrite El in Hi. set_solver. }
  simpl. inversion Hall as [|? ? Hi1 Hl]; subst. simpl in Hi1.
  pose proof (oldest_scan_spec l k1 (expiration i1) Hi1 Hl) as Hs.
  destruct (oldest_scan l k1 (expiration i1)) as [k e]. destruct Hs as (He & Hmin & Hor).
  assert (∃ i, (k, i) ∈ range_map (items m) ∧ expiration i = e) as (i & Hin & <-).
  { rewrite El. destruct Hor as [[= -> ->]|(i & ? & ?)]; [exists i1|exists i]; set_solver. }
  apply elem_of_range_map in Hin. exists k, i. split; [done|]. split.
  - intros k' i' Hk'. apply elem_of_range_map in Hk'. rewrite El in Hk'.
    apply elem_of_cons in Hk' as [[= -> ->]|Hk']; [lia|]. rewrite Forall_forall in Hmin.
    by apply (Hmin (k', i')).
  - destruct (decide (k = "")) as [->|]; [congruence|done].
Qed.

Lemma Set_capped now m k v d :
  0 < MaxSize (config m) → capped m → time_ok now → duration_ok d →
  duration_ok (DefaultExpiration (config m)) → k ≠ "" →
  capped (Set_ now m k v d) ∧
  (Z.of_nat (size (items m)) = MaxSize (config m) →
   ∃ victim i i', items m !! victim = Some i ∧
     (∀ k' j, items m !! k' = Some j → expiration i ≤ expiration j) ∧
     items (Set_ now m k v d) = <[k := i']> (delete victim (items m))).
Proof.
  intros Hmax (Hwf & Hne & Hsz) Ht Hd Hdd Hk. unfold Set_, capped.
  destruct (entry_of_write now v d _ Ht Hd Hdd) as [He _].
  replace (0 <? MaxSize (config m)) with true by lia. cbn [andb].
  destruct (Z.leb_spec (MaxSize (config m)) (Z.of_nat (size (items m)))) as [Hfull|Hroom].
  - destruct (deleteOldest_spec m Hwf Hne) as (victim & i & Hi & Hmin & ->).
    { intros E. rewrite E, map_size_empty in Hfull. simpl in Hfull. lia. }
    cbn [items config set_items]. split; [split_and!|].
    + apply map_Forall_insert_2; [done|]. by apply wf_delete.
    + rewrite lookup_insert_ne, lookup_delete_None by done. by right.
    + assert (size (delete victim (items m)) = pred (size (items m))) as Es.
      { by rewrite map_size_delete, Hi. }
      rewrite map_size_insert. destruct (delete victim (items m) !! k); simpl; lia.
    + intros _. by eexists victim, i, _.
  - split; [split_and!|lia].
    + by apply map_Forall_insert_2.
    + cbn [items config set_items]. by rewrite lookup_insert_ne.
    + cbn [items config set_items]. rewrite map_size_insert. destruct (items m !! k); simpl; lia.
Qed.

Lemma mem_op_capped now o m :
  0 < MaxSize (config m) → duration_ok (DefaultExpiration (config m)) → capped m →
  time_ok now → op_ok now o → capped_op o = true →
  capped (mem_op now o m).2 ∧ config (mem_op now o m).2 = config m.
Proof.
  intros Hmax Hd Hc Ht Ho Hcap.
  destruct o as [k|k v d|k v d|k|k|k d|k| | | |]; simpl in *; try done.
  - apply bool_decide_eq_true in Hcap. split; [by apply Set_capped|].
    unfold Set_, deleteOldest. repeat case_match; done.
  - split; [|done]. destruct Hc as (? & ? & ?). unfold capped, Delete. simpl.
    split; [by apply wf_delete|]. rewrite lookup_delete_None. split; [by right|].
    rewrite map_size_delete. destruct (items m !! k); simpl; lia.
  - unfold Expire. destruct (items m !! k) as [i|] eqn:Hi; [|done]. split; [|done].
    destruct Hc as (? & Hne & ?). unfold duration_ok, time_ok in *. simpl. unfold capped. simpl.
    split; [|split].
    + apply wf_insert; [done|]. simpl. unfold UnixNano. rewrite i64_id by word. lia.
    + rewrite lookup_insert_ne; [done|]. intros ->. congruence.
    + by rewrite map_size_insert, Hi.
  - split; [|done]. unfold capped, Clear. simpl. split; [by apply map_Forall_empty|].
    rewrite lookup_empty, map_size_empty. split; [done|lia].
  - unfold cleanup_tick. destruct (_ && _); [|done]. split; [|done].
    destruct Hc as (? & ? & ?). unfold capped, DeleteExpired. simpl. split; [|split].
    + intros k i [Hk _]%map_lookup_filter_Some. eauto.
    + rewrite map_lookup_filter_None. by left.
    + etrans; [|done]. apply inj_le, map_subseteq_size, map_filter_subseteq.
Qed.

Lemma mem_run_capped os m :
  0 < MaxSize (config m) → duration_ok (DefaultExpiration (config m)) → capped m →
  Forall (λ to, time_ok to.1 ∧ op_ok to.1 to.2 ∧ capped_op to.2 = true) os →
  capped (mem_run os m).2 ∧ config (mem_run os m).2 = config m.
Proof.
  revert m. induction os as [|[now o] os IH]; intros m Hmax Hd Hc Hall; [done|]. simpl.
  inversion Hall as [|? ? (Ht & Ho & Hcap) Hall']; subst.
  destruct (mem_op_capped now o m) as [Hc' Hcfg]; [done..|].
  destruct (mem_op now o m) as [r m']. simpl in *. specialize (IH m'). rewrite Hcfg in IH.
  destruct (IH Hmax Hd Hc' Hall') as [? ?]. by destruct (mem_run os m').
Qed.

End Capacity.

(** The memory cache keeps the promises of the interface. *)
#[export] Instance Memory_cache_ok `{RangeOrder} : CacheOk Memory Error.
Proof.
  refine (Build_CacheOk _ _ _ (λ now d m, time_ok now ∧ 0 < d ∧ duration_ok d) (λ now d now', now ≤ now' ≤ now + d) _ _ _ _); simpl.
  - intros now now' m k v d (Ht & Hd & Hd') Hle. split; [done|]. unfold Get, Set_.
    replace (0 <? d) with true by lia. simpl. rewrite lookup_insert_eq. unfold expired, UnixNano; simpl.
    unfold time_ok, duration_ok in *. rewrite !i64_id by word. simpl.
    replace (now + d =? 0) with false by lia. by replace (now + d <? now') with false by lia.
  - intros now now' m k fn d v E. unfold GetOrSet. by rewrite E.
  - intros now now' m k fn d v Emiss ->. unfold GetOrSet.
    by destruct (Get now m k).
  - intros now m k. unfold Get, Delete. simpl. by rewrite lookup_delete_eq.
Defined.

(** ** Properties *)



(** Capacity: through any calls other than [SetNX], on non-empty keys, the
    cache never holds more than [MaxSize] items, and a [Set] on a full cache
    evicts one item, one with the least expiration, and nothing else. *)
Theorem capacity_respected `{RangeOrder} cfg os :
  0 < MaxSize cfg → duration_ok (DefaultExpiration cfg) →
  Forall (λ to, time_ok to.1 ∧ op_ok to.1 to.2 ∧ capped_op to.2 = true) os →
  let m := (mem_run os (New [cfg])).2 in
  Z.of_nat (size (items m)) ≤ MaxSize cfg ∧
  ∀ now k v d, time_ok now → duration_ok d → k ≠ "" →
    Z.of_nat (size (items m)) = MaxSize cfg →
    ∃ victim i i', items m !! victim = Some i ∧
      (∀ k' j, items m !! k' = Some j → expiration i ≤ expiration j) ∧
      items (Set_ now m k v d) = <[k := i']> (delete victim (items m)).
Proof.
  intros Hmax Hd Hall m.
  assert (capped (New [cfg])) as H0.
  { split; [apply map_Forall_empty|]. simpl. rewrite map_size_empty. split; [done|lia]. }
  destruct (mem_run_capped os (New [cfg]) Hmax Hd H0 Hall) as [Hc Hcfg]. fold m in Hc, Hcfg.
  simpl in Hcfg. split; [destruct Hc as (_ & _ & Hc); by rewrite Hcfg in Hc|].
  intros now k v d Ht Hdur Hk Hfull. eapply (Set_capped now m k v d); by rewrite ?Hcfg.
Qed.

Lemma capacity_respected_witness :
  Z.of_nat (size (items (@mem_run range_first_key_order
    [(1, OSet "a" None 9); (2, OSet "b" None 1); (3, OSet "c" None 0)] sample_cache).2)) ≤ 2.
Proof.
  apply (@capacity_respected range_first_key_order (mkConfig 0 0 2 ExpireAfterWrite)).
  - simpl. lia.
  - unfold duration_ok. simpl. lia.
  - unfold time_ok. repeat constructor; simpl; unfold duration_ok; lia.
Defined.

(** The typed cache over any cache that keeps the interface's promises and
    any JSON that reads back what it wrote: a value stored is the value read
    until it expires, a miss in [GetOrSet] loads, returns and stores it, a hit
    runs no loader, and a deleted key reads as a miss. *)
Theorem typed_cache_reads_back {St T E} `{CacheOk St E} `{Json T E}
    (c : TypedCache St) now now' key (v : T) d data :
  json_Marshal v = Ok data → json_Marshal_ptr (Some v) = Ok data → json_Unmarshal data = Ok v →
  cache_ready now d (cache c) → cache_lives now d now' →
  typed_Get now' (typed_Set now c key v d).2 key = Ok (Some v) ∧
  (∀ t, is_ok (cache_Get t (cache c) (prefix c +:+ key)%string) = false →
     let '(r, c') := typed_GetOrSet t now c key (Ok (Some v)) d in
     r = Ok v ∧ typed_Get now' c' key = Ok (Some v) ∧
     ∀ fn, (typed_GetOrSet now' now' c' key fn d).1 = Ok v) ∧
  is_ok (typed_Get now' (typed_Delete c key).2 key) = false.
Proof.
  intros Hm Hmp Hu Hready Hle.
  destruct (cache_get_set now now' (cache c) (prefix c +:+ key)%string data d Hready Hle) as [Hok Hget].
  assert (typed_Get now' (mkTyped (cache_Set now (cache c) (prefix c +:+ key)%string (Some data) d).2 (prefix c)) key
          = Ok (Some v)) as Hread.
  { unfold typed_Get. cbn [cache prefix]. rewrite Hget. simpl. by rewrite Hu. }
  split; [|split].
  - unfold typed_Set. rewrite Hm. by destruct (cache_Set now (cache c) _ _ d).
  - intros t Hmiss. unfold typed_GetOrSet. simpl. rewrite Hmp. simpl.
    rewrite (cache_get_or_set_miss t now (cache c) _ _ d (Some data)) by done. simpl.
    destruct (cache_Set now (cache c) (prefix c +:+ key)%string (Some data) d) as [[u|e] s]; [|done].
    simpl in *. split; [done|]. split; [done|]. intros fn.
    rewrite (cache_get_or_set_hit now' now' s _ _ d (Some data)) by done. done.
  - unfold typed_Delete, typed_Get. pose proof (cache_get_delete now' (cache c) (prefix c +:+ key)%string) as Hd.
    destruct (cache_Delete (cache c) (prefix c +:+ key)%string) as [r s]. simpl in *.
    by destruct (cache_Get now' s (prefix c +:+ key)%string).
Qed.

Lemma typed_cache_reads_back_witness :
  let _ := range_first_key_order in let _ := plain_json in
  typed_Get 14 (typed_Set 10 (NewTypedCache sample_cache "p:") "k" "v" 5).2 "k" = Ok (Some "v").
Proof.
  refine (proj1 (@typed_cache_reads_back Memory string Error (@Memory_cache range_first_key_order)
    (@Memory_cache_ok range_first_key_order) plain_json
    (NewTypedCache sample_cache "p:") 10 14 "k" "v" 5 "v" eq_refl eq_refl eq_refl _ _)).
  - simpl. unfold time_ok, duration_ok. lia.
  - simpl. lia.
Defined.

(** A never-expiring item, stored as 0, is the first to go when the cache is
    full, although [deleteOldest] is said to remove what expires first. *)
Lemma never_expiring_evicted_first :
  let _ := range_first_key_order in
  let m := Set_ 2 (Set_ 1 sample_cache "keep" None 0) "short" None 1 in
  Get 3 (Set_ 3 m "new" None 5) "keep" = Err ErrCacheNotFound.
Proof. reflexivity. Qed.

(** Overwriting a key of a full cache evicts another one. *)
Lemma overwrite_evicts_another :
  let _ := range_first_key_order in
  let m := Set_ 2 (Set_ 1 sample_cache "a" None 5) "b" None 9 in
  Get 3 (Set_ 3 m "b" None 9) "a" = Err ErrCacheNotFound.
Proof. reflexivity. Qed.

(** [SetNX] does not look at the capacity. *)
Lemma setnx_ignores_capacity :
  let m := foldl (λ m k, (SetNX 1 1 m k None 5).2) sample_cache ["a"; "b"; "c"] in
  size (items m) = 3%nat.
Proof. reflexivity. Qed.

End CacheMemory.
