(* ===== verification/RedisCache.v ===== *)
(** * Cache in Redis (src/cache/redis/cache.go)

    Every key is put behind the prefix of the cache.  The client library is a
    class of the methods the code calls; their documented effect on string keys
    and their deadlines, and what a scan promises, are the class's laws.
    Counters, sets and hashes are calls of the library under the prefixed key. *)

From S2P Require Import Prelude Text CacheMemory.

Module RedisCache.

Import CacheMemory (Cache, CacheOk, cache_ready, cache_lives, cache_Get, cache_Set, cache_GetOrSet, cache_Delete, bytes).

(** ** The client library *)

(** [redis.Nil], or anything else that goes wrong. *)
Inductive Failure := Nil | Failed (msg : string).

Inductive Error := ErrCacheNotFound | ERedis (e : Failure) | ECaller (msg : string).

Class Client (R : Type) := {
  client_Get : Time → string → R → res Failure string;
  client_Set : Time → string → string → Duration → R → res Failure unit * R;
  client_SetNX : Time → string → string → Duration → R → res Failure bool * R;
  client_Del : list string → R → res Failure Z * R;
  client_Exists : Time → string → R → res Failure Z;
  client_Expire : Time → string → Duration → R → res Failure bool * R;
  client_TTL : Time → string → R → res Failure Duration;
  client_FlushDB : Time → R → res Failure unit * R;
  client_Scan : Time → Z → string → R → res Failure (list string * Z);
  client_MGet : Time → list string → R → res Failure (list (option string));
  client_Pipeline : Time → list (string * string * Duration) → R → res Failure unit * R
}.

Class Counters (R : Type) := {
  client_Incr : Time → string → R → res Failure Z * R;
  client_IncrBy : Time → string → Z → R → res Failure Z * R;
  client_Decr : Time → string → R → res Failure Z * R;
  client_DecrBy : Time → string → Z → R → res Failure Z * R;
  client_GetInt64 : Time → string → R → res Failure Z;
  client_SetInt64 : Time → string → Z → Duration → R → res Failure unit * R
}.

Class Collections (R : Type) := {
  client_SAdd : Time → string → list string → R → res Failure Z * R;
  client_SRem : Time → string → list string → R → res Failure Z * R;
  client_SMembers : Time → string → R → res Failure (list string);
  client_SIsMember : Time → string → string → R → res Failure bool;
  client_SCard : Time → string → R → res Failure Z;
  client_HSet : Time → string → string → string → R → res Failure Z * R;
  client_HGet : Time → string → string → R → res Failure string;
  client_HGetAll : Time → string → R → res Failure (gmap string string);
  client_HDel : Time → string → list string → R → res Failure Z * R;
  client_HExists : Time → string → string → R → res Failure bool;
  client_HLen : Time → string → R → res Failure Z
}.

(** A stored value and the instant it disappears, if any. *)
Abbreviation Entry := (string * option Time)%type (only parsing).

Definition live (now : Time) (e : option Entry) : option string :=
  match e with
  | Some (v, Some d) => if now <? d then Some v else None
  | Some (v, None) => Some v
  | None => None
  end.

(** [SET] takes whole milliseconds, at least one, and no expiry for zero; [EXPIRE]
    whole seconds, at least one. *)
Definition set_deadline (now : Time) (d : Duration) : option Time :=
  if d =? 0 then None else Some (now + (if d <? Millisecond then Millisecond else d / Millisecond * Millisecond)).

Definition expire_deadline (now : Time) (d : Duration) : Time :=
  now + (if d <? Second then Second else d / Second * Second).

(** The characters that mean something in a pattern. *)
Definition plain_char (c : ascii) : bool := negb (bool_decide (c ∈ ["*"%char; "?"%char; "["%char; "]"%char; "\"%char])).

Definition plain (s : string) : bool := forallb plain_char (String.list_ascii_of_string s).

Class ClientOk (R : Type) `{Client R} := {
  entry : R → string → option Entry;
  ttl_seconds : Duration → Z;
  glob : string → string → bool;
  to_scan : R → Z → string → gset string;
  scans_left : R → Z → string → nat;
  ttl_seconds_ok : ∀ d, 0 < d → Z.abs (ttl_seconds d * Second - d) ≤ Second;
  ttl_seconds_nonneg : ∀ d, 0 < d → 0 ≤ ttl_seconds d;
  glob_ok : ∀ p k, plain p = true → glob (p +:+ "*")%string k = true ↔ ∃ s, k = (p +:+ s)%string;
  Get_ok : ∀ now k r, client_Get now k r = match live now (entry r k) with Some v => Ok v | None => Err Nil end;
  Set_ok : ∀ now k v d r, 0 ≤ d →
    ∃ r', client_Set now k v d r = (Ok tt, r') ∧
      ∀ k', entry r' k' = if decide (k' = k) then Some (v, set_deadline now d) else entry r k';
  SetNX_ok : ∀ now k v d r, 0 ≤ d →
    match live now (entry r k) with
    | Some _ => client_SetNX now k v d r = (Ok false, r)
    | None => ∃ r', client_SetNX now k v d r = (Ok true, r') ∧
        ∀ k', entry r' k' = if decide (k' = k) then Some (v, set_deadline now d) else entry r k'
    end;
  Del_ok : ∀ ks r, ks ≠ [] →
    ∃ n r', client_Del ks r = (Ok n, r') ∧ ∀ k', entry r' k' = if decide (k' ∈ ks) then None else entry r k';
  Del_none : ∀ r, ∃ e, client_Del [] r = (Err e, r);
  Exists_ok : ∀ now k r, client_Exists now k r = Ok (if live now (entry r k) then 1 else 0);
  Expire_ok : ∀ now k d r, 0 < d →
    match live now (entry r k) with
    | None => client_Expire now k d r = (Ok false, r)
    | Some v => ∃ r', client_Expire now k d r = (Ok true, r') ∧
        ∀ k', entry r' k' = if decide (k' = k) then Some (v, Some (expire_deadline now d)) else entry r k'
    end;
  TTL_ok : ∀ now k r,
    client_TTL now k r =
      Ok match live now (entry r k), entry r k with
         | Some _, Some (_, Some d) => ttl_seconds (d - now) * Second
         | Some _, _ => -1
         | None, _ => -2
         end;
  FlushDB_ok : ∀ now r, ∃ r', client_FlushDB now r = (Ok tt, r') ∧ ∀ k', entry r' k' = None;
  MGet_ok : ∀ now ks r, ks ≠ [] → client_MGet now ks r = Ok ((λ k, live now (entry r k)) <$> ks);
  MGet_none : ∀ now r, ∃ e, client_MGet now [] r = Err e;
  Pipeline_ok : ∀ now sets r, Forall (λ s, 0 ≤ s.2) sets →
    ∃ r', client_Pipeline now sets r = (Ok tt, r') ∧
      ∀ k', entry r' k' = foldl (λ e s, if decide (k' = s.1.1) then Some (s.1.2, set_deadline now s.2) else e) (entry r k') sets;
  (* a scan shows what is there from its start to its end, and ends *)
  Scan_all : ∀ now pat r k, is_Some (live now (entry r k)) → glob pat k = true → k ∈ to_scan r 0 pat;
  Scan_ok : ∀ now c pat r, ∃ ks c', client_Scan now c pat r = Ok (ks, c') ∧ Forall (λ k, glob pat k = true) ks ∧
    (∀ k, k ∈ to_scan r c pat → k ∈ ks ∨ c' ≠ 0 ∧ k ∈ to_scan r c' pat) ∧
    (c' ≠ 0 → (scans_left r c' pat < scans_left r c pat)%nat);
  Scan_Del : ∀ ks r c pat k, k ∈ to_scan r c pat → k ∈ ks ∨ k ∈ to_scan (client_Del ks r).2 c pat;
  scans_Del : ∀ ks r c pat, (scans_left (client_Del ks r).2 c pat ≤ scans_left r c pat)%nat
}.

(** ** The cache *)

Section cache.
  Context {R : Type} `{Client R}.

Record Redis := mkRedis { client : R; prefix : string }.

Definition New (client : R) (prefix : list string) : Redis := mkRedis client (default "" (head prefix)).

Definition key (r : Redis) (key : string) : string := if decide (prefix r = "") then key else (prefix r +:+ ":" +:+ key)%string.

(** A call of the library, its failure as the error returned. *)
Definition reply {A} (x : res Failure A) : res Error A := match x with Ok a => Ok a | Err e => Err (ERedis e) end.

Definition call {A} (r : Redis) (x : res Failure A * R) : res Error A * Redis := (reply x.1, mkRedis x.2 (prefix r)).

Definition drop_result {A} (x : res Error A * Redis) : res Error unit * Redis :=
  (match x.1 with Ok _ => Ok tt | Err e => Err e end, x.2).

Definition Get (now : Time) (r : Redis) (k : string) : res Error bytes :=
  match client_Get now (key r k) (client r) with
  | Err Nil => Err ErrCacheNotFound
  | Err e => Err (ERedis e)
  | Ok val => Ok (Some val)
  end.

(** The library writes a nil slice as no bytes. *)
Definition Set_ (now : Time) (r : Redis) (k : string) (value : bytes) (expiration : Duration) : res Error unit * Redis :=
  call r (client_Set now (key r k) (default "" value) expiration (client r)).

Definition SetNX (now : Time) (r : Redis) (k : string) (value : bytes) (expiration : Duration) : res Error bool * Redis :=
  call r (client_SetNX now (key r k) (default "" value) expiration (client r)).

(** The callback runs between the two commands: its result is [fn]. *)
Definition GetOrSet (now now' : Time) (r : Redis) (k : string) (fn : res Error bytes) (expiration : Duration)
    : res Error bytes * Redis :=
  match Get now r k with
  | Ok val => (Ok val, r)
  | Err _ =>
      match fn with
      | Err e => (Err e, r)
      | Ok val =>
          let '(x, r) := Set_ now' r k val expiration in
          (match x with Ok _ => Ok val | Err e => Err e end, r)
      end
  end.

Definition Delete (r : Redis) (k : string) : res Error unit * Redis :=
  drop_result (call r (client_Del [key r k] (client r))).

Definition Exists (now : Time) (r : Redis) (k : string) : res Error bool :=
  let? n := reply (client_Exists now (key r k) (client r)) in Ok (0 <? n).

Definition Expire (now : Time) (r : Redis) (k : string) (expiration : Duration) : res Error unit * Redis :=
  drop_result (call r (client_Expire now (key r k) expiration (client r))).

Definition TTL (now : Time) (r : Redis) (k : string) : res Error Duration :=
  let? d := reply (client_TTL now (key r k) (client r)) in Ok (if d <? 0 then -1 else d).

Fixpoint clear_page (page : list string) (c : R) : res Failure unit * R :=
  match page with
  | [] => (Ok tt, c)
  | k :: page =>
      let '(x, c) := client_Del [k] c in
      match x with Err e => (Err e, c) | Ok _ => clear_page page c end
  end.

(** The pages of a scan, from a cursor on, each deleted key by key. *)
Fixpoint clear_scan (fuel : nat) (now : Time) (cursor : Z) (pat : string) (c : R) : option (res Failure unit * R) :=
  match fuel with
  | O => None
  | S fuel =>
      match client_Scan now cursor pat c with
      | Err e => Some (Err e, c)
      | Ok (page, cursor) =>
          let '(x, c) := clear_page page c in
          match x with
          | Err e => Some (Err e, c)
          | Ok _ => if cursor =? 0 then Some (Ok tt, c) else clear_scan fuel now cursor pat c
          end
      end
  end.

Definition Clear (fuel : nat) (now : Time) (r : Redis) : option (res Error unit * Redis) :=
  if decide (prefix r = "") then Some (call r (client_FlushDB now (client r)))
  else call r <$> clear_scan fuel now 0 (prefix r +:+ ":*")%string (client r).

Definition MGet (now : Time) (r : Redis) (keys : list string) : res Error (gmap string string) :=
  let? vals := reply (client_MGet now (key r <$> keys) (client r)) in
  Ok (foldl (λ m kv, match kv.2 with Some v => <[kv.1 := v]> m | None => m end) ∅ (zip keys vals)).

Definition MSet `{RangeOrder} (now : Time) (r : Redis) (items : gmap string bytes) (expiration : Duration) : res Error unit * Redis :=
  call r (client_Pipeline now ((λ kv, (key r kv.1, default "" kv.2, expiration)) <$> range_map items) (client r)).

Definition MDelete (r : Redis) (keys : list string) : res Error unit * Redis :=
  drop_result (call r (client_Del (key r <$> keys) (client r))).

(** *** Counters *)

Context `{Counters R}.

Definition Incr (now : Time) (r : Redis) (k : string) : res Error Z * Redis := call r (client_Incr now (key r k) (client r)).

Definition IncrBy (now : Time) (r : Redis) (k : string) (value : Z) : res Error Z * Redis :=
  call r (client_IncrBy now (key r k) value (client r)).

Definition Decr (now : Time) (r : Redis) (k : string) : res Error Z * Redis := call r (client_Decr now (key r k) (client r)).

Definition DecrBy (now : Time) (r : Redis) (k : string) (value : Z) : res Error Z * Redis :=
  call r (client_DecrBy now (key r k) value (client r)).

Definition GetCounter (now : Time) (r : Redis) (k : string) : res Error Z := reply (client_GetInt64 now (key r k) (client r)).

Definition SetCounter (now : Time) (r : Redis) (k : string) (value : Z) : res Error unit * Redis :=
  call r (client_SetInt64 now (key r k) value 0 (client r)).

(** *** Sets and hashes *)

Context `{Collections R}.

Definition SAdd (now : Time) (r : Redis) (k : string) (members : list string) : res Error unit * Redis :=
  drop_result (call r (client_SAdd now (key r k) members (client r))).

Definition SRem (now : Time) (r : Redis) (k : string) (members : list string) : res Error unit * Redis :=
  drop_result (call r (client_SRem now (key r k) members (client r))).

Definition SMembers (now : Time) (r : Redis) (k : string) : res Error (list string) := reply (client_SMembers now (key r k) (client r)).

Definition SIsMember (now : Time) (r : Redis) (k member : string) : res Error bool :=
  reply (client_SIsMember now (key r k) member (client r)).

Definition SCard (now : Time) (r : Redis) (k : string) : res Error Z := reply (client_SCard now (key r k) (client r)).

Definition HSet (now : Time) (r : Redis) (k field : string) (value : bytes) : res Error unit * Redis :=
  drop_result (call r (client_HSet now (key r k) field (default "" value) (client r))).

Definition HGet (now : Time) (r : Redis) (k field : string) : res Error bytes :=
  match client_HGet now (key r k) field (client r) with
  | Err Nil => Err ErrCacheNotFound
  | Err e => Err (ERedis e)
  | Ok val => Ok (Some val)
  end.

Definition HGetAll (now : Time) (r : Redis) (k : string) : res Error (gmap string string) :=
  reply (client_HGetAll now (key r k) (client r)).

Definition HDel (now : Time) (r : Redis) (k : string) (fields : list string) : res Error unit * Redis :=
  drop_result (call r (client_HDel now (key r k) fields (client r))).

Definition HExists (now : Time) (r : Redis) (k field : string) : res Error bool :=
  reply (client_HExists now (key r k) field (client r)).

Definition HLen (now : Time) (r : Redis) (k : string) : res Error Z := reply (client_HLen now (key r k) (client r)).

End cache.
Arguments Redis : clear implicits.

#[export] Instance Redis_cache {R} `{Client R} : Cache (Redis R) Error := {
  cache_Get now r k := Get now r k;
  cache_Set now r k v d := Set_ now r k v d;
  cache_GetOrSet now now' r k fn d := GetOrSet now now' r k fn d;
  cache_Delete r k := Delete r k
}.

(** ** The specification: a map of values with optional deadlines *)

Inductive Op :=
| OGet (k : string)
| OSet (k : string) (v : bytes) (d : Duration)
| OSetNX (k : string) (v : bytes) (d : Duration)
| OGetOrSet (k : string) (fn : res Error bytes) (d : Duration)
| ODelete (k : string)
| OExists (k : string)
| OExpire (k : string) (d : Duration)
| OTTL (k : string)
| OClear
| OMGet (ks : list string)
| OMSet (items : gmap string bytes) (d : Duration)
| OMDelete (ks : list string).

Inductive Resp :=
| RDone
| RBytes (v : res Error bytes)
| RBool (b : bool)
| RTTL (d : Duration)
| RMap (m : gmap string string)
| RFail.

Definition current (now : Time) (e : option Entry) : option Entry := match live now e with Some _ => e | None => None end.

Definition resp {A} (f : A → Resp) (x : res Error A) : Resp := match x with Ok a => f a | Err _ => RFail end.

(** The code's methods as operations; all errors of the library alike. *)
Definition cache_op {R} `{Client R, RangeOrder} (fuel : nat) (now : Time) (o : Op) (r : Redis R) : option (Resp * Redis R) :=
  let done '(x, r) := Some (resp (λ _ : unit, RDone) x, r) in
  match o with
  | OGet k => Some (RBytes (Get now r k), r)
  | OSet k v d => done (Set_ now r k v d)
  | OSetNX k v d => let '(x, r) := SetNX now r k v d in Some (resp RBool x, r)
  | OGetOrSet k fn d => let '(x, r) := GetOrSet now now r k fn d in Some (RBytes x, r)
  | ODelete k => done (Delete r k)
  | OExists k => Some (resp RBool (Exists now r k), r)
  | OExpire k d => done (Expire now r k d)
  | OTTL k => Some (resp RTTL (TTL now r k), r)
  | OClear => Clear fuel now r ≫= done
  | OMGet ks => Some (resp RMap (MGet now r ks), r)
  | OMSet items d => done (MSet now r items d)
  | OMDelete ks => done (MDelete r ks)
  end.

Fixpoint cache_run {R} `{Client R, RangeOrder} (fuel : nat) (os : list (Time * Op)) (r : Redis R) : option (list Resp * Redis R) :=
  match os with
  | [] => Some ([], r)
  | (now, o) :: os => '(x, r) ← cache_op fuel now o r; '(xs, r) ← cache_run fuel os r; Some (x :: xs, r)
  end.

Definition written (now : Time) (v : bytes) (d : Duration) : Entry := (default "" v, set_deadline now d).

Definition spec_op (seconds : Duration → Z) (now : Time) (o : Op) (s : gmap string Entry) : Resp * gmap string Entry :=
  let read k := live now (s !! k) in
  match o with
  | OGet k => (RBytes match read k with Some v => Ok (Some v) | None => Err ErrCacheNotFound end, s)
  | OSet k v d => (RDone, <[k := written now v d]> s)
  | OSetNX k v d => match read k with Some _ => (RBool false, s) | None => (RBool true, <[k := written now v d]> s) end
  | OGetOrSet k fn d =>
      match read k, fn with
      | Some v, _ => (RBytes (Ok (Some v)), s)
      | None, Err e => (RBytes (Err e), s)
      | None, Ok v => (RBytes (Ok v), <[k := written now v d]> s)
      end
  | ODelete k => (RDone, delete k s)
  | OExists k => (RBool (bool_decide (is_Some (read k))), s)
  | OExpire k d => (RDone, match read k with Some v => <[k := (v, Some (expire_deadline now d))]> s | None => s end)
  | OTTL k => (RTTL match current now (s !! k) with Some (_, Some d) => seconds (d - now) * Second | _ => -1 end, s)
  | OClear => (RDone, ∅)
  | OMGet [] | OMDelete [] => (RFail, s)
  | OMGet ks => (RMap (foldl (λ m k, match read k with Some v => <[k := v]> m | None => m end) ∅ ks), s)
  | OMSet items d => (RDone, ((λ v, written now v d) <$> items) ∪ s)
  | OMDelete ks => (RDone, foldr delete s ks)
  end.

Fixpoint spec_run (seconds : Duration → Z) (os : list (Time * Op)) (s : gmap string Entry) : list Resp * gmap string Entry :=
  match os with
  | [] => ([], s)
  | (now, o) :: os =>
      let '(x, s) := spec_op seconds now o s in let '(xs, s) := spec_run seconds os s in (x :: xs, s)
  end.

(** Durations that give a deadline ahead, or none where that is allowed. *)
Definition op_ok (o : Op) : Prop :=
  match o with
  | OSet _ _ d | OSetNX _ _ d | OGetOrSet _ _ d | OMSet _ d => 0 ≤ d
  | OExpire _ d => 0 < d
  | _ => True
  end.

Fixpoint timed (from : Time) (os : list (Time * Op)) : Prop :=
  match os with [] => True | (now, o) :: os => from ≤ now ∧ op_ok o ∧ timed now os end.

(** What the cache holds, seen through its prefix; the keys that are not its own. *)
Definition agree {R} `{ClientOk R} (now : Time) (r : Redis R) (s : gmap string Entry) : Prop :=
  ∀ k, current now (entry (client r) (key r k)) = current now (s !! k).

Definition foreign {R} (r : Redis R) (full : string) : Prop := ∀ k, full ≠ key r k.

(** A call leads to a cache that holds [s] and leaves the other keys alone. *)
Definition follows {R} `{ClientOk R} (now : Time) (r r' : Redis R) (s : gmap string Entry) : Prop :=
  prefix r' = prefix r ∧ agree now r' s ∧ ∀ full, foreign r full → entry (client r') full = entry (client r) full.

(** ** A server of string keys, for the witnesses *)

Definition page (even : bool) (pat : string) (r : gmap string Entry) : list string :=
  filter (λ k, Nat.even (String.length k) = even ∧ take (String.length pat - 1) (String.list_ascii_of_string pat) `prefix_of` String.list_ascii_of_string k)
    (elements (dom r)).

#[export] Instance sample_client : Client (gmap string Entry) := {
  client_Get now k r := match live now (r !! k) with Some v => Ok v | None => Err Nil end;
  client_Set now k v d r := (Ok tt, <[k := (v, set_deadline now d)]> r);
  client_SetNX now k v d r := if live now (r !! k) then (Ok false, r) else (Ok true, <[k := (v, set_deadline now d)]> r);
  client_Del ks r := match ks with [] => (Err (Failed "no keys"), r) | _ => (Ok (Z.of_nat (length ks)), foldr delete r ks) end;
  client_Exists now k r := Ok (if live now (r !! k) then 1 else 0);
  client_Expire now k d r :=
    match live now (r !! k) with Some v => (Ok true, <[k := (v, Some (expire_deadline now d))]> r) | None => (Ok false, r) end;
  client_TTL now k r :=
    Ok match live now (r !! k), r !! k with
       | Some _, Some (_, Some d) => ((d - now) / Millisecond + 500) / 1000 * Second
       | Some _, _ => -1
       | None, _ => -2
       end;
  client_FlushDB now r := (Ok tt, ∅);
  client_Scan now c pat r := if c =? 0 then Ok (page true pat r, 1) else Ok (page false pat r, 0);
  client_MGet now ks r := match ks with [] => Err (Failed "no keys") | _ => Ok ((λ k, live now (r !! k)) <$> ks) end;
  client_Pipeline now sets r := (Ok tt, foldl (λ r s, <[s.1.1 := (s.1.2, set_deadline now s.2)]> r) r sets)
}.

(** ** Lemmas *)

Lemma current_later now now' e : now ≤ now' → current now' (current now e) = current now' e.
Proof.
  intros Hle. unfold current. destruct e as [[v [d|]]|]; simpl; try done.
  destruct (now <? d) eqn:E; simpl; [done|]. by replace (now' <? d) with false by lia.
Qed.

Lemma live_current now e : live now (current now e) = live now e.
Proof. unfold current. destruct (live now e) eqn:E; done. Qed.

Lemma current_live now e e' : current now e = current now e' → live now e = live now e'.
Proof. intros E. by rewrite <- live_current, E, live_current. Qed.

Lemma key_inj {R} (r : Redis R) k k' : key r k = key r k' → k = k'.
Proof.
  unfold key. case_decide; [done|]. intros E. by apply (inj (String.app _)), (inj (String.app _)) in E.
Qed.

Lemma decide_key {R} (r : Redis R) k k' {A} (a b : A) :
  (if decide (key r k' = key r k) then a else b) = if decide (k' = k) then a else b.
Proof.
  destruct (decide (k' = k)) as [->|Hne]; [by rewrite decide_True|]. rewrite decide_False; [done|].
  intros E. by apply key_inj in E.
Qed.

Section refinement.
  Context {R : Type} `{ClientOk R} `{RangeOrder}.

(** One update of a key, on both sides. *)
Lemma follows_insert now (r : Redis R) s k e c :
  agree now r s → (∀ k', entry c k' = if decide (k' = key r k) then Some e else entry (client r) k') →
  follows now r (mkRedis c (prefix r)) (<[k := e]> s).
Proof using.
  intros Ha Hc. split; [done|]. split.
  - intros k'. change (key _ k') with (key r k'). cbn [client]. rewrite Hc, decide_key.
    destruct (decide (k' = k)) as [->|Hne]; [by rewrite lookup_insert_eq | rewrite lookup_insert_ne by done; apply Ha].
  - intros full Hf. cbn [client]. by rewrite Hc, decide_False by apply Hf.
Qed.

Lemma follows_refl now (r : Redis R) s : agree now r s → follows now r r s.
Proof using. done. Qed.

Lemma read_agree now (r : Redis R) s k : agree now r s → live now (entry (client r) (key r k)) = live now (s !! k).
Proof using. intros Ha. by apply current_live, Ha. Qed.

Lemma Set_follows now (r : Redis R) s k v d :
  0 ≤ d → agree now r s → ∃ r', Set_ now r k v d = (Ok tt, r') ∧ follows now r r' (<[k := written now v d]> s).
Proof using.
  intros Hd Ha. unfold Set_, call. destruct (Set_ok now (key r k) (default "" v) d (client r) Hd) as (c & -> & Hc).
  eexists. split; [done|]. by apply follows_insert.
Qed.

Lemma Del_follows now (r : Redis R) s ks c :
  agree now r s → (∀ k', entry c k' = if decide (k' ∈ key r <$> ks) then None else entry (client r) k') →
  follows now r (mkRedis c (prefix r)) (foldr delete s ks).
Proof using.
  intros Ha Hc. split; [done|]. split.
  - intros k. change (key _ k) with (key r k). cbn [client]. rewrite Hc. destruct (decide (k ∈ ks)) as [Hk|Hk].
    + rewrite decide_True by by apply list_elem_of_fmap_2. by rewrite lookup_foldr_delete.
    + rewrite decide_False, lookup_foldr_delete_not_elem_of by (done || (intros (k' & E & Hin)%list_elem_of_fmap; by apply key_inj in E as ->)).
      apply Ha.
  - intros full Hf. cbn [client]. rewrite Hc, decide_False; [done|]. intros (k & E & _)%list_elem_of_fmap. by apply (Hf k).
Qed.

(** *** Clearing *)

Lemma clear_page_ok page c pat cursor :
  ∃ c', clear_page page c = (Ok tt, c') ∧
    (∀ k, entry c' k = if decide (k ∈ page) then None else entry c k) ∧
    (∀ k, k ∈ to_scan c cursor pat → k ∈ page ∨ k ∈ to_scan c' cursor pat) ∧
    (scans_left c' cursor pat ≤ scans_left c cursor pat)%nat.
Proof using.
  revert c. induction page as [|k page IH]; intros c; cbn [clear_page].
  - exists c. split_and!; auto.
  - destruct (Del_ok [k] c ltac:(done)) as (n & c1 & Hdel & Hent). pose proof (Scan_Del [k] c cursor pat) as Hscan.
    pose proof (scans_Del [k] c cursor pat) as Hleft. rewrite Hdel in *. cbn [snd] in *.
    destruct (IH c1) as (c2 & -> & E1 & E2 & E3). exists c2. split; [done|]. split_and!; [..|lia].
    + intros k'. rewrite E1, Hent. destruct (decide (k' ∈ page)); [by rewrite decide_True by by right|].
      destruct (decide (k' = k)) as [->|]; [by rewrite !decide_True by left|]. by rewrite !decide_False by set_solver.
    + intros k' Hk'. destruct (Hscan k' Hk') as [->%list_elem_of_singleton|Hk1]; [left; left|].
      destruct (E2 k' Hk1); [left; by right|by right].
Qed.

Lemma clear_scan_ok now pat n : ∀ cursor c, (scans_left c cursor pat ≤ n)%nat →
  ∃ c', (∀ fuel, (n < fuel)%nat → clear_scan fuel now cursor pat c = Some (Ok tt, c')) ∧
    (∀ k, k ∈ to_scan c cursor pat → entry c' k = None) ∧
    (∀ k, entry c' k = entry c k ∨ entry c' k = None ∧ glob pat k = true).
Proof using.
  induction n as [|n IH]; intros cursor c Hn;
    destruct (Scan_ok now cursor pat c) as (page & cursor' & Hscan & Hglob & Hcover & Hleft);
    destruct (clear_page_ok page c pat cursor') as (c1 & Hpage & Hent & Hscan1 & Hle);
    (destruct (decide (cursor' = 0)) as [->|Hne];
     [exists c1; split; [intros [|fuel] Hf; [lia|]; cbn [clear_scan]; by rewrite Hscan, Hpage|]|]).
  - split.
    + intros k Hk. rewrite Hent. destruct (Hcover k Hk) as [Hin|[? _]]; [by rewrite decide_True|done].
    + intros k. rewrite Hent. case_decide as Hin; [right|by left]. split; [done|]. by eapply Forall_forall in Hglob.
  - specialize (Hleft Hne). lia.
  - split.
    + intros k Hk. rewrite Hent. destruct (Hcover k Hk) as [Hin|[? _]]; [by rewrite decide_True|done].
    + intros k. rewrite Hent. case_decide as Hin; [right|by left]. split; [done|]. by eapply Forall_forall in Hglob.
  - specialize (Hleft Hne). destruct (IH cursor' c1 ltac:(lia)) as (c2 & Hrun & Hgone & Hother). exists c2. split_and!.
    + intros [|fuel] Hf; [lia|]. cbn [clear_scan]. rewrite Hscan, Hpage. replace (cursor' =? 0) with false by lia. apply Hrun. lia.
    + intros k Hk. destruct (Hcover k Hk) as [Hin|[_ Hk']].
      * destruct (Hother k) as [->|[? _]]; [|done]. by rewrite Hent, decide_True.
      * destruct (Hscan1 k Hk') as [Hin|Hk1]; [|by apply Hgone].
        destruct (Hother k) as [->|[? _]]; [|done]. by rewrite Hent, decide_True.
    + intros k. destruct (Hother k) as [->|Hk]; [|by right]. rewrite Hent. case_decide as Hin; [right|by left].
      split; [done|]. by eapply Forall_forall in Hglob.
Qed.

Lemma plain_prefix_app s t : plain (s +:+ t)%string = plain s && plain t.
Proof using. unfold plain. induction s as [|a s IH]; [done|]. simpl. by rewrite <- andb_assoc, <- IH. Qed.

Lemma Clear_follows now (r : Redis R) s : plain (prefix r) = true → agree now r s →
  ∃ n r', (∀ fuel, (n < fuel)%nat → Clear fuel now r = Some (Ok tt, r')) ∧ follows now r r' ∅.
Proof using.
  intros Hp Ha. unfold Clear, call. destruct (decide (prefix r = "")) as [Hnil|Hnil].
  - destruct (FlushDB_ok now (client r)) as (c & -> & Hc). exists 0%nat. eexists. split; [done|]. split; [done|]. split.
    + intros k. cbn [client]. by rewrite Hc, lookup_empty.
    + intros full Hf. destruct (Hf full). unfold key. by rewrite decide_True.
  - set (pat := (prefix r +:+ ":*")%string). pose proof (glob_ok (prefix r +:+ ":")%string) as Hglob.
    rewrite plain_prefix_app, Hp in Hglob. rewrite str_app_assoc in Hglob. change (prefix r +:+ ":" +:+ "*")%string with pat in Hglob.
    destruct (clear_scan_ok now pat _ 0 (client r) (le_n _)) as (c & Hrun & Hgone & Hother).
    exists (scans_left (client r) 0 pat). eexists. split; [intros fuel Hf; by rewrite Hrun|]. split; [done|]. cbn [reply fst snd]. split.
    + intros k. change (key _ k) with (key r k). cbn [client]. rewrite lookup_empty.
      destruct (live now (entry (client r) (key r k))) as [v|] eqn:El.
      * rewrite Hgone; [done|]. apply (Scan_all now); [by rewrite El|]. apply Hglob; [done|]. exists k.
        unfold key. rewrite decide_False by done. by rewrite str_app_assoc.
      * destruct (Hother (key r k)) as [->|[-> _]]; [|done]. unfold current. by rewrite El.
    + intros full Hf. cbn [client]. destruct (Hother full) as [->|[_ Hg]]; [done|]. apply Hglob in Hg as [k ->]; [|done].
      destruct (Hf k). unfold key. rewrite decide_False by done. by rewrite str_app_assoc.
Qed.

(** *** Several keys at once *)

Lemma zip_fold (g : string → option string) (keys : list string) (m : gmap string string) :
  foldl (λ m kv, match kv.2 with Some v => <[kv.1 := v]> m | None => m end) m (zip keys (list_fmap _ _ g keys)) =
  foldl (λ m k, match g k with Some v => <[k := v]> m | None => m end) m keys.
Proof using. revert m. induction keys as [|k keys IH]; intros m; [done|]. simpl. apply IH. Qed.

Lemma MGet_agree now (r : Redis R) s ks : agree now r s → ks ≠ [] →
  MGet now r ks = Ok (foldl (λ m k, match live now (s !! k) with Some v => <[k := v]> m | None => m end) ∅ ks).
Proof using.
  intros Ha Hks. unfold MGet. rewrite MGet_ok by (destruct ks; done). cbn [reply res_bind]. f_equal.
  rewrite <- list_fmap_compose. unfold compose.
  rewrite (list_fmap_ext _ (λ k, live now (s !! k))) by (intros _ k _; apply read_agree, Ha). apply zip_fold.
Qed.

Lemma fold_entry now (r : Redis R) (l : list (string * bytes)) d k e :
  NoDup l.*1 →
  foldl (λ e s, if decide (key r k = s.1.1) then Some (s.1.2, set_deadline now s.2) else e) e
    ((λ kv, (key r kv.1, default "" kv.2, d)) <$> l) =
  match (list_to_map l : gmap string bytes) !! k with Some v => Some (written now v d) | None => e end.
Proof using.
  revert e. induction l as [|[k' v] l IH]; intros e; [done|]. intros [Hk' Hnd]%NoDup_cons. cbn [fmap list_fmap foldl fst snd].
  rewrite IH by done. cbn [list_to_map foldr fst snd]. rewrite decide_key. destruct (decide (k = k')) as [->|Hne].
  - rewrite lookup_insert_eq. by rewrite not_elem_of_list_to_map_1.
  - by rewrite lookup_insert_ne by done.
Qed.

Lemma MSet_follows now (r : Redis R) s items d : 0 ≤ d → agree now r s →
  ∃ r', MSet now r items d = (Ok tt, r') ∧ follows now r r' (((λ v, written now v d) <$> items) ∪ s).
Proof using.
  intros Hd Ha. unfold MSet, call.
  destruct (Pipeline_ok now ((λ kv, (key r kv.1, default "" kv.2, d)) <$> range_map items) (client r)) as (c & -> & Hc).
  { apply Forall_fmap, Forall_true. done. }
  eexists. split; [done|]. split; [done|]. split.
  - intros k. change (key _ k) with (key r k). cbn [client]. rewrite Hc, fold_entry by apply NoDup_fst_range_map.
    rewrite list_to_map_range, lookup_union, lookup_fmap. destruct (items !! k); simpl.
    + by rewrite union_Some_l.
    + by rewrite (left_id_L None _).
  - intros full Hf. cbn [client]. rewrite Hc. clear Hc. induction (range_map items) as [|kv l IH]; [done|]. simpl.
    rewrite decide_False by apply Hf. apply IH.
Qed.

(** *** Calls and runs *)

Lemma agree_later now now' (r : Redis R) s : now ≤ now' → agree now r s → agree now' r s.
Proof using. intros Hle Ha k. by rewrite <- (current_later now now'), Ha, current_later. Qed.

Lemma now_done now (r r' : Redis R) s (f : nat → option (Resp * Redis R)) x :
  (∀ fuel, f fuel = Some (x, r')) → follows now r r' s →
  ∃ n r', (∀ fuel, (n < fuel)%nat → f fuel = Some (x, r')) ∧ follows now r r' s.
Proof using. intros Hf Hr. exists 0%nat, r'. auto. Qed.

Lemma op_follows now o (r : Redis R) s : plain (prefix r) = true → op_ok o → agree now r s →
  ∃ n r', (∀ fuel, (n < fuel)%nat → cache_op fuel now o r = Some ((spec_op ttl_seconds now o s).1, r')) ∧
    follows now r r' (spec_op ttl_seconds now o s).2.
Proof using.
  intros Hp Hop Ha. pose proof (λ k, read_agree now r s k Ha) as Hread.
  destruct o as [k|k v d|k v d|k fn d|k|k|k d|k| |ks|items d|ks]; cbn [cache_op spec_op op_ok fst snd] in *.
  - apply (now_done _ _ r); [|done]. intros _. unfold Get. rewrite Get_ok, Hread. by destruct (live now (s !! k)).
  - destruct (Set_follows now r s k v d Hop Ha) as (r' & E & Hr). apply (now_done _ _ r'); [|done]. intros _. by rewrite E.
  - unfold SetNX, call. pose proof (SetNX_ok now (key r k) (default "" v) d (client r) Hop) as Hnx. rewrite Hread in Hnx.
    destruct (live now (s !! k)); [rewrite Hnx|destruct Hnx as (c & -> & Hc)]; (eapply now_done; [done|]).
    + by destruct r.
    + by apply follows_insert.
  - unfold GetOrSet, Get. rewrite Get_ok, Hread. destruct (live now (s !! k)); [by apply (now_done _ _ r)|].
    destruct fn as [v|e]; [|by apply (now_done _ _ r)]. destruct (Set_follows now r s k v d Hop Ha) as (r' & E & Hr).
    apply (now_done _ _ r'); [|done]. intros _. by rewrite E.
  - unfold Delete, call. destruct (Del_ok [key r k] (client r) ltac:(done)) as (n & c & -> & Hc).
    eapply now_done; [done|]. by apply (Del_follows now r s [k]).
  - apply (now_done _ _ r); [|done]. intros _. unfold Exists. rewrite Exists_ok, Hread. by destruct (live now (s !! k)).
  - unfold Expire, call. pose proof (Expire_ok now (key r k) d (client r) Hop) as Hex. rewrite Hread in Hex.
    destruct (live now (s !! k)); [destruct Hex as (c & -> & Hc)|rewrite Hex]; (eapply now_done; [done|]).
    + by apply follows_insert.
    + by destruct r.
  - apply (now_done _ _ r); [|done]. intros _. unfold TTL. rewrite TTL_ok. specialize (Ha k). unfold current in *.
    rewrite !Hread in *. destruct (live now (s !! k)) as [v|] eqn:El; [|done]. cbn [reply res_bind]. rewrite Ha.
    destruct (s !! k) as [[w [d|]]|]; try done. simpl in El. destruct (now <? d) eqn:Ed; [|done].
    pose proof (ttl_seconds_nonneg (d - now) ltac:(lia)). cbn [resp].
    by replace (ttl_seconds (d - now) * Second <? 0) with false by (unfold Second, Millisecond, Microsecond; lia).
  - destruct (Clear_follows now r s Hp Ha) as (n & r' & Hrun & Hr). exists n, r'. split; [|done]. intros fuel Hf. by rewrite Hrun.
  - destruct ks as [|k ks]; apply (now_done _ _ r); try done; intros _.
    + unfold MGet. cbn [fmap list_fmap]. destruct (MGet_none now (client r)) as [e ->]. done.
    + by rewrite (MGet_agree now r s (k :: ks)).
  - destruct (MSet_follows now r s items d Hop Ha) as (r' & E & Hr). apply (now_done _ _ r'); [|done]. intros _. by rewrite E.
  - unfold MDelete, call. destruct ks as [|k ks].
    + destruct (Del_none (client r)) as [e E]. apply (now_done _ _ r); [|done]. intros _. cbn [fmap list_fmap]. rewrite E. by destruct r.
    + assert ((key r <$> k :: ks) ≠ []) as Hne by done. destruct (Del_ok _ (client r) Hne) as (n & c & -> & Hc). eapply now_done; [done|].
      by apply (Del_follows now r s (k :: ks)).
Qed.

Lemma foreign_same (r r' : Redis R) full : prefix r' = prefix r → foreign r full → foreign r' full.
Proof using. intros E Hf k. unfold key. rewrite E. apply Hf. Qed.

Lemma run_follows os : ∀ from (r : Redis R) s, plain (prefix r) = true → timed from os → agree from r s →
  ∃ n r', (∀ fuel, (n < fuel)%nat → cache_run fuel os r = Some ((spec_run ttl_seconds os s).1, r')) ∧
    ∀ full, foreign r full → entry (client r') full = entry (client r) full.
Proof using.
  induction os as [|[now o] os IH]; intros from r s Hp Ht Ha; [by exists 0%nat, r|].
  destruct Ht as (Hle & Hop & Ht).
  destruct (op_follows now o r s Hp Hop (agree_later from now r s Hle Ha)) as (n1 & r1 & Hrun & Hp1 & Ha1 & Hf1).
  cbn [spec_run]. destruct (spec_op ttl_seconds now o s) as [x s1]. cbn [fst snd] in *.
  destruct (IH now r1 s1 ltac:(by rewrite Hp1) Ht Ha1) as (n2 & r2 & Hrun2 & Hf2).
  exists (Nat.max n1 n2), r2. destruct (spec_run ttl_seconds os s1) as [xs s2]. split.
  - intros fuel Hf. cbn [cache_run]. rewrite Hrun by lia. cbn [mbind option_bind]. by rewrite Hrun2 by lia.
  - intros full Hfull. rewrite Hf2 by (by apply (foreign_same r)). by apply Hf1.
Qed.

End refinement.

(** *** The server of the witnesses *)

Lemma sample_ttl d : 0 < d → 0 ≤ (d / Millisecond + 500) / 1000 ∧ Z.abs ((d / Millisecond + 500) / 1000 * Second - d) ≤ Second.
Proof.
  intros Hd. unfold Second, Millisecond, Microsecond. set (ms := d / _). pose proof (Z.div_mod d 1000000 ltac:(lia)). pose proof (Z.mod_pos_bound d 1000000 ltac:(lia)).
  assert (0 ≤ ms) by (apply Z.div_pos; lia). change (1000 * 1000) with 1000000 in ms. fold ms in H.
  pose proof (Z.div_mod (ms + 500) 1000 ltac:(lia)). pose proof (Z.mod_pos_bound (ms + 500) 1000 ltac:(lia)).
  split; [apply Z.div_pos; lia|]. lia.
Qed.

Lemma ascii_length s : length (String.list_ascii_of_string s) = String.length s.
Proof. induction s as [|a s IH]; simpl; congruence. Qed.

Lemma elem_of_page even pat r k :
  k ∈ page even pat r ↔ is_Some (r !! k) ∧ Nat.even (String.length k) = even ∧
    take (String.length pat - 1) (String.list_ascii_of_string pat) `prefix_of` String.list_ascii_of_string k.
Proof. unfold page. rewrite list_elem_of_filter, elem_of_elements, elem_of_dom. tauto. Qed.

Lemma fold_set_lookup now (sets : list (string * string * Duration)) (r : gmap string Entry) k :
  foldl (λ r s, <[s.1.1 := (s.1.2, set_deadline now s.2)]> r) r sets !! k =
  foldl (λ e s, if decide (k = s.1.1) then Some (s.1.2, set_deadline now s.2) else e) (r !! k) sets.
Proof.
  revert r. induction sets as [|x sets IH]; intros r; [done|]. simpl. rewrite IH. f_equal. case_decide as E.
  - by rewrite E, lookup_insert_eq.
  - by rewrite lookup_insert_ne.
Qed.

Lemma insert_lookup_decide (r : gmap string Entry) k e k' : <[k := e]> r !! k' = if decide (k' = k) then Some e else r !! k'.
Proof. case_decide; [by subst; rewrite lookup_insert_eq | by rewrite lookup_insert_ne]. Qed.

Lemma delete_lookup_decide (r : gmap string Entry) ks k' : foldr delete r ks !! k' = if decide (k' ∈ ks) then None else r !! k'.
Proof. case_decide; [by rewrite lookup_foldr_delete | by rewrite lookup_foldr_delete_not_elem_of]. Qed.

#[export] Instance sample_client_ok : ClientOk (gmap string Entry).
Proof.
  refine {|
    entry (r : gmap string Entry) k := r !! k;
    ttl_seconds d := (d / Millisecond + 500) / 1000;
    glob pat k := bool_decide (take (String.length pat - 1) (String.list_ascii_of_string pat) `prefix_of` String.list_ascii_of_string k);
    to_scan r c pat := list_to_set ((if c =? 0 then page true pat r else []) ++ page false pat r);
    scans_left r c pat := if c =? 0 then 1%nat else 0%nat
  |}; cbn; intros.
  - by apply sample_ttl.
  - by apply sample_ttl.
  - rewrite bool_decide_eq_true, Text.list_ascii_app, str_length_app. cbn [String.length].
    replace (String.length p + 1 - 1)%nat with (length (String.list_ascii_of_string p)) by (rewrite ascii_length; lia).
    rewrite take_app_length. split.
    + intros [l E]. exists (String.string_of_list_ascii l). rewrite <- (String.string_of_list_ascii_of_string k), E.
      rewrite <- (String.string_of_list_ascii_of_string (p +:+ _)%string), Text.list_ascii_app. f_equal. f_equal.
      by rewrite String.list_ascii_of_string_of_list_ascii.
    + intros [s ->]. rewrite Text.list_ascii_app. by exists (String.list_ascii_of_string s).
  - done.
  - eexists. split; [done|]. apply insert_lookup_decide.
  - destruct (live now (r !! k)); [done|]. eexists. split; [done|]. apply insert_lookup_decide.
  - destruct ks; [done|]. do 2 eexists. split; [done|]. apply delete_lookup_decide.
  - by eexists.
  - done.
  - destruct (live now (r !! k)); [|done]. eexists. split; [done|]. apply insert_lookup_decide.
  - done.
  - eexists. split; [done|]. apply lookup_empty.
  - by destruct ks.
  - by eexists.
  - eexists. split; [done|]. intros k. apply fold_set_lookup.
  - rewrite elem_of_list_to_set, elem_of_app, !elem_of_page. apply bool_decide_eq_true in H0.
    assert (is_Some (r !! k)) by (destruct (r !! k); [done|by destruct H]). destruct (Nat.even (String.length k)); auto.
  - destruct (c =? 0) eqn:E; do 2 eexists; (split; [done|]); (split; [apply Forall_forall; intros k Hk; apply elem_of_page in Hk; apply bool_decide_eq_true, Hk|]).
    + split; [|cbn; lia]. intros k. rewrite !elem_of_list_to_set, elem_of_app. cbn. intros [?|?]; auto.
    + split; [|done]. intros k. rewrite !elem_of_list_to_set. auto.
  - rewrite !elem_of_list_to_set, !elem_of_app in *. destruct (decide (k ∈ ks)) as [|Hk]; [by left|right].
    assert (∀ even, k ∈ page even pat r → k ∈ page even pat (match ks with [] => (Err (Failed "no keys"), r)
      | _ :: _ => (Ok (Z.of_nat (length ks)), foldr delete r ks) end : res Failure Z * gmap string Entry).2) as Hpage.
    { intros even. rewrite !elem_of_page. intros (? & ? & ?). split; [|done]. destruct ks as [|x ks]; [done|]. cbn [snd].
      by rewrite delete_lookup_decide, decide_False. }
    destruct (c =? 0); [destruct H; auto|]. destruct H as [H|H]; [by apply elem_of_nil in H|auto].
  - done.
Defined.

(** The cache keeps the promises of the interface: what lives whole milliseconds
    reads back until its deadline. *)
#[export] Instance Redis_cache_ok {R} `{ClientOk R} : CacheOk (Redis R) Error.
Proof.
  refine (CacheMemory.Build_CacheOk (Redis R) Error _ (λ now d r, 0 < d ∧ d `mod` Millisecond = 0) (λ now d now', now ≤ now' < now + d) _ _ _ _); simpl.
  - intros now now' r k v d [Hd Hms] Hlive. unfold Set_, Get, call.
    destruct (Set_ok now (key r k) v d (client r) ltac:(lia)) as (c & E & Hc). cbn [default]. rewrite E. split; [done|]. cbn [snd].
    change (key _ k) with (key r k). cbn [client]. rewrite Get_ok, Hc, decide_True by done.
    unfold set_deadline. pose proof (Z.div_mod d Millisecond ltac:(done)). rewrite Hms in *.
    replace (d =? 0) with false by lia. replace (d <? Millisecond) with false by (assert (Millisecond ≤ d) by (unfold Millisecond, Microsecond in *; nia); lia). cbn [live].
    by replace (now' <? now + d / Millisecond * Millisecond) with true by lia.
  - intros now now' r k fn d v E. unfold GetOrSet. by rewrite E.
  - intros now now' r k fn d v Emiss ->. unfold GetOrSet. destruct (Get now r k); [done|]. reflexivity.
  - intros now r k. unfold Delete, call, Get. destruct (Del_ok [key r k] (client r) ltac:(done)) as (n & c & -> & Hc). cbn [fst snd drop_result].
    change (key _ k) with (key r k). cbn [client]. by rewrite Get_ok, Hc, decide_True by left.
Defined.

(** ** Theorems *)

(** C12. Refinement and isolation: a cache whose prefix has no pattern character answers
    every sequence of calls, with enough fuel for the scans of [Clear], as a
    map of its own whose values vanish at their deadline, and no call
    touches a key that is not behind its prefix. *)
Theorem redis_cache_refines {R} `{ClientOk R, RangeOrder} (r : Redis R) (os : list (Time * Op)) (from : Time) s :
  plain (prefix r) = true → timed from os → agree from r s →
  ∃ n r', (∀ fuel, (n < fuel)%nat → cache_run fuel os r = Some ((spec_run ttl_seconds os s).1, r')) ∧
    ∀ full, foreign r full → entry (client r') full = entry (client r) full.
Proof. apply run_follows. Qed.

Lemma redis_cache_refines_witness :
  let _ := range_first_key_order in
  let os := [(0, OSet "k" (Some "v") Second); (1, OMSet {["n" := None; "m" := Some "x"]} 0); (2, OGet "k"); (3, OTTL "k");
             (Second, OGet "k"); (Second + 1, OExists "m"); (Second + 2, OClear); (Second + 3, OGet "m")] in
  let server := {["ab:k" := ("other", None)]} : gmap string Entry in
  ∃ n r', (∀ fuel, (n < fuel)%nat → cache_run fuel os (New server ["a"]) =
      Some ([RDone; RDone; RBytes (Ok (Some "v")); RTTL Second; RBytes (Err ErrCacheNotFound); RBool true; RDone;
             RBytes (Err ErrCacheNotFound)], r')) ∧
    entry (client r') "ab:k" = Some ("other", None).
Proof.
  intros o os server.
  destruct (@redis_cache_refines _ sample_client sample_client_ok o (New server ["a"]) os 0 ∅) as (n & r' & Hrun & Hf).
  - done.
  - cbn. unfold Second, Millisecond, Microsecond. lia.
  - intros k. change (current 0 (server !! ("a" +:+ ":" +:+ k)%string) = current 0 ((∅ : gmap string Entry) !! k)).
    unfold server. by rewrite lookup_empty, lookup_singleton_ne by discriminate.
  - exists n, r'. split; [exact Hrun|]. rewrite Hf; [done|]. intros k. change (("ab:k" ≠ "a" +:+ ":" +:+ k)%string). discriminate.
Defined.

(** Without a prefix [Clear] empties the whole database, other caches with it, and
    a prefix that holds a pattern character reaches keys of other caches. *)
Example clear_without_prefix :
  let server := {["other:k" := ("v", None)]} : gmap string Entry in
  (λ x, client x.2) <$> Clear 1 0 (New server []) = Some ∅.
Proof. done. Qed.

Section pattern.
  Context {R : Type} `{ClientOk R}.

(** The prefix ["a*"] as the pattern ["a*:*"]: whatever [glob] makes of it is what
    a scan may return and [Clear] deletes. *)
Lemma pattern_reaches_others now (r : Redis R) full page :
  prefix r ≠ "" → client_Scan now 0 (prefix r +:+ ":*")%string (client r) = Ok (page, 0) → full ∈ page →
  ∃ r', Clear 1 now r = Some (Ok tt, r') ∧ entry (client r') full = None.
Proof using All.
  intros Hp Hscan Hin. unfold Clear, call. rewrite decide_False by done. cbn [clear_scan]. rewrite Hscan.
  destruct (clear_page_ok page (client r) "" 0) as (c & -> & Hent & _). eexists. split; [done|]. cbn. by rewrite Hent, decide_True.
Qed.

(** [GetCounter] of a key that is not there returns the library's own error. *)
Lemma missing_counter_raw `{Counters R} now (r : Redis R) k :
  client_GetInt64 now (key r k) (client r) = Err Nil → GetCounter now r k = Err (ERedis Nil).
Proof using All. intros E. unfold GetCounter. by rewrite E. Qed.

(** A value that cannot be stored is lost to the caller of [GetOrSet]. *)
Lemma unstored_value_lost now (r : Redis R) k v d e :
  client_Get now (key r k) (client r) = Err Nil → client_Set now (key r k) (default "" v) d (client r) = (Err (Failed e), client r) →
  (GetOrSet now now r k (Ok v) d).1 = Err (ERedis (Failed e)).
Proof using All. intros E1 E2. unfold GetOrSet, Get, Set_, call. by rewrite E1, E2. Qed.

End pattern.

End RedisCache.
