(* ===== verification/Calendar.v ===== *)
(** * Civil time

    Go's [time.Time] as the components use it: an instant with the fixed offset
    of its location, its proleptic Gregorian fields, and [time.Date] with the
    normalisation of out-of-range fields.  Offsets do not change over time: a
    location with daylight saving is not represented. *)

From S2P Require Import Prelude.

Module Calendar.

(** An instant in nanoseconds since the epoch, seen from a zone east of
    Greenwich by [off] nanoseconds. *)
Record time := mkTime { inst : Z; off : Z }.

Definition local (t : time) : Z := inst t + off t.

Definition Day : Duration := 24 * Hour.

(** ** Days and dates *)

(** Days from 1970-01-01 to January 1st of year [y]. *)
Definition year_start (y : Z) : Z :=
  365 * (y - 1) + (y - 1) / 4 - (y - 1) / 100 + (y - 1) / 400 - 719162.

Definition is_leap (y : Z) : bool :=
  (y `mod` 4 =? 0) && (negb (y `mod` 100 =? 0) || (y `mod` 400 =? 0)).

(** The year of a day: an estimate from the mean length, then a correction. *)
Definition year_of (n : Z) : Z :=
  let y := (n + 719162) * 400 / 146097 + 1 in
  if n <? year_start y then y - 1
  else if year_start (y + 1) <=? n then y + 1 else y.

(** Days before month [m] (1 to 13) in a year. *)
Definition days_before (leap : bool) (m : Z) : Z :=
  let l := if leap then 1 else 0 in
  if m <=? 1 then 0 else if m =? 2 then 31 else
  nth (Z.to_nat (m - 3)) [59; 90; 120; 151; 181; 212; 243; 273; 304; 334; 365] 0 + l.

Fixpoint month_scan (fuel : nat) (leap : bool) (doy m : Z) : Z :=
  match fuel with
  | O => m
  | S fuel => if days_before leap (m + 1) <=? doy then month_scan fuel leap doy (m + 1) else m
  end.

(** First day of a month given as a count of months: 12 times the year plus the
    month from 0. *)
Definition month_start (M : Z) : Z :=
  let y := M / 12 in year_start y + days_before (is_leap y) (M `mod` 12 + 1).

(** The month count of a day. *)
Definition month_index (n : Z) : Z :=
  let y := year_of n in
  12 * y + (month_scan 11 (is_leap y) (n - year_start y) 1 - 1).

(** ** The fields of a time *)

Definition day_number (t : time) : Z := local t / Day.

Definition Year (t : time) : Z := month_index (day_number t) / 12.

Definition Month (t : time) : Z := month_index (day_number t) `mod` 12 + 1.

Definition DayOfMonth (t : time) : Z :=
  day_number t - month_start (month_index (day_number t)) + 1.

(** Sunday is 0; 1970-01-01 was a Thursday. *)
Definition Weekday (t : time) : Z := (day_number t + 4) `mod` 7.

Definition HourOf (t : time) : Z := local t `mod` Day / Hour.

Definition MinuteOf (t : time) : Z := local t `mod` Hour / Minute.

Definition SecondOf (t : time) : Z := local t `mod` Minute / Second.

Definition Nanosecond (t : time) : Z := local t `mod` Second.

(** ** Construction *)

(** [time.Date]: months carry into the year, smaller fields into the day. *)
Definition Date (y m d h mi s ns : Z) (loc : Z) : time :=
  mkTime ((month_start (12 * y + (m - 1)) + (d - 1)) * Day + h * Hour + mi * Minute + s * Second + ns - loc) loc.

Definition Add (t : time) (d : Duration) : time := mkTime (inst t + d) (off t).

Definition In (t : time) (loc : Z) : time := mkTime (inst t) loc.

Definition AddDate (t : time) (years months days : Z) : time :=
  Date (Year t + years) (Month t + months) (DayOfMonth t + days)
    (HourOf t) (MinuteOf t) (SecondOf t) (Nanosecond t) (off t).

Definition After (t u : time) : bool := inst u <? inst t.

Definition Before (t u : time) : bool := inst t <? inst u.

(** ** Lemmas *)

Lemma year_start_step y : year_start (y + 1) = year_start y + 365 + (if is_leap y then 1 else 0).
Proof.
  unfold year_start, is_leap. destruct (Z.eqb_spec (y `mod` 4) 0), (Z.eqb_spec (y `mod` 100) 0),
    (Z.eqb_spec (y `mod` 400) 0); cbn [andb orb negb]; Z.to_euclidean_division_equations; lia.
Qed.

Lemma year_of_spec n : year_start (year_of n) ≤ n < year_start (year_of n + 1).
Proof.
  unfold year_of. set (y := (n + 719162) * 400 / 146097 + 1).
  assert (year_start (y - 1) ≤ n < year_start (y + 2)) as [Hlo Hhi].
  { unfold year_start, y. Z.to_euclidean_division_equations; lia. }
  destruct (Z.ltb_spec n (year_start y)); [replace (y - 1 + 1) with y by lia; lia|].
  destruct (Z.leb_spec (year_start (y + 1)) n); [replace (y + 1 + 1) with (y + 2) by lia|]; lia.
Qed.

(** Every month has 28 to 31 days. *)
Lemma days_before_step leap m :
  1 ≤ m ≤ 12 → days_before leap m + 28 ≤ days_before leap (m + 1) ≤ days_before leap m + 31.
Proof.
  intros Hm. assert (m = 1 ∨ m = 2 ∨ m = 3 ∨ m = 4 ∨ m = 5 ∨ m = 6 ∨ m = 7 ∨ m = 8 ∨ m = 9 ∨ m = 10 ∨ m = 11 ∨ m = 12) as Hc by lia.
  destruct leap; destruct_or!; subst m; vm_compute; split; discriminate.
Qed.

Lemma month_scan_spec leap doy :
  0 ≤ doy < days_before leap 13 →
  let m := month_scan 11 leap doy 1 in
  1 ≤ m ≤ 12 ∧ days_before leap m ≤ doy < days_before leap (m + 1).
Proof.
  intros Hd.
  assert (∀ fuel m, 1 ≤ m → m + Z.of_nat fuel = 12 → days_before leap m ≤ doy →
    let m' := month_scan fuel leap doy m in
    1 ≤ m' ≤ 12 ∧ days_before leap m' ≤ doy < days_before leap (m' + 1)) as H.
  { induction fuel as [|fuel IH]; intros m Hm Hf Hle; cbn [month_scan].
    - assert (m = 12) as -> by lia. cbv zeta. change (12 + 1) with 13. lia.
    - destruct (Z.leb_spec (days_before leap (m + 1)) doy); [apply IH; lia|]. cbv zeta. lia. }
  apply H; [lia|lia|]. change (days_before leap 1) with 0. lia.
Qed.

Lemma days_before_13 leap : days_before leap 13 = 365 + if leap then 1 else 0.
Proof. by destruct leap. Qed.

Lemma month_start_succ M :
  month_start (M + 1) = year_start (M / 12) + days_before (is_leap (M / 12)) (M `mod` 12 + 2).
Proof.
  unfold month_start. pose proof (Z.div_mod M 12 ltac:(lia)). pose proof (Z.mod_pos_bound M 12 ltac:(lia)).
  destruct (decide (M `mod` 12 = 11)) as [E|E].
  - assert ((M + 1) / 12 = M / 12 + 1 ∧ (M + 1) `mod` 12 = 0) as [-> ->] by (split; [symmetry; apply (Z.div_unique_pos _ _ _ 0)|symmetry; apply (Z.mod_unique_pos _ _ (M / 12 + 1))]; lia).
    rewrite E, year_start_step. change (days_before (is_leap (M / 12 + 1)) (0 + 1)) with 0.
    change (11 + 2) with 13. rewrite days_before_13. lia.
  - assert ((M + 1) / 12 = M / 12 ∧ (M + 1) `mod` 12 = M `mod` 12 + 1) as [-> ->] by (split; [symmetry; apply (Z.div_unique_pos _ _ _ (M `mod` 12 + 1))|symmetry; apply (Z.mod_unique_pos _ _ (M / 12))]; lia).
    f_equal. f_equal. lia.
Qed.

Lemma month_start_step M : month_start M + 28 ≤ month_start (M + 1) ≤ month_start M + 31.
Proof.
  rewrite month_start_succ. unfold month_start.
  pose proof (Z.mod_pos_bound M 12). pose proof (days_before_step (is_leap (M / 12)) (M `mod` 12 + 1)) as H1.
  replace (M `mod` 12 + 2) with (M `mod` 12 + 1 + 1) by lia. lia.
Qed.

Lemma month_start_mono M N : M ≤ N → month_start M + 28 * (N - M) ≤ month_start N.
Proof.
  intros H. replace N with (M + Z.of_nat (Z.to_nat (N - M))) by lia.
  generalize (Z.to_nat (N - M)) as k. induction k as [|k IH]; [rewrite Z.add_0_r; lia|].
  replace (M + Z.of_nat (S k)) with (M + Z.of_nat k + 1) by lia.
  pose proof (month_start_step (M + Z.of_nat k)). lia.
Qed.

Lemma month_index_spec n : month_start (month_index n) ≤ n < month_start (month_index n + 1).
Proof.
  rewrite month_start_succ. unfold month_index, month_start.
  pose proof (year_of_spec n) as Hy. rewrite year_start_step in Hy. set (y := year_of n) in *.
  destruct (month_scan_spec (is_leap y) (n - year_start y)) as [Hm Hd].
  { rewrite days_before_13. lia. }
  set (m := month_scan 11 (is_leap y) (n - year_start y) 1) in *.
  assert ((12 * y + (m - 1)) / 12 = y ∧ (12 * y + (m - 1)) `mod` 12 = m - 1) as [-> ->]
    by (split; [symmetry; apply (Z.div_unique_pos _ _ _ (m - 1))|symmetry; apply (Z.mod_unique_pos _ _ y)]; lia).
  replace (m - 1 + 1) with m by lia. replace (m - 1 + 2) with (m + 1) by lia. lia.
Qed.

Lemma month_index_unique n M : month_start M ≤ n < month_start (M + 1) → month_index n = M.
Proof.
  intros Hn. pose proof (month_index_spec n) as Hi.
  destruct (Z.lt_trichotomy (month_index n) M) as [H|[H|H]]; [|done|].
  - pose proof (month_start_mono (month_index n + 1) M). lia.
  - pose proof (month_start_mono (M + 1) (month_index n)). lia.
Qed.

Lemma month_index_mono n n' : n ≤ n' → month_index n ≤ month_index n'.
Proof.
  intros H. pose proof (month_index_spec n). pose proof (month_index_spec n').
  destruct (Z.le_gt_cases (month_index n) (month_index n')); [done|].
  pose proof (month_start_mono (month_index n' + 1) (month_index n)). lia.
Qed.

(** ** Fields from quotients *)

Lemma mod_div_comm a b c : 0 < b → 0 < c → a `mod` (b * c) / b = (a / b) `mod` c.
Proof.
  intros Hb Hc. rewrite Z.rem_mul_r, Z.mul_comm, Z.div_add by lia.
  by rewrite Z.div_small by (by apply Z.mod_pos_bound).
Qed.

Lemma HourOf_quot t : HourOf t = (local t / Hour) `mod` 24.
Proof. apply (mod_div_comm _ Hour 24); done. Qed.

Lemma MinuteOf_quot t : MinuteOf t = (local t / Minute) `mod` 60.
Proof. apply (mod_div_comm _ Minute 60); done. Qed.

Lemma SecondOf_quot t : SecondOf t = (local t / Second) `mod` 60.
Proof. apply (mod_div_comm _ Second 60); done. Qed.

Lemma month_index_fields t : 12 * Year t + (Month t - 1) = month_index (day_number t).
Proof.
  unfold Year, Month. pose proof (Z.div_mod (month_index (day_number t)) 12). lia.
Qed.

(** Rebuilding a time from its date gives the start of its day. *)
Lemma Date_midnight t loc :
  local (Date (Year t) (Month t) (DayOfMonth t) 0 0 0 0 loc) = day_number t * Day.
Proof.
  unfold Date, local. cbn [inst off]. rewrite month_index_fields. unfold DayOfMonth. lia.
Qed.

(** The first of the next month. *)
Lemma Date_next_month t loc :
  local (Date (Year t) (Month t + 1) 1 0 0 0 0 loc) = month_start (month_index (day_number t) + 1) * Day.
Proof.
  unfold Date, local. cbn [inst off]. rewrite <- month_index_fields.
  replace (12 * Year t + (Month t + 1 - 1)) with (12 * Year t + (Month t - 1) + 1) by lia. lia.
Qed.

(** The time of day adds up. *)
Lemma time_of_day t :
  local t = day_number t * Day + HourOf t * Hour + MinuteOf t * Minute + SecondOf t * Second + Nanosecond t.
Proof.
  rewrite HourOf_quot, MinuteOf_quot, SecondOf_quot. unfold day_number, Nanosecond.
  change Day with (Second * 60 * 60 * 24). change Hour with (Second * 60 * 60). change Minute with (Second * 60).
  rewrite <- !Z.div_div by done.
  pose proof (Z.div_mod (local t) Second ltac:(done)). pose proof (Z.div_mod (local t / Second) 60 ltac:(done)).
  pose proof (Z.div_mod (local t / Second / 60) 60 ltac:(done)).
  pose proof (Z.div_mod (local t / Second / 60 / 60) 24 ltac:(done)). unfold Second in *. lia.
Qed.

(** One calendar day later is 24 hours later. *)
Lemma AddDate_day t : local (AddDate t 0 0 1) = local t + Day.
Proof.
  unfold AddDate, Date, local. cbn [inst off]. rewrite !Z.add_0_r, month_index_fields.
  pose proof (time_of_day t) as E. unfold local in E. unfold DayOfMonth. lia.
Qed.

Lemma field_ranges t :
  0 ≤ SecondOf t ≤ 59 ∧ 0 ≤ MinuteOf t ≤ 59 ∧ 0 ≤ HourOf t ≤ 23 ∧ 1 ≤ DayOfMonth t ≤ 31 ∧
  1 ≤ Month t ≤ 12 ∧ 0 ≤ Weekday t ≤ 6.
Proof.
  rewrite HourOf_quot, MinuteOf_quot, SecondOf_quot. unfold DayOfMonth, Month, Weekday.
  pose proof (Z.mod_pos_bound (day_number t + 4) 7).
  pose proof (month_index_spec (day_number t)). pose proof (month_start_step (month_index (day_number t))).
  pose proof (Z.mod_pos_bound (local t / Hour) 24). pose proof (Z.mod_pos_bound (local t / Minute) 60).
  pose proof (Z.mod_pos_bound (local t / Second) 60).
  pose proof (Z.mod_pos_bound (month_index (day_number t)) 12). lia.
Qed.

Lemma local_Add t d : local (Add t d) = local t + d.
Proof. unfold Add, local. simpl. lia. Qed.

End Calendar.
