(* ===== verification/Cron.v ===== *)
(** * Cron scheduling (src/cron/cron.go)

    The three schedules and the expression parser over civil time, and the
    scheduler as a transition system: every locked section, wait and job end of
    the code is an event, so that several loops, running jobs and callers
    interleave.  Entries are shared objects, so they live in a heap. *)

From S2P Require Import Prelude Calendar.

Module Cron.
Import Calendar.

Inductive Error := ErrInvalidCronExpr | ErrJobNotFound.

(** ** Schedules *)

(** The [Schedule] interface: [None] when [Next] does not return. *)
Definition Schedule := time → option time.

Definition NewIntervalSchedule (interval : Duration) : Schedule := λ t, Some (Add t interval).

Definition daily_Next (hour minute loc : Z) (t : time) : time :=
  let next := Date (Year t) (Month t) (DayOfMonth t) hour minute 0 0 loc in
  if negb (After next t) then Add next (24 * Hour) else next.

Definition NewDailySchedule (hour minute loc : Z) : Schedule := λ t, Some (daily_Next hour minute loc t).

Record CronSchedule := mkCron {
  second : gset Z;
  minute : gset Z;
  hour : gset Z;
  dayOfMonth : gset Z;
  month : gset Z;
  dayOfWeek : gset Z;
  loc : Z
}.

(** One turn of the search loop: another candidate, or the answer. *)
Definition cron_step (s : CronSchedule) (t : time) : time + time :=
  if negb (bool_decide (Month t ∈ month s)) then
    inl (Date (Year t) (Month t + 1) 1 0 0 0 0 (loc s))
  else if negb (bool_decide (DayOfMonth t ∈ dayOfMonth s)) && negb (bool_decide (Weekday t ∈ dayOfWeek s)) then
    let t := AddDate t 0 0 1 in
    inl (Date (Year t) (Month t) (DayOfMonth t) 0 0 0 0 (loc s))
  else if negb (bool_decide (HourOf t ∈ hour s)) then
    inl (Add t (Hour - MinuteOf t * Minute - SecondOf t * Second))
  else if negb (bool_decide (MinuteOf t ∈ minute s)) then
    inl (Add t (Minute - SecondOf t * Second))
  else if negb (bool_decide (SecondOf t ∈ second s)) then inl (Add t Second)
  else inr t.

Fixpoint cron_loop (fuel : nat) (s : CronSchedule) (t : time) : option time :=
  match fuel with
  | O => None
  | S fuel => match cron_step s t with inl t => cron_loop fuel s t | inr t => Some t end
  end.

(** The search starts at the next whole second. *)
Definition cron_Next (fuel : nat) (s : CronSchedule) (t : time) : option time :=
  cron_loop fuel s (Add t (Second - Nanosecond t)).

(** ** Expressions *)

(** The scan of [splitFields]: [cur] is [expr[start:i]]. *)
Fixpoint split_loop (s cur : string) : list string :=
  match s with
  | EmptyString => if decide (cur = "") then [] else [cur]
  | String c s =>
      if decide (c = " "%char)
      then (if decide (cur = "") then [] else [cur]) ++ split_loop s ""
      else split_loop s (cur +:+ String c EmptyString)
  end.

Definition splitFields (expr : string) : list string := split_loop expr "".

(** The numbers of the two loops of [parseField], which are the same. *)
Definition all_between (min max : Z) : gset Z := list_to_set (seqZ min (max - min + 1)).

Definition parseField (field : string) (min max : Z) : gset Z :=
  if decide (field = "*" ∨ field = "?") then all_between min max else all_between min max.

Definition ParseCron (expr : string) (l : Z) : res Error CronSchedule :=
  match splitFields expr with
  | [f0; f1; f2; f3; f4; f5] =>
      Ok (mkCron (parseField f0 0 59) (parseField f1 0 59) (parseField f2 0 23)
            (parseField f3 1 31) (parseField f4 1 12) (parseField f5 0 6) l)
  | _ => Err ErrInvalidCronExpr
  end.

Definition Every (interval : Duration) : Schedule := NewIntervalSchedule interval.

Definition Daily (Local h m : Z) : Schedule := NewDailySchedule h m Local.

Definition Cron (Local : Z) (expr : string) : res Error CronSchedule := ParseCron expr Local.

(** [None] is the panic. *)
Definition MustCron (Local : Z) (expr : string) : option CronSchedule :=
  match ParseCron expr Local with Ok s => Some s | Err _ => None end.

(** ** The scheduler *)

Record Entry := mkEntry {
  ID : string;
  Sched : Schedule;
  Job : nat;
  Next : time;
  Prev : option time;
  Running : bool
}.

(** Where a scheduler goroutine stands: at the top of its loop, in the 100 ms
    pause, waiting for the picked entry (with the [now] it captured and the
    deadline it waits for), or gone.  Waits also watch the context of the
    [Start] they were entered under, given by its number. *)
Inductive Pc :=
| Top
| Pause (ctx : nat)
| Waiting (entry : nat) (now : time) (until : time) (ctx : nat)
| Gone.

Record Scheduler := mkScheduler {
  heap : list Entry;
  entries : gmap string nat;
  running : bool;
  location : Z;
  ctx_no : nat;
  loops : list Pc;
  active : list nat
}.

Definition New (location : Z) : Scheduler := mkScheduler [] ∅ false location 0 [] [].

Definition set_loop (i : nat) (p : Pc) (s : Scheduler) : Scheduler :=
  mkScheduler (heap s) (entries s) (running s) (location s) (ctx_no s) (<[i := p]> (loops s)) (active s).

(** Both branches of [AddJob] build the same entry. *)
Definition AddJob (id : string) (schedule : Schedule) (job : nat) (now : Time) (s : Scheduler)
    : option Scheduler :=
  match schedule (mkTime now (location s)) with
  | None => None
  | Some next =>
      Some (mkScheduler (heap s ++ [mkEntry id schedule job next None false])
              (<[id := length (heap s)]> (entries s)) (running s) (location s) (ctx_no s) (loops s) (active s))
  end.

Definition Remove (id : string) (s : Scheduler) : Scheduler :=
  mkScheduler (heap s) (delete id (entries s)) (running s) (location s) (ctx_no s) (loops s) (active s).

Definition Start (s : Scheduler) : Scheduler :=
  if running s then s
  else mkScheduler (heap s) (entries s) true (location s) (S (ctx_no s)) (loops s ++ [Top]) (active s).

(** The locked part of [Stop]; it then waits until loops and jobs are gone. *)
Definition Stop (s : Scheduler) : Scheduler :=
  mkScheduler (heap s) (entries s) false (location s) (ctx_no s) (loops s) (active s).

Definition stop_returns (s : Scheduler) : bool :=
  forallb (λ p, match p with Gone => true | _ => false end) (loops s) && bool_decide (active s = []).

(** The scan for the entry that is due first. *)
Fixpoint pick (h : list Entry) (l : list (string * nat)) (best : option nat) : option nat :=
  match l with
  | [] => best
  | (_, e) :: l =>
      match best with
      | None => pick h l (Some e)
      | Some b =>
          match h !! e, h !! b with
          | Some ee, Some be => pick h l (if Before (Next ee) (Next be) then Some e else best)
          | _, _ => pick h l best
          end
      end
  end.

(** The top of the loop, up to the wait. *)
Definition loop_top `{RangeOrder} (now : Time) (s : Scheduler) : Pc :=
  if negb (running s) then Gone
  else
    match pick (heap s) (range_map (entries s)) None with
    | None => Pause (ctx_no s)
    | Some e =>
        match heap s !! e with
        | Some ee => Waiting e (mkTime now (location s)) (Next ee) (ctx_no s)
        | None => Pause (ctx_no s)
        end
    end.

(** [runJob]: the locked part; the job itself then runs beside the loop. *)
Definition runJob (e : nat) (now : time) (s : Scheduler) : option Scheduler :=
  match heap s !! e with
  | None => None
  | Some ee =>
      if Running ee then Some s
      else
        match Sched ee now with
        | None => None
        | Some next =>
            Some (mkScheduler (<[e := mkEntry (ID ee) (Sched ee) (Job ee) next (Some now) true]> (heap s))
                    (entries s) (running s) (location s) (ctx_no s) (loops s) (active s ++ [e]))
        end
  end.

(** The deferred end of a job's goroutine, the [i]-th active one. *)
Definition job_done (i : nat) (s : Scheduler) : option Scheduler :=
  match active s !! i with
  | None => None
  | Some e =>
      Some (mkScheduler
              (alter (λ ee, mkEntry (ID ee) (Sched ee) (Job ee) (Next ee) (Prev ee) false) e (heap s))
              (entries s) (running s) (location s) (ctx_no s) (loops s) (delete i (active s)))
  end.

Definition GetEntry (id : string) (s : Scheduler) : res Error Entry :=
  match entries s !! id ≫= λ e, heap s !! e with
  | None => Err ErrJobNotFound
  | Some ee => Ok ee
  end.

(** [sort_slice] is [sort.Slice] with the comparison of the due times. *)
Definition ListEntries `{RangeOrder} (sort_slice : list Entry → list Entry) (s : Scheduler) : list Entry :=
  sort_slice (omap (λ ie, heap s !! ie.2) (range_map (entries s))).

Inductive Event :=
| EAddJob (id : string) (schedule : Schedule) (job : nat) (now : Time)
| ERemove (id : string)
| EStart
| EStop
| EPick (loop : nat) (now : Time)
| EResume (loop : nat)
| ECancel (loop : nat)
| EFire (loop : nat) (now : Time)
| EDone (i : nat).

(** One event; [None] when it cannot happen there. *)
Definition step `{RangeOrder} (ev : Event) (s : Scheduler) : option Scheduler :=
  match ev with
  | EAddJob id sch job now => AddJob id sch job now s
  | ERemove id => Some (Remove id s)
  | EStart => Some (Start s)
  | EStop => Some (Stop s)
  | EPick i now =>
      match loops s !! i with
      | Some Top => Some (set_loop i (loop_top now s) s)
      | _ => None
      end
  | EResume i =>
      match loops s !! i with Some (Pause _) => Some (set_loop i Top s) | _ => None end
  | ECancel i =>
      match loops s !! i with
      | Some (Pause c) | Some (Waiting _ _ _ c) =>
          if running s && bool_decide (c = ctx_no s) then None else Some (set_loop i Gone s)
      | _ => None
      end
  | EFire i now =>
      match loops s !! i with
      | Some (Waiting e picked until _) =>
          if inst until <=? now then runJob e picked (set_loop i Top s) else None
      | _ => None
      end
  | EDone i => job_done i s
  end.

Fixpoint run_events `{RangeOrder} (evs : list Event) (s : Scheduler) : option Scheduler :=
  match evs with
  | [] => Some s
  | ev :: evs => step ev s ≫= run_events evs
  end.

(** The instants at which the [k]-th job is started by a run of events. *)
Fixpoint starts `{RangeOrder} (evs : list Event) (s : Scheduler) : list (nat * Time) :=
  match evs with
  | [] => []
  | ev :: evs =>
      match step ev s with
      | None => []
      | Some s' =>
          match ev with
          | EFire _ now =>
              if (length (active s) <? length (active s'))%nat
              then match last (active s') with Some e => [(e, now)] | None => [] end
              else []
          | _ => []
          end ++ starts evs s'
      end
  end.

(** Running flags say exactly which entries have a job under way, each once. *)
Definition inv (s : Scheduler) : Prop :=
  NoDup (active s) ∧ (∀ e, e ∈ active s ↔ Running <$> heap s !! e = Some true) ∧
  map_Forall (λ _ e, (e < length (heap s))%nat) (entries s).

(** The instants a cron schedule names. *)
Definition matches (s : CronSchedule) (t : time) : Prop :=
  Month t ∈ month s ∧ (DayOfMonth t ∈ dayOfMonth s ∨ Weekday t ∈ dayOfWeek s) ∧
  HourOf t ∈ hour s ∧ MinuteOf t ∈ minute s ∧ SecondOf t ∈ second s.

#[export] Instance matches_dec s t : Decision (matches s t).
Proof. unfold matches. apply _. Defined.

(** Whole-second candidates in the schedule's location. *)
Definition candidate (s : CronSchedule) (t : time) : Prop := off t = loc s ∧ Nanosecond t = 0.

(** A skip from [t] to [t'] moves forward over instants that do not match. *)
Definition skips (s : CronSchedule) (t t' : time) : Prop :=
  candidate s t' ∧ local t + Second ≤ local t' ∧
  ∀ u, off u = loc s → local t ≤ local u < local t' → ¬ matches s u.

(** The instants a daily schedule names. *)
Definition due (h m : Z) (v : time) : Prop :=
  HourOf v = h ∧ MinuteOf v = m ∧ SecondOf v = 0 ∧ Nanosecond v = 0.

(** A field: not empty and without spaces. *)
Fixpoint no_space (s : string) : bool :=
  match s with
  | EmptyString => true
  | String c s => bool_decide (c ≠ " "%char) && no_space s
  end.

Definition field_ok (s : string) : Prop := s ≠ "" ∧ no_space s = true.

Fixpoint join_spaces (l : list string) : string :=
  match l with
  | [] => ""
  | [s] => s
  | s :: l => (s +:+ " " +:+ join_spaces l)%string
  end.

(** Midday on 29 February, in UTC. *)
Definition leap_noon : CronSchedule :=
  mkCron {[0]} {[0]} {[12]} {[29]} {[2]} ∅ 0.

(** ** The search of [CronSchedule.Next] *)

(** Same quotient, same field. *)
Lemma same_quot a b k : 0 < k → k * (a / k) ≤ b < k * (a / k) + k → b / k = a / k.
Proof. intros Hk Hb. symmetry. apply (Z.div_unique_pos b k (a / k) (b - k * (a / k))); lia. Qed.

Lemma quot_start a k : 0 < k → k * (a / k) ≤ a < k * (a / k) + k.
Proof. intros Hk. pose proof (Z.div_mod a k). pose proof (Z.mod_pos_bound a k). lia. Qed.

Lemma midnight_candidate s t n : local t = n * Day → off t = loc s → candidate s t.
Proof.
  intros E Ho. split; [done|]. unfold Nanosecond. rewrite E.
  change Day with (86400 * Second). rewrite Z.mul_assoc. by apply Z.mod_mul.
Qed.

Lemma candidate_Add s t d : candidate s t → d `mod` Second = 0 → candidate s (Add t d).
Proof.
  intros [Ho Hn] Hd. split; [done|]. unfold Nanosecond in *. rewrite local_Add, Z.add_mod by done.
  by rewrite Hn, Hd.
Qed.

Lemma skip_month s t :
  candidate s t → Month t ∉ month s → skips s t (Date (Year t) (Month t + 1) 1 0 0 0 0 (loc s)).
Proof.
  intros [Ho Hn] Hm. pose proof (Date_next_month t (loc s)) as E.
  pose proof (month_index_spec (day_number t)) as Hi.
  pose proof (quot_start (local t) Day ltac:(done)) as Hq. fold (day_number t) in Hq.
  assert (local t + Second ≤ day_number t * Day + Day) as Hs.
  { pose proof (time_of_day t) as Et. rewrite Hn in Et.
    rewrite HourOf_quot, MinuteOf_quot, SecondOf_quot in Et.
    pose proof (Z.mod_pos_bound (local t / Hour) 24). pose proof (Z.mod_pos_bound (local t / Minute) 60).
    pose proof (Z.mod_pos_bound (local t / Second) 60). unfold Day, Hour, Minute, Second in *. lia. }
  unfold skips. rewrite E. split; [by eapply midnight_candidate|]. split; [unfold Day, Hour, Minute, Second in *; lia|].
  intros u _ Hu (Hum & _). apply Hm.
  pose proof (quot_start (local u) Day ltac:(done)) as Hqu. fold (day_number u) in Hqu.
  assert (month_index (day_number u) = month_index (day_number t)) as Emi.
  { apply month_index_unique. unfold Day, Hour, Minute, Second in *. lia. }
  unfold Month in *. by rewrite <- Emi.
Qed.

(** A skip to the next boundary of a unit, within which the failed field is constant. *)
Lemma skip_unit s t t' U :
  candidate s t → 0 < U → U `mod` Second = 0 → off t' = loc s →
  local t' = U * (local t / U) + U →
  (∀ u, local u / U = local t / U → ¬ matches s u) → skips s t t'.
Proof.
  intros [Ho Hn] HU HUs Ho' E Hno. pose proof (quot_start (local t) U HU) as Hq.
  apply Z.mod_divide in HUs as [k HUs]; [|done].
  apply Z.mod_divide in Hn as [q Hn]; [|done].
  split; [|split].
  - split; [done|]. unfold Nanosecond. rewrite E, HUs.
    replace (k * Second * (local t / (k * Second)) + k * Second)
      with ((k * (local t / (k * Second)) + k) * Second) by lia. by apply Z.mod_mul.
  - rewrite E. set (x := local t / U) in *. unfold Second in *. nia.
  - intros u _ Hu. apply Hno. apply same_quot; lia.
Qed.

Lemma day_fields u t :
  day_number u = day_number t →
  Month u = Month t ∧ DayOfMonth u = DayOfMonth t ∧ Weekday u = Weekday t.
Proof. intros E. unfold Month, DayOfMonth, Weekday. by rewrite E. Qed.

Lemma hour_boundary t :
  Nanosecond t = 0 →
  local t + (Hour - MinuteOf t * Minute - SecondOf t * Second) = Hour * (local t / Hour) + Hour.
Proof.
  intros Hn. rewrite MinuteOf_quot, SecondOf_quot. unfold Nanosecond in Hn.
  change Hour with (Second * 60 * 60). change Minute with (Second * 60). rewrite <- !Z.div_div by done.
  pose proof (Z.div_mod (local t) Second ltac:(done)). pose proof (Z.div_mod (local t / Second) 60 ltac:(done)).
  pose proof (Z.div_mod (local t / Second / 60) 60 ltac:(done)). unfold Second in *. lia.
Qed.

Lemma minute_boundary t :
  Nanosecond t = 0 →
  local t + (Minute - SecondOf t * Second) = Minute * (local t / Minute) + Minute.
Proof.
  intros Hn. rewrite SecondOf_quot. unfold Nanosecond in Hn.
  change Minute with (Second * 60). rewrite <- !Z.div_div by done.
  pose proof (Z.div_mod (local t) Second ltac:(done)). pose proof (Z.div_mod (local t / Second) 60 ltac:(done)).
  unfold Second in *. lia.
Qed.

(** Every turn of the loop answers with a match or skips non-matching instants. *)
Lemma cron_step_spec s t :
  candidate s t →
  match cron_step s t with
  | inl t' => skips s t t'
  | inr t' => t' = t ∧ matches s t
  end.
Proof.
  intros Hc. pose proof Hc as [Ho Hn]. unfold cron_step.
  destruct (bool_decide_reflect (Month t ∈ month s)); cbn [negb]; [|by apply skip_month].
  destruct (bool_decide_reflect (DayOfMonth t ∈ dayOfMonth s)) as [Hd|Hd],
    (bool_decide_reflect (Weekday t ∈ dayOfWeek s)) as [Hw|Hw]; cbn [negb andb].
  4: { apply (skip_unit s t _ Day); try done.
       - rewrite Date_midnight. unfold day_number. rewrite AddDate_day.
         replace (local t + Day) with (local t + 1 * Day) by lia. rewrite Z.div_add by done. lia.
       - intros u E (_ & Hor & _). destruct (day_fields u t E) as (_ & Ed & Ew). rewrite Ed, Ew in Hor.
         destruct Hor; auto. }
  all: destruct (bool_decide_reflect (HourOf t ∈ hour s)) as [Hh|Hh]; cbn [negb].
  2, 4, 6: apply (skip_unit s t _ Hour); try done;
    [by rewrite local_Add, hour_boundary
    |intros u E (_ & _ & Hu & _); apply Hh; by rewrite HourOf_quot, E, <- HourOf_quot in Hu].
  all: destruct (bool_decide_reflect (MinuteOf t ∈ minute s)) as [Hm|Hm]; cbn [negb].
  2, 4, 6: apply (skip_unit s t _ Minute); try done;
    [by rewrite local_Add, minute_boundary
    |intros u E (_ & _ & _ & Hu & _); apply Hm; by rewrite MinuteOf_quot, E, <- MinuteOf_quot in Hu].
  all: destruct (bool_decide_reflect (SecondOf t ∈ second s)) as [Hs|Hs]; cbn [negb].
  2, 4, 6: apply (skip_unit s t _ Second); try done;
    [rewrite local_Add; unfold Nanosecond in Hn; pose proof (Z.div_mod (local t) Second ltac:(done)); lia
    |intros u E (_ & _ & _ & _ & Hu); apply Hs; by rewrite SecondOf_quot, E, <- SecondOf_quot in Hu].
  all: split; [done|]; unfold matches; auto.
Qed.

(** With a match ahead, the loop finds the first one in as many turns as there
    are seconds up to it. *)
Lemma cron_loop_spec fuel s t u :
  candidate s t → off u = loc s → matches s u → local t ≤ local u →
  (local u - local t) / Second < Z.of_nat fuel →
  ∃ t', cron_loop fuel s t = Some t' ∧ candidate s t' ∧ matches s t' ∧ local t ≤ local t' ≤ local u ∧
    ∀ v, off v = loc s → local t ≤ local v < local t' → ¬ matches s v.
Proof.
  revert t. induction fuel as [|fuel IH]; intros t Hc Hou Hu Hle Hf.
  { pose proof (Z.div_pos (local u - local t) Second). unfold Second in *. lia. }
  cbn [cron_loop]. pose proof (cron_step_spec s t Hc) as Hstep.
  destruct (cron_step s t) as [t1|t1].
  - destruct Hstep as (Hc1 & Hadv & Hno).
    assert (local t1 ≤ local u) as Hle1.
    { destruct (Z.le_gt_cases (local t1) (local u)); [done|]. exfalso. by apply (Hno u Hou ltac:(lia)). }
    destruct (IH t1 Hc1 Hou Hu Hle1) as (t' & -> & Hc' & Hm & Hbound & Hmin).
    { pose proof (Z.div_le_mono (local u - local t1) (local u - local t + (-1) * Second) Second ltac:(done) ltac:(lia)) as H.
      rewrite Z.div_add in H by done. lia. }
    exists t'. split_and!; try done; try (unfold Second in *; lia).
    intros v Hv Hlv. destruct (Z.lt_ge_cases (local v) (local t1)); [apply Hno|apply Hmin]; try done; lia.
  - destruct Hstep as [-> Hm]. exists t. split_and!; try done. intros v _ Hv. lia.
Qed.

Lemma round_up_candidate s t : off t = loc s → candidate s (Add t (Second - Nanosecond t)).
Proof.
  intros Ho. split; [done|]. unfold Nanosecond at 1. rewrite local_Add. unfold Nanosecond.
  rewrite (Z.div_mod (local t) Second) at 1 by done.
  replace (Second * (local t / Second) + local t `mod` Second + (Second - local t `mod` Second))
    with ((local t / Second + 1) * Second) by lia. by apply Z.mod_mul.
Qed.

(** ** Parsing *)

Lemma split_loop_field s cur rest :
  no_space s = true → split_loop (s +:+ rest) cur = split_loop rest (cur +:+ s).
Proof.
  revert cur. induction s as [|c s IH]; intros cur; cbn [no_space]; intros Hs.
  - by rewrite str_app_nil_r.
  - apply andb_true_iff in Hs as [Hc Hs]. apply bool_decide_eq_true in Hc. simpl.
    rewrite decide_False by done. rewrite IH by done. by rewrite str_app_assoc.
Qed.

(** Splitting undoes joining with single spaces. *)
Lemma splitFields_join l : Forall field_ok l → splitFields (join_spaces l) = l.
Proof.
  unfold splitFields. induction 1 as [|s l [Hne Hns] Hl IH]; [done|].
  destruct l as [|s' l].
  - simpl. rewrite <- (str_app_nil_r s) at 1. rewrite split_loop_field by done. simpl. by rewrite decide_False.
  - change (join_spaces (s :: s' :: l)) with (s +:+ " " +:+ join_spaces (s' :: l))%string.
    rewrite split_loop_field by done. change (" " +:+ join_spaces (s' :: l))%string with (String " " (join_spaces (s' :: l))).
    cbn [split_loop]. rewrite decide_True by done. change ("" +:+ s)%string with s.
    rewrite decide_False by done. exact (f_equal (cons s) IH).
Qed.

Lemma elem_of_all_between x lo hi : x ∈ all_between lo hi ↔ lo ≤ x ≤ hi.
Proof. unfold all_between. rewrite elem_of_list_to_set, elem_of_seqZ. lia. Qed.

Lemma parseField_all f lo hi : parseField f lo hi = all_between lo hi.
Proof. unfold parseField. by case_decide. Qed.

(** ** The scheduler's invariant *)

Lemma inv_active_bound s e : inv s → e ∈ active s → (e < length (heap s))%nat.
Proof.
  intros (_ & Hact & _) He. apply Hact in He. destruct (heap s !! e) eqn:E; [|done].
  by eapply lookup_lt_Some.
Qed.

Lemma AddJob_inv id sch job now s s' : inv s → AddJob id sch job now s = Some s' → inv s'.
Proof.
  intros Hinv Hadd. pose proof (inv_active_bound s) as Hb. pose proof Hinv as (Hnd & Hact & Hent).
  unfold AddJob in Hadd. destruct (sch _) as [next|]; [|done]. simplify_eq. split; [done|]. simpl. split.
  - intros e. rewrite Hact. destruct (decide (e < length (heap s))%nat).
    + by rewrite lookup_app_l.
    + rewrite lookup_app_r, (lookup_ge_None_2 (heap s)) by lia.
      destruct (e - length (heap s))%nat; done.
  - apply map_Forall_insert_2; [rewrite length_app; simpl; lia|].
    intros k e Hk. specialize (Hent k e Hk). simpl in Hent. rewrite length_app. lia.
Qed.

Lemma runJob_spec e picked s s' :
  inv s → runJob e picked s = Some s' →
  inv s' ∧ (s' = s ∨ ∃ ee next, heap s !! e = Some ee ∧ e ∉ active s ∧ Sched ee picked = Some next ∧
    active s' = active s ++ [e] ∧ Next <$> heap s' !! e = Some next).
Proof.
  intros Hinv Hrun. pose proof Hinv as (Hnd & Hact & Hent). unfold runJob in Hrun.
  destruct (heap s !! e) as [ee|] eqn:He; [|done].
  destruct (Running ee) eqn:Er; [simplify_eq; auto|].
  destruct (Sched ee picked) as [next|] eqn:Es; [|done]. simplify_eq.
  assert (e ∉ active s) as Hna. { intros H. apply Hact in H. rewrite He in H. simpl in H. congruence. }
  pose proof (lookup_lt_Some _ _ _ He) as Hlt.
  split; [split; [|split]|]; simpl.
  - apply NoDup_app. split; [done|]. split; [set_solver|apply NoDup_singleton].
  - intros k. destruct (decide (k = e)) as [->|Hne].
    + rewrite list_lookup_insert_eq by done. simpl. set_solver.
    + rewrite list_lookup_insert_ne, <- Hact by done. set_solver.
  - by rewrite length_insert.
  - right. exists ee, next. split_and!; try done. by rewrite list_lookup_insert_eq.
Qed.

Lemma job_done_inv i s s' : inv s → job_done i s = Some s' → inv s'.
Proof.
  intros (Hnd & Hact & Hent) Hd. unfold job_done in Hd. destruct (active s !! i) as [e|] eqn:Hi; [|done].
  simplify_eq. pose proof (delete_Permutation _ _ _ Hi) as Hp.
  assert (∀ x, x ∈ active s ↔ x = e ∨ x ∈ delete i (active s)) as Hel.
  { intros x. rewrite <- elem_of_cons. set (d := delete i (active s)) in *. by rewrite Hp. }
  rewrite Hp in Hnd. apply NoDup_cons in Hnd as [Hne Hnd]. split; [done|]. simpl. split.
  - intros k. destruct (decide (k = e)) as [->|Hke].
    + rewrite list_lookup_alter_eq. destruct (heap s !! e); simpl; split; intros; congruence || done.
    + rewrite list_lookup_alter_ne, <- Hact, Hel by done. naive_solver.
  - by rewrite length_alter.
Qed.

Lemma scheduler_step_inv `{RangeOrder} ev s s' : inv s → step ev s = Some s' → inv s'.
Proof.
  intros Hinv Hs. destruct ev as [id sch job now|id| | |i now|i|i|i now|i]; simpl in Hs.
  - by eapply AddJob_inv.
  - simplify_eq. destruct Hinv as (? & ? & ?). split_and!; try done. by apply map_Forall_delete.
  - simplify_eq. unfold Start. by destruct (running s).
  - by simplify_eq.
  - destruct (loops s !! i) as [[]|]; by simplify_eq.
  - destruct (loops s !! i) as [[]|]; by simplify_eq.
  - destruct (loops s !! i) as [[]|]; repeat case_match; by simplify_eq.
  - destruct (loops s !! i) as [[]|]; try done. case_match; [|done].
    assert (inv (set_loop i Top s)) as Hi by done.
    by destruct (runJob_spec _ _ _ _ Hi Hs).
  - by eapply job_done_inv.
Qed.

Lemma run_events_inv `{RangeOrder} evs s s' : inv s → run_events evs s = Some s' → inv s'.
Proof.
  revert s. induction evs as [|ev evs IH]; intros s Hinv Hrun; simpl in Hrun; [by simplify_eq|].
  destruct (step ev s) as [s1|] eqn:E; [|done]. eapply IH; [|done]. by eapply scheduler_step_inv.
Qed.

Lemma scheduler_New_inv l : inv (New l).
Proof.
  split; [constructor|]. split; [|apply map_Forall_empty]. intros e. simpl. split; [set_solver|done].
Qed.

(** The time of day as one remainder. *)
Lemma due_local h m v :
  0 ≤ h < 24 → 0 ≤ m < 60 → due h m v ↔ local v `mod` Day = h * Hour + m * Minute.
Proof.
  intros Hh Hm. pose proof (time_of_day v) as E. unfold due.
  pose proof (field_ranges v) as (Hs & Hmi & Hho & _).
  pose proof (Z.mod_pos_bound (local v) Second ltac:(done)) as Hn. fold (Nanosecond v) in Hn.
  pose proof (Z.div_mod (local v) Day ltac:(done)) as Ed. fold (day_number v) in Ed.
  generalize dependent (local v `mod` Day). generalize dependent (Nanosecond v).
  generalize dependent (SecondOf v). generalize dependent (MinuteOf v). generalize dependent (HourOf v).
  intros. unfold Day, Hour, Minute, Second in *. lia.
Qed.

Lemma daily_Next_local h m l t :
  0 ≤ h < 24 → 0 ≤ m < 60 → off t = l →
  ∃ k, local (daily_Next h m l t) = k * Day + (h * Hour + m * Minute) ∧ off (daily_Next h m l t) = l ∧
    inst t < inst (daily_Next h m l t) ≤ inst t + 24 * Hour.
Proof.
  intros Hh Hm Ho. unfold daily_Next, After.
  pose proof (Date_midnight t l) as Em.
  assert (local (Date (Year t) (Month t) (DayOfMonth t) h m 0 0 l) =
    local (Date (Year t) (Month t) (DayOfMonth t) 0 0 0 0 l) + (h * Hour + m * Minute)) as Hd
    by (unfold Date, local; simpl; lia).
  assert (off (Date (Year t) (Month t) (DayOfMonth t) h m 0 0 l) = l) as Hod by done. rewrite Em in Hd.
  generalize dependent (Date (Year t) (Month t) (DayOfMonth t) h m 0 0 l). intros d Hd Hod.
  pose proof (quot_start (local t) Day ltac:(done)) as Hq. fold (day_number t) in Hq.
  assert (0 ≤ h * Hour + m * Minute < Day) as Hc by (unfold Day, Hour, Minute, Second; lia).
  assert (local t = inst t + l ∧ local d = inst d + l) as [Elt Eld] by (unfold local; rewrite Ho, Hod; done).
  change (24 * Hour) with Day. generalize dependent (h * Hour + m * Minute). intros c Hd Hc. clear Em.
  generalize dependent (day_number t). intros D Hd Hq. generalize dependent Day. intros Dy.
  destruct (Z.ltb_spec (inst t) (inst d)); cbn [negb]; intros.
  - exists D. lia.
  - exists (D + 1). rewrite local_Add. simpl. lia.
Qed.

(** ** Properties *)



(** [DailySchedule.Next] is, in the schedule's own zone, the first instant
    after the argument with that hour and minute and no seconds, at most 24
    hours later. *)
Theorem daily_next_earliest h m l t :
  0 ≤ h < 24 → 0 ≤ m < 60 → off t = l →
  let n := daily_Next h m l t in
  inst t < inst n ≤ inst t + 24 * Hour ∧ due h m n ∧
  ∀ v, off v = l → inst t < inst v < inst n → ¬ due h m v.
Proof.
  intros Hh Hm Ho n. destruct (daily_Next_local h m l t Hh Hm Ho) as (k & Hk & Hon & Hb).
  assert (0 ≤ h * Hour + m * Minute < Day) as Hc by (unfold Day, Hour, Minute, Second; lia).
  fold n in Hk, Hon, Hb. split; [done|]. split.
  - apply due_local; [done..|]. rewrite Hk, Z.add_comm, Z.mod_add by done. by apply Z.mod_small.
  - intros v Hv Hlv Hdv%due_local; [|done..].
    pose proof (Z.div_mod (local v) Day ltac:(done)) as Ev. rewrite Hdv in Ev.
    clearbody n. unfold local in *. rewrite Hv, Hon in *. unfold Day, Hour, Minute, Second in *. lia.
Qed.

Lemma daily_next_earliest_witness :
  let n := daily_Next 8 30 0 (Date 2024 12 31 9 0 0 0 0) in
  Date 2024 12 31 9 0 0 0 0 ≠ n ∧ HourOf n = 8.
Proof.
  destruct (daily_next_earliest 8 30 0 (Date 2024 12 31 9 0 0 0 0)) as (H1 & H2 & _).
  - lia.
  - lia.
  - reflexivity.
  - split; [intros E; rewrite <- E in H1; lia|apply H2].
Defined.

(** [ParseCron] accepts exactly the expressions of six fields, and whatever
    the six fields say, the schedule it returns names every second: [Next] is
    the next whole second. *)
Theorem parsed_cron_every_second fields l :
  Forall field_ok fields →
  match ParseCron (join_spaces fields) l with
  | Err e => length fields ≠ 6%nat ∧ e = ErrInvalidCronExpr
  | Ok s => length fields = 6%nat ∧
      ∀ fuel t, cron_Next (S fuel) s t = Some (Add t (Second - Nanosecond t))
  end.
Proof.
  intros Hf. unfold ParseCron. rewrite splitFields_join by done.
  destruct fields as [|f0 [|f1 [|f2 [|f3 [|f4 [|f5 [|f6 fs]]]]]]]; try by split.
  split; [done|]. intros fuel t. unfold cron_Next. cbn [cron_loop].
  set (t1 := Add t (Second - Nanosecond t)). unfold cron_step. simpl. rewrite !parseField_all.
  destruct (field_ranges t1) as (Hs & Hm & Hh & Hd & Hmo & Hw).
  rewrite !bool_decide_eq_true_2 by (by apply elem_of_all_between). done.
Qed.

Lemma parsed_cron_every_second_witness :
  match ParseCron "0 0 3 1 1 ?" 0 with Ok s => cron_Next 1 s (Date 2024 1 1 0 0 0 0 0) = Some (Date 2024 1 1 0 0 1 0 0) | _ => False end.
Proof.
  pose proof (parsed_cron_every_second ["0"; "0"; "3"; "1"; "1"; "?"] 0) as H.
  assert (Forall field_ok ["0"; "0"; "3"; "1"; "1"; "?"]) as Hf by (repeat constructor; discriminate).
  specialize (H Hf). simpl in H. simpl. destruct H as [_ H]. exact (H 0%nat (Date 2024 1 1 0 0 0 0 0)).
Defined.

(** However loops, jobs and callers interleave, an entry never has two runs
    of its job under way and its [Running] flag says whether it has one; a
    firing happens no earlier than the due time it waited for, and either finds
    the entry running and leaves everything alone, or starts it once and moves
    its next time to the schedule's answer for the instant of the pick. *)
Theorem scheduler_no_overlap `{RangeOrder} evs l s :
  run_events evs (New l) = Some s →
  NoDup (active s) ∧ (∀ e, e ∈ active s ↔ Running <$> heap s !! e = Some true) ∧
  ∀ i now e picked until c s', loops s !! i = Some (Waiting e picked until c) →
    step (EFire i now) s = Some s' →
    inst until ≤ now ∧
    (active s' = active s ∨
     ∃ ee next, heap s !! e = Some ee ∧ e ∉ active s ∧ active s' = active s ++ [e] ∧
       Sched ee picked = Some next ∧ Next <$> heap s' !! e = Some next).
Proof.
  intros Hrun. pose proof (run_events_inv evs _ _ (scheduler_New_inv l) Hrun) as Hinv.
  pose proof Hinv as (Hnd & Hact & _). split; [done|]. split; [done|].
  intros i now e picked until c s' Hi Hs. simpl in Hs. rewrite Hi in Hs.
  destruct (Z.leb_spec (inst until) now); [|done]. split; [done|].
  assert (inv (set_loop i Top s)) as Hi' by done.
  destruct (runJob_spec _ _ _ _ Hi' Hs) as [_ [->|(ee & next & ? & ? & ? & ? & ?)]]; [by left|].
  right. by exists ee, next.
Qed.

Lemma scheduler_no_overlap_witness :
  NoDup (active (default (New 0) (@run_events range_first_key_order
    [EAddJob "j" (Every 100) 7 0; EStart; EPick 0 0; EFire 0 100; EPick 0 100; EFire 0 100] (New 0)))).
Proof.
  apply (@scheduler_no_overlap range_first_key_order
    [EAddJob "j" (Every 100) 7 0; EStart; EPick 0 0; EFire 0 100; EPick 0 100; EFire 0 100] 0).
  reflexivity.
Defined.

(** [runJob] asks the schedule for the successor of the instant captured before
    the wait, so an interval job is started twice at every due time. *)
Lemma interval_fires_twice :
  @starts range_first_key_order
    [EAddJob "j" (Every 100) 7 0; EStart;
     EPick 0 0; EFire 0 100; EDone 0; EPick 0 100; EFire 0 100; EDone 0;
     EPick 0 100; EFire 0 200; EDone 0; EPick 0 200; EFire 0 200] (New 0) =
  [(0%nat, 100); (0%nat, 100); (0%nat, 200); (0%nat, 200)].
Proof. reflexivity. Qed.

End Cron.
