(* ===== verification/DelayQueue.v ===== *)
(** * Delay queues (src/delayqueue/delayqueue.go)

    The in-memory queue as a transition system over a heap of messages (the
    queue keeps pointers, and [Push] writes through them); the text encoding of
    messages; and the Redis queue over a sorted set, which is a parameter with
    the documented behaviour of the commands it uses. *)

From stdpp Require Import pretty.
From S2P Require Import Prelude Calendar.

Module DelayQueue.
Import Calendar.

Record Message := mkMessage {
  ID : string;
  Topic : string;
  Body : string;
  Delay : Duration;
  ExecTime : Z
}.

Definition set_ExecTime (t : Z) (m : Message) : Message :=
  mkMessage (ID m) (Topic m) (Body m) (Delay m) t.

(** ** The in-memory queue *)

(** Handlers are named by numbers: starting one is all the queue does with it. *)
Record MemoryDelayQueue := mkQueue {
  heap : list Message;
  messages : list nat;
  handlers : gmap string nat;
  running : bool;
  consumers : nat
}.

Definition NewMemoryDelayQueue (heap : list Message) : MemoryDelayQueue :=
  mkQueue heap [] ∅ false 0.

(** [Push] of the message at [l]. *)
Definition Push (now : Time) (l : nat) (q : MemoryDelayQueue) : MemoryDelayQueue :=
  let stamp m :=
    if 0 <? Delay m then set_ExecTime (UnixMilli (now + Delay m)) m
    else if ExecTime m =? 0 then set_ExecTime (UnixMilli now) m
    else m in
  mkQueue (alter stamp l (heap q)) (messages q ++ [l]) (handlers q) (running q) (consumers q).

Definition Start (q : MemoryDelayQueue) : MemoryDelayQueue :=
  if running q then q
  else mkQueue (heap q) (messages q) (handlers q) true (S (consumers q)).

(** The locked part of [Stop]; it then waits for the consumers to leave. *)
Definition Stop (q : MemoryDelayQueue) : MemoryDelayQueue :=
  mkQueue (heap q) (messages q) (handlers q) false (consumers q).

Definition RegisterHandler (topic : string) (h : nat) (q : MemoryDelayQueue) : MemoryDelayQueue :=
  mkQueue (heap q) (messages q) (<[topic := h]> (handlers q)) (running q) (consumers q).

(** The loop of [poll]: the handler starts, the expired messages without a
    handler, and the remaining messages. *)
Fixpoint poll_scan (now : Z) (h : list Message) (hs : gmap string nat) (ms : list nat)
    : list (nat * nat) * list nat * list nat :=
  match ms with
  | [] => ([], [], [])
  | l :: ms =>
      let '(started, dropped, remaining) := poll_scan now h hs ms in
      match h !! l with
      | None => (started, dropped, remaining)
      | Some m =>
          if ExecTime m <=? now then
            match hs !! Topic m with
            | Some f => ((f, l) :: started, dropped, remaining)
            | None => (started, l :: dropped, remaining)
            end
          else (started, dropped, l :: remaining)
      end
  end.

Definition poll (now : Time) (q : MemoryDelayQueue)
    : list (nat * nat) * list nat * MemoryDelayQueue :=
  let '(started, dropped, remaining) := poll_scan (UnixMilli now) (heap q) (handlers q) (messages q) in
  (started, dropped, mkQueue (heap q) remaining (handlers q) (running q) (consumers q)).

Inductive Event :=
| EPush (now : Time) (l : nat)
| EStart
| EStop
| EExit
| ERegister (topic : string) (h : nat)
| EPoll (now : Time).

(** What a run did: messages pushed, handlers started on messages (with the
    instant), messages dropped for want of a handler. *)
Record Trace := mkTrace {
  pushed : list nat;
  started : list (nat * nat * Time);
  dropped : list nat
}.

(** One event; [None] when it cannot happen: a push of no message, a poll
    without a consumer, a consumer leaving before the queue is stopped. *)
Definition step (ev : Event) (q : MemoryDelayQueue) (tr : Trace) : option (MemoryDelayQueue * Trace) :=
  match ev with
  | EPush now l =>
      if decide (l < length (heap q))%nat
      then Some (Push now l q, mkTrace (pushed tr ++ [l]) (started tr) (dropped tr)) else None
  | EStart => Some (Start q, tr)
  | EStop => Some (Stop q, tr)
  | EExit =>
      if negb (running q) && (1 <=? consumers q)%nat
      then Some (mkQueue (heap q) (messages q) (handlers q) (running q) (pred (consumers q)), tr)
      else None
  | ERegister t h => Some (RegisterHandler t h q, tr)
  | EPoll now =>
      if (1 <=? consumers q)%nat then
        let '(st, dr, q) := poll now q in
        Some (q, mkTrace (pushed tr) (started tr ++ ((λ fl, (fl, now)) <$> st)) (dropped tr ++ dr))
      else None
  end.

Fixpoint run (evs : list Event) (q : MemoryDelayQueue) (tr : Trace) : option (MemoryDelayQueue * Trace) :=
  match evs with
  | [] => Some (q, tr)
  | ev :: evs => step ev q tr ≫= λ '(q, tr), run evs q tr
  end.

(** ** The text encoding *)

(** [k] decimal digits of [n]. *)
Fixpoint pad (k : nat) (n : Z) : string :=
  match k with
  | O => ""
  | S k => pad k (n / 10) +:+ String (ascii_of_nat (Z.to_nat (48 + n `mod` 10))) EmptyString
  end.

(** [fmt]'s zero-padded integer. *)
Definition appendInt (width : nat) (n : Z) : string :=
  let sign := if n <? 0 then "-"%string else ""%string in
  let digits := if Z.abs n <? 10 ^ Z.of_nat width then pad width (Z.abs n) else pretty (Z.abs n) in
  (sign +:+ digits)%string.

(** [time.UnixMilli(n)] in the process's local zone, "20060102150405". *)
Definition formatInt64 (Local : Z) (n : Z) : string :=
  let t := mkTime (n * Millisecond) Local in
  (appendInt 4 (Year t) +:+ pad 2 (Month t) +:+ pad 2 (DayOfMonth t) +:+ pad 2 (HourOf t) +:+
   pad 2 (MinuteOf t) +:+ pad 2 (SecondOf t))%string.

Definition is_digit (c : ascii) : bool := (48 <=? nat_of_ascii c)%nat && (nat_of_ascii c <=? 57)%nat.

(** Read exactly [k] digits. *)
Fixpoint get_digits (k : nat) (acc : Z) (s : string) : option (Z * string) :=
  match k with
  | O => Some (acc, s)
  | S k =>
      match s with
      | String c s =>
          if is_digit c then get_digits k (acc * 10 + (Z.of_nat (nat_of_ascii c) - 48)) s else None
      | EmptyString => None
      end
  end.

Fixpoint all_digits (s : string) : bool :=
  match s with EmptyString => true | String c s => is_digit c && all_digits s end.

(** [time.Parse] with that layout: fields in range, and after the seconds only
    a fraction, which is below the millisecond kept unless spelled out. *)
Definition parse_fields (s : string) : option (Z * Z * Z * Z * Z * Z * string) :=
  '(y, s) ← get_digits 4 0 s;
  '(mo, s) ← get_digits 2 0 s;
  '(d, s) ← get_digits 2 0 s;
  '(h, s) ← get_digits 2 0 s;
  '(mi, s) ← get_digits 2 0 s;
  '(sec, s) ← get_digits 2 0 s;
  Some (y, mo, d, h, mi, sec, s).

Definition fields_valid (y mo d h mi sec : Z) : bool :=
  (1 <=? mo) && (mo <=? 12) && (1 <=? d) &&
  (d <=? month_start (12 * y + mo) - month_start (12 * y + (mo - 1))) &&
  (h <? 24) && (mi <? 60) && (sec <? 60).

(** The zero time, January 1st of year 1, which a failed parse returns. *)
Definition zero_time : time := Date 1 1 1 0 0 0 0 0.

(** Inputs with a fraction after the seconds are outside this definition's
    domain ([None]); [formatInt64] writes none. *)
Definition time_Parse (s : string) : option time :=
  match parse_fields s with
  | Some (y, mo, d, h, mi, sec, "") =>
      Some (if fields_valid y mo d h mi sec then Date y mo d h mi sec 0 0 else zero_time)
  | Some (_, _, _, _, _, _, String c s) =>
      if bool_decide (c = "."%char ∨ c = ","%char) && negb (bool_decide (s = "")) && all_digits s
      then None else Some zero_time
  | None => Some zero_time
  end.

Definition parseInt64 (s : string) : option Z := (λ t, UnixMilli (inst t)) <$> time_Parse s.

Definition encodeMessage (Local : Z) (m : Message) : string :=
  (ID m +:+ ":" +:+ Topic m +:+ ":" +:+ Body m +:+ ":" +:+ formatInt64 Local (ExecTime m))%string.

(** The scan of [splitMessage]: [room] more separators may be consumed. *)
Fixpoint split_scan (room : nat) (s cur : string) : list string :=
  match s with
  | EmptyString => if decide (cur = "") then [] else [cur]
  | String c s' =>
      match room with
      | O => [cur +:+ s]%string
      | S room =>
          if decide (c = ":"%char) then cur :: split_scan room s' ""
          else split_scan (S room) s' (cur +:+ String c EmptyString)
      end
  end.

Definition splitMessage (s : string) : list string := split_scan 3 s "".

(** [Err tt] is "invalid message format"; the outer option is [parseInt64]'s. *)
Definition decodeMessage (s : string) : option (res unit Message) :=
  match splitMessage s with
  | p0 :: p1 :: p2 :: p3 :: _ =>
      (λ t, Ok (mkMessage p0 p1 p2 0 t)) <$> parseInt64 p3
  | _ => Some (Err tt)
  end.

(** ** The Redis queue *)

(** The sorted-set commands of the server, on scores that are whole numbers:
    [zscores] is what a set holds. *)
Class SortedSet := {
  zset : Type;
  zscores : zset → gmap string Z;
  ZADD : string → Z → zset → zset;
  ZREM : string → zset → zset;
  ZRANGEBYSCORE : Z → Z → Z → zset → list string;
  zscores_ZADD m s z : zscores (ZADD m s z) = <[m := s]> (zscores z);
  zscores_ZREM m z : zscores (ZREM m z) = delete m (zscores z);
  elem_of_ZRANGEBYSCORE lo hi count z m :
    m ∈ ZRANGEBYSCORE lo hi count z → ∃ s, zscores z !! m = Some s ∧ lo ≤ s ≤ hi
}.

Section Redis.
Context `{SortedSet}.

Record RedisDelayQueue := mkRedis {
  zs : zset;
  rhandlers : gmap string nat;
  pollSize : Z
}.

Definition NewRedisDelayQueue (z : zset) (opts : list (RedisDelayQueue → RedisDelayQueue)) : RedisDelayQueue :=
  foldl (λ q opt, opt q) (mkRedis z ∅ 100) opts.

Definition WithPollSize (size : Z) (q : RedisDelayQueue) : RedisDelayQueue :=
  mkRedis (zs q) (rhandlers q) size.

Definition redis_Push (Local : Z) (now : Time) (m : Message) (q : RedisDelayQueue)
    : Message * RedisDelayQueue :=
  let m := if 0 <? Delay m then set_ExecTime (UnixMilli (now + Delay m)) m else m in
  (m, mkRedis (ZADD (encodeMessage Local m) (ExecTime m) (zs q)) (rhandlers q) (pollSize q)).

(** The script: the first member scored exactly [now] is removed and returned. *)
Definition take_script (now : Z) (z : zset) : option string * zset :=
  match ZRANGEBYSCORE now now (-1) z with
  | item :: _ => (Some item, ZREM item z)
  | [] => (None, z)
  end.

(** The number a string of digits denotes, as Redis reads the bound. *)
Definition decimal (s : string) : Z :=
  (fix go (acc : Z) (s : string) : Z :=
     match s with
     | EmptyString => acc
     | String c s => go (acc * 10 + (Z.of_nat (nat_of_ascii c) - 48)) s
     end) 0 s.

(** One turn per listed message; handled messages are returned with their handler. *)
Fixpoint take_loop (results : list string) (now : Z) (hs : gmap string nat) (z : zset)
    : list (nat * Message) * zset :=
  match results with
  | [] => ([], z)
  | _ :: results =>
      let '(item, z) := take_script now z in
      let here :=
        match item ≫= decodeMessage with
        | Some (Ok m) => match hs !! Topic m with Some f => [(f, m)] | None => [] end
        | _ => []
        end in
      let '(rest, z) := take_loop results now hs z in (here ++ rest, z)
  end.

Definition redis_poll (Local : Z) (now : Time) (q : RedisDelayQueue)
    : list (nat * Message) * RedisDelayQueue :=
  let ms := UnixMilli now in
  let results := ZRANGEBYSCORE 0 (decimal (formatInt64 Local ms)) (pollSize q) (zs q) in
  let '(handled, z) := take_loop results ms (rhandlers q) (zs q) in
  (handled, mkRedis z (rhandlers q) (pollSize q)).

End Redis.

(** ** Specification-side definitions *)

Fixpoint no_colon (s : string) : bool :=
  match s with EmptyString => true | String c s => bool_decide (c ≠ ":"%char) && no_colon s end.

(** Every pushed message is pending, started or dropped, once per push; and
    pending pointers are valid. *)
Definition ledger (q : MemoryDelayQueue) (tr : Trace) : Prop :=
  pushed tr ≡ₚ (started tr).*1.*2 ++ dropped tr ++ messages q ∧
  Forall (λ l, (l < length (heap q))%nat) (messages q).

(** The message at [l] is due at the millisecond [ms]. *)
Definition due (q : MemoryDelayQueue) (ms : Z) (l : nat) : bool :=
  match heap q !! l with Some m => ExecTime m <=? ms | None => false end.

(** The handler registered for the message at [l]. *)
Definition handler_of (q : MemoryDelayQueue) (l : nat) : option nat :=
  heap q !! l ≫= λ m, handlers q !! Topic m.

(** A sorted set kept as a map, for the witnesses. *)
Definition map_range (lo hi count : Z) (z : gmap string Z) : list string :=
  (filter (λ ms, lo ≤ ms.2 ≤ hi) (map_to_list z)).*1.

(** Instants between the years 0 and 9999 of the local zone. *)
Definition printable (Local n : Z) : Prop := 0 ≤ Year (mkTime (n * Millisecond) Local) ≤ 9999.

Definition sample_heap : list Message :=
  [mkMessage "1" "mail" "hi" (5 * Second) 0; mkMessage "2" "sms" "yo" 0 0].

Definition sample_run : list Event :=
  [ERegister "mail" 7; EStart; EPush (10 * Second) 0; EPush (10 * Second) 1; EPoll (11 * Second);
   EPoll (15 * Second)].

#[export] Instance map_sorted_set : SortedSet.
Proof.
  refine {| zset := gmap string Z; zscores := id; ZADD m s z := <[m := s]> z; ZREM m z := delete m z;
            ZRANGEBYSCORE := map_range |}.
  - done.
  - done.
  - intros lo hi count z m Hin. unfold map_range in Hin.
    apply list_elem_of_fmap in Hin as ([k s] & -> & [Hr Hk]%list_elem_of_filter).
    apply elem_of_map_to_list in Hk. by exists s.
Defined.

(** ** The in-memory queue *)

Lemma poll_scan_spec q now ms :
  Forall (λ l, (l < length (heap q))%nat) ms →
  let '(st, dr, rem) := poll_scan now (heap q) (handlers q) ms in
  ms ≡ₚ st.*2 ++ dr ++ rem ∧
  st = omap (λ l, if due q now l then (λ f, (f, l)) <$> handler_of q l else None) ms ∧
  dr = filter (λ l, due q now l = true ∧ handler_of q l = None) ms ∧
  rem = filter (λ l, due q now l = false) ms.
Proof.
  induction 1 as [|l ms Hl _ IH]; [done|]. cbn [poll_scan].
  destruct (poll_scan now (heap q) (handlers q) ms) as [[st dr] rem].
  destruct IH as (Hp & -> & -> & ->). rewrite !filter_cons. cbn [omap list_omap].
  unfold due, handler_of in *. destruct (lookup_lt_is_Some_2 _ _ Hl) as [m Hm]. rewrite Hm. simpl.
  destruct (ExecTime m <=? now); simpl.
  - destruct (handlers q !! Topic m) as [f|]; simpl.
    + split; [by constructor|done].
    + split; [|done]. etrans; [apply perm_skip, Hp|]. apply Permutation_middle.
  - split; [|done]. etrans; [apply perm_skip, Hp|]. rewrite !app_assoc. apply Permutation_middle.
Qed.

Lemma step_ledger ev q tr q' tr' :
  ledger q tr → step ev q tr = Some (q', tr') → ledger q' tr'.
Proof.
  intros [Hp Hv] Hs. destruct ev as [now l| | | |t h|now]; cbn [step] in Hs.
  - case_decide; simplify_eq. split; simpl.
    + by rewrite Hp, <- !app_assoc.
    + rewrite length_alter. apply Forall_app. split; [done|by constructor].
  - simplify_eq. unfold Start. by destruct (running q); split.
  - simplify_eq. by split.
  - destruct (_ && _); simplify_eq. by split.
  - simplify_eq. by split.
  - destruct (1 <=? consumers q)%nat; [|done]. unfold poll in Hs.
    pose proof (poll_scan_spec q (UnixMilli now) (messages q) Hv) as Hsc.
    destruct (poll_scan _ _ _ _) as [[st dr] rem]. simplify_eq. destruct Hsc as (Hms & _ & _ & Hrem).
    split; simpl.
    + assert (((λ fl : nat * nat, (fl, now)) <$> st).*1 = st) as E
        by (rewrite <- list_fmap_compose; apply list_fmap_id).
      rewrite Hp, !fmap_app, E, <- !app_assoc. apply Permutation_app_head.
      etrans; [apply Permutation_app_head, Hms|]. apply Permutation_app_swap_app.
    + subst rem. by apply Forall_filter.
Qed.

Lemma run_ledger evs q tr q' tr' : ledger q tr → run evs q tr = Some (q', tr') → ledger q' tr'.
Proof.
  revert q tr. induction evs as [|ev evs IH]; intros q tr Hl Hrun; simpl in Hrun; [by simplify_eq|].
  destruct (step ev q tr) as [[q1 tr1]|] eqn:E; [|done]. simpl in Hrun.
  eapply IH; [|done]. by eapply step_ledger.
Qed.

(** ** The text encoding *)

Lemma is_digit_code d :
  0 ≤ d < 10 → let c := ascii_of_nat (Z.to_nat (48 + d)) in
  is_digit c = true ∧ Z.of_nat (nat_of_ascii c) - 48 = d.
Proof.
  intros Hd c. unfold is_digit, c. rewrite nat_ascii_embedding by lia.
  rewrite Z2Nat.id by lia. split; [|lia]. apply andb_true_iff. rewrite !Nat.leb_le. lia.
Qed.

Lemma get_digits_add k j acc s :
  get_digits (k + j) acc s = get_digits k acc s ≫= λ '(a, s), get_digits j a s.
Proof.
  revert acc s. induction k as [|k IH]; intros acc s; [done|]. simpl.
  destruct s as [|c s]; [done|]. destruct (is_digit c); [apply IH|done].
Qed.

Lemma get_digits_pad k n acc rest :
  0 ≤ n < 10 ^ Z.of_nat k →
  get_digits k acc (pad k n +:+ rest)%string = Some (acc * 10 ^ Z.of_nat k + n, rest).
Proof.
  revert n acc rest. induction k as [|k IH]; intros n acc rest Hn.
  - simpl in *. do 2 f_equal. lia.
  - rewrite Nat2Z.inj_succ, Z.pow_succ_r in Hn by lia.
    replace (S k) with (k + 1)%nat at 1 by lia. rewrite get_digits_add. cbn [pad].
    rewrite str_app_assoc. pose proof (Z.div_mod n 10). pose proof (Z.mod_pos_bound n 10).
    rewrite IH by lia. cbn [mbind option_bind].
    change (get_digits 1 ?a (String ?c "" +:+ rest)%string) with
      (if is_digit c then Some (a * 10 + (Z.of_nat (nat_of_ascii c) - 48), rest) else None).
    destruct (is_digit_code (n `mod` 10)) as [-> ->]; [lia|].
    do 2 f_equal. rewrite Nat2Z.inj_succ, Z.pow_succ_r by lia. lia.
Qed.

Lemma fields_of_time t :
  fields_valid (Year t) (Month t) (DayOfMonth t) (HourOf t) (MinuteOf t) (SecondOf t) = true ∧
  inst (Date (Year t) (Month t) (DayOfMonth t) (HourOf t) (MinuteOf t) (SecondOf t) 0 0) =
    local t - Nanosecond t.
Proof.
  destruct (field_ranges t) as (Hs & Hm & Hh & Hd & Hmo & _). pose proof (month_index_fields t) as Ei.
  pose proof (month_index_spec (day_number t)) as Hi. split.
  - unfold fields_valid. replace (12 * Year t + Month t) with (month_index (day_number t) + 1) by lia.
    rewrite Ei. unfold DayOfMonth in *. repeat (apply andb_true_iff; split); lia.
  - unfold Date. cbn [inst]. rewrite Ei. pose proof (time_of_day t). unfold DayOfMonth. lia.
Qed.

Lemma parse_format Local n :
  printable Local n →
  parse_fields (formatInt64 Local n) =
    let t := mkTime (n * Millisecond) Local in
    Some (Year t, Month t, DayOfMonth t, HourOf t, MinuteOf t, SecondOf t, "").
Proof.
  intros Hp. cbv zeta. unfold formatInt64, printable in *. set (t := mkTime (n * Millisecond) Local) in *.
  destruct (field_ranges t) as (Hs & Hm & Hh & Hd & Hmo & _).
  unfold parse_fields, appendInt. rewrite Z.abs_eq by lia.
  replace (Year t <? 0) with false by lia. replace (Year t <? 10 ^ Z.of_nat 4) with true by (change (10 ^ Z.of_nat 4) with 10000; lia).
  change ("" +:+ pad 4 (Year t))%string with (pad 4 (Year t)).
  rewrite get_digits_pad by (change (10 ^ Z.of_nat 4) with 10000; lia). cbn [mbind option_bind].
  do 4 (rewrite get_digits_pad by (change (10 ^ Z.of_nat 2) with 100; lia); cbn [mbind option_bind]).
  rewrite <- (str_app_nil_r (pad 2 (SecondOf t))), get_digits_pad by (change (10 ^ Z.of_nat 2) with 100; lia).
  cbn [mbind option_bind]. by rewrite !Z.mul_0_l, !Z.add_0_l.
Qed.

(** A timestamp comes back truncated to its second and shifted by the zone. *)
Lemma parse_format_int64 Local n :
  printable Local n → Z.abs n < 2 ^ 60 → Local `mod` Second = 0 → Z.abs Local ≤ Day →
  parseInt64 (formatInt64 Local n) = Some (n / 1000 * 1000 + Local / Millisecond).
Proof.
  intros Hp Hn Hl Hlb. unfold parseInt64, time_Parse. rewrite parse_format by done. cbv zeta.
  set (t := mkTime (n * Millisecond) Local). destruct (fields_of_time t) as [Ev Ei].
  cbn match. rewrite Ev. cbn [fmap option_fmap option_map]. rewrite Ei. f_equal. unfold UnixMilli, Nanosecond, t, local. cbn [inst off].
  apply Z.mod_divide in Hl as [k ->]; [|done].
  assert (n * Millisecond + k * Second - (n * Millisecond + k * Second) `mod` Second =
          (n / 1000 * 1000 + k * 1000) * Millisecond) as ->.
  { rewrite Z.mod_add by done. change Second with (1000 * Millisecond).
    rewrite (Z.mul_comm n), (Z.mul_comm 1000 Millisecond), Z.mul_mod_distr_l by done.
    pose proof (Z.div_mod n 1000). lia. }
  rewrite Z.div_mul by done. replace (k * Second / Millisecond) with (k * 1000).
  2: { change Second with (1000 * Millisecond). by rewrite Z.mul_assoc, Z.div_mul. }
  pose proof (Z.div_mod n 1000). pose proof (Z.mod_pos_bound n 1000).
  apply i64_id. unfold Day, Hour, Minute, Second in *. word.
Qed.

Lemma split_scan_field room p rest cur :
  no_colon p = true →
  split_scan (S room) (p +:+ ":" +:+ rest)%string cur = (cur +:+ p)%string :: split_scan room rest "".
Proof.
  revert cur. induction p as [|c p IH]; intros cur; cbn [no_colon]; intros Hp.
  - change ("" +:+ ":" +:+ rest)%string with (String ":" rest). cbn [split_scan].
    by rewrite decide_True, str_app_nil_r.
  - apply andb_true_iff in Hp as [Hc Hp]. apply bool_decide_eq_true in Hc.
    change (String c p +:+ ":" +:+ rest)%string with (String c (p +:+ ":" +:+ rest))%string.
    cbn [split_scan]. rewrite decide_False by done. rewrite IH by done. by rewrite str_app_assoc.
Qed.

Lemma split_scan_last s : s ≠ "" → split_scan 0 s "" = [s].
Proof. by destruct s. Qed.

Lemma formatInt64_nonempty Local n : printable Local n → formatInt64 Local n ≠ "".
Proof. intros Hp E. pose proof (parse_format Local n Hp) as H. by rewrite E in H. Qed.

(** ** The Redis queue *)

Section RedisLemmas.
Context `{SortedSet}.

Lemma take_script_spec now z item z' :
  take_script now z = (item, z') →
  match item with
  | None => z' = z
  | Some m => zscores z !! m = Some now ∧ zscores z' = delete m (zscores z)
  end.
Proof.
  unfold take_script. destruct (ZRANGEBYSCORE now now (-1) z) as [|m ms] eqn:E; intros [= <- <-]; [done|].
  destruct (elem_of_ZRANGEBYSCORE now now (-1) z m) as (s & Hs & Hr); [rewrite E; set_solver|].
  replace s with now in Hs by lia. split; [done|apply zscores_ZREM].
Qed.

(** The loop only ever touches members scored exactly [now]. *)
Lemma take_loop_spec results now hs z handled z' :
  take_loop results now hs z = (handled, z') →
  (∀ m s, zscores z !! m = Some s → s ≠ now → zscores z' !! m = Some s) ∧
  (∀ m s, zscores z' !! m = Some s → zscores z !! m = Some s) ∧
  Forall (λ fm, ∃ text, zscores z !! text = Some now ∧ decodeMessage text = Some (Ok fm.2) ∧
    hs !! Topic fm.2 = Some fm.1) handled.
Proof.
  revert z handled z'. induction results as [|r results IH]; intros z handled z' E; cbn [take_loop] in E.
  { simplify_eq. split_and!; auto. }
  destruct (take_script now z) as [item z1] eqn:Et. apply take_script_spec in Et.
  destruct (take_loop results now hs z1) as [rest z2] eqn:El. simplify_eq.
  destruct (IH _ _ _ El) as (Hkeep & Hsub & Hall).
  assert ((∀ m s, zscores z !! m = Some s → s ≠ now → zscores z1 !! m = Some s) ∧
          (∀ m s, zscores z1 !! m = Some s → zscores z !! m = Some s)) as [Hk1 Hs1].
  { destruct item as [m0|]; [|by subst]. destruct Et as [Hm0 ->]. split; intros m s.
    - intros Hm Hne. rewrite lookup_delete_ne; [done|]. intros ->. congruence.
    - by intros [_ ?]%lookup_delete_Some. }
  split; [eauto|]. split; [eauto|]. apply Forall_app. split.
  - destruct item as [text|]; cbn [mbind option_bind]; [|constructor]. destruct Et as [Hm0 _].
    destruct (decodeMessage text) as [[m|e]|] eqn:Ed; [|constructor..].
    destruct (hs !! Topic m) as [f|] eqn:Ef; [|constructor]. constructor; [|constructor]. by exists text.
  - eapply Forall_impl; [exact Hall|]. intros fm (text & Ht & ?). exists text. split; [by apply Hs1|done].
Qed.

End RedisLemmas.

(** ** Properties *)

(** C36. The in-memory queue loses and repeats nothing: along any run of pushes,
    registrations, starts, stops and polls, what was pushed is exactly what was
    started, dropped for want of a handler, or is still pending.  A poll starts,
    in push order, exactly the due messages that have a handler, each on the
    handler of its topic, and leaves exactly those not due. *)
Theorem delay_queue_delivery evs heap0 q tr :
  run evs (NewMemoryDelayQueue heap0) (mkTrace [] [] []) = Some (q, tr) →
  pushed tr ≡ₚ (started tr).*1.*2 ++ dropped tr ++ messages q ∧
  ∀ now q' tr', step (EPoll now) q tr = Some (q', tr') →
    started tr' = started tr ++
      ((λ fl, (fl, now)) <$> omap (λ l, if due q (UnixMilli now) l then (λ f, (f, l)) <$> handler_of q l else None)
                               (messages q)) ∧
    messages q' = filter (λ l, due q (UnixMilli now) l = false) (messages q).
Proof.
  intros Hrun. assert (ledger (NewMemoryDelayQueue heap0) (mkTrace [] [] [])) as H0 by (split; [done|constructor]).
  destruct (run_ledger _ _ _ _ _ H0 Hrun) as [Hp Hv]. split; [done|].
  intros now q' tr' Hs. cbn [step] in Hs. destruct (1 <=? consumers q)%nat; [|done]. unfold poll in Hs.
  pose proof (poll_scan_spec q (UnixMilli now) (messages q) Hv) as Hsc.
  destruct (poll_scan _ _ _ _) as [[st dr] rem]. simplify_eq. destruct Hsc as (_ & -> & _ & ->). done.
Qed.

Lemma delay_queue_delivery_witness :
  pushed (default (NewMemoryDelayQueue [], mkTrace [] [] [])
    (run sample_run (NewMemoryDelayQueue sample_heap) (mkTrace [] [] []))).2 ≡ₚ [0%nat] ++ [1%nat] ++ [].
Proof.
  exact (proj1 (delay_queue_delivery sample_run sample_heap
    (default (NewMemoryDelayQueue [], mkTrace [] [] []) (run sample_run (NewMemoryDelayQueue sample_heap) (mkTrace [] [] []))).1
    (default (NewMemoryDelayQueue [], mkTrace [] [] []) (run sample_run (NewMemoryDelayQueue sample_heap) (mkTrace [] [] []))).2
    eq_refl)).
Defined.

(** The deadline of a push: a message pushed with a positive delay is due at
    a poll once the delay has passed, and never more than a millisecond early. *)
Theorem push_deadline q now l m t :
  heap q !! l = Some m → 0 < Delay m → 0 ≤ now → now + Delay m < 2 ^ 62 → 0 ≤ t < 2 ^ 62 →
  (now + Delay m ≤ t → due (Push now l q) (UnixMilli t) l = true) ∧
  (due (Push now l q) (UnixMilli t) l = true → now + Delay m - t < Millisecond).
Proof.
  intros Hm Hd Hn Hb Ht. unfold due, Push. cbn [heap]. rewrite list_lookup_alter_eq, Hm. simpl.
  replace (0 <? Delay m) with true by lia. simpl. unfold UnixMilli.
  pose proof (Z.div_mod (now + Delay m) Millisecond ltac:(done)).
  pose proof (Z.div_mod t Millisecond ltac:(done)).
  pose proof (Z.mod_pos_bound (now + Delay m) Millisecond ltac:(done)).
  pose proof (Z.mod_pos_bound t Millisecond ltac:(done)).
  unfold Millisecond in *. rewrite !i64_id by word. lia.
Qed.

Lemma push_deadline_witness :
  due (Push (10 * Second) 0 (NewMemoryDelayQueue sample_heap)) (UnixMilli (15 * Second)) 0 = true.
Proof.
  apply (push_deadline (NewMemoryDelayQueue sample_heap) (10 * Second) 0
    (mkMessage "1" "mail" "hi" (5 * Second) 0) (15 * Second)).
  - reflexivity.
  - reflexivity.
  - vm_compute; discriminate.
  - vm_compute; reflexivity.
  - split; [vm_compute; discriminate|vm_compute; reflexivity].
  - vm_compute; discriminate.
Defined.

(** Round trip of the text encoding, for fields without a colon: identity,
    topic and body come back; the execution time comes back truncated to its
    second and, because it is written in local time and read as UTC, shifted by
    the zone's offset. *)
Theorem message_roundtrip Local m :
  no_colon (ID m) = true → no_colon (Topic m) = true → no_colon (Body m) = true →
  printable Local (ExecTime m) → Z.abs (ExecTime m) < 2 ^ 60 →
  Local `mod` Second = 0 → Z.abs Local ≤ Day →
  decodeMessage (encodeMessage Local m) =
    Some (Ok (mkMessage (ID m) (Topic m) (Body m) 0 (ExecTime m / 1000 * 1000 + Local / Millisecond))).
Proof.
  intros Hi Ht Hb Hp Hn Hl Hlb. unfold decodeMessage, encodeMessage, splitMessage.
  rewrite !split_scan_field by done. rewrite split_scan_last by (by apply formatInt64_nonempty).
  by rewrite parse_format_int64.
Qed.

Lemma message_roundtrip_witness :
  decodeMessage (encodeMessage (8 * Hour) (mkMessage "1" "mail" "hi" 0 1735689600123)) =
  Some (Ok (mkMessage "1" "mail" "hi" 0 (1735689600000 + 28800000))).
Proof.
  apply (message_roundtrip (8 * Hour) (mkMessage "1" "mail" "hi" 0 1735689600123)).
  - reflexivity.
  - reflexivity.
  - reflexivity.
  - split; vm_compute; discriminate.
  - reflexivity.
  - reflexivity.
  - vm_compute; discriminate.
Defined.

(** A colon in the body cuts the body short and loses the execution time. *)
Lemma colon_in_body :
  decodeMessage (encodeMessage 0 (mkMessage "1" "mail" "a:b" 0 1735689600000)) =
  Some (Ok (mkMessage "1" "mail" "a" 0 (-62135596800000))).
Proof. reflexivity. Qed.

(** The Redis queue's poll hands over only messages scored exactly at the
    millisecond of the poll, whatever the sorted set: every other member stays,
    the overdue ones included. *)
Theorem redis_takes_exact_millisecond `{SortedSet} Local now q :
  let '(handled, q') := redis_poll Local now q in
  (∀ text s, zscores (zs q) !! text = Some s → s ≠ UnixMilli now → zscores (zs q') !! text = Some s) ∧
  (∀ text s, zscores (zs q') !! text = Some s → zscores (zs q) !! text = Some s) ∧
  Forall (λ fm, ∃ text, zscores (zs q) !! text = Some (UnixMilli now) ∧
    decodeMessage text = Some (Ok fm.2) ∧ rhandlers q !! Topic fm.2 = Some fm.1) handled.
Proof.
  unfold redis_poll.
  destruct (take_loop (ZRANGEBYSCORE 0 (decimal (formatInt64 Local (UnixMilli now))) (pollSize q) (zs q))
    (UnixMilli now) (rhandlers q) (zs q)) as [handled z] eqn:E.
  apply (take_loop_spec _ _ _ _ _ _ E).
Qed.

(** So a message whose millisecond no poll hits is never delivered. *)
Lemma redis_overdue_stays :
  let q := mkRedis (H := map_sorted_set) ∅ {["mail" := 7%nat]} 100 in
  let q := (redis_Push 0 0 (mkMessage "1" "mail" "hi" (5 * Second) 0) q).2 in
  (redis_poll 0 (6 * Second) q).1 = [] ∧ length (redis_poll 0 (5 * Second) q).1 = 1%nat.
Proof. vm_compute. done. Qed.

End DelayQueue.
