(* ===== verification/QueueLife.v ===== *)
(** * The life of a delay queue's consumer (src/delayqueue/delayqueue.go)

    [Start] and [Stop] of both queues, and the goroutine between them.  A call
    is stepped where it holds no lock: [Start] marks the queue as running under
    the lock and makes its context after it; [Stop] cancels under the lock and then waits.
    Any number of calls are in flight, and the caller may cancel the context he gave. *)

From S2P Require Import Prelude.

Module QueueLife.

(** ** The state *)

(** Where a call stands: [Start] before its lock, before making the context, before
    counting the goroutine and before starting it; [Stop] before its lock and while it waits. *)
Inductive Call :=
| Start0 | Start1 | Start2 (ctx : nat) | Start3 (ctx : nat)
| Stop0 | Stop1
| Returned | Panicked.

(** [consume] waits for its ticker, polls (for the queue over Redis the handlers run in
    the poll), or has ended. *)
Inductive Consumer := Idle (ctx : nat) | Polling (ctx : nat) | Ended (ctx : nat).

(** [contexts] says of each context whether it is cancelled; [locked] is a lock that a
    panic has left held. *)
Record Queue := mkQueue {
  running : bool;
  cancel : option nat;
  locked : bool;
  contexts : list bool;
  wg : nat;
  consumers : list Consumer;
  handlers : gmap string nat
}.

Definition new_queue : Queue := mkQueue false None false [] 0 [] ∅.

Definition set_running (b : bool) (q : Queue) : Queue :=
  mkQueue b (cancel q) (locked q) (contexts q) (wg q) (consumers q) (handlers q).

Definition cancel_ctx (c : nat) (q : Queue) : Queue :=
  mkQueue (running q) (cancel q) (locked q) (<[c := true]> (contexts q)) (wg q) (consumers q) (handlers q).

Definition is_cancelled (c : nat) (q : Queue) : bool := default false (contexts q !! c).

Definition set_consumer (j : nat) (c : Consumer) (n : nat) (q : Queue) : Queue :=
  mkQueue (running q) (cancel q) (locked q) (contexts q) n (<[j := c]> (consumers q)) (handlers q).

(** ** One step of a call *)

(** [None]: the call waits.  A call of a [cancel] that is nil panics with the lock held. *)
Definition call_step (c : Call) (q : Queue) : option (Call * Queue) :=
  match c with
  | Start0 =>
      if locked q then None else if running q then Some (Returned, q) else Some (Start1, set_running true q)
  | Start1 =>
      let c := length (contexts q) in
      Some (Start2 c, mkQueue (running q) (Some c) (locked q) (contexts q ++ [false]) (wg q) (consumers q) (handlers q))
  | Start2 c => Some (Start3 c, mkQueue (running q) (cancel q) (locked q) (contexts q) (S (wg q)) (consumers q) (handlers q))
  | Start3 c =>
      Some (Returned, mkQueue (running q) (cancel q) (locked q) (contexts q) (wg q) (consumers q ++ [Idle c]) (handlers q))
  | Stop0 =>
      if locked q then None
      else if running q then
        match cancel q with
        | Some c => Some (Stop1, cancel_ctx c (set_running false q))
        | None => Some (Panicked, mkQueue false None true (contexts q) (wg q) (consumers q) (handlers q))
        end
      else Some (Returned, q)
  | Stop1 => match wg q with O => Some (Returned, q) | S _ => None end
  | Returned | Panicked => None
  end.

(** ** The consumer *)

Definition begin_poll (j : nat) (q : Queue) : option Queue :=
  match consumers q !! j with Some (Idle c) => Some (set_consumer j (Polling c) (wg q) q) | _ => None end.

Definition end_poll (j : nat) (q : Queue) : option Queue :=
  match consumers q !! j with Some (Polling c) => Some (set_consumer j (Idle c) (wg q) q) | _ => None end.

(** The context is over; the deferred [wg.Done] runs. *)
Definition consumer_ends (j : nat) (q : Queue) : option Queue :=
  match consumers q !! j with
  | Some (Idle c) => if is_cancelled c q then Some (set_consumer j (Ended c) (pred (wg q)) q) else None
  | _ => None
  end.

Definition RegisterHandler (topic : string) (h : nat) (q : Queue) : option Queue :=
  if locked q then None
  else Some (mkQueue (running q) (cancel q) (locked q) (contexts q) (wg q) (consumers q) (<[topic := h]> (handlers q))).

(** ** Schedules *)

Record World := mkWorld { queue : Queue; calls : list Call }.

Inductive Event :=
| EStart | EStop | ECall (i : nat)
| EBeginPoll (j : nat) | EEndPoll (j : nat) | EEnd (j : nat)
| ECancel (c : nat) | ERegister (topic : string) (h : nat).

Definition step (ev : Event) (w : World) : option (World * unit) :=
  let own (q : option Queue) := (λ q, (mkWorld q (calls w), tt)) <$> q in
  match ev with
  | EStart => Some (mkWorld (queue w) (calls w ++ [Start0]), tt)
  | EStop => Some (mkWorld (queue w) (calls w ++ [Stop0]), tt)
  | ECall i => c ← calls w !! i; '(c, q) ← call_step c (queue w); Some (mkWorld q (<[i := c]> (calls w)), tt)
  | EBeginPoll j => own (begin_poll j (queue w))
  | EEndPoll j => own (end_poll j (queue w))
  | EEnd j => own (consumer_ends j (queue w))
  | ECancel c => own (Some (cancel_ctx c (queue w)))
  | ERegister topic h => own (RegisterHandler topic h (queue w))
  end.

(** ** What the theorems speak of *)

Definition starting (c : Call) : bool := match c with Start1 | Start2 _ | Start3 _ => true | _ => false end.

(** No [Stop] takes the lock while a [Start] is between its lock and its goroutine. *)
Definition no_overlap (w : World) (ev : Event) : Prop :=
  match ev with
  | ECall i => calls w !! i = Some Stop0 → forallb (λ c, negb (starting c)) (calls w) = true
  | _ => True
  end.

(** The context of a consumer that has not ended. *)
Definition live_ctx (c : Consumer) : option nat := match c with Idle c | Polling c => Some c | Ended _ => None end.

(** The contexts of a [Start] under way that may yet become a consumer's, and of the consumers. *)
Definition pending_ctx (c : Call) : option nat := match c with Start2 c | Start3 c => Some c | _ => None end.

Definition holders (w : World) : list nat := omap live_ctx (consumers (queue w)) ++ omap pending_ctx (calls w).

Definition live (c : Consumer) : bool := match c with Ended _ => false | _ => true end.

Definition at_start1 (c : Call) : bool := match c with Start1 => true | _ => false end.

Definition at_start2or3 (c : Call) : bool := match c with Start2 _ | Start3 _ => true | _ => false end.

Definition at_start3 (c : Call) : bool := match c with Start3 _ => true | _ => false end.

(** A context in use is cancelled, unless it is the one [Stop] would cancel. *)
Definition held_ok (w : World) (c : nat) : Prop :=
  (c < length (contexts (queue w)))%nat ∧
  (is_cancelled c (queue w) = true ∨
   running (queue w) = true ∧ cancel (queue w) = Some c ∧ countb at_start1 (calls w) = 0).

Definition orderly (w : World) : Prop :=
  locked (queue w) = false ∧ Panicked ∉ calls w ∧ NoDup (holders w) ∧ Forall (held_ok w) (holders w) ∧
  countb at_start1 (calls w) + countb at_start2or3 (calls w) ≤ 1 ∧
  (running (queue w) = false → countb at_start1 (calls w) + countb at_start2or3 (calls w) = 0) ∧
  (running (queue w) = true → countb at_start1 (calls w) = 0 → is_Some (cancel (queue w))) ∧
  Z.of_nat (wg (queue w)) = countb live (consumers (queue w)) + countb at_start3 (calls w).

(** The consumers at work with a context that is not cancelled. *)
Definition at_work (w : World) : list nat := filter (λ c, is_cancelled c (queue w) = false) (omap live_ctx (consumers (queue w))).

Definition ended (c : Consumer) : bool := negb (live c).

(** ** Lemmas *)

Lemma new_orderly : orderly (mkWorld new_queue []).
Proof. split_and!; cbn; try done; [by intros []%elem_of_nil|constructor]. Qed.

(** A call that is added has neither a context nor a goroutine. *)
Lemma call_added w c :
  c = Start0 ∨ c = Stop0 → orderly w → orderly (mkWorld (queue w) (calls w ++ [c])).
Proof.
  intros Hc (Hl & Hp & Hnd & Hh & Hs & Hr & Hcc & Hwg).
  assert (holders (mkWorld (queue w) (calls w ++ [c])) = holders w) as E.
  { unfold holders. cbn [queue calls]. rewrite omap_app. destruct Hc as [-> | ->]; cbn; by rewrite app_nil_r. }
  assert (∀ p, p c = false → countb p (calls w ++ [c]) = countb p (calls w)) as Hcount.
  { intros p Hpc. rewrite countb_app. unfold countb at 2. simpl. rewrite Hpc. lia. }
  unfold orderly, held_ok. rewrite E. cbn [queue calls].
  rewrite !Hcount by by destruct Hc as [-> | ->]. split_and!; try done.
  rewrite elem_of_app, list_elem_of_singleton. destruct Hc as [-> | ->]; naive_solver.
Qed.

(** A call that moves without its context leaves the holders as they are. *)
Lemma holders_same w i c c' q' :
  calls w !! i = Some c → pending_ctx c' = pending_ctx c → consumers q' = consumers (queue w) →
  holders (mkWorld q' (<[i := c']> (calls w))) ≡ₚ holders w.
Proof. intros Hi Hp Hc. unfold holders. cbn [queue calls]. rewrite Hc. by rewrite (omap_insert_same pending_ctx _ i c c' Hi Hp). Qed.

Lemma held_cancelled w c : held_ok w c → running (queue w) = false ∨ 1 ≤ countb at_start1 (calls w) → is_cancelled c (queue w) = true.
Proof. intros [_ [Hc|(Hr & _ & H0)]] H; [done|]. destruct H as [H|H]; [congruence|lia]. Qed.

Ltac count_calls Hi := rewrite !(countb_insert _ _ _ _ _ Hi) in *; cbn [at_start1 at_start2or3 at_start3] in *.

Lemma start_orderly w i c c' q' :
  orderly w → calls w !! i = Some c → c = Start0 ∨ c = Start1 ∨ (∃ x, c = Start2 x ∨ c = Start3 x) →
  call_step c (queue w) = Some (c', q') → orderly (mkWorld q' (<[i := c']> (calls w))).
Proof.
  intros (Hl & Hp & Hnd & Hh & Hs & Hr & Hcc & Hwg) Hi Hc E. destruct w as [q cs]. cbn [queue calls] in *.
  pose proof (countb_nonneg at_start1 cs). pose proof (countb_nonneg at_start2or3 cs).
  destruct Hc as [-> |[-> |[x [-> | ->]]]]; cbn [call_step] in E.
  - rewrite Hl in E. destruct (running q) eqn:Er; simplify_eq.
    + pose proof (holders_same (mkWorld q' cs) i Start0 Returned q' Hi eq_refl eq_refl) as Hhs.
      unfold orderly, held_ok in *. rewrite Hhs. cbn [queue calls] in *. count_calls Hi. rewrite ?Z.add_0_r, ?Z.sub_0_r, ?Er in *.
      split_and!; try done; by apply not_in_insert.
    + pose proof (holders_same (mkWorld q cs) i Start0 Start1 (set_running true q) Hi eq_refl eq_refl) as Hhs.
      unfold orderly. rewrite Hhs. cbn [queue calls set_running running locked cancel wg consumers]. count_calls Hi.
      specialize (Hr eq_refl). split_and!; try done; try lia; [by apply not_in_insert|].
      eapply Forall_impl; [exact Hh|]. intros c Hc. split; [apply Hc|left]. apply (held_cancelled _ _ Hc). by left.
  - simplify_eq. pose proof (countb_pos at_start1 cs i Start1 Hi eq_refl).
    set (c := length (contexts q)). set (q' := mkQueue _ _ _ _ _ _ _).
    assert (holders (mkWorld q' (<[i := Start2 c]> cs)) ≡ₚ c :: holders (mkWorld q cs)) as Hhs.
    { unfold holders. cbn [queue calls]. rewrite (omap_insert_Permutation pending_ctx cs i Start1 (Start2 c) Hi).
      rewrite (omap_delete_Permutation pending_ctx cs i Start1 Hi). cbn. by rewrite Permutation_middle. }
    unfold orderly. rewrite Hhs. cbn [queue calls q' running locked cancel wg consumers]. count_calls Hi.
    split_and!; try done; try lia.
    + by apply not_in_insert.
    + apply NoDup_cons. split; [|done]. intros [Hc _]%(proj1 (Forall_forall _ _) Hh). cbn [queue] in Hc. unfold c in Hc. lia.
    + apply Forall_cons. split.
      * split; cbn [queue calls q' contexts running cancel]; [rewrite length_app; simpl; unfold c; lia|right]. count_calls Hi.
        split_and!; [|done|lia]. destruct (running q); [done|]. specialize (Hr eq_refl). lia.
      * eapply Forall_impl; [exact Hh|]. intros c0 Hc0. pose proof (held_cancelled _ _ Hc0 ltac:(by right)) as Hcan.
        destruct Hc0 as [Hlt _]. unfold is_cancelled in *. cbn [queue contexts] in *. unfold held_ok, is_cancelled. cbn [queue contexts q'].
        split; [rewrite length_app; lia|left]. by rewrite lookup_app_l.
    + intros Er. specialize (Hr Er). lia.
  - simplify_eq. set (q' := mkQueue _ _ _ _ _ _ _). pose proof (countb_pos at_start2or3 cs i (Start2 x) Hi eq_refl).
    pose proof (holders_same (mkWorld q cs) i (Start2 x) (Start3 x) q' Hi eq_refl eq_refl) as Hhs.
    unfold orderly, held_ok in *. rewrite Hhs. cbn [queue calls q' running locked cancel wg consumers contexts] in *. count_calls Hi.
    replace (countb at_start1 cs + 0 - 0) with (countb at_start1 cs) by lia. unfold is_cancelled in *. cbn [contexts] in *.
    split_and!; try done; try lia; [by apply not_in_insert|]. intros Er. specialize (Hr Er). lia.
  - simplify_eq. set (q' := mkQueue _ _ _ _ _ _ _). pose proof (countb_pos at_start2or3 cs i (Start3 x) Hi eq_refl).
    assert (holders (mkWorld q' (<[i := Returned]> cs)) ≡ₚ holders (mkWorld q cs)) as Hhs.
    { unfold holders. cbn [queue calls q' consumers]. rewrite (omap_insert_Permutation pending_ctx cs i (Start3 x) Returned Hi).
      rewrite (omap_delete_Permutation pending_ctx cs i (Start3 x) Hi), omap_app. cbn.
      rewrite <- app_assoc. done. }
    unfold orderly, held_ok in *. rewrite Hhs. cbn [queue calls q' running locked cancel wg consumers contexts] in *. count_calls Hi.
    replace (countb at_start1 cs + 0 - 0) with (countb at_start1 cs) by lia. unfold is_cancelled in *. cbn [contexts] in *.
    rewrite countb_app. change (countb live [Idle x]) with 1.
    split_and!; try done; try lia. by apply not_in_insert.
Qed.

Lemma forallb_not_starting cs : forallb (λ c, negb (starting c)) cs = true → countb at_start1 cs = 0 ∧ countb at_start2or3 cs = 0.
Proof.
  intros Hf. induction cs as [|c cs IH]; [done|]. simpl in Hf. apply andb_true_iff in Hf as [Hc [H1 H2]%IH].
  unfold countb in *. simpl. rewrite H1, H2. by destruct c.
Qed.

Lemma stop_orderly w i c c' q' :
  orderly w → calls w !! i = Some c → c = Stop0 ∨ c = Stop1 → no_overlap w (ECall i) →
  call_step c (queue w) = Some (c', q') → orderly (mkWorld q' (<[i := c']> (calls w))).
Proof.
  intros (Hl & Hp & Hnd & Hh & Hs & Hr & Hcc & Hwg) Hi Hc Hov E. destruct w as [q cs]. cbn [queue calls] in *.
  destruct Hc as [-> | ->]; cbn [call_step] in E.
  - cbn [no_overlap calls] in Hov. destruct (forallb_not_starting cs (Hov Hi)) as [H1 H2]. rewrite Hl in E.
    destruct (running q) eqn:Er; simplify_eq.
    + destruct (Hcc eq_refl H1) as [x Hx]. rewrite Hx in E. simplify_eq.
      set (q' := cancel_ctx x (set_running false q)).
      pose proof (holders_same (mkWorld q cs) i Stop0 Stop1 q' Hi eq_refl eq_refl) as Hhs.
      unfold orderly. rewrite Hhs. cbn [queue calls q' cancel_ctx set_running running locked cancel wg consumers]. count_calls Hi.
      split_and!; try done; try lia; [by apply not_in_insert|].
      eapply Forall_impl; [exact Hh|]. intros c [Hlt Hc]. unfold held_ok, is_cancelled in *.
      cbn [queue calls q' cancel_ctx set_running contexts cancel running] in *. rewrite length_insert. split; [done|left].
      destruct (decide (c = x)) as [->|Hne]; [by rewrite list_lookup_insert_eq|]. rewrite list_lookup_insert_ne by done.
      destruct Hc as [Hc|(_ & Hc & _)]; [done|]. congruence.
    + pose proof (holders_same (mkWorld q' cs) i Stop0 Returned q' Hi eq_refl eq_refl) as Hhs.
      unfold orderly, held_ok in *. rewrite Hhs. cbn [queue calls] in *. count_calls Hi. rewrite ?Z.add_0_r, ?Z.sub_0_r, ?Er in *.
      split_and!; try done; by apply not_in_insert.
  - destruct (wg q) eqn:Ewg; simplify_eq. pose proof (holders_same (mkWorld q' cs) i Stop1 Returned q' Hi eq_refl eq_refl) as Hhs.
    unfold orderly, held_ok in *. rewrite Hhs. cbn [queue calls] in *. count_calls Hi. rewrite ?Z.add_0_r, ?Z.sub_0_r, ?Ewg in *.
    split_and!; try done; by apply not_in_insert.
Qed.

(** The consumers: one that goes on keeps its context, one that ends gives it up. *)
Lemma consumer_orderly w j c c' n :
  orderly w → consumers (queue w) !! j = Some c → live c = true →
  live_ctx c' = live_ctx c ∧ n = wg (queue w) ∨ c' = Ended (default 0%nat (live_ctx c)) ∧ n = pred (wg (queue w)) →
  orderly (mkWorld (set_consumer j c' n (queue w)) (calls w)).
Proof.
  intros (Hl & Hp & Hnd & Hh & Hs & Hr & Hcc & Hwg) Hj Hlive Hcase. destruct w as [q cs]. cbn [queue calls] in *.
  assert (∃ x, live_ctx c = Some x) as [x Hx] by (destruct c; [by eexists|by eexists|done]).
  pose proof (countb_pos live _ j c Hj Hlive). pose proof (countb_nonneg at_start3 cs).
  assert (holders (mkWorld q cs) ≡ₚ x :: omap live_ctx (delete j (consumers q)) ++ omap pending_ctx cs) as Hold.
  { unfold holders. cbn [queue calls]. by rewrite (omap_delete_Permutation live_ctx _ j c Hj), Hx. }
  rewrite Hold in Hnd, Hh. unfold orderly.
  assert (holders (mkWorld (set_consumer j c' n q) cs) ≡ₚ
    option_list (live_ctx c') ++ omap live_ctx (delete j (consumers q)) ++ omap pending_ctx cs) as Hnew.
  { unfold holders. cbn [queue calls set_consumer consumers]. rewrite (omap_insert_Permutation live_ctx _ j c c' Hj). by rewrite <- app_assoc. }
  rewrite Hnew. unfold held_ok, is_cancelled in *. cbn [queue calls set_consumer running locked cancel wg consumers contexts] in *.
  rewrite (countb_insert live _ j c c' Hj), Hlive.
  destruct Hcase as [[Ec ->]|[-> ->]].
  - rewrite Ec, Hx. cbn [option_list app]. split_and!; try done. assert (live c' = true) as -> by (rewrite Hx in Ec; by destruct c'). lia.
  - cbn [live_ctx option_list app live]. apply NoDup_cons in Hnd as [_ Hnd]. apply Forall_cons in Hh as [_ Hh]. split_and!; try done. lia.
Qed.

Lemma step_orderly w ev w' r : orderly w → no_overlap w ev → step ev w = Some (w', r) → orderly w'.
Proof.
  intros Hok Hov E. unfold step in E. destruct ev as [| |i|j|j|j|c|topic h].
  - simplify_eq. by apply call_added; [left|].
  - simplify_eq. by apply call_added; [right|].
  - destruct (calls w !! i) as [c|] eqn:Hi; [|done]. cbn [mbind option_bind] in E.
    destruct (call_step c (queue w)) as [[c' q']|] eqn:Ec; [|done]. simplify_eq/=.
    destruct c as [| |x|x| | | |]; try done.
    1-4: eapply start_orderly; [exact Hok|exact Hi| |exact Ec]; by eauto.
    all: eapply stop_orderly; [exact Hok|exact Hi| |exact Hov|exact Ec]; by eauto.
  - unfold begin_poll in E. destruct (consumers (queue w) !! j) as [[c|c|c]|] eqn:Hj; simplify_eq/=.
    eapply consumer_orderly; eauto.
  - unfold end_poll in E. destruct (consumers (queue w) !! j) as [[c|c|c]|] eqn:Hj; simplify_eq/=.
    eapply consumer_orderly; eauto.
  - unfold consumer_ends in E. destruct (consumers (queue w) !! j) as [[c|c|c]|] eqn:Hj; try done.
    destruct (is_cancelled c (queue w)); simplify_eq/=. eapply consumer_orderly; eauto.
  - simplify_eq/=. destruct Hok as (Hl & Hp & Hnd & Hh & Hs & Hr & Hcc & Hwg). unfold orderly.
    change (holders (mkWorld (cancel_ctx c (queue w)) (calls w))) with (holders w). split_and!; try done.
    eapply Forall_impl; [exact Hh|]. intros x [Hlt Hx]. unfold held_ok, is_cancelled in *.
    cbn [queue calls cancel_ctx contexts running cancel] in *. rewrite length_insert. split; [done|].
    destruct Hx as [Hx|Hx]; [left|by right]. destruct (decide (x = c)) as [->|]; [by rewrite list_lookup_insert_eq|by rewrite list_lookup_insert_ne].
  - unfold RegisterHandler in E. destruct (locked (queue w)) eqn:El; [done|]. simplify_eq/=.
    unfold orderly in *. cbn [queue calls locked running cancel wg consumers]. rewrite El in Hok. exact Hok.
Qed.

(** Two consumers with a context that is not cancelled would hold one context twice. *)
Lemma at_work_one w : orderly w → (length (at_work w) ≤ 1)%nat ∧ (running (queue w) = false → at_work w = []).
Proof.
  intros (_ & _ & Hnd & Hh & _). unfold at_work.
  assert (∀ c, c ∈ filter (λ c, is_cancelled c (queue w) = false) (omap live_ctx (consumers (queue w))) →
    running (queue w) = true ∧ cancel (queue w) = Some c) as Hin.
  { intros c [Hc Hin]%list_elem_of_filter. rewrite Forall_forall in Hh.
    destruct (Hh c) as [_ [Hcan|(H1 & H2 & _)]]; [apply elem_of_app; by left|congruence|done]. }
  assert (NoDup (filter (λ c, is_cancelled c (queue w) = false) (omap live_ctx (consumers (queue w))))) as Hnd'.
  { apply NoDup_filter. unfold holders in Hnd. by apply NoDup_app in Hnd as (? & _). }
  destruct (filter _ _) as [|c [|c' l]] eqn:E; [by split; [simpl; lia|]|split; [simpl; lia|]|exfalso].
  - intros Er. destruct (Hin c) as [Er' _]; [by left|]. congruence.
  - destruct (Hin c) as [_ H1]; [by left|]. destruct (Hin c') as [_ H2]; [by right; left|].
    apply NoDup_cons in Hnd' as [Hn _]. apply Hn. assert (c = c') as -> by congruence. by left.
Qed.

(** ** Theorems *)



(** ** What the code does besides *)

(** A [Stop] between the two halves of the first [Start] calls a cancel that is nil: it panics
    with the lock held, and every later call waits for ever. *)
Example early_stop_panics :
  (λ x, (calls x.1, locked (queue x.1))) <$> run_steps step [EStart; ECall 0; EStop; ECall 1] (mkWorld new_queue []) = Some ([Start1; Panicked], true).
Proof. by vm_compute. Qed.

Lemma locked_for_ever q : locked q = true → call_step Start0 q = None ∧ call_step Stop0 q = None ∧ ∀ t h, RegisterHandler t h q = None.
Proof. intros Hl. unfold call_step, RegisterHandler. by rewrite Hl. Qed.

(** In a later [Start] it cancels the context of before: it returns, and a consumer goes
    on that no [Stop] stops; the next [Start] adds a second. *)
Example orphaned_consumer :
  let once := [EStart; ECall 0; ECall 0; ECall 0; ECall 0; EStop; ECall 1; EEnd 0; ECall 1] in
  let again := [EStart; ECall 2; EStop; ECall 3; ECall 3; ECall 2; ECall 2; ECall 2; EStart; ECall 4; ECall 4; ECall 4; ECall 4] in
  (λ x, (calls x.1, length (at_work x.1))) <$> run_steps step (once ++ again) (mkWorld new_queue []) =
    Some (replicate 5 Returned, 2%nat).
Proof. by vm_compute. Qed.

(** A context that the caller cancels ends the consumer, and the queue is still marked as
    running: a further [Start] does nothing. *)
Example cancelled_context_ends_queue :
  let evs := [EStart; ECall 0; ECall 0; ECall 0; ECall 0; ECancel 0; EEnd 0; EStart; ECall 1] in
  (λ x, (calls x.1, at_work x.1, running (queue x.1))) <$> run_steps step evs (mkWorld new_queue []) = Some ([Returned; Returned], [], true).
Proof. by vm_compute. Qed.

(** A handler over Redis, which runs in the poll, that stops its own queue waits for itself. *)
Lemma stop_from_handler_waits w j i c :
  orderly w → consumers (queue w) !! j = Some (Polling c) → calls w !! i = Some Stop1 → step (ECall i) w = None.
Proof.
  intros (_ & _ & _ & _ & _ & _ & _ & Hwg) Hj Hi. unfold step. rewrite Hi. cbn [mbind option_bind call_step].
  pose proof (countb_pos live _ j _ Hj eq_refl). pose proof (countb_nonneg at_start3 (calls w)). destruct (wg (queue w)); [lia|done].
Qed.

End QueueLife.
