(* ===== verification/MemoryMQ.v ===== *)
(** * In-memory message queue (src/mq/memory/memory.go, src/mq/mq.go)

    The broker as a transition system over a heap: message objects (producers
    write partition and offset through the caller's pointer), topic objects
    (which outlive their name), producers and consumers.  A consumer's polling
    goroutine is stepped one channel send at a time, so producers and closers
    interleave with it. *)

From S2P Require Import Prelude.

Module MemoryMQ.

Inductive Error :=
| ErrMQClosed | ErrProducerClosed | ErrConsumerClosed | ErrInvalidTopic | ErrInvalidPartition
| ErrContext.

Record Message := mkMessage {
  Topic : string;
  Key : list Z;
  Value : list Z;
  Partition : Z;
  Offset : Z
}.

Record ProducerResult := mkResult { res_Partition : Z; res_Offset : Z }.

Definition defaultPartitions : Z := 3.

Definition defaultChanSize : nat := 1000.

(** A topic: per partition, the pointers of its messages. *)
Record memTopic := mkTopic { name : string; partitions : list (list nat) }.

Definition newMemTopic (n : string) (k : Z) : memTopic := mkTopic n (replicate (Z.to_nat k) []).

Record MemoryProducer := mkProducer { p_topic : nat; p_closed : bool }.

(** Where the polling goroutine stands: waiting, delivering the copied messages
    of a partition, or gone (its channel closed). *)
Inductive Pc :=
| Idle
| Pulling (i : nat) (msgs : list nat)
| Gone.

Record MemoryConsumer := mkConsumer {
  c_topic : nat;
  groupID : string;
  offsets : list Z;
  msgCh : list nat;
  cancelled : bool;
  pc : Pc
}.

Record MemoryMQ := mkMQ {
  closed : bool;
  topics : gmap string nat;
  store : list Message;
  topic_objs : list memTopic;
  producers : list MemoryProducer;
  consumers : list MemoryConsumer
}.

Definition NewMQ (store : list Message) : MemoryMQ := mkMQ false ∅ store [] [] [].

(** ** Topics *)

(** [ctx.Err() != nil] is the flag [done]. *)
Definition CreateTopic (done : bool) (n : string) (k : Z) (m : MemoryMQ) : res Error unit * MemoryMQ :=
  if decide (n = "") then (Err ErrInvalidTopic, m)
  else if k <=? 0 then (Err ErrInvalidPartition, m)
  else if done then (Err ErrContext, m)
  else if closed m then (Err ErrMQClosed, m)
  else
    match topics m !! n with
    | Some _ => (Ok tt, m)
    | None =>
        (Ok tt, mkMQ (closed m) (<[n := length (topic_objs m)]> (topics m)) (store m)
                  (topic_objs m ++ [newMemTopic n k]) (producers m) (consumers m))
    end.

Definition DeleteTopics (done : bool) (ns : list string) (m : MemoryMQ) : res Error unit * MemoryMQ :=
  if done then (Err ErrContext, m)
  else if closed m then (Err ErrMQClosed, m)
  else (Ok tt, mkMQ (closed m) (foldl (λ t n, delete n t) (topics m) ns) (store m)
                 (topic_objs m) (producers m) (consumers m)).

Definition getOrCreateTopic (n : string) (m : MemoryMQ) : nat * MemoryMQ :=
  match topics m !! n with
  | Some t => (t, m)
  | None =>
      (length (topic_objs m),
       mkMQ (closed m) (<[n := length (topic_objs m)]> (topics m)) (store m)
         (topic_objs m ++ [newMemTopic n defaultPartitions]) (producers m) (consumers m))
  end.

(** The partition count of a topic object. *)
Definition width (m : MemoryMQ) (t : nat) : nat :=
  match topic_objs m !! t with Some tp => length (partitions tp) | None => 0 end.

Definition Producer (n : string) (m : MemoryMQ) : res Error nat * MemoryMQ :=
  if closed m then (Err ErrMQClosed, m)
  else
    let '(t, m) := getOrCreateTopic n m in
    (Ok (length (producers m)),
     mkMQ (closed m) (topics m) (store m) (topic_objs m)
       (producers m ++ [mkProducer t false]) (consumers m)).

Definition newMemoryConsumer (m : MemoryMQ) (t : nat) (group : string) : MemoryConsumer :=
  mkConsumer t group (replicate (width m t) 0) [] false Idle.

Definition Consumer (n group : string) (m : MemoryMQ) : res Error nat * MemoryMQ :=
  if closed m then (Err ErrMQClosed, m)
  else
    let '(t, m) := getOrCreateTopic n m in
    (Ok (length (consumers m)),
     mkMQ (closed m) (topics m) (store m) (topic_objs m) (producers m)
       (consumers m ++ [newMemoryConsumer m t group])).

Definition close_producer (p : MemoryProducer) : MemoryProducer := mkProducer (p_topic p) true.

Definition close_consumer (c : MemoryConsumer) : MemoryConsumer :=
  mkConsumer (c_topic c) (groupID c) (offsets c) (msgCh c) true (pc c).

Definition Close (m : MemoryMQ) : MemoryMQ :=
  if closed m then m
  else mkMQ true (topics m) (store m) (topic_objs m)
         (close_producer <$> producers m) (close_consumer <$> consumers m).

(** ** Routing and appending *)

(** The hash of a key, in the 64-bit arithmetic of [int]. *)
Definition key_hash (key : list Z) : Z := foldl (λ h b, i64 (i64 (h * 31) + b)) 0 key.

Definition selectPartition (key : list Z) (n : Z) : Z :=
  match key with
  | [] => 0
  | _ =>
      let h := key_hash key in
      let h := if h <? 0 then i64 (- h) else h in
      i32 (Z.rem h n)
  end.

(** [append]: the message's fields are set and its pointer stored; the result
    is what the caller reads back from the message. *)
Definition append_msg (l : nat) (partition : Z) (t : nat) (m : MemoryMQ)
    : option (ProducerResult * MemoryMQ) :=
  match topic_objs m !! t with
  | None => None
  | Some tp =>
      let partition :=
        if (Z.of_nat (length (partitions tp)) <=? partition) || (partition <? 0) then 0 else partition in
      match partitions tp !! Z.to_nat partition with
      | None => None
      | Some log =>
          let offset := Z.of_nat (length log) in
          let stamp msg := mkMessage (Topic msg) (Key msg) (Value msg) partition offset in
          Some (mkResult partition offset,
                mkMQ (closed m) (topics m) (alter stamp l (store m))
                  (<[t := mkTopic (name tp) (<[Z.to_nat partition := log ++ [l]]> (partitions tp))]> (topic_objs m))
                  (producers m) (consumers m))
      end
  end.

(** [None]: no such producer or message, or a topic without partitions. *)
Definition Send (done : bool) (p l : nat) (m : MemoryMQ) : option (res Error ProducerResult * MemoryMQ) :=
  pr ← producers m !! p;
  msg ← store m !! l;
  if p_closed pr then Some (Err ErrProducerClosed, m)
  else if done then Some (Err ErrContext, m)
  else
    let partition := selectPartition (Key msg) (Z.of_nat (width m (p_topic pr))) in
    '(r, m) ← append_msg l partition (p_topic pr) m;
    Some (Ok r, m).

Definition SendWithPartition (done : bool) (p l : nat) (partition : Z) (m : MemoryMQ)
    : option (res Error ProducerResult * MemoryMQ) :=
  pr ← producers m !! p;
  msg ← store m !! l;
  if p_closed pr then Some (Err ErrProducerClosed, m)
  else if done then Some (Err ErrContext, m)
  else
    '(r, m) ← append_msg l partition (p_topic pr) m;
    Some (Ok r, m).

Definition ProducerClose (p : nat) (m : MemoryMQ) : MemoryMQ :=
  mkMQ (closed m) (topics m) (store m) (topic_objs m) (alter close_producer p (producers m)) (consumers m).

(** ** Consuming *)

(** [get]: a copy of the log from an offset on. *)
Definition get (offset : Z) (log : list nat) : list nat :=
  if Z.of_nat (length log) <=? offset then [] else drop (Z.to_nat offset) log.

(** What partition [i] of the consumer's topic holds past its offset: the copy
    that [pullAll] takes on reaching the partition. *)
Definition copy_from (m : MemoryMQ) (c : MemoryConsumer) (i : nat) : list nat :=
  match topic_objs m !! c_topic c with
  | None => []
  | Some tp => get (default 0 (offsets c !! i)) (default [] (partitions tp !! i))
  end.

Definition set_pc (p : Pc) (c : MemoryConsumer) : MemoryConsumer :=
  mkConsumer (c_topic c) (groupID c) (offsets c) (msgCh c) (cancelled c) p.

(** A step of the polling goroutine: begin a round on a tick or notification;
    send the next copied message if the channel has room; go on to the next
    partition, or end the round; when cancelled, give up a blocked round, or
    leave the loop and close the channel. *)
Definition begin_round (m : MemoryMQ) (c : MemoryConsumer) : option MemoryConsumer :=
  match pc c with
  | Idle =>
      if decide (0 < width m (c_topic c))%nat
      then Some (set_pc (Pulling 0 (copy_from m c 0)) c) else Some c
  | _ => None
  end.

Definition send_next (c : MemoryConsumer) : option MemoryConsumer :=
  match pc c with
  | Pulling i (l :: ms) =>
      if (length (msgCh c) <? defaultChanSize)%nat
      then Some (mkConsumer (c_topic c) (groupID c) (alter (λ o, i64 (o + 1)) i (offsets c))
                   (msgCh c ++ [l]) (cancelled c) (Pulling i ms))
      else None
  | _ => None
  end.

Definition next_partition (m : MemoryMQ) (c : MemoryConsumer) : option MemoryConsumer :=
  match pc c with
  | Pulling i [] =>
      if decide (S i < width m (c_topic c))%nat
      then Some (set_pc (Pulling (S i) (copy_from m c (S i))) c) else Some (set_pc Idle c)
  | _ => None
  end.

Definition leave (c : MemoryConsumer) : option MemoryConsumer :=
  match pc c with
  | Idle => if cancelled c then Some (set_pc Gone c) else None
  | Pulling _ (_ :: _) => if cancelled c then Some (set_pc Idle c) else None
  | _ => None
  end.

(** [Consume] when it does not block: the next buffered message, or closed. *)
Definition Consume (c : MemoryConsumer) : option (res Error nat * MemoryConsumer) :=
  match msgCh c, pc c with
  | l :: ms, _ => Some (Ok l, mkConsumer (c_topic c) (groupID c) (offsets c) ms (cancelled c) (pc c))
  | [], Gone => Some (Err ErrConsumerClosed, c)
  | [], _ => None
  end.

(** [ConsumeChan] hands out the channel itself. *)
Definition ConsumeChan (done : bool) (c : MemoryConsumer) : res Error unit :=
  if cancelled c then Err ErrConsumerClosed else if done then Err ErrContext else Ok tt.

Definition PublishedCount (m : MemoryMQ) (n : string) (partition : nat) : Z :=
  match topics m !! n ≫= λ t, topic_objs m !! t with
  | None => 0
  | Some tp => match partitions tp !! partition with Some log => Z.of_nat (length log) | None => 0 end
  end.

(** ** The whole broker *)

Inductive Event :=
| ECreate (n : string) (k : Z)
| EDelete (ns : list string)
| EProducer (n : string)
| EConsumer (n group : string)
| ESend (p l : nat)
| ESendTo (p l : nat) (partition : Z)
| ECloseProducer (p : nat)
| ECloseConsumer (c : nat)
| ECloseAll
| EBegin (c : nat)
| EPush (c : nat)
| ENext (c : nat)
| ELeave (c : nat)
| EConsume (c : nat).

(** Replace a consumer. *)
Definition put_consumer (k : nat) (c : MemoryConsumer) (m : MemoryMQ) : MemoryMQ :=
  mkMQ (closed m) (topics m) (store m) (topic_objs m) (producers m) (<[k := c]> (consumers m)).

(** The broker, with what each consumer has been handed so far. *)
Record World := mkWorld { mq : MemoryMQ; received : list (list nat) }.

(** A step of one consumer. *)
Definition at_consumer (k : nat) (f : MemoryConsumer → option MemoryConsumer) (w : World) : option World :=
  c ← consumers (mq w) !! k; c ← f c; Some (mkWorld (put_consumer k c (mq w)) (received w)).

Definition step (ev : Event) (w : World) : option World :=
  let m := mq w in
  let with_mq m := mkWorld m (received w) in
  match ev with
  | ECreate n k => Some (with_mq (CreateTopic false n k m).2)
  | EDelete ns => Some (with_mq (DeleteTopics false ns m).2)
  | EProducer n => Some (with_mq (Producer n m).2)
  | EConsumer n g =>
      let '(r, m) := Consumer n g m in
      Some (mkWorld m (if is_ok r then received w ++ [[]] else received w))
  | ESend p l => '(_, m) ← Send false p l m; Some (with_mq m)
  | ESendTo p l i => '(_, m) ← SendWithPartition false p l i m; Some (with_mq m)
  | ECloseProducer p => Some (with_mq (ProducerClose p m))
  | ECloseConsumer k => at_consumer k (λ c, Some (close_consumer c)) w
  | ECloseAll => Some (with_mq (Close m))
  | EBegin k => at_consumer k (begin_round m) w
  | EPush k => at_consumer k send_next w
  | ENext k => at_consumer k (next_partition m) w
  | ELeave k => at_consumer k leave w
  | EConsume k =>
      c ← consumers m !! k;
      '(r, c) ← Consume c;
      Some (mkWorld (put_consumer k c m)
              (match r with Ok l => alter (λ ls, ls ++ [l]) k (received w) | Err _ => received w end))
  end.

Fixpoint run (evs : list Event) (w : World) : option World :=
  match evs with
  | [] => Some w
  | ev :: evs => step ev w ≫= run evs
  end.

Definition start (store : list Message) : World := mkWorld (NewMQ store) [].

(** ** Specification-side definitions *)

(** The log of partition [i] of topic object [t]. *)
Definition log_of (m : MemoryMQ) (t i : nat) : list nat :=
  match topic_objs m !! t with
  | Some tp => default [] (partitions tp !! i)
  | None => []
  end.

(** [l] is a merge of the lists of [parts]: each of its elements comes from one
    of them, and each is used up in order. *)
Inductive merge_of : list (list nat) → list nat → Prop :=
| merge_nil n : merge_of (replicate n []) []
| merge_snoc parts l i x p :
    merge_of parts l → parts !! i = Some p → merge_of (<[i := p ++ [x]]> parts) (l ++ [x]).

(** What consumer [c] must have sent on its channel: of every partition, the
    messages before its offset. *)
Definition consumed_parts (m : MemoryMQ) (c : MemoryConsumer) : list (list nat) :=
  imap (λ i o, take (Z.to_nat o) (log_of m (c_topic c) i)) (offsets c).

(** A consumer's bookkeeping against its topic. *)
Definition consumer_ok (m : MemoryMQ) (c : MemoryConsumer) (got : list nat) : Prop :=
  (c_topic c < length (topic_objs m))%nat ∧ length (offsets c) = width m (c_topic c) ∧
  (∀ i o, offsets c !! i = Some o → 0 ≤ o ≤ Z.of_nat (length (log_of m (c_topic c) i))) ∧
  merge_of (consumed_parts m c) (got ++ msgCh c) ∧
  match pc c with
  | Pulling i ms => ∃ o rest, offsets c !! i = Some o ∧
      drop (Z.to_nat o) (log_of m (c_topic c) i) = ms ++ rest
  | _ => True
  end.

(** Topics are never dropped or narrowed and logs only grow. *)
Definition extends (m m' : MemoryMQ) : Prop :=
  (length (topic_objs m) ≤ length (topic_objs m'))%nat ∧
  ∀ t, (t < length (topic_objs m))%nat →
    width m' t = width m t ∧ ∀ i, log_of m t i `prefix_of` log_of m' t i.

(** Logs short enough for an [int64] offset. *)
Definition logs_fit (m : MemoryMQ) : Prop :=
  ∀ t i, Z.of_nat (length (log_of m t i)) < 2 ^ 63 - 1.

Definition topics_ok (m : MemoryMQ) : Prop :=
  map_Forall (λ _ t, (t < length (topic_objs m))%nat) (topics m).

Definition world_ok (w : World) : Prop :=
  topics_ok (mq w) ∧ length (received w) = length (consumers (mq w)) ∧
  ∀ k c got, consumers (mq w) !! k = Some c → received w !! k = Some got → consumer_ok (mq w) c got.

Definition sample_store : list Message :=
  [mkMessage "t" [107] [1] 0 0; mkMessage "t" [107] [2] 0 0; mkMessage "t" [] [3] 0 0].

(** Two consumers of one group and a producer on a topic of three partitions. *)
Definition sample_run : list Event :=
  [EConsumer "t" "g"; EConsumer "t" "g"; EProducer "t"; ESend 0 0; EBegin 0; ESend 0 1; ESend 0 2;
   ENext 0; ENext 0; EPush 0; EConsume 0].

(** ** Growth *)

#[export] Instance extends_refl : Reflexive extends.
Proof. intros m. split; [lia|]. intros t _. by split. Qed.

#[export] Instance extends_trans : Transitive extends.
Proof.
  intros m1 m2 m3 [Hl1 H1] [Hl2 H2]. split; [lia|]. intros t Ht.
  destruct (H1 t Ht) as [W1 P1], (H2 t ltac:(lia)) as [W2 P2]. split; [congruence|].
  intros i. etrans; [apply P1|apply P2].
Qed.

Lemma extends_same m m' : topic_objs m' = topic_objs m → extends m m'.
Proof. intros E. unfold extends, width, log_of. rewrite E. split; [lia|]. by split. Qed.

Lemma extends_new m m' tp : topic_objs m' = topic_objs m ++ [tp] → extends m m'.
Proof.
  intros E. unfold extends, width, log_of. rewrite E, length_app. split; [lia|].
  intros t Ht. rewrite lookup_app_l by done. by split.
Qed.

Lemma getOrCreateTopic_extends n m :
  let '(t, m') := getOrCreateTopic n m in
  extends m m' ∧ consumers m' = consumers m.
Proof.
  unfold getOrCreateTopic. destruct (topics m !! n); [done|]. split; [|done]. by eapply extends_new.
Qed.

Lemma append_msg_extends l i t m r m' :
  append_msg l i t m = Some (r, m') → extends m m' ∧ consumers m' = consumers m ∧ topics m' = topics m.
Proof.
  unfold append_msg. destruct (topic_objs m !! t) as [tp|] eqn:Ht; [|done].
  set (i' := if _ || _ then 0 else i). destruct (partitions tp !! Z.to_nat i') as [log|] eqn:Hlog; [|done].
  intros [= _ <-]. split; [|done]. pose proof (lookup_lt_Some _ _ _ Ht) as Hlt.
  unfold extends, width, log_of. cbn [topic_objs]. rewrite length_insert. split; [lia|].
  intros t' Ht'. destruct (decide (t' = t)) as [->|Hne].
  - rewrite list_lookup_insert_eq, Ht by done. cbn [partitions]. rewrite length_insert. split; [done|].
    intros j. destruct (decide (j = Z.to_nat i')) as [->|Hj].
    + rewrite list_lookup_insert_eq, Hlog by (by eapply lookup_lt_Some). by eexists.
    + by rewrite list_lookup_insert_ne.
  - by rewrite list_lookup_insert_ne.
Qed.

(** Sending either leaves the broker alone or appends. *)
Lemma Send_cases done p l m r m' :
  Send done p l m = Some (r, m') → m' = m ∨ ∃ l i t r', append_msg l i t m = Some (r', m').
Proof.
  unfold Send. destruct (producers m !! p) as [pr|]; [|done]. destruct (store m !! l) as [msg|]; [|done].
  cbn [mbind option_bind]. destruct (p_closed pr); [intros; simplify_eq; auto|].
  destruct done; [intros; simplify_eq; auto|].
  destruct (append_msg _ _ _ _) as [[r1 m2]|] eqn:E; [|done]. intros; simplify_eq/=. eauto 6.
Qed.

Lemma SendWithPartition_cases done p l i m r m' :
  SendWithPartition done p l i m = Some (r, m') → m' = m ∨ ∃ l i t r', append_msg l i t m = Some (r', m').
Proof.
  unfold SendWithPartition. destruct (producers m !! p) as [pr|]; [|done].
  destruct (store m !! l) as [msg|]; [|done].
  cbn [mbind option_bind]. destruct (p_closed pr); [intros; simplify_eq; auto|].
  destruct done; [intros; simplify_eq; auto|].
  destruct (append_msg _ _ _ _) as [[r1 m2]|] eqn:E; [|done]. intros; simplify_eq/=. eauto 6.
Qed.

(** What an event does to the broker's topics and consumers: nothing to the
    consumers, a new one, all cancelled, or one stepped. *)
Inductive effect (w w' : World) : Prop :=
| effect_topics :
    consumers (mq w') = consumers (mq w) → received w' = received w → effect w w'
| effect_new m1 t g :
    extends (mq w) m1 → topic_objs (mq w') = topic_objs m1 → (t < length (topic_objs m1))%nat →
    consumers (mq w') = consumers (mq w) ++ [newMemoryConsumer m1 t g] →
    received w' = received w ++ [[]] → effect w w'
| effect_cancel :
    topic_objs (mq w') = topic_objs (mq w) →
    consumers (mq w') = close_consumer <$> consumers (mq w) → received w' = received w → effect w w'
| effect_consumer k c c' :
    topic_objs (mq w') = topic_objs (mq w) → consumers (mq w) !! k = Some c →
    consumers (mq w') = <[k := c']> (consumers (mq w)) →
    (received w' = received w ∧
       (c' = close_consumer c ∨ begin_round (mq w) c = Some c' ∨ send_next c = Some c' ∨
        next_partition (mq w) c = Some c' ∨ leave c = Some c' ∨ c' = c) ∨
     ∃ l, Consume c = Some (Ok l, c') ∧ received w' = alter (λ ls, ls ++ [l]) k (received w)) →
    effect w w'.

Lemma at_consumer_effect k f w w' :
  topics_ok (mq w) →
  (∀ c c', f c = Some c' → c' = close_consumer c ∨ begin_round (mq w) c = Some c' ∨ send_next c = Some c' ∨
     next_partition (mq w) c = Some c' ∨ leave c = Some c' ∨ c' = c) →
  at_consumer k f w = Some w' → topics_ok (mq w') ∧ extends (mq w) (mq w') ∧ effect w w'.
Proof.
  intros Ht Hf. unfold at_consumer. destruct (consumers (mq w) !! k) as [c|] eqn:Hc; [|done]. simpl.
  destruct (f c) as [c'|] eqn:E; [|done]. simpl. intros; simplify_eq. split; [done|]. split; [by apply extends_same|].
  eapply effect_consumer; [done|done|done|]. left. split; [done|]. by apply Hf.
Qed.

Lemma append_effect m' w :
  topics_ok (mq w) → (m' = mq w ∨ ∃ l i t r', append_msg l i t (mq w) = Some (r', m')) →
  topics_ok m' ∧ extends (mq w) m' ∧ effect w (mkWorld m' (received w)).
Proof.
  intros Ht [->|(l & i & t & r' & E)]; [split; [done|split; [done|by apply effect_topics]]|].
  pose proof (append_msg_extends _ _ _ _ _ _ E) as (Hext & Hc & Et).
  split; [|split; [done|by apply effect_topics]].
  unfold topics_ok in *. rewrite Et. intros n t' Hn. specialize (Ht n t' Hn). destruct Hext. simpl in *. lia.
Qed.

Lemma getOrCreateTopic_ok n m :
  topics_ok m → let '(t, m') := getOrCreateTopic n m in
  extends m m' ∧ consumers m' = consumers m ∧ topics_ok m' ∧ (t < length (topic_objs m'))%nat.
Proof.
  intros Ht. unfold getOrCreateTopic. destruct (topics m !! n) as [t|] eqn:E.
  { split_and!; try done. by apply (Ht n). }
  split; [by eapply extends_new|]. split; [done|]. cbn [topic_objs topics]. unfold topics_ok. cbn [topic_objs topics].
  rewrite length_app. simpl. split; [|lia]. apply map_Forall_insert_2; [lia|].
  intros k t Hk. specialize (Ht k t Hk). simpl in Ht. lia.
Qed.

(** Every event keeps the topics in order, only extends them, and has one of
    the four effects. *)
Lemma step_effect ev w w' :
  topics_ok (mq w) → step ev w = Some w' →
  topics_ok (mq w') ∧ extends (mq w) (mq w') ∧ effect w w'.
Proof.
  intros Ht Hs. destruct ev as [n k|ns|n|n g|p l|p l i|p|c| |c|c|c|c|c]; cbn [step] in Hs.
  - simplify_eq. unfold CreateTopic. repeat case_match; simpl; try (split; [done|split; [done|by apply effect_topics]]).
    split; [|split; [by eapply extends_new|by apply effect_topics]].
    unfold topics_ok. cbn [topic_objs topics]. rewrite length_app. simpl. apply map_Forall_insert_2; [lia|].
    intros k' t Hk. specialize (Ht k' t Hk). simpl in Ht. lia.
  - simplify_eq. unfold DeleteTopics. repeat case_match; simpl; try (split; [done|split; [done|by apply effect_topics]]).
    split; [|split; [by apply extends_same|by apply effect_topics]].
    unfold topics_ok in *. cbn [topic_objs topics]. clear -Ht.
    revert Ht. generalize (topics (mq w)). induction ns as [|n ns IH]; intros ts Ht; [done|].
    simpl. apply IH. by apply map_Forall_delete.
  - simplify_eq. unfold Producer. case_match; [split; [done|split; [done|by apply effect_topics]]|].
    pose proof (getOrCreateTopic_ok n (mq w) Ht) as Hg. destruct (getOrCreateTopic n (mq w)) as [t m1].
    destruct Hg as (Hg & Hc & Ht1 & _). simpl. split; [done|]. split; [etrans; [exact Hg|by apply extends_same]|].
    by apply effect_topics.
  - unfold Consumer in Hs. destruct (closed (mq w)).
    { simplify_eq. split; [done|]. split; [by apply extends_same|by apply effect_topics]. }
    pose proof (getOrCreateTopic_ok n (mq w) Ht) as Hg. destruct (getOrCreateTopic n (mq w)) as [t m1].
    destruct Hg as (Hg & Hc & Ht1 & Hlt). simplify_eq. split; [done|].
    split; [etrans; [exact Hg|by apply extends_same]|]. eapply (effect_new _ _ m1 t g); try done. simpl. by rewrite Hc.
  - destruct (Send false p l (mq w)) as [[r m1]|] eqn:E; [|done]. simpl in Hs. simplify_eq.
    by apply Send_cases, append_effect in E.
  - destruct (SendWithPartition false p l i (mq w)) as [[r m1]|] eqn:E; [|done]. simpl in Hs. simplify_eq.
    by apply SendWithPartition_cases, append_effect in E.
  - simplify_eq. split; [done|]. split; [by apply extends_same|by apply effect_topics].
  - apply (at_consumer_effect _ _ _ _ Ht) in Hs; [done|]. intros x x' [= <-]. auto.
  - simplify_eq. unfold Close. case_match; [split; [done|split; [done|by apply effect_topics]]|].
    split; [done|]. split; [by apply extends_same|by apply effect_cancel].
  - apply (at_consumer_effect _ _ _ _ Ht) in Hs; [done|]. auto.
  - apply (at_consumer_effect _ _ _ _ Ht) in Hs; [done|]. auto.
  - apply (at_consumer_effect _ _ _ _ Ht) in Hs; [done|]. auto 6.
  - apply (at_consumer_effect _ _ _ _ Ht) in Hs; [done|]. auto 7.
  - destruct (consumers (mq w) !! c) as [x|] eqn:Hx; [|done]. simpl in Hs.
    destruct (Consume x) as [[r y]|] eqn:E; [|done]. simpl in Hs. simplify_eq.
    split; [done|]. split; [by apply extends_same|]. eapply effect_consumer; [done|exact Hx|done|].
    destruct r as [l|e]; [right; by exists l|]. left. split; [done|].
    unfold Consume in E. destruct (msgCh x); [|done]. destruct (pc x); simplify_eq; auto 7.
Qed.

(** ** Consumers *)

Lemma imap_take_replicate n (f : nat → list nat) : imap (λ i o, take (Z.to_nat o) (f i)) (replicate n 0) = replicate n [].
Proof. revert f. induction n as [|n IH]; intros f; [done|]. simpl. f_equal. apply (IH (f ∘ S)). Qed.

Lemma new_consumer_ok m t g : (t < length (topic_objs m))%nat → consumer_ok m (newMemoryConsumer m t g) [].
Proof.
  intros Ht. unfold consumer_ok, newMemoryConsumer, consumed_parts. simpl. split; [done|].
  split; [by rewrite length_replicate|]. split.
  - intros i o [-> _]%lookup_replicate. lia.
  - split; [|done]. rewrite imap_take_replicate. constructor.
Qed.

Lemma consumer_ok_extends m m' c got : extends m m' → consumer_ok m c got → consumer_ok m' c got.
Proof.
  intros [Hl He] (Ht & Hw & Ho & Hm & Hpc). destruct (He _ Ht) as [Ew Hp].
  split; [lia|]. split; [by rewrite Ew|]. split; [|split].
  - intros i o Hi. destruct (Hp i) as [k Hk]. rewrite Hk, length_app. specialize (Ho i o Hi). lia.
  - replace (consumed_parts m' c) with (consumed_parts m c); [done|]. apply imap_ext.
    intros i o Hi. simpl. destruct (Hp i) as [k Hk]. rewrite Hk, take_app_le; [done|].
    specialize (Ho i o Hi). lia.
  - destruct (pc c) as [|i ms|]; try done. destruct Hpc as (o & rest & Hi & Hd).
    destruct (Hp i) as [k Hk]. exists o, (rest ++ k). split; [done|].
    rewrite Hk, drop_app_le, Hd, app_assoc; [done|]. specialize (Ho i o Hi). lia.
Qed.

Lemma copy_ok m c i :
  (i < width m (c_topic c))%nat → length (offsets c) = width m (c_topic c) →
  (∀ i o, offsets c !! i = Some o → 0 ≤ o ≤ Z.of_nat (length (log_of m (c_topic c) i))) →
  ∃ o rest, offsets c !! i = Some o ∧ drop (Z.to_nat o) (log_of m (c_topic c) i) = copy_from m c i ++ rest.
Proof.
  intros Hi Hw Ho. destruct (lookup_lt_is_Some_2 (offsets c) i) as [o Eo]; [lia|].
  exists o, []. split; [done|]. rewrite app_nil_r. unfold copy_from, log_of, get in *. rewrite Eo. simpl.
  specialize (Ho i o Eo). destruct (topic_objs m !! c_topic c) as [tp|]; [|by rewrite drop_nil].
  case_match; [|done]. apply drop_ge. lia.
Qed.

Lemma send_next_ok m c c' got :
  logs_fit m → consumer_ok m c got → send_next c = Some c' → consumer_ok m c' got.
Proof.
  intros Hfit (Ht & Hw & Ho & Hm & Hpc) Hs. unfold send_next in Hs.
  destruct (pc c) as [|i [|l ms]|]; try done. destruct (_ <? _)%nat; [|done]. simplify_eq.
  destruct Hpc as (o & rest & Hi & Hd). specialize (Hfit (c_topic c) i). pose proof (Ho i o Hi) as Hoi.
  assert (log_of m (c_topic c) i !! Z.to_nat o = Some l) as Hl.
  { rewrite <- (Nat.add_0_r (Z.to_nat o)), <- lookup_drop, Hd. done. }
  pose proof (lookup_lt_Some _ _ _ Hl) as Hlt.
  assert (i64 (o + 1) = o + 1) as E64 by (apply i64_id; word).
  split; [done|]. cbn [offsets c_topic msgCh pc]. split; [by rewrite length_alter|]. split; [|split].
  - intros j oj Hj. destruct (decide (j = i)) as [->|Hne].
    + rewrite list_lookup_alter_eq, Hi in Hj. simplify_eq/=. lia.
    + rewrite list_lookup_alter_ne in Hj by done. by apply Ho.
  - rewrite app_assoc.
    assert (consumed_parts m c !! i = Some (take (Z.to_nat o) (log_of m (c_topic c) i))) as Hp.
    { unfold consumed_parts. by rewrite list_lookup_imap, Hi. }
    pose proof (merge_snoc _ _ i l _ Hm Hp) as Hm'.
    match goal with |- merge_of ?parts _ => replace parts with
      (<[i := take (Z.to_nat o) (log_of m (c_topic c) i) ++ [l]]> (consumed_parts m c)); [done|] end.
    apply list_eq. intros j. unfold consumed_parts. cbn [offsets c_topic]. rewrite list_lookup_imap.
    destruct (decide (j = i)) as [->|Hne].
    + rewrite list_lookup_alter_eq, Hi, list_lookup_insert_eq by (by eapply lookup_lt_Some).
      simpl. rewrite E64. replace (Z.to_nat (o + 1)) with (S (Z.to_nat o)) by lia. by rewrite (take_S_r _ _ l).
    + by rewrite list_lookup_alter_ne, list_lookup_insert_ne, list_lookup_imap by done.
  - exists (i64 (o + 1)), rest. rewrite list_lookup_alter_eq, Hi. split; [done|]. rewrite E64.
    replace (Z.to_nat (o + 1)) with (Z.to_nat o + 1)%nat by lia. by rewrite <- drop_drop, Hd.
Qed.

Lemma set_pulling_ok m c i got :
  consumer_ok m c got → (i < width m (c_topic c))%nat → consumer_ok m (set_pc (Pulling i (copy_from m c i)) c) got.
Proof.
  intros (Ht & Hw & Ho & Hm & _) Hi.
  exact (conj Ht (conj Hw (conj Ho (conj Hm (copy_ok m c i Hi Hw Ho))))).
Qed.

(** Every step of a consumer keeps its books. *)
Lemma consumer_step_ok m c c' got :
  logs_fit m → consumer_ok m c got →
  (c' = close_consumer c ∨ begin_round m c = Some c' ∨ send_next c = Some c' ∨
   next_partition m c = Some c' ∨ leave c = Some c' ∨ c' = c) → consumer_ok m c' got.
Proof.
  intros Hfit Hok Hs. pose proof Hok as (Ht & Hw & Ho & Hm & Hpc).
  destruct Hs as [->|[Hs|[Hs|[Hs|[Hs| ->]]]]]; [done| | | | |done].
  - unfold begin_round in Hs. destruct (pc c) eqn:Ep; try done. case_decide; simplify_eq; [|done].
    by apply set_pulling_ok.
  - by eapply send_next_ok.
  - unfold next_partition in Hs. destruct (pc c) as [|i [|]|]; try done. case_decide; simplify_eq; [|done].
    by apply set_pulling_ok.
  - unfold leave in Hs. destruct (pc c) as [|i [|]|]; try done; destruct (cancelled c); by simplify_eq.
Qed.

Lemma Consume_ok m c c' got l :
  consumer_ok m c got → Consume c = Some (Ok l, c') → consumer_ok m c' (got ++ [l]).
Proof.
  intros (Ht & Hw & Ho & Hm & Hpc) Hc. unfold Consume in Hc.
  destruct (msgCh c) as [|l' ms] eqn:E; [by destruct (pc c)|]. simplify_eq.
  refine (conj Ht (conj Hw (conj Ho (conj _ Hpc)))). simpl. by rewrite <- app_assoc.
Qed.

Lemma step_ok ev w w' : world_ok w → step ev w = Some w' → logs_fit (mq w') → world_ok w'.
Proof.
  intros (Hts & Hlen & Hok) Hs Hfit. destruct (step_effect _ _ _ Hts Hs) as (Hts' & Hext & Heff).
  split; [done|]. destruct Heff as [Ec Er|m1 t g Hg Eo Hlt Ec Er|Eo Ec Er|k c c' Eo Hk Ec Hr].
  - rewrite Ec, Er. split; [done|]. intros k c got Hk Hgot. eapply consumer_ok_extends; [exact Hext|eauto].
  - rewrite Ec, Er, !length_app. split; [simpl; lia|]. intros k c got Hk Hgot.
    destruct (decide (k < length (consumers (mq w)))%nat) as [Hl|Hl].
    + rewrite lookup_app_l in Hk by lia. rewrite lookup_app_l in Hgot by lia. eapply consumer_ok_extends; [exact Hext|eauto].
    + rewrite lookup_app_r in Hk by lia. rewrite lookup_app_r in Hgot by lia. rewrite Hlen in Hgot.
      destruct (k - length (consumers (mq w)))%nat; [|done]. simplify_eq/=.
      eapply consumer_ok_extends; [by apply extends_same|]. by apply new_consumer_ok.
  - rewrite Ec, Er, length_fmap. split; [done|]. intros k c got Hk Hgot.
    rewrite list_lookup_fmap in Hk. destruct (consumers (mq w) !! k) as [c0|] eqn:E; [|done]. simplify_eq/=.
    specialize (Hok k c0 got E Hgot). apply (consumer_ok_extends _ _ _ _ Hext) in Hok. exact Hok.
  - rewrite Ec, length_insert. split.
    + destruct Hr as [[-> _]|(l & _ & ->)]; [done|by rewrite length_alter].
    + intros k' x got Hk' Hgot. destruct (decide (k' = k)) as [->|Hne].
      * rewrite list_lookup_insert_eq in Hk' by (by eapply lookup_lt_Some). simplify_eq.
        destruct Hr as [[Er Hst]|(l & Hcons & Er)]; rewrite Er in Hgot.
        -- specialize (Hok k c got Hk Hgot). eapply consumer_ok_extends; [by apply (extends_same (mq w))|].
           eapply consumer_step_ok; [|done|done]. unfold logs_fit, log_of in *. by rewrite <- Eo.
        -- rewrite list_lookup_alter_eq in Hgot. destruct (received w !! k) as [got0|] eqn:Eg; [|done].
           simplify_eq/=. eapply consumer_ok_extends; [by apply (extends_same (mq w))|].
           eapply Consume_ok; [exact (Hok k c got0 Hk Eg)|done].
      * rewrite list_lookup_insert_ne in Hk' by done.
        assert (received w !! k' = Some got) as Hgot'.
        { destruct Hr as [[Er _]|(l & _ & Er)]; rewrite Er in Hgot; [done|]. by rewrite list_lookup_alter_ne in Hgot. }
        eapply consumer_ok_extends; [exact Hext|eauto].
Qed.

Lemma logs_fit_extends m m' : topics_ok m → extends m m' → logs_fit m' → logs_fit m.
Proof.
  intros Ht [_ He] Hfit t i. destruct (decide (t < length (topic_objs m))%nat) as [Hlt|Hge].
  - destruct (He t Hlt) as [_ Hp]. specialize (Hp i). apply prefix_length in Hp. specialize (Hfit t i). lia.
  - unfold log_of. rewrite lookup_ge_None_2 by lia. simpl. lia.
Qed.

Lemma run_extends evs w w' :
  topics_ok (mq w) → run evs w = Some w' → topics_ok (mq w') ∧ extends (mq w) (mq w').
Proof.
  revert w. induction evs as [|ev evs IH]; intros w Ht Hrun; simpl in Hrun; [by simplify_eq|].
  destruct (step ev w) as [w1|] eqn:E; [|done]. destruct (step_effect _ _ _ Ht E) as (Ht1 & He1 & _).
  destruct (IH w1 Ht1 Hrun) as [Ht' He']. split; [done|]. by etrans.
Qed.

Lemma run_ok evs w w' : world_ok w → run evs w = Some w' → logs_fit (mq w') → world_ok w'.
Proof.
  revert w. induction evs as [|ev evs IH]; intros w Hok Hrun Hfit; simpl in Hrun; [by simplify_eq|].
  destruct (step ev w) as [w1|] eqn:E; [|done].
  destruct (step_effect _ _ _ (proj1 Hok) E) as (Ht1 & _ & _).
  destruct (run_extends _ _ _ Ht1 Hrun) as [Ht' He']. apply (IH w1); [|done|done].
  eapply step_ok; [done|done|]. by eapply logs_fit_extends.
Qed.

Lemma start_ok store : world_ok (start store).
Proof. split; [apply map_Forall_empty|]. split; [done|]. intros k c got Hk. done. Qed.

(** A merge holds exactly the elements of its parts. *)
Lemma merge_of_perm parts l : merge_of parts l → l ≡ₚ mjoin parts.
Proof.
  induction 1 as [n|parts l i x p Hm IH Hi].
  - by induction n.
  - rewrite IH. clear -Hi. revert i Hi. induction parts as [|q parts IH]; intros [|i] Hi; simplify_eq/=.
    + by rewrite <- !app_assoc, (Permutation_app_comm [x]).
    + by rewrite <- app_assoc, IH.
Qed.

Lemma key_hash_bound key : in_i64 (key_hash key).
Proof.
  unfold key_hash. assert (in_i64 0) as H0 by word. revert H0. generalize 0.
  induction key as [|b key IH]; intros h Hh; [done|]. simpl. apply IH, i64_range.
Qed.

(** ** Properties *)

(** C6. Every consumer gets every partition's log exactly once and in order:
    however producers, deletions, closings and polling goroutines interleave,
    what a consumer was handed followed by what its channel holds is a merge of,
    for each partition, exactly the messages before its offset, and the offset
    is within the log. *)
Theorem consumer_exactly_once evs msgs w k c got :
  run evs (start msgs) = Some w → logs_fit (mq w) →
  consumers (mq w) !! k = Some c → received w !! k = Some got →
  merge_of (consumed_parts (mq w) c) (got ++ msgCh c) ∧
  got ++ msgCh c ≡ₚ mjoin (consumed_parts (mq w) c) ∧
  ∀ i o, offsets c !! i = Some o → 0 ≤ o ≤ Z.of_nat (length (log_of (mq w) (c_topic c) i)).
Proof.
  intros Hrun Hfit Hk Hgot. destruct (run_ok _ _ _ (start_ok msgs) Hrun Hfit) as (_ & _ & Hok).
  destruct (Hok k c got Hk Hgot) as (_ & _ & Ho & Hm & _). split; [done|]. split; [|done].
  by apply merge_of_perm.
Qed.

Lemma consumer_exactly_once_witness :
  let w := default (start []) (run sample_run (start sample_store)) in
  [0%nat] ++ [] ≡ₚ mjoin (consumed_parts (mq w) (mkConsumer 0 "g" [0; 0; 1] [] false (Pulling 2 [1%nat]))).
Proof.
  apply (consumer_exactly_once sample_run sample_store (default (start []) (run sample_run (start sample_store))) 0
    (mkConsumer 0 "g" [0; 0; 1] [] false (Pulling 2 [1%nat])) [0%nat]).
  - vm_compute. reflexivity.
  - intros [|[|t]] [|[|[|i]]]; vm_compute; reflexivity.
  - vm_compute. reflexivity.
  - vm_compute. reflexivity.
Defined.

(** Sending: an open producer's message goes to the end of one partition of
    its topic, a function of the key alone and within range even where the
    64-bit hash overflows; the result names that partition and position, the
    message carries them, and no other log changes. *)
Theorem send_routes_by_key m p l pr msg tp :
  producers m !! p = Some pr → p_closed pr = false → store m !! l = Some msg →
  topic_objs m !! p_topic pr = Some tp → (0 < length (partitions tp))%nat →
  Z.of_nat (length (partitions tp)) < 2 ^ 31 →
  let n := Z.of_nat (length (partitions tp)) in
  let part := let s := selectPartition (Key msg) n in if s <? 0 then 0 else s in
  0 ≤ part < n ∧
  ∃ log m', partitions tp !! Z.to_nat part = Some log ∧
    Send false p l m = Some (Ok (mkResult part (Z.of_nat (length log))), m') ∧
    log_of m' (p_topic pr) (Z.to_nat part) = log ++ [l] ∧
    store m' !! l = Some (mkMessage (Topic msg) (Key msg) (Value msg) part (Z.of_nat (length log))) ∧
    ∀ t i, (t, i) ≠ (p_topic pr, Z.to_nat part) → log_of m' t i = log_of m t i.
Proof.
  intros Hp Hcl Hl Ht Hpos Hn n part.
  assert (selectPartition (Key msg) n < n ∧ 0 ≤ part < n) as [Hs Hpart].
  { unfold part, selectPartition. destruct (Key msg) as [|b key]; [simpl; lia|].
    set (h := if _ <? 0 then _ else _). pose proof (Z.rem_bound_abs h n ltac:(lia)) as Hr.
    rewrite i32_id by word. destruct (Z.ltb_spec (Z.rem h n) 0); lia. }
  destruct (lookup_lt_is_Some_2 (partitions tp) (Z.to_nat part)) as [log Hlog]; [lia|].
  split; [done|]. exists log. eexists. split; [done|].
  unfold Send. rewrite Hp. cbn [mbind option_bind]. rewrite Hl. cbn [mbind option_bind]. rewrite Hcl.
  unfold append_msg, width. rewrite Ht. fold n.
  assert ((if (n <=? selectPartition (Key msg) n) || (selectPartition (Key msg) n <? 0)
           then 0 else selectPartition (Key msg) n) = part) as ->.
  { unfold part. replace (n <=? selectPartition (Key msg) n) with false by lia. done. }
  rewrite Hlog. cbn [mbind option_bind]. split; [done|]. unfold log_of. cbn [topic_objs store].
  pose proof (lookup_lt_Some _ _ _ Ht). pose proof (lookup_lt_Some _ _ _ Hlog).
  rewrite list_lookup_insert_eq by done. cbn [partitions]. rewrite list_lookup_insert_eq by done.
  split; [done|]. split; [by rewrite list_lookup_alter_eq, Hl|].
  intros t i Hne. destruct (decide (t = p_topic pr)) as [->|Hnt].
  - rewrite list_lookup_insert_eq, Ht by done. cbn [partitions]. rewrite list_lookup_insert_ne; [done|].
    intros E. apply Hne. by rewrite E.
  - by rewrite list_lookup_insert_ne.
Qed.

Lemma send_routes_by_key_witness :
  let m := (Producer "t" (NewMQ sample_store)).2 in
  ∃ m', Send false 0 0 m = Some (Ok (mkResult 2 0), m').
Proof.
  destruct (send_routes_by_key (Producer "t" (NewMQ sample_store)).2 0 0 (mkProducer 0 false)
    (mkMessage "t" [107] [1] 0 0) (newMemTopic "t" 3)) as (_ & log & m' & H1 & H2 & _).
  - reflexivity.
  - reflexivity.
  - reflexivity.
  - reflexivity.
  - vm_compute. lia.
  - vm_compute. reflexivity.
  - exists m'. vm_compute in H1. injection H1 as <-. exact H2.
Defined.

(** Consumers of one group do not share the work: each is handed everything. *)
Lemma group_not_shared :
  received <$> run (sample_run ++ [EBegin 1; EPush 1; ENext 1; ENext 1; EPush 1; EConsume 1; EConsume 1]) (start sample_store) =
  Some [[0%nat]; [2%nat; 0%nat]].
Proof. vm_compute. reflexivity. Qed.

(** The log keeps the producer's pointer: sending one message object twice
    rewrites the offset of its first entry. *)
Lemma resend_aliases :
  (λ w, (log_of (mq w) 0 2, Offset <$> (store (mq w) !! 0%nat))) <$>
    run [EProducer "t"; ESend 0 0; ESend 0 0] (start sample_store) = Some ([0%nat; 0%nat], Some 1).
Proof. vm_compute. reflexivity. Qed.

End MemoryMQ.
