(* ===== verification/Broker.v ===== *)
(** * What the queues over outside brokers share (src/mq/mq.go,
      src/mq/rabbitmq/rabbitmq.go, src/mq/kafka/kafka.go)

    Both packages send commands to a broker's client library, close what they
    opened once, and hand messages to their consumers in the same way: a
    goroutine takes a message from the broker, pushes it into a channel of
    bounded capacity and then confirms it to the broker.  A command is a call of
    the library, whose outcome is any; a hand-over is stepped channel operation
    by channel operation. *)

From S2P Require Import Prelude.

Module Broker.

(** ** Messages and errors *)

Record Message := mkMessage {
  Topic : string;
  Key : string;
  Value : string;
  Headers : gmap string string;
  Timestamp : Z;
  Partition : Z;
  Offset : Z
}.

(** [ErrContext] is that of a context that is done, [ErrClient] one of the library. *)
Inductive Error :=
| ErrMQClosed | ErrProducerClosed | ErrConsumerClosed | ErrInvalidTopic | ErrInvalidPartition | ErrContext
| ErrClient (n : nat).

Definition ProducerResult : Type := Z * Z.

(** ** Commands *)

(** The library carries out a command and returns an error or an answer; what was
    asked and answered is kept in a log. *)
Class Library (Cmd Ans B : Type) := exec : Cmd → B → res nat Ans * B.

Record World (Cmd Ans B : Type) := mkWorld { broker : B; log : list (Cmd * res nat Ans) }.
Arguments mkWorld {Cmd Ans B}. Arguments broker {Cmd Ans B}. Arguments log {Cmd Ans B}.

Section Commands.
Context {Cmd Ans B : Type} `{Library Cmd Ans B}.
Abbreviation W := (World Cmd Ans B) (only parsing).

Definition cmd (c : Cmd) (w : W) : res nat Ans * W :=
  let '(r, b) := exec c (broker w) in (r, mkWorld b (log w ++ [(c, r)])).

(** A command whose answer is not looked at. *)
Definition cmd_ (c : Cmd) (w : W) : W := (cmd c w).2.

Definition lib_err (r : res nat Ans) : option Error := match r with Ok _ => None | Err e => Some (ErrClient e) end.

(** Runs [k] with the answer of a command, or [fail] with its error. *)
Definition try {A} (c : Cmd) (w : W) (fail : Error → W → A * W) (k : Ans → W → A * W) : A * W :=
  match cmd c w with (Ok h, w) => k h w | (Err e, w) => fail (ErrClient e) w end.

End Commands.

(** [closeOnce] and [closeErr]: not closed yet, or the error of the one time. *)
Abbreviation Once := (option (option Error)) (only parsing).

(** The first error of those that came. *)
Definition first_error (e e' : option Error) : option Error := match e with Some _ => e | None => e' end.

Definition is_closed (o : Once) : bool := match o with Some _ => true | None => false end.

(** Closes all, keeping the first error. *)
Fixpoint close_all {W A} (close : A → W → option Error * A * W) (l : list A) (err : option Error) (w : W)
    : option Error * list A * W :=
  match l with
  | [] => (err, [], w)
  | a :: l =>
      let '(e, a, w) := close a w in
      let '(err, l, w) := close_all close l (first_error err e) w in
      (err, a :: l, w)
  end.

(** ** What is open *)

Section Resources.
Context {Cmd Ans B R : Type} `{Library Cmd Ans B}.
Abbreviation W := (World Cmd Ans B) (only parsing).

(** What the commands open and close. *)
Context (opens : Cmd → Ans → option R) (closes : Cmd → option R).

Definition opened (w : W) : list R :=
  omap (λ cr, match cr.2 with Ok a => opens cr.1 a | Err _ => None end) (log w).

Definition closed (w : W) : list R := omap (λ cr, closes cr.1) (log w).

(** What was opened is what was closed and [l]. *)
Definition owes (w : W) (l : list R) : Prop := opened w ≡ₚ closed w ++ l.

Lemma owes_perm w l l' : l ≡ₚ l' → owes w l → owes w l'.
Proof. unfold owes. by intros ->. Qed.

(** A command that closes nothing. *)
Lemma cmd_owes c w l :
  closes c = None → owes w l →
  owes (cmd c w).2 (match (cmd c w).1 with Ok a => option_list (opens c a) | Err _ => [] end ++ l).
Proof.
  unfold owes, cmd, opened, closed. intros Hc Hw. destruct (exec c (broker w)) as [r b]. cbn [fst snd log].
  rewrite !omap_app, Hw. cbn. rewrite Hc. destruct r as [a|e]; [destruct (opens c a) as [h|]|]; cbn; rewrite ?app_nil_r; [|done..].
  rewrite <- (assoc_L (++)). apply Permutation_app_head. symmetry. apply Permutation_cons_append.
Qed.

Lemma cmd__owes c w l : closes c = None → (∀ a, opens c a = None) → owes w l → owes (cmd_ c w) l.
Proof.
  intros Hc Ho Hw. pose proof (cmd_owes c w l Hc Hw) as Hown. unfold cmd_. destruct (cmd c w) as [[a|e] w']; [|done].
  cbn [fst snd] in *. by rewrite Ho in Hown.
Qed.

Lemma close_owes c h w l : closes c = Some h → (∀ a, opens c a = None) → owes w (h :: l) → owes (cmd_ c w) l.
Proof.
  unfold owes, cmd_, cmd, opened, closed. intros Hc Ho Hw. destruct (exec c (broker w)) as [r b]. cbn [fst snd log].
  rewrite !omap_app, Hw. cbn. rewrite Hc. assert (match r with Ok a => opens c a | Err _ => None end = None) as -> by (by destruct r).
  cbn. rewrite app_nil_r, <- (assoc_L (++)). by apply Permutation_app_head.
Qed.

Lemma try_owes {A} (Q : A * W → Prop) c w l fail k :
  closes c = None → owes w l → (∀ e w', owes w' l → Q (fail (ErrClient e) w')) →
  (∀ a w', owes w' (option_list (opens c a) ++ l) → Q (k a w')) → Q (try c w fail k).
Proof.
  intros Hc Hw Hf Hk. pose proof (cmd_owes c w l Hc Hw) as Hown. unfold try. destruct (cmd c w) as [[a|e] w']; auto.
Qed.

Lemma close_all_owes {A} (close : A → W → option Error * A * W) (held : A → option R) xs err w l :
  (∀ a w l, owes w (option_list (held a) ++ l) → let '(_, a', w') := close a w in owes w' l ∧ held a' = None) →
  owes w (omap held xs ++ l) → let '(_, xs', w') := close_all close xs err w in owes w' l ∧ omap held xs' = [].
Proof.
  intros Hclose. revert err w. induction xs as [|a xs IH]; intros err w Hw; [done|]. cbn [close_all].
  assert (owes w (option_list (held a) ++ omap held xs ++ l)) as H1 by (cbn in Hw; by destruct (held a)).
  apply Hclose in H1. destruct (close a w) as [[e a'] w1]. destruct H1 as [H1 Ha].
  apply (IH (first_error err e)) in H1. destruct (close_all close xs _ w1) as [[err' xs'] w2]. destruct H1 as [H1 Hx].
  split; [done|]. cbn. by rewrite Ha.
Qed.

(** A world that owes what is in use, and nothing once its owner is closed. *)
Definition sound (w : W) (o : Once) (use : list R) : Prop := owes w use ∧ (is_closed o = true → use = []).

Lemma sound_less w o use w' use' l : sound w o use → use ≡ₚ l ++ use' → owes w' use' → sound w' o use'.
Proof.
  intros [_ Hc] Hp Hw'. split; [done|]. intros Ho. rewrite (Hc Ho) in Hp.
  apply Permutation_nil in Hp. by apply app_eq_nil in Hp as [_ ?].
Qed.

Lemma sound_more w use w' use' l : sound w None use → use' ≡ₚ l ++ use → owes w' (l ++ use) → sound w' None use'.
Proof. intros [Hw Hc] Hp Hw'. split; [by eapply owes_perm|done]. Qed.

End Resources.

(** ** Handing messages over *)

Section Handover.
Context {M : Type}.

(** A goroutine waits for a message, is about to push one, to confirm it, to give
    it back to the broker, or is over. *)
Inductive Phase := Waiting | Pushing (m : M) | Confirming (m : M) | Rejecting (m : M) | Ended.

Record Relay := mkRelay {
  msgCh : list M;
  workers : list Phase;
  cancelled : bool;
  ch_closed : bool
}.

Inductive Event :=
| EStart
| ETake (i : nat) (m : M)
| EPush (i : nat)
| EConfirm (i : nat)
| EAbandon (i : nat)
| EReject (i : nat)
| EStop (i : nat)
| EReceive
| ECancel
| ECloseCh.

Inductive Reply :=
| Quiet
| Took (i : nat) (m : M)
| Pushed (i : nat) (m : M)
| Confirmed (i : nat) (m : M)
| Dropped (i : nat) (m : M)
| Rejected (i : nat) (m : M)
| Received (m : M).

(** [msgChanSize]; and whether a message that cannot be pushed any more is given
    back to the broker or just left. *)
Context (msgChanSize : nat) (gives_back : bool).

Definition goto (i : nat) (p : Phase) (s : Relay) : Relay :=
  mkRelay (msgCh s) (<[i := p]> (workers s)) (cancelled s) (ch_closed s).

Definition step (e : Event) (s : Relay) : option (Relay * Reply) :=
  match e with
  | EStart => if ch_closed s then None else Some (mkRelay (msgCh s) (workers s ++ [Waiting]) (cancelled s) (ch_closed s), Quiet)
  | ETake i m => match workers s !! i with Some Waiting => Some (goto i (Pushing m) s, Took i m) | _ => None end
  | EPush i =>
      match workers s !! i with
      | Some (Pushing m) =>
          if (length (msgCh s) <? msgChanSize)%nat then
            Some (mkRelay (msgCh s ++ [m]) (<[i := Confirming m]> (workers s)) (cancelled s) (ch_closed s), Pushed i m)
          else None
      | _ => None
      end
  | EConfirm i => match workers s !! i with Some (Confirming m) => Some (goto i Waiting s, Confirmed i m) | _ => None end
  | EAbandon i =>
      match workers s !! i with
      | Some (Pushing m) =>
          if cancelled s then
            Some (if gives_back then (goto i (Rejecting m) s, Quiet) else (goto i Ended s, Dropped i m))
          else None
      | _ => None
      end
  | EReject i => match workers s !! i with Some (Rejecting m) => Some (goto i Ended s, Rejected i m) | _ => None end
  | EStop i => match workers s !! i with Some Waiting => Some (goto i Ended s, Quiet) | _ => None end
  | EReceive =>
      match msgCh s with
      | m :: q => Some (mkRelay q (workers s) (cancelled s) (ch_closed s), Received m)
      | [] => None
      end
  | ECancel => Some (mkRelay (msgCh s) (workers s) true (ch_closed s), Quiet)
  | ECloseCh =>
      if forallb (λ p, match p with Ended => true | _ => false end) (workers s) then
        Some (mkRelay (msgCh s) (workers s) (cancelled s) true, Quiet)
      else None
  end.

(** [Consume]: where the context is done and a message is there, [pick] is what the
    select takes; [None] is a call that waits. *)
Definition Consume (ctx_done pick : bool) (s : Relay) : option (res Error M * Relay) :=
  if ctx_done && pick then Some (Err ErrContext, s)
  else
    match msgCh s with
    | m :: q => Some (Ok m, mkRelay q (workers s) (cancelled s) (ch_closed s))
    | [] =>
        if ch_closed s then Some (Err ErrConsumerClosed, s) else if ctx_done then Some (Err ErrContext, s) else None
    end.

(** [ConsumeChan] returns the channel itself. *)
Definition ConsumeChan (ctx_done : bool) (s : Relay) : option Error :=
  if cancelled s then Some ErrConsumerClosed else if ctx_done then Some ErrContext else None.

(** ** What the theorems speak of *)

Definition took (i : nat) (rs : list Reply) : list M :=
  omap (λ r, match r with Took j m => if decide (j = i) then Some m else None | _ => None end) rs.

Definition pushed_by (i : nat) (rs : list Reply) : list M :=
  omap (λ r, match r with Pushed j m => if decide (j = i) then Some m else None | _ => None end) rs.

Definition confirmed (i : nat) (rs : list Reply) : list M :=
  omap (λ r, match r with Confirmed j m => if decide (j = i) then Some m else None | _ => None end) rs.

(** Given back or left. *)
Definition returned (i : nat) (rs : list Reply) : list M :=
  omap (λ r, match r with Dropped j m | Rejected j m => if decide (j = i) then Some m else None | _ => None end) rs.

Definition pushed (rs : list Reply) : list M := omap (λ r, match r with Pushed _ m => Some m | _ => None end) rs.

Definition received (rs : list Reply) : list M := omap (λ r, match r with Received m => Some m | _ => None end) rs.

(** What a goroutine holds: taken and not pushed; pushed and not confirmed. *)
Definition in_hand (p : option Phase) : list M := match p with Some (Pushing m | Rejecting m) => [m] | _ => [] end.

Definition unconfirmed (p : option Phase) : list M := match p with Some (Confirming m) => [m] | _ => [] end.

(** One goroutine's history. *)
Definition worker_ok (i : nat) (s : Relay) (rs : list Reply) : Prop :=
  took i rs = pushed_by i rs ++ in_hand (workers s !! i) ++ returned i rs ∧
  pushed_by i rs = confirmed i rs ++ unconfirmed (workers s !! i) ∧
  (workers s !! i ≠ Some Ended → returned i rs = []).

Definition accounts (s : Relay) (rs : list Reply) : Prop :=
  (∀ i, worker_ok i s rs) ∧ pushed rs = received rs ++ msgCh s ∧ (length (msgCh s) ≤ msgChanSize)%nat ∧
  (ch_closed s = true → Forall (λ p, p = Ended) (workers s)).

(** ** Lemmas *)

(** A reply that is no worker's, and a phase that stays. *)
Lemma worker_ok_same i s s' rs r :
  worker_ok i s rs →
  workers s' !! i = workers s !! i ∨ workers s !! i = None ∧ workers s' !! i = Some Waiting →
  match r with Took j _ | Pushed j _ | Confirmed j _ | Dropped j _ | Rejected j _ => j ≠ i | _ => True end →
  worker_ok i s' (rs ++ [r]).
Proof.
  intros (Ht & Hp & Hr) Hw Hj.
  assert (∀ f : Reply → option M, f r = None → omap f (rs ++ [r]) = omap f rs) as Hskip.
  { intros f Hf. rewrite omap_app. cbn [omap list_omap]. by rewrite Hf, app_nil_r. }
  unfold worker_ok, took, pushed_by, confirmed, returned in *.
  rewrite !Hskip by (destruct r; try done; by rewrite decide_False). clear Hskip.
  destruct Hw as [->|[Hn ->]]; [done|]. rewrite Hn in *. by split_and!; [| |intros _; apply Hr].
Qed.

(** The worker whose step it is. *)
Lemma worker_ok_goto i p p' s s' rs r :
  worker_ok i s rs → workers s !! i = Some p → workers s' = <[i := p']> (workers s) →
  match p, p', r with
  | Waiting, Pushing m, Took j m' => j = i ∧ m' = m
  | Pushing m, Confirming m', Pushed j m'' => j = i ∧ m' = m ∧ m'' = m
  | Confirming m, Waiting, Confirmed j m' => j = i ∧ m' = m
  | Pushing m, Rejecting m', Quiet => m' = m
  | Pushing m, Ended, Dropped j m' | Rejecting m, Ended, Rejected j m' => j = i ∧ m' = m
  | Waiting, Ended, Quiet => True
  | _, _, _ => False
  end →
  worker_ok i s' (rs ++ [r]).
Proof.
  intros (Ht & Hp & Hr) Hi Hw Hm. unfold worker_ok. rewrite Hw, list_lookup_insert_eq by (by eapply lookup_lt_Some).
  rewrite Hi in Ht, Hp, Hr. unfold took, pushed_by, confirmed, returned in *. rewrite !omap_app.
  destruct p, p', r; try done; destruct_and?; simplify_eq; cbn [omap list_omap in_hand unconfirmed] in *;
    rewrite Hr in Ht |- * by congruence; rewrite ?decide_True by done; rewrite ?app_nil_r in *; cbn [app] in *;
    rewrite ?app_nil_r in *; (split_and!; congruence).
Qed.

(** The step of one worker, seen by all. *)
Lemma workers_ok_goto i p p' s s' rs r :
  (∀ j, worker_ok j s rs) → workers s !! i = Some p → workers s' = <[i := p']> (workers s) →
  match p, p', r with
  | Waiting, Pushing m, Took j m' => j = i ∧ m' = m
  | Pushing m, Confirming m', Pushed j m'' => j = i ∧ m' = m ∧ m'' = m
  | Confirming m, Waiting, Confirmed j m' => j = i ∧ m' = m
  | Pushing m, Rejecting m', Quiet => m' = m
  | Pushing m, Ended, Dropped j m' | Rejecting m, Ended, Rejected j m' => j = i ∧ m' = m
  | Waiting, Ended, Quiet => True
  | _, _, _ => False
  end →
  ∀ j, worker_ok j s' (rs ++ [r]).
Proof.
  intros Hw Hi Hs' Hm j. destruct (decide (j = i)) as [->|Hne]; [by eapply worker_ok_goto|].
  apply (worker_ok_same j s); [done|left; rewrite Hs'; by apply list_lookup_insert_ne|].
  destruct p, p', r; try done; destruct_and?; congruence.
Qed.

(** A channel that is closed stays out of reach: no worker is left that could push. *)
Lemma ended_goto i p s : (ch_closed s = true → Forall (λ p, p = Ended) (workers s)) →
  workers s !! i = Some p → p ≠ Ended → ch_closed s = false.
Proof.
  intros Hcl Hi Hp. destruct (ch_closed s); [|done]. by apply Forall_lookup_1 with (i := i) (x := p) in Hcl.
Qed.

Lemma accounts_step e s s' rs r : accounts s rs → step e s = Some (s', r) → accounts s' (rs ++ [r]).
Proof.
  intros (Hw & Hq & Hlen & Hcl) Hs. unfold accounts, pushed, received in *. rewrite !omap_app, Hq.
  destruct e as [|i m|i|i|i|i|i| | |]; cbn [step] in Hs.
  1: { destruct (ch_closed s) eqn:Ec; simplify_eq/=. rewrite !app_nil_r. split_and!; [|done|done|done].
       intros j. apply (worker_ok_same j s); [done| |done]. cbn [workers].
       destruct (lt_eq_lt_dec j (length (workers s))) as [[Hj| ->]|Hj].
       - left. by apply lookup_app_l.
       - right. split; [by apply lookup_ge_None|]. by rewrite lookup_app_r, Nat.sub_diag.
       - left. rewrite lookup_app_r by lia. rewrite (lookup_ge_None_2 (workers s)) by lia.
         apply lookup_ge_None. simpl. lia. }
  all: try (destruct (workers s !! i) as [p|] eqn:Hi; [|done]; destruct p; try done).
  all: repeat case_match; simplify_eq/=.
  all: try (apply (ended_goto i _ s Hcl) in Hi as Ec; [|done]).
  all: rewrite ?app_nil_r; split_and!; try done; try (by rewrite Ec).
  all: try (eapply workers_ok_goto; by try apply Hi).
  all: try (intros j; apply (worker_ok_same j s); [done|by left|done]).
  all: rewrite ?length_app; simpl in *; try lia; try (by rewrite <- app_assoc).
  { apply Nat.ltb_lt in H. lia. }
  intros _. apply Forall_forall. intros p Hp. eapply forallb_elem in Hp; [|done]. by destruct p.
Qed.

Lemma accounts_quiet s rs : accounts s rs → accounts s (rs ++ [Quiet]).
Proof.
  intros (Hw & Hq & Hlen & Hcl). unfold accounts, pushed, received in *. rewrite !omap_app, Hq. simplify_eq/=.
  rewrite !app_nil_r. split_and!; [|done..]. intros i. apply (worker_ok_same i s); [done|by left|done].
Qed.

(** A run from workers that wait and an empty channel. *)
Lemma run_accounts n evs s rs :
  run_steps step evs (mkRelay [] (replicate n Waiting) false false) = Some (s, rs) → accounts s rs.
Proof.
  apply (run_steps_history step accounts); [by apply accounts_step|]. split_and!; [|done|simpl; lia|done].
  intros i. unfold worker_ok. cbn [workers]. destruct (replicate n Waiting !! i) as [p|] eqn:Hi; [|done].
  by apply lookup_replicate in Hi as [-> _].
Qed.

(** A worker that waits for room is not alone: it can push, or a consumer can read. *)
Lemma push_or_receive i m s :
  workers s !! i = Some (Pushing m) → (0 < msgChanSize)%nat → is_Some (step (EPush i) s) ∨ is_Some (step EReceive s).
Proof.
  intros Hi Hpos. cbn [step]. rewrite Hi. destruct (msgCh s) as [|m' q]; [|by right].
  left. cbn [length]. by replace (0 <? msgChanSize)%nat with true by (symmetry; by apply Nat.ltb_lt).
Qed.

End Handover.
Arguments Phase : clear implicits. Arguments Relay : clear implicits. Arguments Event : clear implicits.
Arguments Reply : clear implicits.

End Broker.
