(* ===== verification/Rabbit.v ===== *)
(** * The queue over RabbitMQ (src/mq/rabbitmq/rabbitmq.go)

    Producers and consumers each open a connection of their own.  The commands
    sent to the client library are logged; the consumer's goroutine is one worker
    of [Broker]'s hand-over, which acknowledges what it has pushed and gives back
    what it cannot push. *)

From S2P Require Import Prelude Broker.

Module Rabbit.
Import Broker.

(** ** Commands of the client library; handles are numbers *)

Inductive Cmd :=
| CDial (url : string)
| COpen (conn : nat)
| CCloseConn (conn : nat)
| CCloseChannel (channel : nat)
| CExchangeDeclare (channel : nat) (name kind : string) (durable : bool)
| CQueueDeclare (channel : nat) (name : string) (durable : bool)
| CQueueBind (channel : nat) (queue key exchange : string)
| CQueueDelete (channel : nat) (name : string)
| CConsume (channel : nat) (queue : string)
| CPublish (channel : nat) (exchange key messageId body : string) (headers : gmap string string).

(** ** State *)

Record RabbitMQConfig := mkConfig { URL : string; Exchange : string; ExchangeType : string; Durable : bool }.

Record RabbitMQProducer := mkProducer { p_conn : nat; p_channel : nat; p_topic : string; p_closed : Once }.

(** The consumer's goroutine is worker 0 of its relay, and has ended with it. *)
Record RabbitMQConsumer := mkConsumer {
  c_conn : nat;
  c_channel : nat;
  c_topic : string;
  c_closed : Once;
  relay : Relay Message
}.

(** The queue, with the producers and consumers it has made. *)
Record RabbitMQ := mkMQ {
  cfg : RabbitMQConfig;
  mq_closed : Once;
  producers : list RabbitMQProducer;
  consumers : list RabbitMQConsumer
}.

Definition msgChanSize : nat := 1000.

Definition NewMQ (c : RabbitMQConfig) : RabbitMQ :=
  mkMQ (mkConfig (URL c) (Exchange c) (if decide (ExchangeType c = "") then "direct" else ExchangeType c) (Durable c))
    None [] [].

(** *** What arrives *)

(** A header's value: text, bytes, or what marshalling another value gives. *)
Inductive HeaderValue := HString (s : string) | HBytes (s : string) | HOther (json : option string).

Record Delivery := mkDelivery {
  MessageId : string;
  Body : string;
  d_Timestamp : Time;
  d_Headers : gmap string HeaderValue
}.

Definition header_text (v : HeaderValue) : option string :=
  match v with HString s | HBytes s => Some s | HOther json => json end.

Definition message_of (topic : string) (d : Delivery) : Message :=
  mkMessage topic (MessageId d) (Body d) (omap header_text (d_Headers d)) (UnixMilli (d_Timestamp d)) 0 0.

(** ** Operations *)

Section Operations.
Context {B : Type} `{Library Cmd nat B}.
Abbreviation W := (World Cmd nat B) (only parsing).

(** A connection and a channel for the time of [body], closed after it. *)
Definition with_channel (q : RabbitMQ) (body : nat → W → option Error * W) (w : W) : option Error * W :=
  try (CDial (URL (cfg q))) w (λ e w, (Some e, w)) (λ conn w,
    try (COpen conn) w (λ e w, (Some e, cmd_ (CCloseConn conn) w)) (λ ch w,
      let '(r, w) := body ch w in (r, cmd_ (CCloseConn conn) (cmd_ (CCloseChannel ch) w)))).

Definition CreateTopic (q : RabbitMQ) (ctx_done : bool) (topic : string) (w : W) : option Error * W :=
  if ctx_done then (Some ErrContext, w)
  else if is_closed (mq_closed q) then (Some ErrMQClosed, w)
  else with_channel q (λ ch w, let '(r, w) := cmd (CQueueDeclare ch topic (Durable (cfg q))) w in (lib_err r, w)) w.

Fixpoint delete_all (ch : nat) (topics : list string) (w : W) : option Error * W :=
  match topics with
  | [] => (None, w)
  | t :: topics => try (CQueueDelete ch t) w (λ e w, (Some e, w)) (λ _ w, delete_all ch topics w)
  end.

Definition DeleteTopics (q : RabbitMQ) (ctx_done : bool) (topics : list string) (w : W) : option Error * W :=
  if ctx_done then (Some ErrContext, w)
  else if is_closed (mq_closed q) then (Some ErrMQClosed, w)
  else with_channel q (λ ch w, delete_all ch topics w) w.

Definition declareExchange (c : RabbitMQConfig) (ch : nat) (w : W) : option Error * W :=
  if decide (Exchange c = "") then (None, w)
  else let '(r, w) := cmd (CExchangeDeclare ch (Exchange c) (ExchangeType c) (Durable c)) w in (lib_err r, w).

(** A connection, channel and exchange for [k]; the connection is closed on every
    error on the way. *)
Definition connect {A} (c : RabbitMQConfig) (w : W) (k : nat → nat → W → res Error A * W) : res Error A * W :=
  try (CDial (URL c)) w (λ e w, (Err e, w)) (λ conn w,
    try (COpen conn) w (λ e w, (Err e, cmd_ (CCloseConn conn) w)) (λ ch w,
      match declareExchange c ch w with
      | (Some e, w) => (Err e, cmd_ (CCloseConn conn) w)
      | (None, w) => k conn ch w
      end)).

Definition Producer (q : RabbitMQ) (topic : string) (w : W) : res Error RabbitMQProducer * W :=
  if is_closed (mq_closed q) then (Err ErrMQClosed, w)
  else connect (cfg q) w (λ conn ch w, (Ok (mkProducer conn ch topic None), w)).

Definition queue_of (topic groupID : string) : string := if decide (groupID = "") then topic else groupID.

Definition bind (c : RabbitMQConfig) (ch : nat) (queue topic : string) (w : W) : option Error * W :=
  if decide (Exchange c = "") then (None, w)
  else let '(r, w) := cmd (CQueueBind ch queue topic (Exchange c)) w in (lib_err r, w).

Definition Consumer (q : RabbitMQ) (topic groupID : string) (w : W) : res Error RabbitMQConsumer * W :=
  if is_closed (mq_closed q) then (Err ErrMQClosed, w)
  else connect (cfg q) w (λ conn ch w,
    let queue := queue_of topic groupID in
    let failed e w := (Err e, cmd_ (CCloseConn conn) w) in
    try (CQueueDeclare ch queue (Durable (cfg q))) w failed (λ _ w,
      match bind (cfg q) ch queue topic w with
      | (Some e, w) => failed e w
      | (None, w) =>
          try (CConsume ch queue) w failed (λ _ w, (Ok (mkConsumer conn ch topic None (mkRelay [] [Waiting] false false)), w))
      end)).

Definition publish (q : RabbitMQ) (p : RabbitMQProducer) (ctx_done : bool) (msg : Message) (w : W)
    : res Error ProducerResult * W :=
  if is_closed (p_closed p) then (Err ErrProducerClosed, w)
  else if ctx_done then (Err ErrContext, w)
  else
    let topic := if decide (Topic msg = "") then p_topic p else Topic msg in
    try (CPublish (p_channel p) (Exchange (cfg q)) topic (Key msg) (Value msg) (Headers msg)) w
      (λ e w, (Err e, w)) (λ _ w, (Ok (0, 0), w)).

Definition producer_Close (p : RabbitMQProducer) (w : W) : option Error * RabbitMQProducer * W :=
  match p_closed p with
  | Some e => (e, p, w)
  | None =>
      let w := cmd_ (CCloseChannel (p_channel p)) w in
      let '(r, w) := cmd (CCloseConn (p_conn p)) w in
      (lib_err r, mkProducer (p_conn p) (p_channel p) (p_topic p) (Some (lib_err r)), w)
  end.

(** The goroutine is told to stop before the channel and connection go. *)
Definition consumer_Close (c : RabbitMQConsumer) (w : W) : option Error * RabbitMQConsumer * W :=
  match c_closed c with
  | Some e => (e, c, w)
  | None =>
      let s := relay c in
      let w := cmd_ (CCloseChannel (c_channel c)) w in
      let '(r, w) := cmd (CCloseConn (c_conn c)) w in
      (lib_err r,
       mkConsumer (c_conn c) (c_channel c) (c_topic c) (Some (lib_err r)) (mkRelay (msgCh s) (workers s) true (ch_closed s)), w)
  end.

Definition Close (q : RabbitMQ) (w : W) : option Error * RabbitMQ * W :=
  match mq_closed q with
  | Some e => (e, q, w)
  | None =>
      let '(err, ps, w) := close_all producer_Close (producers q) None w in
      let '(err, cs, w) := close_all consumer_Close (consumers q) err w in
      (err, mkMQ (cfg q) (Some err) ps cs, w)
  end.

(** ** Calls on a queue *)

Inductive Call :=
| NewTopic (ctx_done : bool) (topic : string)
| DropTopics (ctx_done : bool) (topics : list string)
| NewProducer (topic : string)
| NewConsumer (topic groupID : string)
| Send (i : nat) (ctx_done : bool) (msg : Message)
| CloseProducer (i : nat)
| CloseConsumer (i : nat)
| CloseMQ
| Deliver (i : nat) (e : Event Message).

(** The goroutine and the readers of a consumer are the events of its relay; its
    one worker is there from the start. *)
Definition relay_step (e : Event Message) (s : Relay Message) : option (Relay Message * Reply Message) :=
  match e with EStart => None | _ => step msgChanSize true e s end.

Definition with_relay (c : RabbitMQConsumer) (s : Relay Message) : RabbitMQConsumer :=
  mkConsumer (c_conn c) (c_channel c) (c_topic c) (c_closed c) s.

Definition call (a : Call) (s : RabbitMQ * W) : option ((RabbitMQ * W) * option Error) :=
  let '(q, w) := s in
  match a with
  | NewTopic ctx_done topic => let '(e, w) := CreateTopic q ctx_done topic w in Some ((q, w), e)
  | DropTopics ctx_done topics => let '(e, w) := DeleteTopics q ctx_done topics w in Some ((q, w), e)
  | NewProducer topic =>
      Some (match Producer q topic w with
            | (Ok p, w) => ((mkMQ (cfg q) (mq_closed q) (producers q ++ [p]) (consumers q), w), None)
            | (Err e, w) => ((q, w), Some e)
            end)
  | NewConsumer topic groupID =>
      Some (match Consumer q topic groupID w with
            | (Ok c, w) => ((mkMQ (cfg q) (mq_closed q) (producers q) (consumers q ++ [c]), w), None)
            | (Err e, w) => ((q, w), Some e)
            end)
  | Send i ctx_done msg =>
      p ← producers q !! i;
      Some (match publish q p ctx_done msg w with (Ok _, w) => ((q, w), None) | (Err e, w) => ((q, w), Some e) end)
  | CloseProducer i =>
      p ← producers q !! i;
      let '(e, p, w) := producer_Close p w in
      Some ((mkMQ (cfg q) (mq_closed q) (<[i := p]> (producers q)) (consumers q), w), e)
  | CloseConsumer i =>
      c ← consumers q !! i;
      let '(e, c, w) := consumer_Close c w in
      Some ((mkMQ (cfg q) (mq_closed q) (producers q) (<[i := c]> (consumers q)), w), e)
  | CloseMQ => let '(e, q, w) := Close q w in Some ((q, w), e)
  | Deliver i e =>
      c ← consumers q !! i;
      '(s, _) ← match e with ECancel => None | _ => relay_step e (relay c) end;
      Some ((mkMQ (cfg q) (mq_closed q) (producers q) (<[i := with_relay c s]> (consumers q)), w), None)
  end.

End Operations.

(** ** What the theorems speak of *)

Definition opens (c : Cmd) (h : nat) : option nat := match c with CDial _ => Some h | _ => None end.

Definition closes (c : Cmd) : option nat := match c with CCloseConn h => Some h | _ => None end.

Definition producer_conn (p : RabbitMQProducer) : option nat := if is_closed (p_closed p) then None else Some (p_conn p).

Definition consumer_conn (c : RabbitMQConsumer) : option nat := if is_closed (c_closed c) then None else Some (c_conn c).

(** The connections of producers and consumers that are not closed. *)
Definition in_use (q : RabbitMQ) : list nat := omap producer_conn (producers q) ++ omap consumer_conn (consumers q).

(** Deliveries given back to the broker. *)
Definition given_back (rs : list (Reply Message)) : list Message :=
  omap (λ r, match r with Rejected _ m => Some m | _ => None end) rs.

(** A broker whose commands fail from a certain one on. *)
#[local] Instance sample_library : Library Cmd nat nat := λ _ n, match n with O => (Err 7%nat, O) | S n => (Ok n, n) end.

(** ** Lemmas *)

Section Connections.
Context {B : Type} `{Library Cmd nat B}.
Implicit Types (w : World Cmd nat B) (q : RabbitMQ).

Abbreviation owes := (owes opens closes).

Lemma CloseConn_owes h w l : owes w (h :: l) → owes (cmd_ (CCloseConn h) w) l.
Proof. by apply (close_owes opens closes _ h). Qed.

Lemma with_channel_owes q body w l :
  (∀ ch w l, owes w l → owes (body ch w).2 l) → owes w l → owes (with_channel q body w).2 l.
Proof.
  intros Hbody Hw. apply (try_owes opens closes (λ r, owes r.2 l) _ _ l); [done|done|done|]. intros conn w1 H1.
  apply (try_owes opens closes (λ r, owes r.2 l) _ _ (conn :: l)); [done|done|by intros e w2 H2; apply CloseConn_owes|]. intros ch w2 H2.
  pose proof (Hbody ch w2 _ H2) as H3. destruct (body ch w2) as [r w3]. cbn [snd]. by apply CloseConn_owes, (cmd__owes opens closes).
Qed.

(** What a connection is made for ends with it open, or with an error and it
    closed. *)
Lemma connect_owes {A} (Q : res Error A * World Cmd nat B → Prop) c w l k :
  owes w l → (∀ e w', owes w' l → Q (Err e, w')) →
  (∀ conn ch w', owes w' (conn :: l) → Q (k conn ch w')) → Q (connect c w k).
Proof.
  intros Hw Hf Hk. apply (try_owes opens closes Q _ _ l); [done|done|auto|]. intros conn w1 H1.
  apply (try_owes opens closes Q _ _ (conn :: l)); [done|done|by intros; apply Hf, CloseConn_owes|]. intros ch w2 H2.
  unfold declareExchange. case_decide; [by apply Hk|]. 
  pose proof (cmd_owes opens closes (CExchangeDeclare ch (Exchange c) (ExchangeType c) (Durable c)) w2 (conn :: l) eq_refl H2) as H3.
  destruct (cmd _ w2) as [[h|e] w3]; cbn [lib_err]; [by apply Hk|by apply Hf, CloseConn_owes].
Qed.

Lemma delete_all_owes ch topics w l : owes w l → owes (delete_all ch topics w).2 l.
Proof.
  revert w. induction topics as [|t topics IH]; intros w Hw; [done|]. cbn [delete_all].
  apply (try_owes opens closes (λ r, owes r.2 l) _ _ l); auto.
Qed.

Lemma Producer_owes q topic w l :
  owes w l → let '(r, w') := Producer q topic w in
  owes w' (match r with Ok p => option_list (producer_conn p) | Err _ => [] end ++ l).
Proof.
  intros Hw. unfold Producer. destruct (is_closed (mq_closed q)); [done|].
  apply (connect_owes (λ '(r, w'), owes w' (match r with Ok p => option_list (producer_conn p) | Err _ => [] end ++ l)) _ _ l);
    [done|done|]. by intros conn ch w' H1.
Qed.

Lemma Consumer_owes q topic groupID w l :
  owes w l → let '(r, w') := Consumer q topic groupID w in
  owes w' (match r with Ok c => option_list (consumer_conn c) | Err _ => [] end ++ l).
Proof.
  intros Hw. unfold Consumer. destruct (is_closed (mq_closed q)); [done|].
  set (Q := λ rw : res Error RabbitMQConsumer * World Cmd nat B,
    let '(r, w') := rw in owes w' (match r with Ok c => option_list (consumer_conn c) | Err _ => [] end ++ l)).
  apply (connect_owes Q _ _ l); [done|done|]. intros conn ch w1 H1.
  assert (∀ e w', owes w' (conn :: l) → Q (Err e, cmd_ (CCloseConn conn) w')) as Hf by (intros; by apply CloseConn_owes).
  apply (try_owes opens closes Q _ _ (conn :: l)); [done|done|auto|]. intros h w2 H2. cbn [opens option_list app] in H2.
  assert (owes (bind (cfg q) ch (queue_of topic groupID) topic w2).2 (conn :: l)) as H3.
  { unfold bind. case_decide; [done|].
    pose proof (cmd_owes opens closes (CQueueBind ch (queue_of topic groupID) topic (Exchange (cfg q))) w2 (conn :: l) eq_refl H2) as H3.
    destruct (cmd _ w2) as [[h'|e] w3]; done. }
  destruct (bind _ _ _ _ w2) as [[e|] w3]; cbn [snd] in H3; [by apply Hf|].
  apply (try_owes opens closes Q _ _ (conn :: l)); [done|done|auto|]. by intros h' w4 H4.
Qed.

Lemma publish_owes q p ctx_done msg w l : owes w l → owes (publish q p ctx_done msg w).2 l.
Proof.
  intros Hw. unfold publish. destruct (is_closed _), ctx_done; try done.
  by apply (try_owes opens closes (λ r, owes r.2 l) _ _ l).
Qed.

Lemma producer_Close_owes p w l :
  owes w (option_list (producer_conn p) ++ l) → let '(_, p', w') := producer_Close p w in
  owes w' l ∧ producer_conn p' = None.
Proof.
  unfold producer_Close, producer_conn. intros Hw. destruct (p_closed p) as [e|] eqn:E; cbn [is_closed] in Hw; [by rewrite E|].
  cbn [option_list app] in Hw. apply (cmd__owes opens closes (CCloseChannel (p_channel p)) w) in Hw; [|done..]. apply CloseConn_owes in Hw.
  unfold cmd_ in Hw at 1. by destruct (cmd (CCloseConn (p_conn p)) _) as [r w'].
Qed.

Lemma consumer_Close_owes c w l :
  owes w (option_list (consumer_conn c) ++ l) → let '(_, c', w') := consumer_Close c w in
  owes w' l ∧ consumer_conn c' = None.
Proof.
  unfold consumer_Close, consumer_conn. intros Hw. destruct (c_closed c) as [e|] eqn:E; cbn [is_closed] in Hw; [by rewrite E|].
  cbn [option_list app] in Hw. apply (cmd__owes opens closes (CCloseChannel (c_channel c)) w) in Hw; [|done..]. apply CloseConn_owes in Hw.
  unfold cmd_ in Hw at 1. by destruct (cmd (CCloseConn (c_conn c)) _) as [r w'].
Qed.

Lemma Close_owes q w : owes w (in_use q) → let '(_, q', w') := Close q w in owes w' (in_use q') ∧
  (mq_closed q = None → in_use q' = []).
Proof.
  intros Hw. unfold Close. destruct (mq_closed q) as [e|]; [done|].
  pose proof (close_all_owes opens closes producer_Close producer_conn (producers q) None w _ producer_Close_owes Hw) as H1.
  destruct (close_all producer_Close _ None w) as [[err ps] w1]. destruct H1 as [H1 Hp].
  rewrite <- (app_nil_r (omap consumer_conn _)) in H1.
  pose proof (close_all_owes opens closes consumer_Close consumer_conn (consumers q) err w1 _ consumer_Close_owes H1) as H2.
  destruct (close_all consumer_Close _ err w1) as [[err' cs] w2]. destruct H2 as [H2 Hc].
  unfold in_use. cbn [producers consumers]. by rewrite Hp, Hc.
Qed.

(** *** One call *)

(** One producer or consumer and the others. *)
Lemma in_use_producer q i p p' l :
  producers q !! i = Some p → producer_conn p' = None →
  let rest := omap producer_conn (delete i (producers q)) ++ omap consumer_conn (consumers q) in
  in_use q ≡ₚ option_list (producer_conn p) ++ rest ∧
  in_use (mkMQ (cfg q) l (<[i := p']> (producers q)) (consumers q)) ≡ₚ rest.
Proof.
  intros Hi Hp' rest. unfold in_use. cbn [producers consumers].
  rewrite (omap_delete_Permutation producer_conn _ i p Hi), (omap_insert_Permutation producer_conn _ i p p' Hi), Hp'.
  by rewrite <- (assoc_L (++)).
Qed.

Lemma in_use_consumer q i c c' l :
  consumers q !! i = Some c → consumer_conn c' = None →
  let rest := omap producer_conn (producers q) ++ omap consumer_conn (delete i (consumers q)) in
  in_use q ≡ₚ option_list (consumer_conn c) ++ rest ∧
  in_use (mkMQ (cfg q) l (producers q) (<[i := c']> (consumers q))) ≡ₚ rest.
Proof.
  intros Hi Hc' rest. unfold in_use. cbn [producers consumers].
  rewrite (omap_delete_Permutation consumer_conn _ i c Hi), (omap_insert_Permutation consumer_conn _ i c c' Hi), Hc'.
  split; [apply Permutation_app_swap_app|done].
Qed.

Definition all_sound (s : RabbitMQ * World Cmd nat B) : Prop := sound opens closes s.2 (mq_closed s.1) (in_use s.1).

Lemma call_sound a s s' r : all_sound s → call a s = Some (s', r) → all_sound s'.
Proof.
  destruct s as [q w]. intros Hs Ha. pose proof Hs as [Hw Hc]. cbn [fst snd] in Hw, Hc.
  assert (∀ w', owes w' (in_use q) → all_sound (q, w')) as Hsame by by split.
  destruct a as [d t|d ts|t|t g|i d m|i|i| |i e]; cbn [call] in Ha.
  - assert (owes (CreateTopic q d t w).2 (in_use q)) as H1; [|destruct (CreateTopic q d t w); simplify_eq; by apply Hsame].
    unfold CreateTopic. destruct d, (is_closed _); try done. apply with_channel_owes; [|done]. intros ch w1 l H1.
    pose proof (cmd_owes opens closes (CQueueDeclare ch t (Durable (cfg q))) w1 l eq_refl H1) as H2. by destruct (cmd _ w1) as [[?|?] ?].
  - assert (owes (DeleteTopics q d ts w).2 (in_use q)) as H1; [|destruct (DeleteTopics q d ts w); simplify_eq; by apply Hsame].
    unfold DeleteTopics. destruct d, (is_closed _); try done. apply with_channel_owes; [|done].
    intros; by apply delete_all_owes.
  - pose proof (Producer_owes q t w _ Hw) as H1. destruct (mq_closed q) as [e|] eqn:Eq.
    { unfold Producer in *. rewrite Eq in *. cbn [is_closed] in *. simplify_eq. done. }
    destruct (Producer q t w) as [[p|e] w1]; simplify_eq; [|by apply Hsame].
    unfold all_sound in *. cbn [fst snd mq_closed] in *. rewrite Eq in *. eapply sound_more; [exact Hs| |exact H1]. unfold in_use. cbn [producers consumers].
    rewrite omap_app. cbn. rewrite (assoc_L (++)). apply Permutation_app_tail. rewrite Permutation_app_comm.
    by destruct (producer_conn p).
  - pose proof (Consumer_owes q t g w _ Hw) as H1. destruct (mq_closed q) as [e|] eqn:Eq.
    { unfold Consumer in *. rewrite Eq in *. cbn [is_closed] in *. simplify_eq. done. }
    destruct (Consumer q t g w) as [[c|e] w1]; simplify_eq; [|by apply Hsame].
    unfold all_sound in *. cbn [fst snd mq_closed] in *. rewrite Eq in *. eapply sound_more; [exact Hs| |exact H1]. unfold in_use. cbn [producers consumers].
    rewrite omap_app. cbn. rewrite (assoc_L (++)), Permutation_app_comm. by destruct (consumer_conn c).
  - destruct (producers q !! i) as [p|]; [|done]. cbn in Ha. pose proof (publish_owes q p d m w _ Hw) as H1.
    destruct (publish q p d m w) as [[?|?] w1]; simplify_eq; by apply Hsame.
  - destruct (producers q !! i) as [p|] eqn:Hi; [|done]. cbn in Ha.
    set (rest := omap producer_conn (delete i (producers q)) ++ omap consumer_conn (consumers q)).
    assert (in_use q ≡ₚ option_list (producer_conn p) ++ rest) as Hp.
    { apply (in_use_producer q i p (mkProducer 0 0 "" (Some None)) None); done. }
    apply (owes_perm opens closes _ _ _ Hp), producer_Close_owes in Hw. destruct (producer_Close p w) as [[e p'] w1]. simplify_eq.
    destruct Hw as [Hw Hp']. destruct (in_use_producer q i p p' (mq_closed q) Hi Hp') as [_ Hu].
    apply (sound_less opens closes w _ _ _ _ (option_list (producer_conn p)) Hs); [|by eapply owes_perm].
    by rewrite Hu.
  - destruct (consumers q !! i) as [c|] eqn:Hi; [|done]. cbn in Ha.
    set (rest := omap producer_conn (producers q) ++ omap consumer_conn (delete i (consumers q))).
    assert (in_use q ≡ₚ option_list (consumer_conn c) ++ rest) as Hp.
    { apply (in_use_consumer q i c (mkConsumer 0 0 "" (Some None) (relay c)) None); done. }
    apply (owes_perm opens closes _ _ _ Hp), consumer_Close_owes in Hw. destruct (consumer_Close c w) as [[e c'] w1]. simplify_eq.
    destruct Hw as [Hw Hc']. destruct (in_use_consumer q i c c' (mq_closed q) Hi Hc') as [_ Hu].
    apply (sound_less opens closes w _ _ _ _ (option_list (consumer_conn c)) Hs); [|by eapply owes_perm].
    by rewrite Hu.
  - pose proof (Close_owes q w Hw) as H1. unfold Close in *. destruct (mq_closed q) as [e|] eqn:Eq; [by simplify_eq|].
    destruct (close_all producer_Close _ None w) as [[err ps] w1]. destruct (close_all consumer_Close _ err w1) as [[err' cs] w2].
    destruct H1 as [H1 H2]. simplify_eq. split; cbn [fst snd]; auto.
  - destruct (consumers q !! i) as [c|] eqn:Hi; [|done]. cbn in Ha.
    assert (∃ s0, s' = (mkMQ (cfg q) (mq_closed q) (producers q) (<[i := with_relay c s0]> (consumers q)), w)) as [s0 ->].
    { destruct e; try done; cbn in Ha; repeat case_match; simplify_eq/=; by eexists. }
    apply (sound_less opens closes w _ _ _ _ [] Hs); [|eapply owes_perm; [|exact Hw]]; unfold in_use; cbn [producers consumers app];
      by rewrite (omap_insert_same consumer_conn (consumers q) i c (with_relay c s0) Hi eq_refl).
Qed.

End Connections.

(** *** One consumer *)

(** All replies are those of the one worker, and it drops nothing. *)
Lemma relay_alone evs s rs :
  run_steps relay_step evs (mkRelay [] [Waiting] false false) = Some (s, rs) →
  length (workers s) = 1%nat ∧ pushed rs = pushed_by 0 rs ∧ returned 0 rs = given_back rs.
Proof.
  set (I := λ (s : Relay Message) rs, length (workers s) = 1%nat ∧ pushed rs = pushed_by 0 rs ∧ returned 0 rs = given_back rs).
  apply (run_steps_history relay_step I); [|done].
  clear. intros e s s' rs r (Hl & Hp & Hr) Hs. unfold I, pushed, pushed_by, returned, given_back in *.
  rewrite !omap_app, Hp, Hr. assert (∀ i p, workers s !! i = Some p → i = 0%nat) as Hi.
  { intros i p Hip. apply lookup_lt_Some in Hip. lia. }
  destruct e; cbn [relay_step step] in Hs; repeat case_match; simplify_eq/=; rewrite ?length_insert; try (by split_and!);
    by rewrite decide_True by (by eapply Hi).
Qed.

Lemma relay_steps evs s :
  EStart ∉ evs → run_steps relay_step evs s = run_steps (step msgChanSize true) evs s.
Proof.
  revert s. induction evs as [|e evs IH]; intros s He; [done|]. apply not_elem_of_cons in He as [He Hevs].
  cbn [run_steps]. replace (relay_step e s) with (step msgChanSize true e s) by (by destruct e).
  destruct (step msgChanSize true e s) as [[s' r]|]; [|done]. cbn. by rewrite IH.
Qed.

Lemma relay_no_start evs s s' rs : run_steps relay_step evs s = Some (s', rs) → EStart ∉ evs.
Proof.
  revert s rs. induction evs as [|e evs IH]; intros s rs Hrun; [apply not_elem_of_nil|].
  destruct (run_steps_cons _ _ _ _ _ _ Hrun) as (s1 & r & rs' & Hs & Hr & ->).
  apply not_elem_of_cons. split; [by intros <-|by eapply IH].
Qed.

Lemma relay_accounts evs s rs :
  run_steps relay_step evs (mkRelay [] [Waiting] false false) = Some (s, rs) → accounts msgChanSize s rs.
Proof.
  intros Hrun. rewrite relay_steps in Hrun by (by eapply relay_no_start).
  by apply (run_accounts msgChanSize true 1 evs).
Qed.

(** ** Properties *)

(** C14. No connection is lost.  Whatever calls are made on a queue, its producers and
    its consumers, and whichever commands to the broker fail, the connections
    opened so far are exactly those closed and those that producers and
    consumers not yet closed hold; none is closed twice.  Once the queue is
    closed, all are. *)
Theorem connections_accounted {B} `{Library Cmd nat B} (c : RabbitMQConfig) (b : B) calls q w rs :
  run_steps call calls (NewMQ c, mkWorld b []) = Some ((q, w), rs) →
  opened opens w ≡ₚ closed closes w ++ in_use q ∧ (mq_closed q ≠ None → opened opens w ≡ₚ closed closes w).
Proof.
  intros Hrun. assert (all_sound (q, w)) as [Hw Hc].
  { apply (run_steps_invariant call all_sound (λ _ _, True)) with (evs := calls) (w := (NewMQ c, mkWorld b [])) (rs := rs);
      [intros s e s' r Hs _; by eapply call_sound|by split; [apply Permutation_refl|]|by apply along_intro|done]. }
  split; [done|]. intros Hq. unfold owes in Hw. cbn [fst snd] in *.
  rewrite (Hc ltac:(by destruct (mq_closed q))) in Hw. by rewrite app_nil_r in Hw.
Qed.

Lemma connections_accounted_witness :
  let calls := [NewProducer "a"; NewConsumer "a" "g"; NewProducer "b"; CloseProducer 0; CloseMQ; CloseConsumer 0] in
  ∃ q w rs, run_steps call calls (NewMQ (mkConfig "amqp://" "ex" "" true), mkWorld 9%nat []) = Some ((q, w), rs) ∧
    opened opens w = [8; 5]%nat ∧ closed closes w = [8; 5]%nat ∧ opened opens w ≡ₚ closed closes w.
Proof.
  intros calls. eexists _, _, _. split; [vm_compute; reflexivity|]. split; [done|]. split; [done|].
  eapply (connections_accounted (mkConfig "amqp://" "ex" "" true) 9%nat calls); [vm_compute; reflexivity|done].
Defined.

(** C22. A consumer's deliveries.  Whatever the order of deliveries, pushes,
    acknowledgements, reads and the closing, what has been read and what waits in
    the channel, at most its thousand, are the first deliveries, in order and
    each once; after them come at most one in hand or given back.  What is
    acknowledged is what has been pushed, but for the last one.  When the
    goroutine has ended, every delivery was either pushed and acknowledged or
    given back. *)
Theorem deliveries_answered_once evs s rs :
  run_steps relay_step evs (mkRelay [] [Waiting] false false) = Some (s, rs) →
  let buffered := received rs ++ msgCh s in
  took 0 rs = buffered ++ in_hand (workers s !! 0%nat) ++ given_back rs ∧
  buffered = confirmed 0 rs ++ unconfirmed (workers s !! 0%nat) ∧
  (length (msgCh s) ≤ msgChanSize)%nat ∧
  (workers s !! 0%nat = Some Ended → took 0 rs = confirmed 0 rs ++ given_back rs).
Proof.
  intros Hrun buffered. destruct (relay_accounts evs s rs Hrun) as (Hw & Hq & Hlen & _).
  destruct (relay_alone evs s rs Hrun) as (_ & Hp & Hr). destruct (Hw 0%nat) as (Ht & Hc & _). rewrite Hr in Ht.
  assert (pushed_by 0 rs = buffered) as E by (by rewrite <- Hp, Hq). rewrite E in Ht, Hc.
  split_and!; [done|done|done|]. intros He. rewrite He in Ht, Hc. rewrite Ht, Hc. cbn. by rewrite app_nil_r.
Qed.

Definition sample_message (k : string) : Message := message_of "t" (mkDelivery k "body" 5000000 {["h" := HBytes "v"]}).

Lemma deliveries_answered_once_witness :
  let a := sample_message "a" in
  let b := sample_message "b" in
  let evs := [ETake 0 a; EPush 0; EConfirm 0; ETake 0 b; EReceive; ECancel; EAbandon 0; EReject 0; ECloseCh] in
  ∃ s rs, run_steps relay_step evs (mkRelay [] [Waiting] false false) = Some (s, rs) ∧
    took 0 rs = [a; b] ∧ confirmed 0 rs = [a] ∧ received rs = [a] ∧ took 0 rs = confirmed 0 rs ++ given_back rs.
Proof.
  intros a b evs. eexists _, _. split; [vm_compute; reflexivity|]. do 3 (split; [done|]).
  eapply (deliveries_answered_once evs); [vm_compute; reflexivity|done].
Defined.

(** *** Other facts *)

(** What was published arrives, under the topic of the consumer. *)
Lemma message_of_published topic ts (m : Message) :
  let m' := message_of topic (mkDelivery (Key m) (Value m) ts (HString <$> Headers m)) in
  Key m' = Key m ∧ Value m' = Value m ∧ Headers m' = Headers m ∧ Topic m' = topic.
Proof.
  split_and!; [done|done| |done]. cbn [message_of Headers d_Headers]. apply map_eq. intros k.
  rewrite lookup_omap, lookup_fmap. by destruct (Headers m !! k).
Qed.

(** Closing again gives the error of the first time and sends nothing. *)
Lemma Close_again {B} `{Library Cmd nat B} (q : RabbitMQ) (w : World Cmd nat B) :
  let '(e, q', w') := Close q w in Close q' w' = (e, q', w').
Proof.
  unfold Close. destruct (mq_closed q) as [e|] eqn:E; [by rewrite E|].
  destruct (close_all producer_Close _ None w) as [[err ps] w1]. by destruct (close_all consumer_Close _ err w1) as [[err' cs] w2].
Qed.

(** Messages are acknowledged before anybody has read them: those in the channel
    are lost with the process. *)
Lemma acknowledged_unread :
  ∃ evs s rs, run_steps relay_step evs (mkRelay [] [Waiting] false false) = Some (s, rs) ∧
    confirmed 0 rs = [sample_message "a"] ∧ received rs = [].
Proof. by eexists [ETake 0 (sample_message "a"); EPush 0; EConfirm 0], _, _. Qed.

(** Without an exchange a producer sends to the queue named like the topic, and a
    consumer with a group reads the queue named like the group, bound to nothing. *)
Lemma group_without_exchange :
  let q := NewMQ (mkConfig "amqp://" "" "" true) in
  let '(_, w) := Consumer q "orders" "billing" (mkWorld 9%nat []) in
  let '(_, w') := publish q (mkProducer 0 0 "orders" None) false (mkMessage "" "k" "v" ∅ 0 0 0) (mkWorld 9%nat []) in
  (log w).*1 = [CDial "amqp://"; COpen 8; CQueueDeclare 7 "billing" true; CConsume 7 "billing"] ∧
  ∃ k b h, (log w').*1 = [CPublish 0 "" "orders" k b h].
Proof. split; [done|]. by eexists _, _, _. Qed.

End Rabbit.
