(* ===== verification/Kafka.v ===== *)
(** * The queue over Kafka (src/mq/kafka/kafka.go)

    The administration client, a producer for each [Producer] and a consumer
    group for each [Consumer] are opened through the client library and closed
    once.  A consumer's goroutine joins one session after another; in a session
    every claim of a partition is a worker of [Broker]'s hand-over, which marks
    the messages it has pushed. *)

From S2P Require Import Prelude Broker.

Module Kafka.
Import Broker.

(** ** Commands of the client library *)

(** [partition] is the one asked for, and 0 if none is. *)
Inductive Cmd :=
| CNewAdmin (brokers : list string)
| CCreateTopic (admin : nat) (topic : string) (numPartitions replicationFactor : Z)
| CDeleteTopic (admin : nat) (topic : string)
| CNewProducer (brokers : list string)
| CNewGroup (brokers : list string) (groupID : string)
| CSendMessage (producer : nat) (topic : string) (partition : Z) (key value : string) (headers : list (string * string))
| CCloseAdmin (admin : nat)
| CCloseProducer (producer : nat)
| CCloseGroup (group : nat).

Inductive Answer := Handle (n : nat) | Stored (partition offset : Z).

(** The numbers of the two errors that are let pass. *)
Definition ErrTopicAlreadyExists : nat := 36.

Definition ErrUnknownTopicOrPartition : nat := 3.

(** ** State *)

Record KafkaProducer := mkProducer { p_topic : string; producer : nat; p_closed : Once }.

(** [in_session] while the library runs a session, [over] when the goroutine has
    returned. *)
Record KafkaConsumer := mkConsumer {
  c_topic : string;
  groupID : string;
  group : nat;
  c_closed : Once;
  ready : bool;
  in_session : bool;
  over : bool;
  relay : Relay Message
}.

Record KafkaMQ := mkMQ {
  brokers : list string;
  admin : nat;
  mq_closed : Once;
  producers : list KafkaProducer;
  consumers : list KafkaConsumer
}.

Definition msgChanSize : nat := 1000.

(** What a claim gives and what the consumer makes of it. *)
Record ConsumerMessage := mkRecord {
  r_Topic : string;
  r_Key : string;
  r_Value : string;
  r_Headers : list (string * string);
  r_Timestamp : Time;
  r_Partition : Z;
  r_Offset : Z
}.

Definition message_of (km : ConsumerMessage) : Message :=
  mkMessage (r_Topic km) (r_Key km) (r_Value km) (foldl (λ h kv, <[kv.1 := kv.2]> h) ∅ (r_Headers km))
    (UnixMilli (r_Timestamp km)) (r_Partition km) (r_Offset km).

(** ** Operations *)

Section Operations.
Context {B : Type} `{Library Cmd Answer B} `{RangeOrder}.
Abbreviation W := (World Cmd Answer B) (only parsing).

Definition handle (a : Answer) : nat := match a with Handle n => n | Stored _ _ => O end.

Definition NewMQ (bs : list string) (w : W) : res Error KafkaMQ * W :=
  try (CNewAdmin bs) w (λ e w, (Err e, w)) (λ a w, (Ok (mkMQ bs (handle a) None [] []), w)).

Definition CreateTopic (q : KafkaMQ) (ctx_done : bool) (topic : string) (partitions : Z) (w : W) : option Error * W :=
  if decide (topic = "") then (Some ErrInvalidTopic, w)
  else if partitions <=? 0 then (Some ErrInvalidPartition, w)
  else if ctx_done then (Some ErrContext, w)
  else if is_closed (mq_closed q) then (Some ErrMQClosed, w)
  else
    let '(r, w) := cmd (CCreateTopic (admin q) topic (i32 partitions) 1) w in
    (match r with
     | Ok _ => None
     | Err e => if (e =? ErrTopicAlreadyExists)%nat then None else Some (ErrClient e)
     end, w).

Fixpoint delete_all (admin : nat) (topics : list string) (w : W) : option Error * W :=
  match topics with
  | [] => (None, w)
  | t :: topics =>
      let '(r, w) := cmd (CDeleteTopic admin t) w in
      match r with
      | Ok _ => delete_all admin topics w
      | Err e => if (e =? ErrUnknownTopicOrPartition)%nat then delete_all admin topics w else (Some (ErrClient e), w)
      end
  end.

Definition DeleteTopics (q : KafkaMQ) (ctx_done : bool) (topics : list string) (w : W) : option Error * W :=
  if ctx_done then (Some ErrContext, w)
  else if is_closed (mq_closed q) then (Some ErrMQClosed, w)
  else delete_all (admin q) topics w.

Definition Producer (q : KafkaMQ) (topic : string) (w : W) : res Error KafkaProducer * W :=
  if is_closed (mq_closed q) then (Err ErrMQClosed, w)
  else try (CNewProducer (brokers q)) w (λ e w, (Err e, w)) (λ a w, (Ok (mkProducer topic (handle a) None), w)).

Definition Consumer (q : KafkaMQ) (topic gid : string) (w : W) : res Error KafkaConsumer * W :=
  if is_closed (mq_closed q) then (Err ErrMQClosed, w)
  else try (CNewGroup (brokers q) gid) w (λ e w, (Err e, w))
         (λ a w, (Ok (mkConsumer topic gid (handle a) None false false false (mkRelay [] [] false false)), w)).

(** [SendWithPartition]; [Send] leaves the partition 0. *)
Definition SendWithPartition (p : KafkaProducer) (ctx_done : bool) (msg : Message) (partition : Z) (w : W)
    : res Error ProducerResult * W :=
  if is_closed (p_closed p) then (Err ErrProducerClosed, w)
  else if ctx_done then (Err ErrContext, w)
  else
    let topic := if decide (Topic msg = "") then p_topic p else Topic msg in
    try (CSendMessage (producer p) topic partition (Key msg) (Value msg) (range_map (Headers msg))) w
      (λ e w, (Err e, w)) (λ a w, (Ok (match a with Stored part off => (part, off) | Handle _ => (0, 0) end), w)).

Definition Send (p : KafkaProducer) (ctx_done : bool) (msg : Message) (w : W) : res Error ProducerResult * W :=
  SendWithPartition p ctx_done msg 0 w.

Definition producer_Close (p : KafkaProducer) (w : W) : option Error * KafkaProducer * W :=
  match p_closed p with
  | Some e => (e, p, w)
  | None =>
      let '(r, w) := cmd (CCloseProducer (producer p)) w in
      (lib_err r, mkProducer (p_topic p) (producer p) (Some (lib_err r)), w)
  end.

Definition consumer_Close (c : KafkaConsumer) (w : W) : option Error * KafkaConsumer * W :=
  match c_closed c with
  | Some e => (e, c, w)
  | None =>
      let s := relay c in
      let '(r, w) := cmd (CCloseGroup (group c)) w in
      (lib_err r,
       mkConsumer (c_topic c) (groupID c) (group c) (Some (lib_err r)) (ready c) (in_session c) (over c)
         (mkRelay (msgCh s) (workers s) true (ch_closed s)), w)
  end.

Definition Close (q : KafkaMQ) (w : W) : option Error * KafkaMQ * W :=
  match mq_closed q with
  | Some e => (e, q, w)
  | None =>
      let '(err, ps, w) := close_all producer_Close (producers q) None w in
      let '(err, cs, w) := close_all consumer_Close (consumers q) err w in
      let '(r, w) := cmd (CCloseAdmin (admin q)) w in
      let err := first_error err (lib_err r) in
      (err, mkMQ (brokers q) (admin q) (Some err) ps cs, w)
  end.

End Operations.

(** ** The consumer's goroutine *)

(** The library starts a session ([Setup]) and a claim in it, and returns, with or
    without having had one, once its claims have; a worker's steps and the readers' are those of
    the relay. *)
Inductive ConsumerEvent :=
| Setup
| Claim
| Return (err : bool)
| Within (e : Event Message)
| Cancel.

Definition all_ended (s : Relay Message) : bool := forallb (λ p, match p with Ended => true | _ => false end) (workers s).

Definition set_relay (c : KafkaConsumer) (rd ses ov : bool) (s : Relay Message) : KafkaConsumer :=
  mkConsumer (c_topic c) (groupID c) (group c) (c_closed c) rd ses ov s.

(** The relay's event that a consumer's event is, if any. *)
Definition relay_event (c : KafkaConsumer) (e : ConsumerEvent) : option (option (Event Message)) :=
  match e with
  | Setup => if negb (in_session c) && negb (over c) then Some None else None
  | Claim => if in_session c then Some (Some EStart) else None
  | Return err =>
      if negb (over c) && all_ended (relay c) then Some (if err || cancelled (relay c) then Some ECloseCh else None) else None
  | Within (EStart | ECloseCh | ECancel) => None
  | Within e => Some (Some e)
  | Cancel => Some (Some ECancel)
  end.

(** [run]: after a session with no error and not cancelled, the next one. *)
Definition consumer_step (e : ConsumerEvent) (c : KafkaConsumer) : option (KafkaConsumer * Reply Message) :=
  re ← relay_event c e;
  '(s, r) ← match re with None => Some (relay c, Quiet) | Some re => step msgChanSize false re (relay c) end;
  Some (match e with
        | Setup => (set_relay c true true (over c) s, r)
        | Return err =>
            let fin := err || cancelled (relay c) in
            (set_relay c (if fin then ready c else false) false fin s, r)
        | _ => (set_relay c (ready c) (in_session c) (over c) s, r)
        end).

(** The channel itself, for a reader of its own, unless the consumer or the context is over. *)
Definition ConsumeChan (ctx_done : bool) (c : KafkaConsumer) : option Error :=
  if cancelled (relay c) then Some ErrConsumerClosed else if ctx_done then Some ErrContext else None.

(** ** Calls on a queue *)

Inductive Call :=
| NewTopic (ctx_done : bool) (topic : string) (partitions : Z)
| DropTopics (ctx_done : bool) (topics : list string)
| NewProducer (topic : string)
| NewConsumer (topic gid : string)
| SendTo (i : nat) (ctx_done : bool) (msg : Message) (partition : Z)
| CloseProducer (i : nat)
| CloseConsumer (i : nat)
| CloseMQ
| Goroutine (i : nat) (e : ConsumerEvent).

Section Calls.
Context {B : Type} `{Library Cmd Answer B} `{RangeOrder}.
Abbreviation W := (World Cmd Answer B) (only parsing).

Definition with_producers (q : KafkaMQ) (ps : list KafkaProducer) : KafkaMQ :=
  mkMQ (brokers q) (admin q) (mq_closed q) ps (consumers q).

Definition with_consumers (q : KafkaMQ) (cs : list KafkaConsumer) : KafkaMQ :=
  mkMQ (brokers q) (admin q) (mq_closed q) (producers q) cs.

Definition call (a : Call) (s : KafkaMQ * W) : option ((KafkaMQ * W) * option Error) :=
  let '(q, w) := s in
  match a with
  | NewTopic ctx_done topic n => let '(e, w) := CreateTopic q ctx_done topic n w in Some ((q, w), e)
  | DropTopics ctx_done topics => let '(e, w) := DeleteTopics q ctx_done topics w in Some ((q, w), e)
  | NewProducer topic =>
      Some (match Producer q topic w with
            | (Ok p, w) => ((with_producers q (producers q ++ [p]), w), None)
            | (Err e, w) => ((q, w), Some e)
            end)
  | NewConsumer topic gid =>
      Some (match Consumer q topic gid w with
            | (Ok c, w) => ((with_consumers q (consumers q ++ [c]), w), None)
            | (Err e, w) => ((q, w), Some e)
            end)
  | SendTo i ctx_done msg part =>
      p ← producers q !! i;
      Some (match SendWithPartition p ctx_done msg part w with
            | (Ok _, w) => ((q, w), None)
            | (Err e, w) => ((q, w), Some e)
            end)
  | CloseProducer i =>
      p ← producers q !! i;
      let '(e, p, w) := producer_Close p w in Some ((with_producers q (<[i := p]> (producers q)), w), e)
  | CloseConsumer i =>
      c ← consumers q !! i;
      let '(e, c, w) := consumer_Close c w in Some ((with_consumers q (<[i := c]> (consumers q)), w), e)
  | CloseMQ => let '(e, q, w) := Close q w in Some ((q, w), e)
  | Goroutine i e =>
      c ← consumers q !! i;
      '(c, _) ← match e with Cancel => None | _ => consumer_step e c end;
      Some ((with_consumers q (<[i := c]> (consumers q)), w), None)
  end.

End Calls.

(** ** What the theorems speak of *)

(** Clients of the library by their kind. *)
Inductive Client := Admin (n : nat) | SyncProducer (n : nat) | ConsumerGroup (n : nat).

Definition opens (c : Cmd) (a : Answer) : option Client :=
  match c with
  | CNewAdmin _ => Some (Admin (handle a))
  | CNewProducer _ => Some (SyncProducer (handle a))
  | CNewGroup _ _ => Some (ConsumerGroup (handle a))
  | _ => None
  end.

Definition closes (c : Cmd) : option Client :=
  match c with
  | CCloseAdmin n => Some (Admin n)
  | CCloseProducer n => Some (SyncProducer n)
  | CCloseGroup n => Some (ConsumerGroup n)
  | _ => None
  end.

Definition producer_client (p : KafkaProducer) : option Client :=
  if is_closed (p_closed p) then None else Some (SyncProducer (producer p)).

Definition consumer_client (c : KafkaConsumer) : option Client :=
  if is_closed (c_closed c) then None else Some (ConsumerGroup (group c)).

Definition admin_client (q : KafkaMQ) : option Client := if is_closed (mq_closed q) then None else Some (Admin (admin q)).

Definition in_use (q : KafkaMQ) : list Client :=
  option_list (admin_client q) ++ omap producer_client (producers q) ++ omap consumer_client (consumers q).

Definition fresh_consumer : KafkaConsumer := mkConsumer "t" "g" 0 None false false false (mkRelay [] [] false false).

(** ** Lemmas *)

(** *** One consumer *)

Definition consumer_ok (c : KafkaConsumer) (rs : list (Reply Message)) : Prop :=
  accounts msgChanSize (relay c) rs ∧ over c = ch_closed (relay c).

Lemma kafka_consumer_step_ok e c c' rs r : consumer_ok c rs → consumer_step e c = Some (c', r) → consumer_ok c' (rs ++ [r]).
Proof.
  intros [Hacc Hov] Hs. unfold consumer_step in Hs. destruct (relay_event c e) as [re|] eqn:He; [|done]. cbn in Hs.
  assert (∃ s, match re with None => Some (relay c, Quiet) | Some re => step msgChanSize false re (relay c) end = Some (s, r) ∧
    relay c' = s ∧ over c' = match e with Return err => err || cancelled (relay c) | _ => over c end) as (s1 & Hre & Hs' & Ho).
  { destruct re as [re|]; [destruct (step msgChanSize false re (relay c)) as [[s0 r']|]; [|done]|]; cbn in Hs;
      destruct e; simplify_eq/=; by eexists. }
  split.
  - rewrite Hs'. destruct re as [re|]; [by eapply accounts_step|]. injection Hre as <- <-. by apply accounts_quiet.
  - rewrite Hs', Ho. clear Hs Hs' Ho. destruct e as [| |err|e|]; cbn [relay_event] in He.
    + destruct (negb (in_session c) && negb (over c)); by simplify_eq/=.
    + destruct (in_session c); simplify_eq/=. destruct (ch_closed (relay c)) eqn:E; simplify_eq/=. congruence.
    + destruct (over c); cbn in He; [done|]. destruct (all_ended (relay c)); cbn in He; [|done].
      destruct (err || cancelled (relay c)); simplify_eq/=; [|done]. by case_match; simplify_eq/=.
    + destruct e; simplify_eq/=; repeat case_match; simplify_eq/=; done.
    + simplify_eq/=. done.
Qed.

(** *** Clients *)

Section Clients.
Context {B : Type} `{Library Cmd Answer B} `{RangeOrder}.
Implicit Types (w : World Cmd Answer B) (q : KafkaMQ).
Abbreviation owes := (owes opens closes).

Lemma kafka_delete_all_owes a topics w l : owes w l → owes (delete_all a topics w).2 l.
Proof.
  revert w. induction topics as [|t topics IH]; intros w Hw; [done|]. cbn [delete_all].
  pose proof (cmd__owes opens closes (CDeleteTopic a t) w l eq_refl (λ _, eq_refl) Hw) as H1. unfold cmd_ in H1.
  destruct (cmd (CDeleteTopic a t) w) as [[h|e] w']; cbn [snd] in H1; [by apply IH|].
  destruct (e =? _)%nat; [by apply IH|done].
Qed.

Lemma CreateTopic_owes q d t n w l : owes w l → owes (CreateTopic q d t n w).2 l.
Proof.
  intros Hw. unfold CreateTopic. repeat case_match; simplify_eq/=; try done;
  match goal with E : cmd ?c w = (_, ?w') |- _ =>
    change w' with ((cmd c w).2) || replace w' with (cmd_ c w) by (unfold cmd_; by rewrite E) end; by apply (cmd__owes opens closes).
Qed.

Lemma SendWithPartition_owes p d m part w l : owes w l → owes (SendWithPartition p d m part w).2 l.
Proof.
  intros Hw. unfold SendWithPartition. destruct (is_closed _), d; try done.
  by apply (try_owes opens closes (λ r, owes r.2 l) _ _ l).
Qed.

Lemma kafka_Producer_owes q topic w l :
  owes w l → let '(r, w') := Producer q topic w in
  owes w' (match r with Ok p => option_list (producer_client p) | Err _ => [] end ++ l).
Proof.
  intros Hw. unfold Producer. destruct (is_closed (mq_closed q)); [done|].
  by apply (try_owes opens closes
    (λ '(r, w'), owes w' (match r with Ok p => option_list (producer_client p) | Err _ => [] end ++ l)) _ _ l).
Qed.

Lemma kafka_Consumer_owes q topic gid w l :
  owes w l → let '(r, w') := Consumer q topic gid w in
  owes w' (match r with Ok c => option_list (consumer_client c) | Err _ => [] end ++ l).
Proof.
  intros Hw. unfold Consumer. destruct (is_closed (mq_closed q)); [done|].
  by apply (try_owes opens closes
    (λ '(r, w'), owes w' (match r with Ok c => option_list (consumer_client c) | Err _ => [] end ++ l)) _ _ l).
Qed.

(** Closing one client. *)
Lemma close_client_owes c h w l : closes c = Some h → (∀ a, opens c a = None) → owes w (h :: l) → owes (cmd c w).2 l.
Proof. apply (close_owes opens closes). Qed.

Lemma kafka_producer_Close_owes p w l :
  owes w (option_list (producer_client p) ++ l) → let '(_, p', w') := producer_Close p w in
  owes w' l ∧ producer_client p' = None.
Proof.
  unfold producer_Close, producer_client. intros Hw. destruct (p_closed p) as [e|] eqn:E; cbn [is_closed] in Hw; [by rewrite E|].
  apply (close_client_owes (CCloseProducer (producer p))) in Hw; [|done..]. by destruct (cmd _ w) as [r w'].
Qed.

Lemma kafka_consumer_Close_owes c w l :
  owes w (option_list (consumer_client c) ++ l) → let '(_, c', w') := consumer_Close c w in
  owes w' l ∧ consumer_client c' = None.
Proof.
  unfold consumer_Close, consumer_client. intros Hw. destruct (c_closed c) as [e|] eqn:E; cbn [is_closed] in Hw; [by rewrite E|].
  apply (close_client_owes (CCloseGroup (group c))) in Hw; [|done..]. by destruct (cmd _ w) as [r w'].
Qed.

Lemma kafka_Close_owes q w :
  mq_closed q = None → owes w (in_use q) → let '(_, q', w') := Close q w in owes w' [] ∧ in_use q' = [].
Proof.
  intros Hq Hw. unfold Close. rewrite Hq. unfold in_use, admin_client in Hw. rewrite Hq in Hw. cbn [is_closed option_list] in Hw.
  apply (owes_perm opens closes _ _ (omap producer_client (producers q) ++ omap consumer_client (consumers q) ++ [Admin (admin q)])) in Hw;
    [|by rewrite Permutation_app_comm, <- (assoc_L (++))].
  apply (close_all_owes opens closes producer_Close producer_client (producers q) None w _ kafka_producer_Close_owes) in Hw.
  destruct (close_all producer_Close _ None w) as [[err ps] w1]. destruct Hw as [Hw Hp].
  apply (close_all_owes opens closes consumer_Close consumer_client (consumers q) err w1 _ kafka_consumer_Close_owes) in Hw.
  destruct (close_all consumer_Close _ err w1) as [[err' cs] w2]. destruct Hw as [Hw Hc].
  apply (close_client_owes (CCloseAdmin (admin q))) in Hw; [|done..]. destruct (cmd _ w2) as [r w3].
  split; [done|]. unfold in_use, admin_client. cbn [mq_closed is_closed option_list producers consumers]. by rewrite Hp, Hc.
Qed.

Definition all_sound (s : KafkaMQ * World Cmd Answer B) : Prop := sound opens closes s.2 (mq_closed s.1) (in_use s.1).

(** One of the producers or consumers replaced, and the others. *)
Lemma kafka_in_use_producer q i p p' :
  producers q !! i = Some p →
  let rest := option_list (admin_client q) ++ omap producer_client (delete i (producers q)) ++ omap consumer_client (consumers q) in
  in_use q ≡ₚ option_list (producer_client p) ++ rest ∧
  in_use (with_producers q (<[i := p']> (producers q))) ≡ₚ option_list (producer_client p') ++ rest.
Proof.
  intros Hi rest. unfold in_use. cbn [with_producers producers consumers]. change (admin_client (with_producers q _)) with (admin_client q).
  rewrite (omap_delete_Permutation producer_client _ i p Hi), (omap_insert_Permutation producer_client _ i p p' Hi).
  subst rest. rewrite <- !(assoc_L (++)). split; apply Permutation_app_swap_app.
Qed.

Lemma kafka_in_use_consumer q i c c' :
  consumers q !! i = Some c →
  let rest := option_list (admin_client q) ++ omap producer_client (producers q) ++ omap consumer_client (delete i (consumers q)) in
  in_use q ≡ₚ option_list (consumer_client c) ++ rest ∧
  in_use (with_consumers q (<[i := c']> (consumers q))) ≡ₚ option_list (consumer_client c') ++ rest.
Proof.
  intros Hi rest. unfold in_use. cbn [with_consumers producers consumers]. change (admin_client (with_consumers q _)) with (admin_client q).
  rewrite (omap_delete_Permutation consumer_client _ i c Hi), (omap_insert_Permutation consumer_client _ i c c' Hi).
  subst rest. rewrite !(assoc_L (++) (option_list (admin_client q))). split; apply Permutation_app_swap_app.
Qed.

Lemma kafka_call_sound a s s' r : all_sound s → call a s = Some (s', r) → all_sound s'.
Proof.
  destruct s as [q w]. intros Hs Ha. pose proof Hs as [Hw Hc]. cbn [fst snd] in Hw, Hc.
  assert (∀ w', owes w' (in_use q) → all_sound (q, w')) as Hsame by by split.
  destruct a as [d t n|d ts|t|t g|i d m part|i|i| |i e]; cbn [call] in Ha.
  - pose proof (CreateTopic_owes q d t n w _ Hw). destruct (CreateTopic q d t n w). simplify_eq. by apply Hsame.
  - assert (owes (DeleteTopics q d ts w).2 (in_use q)) as H1; [|destruct (DeleteTopics q d ts w); simplify_eq; by apply Hsame].
    unfold DeleteTopics. destruct d, (is_closed _); try done. by apply kafka_delete_all_owes.
  - pose proof (kafka_Producer_owes q t w _ Hw) as H1. destruct (mq_closed q) as [e|] eqn:Eq.
    { unfold Producer in *. rewrite Eq in *. cbn [is_closed] in *. by simplify_eq. }
    destruct (Producer q t w) as [[p|e] w1]; simplify_eq; [|by apply Hsame].
    unfold all_sound in *. cbn [fst snd mq_closed with_producers] in *. rewrite Eq in *.
    eapply sound_more; [exact Hs| |exact H1]. unfold in_use. cbn [with_producers producers consumers].
    rewrite omap_app. change (admin_client (with_producers q _)) with (admin_client q). cbn [omap list_omap].
    rewrite <- (assoc_L (++)). destruct (producer_client p); [|done]. cbn [option_list app].
    by rewrite <- !Permutation_middle.
  - pose proof (kafka_Consumer_owes q t g w _ Hw) as H1. destruct (mq_closed q) as [e|] eqn:Eq.
    { unfold Consumer in *. rewrite Eq in *. cbn [is_closed] in *. by simplify_eq. }
    destruct (Consumer q t g w) as [[c|e] w1]; simplify_eq; [|by apply Hsame].
    unfold all_sound in *. cbn [fst snd mq_closed with_consumers] in *. rewrite Eq in *.
    eapply sound_more; [exact Hs| |exact H1]. unfold in_use. cbn [with_consumers producers consumers].
    rewrite omap_app. change (admin_client (with_consumers q _)) with (admin_client q). cbn [omap list_omap].
    destruct (consumer_client c) as [k|]; [|by rewrite app_nil_r]. cbn [option_list app].
    by rewrite <- Permutation_cons_append, <- !Permutation_middle.
  - destruct (producers q !! i) as [p|]; [|done]. cbn in Ha. pose proof (SendWithPartition_owes p d m part w _ Hw) as H1.
    destruct (SendWithPartition p d m part w) as [[?|?] w1]; simplify_eq; by apply Hsame.
  - destruct (producers q !! i) as [p|] eqn:Hi; [|done]. cbn in Ha.
    destruct (kafka_in_use_producer q i p p Hi) as [Hp _].
    apply (owes_perm opens closes _ _ _ Hp), kafka_producer_Close_owes in Hw. destruct (producer_Close p w) as [[e p'] w1]. simplify_eq.
    destruct Hw as [Hw Hp']. destruct (kafka_in_use_producer q i p p' Hi) as [_ Hu]. rewrite Hp' in Hu. cbn [option_list app] in Hu.
    apply (sound_less opens closes w _ _ _ _ (option_list (producer_client p)) Hs); [by rewrite Hu|by eapply owes_perm].
  - destruct (consumers q !! i) as [c|] eqn:Hi; [|done]. cbn in Ha.
    destruct (kafka_in_use_consumer q i c c Hi) as [Hp _].
    apply (owes_perm opens closes _ _ _ Hp), kafka_consumer_Close_owes in Hw. destruct (consumer_Close c w) as [[e c'] w1]. simplify_eq.
    destruct Hw as [Hw Hc']. destruct (kafka_in_use_consumer q i c c' Hi) as [_ Hu]. rewrite Hc' in Hu. cbn [option_list app] in Hu.
    apply (sound_less opens closes w _ _ _ _ (option_list (consumer_client c)) Hs); [by rewrite Hu|by eapply owes_perm].
  - destruct (mq_closed q) as [e|] eqn:Eq; [unfold Close in Ha; rewrite Eq in Ha; simplify_eq; by apply Hsame|].
    pose proof (kafka_Close_owes q w Eq Hw) as H1. destruct (Close q w) as [[e q'] w1]. destruct H1 as [H1 H2]. simplify_eq.
    split; cbn [fst snd]; by rewrite H2.
  - destruct (consumers q !! i) as [c|] eqn:Hi; [|done]. cbn in Ha.
    assert (∃ c0, s' = (with_consumers q (<[i := c0]> (consumers q)), w) ∧ consumer_client c0 = consumer_client c) as (c0 & -> & Hc0).
    { destruct (match e with Cancel => None | _ => consumer_step e c end) as [[c0 r0]|] eqn:Hst; [|done]. cbn in Ha. simplify_eq.
      exists c0. split; [done|]. assert (consumer_step e c = Some (c0, r0)) as H1 by (by destruct e).
      unfold consumer_step in H1. destruct (relay_event c e) as [re|]; [|done]. cbn in H1.
      destruct (match re with Some re => _ | None => _ end) as [[s1 r1]|]; [|done]. cbn in H1. by destruct e; simplify_eq. }
    destruct (kafka_in_use_consumer q i c c0 Hi) as [Hp Hu]. rewrite Hc0, <- Hp in Hu.
    apply (sound_less opens closes w _ _ _ _ [] Hs); [by rewrite Hu|by eapply owes_perm].
Qed.

(** A queue and what was made with it: the clients opened are those closed and
    those in use, and none is in use once the queue is closed. *)
Lemma clients_accounted bs b q w calls q' w' rs :
  NewMQ bs (mkWorld b []) = (Ok q, w) → run_steps call calls (q, w) = Some ((q', w'), rs) →
  opened opens w' ≡ₚ closed closes w' ++ in_use q' ∧ (mq_closed q' ≠ None → opened opens w' ≡ₚ closed closes w').
Proof.
  intros Hn Hrun. assert (all_sound (q', w')) as [Hw Hc].
  { apply (run_steps_invariant call all_sound (λ _ _, True)) with (evs := calls) (w := (q, w)) (rs := rs);
      [intros s e s' r Hs _; by eapply kafka_call_sound| |by apply along_intro|done].
    unfold NewMQ, try, cmd in Hn. destruct (exec (CNewAdmin bs) _) as [[a|e] b'] eqn:Ex; cbn in Hn; [|done].
    injection Hn as <- <-. cbn [broker] in Ex. split; [|done]. unfold Broker.owes, opened, closed. cbn. done. }
  split; [done|]. intros Hq. unfold Broker.owes in Hw. cbn [fst snd] in *.
  rewrite (Hc ltac:(by destruct (mq_closed q'))) in Hw. by rewrite app_nil_r in Hw.
Qed.

End Clients.

(** ** Properties *)

(** C13. Marks leave no gap.  Whatever sessions, claims, pushes, marks and reads a
    consumer sees in whatever order: a message that is marked was put into the
    channel before, and so was every message of its claim with a lower offset,
    so that what the group commits never passes a message that no reader can
    get.  What has been read and what waits in the channel, at most its
    thousand, is what was pushed, in order and each once.  When the goroutine is
    over, no claim is left that could push into the closed channel. *)
Theorem marks_leave_no_gap evs c rs :
  run_steps consumer_step evs fresh_consumer = Some (c, rs) →
  (∀ i, StronglySorted (λ m m', Offset m < Offset m') (took i rs) →
    ∀ m m', m ∈ confirmed i rs → m' ∈ took i rs → Offset m' ≤ Offset m → m' ∈ confirmed i rs ∧ m' ∈ pushed rs) ∧
  pushed rs = received rs ++ msgCh (relay c) ∧ (length (msgCh (relay c)) ≤ msgChanSize)%nat ∧
  (over c = true → ch_closed (relay c) = true ∧ Forall (λ p, p = Ended) (workers (relay c))).
Proof.
  intros Hrun. assert (consumer_ok c rs) as [(Hw & Hq & Hlen & Hcl) Hov].
  { revert Hrun. apply (run_steps_history consumer_step consumer_ok); [intros; by eapply kafka_consumer_step_ok|].
    split; [by apply (run_accounts msgChanSize false 0 [])|done]. }
  split_and!; [|done|done|intros Ho; rewrite Hov in Ho; by split; [|apply Hcl]].
  intros i Hs m m' Hm Hm' Hle. destruct (Hw i) as (Ht & Hp & _).
  assert (m' ∈ confirmed i rs) as Hin.
  { rewrite Ht, Hp, <- (assoc_L (++)) in Hs, Hm'. apply elem_of_app in Hm' as [?|Hm']; [done|].
    apply StronglySorted_app in Hs as (Hs & _ & _). specialize (Hs m m' Hm Hm'). lia. }
  split; [done|]. assert (m' ∈ pushed_by i rs) as Hpi by (rewrite Hp; set_solver).
  unfold pushed, pushed_by in *. apply list_elem_of_omap in Hpi as (r & Hr & Hf). apply list_elem_of_omap. exists r.
  split; [done|]. by destruct r; repeat case_decide.
Qed.

Definition sample_record (n : Z) : Message := message_of (mkRecord "t" "k" "v" [("h", "a"); ("h", "b")] 5000000 0 n).

(** Two sessions; the second is closed while a message is in hand. *)
Lemma marks_leave_no_gap_witness :
  let m := sample_record in
  let evs := [Setup; Claim; Within (ETake 0 (m 4)); Within (EPush 0); Within (EConfirm 0); Within (ETake 0 (m 5));
              Within (EPush 0); Within (EConfirm 0); Within (EStop 0); Return false;
              Setup; Claim; Within (ETake 1 (m 6)); Within EReceive; Cancel; Within (EAbandon 1); Return false] in
  ∃ c rs, run_steps consumer_step evs fresh_consumer = Some (c, rs) ∧
    confirmed 0 rs = [m 4; m 5] ∧ received rs = [m 4] ∧ over c = true ∧ m 4 ∈ pushed rs ∧ ch_closed (relay c) = true.
Proof.
  intros m evs. eexists _, _. split; [vm_compute; reflexivity|]. do 3 (split; [done|]).
  edestruct (marks_leave_no_gap evs) as (Hgap & _ & _ & Hover); [vm_compute; reflexivity|].
  split; [|by apply Hover]. apply (Hgap 0%nat) with (m := m 5); [| | |done]; vm_compute; [repeat constructor|..].
  - apply list_elem_of_further, list_elem_of_here.
  - apply list_elem_of_here.
Defined.

(** ** What the code does not promise *)

(** A claim whose message the full channel does not take does not end with its
    session: only a reader or the closing of the consumer lets it go on. *)
Lemma claim_holds_session i (m : Message) e (s s' : Relay Message) r :
  workers s !! i = Some (Pushing m) → length (msgCh s) = msgChanSize → cancelled s = false →
  step msgChanSize false e s = Some (s', r) → e ≠ EReceive → e ≠ ECancel → workers s' !! i = Some (Pushing m).
Proof.
  intros Hi Hlen Hc Hs He He'.
  destruct e as [|j m'|j|j|j|j|j| | |]; cbn [step] in Hs; try done; try (rewrite Hlen, Hc in Hs);
    repeat case_match; simplify_eq/=; try done; try (by apply lookup_app_l_Some);
    (destruct (decide (j = i)) as [->|Hne]; [congruence|by rewrite list_lookup_insert_ne]).
Qed.

(** The number of partitions is cut to 32 bits: one more than all of them is one. *)
Lemma partitions_wrap {B} `{Library Cmd Answer B} (w : World Cmd Answer B) :
  (CreateTopic (mkMQ [] 0 None [] []) false "t" (2 ^ 32 + 1) w).2 = (cmd (CCreateTopic 0 "t" 1 1) w).2.
Proof. unfold CreateTopic. cbn. change (i32 _) with 1. by destruct (cmd _ w). Qed.

End Kafka.
