(* ===== verification/MapReduce.v ===== *)
(** * Concurrent map/reduce helpers (src/mr/mr.go)

    [MapReduce] is a transition system of its main loop, its worker goroutines,
    the semaphore and the buffered channel, driven by a schedule of choices.
    The helpers that only wait for their workers ([Map], [Filter], [ForEach],
    [FlatMap], [Partition]) are functions of the order in which workers end.
    User callbacks are pure functions that return. *)

From S2P Require Import Prelude.

Module MapReduce.

(** ** Options *)

Record Options := mkOptions { concurrency : Z; bufferSize : Z }.

Definition WithConcurrency (n : Z) (o : Options) : Options :=
  if 0 <? n then mkOptions n (bufferSize o) else o.

Definition WithBufferSize (n : Z) (o : Options) : Options :=
  if 0 <? n then mkOptions (concurrency o) n else o.

Definition applyOptions (opts : list (Options → Options)) : Options :=
  foldl (λ o opt, opt o) (mkOptions 16 1000) opts.

(** Channels and semaphores of the options: their sizes are positive. *)
Definition options_ok (o : Options) : Prop := 0 < concurrency o ∧ 0 < bufferSize o.

(** ** [MapReduce] *)

Section MapReduce_.
Context {T U R E : Type} (mapFunc : T → res E U) (reduceFunc : R → U → R * option E)
  (zero : R) (ctx_Err : E) (options : Options).

(** A worker is inside [mapFunc], or sending its result. *)
Inductive Worker := Mapping (t : T) | Sending (u : U).

Inductive Main := Spawning | Reducing | Returned (r : R) (e : option E).

Record State := mkState {
  main : Main;
  todo : list T;
  workers : list Worker;
  mapOutput : list U;
  mapErrors : list E;
  acc : R;
  cancelled : bool
}.

Definition init (source : list T) : State := mkState Spawning source [] [] [] zero false.

Inductive Choice :=
| CSpawn
| CSpawned
| CCancel
| CAbort
| CMap (i : nat)
| CSend (i : nat)
| CDrop (i : nat)
| CReduce
| CFinish.

(** The result: the first recorded map error wins over the reduce error. *)
Definition result (errs : list E) (a : R) (reduceErr : option E) : Main :=
  match errs with e :: _ => Returned a (Some e) | [] => Returned a reduceErr end.

Definition set_workers (ws : list Worker) (s : State) : State :=
  mkState (main s) (todo s) ws (mapOutput s) (mapErrors s) (acc s) (cancelled s).

(** One step; [None] when the choice is blocked. *)
Definition step (c : Choice) (s : State) : option State :=
  match c, main s with
  | CSpawn, Spawning =>
      match todo s with
      | t :: ts =>
          if Z.of_nat (length (workers s)) <? concurrency options
          then Some (mkState Spawning ts (workers s ++ [Mapping t]) (mapOutput s) (mapErrors s) (acc s) (cancelled s))
          else None
      | [] => None
      end
  | CSpawned, Spawning =>
      match todo s with
      | [] => Some (mkState Reducing [] (workers s) (mapOutput s) (mapErrors s) (acc s) (cancelled s))
      | _ => None
      end
  | CCancel, _ => Some (mkState (main s) (todo s) (workers s) (mapOutput s) (mapErrors s) (acc s) true)
  | CAbort, Spawning =>
      match todo s with
      | _ :: _ =>
          if cancelled s
          then Some (mkState (Returned zero (Some ctx_Err)) (todo s) (workers s) (mapOutput s) (mapErrors s) (acc s) true)
          else None
      | [] => None
      end
  | CMap i, _ =>
      match workers s !! i with
      | Some (Mapping t) =>
          match mapFunc t with
          | Ok u => Some (set_workers (<[i := Sending u]> (workers s)) s)
          | Err e =>
              Some (mkState (main s) (todo s) (delete i (workers s)) (mapOutput s) (mapErrors s ++ [e]) (acc s) (cancelled s))
          end
      | _ => None
      end
  | CSend i, _ =>
      match workers s !! i with
      | Some (Sending u) =>
          if Z.of_nat (length (mapOutput s)) <? bufferSize options
          then Some (mkState (main s) (todo s) (delete i (workers s)) (mapOutput s ++ [u]) (mapErrors s) (acc s) (cancelled s))
          else None
      | _ => None
      end
  | CDrop i, _ =>
      match workers s !! i with
      | Some (Sending u) => if cancelled s then Some (set_workers (delete i (workers s)) s) else None
      | _ => None
      end
  | CReduce, Reducing =>
      match mapOutput s with
      | u :: us =>
          let '(a, e) := reduceFunc (acc s) u in
          Some (mkState (match e with Some _ => result (mapErrors s) a e | None => Reducing end)
                  (todo s) (workers s) us (mapErrors s) a (cancelled s))
      | [] => None
      end
  | CFinish, Reducing =>
      match mapOutput s, workers s with
      | [], [] => Some (mkState (result (mapErrors s) (acc s) None) (todo s) [] [] (mapErrors s) (acc s) (cancelled s))
      | _, _ => None
      end
  | _, _ => None
  end.

Fixpoint run (cs : list Choice) (s : State) : option State :=
  match cs with
  | [] => Some s
  | c :: cs => step c s ≫= run cs
  end.

(** ** Specification-side definitions *)

Definition out_of (t : T) : option U := match mapFunc t with Ok u => Some u | Err _ => None end.

Definition err_of (t : T) : option E := match mapFunc t with Err e => Some e | Ok _ => None end.

Definition outs_of (source : list T) : list U := omap out_of source.

Definition errs_of (source : list T) : list E := omap err_of source.

Definition worker_out (w : Worker) : option U :=
  match w with Sending u => Some u | Mapping t => out_of t end.

Definition worker_err (w : Worker) : option E :=
  match w with Sending _ => None | Mapping t => err_of t end.

(** Outcomes of the calls still to come. *)
Definition pending_outs (s : State) : list U := omap worker_out (workers s) ++ outs_of (todo s).

Definition pending_errs (s : State) : list E := omap worker_err (workers s) ++ errs_of (todo s).

(** A left fold of the reducer that stops at its first error. *)
Fixpoint reduce_all (a : R) (us : list U) : R * option E :=
  match us with
  | [] => (a, None)
  | u :: us =>
      match reduceFunc a u with
      | (a, None) => reduce_all a us
      | (a, Some e) => (a, Some e)
      end
  end.

(** What an uncancelled run has done: the values reduced so far, with those in
    the channel and those to come, are the mapped source in some order. *)
Definition books (source : list T) (s : State) : Prop :=
  mapErrors s ++ pending_errs s ≡ₚ errs_of source ∧ cancelled s = false ∧
  ∃ done, done ++ mapOutput s ++ pending_outs s ≡ₚ outs_of source ∧
    match main s with
    | Spawning => done = [] ∧ acc s = zero
    | Reducing => reduce_all zero done = (acc s, None) ∧ todo s = []
    | Returned r e =>
        (∃ re, reduce_all zero done = (r, re) ∧
           (re = None → mapOutput s = [] ∧ workers s = [] ∧ todo s = []) ∧
           (e = re ∧ (re = None → mapErrors s = []) ∨ ∃ e0, e = Some e0 ∧ e0 ∈ errs_of source))
    end.

(** Room: what is outstanding fits in the channel and the semaphore. *)
Definition roomy (s : State) : Prop :=
  Z.of_nat (length (workers s)) ≤ concurrency options ∧
  (main s = Spawning →
   Z.of_nat (length (todo s)) + Z.of_nat (length (workers s)) + Z.of_nat (length (mapOutput s)) ≤
     bufferSize options + concurrency options).

(** Steps left: every uncancelled step uses one up. *)
Definition work (s : State) : Z :=
  4 * Z.of_nat (length (todo s)) +
  sumZ (λ w, match w with Mapping _ => 3 | Sending _ => 2 end) (workers s) +
  Z.of_nat (length (mapOutput s)) +
  match main s with Spawning => 2 | Reducing => 1 | Returned _ _ => 0 end.

End MapReduce_.

Arguments State : clear implicits.
Arguments Worker : clear implicits.
Arguments Main : clear implicits.

#[export] Instance Choice_eq_dec : EqDecision Choice.
Proof. solve_decision. Defined.

(** ** The helpers that wait for their workers *)

(** The first error in the order of completion, as [sync.Once] keeps it. *)
Definition first_error {A E} (outcome : nat → option (res E A)) (order : list nat) : option E :=
  head (omap (λ i, match outcome i with Some (Err e) => Some e | _ => None end) order).

(** [Map]: workers end in the order [order]; each writes its own slot. *)
Definition Map {T U E} (zero : U) (f : T → res E U) (source : list T) (order : list nat)
    : list U * option E :=
  let outcome i := f <$> source !! i in
  (foldl (λ rs i, match outcome i with Some (Ok u) => <[i := u]> rs | _ => rs end)
     (replicate (length source) zero) order,
   first_error outcome order).

Definition Filter {T E} (f : T → res E bool) (source : list T) (order : list nat)
    : list T * option E :=
  let outcome i := f <$> source !! i in
  (omap (λ i, match source !! i, outcome i with Some t, Some (Ok true) => Some t | _, _ => None end) order,
   first_error outcome order).

Definition ForEach {T E} (f : T → res E unit) (source : list T) (order : list nat) : option E :=
  first_error (λ i, f <$> source !! i) order.

Definition FlatMap {T U E} (f : T → res E (list U)) (source : list T) (order : list nat)
    : res E (list U) :=
  let '(results, firstErr) := Map [] f source order in
  match firstErr with
  | Some e => Err e
  | None => Ok (mjoin results)
  end.

(** [Reduce] polls the context before every call: [cancelled i] is its answer. *)
Fixpoint Reduce {T R E} (ctx_Err : E) (cancelled : nat → bool) (f : R → T → R * option E)
    (i : nat) (source : list T) (acc : R) : R * option E :=
  match source with
  | [] => (acc, None)
  | t :: source =>
      if cancelled i then (acc, Some ctx_Err)
      else
        match f acc t with
        | (acc, Some e) => (acc, Some e)
        | (acc, None) => Reduce ctx_Err cancelled f (S i) source acc
        end
  end.

(** The cuts of [Partition]: the fuel is the length of the source. *)
Fixpoint chunks {T} (fuel : nat) (size : nat) (source : list T) : list (list T) :=
  match fuel, source with
  | S fuel, _ :: _ => take size source :: chunks fuel size (drop size source)
  | _, _ => []
  end.

Definition partition_size (size : Z) : Z := if size <=? 0 then 100 else size.

Definition Partition {T E} (size : Z) (f : list T → res E unit) (source : list T) (order : list nat)
    : option E :=
  ForEach f (chunks (length source) (Z.to_nat (partition_size size)) source) order.

(** A schedule that fills the channel and then the semaphore. *)
Definition clog (buffer conc : nat) : list Choice :=
  mjoin (replicate buffer [CSpawn; CMap 0; CSend 0]) ++
  mjoin ((λ i, [CSpawn; CMap i]) <$> seq 0 conc).

Definition sum_reduce (a u : Z) : Z * option unit := (a + u, None).

(** Every way a state could move without the caller's context being cancelled. *)
Definition moves {T U R E} (s : State T U R E) : list Choice :=
  [CSpawn; CSpawned; CAbort; CReduce; CFinish] ++
  mjoin ((λ i, [CMap i; CSend i; CDrop i]) <$> seq 0 (length (workers s))).

(** ** The books balance *)

Section Proofs.
Context {T U R E : Type} (mapFunc : T → res E U) (reduceFunc : R → U → R * option E)
  (zero : R) (ctx_Err : E) (options : Options).
#[local] Abbreviation step := (step mapFunc reduceFunc zero ctx_Err options).
#[local] Abbreviation run := (run mapFunc reduceFunc zero ctx_Err options).
#[local] Abbreviation books := (books mapFunc reduceFunc zero).

Lemma reduce_all_snoc a us u a' :
  reduce_all reduceFunc a us = (a', None) → reduce_all reduceFunc a (us ++ [u]) = reduceFunc a' u.
Proof.
  revert a. induction us as [|v us IH]; intros a Ha; simpl in *.
  - simplify_eq. by destruct (reduceFunc a' u) as [? []].
  - destruct (reduceFunc a v) as [b [e|]]; [done|]. by apply IH.
Qed.

(** The first recorded error is an error of the source. *)
Lemma result_spec source (s : State T U R E) (a : R) re :
  mapErrors s ++ pending_errs mapFunc s ≡ₚ errs_of mapFunc source →
  ∃ e, result (mapErrors s) a re = Returned a e ∧
    (e = re ∧ (re = None → mapErrors s = []) ∨ ∃ e0, e = Some e0 ∧ e0 ∈ errs_of mapFunc source).
Proof.
  intros Hp. destruct (mapErrors s) as [|e0 errs] eqn:Ee; simpl.
  - exists re. auto.
  - exists (Some e0). split; [done|]. right. exists e0. split; [done|]. rewrite <- Hp. left.
Qed.

Lemma outs_cons t ts : outs_of mapFunc (t :: ts) = option_list (out_of mapFunc t) ++ outs_of mapFunc ts.
Proof. unfold outs_of. simpl. by destruct (out_of mapFunc t). Qed.

Lemma errs_cons t ts : errs_of mapFunc (t :: ts) = option_list (err_of mapFunc t) ++ errs_of mapFunc ts.
Proof. unfold errs_of. simpl. by destruct (err_of mapFunc t). Qed.

(** Moves of the workers: what they hold, owe and have reported is conserved. *)
Lemma worker_step c s s' :
  match c with CMap _ | CSend _ | CSpawn => True | _ => False end → step c s = Some s' →
  mapErrors s' ++ pending_errs mapFunc s' ≡ₚ mapErrors s ++ pending_errs mapFunc s ∧
  mapOutput s' ++ pending_outs mapFunc s' ≡ₚ mapOutput s ++ pending_outs mapFunc s ∧
  main s' = main s ∧ acc s' = acc s ∧ cancelled s' = cancelled s ∧
  (todo s = [] → todo s' = []).
Proof.
  intros Hc Hs. unfold pending_errs, pending_outs.
  destruct c as [| | | |i|i| | |]; try done; simpl in Hs.
  - destruct (main s) eqn:Em; try done. destruct (todo s) as [|t ts]; [done|]. case_match; [|done].
    simplify_eq. cbn [workers todo mapErrors mapOutput main acc cancelled].
    rewrite !omap_app, outs_cons, errs_cons. simpl.
    destruct (out_of mapFunc t), (err_of mapFunc t); simpl; rewrite <- ?app_assoc; done.
  - destruct (workers s !! i) as [[t|u]|] eqn:Hi; try done.
    destruct (mapFunc t) as [u|e] eqn:Hf.
    + simplify_eq.
      simpl. rewrite (omap_insert_same (worker_err mapFunc) _ _ _ _ Hi) by (simpl; unfold err_of; by rewrite Hf).
      rewrite (omap_insert_same (worker_out mapFunc) _ _ _ _ Hi) by (simpl; unfold out_of; by rewrite Hf). done.
    + simplify_eq.
      simpl. rewrite (omap_delete_Permutation (worker_err mapFunc) _ _ _ Hi),
        (omap_delete_Permutation (worker_out mapFunc) _ _ _ Hi). simpl. unfold err_of, out_of. rewrite Hf. simpl.
      by rewrite <- app_assoc.
  - destruct (workers s !! i) as [[t|u]|] eqn:Hi; try done.
    destruct (Z.of_nat (length (mapOutput s)) <? bufferSize options); [|done].
    simplify_eq.
    simpl. rewrite (omap_delete_Permutation (worker_err mapFunc) _ _ _ Hi),
        (omap_delete_Permutation (worker_out mapFunc) _ _ _ Hi). simpl. by rewrite <- app_assoc.
Qed.

Lemma step_books source c s s' :
  c ≠ CCancel → books source s → step c s = Some s' → books source s'.
Proof.
  intros Hnc (He & Hc & done & Hd & Hm) Hs.
  destruct (match c with CMap _ | CSend _ | CSpawn => true | _ => false end) eqn:Hw.
  { destruct (worker_step c s s') as (He' & Hd' & Em & Ea & Ecan & Et); [by destruct c|done|].
    split; [by rewrite He'|]. split; [congruence|]. exists done. split; [by rewrite Hd'|].
    rewrite Em, Ea. destruct (main s) as [| |r e] eqn:Emain; [done| |].
    - destruct Hm. split; [done|auto].
    - destruct Hm as (re & Hre & Hnone & Hor). exists re. split; [done|].
      destruct re as [x|]; [split; [done|destruct Hor as [[-> _]|Hor]; [by left|by right]]|].
      destruct (Hnone eq_refl) as (_ & Hws & _).
      destruct c as [| | | |i|i| | |]; simpl in Hs; rewrite ?Emain, ?Hws, ?lookup_nil in Hs; done. }
  destruct c as [| | | |i|i|i| |]; try done; simpl in Hs.
  - destruct (main s) eqn:Em; try done. destruct (todo s) as [|t ts] eqn:Et; [|done]. simplify_eq.
    split; [|split; [done|]].
    + unfold pending_errs in *. simpl. by rewrite Et in He.
    + exists done. unfold pending_outs in *. simpl. rewrite Et in Hd. destruct Hm as [-> ->]. done.
  - destruct (main s); try done. destruct (todo s); [done|]. by rewrite Hc in Hs.
  - destruct (workers s !! i) as [[|]|]; try done. by rewrite Hc in Hs.
  - destruct (main s) eqn:Em; try done. destruct (mapOutput s) as [|u us] eqn:Eo; [done|].
    destruct Hm as [Hm Ht]. pose proof (reduce_all_snoc zero done u _ Hm) as Hr.
    destruct (reduceFunc (acc s) u) as [a e]. simplify_eq. split; [done|]. split; [done|].
    exists (done ++ [u]). split; [by rewrite <- Hd, <- app_assoc|]. cbn [main].
    destruct e as [x|]; [|done].
    destruct (result_spec source s a (Some x) He) as (e & -> & Hor). exists (Some x). split; [done|]. by split.
  - destruct (main s) eqn:Em; try done. destruct (mapOutput s) eqn:Eo; [|done].
    destruct (workers s) eqn:Ew; [|done]. destruct Hm as [Hm Ht]. simplify_eq.
    split; [unfold pending_errs in *; simpl; by rewrite Ew in He|]. split; [done|]. exists done.
    split; [unfold pending_outs in *; simpl; by rewrite Ew in Hd|]. cbn [main].
    destruct (result_spec source s (acc s) None He) as (e & -> & Hor). exists None. by rewrite Ht.
Qed.

Lemma run_books source cs s s' :
  CCancel ∉ cs → books source s → run cs s = Some s' → books source s'.
Proof.
  revert s. induction cs as [|c cs IH]; intros s Hnc Hb Hrun; simpl in Hrun; [by simplify_eq|].
  destruct (step c s) as [s1|] eqn:Es; [|done]. apply (IH s1); [set_solver| |done].
  eapply step_books; [|done|done]. set_solver.
Qed.

Lemma init_books source : books source (init zero source).
Proof. split; [done|]. split; [done|]. exists []. done. Qed.

(** ** Progress *)

Lemma step_work c s s' : c ≠ CCancel → step c s = Some s' → work s' < work s.
Proof.
  intros Hnc Hs. unfold work.
  destruct c as [| | | |i|i|i| |]; try done; simpl in Hs.
  - destruct (main s) eqn:Em; try done. destruct (todo s); [done|]. case_match; [|done]. simplify_eq.
    cbn [workers todo mapErrors mapOutput main]. rewrite sumZ_app. simpl. lia.
  - destruct (main s) eqn:Em; try done. destruct (todo s); [|done]. simplify_eq. simpl. lia.
  - destruct (main s) eqn:Em; try done. destruct (todo s); [done|]. destruct (cancelled s); [|done].
    simplify_eq. simpl. lia.
  - destruct (workers s !! i) as [[t|]|] eqn:Hi; try done. destruct (mapFunc t).
    + simplify_eq.
      simpl. rewrite (sumZ_insert _ _ _ _ _ Hi). lia.
    + simplify_eq.
      simpl. rewrite (sumZ_delete _ _ _ _ Hi). lia.
  - destruct (workers s !! i) as [[|u]|] eqn:Hi; try done.
    destruct (_ <? _); [|done].
    simplify_eq.
    simpl. rewrite (sumZ_delete _ _ _ _ Hi), length_app. simpl. lia.
  - destruct (workers s !! i) as [[|u]|] eqn:Hi; try done.
    destruct (cancelled s); [|done].
    simplify_eq.
    simpl. rewrite (sumZ_delete _ _ _ _ Hi). lia.
  - destruct (main s) eqn:Em; try done. destruct (mapOutput s); [done|].
    destruct (reduceFunc (acc s) u) as [a [e|]]; simplify_eq; simpl; [|lia].
    destruct (mapErrors s); simpl; lia.
  - destruct (main s) eqn:Em; try done. destruct (mapOutput s); [|done]. destruct (workers s); [|done].
    simplify_eq. simpl. destruct (mapErrors s); simpl; lia.
Qed.

Lemma work_nonneg (s : State T U R E) : 0 ≤ work s.
Proof.
  unfold work. assert (0 ≤ sumZ (λ w : Worker T U, match w with Mapping _ => 3 | Sending _ => 2 end) (workers s)).
  { induction (workers s) as [|[]]; simpl; lia. }
  case_match; lia.
Qed.

Lemma step_roomy c s s' : roomy options s → step c s = Some s' → roomy options s'.
Proof.
  intros [Hw Hr] Hs. unfold roomy.
  destruct c as [| | | |i|i|i| |]; simpl in Hs.
  - destruct (main s) eqn:Em; try done. destruct (todo s) eqn:Et; [done|].
    destruct (Z.ltb_spec (Z.of_nat (length (workers s))) (concurrency options)); [|done]. simplify_eq. simpl in *.
    rewrite length_app. simpl. specialize (Hr eq_refl). lia.
  - destruct (main s) eqn:Em; try done. destruct (todo s); [|done]. by simplify_eq.
  - by simplify_eq.
  - destruct (main s) eqn:Em; try done. destruct (todo s); [done|]. destruct (cancelled s); by simplify_eq.
  - destruct (workers s !! i) as [[t|]|] eqn:Hi; try done. pose proof (lookup_lt_Some _ _ _ Hi).
    destruct (mapFunc t); simplify_eq; simpl; rewrite ?length_insert, ?length_delete by done; [done|].
    split; [lia|]. intros Em. specialize (Hr Em). lia.
  - destruct (workers s !! i) as [[|u]|] eqn:Hi; try done. destruct (_ <? _); [|done]. simplify_eq. simpl.
    pose proof (lookup_lt_Some _ _ _ Hi). rewrite length_app, length_delete by done. simpl.
    split; [lia|]. intros Em. specialize (Hr Em). lia.
  - destruct (workers s !! i) as [[|u]|] eqn:Hi; try done. destruct (cancelled s); [|done]. simplify_eq. simpl.
    pose proof (lookup_lt_Some _ _ _ Hi). rewrite length_delete by done.
    split; [lia|]. intros Em. specialize (Hr Em). lia.
  - destruct (main s) eqn:Em; try done. destruct (mapOutput s); [done|].
    destruct (reduceFunc (acc s) u) as [a [e|]]; simplify_eq; simpl; [|done].
    split; [done|]. by destruct (mapErrors s).
  - destruct (main s) eqn:Em; try done. destruct (mapOutput s); [|done]. destruct (workers s); [|done].
    simplify_eq. simpl. split; [lia|]. by destruct (mapErrors s).
Qed.

Lemma run_roomy cs s s' : roomy options s → run cs s = Some s' → roomy options s'.
Proof.
  revert s. induction cs as [|c cs IH]; intros s Hb Hrun; simpl in Hrun; [by simplify_eq|].
  destruct (step c s) as [s1|] eqn:Es; [|done]. apply (IH s1); [|done]. by eapply step_roomy.
Qed.

(** A worker can map, or send if the channel has room. *)
Lemma worker_progress s :
  workers s ≠ [] →
  Z.of_nat (length (mapOutput s)) < bufferSize options ∨ (∃ i t, workers s !! i = Some (Mapping t)) →
  ∃ c s', c ≠ CCancel ∧ step c s = Some s'.
Proof.
  intros Hne [Hroom|(i & t & Hi)].
  - destruct (workers s) as [|[t|u] ws] eqn:Ew; [done| |].
    + exists (CMap 0). simpl. rewrite Ew. simpl. destruct (mapFunc t); eauto.
    + exists (CSend 0). simpl. rewrite Ew. simpl.
      replace (Z.of_nat (length (mapOutput s)) <? bufferSize options) with true by zlia. eauto.
  - exists (CMap i). simpl. rewrite Hi. destruct (mapFunc t); eauto.
Qed.

Lemma all_sending (ws : list (Worker T U)) :
  (∃ i t, ws !! i = Some (Mapping t)) ∨ Forall (λ w, ∃ u, w = Sending u) ws.
Proof.
  induction ws as [|[t|u] ws IH]; [by right|left; by exists 0%nat, t|].
  destruct IH as [(i & t & Hi)|IH]; [left; by exists (S i), t|right]. constructor; eauto.
Qed.

Lemma progress s :
  options_ok options → roomy options s → (∀ r e, main s ≠ Returned r e) →
  ∃ c s', c ≠ CCancel ∧ step c s = Some s'.
Proof.
  intros [HC HB] [Hw Hr] Hnr. destruct (main s) as [| |r e] eqn:Em; [| |by destruct (Hnr r e)].
  - destruct (todo s) as [|t ts] eqn:Et; [exists CSpawned; simpl; rewrite Em, Et; eauto|].
    destruct (Z.lt_ge_cases (Z.of_nat (length (workers s))) (concurrency options)) as [Hlt|Hge].
    { exists CSpawn. simpl. rewrite Em, Et.
      replace (Z.of_nat (length (workers s)) <? concurrency options) with true by zlia. eauto. }
    apply worker_progress; [intros E0; rewrite E0 in Hge; simpl in Hge; lia|].
    left. specialize (Hr eq_refl). simpl in Hr. lia.
  - destruct (mapOutput s) as [|u us] eqn:Eo.
    + destruct (workers s) as [|w ws] eqn:Ew; [exists CFinish; simpl; rewrite Em, Eo, Ew; eauto|].
      apply worker_progress; [by rewrite Ew|]. left. rewrite Eo. simpl. lia.
    + exists CReduce. simpl. rewrite Em, Eo. destruct (reduceFunc (acc s) u). eauto.
Qed.

(** From a roomy state some schedule returns. *)
Lemma finishes s :
  options_ok options → roomy options s →
  ∃ cs s' r e, CCancel ∉ cs ∧ run cs s = Some s' ∧ main s' = Returned r e.
Proof.
  intros Hok. remember (Z.to_nat (work s)) as n eqn:En. revert s En.
  induction (lt_wf n) as [n _ IH]; intros s -> Hr.
  destruct (main s) as [| |r e] eqn:Em.
  3: { exists [], s, r, e. split; [set_solver|done]. }
  all: destruct (progress s Hok Hr) as (c & s1 & Hc & Hs); [by rewrite Em|].
  all: pose proof (step_work c s s1 Hc Hs); pose proof (work_nonneg s1).
  all: destruct (IH (Z.to_nat (work s1)) ltac:(lia) s1 eq_refl (step_roomy _ _ _ Hr Hs)) as (cs & s' & r & e & Hcs & Hrun & Hm).
  all: exists (c :: cs), s', r, e; split; [set_solver|split; [|done]]; simpl; by rewrite Hs.
Qed.

Lemma run_work cs s s' : CCancel ∉ cs → run cs s = Some s' → work s' + Z.of_nat (length cs) ≤ work s.
Proof.
  revert s. induction cs as [|c cs IH]; intros s Hnc Hrun; simpl in Hrun; [simplify_eq; simpl; lia|].
  destruct (step c s) as [s1|] eqn:Es; [|done]. pose proof (step_work c s s1 ltac:(set_solver) Es).
  specialize (IH s1 ltac:(set_solver) Hrun). cbn [length]. lia.
Qed.

(** ** Properties *)

(** What [MapReduce] returns, whatever the schedule: without an error, no
    map failed and the result is the fold of the reducer over the mapped source
    in some order; with one, it is an error of some map, or of the reducer at
    the end of a fold over mapped values. *)
Theorem mapreduce_result source cs s r e :
  CCancel ∉ cs → run cs (init zero source) = Some s → main s = Returned r e →
  match e with
  | None => errs_of mapFunc source = [] ∧
      ∃ us, us ≡ₚ outs_of mapFunc source ∧ reduce_all reduceFunc zero us = (r, None)
  | Some x => x ∈ errs_of mapFunc source ∨
      ∃ us rest, us ++ rest ≡ₚ outs_of mapFunc source ∧ reduce_all reduceFunc zero us = (r, Some x)
  end.
Proof.
  intros Hnc Hrun Hm. destruct (run_books source cs _ _ Hnc (init_books source) Hrun) as (He & _ & us & Hus & Hr).
  rewrite Hm in Hr. destruct Hr as (re & Hre & Hnone & Hor). destruct e as [x|].
  - destruct Hor as [[<- _]|(e0 & [= <-] & Hin)]; [right|by left]. by exists us, (mapOutput s ++ pending_outs mapFunc s).
  - destruct Hor as [[<- Hme]|(e0 & ? & ?)]; [|done]. destruct (Hnone eq_refl) as (Ho & Hw & Ht).
    specialize (Hme eq_refl). unfold pending_errs, pending_outs in *. rewrite Hme, Hw, Ht in He.
    simpl in He. apply Permutation_nil in He. split; [done|]. exists us. split; [|done].
    rewrite <- Hus, Ho, Hw, Ht. simpl. by rewrite app_nil_r.
Qed.

(** C27. [MapReduce] returns, provided the source is no longer than the channel's
    buffer and the semaphore together: no schedule takes more than four steps
    per item and two more, and none gets stuck, whatever the callbacks answer. *)
Theorem mapreduce_terminates source cs s :
  options_ok options → Z.of_nat (length source) ≤ bufferSize options + concurrency options →
  CCancel ∉ cs → run cs (init zero source) = Some s →
  Z.of_nat (length cs) ≤ 4 * Z.of_nat (length source) + 2 ∧
  (∃ cs' s' r e, CCancel ∉ cs' ∧ run cs' s = Some s' ∧ main s' = Returned r e) ∧
  ((∀ r e, main s ≠ Returned r e) → ∃ c s', c ≠ CCancel ∧ step c s = Some s').
Proof.
  intros Hok Hlen Hnc Hrun. pose proof (run_work cs _ _ Hnc Hrun) as Hwork. pose proof (work_nonneg s) as H0.
  assert (roomy options (init (U := U) (E := E) zero source)) as Hr0.
  { destruct Hok. split; simpl; [lia|]. intros _. lia. }
  pose proof (run_roomy _ _ _ Hr0 Hrun) as Hr. split; [|split].
  - unfold work in Hwork at 2. simpl in Hwork. lia.
  - by apply finishes.
  - by apply progress.
Qed.

End Proofs.

Lemma mapreduce_result_witness :
  errs_of (U := Z) (E := unit) (λ z, Ok (z * z)) [1; 2; 3] = [] ∧
  ∃ us, us ≡ₚ outs_of (E := unit) (λ z, Ok (z * z)) [1; 2; 3] ∧ reduce_all sum_reduce 0 us = (14, None).
Proof.
  apply (mapreduce_result (λ z, Ok (z * z)) sum_reduce 0 tt (mkOptions 2 2) [1; 2; 3]
    [CSpawn; CSpawn; CMap 1; CSend 1; CSpawn; CSpawned; CReduce; CMap 1; CSend 1; CMap 0; CReduce; CSend 0; CReduce; CFinish]
    (mkState (Returned 14 None) [] [] [] [] 14 false) 14 None).
  - apply (bool_decide_unpack _). vm_compute. exact I.
  - vm_compute. reflexivity.
  - reflexivity.
Defined.

Lemma mapreduce_terminates_witness :
  ∃ cs' s' r e, CCancel ∉ cs' ∧
    run (λ z, Ok (z * z)) sum_reduce 0 tt (mkOptions 1 1) cs' (init 0 [1; 2]) = Some s' ∧ main s' = Returned r e.
Proof.
  apply (mapreduce_terminates (λ z, Ok (z * z)) sum_reduce 0 tt (mkOptions 1 1) [1; 2] [] (init 0 [1; 2])).
  - split; reflexivity.
  - vm_compute. discriminate.
  - apply (bool_decide_unpack _). vm_compute. exact I.
  - reflexivity.
Defined.

(** ** The waiting helpers *)

Lemma foldl_slots {U E} (outcome : nat → option (res E U)) order rs i u :
  i ∈ order → outcome i = Some (Ok u) → (i < length rs)%nat →
  foldl (λ rs i, match outcome i with Some (Ok u) => <[i := u]> rs | _ => rs end) rs order !! i = Some u.
Proof.
  intros Hin Hu Hlt. induction order as [|j order IH] using rev_ind; [set_solver|].
  rewrite foldl_snoc.
  assert (length (foldl (λ rs i, match outcome i with Some (Ok u) => <[i := u]> rs | _ => rs end) rs order) = length rs) as El.
  { clear. revert rs. induction order as [|k order IH]; intros rs; [done|]. simpl. rewrite IH.
    repeat case_match; try done. apply length_insert. }
  destruct (decide (j = i)) as [->|Hne].
  - rewrite Hu, list_lookup_insert_eq; [done|lia].
  - destruct (outcome j) as [[v|]|]; [rewrite list_lookup_insert_ne by done| |]; apply IH; set_solver.
Qed.

Lemma foldl_slots_length {U E} (outcome : nat → option (res E U)) order rs :
  length (foldl (λ rs i, match outcome i with Some (Ok u) => <[i := u]> rs | _ => rs end) rs order) = length rs.
Proof.
  revert rs. induction order as [|k order IH]; intros rs; [done|]. simpl. rewrite IH.
  repeat case_match; try done. apply length_insert.
Qed.

Lemma first_error_spec {T U E} (f : T → res E U) source order :
  order ≡ₚ seq 0 (length source) →
  match first_error (λ i, f <$> source !! i) order with
  | None => errs_of f source = []
  | Some e => e ∈ errs_of f source
  end.
Proof.
  intros Hord. unfold first_error, errs_of. set (g := λ i, match f <$> source !! i with Some (Err e) => Some e | _ => None end).
  destruct (head (omap g order)) as [e|] eqn:Eh.
  - apply head_Some_elem_of, list_elem_of_omap in Eh as (i & _ & Hi). unfold g in Hi.
    destruct (source !! i) as [t|] eqn:Et; [|done]. simpl in Hi. destruct (f t) eqn:Ef; simplify_eq.
    apply list_elem_of_omap. exists t. split; [by eapply list_elem_of_lookup_2|]. unfold err_of. by rewrite Ef.
  - apply head_None in Eh. destruct (omap (err_of f) source) as [|e es] eqn:Ee; [done|].
    assert (e ∈ omap (err_of f) source) as (t & Ht & He)%list_elem_of_omap by (rewrite Ee; left).
    apply list_elem_of_lookup in Ht as [i Hi]. unfold err_of in He. destruct (f t) eqn:Ef; [done|]. simplify_eq.
    assert (e ∈ omap g order) as Hin; [|rewrite Eh in Hin; set_solver].
    apply list_elem_of_omap. exists i. rewrite Hord, elem_of_seq. unfold g. rewrite Hi. simpl. rewrite Ef.
    split; [|done]. apply lookup_lt_Some in Hi. lia.
Qed.

Lemma errs_nil {T U E} (f : T → res E U) source t :
  errs_of f source = [] → t ∈ source → ∃ u, f t = Ok u.
Proof.
  intros He Ht. destruct (f t) as [u|e] eqn:Ef; [by exists u|].
  assert (e ∈ errs_of f source) as Hin; [|rewrite He in Hin; set_solver].
  apply list_elem_of_omap. exists t. split; [done|]. unfold err_of. by rewrite Ef.
Qed.

Lemma outs_lookup {T U E} (f : T → res E U) source :
  errs_of f source = [] → f <$> source = Ok <$> outs_of f source.
Proof.
  unfold errs_of, outs_of. induction source as [|t source IH]; [done|]. simpl. unfold err_of at 1, out_of at 1.
  destruct (f t); [|done]. intros He. simpl. f_equal. by apply IH.
Qed.

(** A worker per index sees every element once. *)
Lemma omap_seq_lookup {A B} (h : A → option B) (l : list A) :
  omap (λ i, l !! i ≫= h) (seq 0 (length l)) = omap h l.
Proof.
  induction l as [|a l IH]; [done|].
  assert (∀ k : list nat, omap (λ i, (a :: l) !! i ≫= h) (S <$> k) = omap (λ i, l !! i ≫= h) k) as E.
  { induction k as [|i k IHk]; [done|]. rewrite fmap_cons. cbn. by rewrite IHk. }
  change (seq 0 (length (a :: l))) with (0%nat :: seq 1 (length l)). rewrite <- fmap_S_seq.
  change (omap (λ i : nat, (a :: l) !! i ≫= h) (0%nat :: (S <$> seq 0 (length l))))
    with (match h a with Some b => b :: omap (λ i : nat, (a :: l) !! i ≫= h) (S <$> seq 0 (length l))
          | None => omap (λ i : nat, (a :: l) !! i ≫= h) (S <$> seq 0 (length l)) end).
  by rewrite E, IH.
Qed.

Lemma mjoin_chunks {T} fuel size (source : list T) :
  (0 < size)%nat → (length source ≤ fuel)%nat →
  mjoin (chunks fuel size source) = source ∧
  Forall (λ c, (0 < length c ≤ size)%nat) (chunks fuel size source).
Proof.
  intros Hs. revert source. induction fuel as [|fuel IH]; intros [|t source] Hl; try by split; [|constructor].
  { simpl in Hl. lia. }
  simpl in Hl. cbn [chunks].
  destruct (IH (drop size (t :: source))) as [Ej Hall].
  { rewrite length_drop. simpl. lia. }
  split; [change (take size (t :: source) ++ mjoin (chunks fuel size (drop size (t :: source))) = t :: source);
          rewrite Ej; apply take_drop|]. constructor; [|done]. rewrite length_take. simpl. lia.
Qed.

Lemma Map_spec {T U E} (zero : U) (f : T → res E U) source order :
  order ≡ₚ seq 0 (length source) →
  match errs_of f source with
  | [] => Map zero f source order = (outs_of f source, None)
  | _ => ∃ e, e ∈ errs_of f source ∧ (Map zero f source order).2 = Some e
  end.
Proof.
  intros Hord. pose proof (first_error_spec f source order Hord) as He. unfold Map.
  destruct (errs_of f source) as [|e es] eqn:Ee.
  - destruct (first_error _ _) as [e|]; [set_solver|]. f_equal. apply list_eq. intros i.
    pose proof (outs_lookup f source Ee) as Ho.
    assert (Ok (E := E) <$> outs_of f source !! i = f <$> source !! i) as Hi by (by rewrite <- !list_lookup_fmap, Ho).
    destruct (outs_of f source !! i) as [u|] eqn:Eu; simpl in Hi.
    + apply (foldl_slots (λ i, f <$> source !! i)); [|by symmetry|].
      * rewrite Hord, elem_of_seq. destruct (source !! i) eqn:Et; [|done]. apply lookup_lt_Some in Et. lia.
      * rewrite length_replicate. destruct (source !! i) eqn:Et; [|done]. by apply lookup_lt_Some in Et.
    + apply lookup_ge_None_2. rewrite foldl_slots_length, length_replicate.
      destruct (source !! i) eqn:Et; [done|]. by apply lookup_ge_None.
  - destruct (first_error _ _) as [e'|]; [by exists e'|done].
Qed.

(** [Map] and [FlatMap] do not depend on the order in which workers end:
    with no failing call the results stand in the order of the source, and
    otherwise the error returned is one of the calls'. *)
Theorem map_keeps_order {T U E} (zero : U) (f : T → res E U) (g : T → res E (list U)) source order :
  order ≡ₚ seq 0 (length source) →
  match errs_of f source with
  | [] => Map zero f source order = (outs_of f source, None)
  | _ => ∃ e, e ∈ errs_of f source ∧ (Map zero f source order).2 = Some e
  end ∧
  match errs_of g source with
  | [] => FlatMap g source order = Ok (mjoin (outs_of g source))
  | _ => ∃ e, e ∈ errs_of g source ∧ FlatMap g source order = Err e
  end.
Proof.
  intros Hord. split; [by apply Map_spec|]. pose proof (Map_spec [] g source order Hord) as Hg.
  unfold FlatMap. destruct (errs_of g source) as [|e es] eqn:Ee; [by rewrite Hg|].
  destruct Hg as (e' & Hin & He). exists e'. split; [done|].
  destruct (Map [] g source order) as [rs fe]. simpl in He. by subst.
Qed.

Lemma map_keeps_order_witness :
  Map (E := unit) 0 (λ z, Ok (z * z)) [1; 2; 3] [2; 0; 1]%nat = ([1; 4; 9], None).
Proof.
  apply (map_keeps_order (E := unit) 0 (λ z, Ok (z * z)) (λ z, Ok [z]) [1; 2; 3] [2; 0; 1]%nat).
  apply (bool_decide_unpack _). vm_compute. exact I.
Defined.

(** [Filter] keeps exactly the accepted elements, up to the order in which
    workers end, and [Partition] cuts the source into consecutive non-empty
    pieces of at most the requested size (100 when it is not positive) and
    reports an error exactly when some piece fails. *)
Theorem filter_and_partition {T E} (p : T → bool) (f : list T → res E unit) (source : list T) size order porder :
  order ≡ₚ seq 0 (length source) →
  let pieces := chunks (length source) (Z.to_nat (partition_size size)) source in
  porder ≡ₚ seq 0 (length pieces) →
  (let '(kept, err) := Filter (E := E) (λ t, Ok (p t)) source order in
   kept ≡ₚ filter (λ t, p t = true) source ∧ err = None) ∧
  mjoin pieces = source ∧
  Forall (λ c, 0 < Z.of_nat (length c) ≤ partition_size size) pieces ∧
  match Partition size f source porder with
  | None => ∀ c, c ∈ pieces → f c = Ok tt
  | Some e => ∃ c, c ∈ pieces ∧ f c = Err e
  end.
Proof.
  intros Hord pieces Hpord.
  assert (0 < partition_size size) as Hs by (unfold partition_size; case_match; lia).
  destruct (mjoin_chunks (length source) (Z.to_nat (partition_size size)) source) as [Hj Hall]; [lia|done|].
  split; [|split; [done|split]].
  - unfold Filter. split.
    + rewrite Hord.
      trans (omap (λ i, source !! i ≫= λ t, if p t then Some t else None) (seq 0 (length source))).
      * apply reflexive_eq, list_omap_ext, Forall2_same_length_lookup_2; [done|].
        intros i x y Hx Hy. simplify_eq. destruct (source !! x); [|done]. simpl. by destruct (p t).
      * rewrite omap_seq_lookup. clear. induction source as [|t source IH]; [done|]. simpl.
        rewrite filter_cons. destruct (p t) eqn:Ep; case_decide; try done. by rewrite IH.
    + pose proof (first_error_spec (λ t, Ok (E := E) (p t)) source order Hord) as He.
      destruct (first_error _ _) as [e|]; [|done].
      apply list_elem_of_omap in He as (t & _ & Ht). done.
  - eapply Forall_impl; [exact Hall|]. simpl. lia.
  - unfold Partition, ForEach. fold pieces. pose proof (first_error_spec f pieces porder Hpord) as He.
    destruct (first_error _ _) as [e|].
    + apply list_elem_of_omap in He as (c & Hc & Hf). exists c. split; [done|]. unfold err_of in Hf.
      destruct (f c); congruence.
    + intros c Hc. by destruct (errs_nil f pieces c He Hc) as [[] ?].
Qed.

Lemma filter_and_partition_witness :
  mjoin (chunks 5 2 [1; 2; 3; 4; 5]) = [1; 2; 3; 4; 5] ∧
  Forall (λ c : list Z, 0 < Z.of_nat (length c) ≤ 2) (chunks 5 2 [1; 2; 3; 4; 5]).
Proof.
  destruct (filter_and_partition (E := unit) Z.even (λ _, Ok tt) [1; 2; 3; 4; 5] 2 [4; 3; 2; 1; 0]%nat [1; 0; 2]%nat)
    as (_ & H1 & H2 & _).
  - apply (bool_decide_unpack _). vm_compute. exact I.
  - apply (bool_decide_unpack _). vm_compute. exact I.
  - split; [exact H1|exact H2].
Defined.

(** The workers are only drained after the last of them is spawned: with the
    default options and 1017 items the main loop, the semaphore and the channel
    block one another. *)
Lemma default_options_deadlock :
  let step := step (λ z, Ok z) sum_reduce 0 tt (applyOptions []) in
  match run (λ z, Ok z) sum_reduce 0 tt (applyOptions []) (clog 1000 16) (init 0 (seqZ 0 1017)) with
  | Some s => forallb (λ c, match step c s with None => true | Some _ => false end) (moves s)
  | None => false
  end = true.
Proof. vm_compute. reflexivity. Qed.

End MapReduce.
