(* ===== verification/Results.v ===== *)
(** * Responses and handler wrappers (src/code.go, src/types.go, src/error.go,
    src/wrapper.go)

    Result codes and constructors, pagination, and the four wrappers that turn
    a business function into a gin handler.  Session lookup and parameter
    binding are what the wrappers are given: their answers are arguments. *)

From S2P Require Import Prelude.

Module Results.

(** ** Errors as [errors.Is] sees them *)

Inductive Sentinel :=
| ErrNoResponse | ErrUnauthorized | ErrSessionNotFound | ErrSessionExpired | ErrInvalidToken.

#[export] Instance Sentinel_eq_dec : EqDecision Sentinel.
Proof. solve_decision. Defined.

(** A sentinel, an error of no interest, or a wrapping of other errors. *)
Inductive GoError :=
| Is (s : Sentinel)
| Opaque (msg : string)
| Wrap (msg : string) (inner : list GoError).

Fixpoint errors_Is (e : GoError) (s : Sentinel) : bool :=
  match e with
  | Is s' => bool_decide (s' = s)
  | Opaque _ => false
  | Wrap _ es => existsb (λ e, errors_Is e s) es
  end.

(** ** Codes *)

Definition CodeSuccess : Z := 0.

Definition CodeWarning : Z := 1.

Definition CodeError : Z := 2.

Definition CodeInvalidParam : Z := 10000.

Definition CodeInternalError : Z := 20000.

Definition CodeUnauthorized : Z := 20001.

Definition CodeForbidden : Z := 20003.

Definition CodeNotFound : Z := 20004.

Definition CodeConflict : Z := 20005.

Definition CodeTooManyRequests : Z := 20006.

Definition CodeServiceUnavailable : Z := 20007.

Definition CodeMessage : gmap Z string := list_to_map [
  (CodeSuccess, "成功"); (CodeWarning, "警告"); (CodeError, "错误");
  (CodeInvalidParam, "参数错误"); (CodeInternalError, "系统繁忙"); (CodeUnauthorized, "未授权");
  (CodeForbidden, "没有权限"); (CodeNotFound, "资源不存在"); (CodeConflict, "资源冲突");
  (CodeTooManyRequests, "请求过于频繁"); (CodeServiceUnavailable, "服务不可用")].

Definition GetCodeMessage (code : Z) : string :=
  match CodeMessage !! code with
  | Some msg => msg
  | None =>
      if code =? 0 then "成功" else if code =? 1 then "警告" else if code =? 2 then "错误"
      else "未知错误"
  end.

(** ** Results *)

(** [Data] is any value; [None] is nil. *)
Record Result (D : Type) := mkResult { Code : Z; Msg : string; Data : option D }.
Arguments mkResult {D} _ _ _.
Arguments Code {D} _.
Arguments Msg {D} _.
Arguments Data {D} _.

Definition or_else (msg dflt : string) : string := if decide (msg = "") then dflt else msg.

Section Constructors.
Context {D : Type}.

Definition Success (msg : string) (data : option D) : Result D :=
  mkResult CodeSuccess (or_else msg "成功") data.

Definition Warning (msg : string) (data : option D) : Result D :=
  mkResult CodeWarning (or_else msg "警告") data.

Definition Error (msg : string) : Result D := mkResult CodeError (or_else msg "错误") None.

Definition ErrorWithCode (code : Z) (msg : string) : Result D :=
  mkResult code (or_else msg (GetCodeMessage code)) None.

Definition InvalidParam (msg : string) : Result D :=
  mkResult CodeInvalidParam (or_else msg (GetCodeMessage CodeInvalidParam)) None.

Definition InternalError : Result D :=
  mkResult CodeInternalError (GetCodeMessage CodeInternalError) None.

Definition Unauthorized : Result D :=
  mkResult CodeUnauthorized (GetCodeMessage CodeUnauthorized) None.

Definition Forbidden : Result D := mkResult CodeForbidden (GetCodeMessage CodeForbidden) None.

Definition NotFound (msg : string) : Result D :=
  mkResult CodeNotFound (or_else msg (GetCodeMessage CodeNotFound)) None.

Definition Conflict (msg : string) : Result D :=
  mkResult CodeConflict (or_else msg (GetCodeMessage CodeConflict)) None.

Definition TooManyRequests : Result D :=
  mkResult CodeTooManyRequests (GetCodeMessage CodeTooManyRequests) None.

Definition ServiceUnavailable : Result D :=
  mkResult CodeServiceUnavailable (GetCodeMessage CodeServiceUnavailable) None.

(** ** Handlers *)

(** What reaches the client: nothing from here, an abort, or a JSON body. *)
Inductive Reply :=
| NoReply
| AbortWithStatus (status : Z)
| JSON (status : Z) (body : Result D).

Definition handleResponse (r : Result D) (err : option GoError) : Reply :=
  match err with
  | None => JSON 200 r
  | Some e =>
      if errors_Is e ErrNoResponse then NoReply
      else if errors_Is e ErrUnauthorized then AbortWithStatus 401
      else
        let r :=
          if Code r =? 0 then InternalError
          else mkResult (Code r) (or_else (Msg r) (GetCodeMessage (Code r))) None in
        JSON 200 r
  end.

(** The wrappers: a handler's reply and whether the business function ran. *)
Definition W (fn : Result D * option GoError) : Reply * bool :=
  (handleResponse fn.1 fn.2, true).

Context {Req Sess : Type}.

(** [bind] is the outcome of [ShouldBind]. *)
Definition B (bind : res GoError Req) (fn : Req → Result D * option GoError) : Reply * bool :=
  match bind with
  | Err _ => (JSON 400 (InvalidParam "参数错误"), false)
  | Ok req => let '(r, err) := fn req in (handleResponse r err, true)
  end.

(** [get] is the outcome of [session.Get]; the user context that the session
    may put in the context of the request is part of [fn]. *)
Definition S_ (get : res GoError Sess) (fn : Sess → Result D * option GoError) : Reply * bool :=
  match get with
  | Err _ => (AbortWithStatus 401, false)
  | Ok sess => let '(r, err) := fn sess in (handleResponse r err, true)
  end.

Definition BS (get : res GoError Sess) (bind : res GoError Req)
    (fn : Req → Sess → Result D * option GoError) : Reply * bool :=
  match get with
  | Err _ => (AbortWithStatus 401, false)
  | Ok sess =>
      match bind with
      | Err _ => (JSON 400 (InvalidParam "参数错误"), false)
      | Ok req => let '(r, err) := fn req sess in (handleResponse r err, true)
      end
  end.

End Constructors.
Arguments Reply : clear implicits.

(** ** Pagination *)

Record PageRequest := mkPage { Page : Z; Size : Z }.

Definition Validate (p : PageRequest) : PageRequest :=
  let page := if Page p <? 1 then 1 else Page p in
  let size := if Size p <? 1 then 10 else Size p in
  let size := if 100 <? size then 100 else size in
  mkPage page size.

Definition Offset (p : PageRequest) : Z := i64 (i64 (Page p - 1) * Size p).

Record PageData (A : Type) := mkPageData { List_ : list A; Total : Z; PPage : Z; PSize : Z }.

(** A page of a list, as a store that skips [Offset] rows and returns [Size]. *)
Definition page_of {A} (p : PageRequest) (rows : list A) : list A :=
  take (Z.to_nat (Size p)) (drop (Z.to_nat (Offset p)) rows).

(** Pages [1] to [n] of a size, one after the other. *)
Definition pages {A} (size : Z) (n : nat) (rows : list A) : list A :=
  mjoin ((λ k, page_of (mkPage (Z.of_nat k) size) rows) <$> seq 1 n).

(** ** Lemmas *)

Lemma or_else_nonempty msg dflt : dflt ≠ "" → or_else msg dflt ≠ "".
Proof. intros H. unfold or_else. by case_decide. Qed.

Lemma GetCodeMessage_nonempty code : GetCodeMessage code ≠ "".
Proof.
  unfold GetCodeMessage. destruct (CodeMessage !! code) as [msg|] eqn:E.
  - apply elem_of_list_to_map_2 in E. intros ->.
    repeat (apply elem_of_cons in E as [[=]|E]). set_solver.
  - by repeat case_match.
Qed.

Lemma Offset_exact p : 1 ≤ Page p < 2 ^ 56 → 1 ≤ Size p ≤ 100 → Offset p = (Page p - 1) * Size p.
Proof.
  intros Hp Hs. unfold Offset. rewrite (i64_id (Page p - 1)) by word.
  assert (0 ≤ (Page p - 1) * Size p ≤ 2 ^ 56 * 100) as H by nia. apply i64_id. word.
Qed.

Lemma pages_take {A} size n (rows : list A) :
  1 ≤ size ≤ 100 → Z.of_nat n < 2 ^ 55 → pages size n rows = take (n * Z.to_nat size) rows.
Proof.
  intros Hs. unfold pages. induction n as [|n IH]; intros Hn; [done|].
  rewrite seq_S, fmap_app, join_app, IH by lia. cbn [fmap list_fmap mjoin list_join app]. rewrite app_nil_r.
  unfold page_of. cbn [Nat.add].
  rewrite Offset_exact by (simpl; lia). cbn [Size Page].
  replace (Z.to_nat ((Z.of_nat (S n) - 1) * size)) with (n * Z.to_nat size)%nat by nia.
  replace (S n * Z.to_nat size)%nat with (n * Z.to_nat size + Z.to_nat size)%nat by lia.
  apply take_take_drop.
Qed.

(** ** Properties *)

(** The response contract of all four wrappers: the business function runs
    only with a session and a bound request where they are asked for; an error
    marked "no response" or "unauthorized", however wrapped, gives silence or
    401; any other error gives a body with a non-zero code, a message and no
    data, the internal-error body when the handler set no code; and only a
    handler without error decides the body itself. *)
Theorem response_contract {D Req Sess} (get : res GoError Sess) (bind : res GoError Req)
    (fn : Req → Sess → Result D * option GoError) :
  match get, bind with
  | Err _, _ => BS get bind fn = (AbortWithStatus 401, false) ∧
      ∀ f, S_ get f = (AbortWithStatus (D := D) 401, false)
  | Ok sess, Err _ => (BS get bind fn).2 = false ∧ (B bind (λ req, fn req sess)).2 = false ∧
      ∃ body, (BS get bind fn).1 = JSON 400 body ∧ (B bind (λ req, fn req sess)).1 = JSON 400 body ∧
        Code body = CodeInvalidParam
  | Ok sess, Ok req =>
      let '(r, err) := fn req sess in
      let reply := (BS get bind fn).1 in
      (BS get bind fn).2 = true ∧ reply = (B bind (λ req, fn req sess)).1 ∧
      reply = (S_ get (fn req)).1 ∧ reply = (W (fn req sess)).1 ∧
      match err with
      | None => reply = JSON 200 r
      | Some e =>
          if errors_Is e ErrNoResponse then reply = NoReply
          else if errors_Is e ErrUnauthorized then reply = AbortWithStatus 401
          else ∃ body, reply = JSON 200 body ∧ Code body ≠ 0 ∧ Msg body ≠ "" ∧ Data body = None ∧
            (if Code r =? 0 then body = InternalError else Code body = Code r)
      end
  end.
Proof.
  destruct get as [sess|e1], bind as [req|e2]; simpl; try by eauto 10.
  destruct (fn req sess) as [r err] eqn:Ef. unfold BS, B, S_, W. simpl. rewrite ?Ef. simpl.
  split; [done|]. do 3 (split; [done|]). destruct err as [e|]; [|done]. simpl.
  destruct (errors_Is e ErrNoResponse); [done|]. destruct (errors_Is e ErrUnauthorized); [done|].
  eexists. split; [done|]. destruct (Z.eqb_spec (Code r) 0) as [E|E].
  - by vm_compute.
  - simpl. split; [done|]. split; [|done]. apply or_else_nonempty, GetCodeMessage_nonempty.
Qed.

(** Pagination: validated requests have a positive page and a size from 1
    to 100, validation changes nothing twice, and over any rows the pages
    from the first on are consecutive, disjoint and complete: the first [n]
    pages are the first [n * size] rows. *)
Theorem pagination_covers {A} p (rows : list A) n :
  Z.of_nat n < 2 ^ 55 →
  let v := Validate p in
  1 ≤ Page v ∧ 1 ≤ Size v ≤ 100 ∧ Validate v = v ∧
  pages (Size v) n rows = take (n * Z.to_nat (Size v)) rows.
Proof.
  intros Hn v. assert (1 ≤ Page v ∧ 1 ≤ Size v ≤ 100) as [Hp Hs].
  { unfold v, Validate. simpl. repeat case_match; lia. }
  split; [done|]. split; [done|]. split; [|by apply pages_take].
  unfold Validate at 1. destruct v as [page size]. simpl in *.
  replace (page <? 1) with false by lia. replace (size <? 1) with false by lia.
  by replace (100 <? size) with false by lia.
Qed.

Lemma pagination_covers_witness :
  pages (Size (Validate (mkPage 0 2))) 2 [1; 2; 3; 4; 5] = [1; 2; 3; 4].
Proof. apply (pagination_covers (mkPage 0 2) [1; 2; 3; 4; 5] 2). lia. Defined.

End Results.
