(* ===== verification/Validator.v ===== *)
(** * Field validation (src/validator.go)

    The rules, their composition and the builder.  Strings are bytes, read as
    UTF-8 where the code ranges over runes.  The regular-expression engine is a
    parameter. *)

From stdpp Require Import pretty.
From S2P Require Import Prelude Text.

Module Validator.

Import Text.Text.

(** ** Values and rules *)

(** A value of type [any]: the sized integers the rules look at, and others by
    type and identity, which compare by equality. *)
Inductive Value :=
| VNil
| VString (s : string)
| VInt (n : Z)
| VSized (bits : Z) (n : Z)
| VOther (type : string) (id : Z).

#[export] Instance Value_eq_dec : EqDecision Value.
Proof. solve_decision. Defined.

(** An error is its text. *)
Definition error := option string.

(** The regular-expression engine: which patterns compile (with the options of
    the code) and whether a string matches; a match error counts as no match. *)
Class Regexp := {
  re_valid : string → bool;
  re_match : string → string → bool
}.

Inductive ValidationRule :=
| RequiredRule
| MinLengthRule (min : Z)
| MaxLengthRule (max : Z)
| LengthRangeRule (min max : Z)
| EmailRule (regex : string)
| MobileRule (regex : string)
| URLRule (regex : string)
| PatternRule (regex : string) (errMsg : string)
| InRule (options : list string)
| RangeRule (min max : Z)
| EqualsRule (compareValue : Value)
| CustomRule (validateFunc : Value → error)
| CompositeRule (rules : list ValidationRule).

Section Rules.
Context `{Regexp}.

Definition show (n : Z) : string := pretty n.

(** The regular-expression rules ignore empty strings and other types. *)
Definition check_regex (regex : string) (msg : string) (v : Value) : error :=
  match v with
  | VString s => if decide (s = "") then None else if re_match regex s then None else Some msg
  | _ => None
  end.

Definition required_Validate (v : Value) : error :=
  match v with
  | VNil => Some "不能为空"
  | VString s => if trimmed_empty s then Some "不能为空" else None
  | _ => None
  end.

Definition minLength_Validate (min : Z) (v : Value) : error :=
  match v with
  | VString s =>
      if RuneCountInString s <? min then Some ("长度不能少于" +:+ show min +:+ "个字符")%string else None
  | _ => None
  end.

Definition maxLength_Validate (max : Z) (v : Value) : error :=
  match v with
  | VString s =>
      if max <? RuneCountInString s then Some ("长度不能超过" +:+ show max +:+ "个字符")%string else None
  | _ => None
  end.

Definition lengthRange_Validate (min max : Z) (v : Value) : error :=
  match v with
  | VString s =>
      let length := RuneCountInString s in
      if (length <? min) || (max <? length)
      then Some ("长度必须在" +:+ show min +:+ "到" +:+ show max +:+ "个字符之间")%string else None
  | _ => None
  end.

Definition email_Validate (regex : string) (v : Value) : error := check_regex regex "格式不正确" v.

Definition mobile_Validate (regex : string) (v : Value) : error := check_regex regex "格式不正确" v.

Definition url_Validate (regex : string) (v : Value) : error := check_regex regex "格式不正确" v.

Definition pattern_Validate (regex : string) (errMsg : string) (v : Value) : error :=
  check_regex regex (if decide (errMsg = "") then "格式不正确" else errMsg) v.

Definition in_Validate (options : list string) (v : Value) : error :=
  match v with
  | VString s =>
      if decide (s = "") then None
      else if decide (s ∈ options) then None else Some "的值不在允许的范围内"
  | _ => None
  end.

Definition range_Validate (min max : Z) (v : Value) : error :=
  match v with
  | VInt num | VSized _ num =>
      if (num <? min) || (max <? num)
      then Some ("必须在" +:+ show min +:+ "到" +:+ show max +:+ "之间")%string else None
  | _ => None
  end.

Definition equals_Validate (compareValue : Value) (v : Value) : error :=
  if decide (v = compareValue) then None else Some "不一致".

(** The loop of the composite rule over the verdicts of its parts: the first
    complaint wins. *)
Definition composite_Validate (validate : ValidationRule → error) : list ValidationRule → error :=
  fix go rules :=
    match rules with
    | [] => None
    | r :: rules => match validate r with Some e => Some e | None => go rules end
    end.

(** The method [Validate] of the interface, by the rule's dynamic type. *)
Fixpoint Validate_rule (r : ValidationRule) (v : Value) : error :=
  match r with
  | RequiredRule => required_Validate v
  | MinLengthRule min => minLength_Validate min v
  | MaxLengthRule max => maxLength_Validate max v
  | LengthRangeRule min max => lengthRange_Validate min max v
  | EmailRule regex => email_Validate regex v
  | MobileRule regex => mobile_Validate regex v
  | URLRule regex => url_Validate regex v
  | PatternRule regex errMsg => pattern_Validate regex errMsg v
  | InRule options => in_Validate options v
  | RangeRule min max => range_Validate min max v
  | EqualsRule c => equals_Validate c v
  | CustomRule f => f v
  | CompositeRule rules => composite_Validate (λ r, Validate_rule r v) rules
  end.

(** ** Constructors: [None] is [MustCompile]'s panic. *)

Definition Required : ValidationRule := RequiredRule.

Definition MinLength (min : Z) : ValidationRule := MinLengthRule min.

Definition MaxLength (max : Z) : ValidationRule := MaxLengthRule max.

Definition LengthRange (min max : Z) : ValidationRule := LengthRangeRule min max.

Definition MustCompile (p : string) : option string := if re_valid p then Some p else None.

Definition Email : option ValidationRule :=
  EmailRule <$> MustCompile "^[a-zA-Z0-9._%+\-]+@[a-zA-Z0-9.\-]+\.[a-zA-Z]{2,}$".

Definition Mobile : option ValidationRule := MobileRule <$> MustCompile "^1[3-9]\d{9}$".

Definition URL : option ValidationRule := URLRule <$> MustCompile "^https?://[^\s]+$".

Definition Pattern (pattern : string) (errMsg : list string) : option ValidationRule :=
  (λ re, PatternRule re (default "" (head errMsg))) <$> MustCompile pattern.

Definition In_ (options : list string) : ValidationRule := InRule options.

Definition Range (min max : Z) : ValidationRule := RangeRule min max.

Definition Equals (c : Value) : ValidationRule := EqualsRule c.

Definition Custom (f : Value → error) : ValidationRule := CustomRule f.

Definition CustomCondition (condition : bool) (errMsg : string) : ValidationRule :=
  CustomRule (λ _, if condition then None else Some errMsg).

Definition And (rules : list ValidationRule) : ValidationRule := CompositeRule rules.

(** ** Passwords *)

Definition is_lower (c : Z) : bool := (97 <=? c) && (c <=? 122).

Definition is_upper (c : Z) : bool := (65 <=? c) && (c <=? 90).

Definition is_digit (c : Z) : bool := (48 <=? c) && (c <=? 57).

(** The runes of "!@#$%^&*()_+-=[]{}|;:,.<>?". *)
Definition specials : list Z :=
  [33; 64; 35; 36; 37; 94; 38; 42; 40; 41; 95; 43; 45; 61; 91; 93; 123; 125; 124; 59; 58; 44; 46; 60; 62; 63].

Definition is_special (c : Z) : bool := bool_decide (c ∈ specials).

(** The loop of [IsPassword], with its early return. *)
Fixpoint password_loop (cs : list Z) (hasLetter hasDigit : bool) : bool :=
  match cs with
  | [] => hasLetter && hasDigit
  | c :: cs =>
      let '(hasLetter, hasDigit) :=
        if is_lower c || is_upper c then (true, hasDigit)
        else if is_digit c then (hasLetter, true) else (hasLetter, hasDigit) in
      if hasLetter && hasDigit then true else password_loop cs hasLetter hasDigit
  end.

Definition IsPassword (password : string) : bool := password_loop (runes password) false false.

Fixpoint strong_loop (cs : list Z) (hasLower hasUpper hasDigit hasSpecial : bool) : bool :=
  match cs with
  | [] => hasLower && hasUpper && hasDigit && hasSpecial
  | c :: cs =>
      if is_lower c then strong_loop cs true hasUpper hasDigit hasSpecial
      else if is_upper c then strong_loop cs hasLower true hasDigit hasSpecial
      else if is_digit c then strong_loop cs hasLower hasUpper true hasSpecial
      else if is_special c then strong_loop cs hasLower hasUpper hasDigit true
      else strong_loop cs hasLower hasUpper hasDigit hasSpecial
  end.

Definition IsStrongPassword (password : string) : bool :=
  strong_loop (runes password) false false false false.

(** ** Ready-made rules *)

Definition string_check (p : string → bool) (msg : string) (v : Value) : error :=
  match v with VString s => if p s then None else Some msg | _ => None end.

Definition Username : option ValidationRule :=
  (λ p, And [Required; LengthRange 4 20; p]) <$> Pattern "^[a-zA-Z0-9_]+$" ["只能包含字母、数字和下划线"].

Definition Password : ValidationRule :=
  And [Required; LengthRange 6 20; Custom (string_check IsPassword "必须包含字母和数字")].

Definition StrongPassword : ValidationRule :=
  And [Required; LengthRange 8 20;
       Custom (string_check IsStrongPassword "必须包含大小写字母、数字和特殊字符")].

Definition ChineseName : option ValidationRule :=
  (λ p, And [Required; p]) <$> Pattern "^[\p{Han}]{2,4}$" ["必须为2-4个汉字"].

Definition IDCard : option ValidationRule :=
  (λ p, And [Required; p]) <$>
    Pattern "^[1-9]\d{5}(18|19|20)\d{2}(0[1-9]|1[0-2])(0[1-9]|[12]\d|3[01])\d{3}[\dXx]$" ["格式不正确"].

(** ** The builder: fields are shared with the caller, who adds rules to them *)

Record FieldValidator := mkField {
  fieldName : string;
  value : Value;
  rules : list ValidationRule;
  ferrors : list string
}.

Definition NewFieldValidator (name : string) (v : Value) : FieldValidator := mkField name v [] [].

Definition AddRule (r : ValidationRule) (fv : FieldValidator) : FieldValidator :=
  mkField (fieldName fv) (value fv) (rules fv ++ [r]) (ferrors fv).

Definition field_Validate (fv : FieldValidator) : FieldValidator :=
  mkField (fieldName fv) (value fv) (rules fv)
    (foldl (λ errs r, match Validate_rule r (value fv) with
                      | Some e => errs ++ [(fieldName fv +:+ e)%string]
                      | None => errs
                      end) (ferrors fv) (rules fv)).

Record ValidatorBuilder := mkBuilder {
  validators : list FieldValidator;
  errors : list string
}.

Definition NewValidatorBuilder : ValidatorBuilder := mkBuilder [] [].

Definition Field (name : string) (v : Value) (vb : ValidatorBuilder) : ValidatorBuilder :=
  mkBuilder (validators vb ++ [NewFieldValidator name v]) (errors vb).

(** [AddRule] on the field returned by the last call of [Field]. *)
Definition with_rule (r : ValidationRule) (vb : ValidatorBuilder) : ValidatorBuilder :=
  mkBuilder (alter (AddRule r) (pred (length (validators vb))) (validators vb)) (errors vb).

(** The loop of [Validate]: fields after it and the errors collected. *)
Fixpoint validate_loop (fvs : list FieldValidator) : list FieldValidator * list string :=
  match fvs with
  | [] => ([], [])
  | fv :: fvs =>
      let fv := field_Validate fv in
      let '(fvs, errs) := validate_loop fvs in
      (fv :: fvs, ferrors fv ++ errs)
  end.

Definition Validate (vb : ValidatorBuilder) : ValidatorBuilder :=
  let '(fvs, errs) := validate_loop (validators vb) in mkBuilder fvs (errors vb ++ errs).

Definition IsValid (vb : ValidatorBuilder) : bool := bool_decide (errors vb = []).

Definition GetErrors (vb : ValidatorBuilder) : list string := errors vb.

Definition GetFirstError (vb : ValidatorBuilder) : string := default "" (head (errors vb)).

Definition GetErrorString (vb : ValidatorBuilder) : string :=
  match errors vb with
  | [] => ""
  | e :: es => foldl (λ acc e, (acc +:+ "；" +:+ e)%string) e es
  end.

(** ** Specification-side definitions *)

(** The messages of a field: one per failing rule, in the order of the rules. *)
Definition complaints (fv : FieldValidator) : list string :=
  omap (λ r, (λ e, (fieldName fv +:+ e)%string) <$> Validate_rule r (value fv)) (rules fv).

(** Every rule of every field accepts its value. *)
Definition all_pass (vb : ValidatorBuilder) : Prop :=
  ∀ fv r, fv ∈ validators vb → r ∈ rules fv → Validate_rule r (value fv) = None.

Definition fresh (vb : ValidatorBuilder) : Prop :=
  errors vb = [] ∧ Forall (λ fv, ferrors fv = []) (validators vb).

Definition has (p : Z → bool) (s : string) : Prop := ∃ c, c ∈ runes s ∧ p c = true.

End Rules.

(** No pattern matches, for the witnesses. *)
Definition no_regexp : Regexp := {| re_valid _ := true; re_match _ _ := false |}.

Definition sample_builder : ValidatorBuilder :=
  with_rule Password (Field "password" (VString "abc") (with_rule Required (Field "name" (VString "  ") NewValidatorBuilder))).

(** ** Lemmas *)

Section Lemmas.
Context `{Regexp}.

Lemma field_Validate_errors fv : ferrors (field_Validate fv) = ferrors fv ++ complaints fv.
Proof.
  unfold field_Validate, complaints. simpl. generalize (ferrors fv). induction (rules fv) as [|r rs IH]; intros errs; simpl.
  - by rewrite app_nil_r.
  - rewrite IH. destruct (Validate_rule r (value fv)); simpl; [by rewrite <- app_assoc|done].
Qed.

Lemma validate_loop_errors fvs :
  Forall (λ fv, ferrors fv = []) fvs → (validate_loop fvs).2 = mjoin (complaints <$> fvs).
Proof.
  induction 1 as [|fv fvs Hfv _ IH]; [done|]. cbn [validate_loop].
  destruct (validate_loop fvs) as [fvs' errs]. simpl in IH. subst errs. cbn [snd].
  rewrite field_Validate_errors, Hfv. done.
Qed.

Lemma complaints_nil fv :
  complaints fv = [] ↔ ∀ r, r ∈ rules fv → Validate_rule r (value fv) = None.
Proof.
  unfold complaints. induction (rules fv) as [|r rs IH]; simpl.
  - split; [set_solver|done].
  - destruct (Validate_rule r (value fv)) as [e|] eqn:E; simpl.
    + split; [done|]. intros Hall. specialize (Hall r). rewrite Hall in E by set_solver. done.
    + rewrite IH. split; [|set_solver]. intros Hall r' Hr'.
      apply elem_of_cons in Hr' as [->|Hr']; [done|auto].
Qed.

Lemma Validate_rule_And rs v :
  Validate_rule (And rs) v = None ↔ Forall (λ r, Validate_rule r v = None) rs.
Proof.
  induction rs as [|r rs IH].
  - split; [constructor|done].
  - change (Validate_rule (And (r :: rs)) v) with
      (match Validate_rule r v with Some e => Some e | None => Validate_rule (And rs) v end).
    rewrite Forall_cons. destruct (Validate_rule r v); [naive_solver|]. rewrite IH. naive_solver.
Qed.

End Lemmas.

Lemma has_existsb (p : Z → bool) s : has p s ↔ existsb p (runes s) = true.
Proof. unfold has. rewrite existsb_exists. setoid_rewrite list_elem_of_In. done. Qed.

(** The classes of characters the password checks use do not meet. *)
Lemma class_disjoint c :
  (is_lower c = true → is_upper c = false ∧ is_digit c = false ∧ is_special c = false) ∧
  (is_upper c = true → is_digit c = false ∧ is_special c = false) ∧
  (is_digit c = true → is_special c = false).
Proof.
  assert (is_special c = true → ¬ (48 ≤ c ≤ 57) ∧ ¬ (65 ≤ c ≤ 90) ∧ ¬ (97 ≤ c ≤ 122)) as Hs.
  { unfold is_special. rewrite bool_decide_eq_true. intros Hc.
    repeat (apply elem_of_cons in Hc as [->|Hc]; [lia|]). set_solver. }
  unfold is_lower, is_upper, is_digit in *. split_and!; intros; destruct (is_special c); try lia.
Qed.

Lemma password_loop_spec cs l d :
  password_loop cs l d = (l || existsb (λ c, is_lower c || is_upper c) cs) && (d || existsb is_digit cs).
Proof.
  revert l d. induction cs as [|c cs IH]; intros l d; [destruct l, d; done|].
  cbn [password_loop existsb].
  assert (is_lower c || is_upper c = true → is_digit c = false) as Hdis
    by (unfold is_lower, is_upper, is_digit; lia).
  destruct (is_lower c || is_upper c); [rewrite Hdis by done|destruct (is_digit c)];
    destruct l, d; cbn [andb orb]; rewrite ?IH, ?andb_true_r; reflexivity.
Qed.

Lemma strong_loop_spec cs lo up di sp :
  strong_loop cs lo up di sp =
  (lo || existsb is_lower cs) && (up || existsb is_upper cs) && (di || existsb is_digit cs) && (sp || existsb is_special cs).
Proof.
  revert lo up di sp. induction cs as [|c cs IH]; intros lo up di sp; [destruct lo, up, di, sp; done|].
  cbn [strong_loop existsb]. destruct (class_disjoint c) as (H1 & H2 & H3).
  destruct (is_lower c); [destruct (H1 eq_refl) as (-> & -> & ->)|
    destruct (is_upper c); [destruct (H2 eq_refl) as (-> & ->)|
      destruct (is_digit c); [rewrite (H3 eq_refl)|destruct (is_special c)]]];
    rewrite IH; cbn [orb]; rewrite ?orb_true_r; reflexivity.
Qed.

(** ** Properties *)

(** C40. A first [Validate] reports, field by field and rule by rule, exactly the
    failing rules, each under its field's name; the builder is valid exactly
    when every rule accepts its value; a composite rule accepts exactly when
    all its parts do. *)
Theorem validation_complete `{Regexp} vb :
  fresh vb →
  GetErrors (Validate vb) = mjoin (complaints <$> validators vb) ∧
  (IsValid (Validate vb) = true ↔ all_pass vb) ∧
  ∀ rs v, Validate_rule (And rs) v = None ↔ Forall (λ r, Validate_rule r v = None) rs.
Proof.
  intros [He Hf]. assert (GetErrors (Validate vb) = mjoin (complaints <$> validators vb)) as E.
  { unfold GetErrors, Validate. pose proof (validate_loop_errors _ Hf) as Hl.
    destruct (validate_loop (validators vb)) as [fvs errs]. simpl in *. by rewrite He, Hl. }
  split; [done|]. split; [|apply Validate_rule_And].
  unfold IsValid. unfold GetErrors in E. rewrite E, bool_decide_eq_true. unfold all_pass.
  clear. induction (validators vb) as [|fv fvs IH].
  - split; [set_solver|done].
  - rewrite fmap_cons. change (mjoin (complaints fv :: (complaints <$> fvs))) with (complaints fv ++ mjoin (complaints <$> fvs)).
    rewrite app_nil, complaints_nil, IH. split.
    + intros [H1 H2] fv' r [->|Hfv]%elem_of_cons Hr; [auto|eauto].
    + intros Hall. split; [intros r Hr|intros fv' r Hfv Hr]; eapply Hall; set_solver.
Qed.

Lemma validation_complete_witness :
  GetErrors (Validate (H := no_regexp) sample_builder) =
  ["name不能为空"; "password长度必须在6到20个字符之间"].
Proof.
  assert (fresh sample_builder) as Hf by (split; [done|by repeat constructor]).
  rewrite (proj1 (@validation_complete no_regexp sample_builder Hf)). vm_compute. reflexivity.
Defined.

(** The password rules say what they mean: [IsPassword], for all its early
    return, holds exactly of strings with an ASCII letter and a digit,
    [IsStrongPassword] of those with a lower-case and an upper-case letter, a
    digit and a listed special character; and the rules accept a string exactly
    when its length in characters is also in range and it is not blank. *)
Theorem password_rules `{Regexp} s :
  (IsPassword s = true ↔ has (λ c, is_lower c || is_upper c) s ∧ has is_digit s) ∧
  (IsStrongPassword s = true ↔ has is_lower s ∧ has is_upper s ∧ has is_digit s ∧ has is_special s) ∧
  (Validate_rule Password (VString s) = None ↔
     trimmed_empty s = false ∧ 6 ≤ RuneCountInString s ≤ 20 ∧ IsPassword s = true) ∧
  (Validate_rule StrongPassword (VString s) = None ↔
     trimmed_empty s = false ∧ 8 ≤ RuneCountInString s ≤ 20 ∧ IsStrongPassword s = true).
Proof.
  split; [|split].
  - unfold IsPassword. rewrite password_loop_spec, !has_existsb, <- andb_true_iff. done.
  - unfold IsStrongPassword. rewrite strong_loop_spec, !has_existsb, !andb_true_iff. cbn [orb]. tauto.
  - unfold Password, StrongPassword. rewrite !Validate_rule_And, !Forall_cons. simpl.
    unfold Required, LengthRange, Custom. simpl.
    split.
    + destruct (trimmed_empty s), (IsPassword s); simpl; case_match; split; intros; destruct_and?; try done; split_and!; try done; try lia; constructor.
    + destruct (trimmed_empty s), (IsStrongPassword s); simpl; case_match; split; intros; destruct_and?; try done; split_and!; try done; try lia; constructor.
Qed.

(** Calling [Validate] a second time reports everything again, twice over. *)
Lemma validate_twice_duplicates :
  length (errors (Validate (H := no_regexp) (Validate (H := no_regexp) sample_builder))) = 6%nat.
Proof. vm_compute. reflexivity. Qed.

End Validator.
