(* ===== verification/LogFile.v ===== *)
(** * Log files (src/logger/logger.go, the file rotator)

    [fileRotator] appends to a file, renames it when a write would exceed its
    size and removes old backups.  The file system is a map from names to
    inodes: an open file is an inode, which keeps its content when its name
    moves.  What the system answers to a call (a file cannot be opened, a write
    is short) is an input of the operation. *)

From S2P Require Import Prelude Text.

Module LogFile.
Import Text.

(** ** Files *)

Record FS := mkFS {
  names : gmap string nat;
  inodes : list string
}.

Definition content (fs : FS) (i : nat) : string := default "" (inodes fs !! i).

Definition read_file (fs : FS) (name : string) : string :=
  match names fs !! name with Some i => content fs i | None => "" end.

(** [os.OpenFile] with [O_CREATE|O_APPEND|O_WRONLY]. *)
Definition OpenFile (name : string) (fs : FS) : nat * FS :=
  match names fs !! name with
  | Some i => (i, fs)
  | None => (length (inodes fs), mkFS (<[name := length (inodes fs)]> (names fs)) (inodes fs ++ [""]))
  end.

Definition append_file (i : nat) (data : string) (fs : FS) : FS :=
  mkFS (names fs) (alter (λ c, (c +:+ data)%string) i (inodes fs)).

(** [os.Rename]; [None] if there is no such file. *)
Definition Rename (old new : string) (fs : FS) : option FS :=
  i ← names fs !! old; Some (mkFS (<[new := i]> (delete old (names fs))) (inodes fs)).

Definition Remove (name : string) (fs : FS) : FS := mkFS (delete name (names fs)) (inodes fs).

(** What the system answers: opening fails before or after the file is there,
    renaming fails, and how many bytes of a write get through. *)
Inductive OpenAnswer := Opened | OpenFails | StatFails.

Record Answers := mkAnswers {
  on_open : OpenAnswer;
  on_rename : bool;
  on_write : nat
}.

(** ** The rotator *)

(** [file]: the open file, or one that was closed and not replaced, or none. *)
Inductive Handle := Open (i : nat) | Closed | NoFile.

Record fileRotator := mkRotator {
  filename : string;
  maxSize : Z;
  maxBackups : Z;
  maxAge : Z;
  file : Handle;
  size : Z;
  baseName : string;
  ext : string
}.

Inductive Error := ErrOpen | ErrRename | ErrShortWrite | ErrClosed.

(** [filepath.Ext]: from the last dot after the last slash. *)
Fixpoint ext_from (s : string) : option string :=
  match s with
  | EmptyString => None
  | String a r =>
      match ext_from r with
      | Some e => Some e
      | None => if Ascii.eqb a "." && negb (contains "/" r) then Some s else None
      end
  end.

Definition Ext (path : string) : string := default "" (ext_from path).

Definition splitExt (path : string) : string * string :=
  (str_take (String.length path - String.length (Ext path)) path, Ext path).

Definition set_file (h : Handle) (n : Z) (r : fileRotator) : fileRotator :=
  mkRotator (filename r) (maxSize r) (maxBackups r) (maxAge r) h n (baseName r) (ext r).

Definition openNew (a : OpenAnswer) (r : fileRotator) (fs : FS) : res Error unit * fileRotator * FS :=
  match a with
  | OpenFails => (Err ErrOpen, r, fs)
  | StatFails => (Err ErrOpen, r, (OpenFile (filename r) fs).2)
  | Opened =>
      let '(i, fs) := OpenFile (filename r) fs in
      (Ok (), set_file (Open i) (Z.of_nat (String.length (content fs i))) r, fs)
  end.

(** [createFileSyncer] and [init], but for the cleaning goroutine. *)
Definition init (name : string) (mb backups age : Z) (a : OpenAnswer) (fs : FS) : fileRotator * FS :=
  let '(base, e) := splitExt name in
  let '(_, r, fs) := openNew a (mkRotator name (i64 (mb * 1024 * 1024)) backups age NoFile 0 base e) fs in (r, fs).

Definition close (r : fileRotator) : fileRotator :=
  match file r with Open _ => set_file Closed (size r) r | _ => r end.

Definition backup_name (r : fileRotator) (stamp : string) : string :=
  (baseName r +:+ "-" +:+ stamp +:+ ext r)%string.

(** [stamp] is the local time to the second. *)
Definition rotate (stamp : string) (a : Answers) (r : fileRotator) (fs : FS) : res Error unit * fileRotator * FS :=
  let r := close r in
  if on_rename a then
    let fs := default fs (Rename (filename r) (backup_name r stamp) fs) in openNew (on_open a) r fs
  else (Err ErrRename, r, fs).

(** The write itself, to whatever the rotator holds. *)
Definition write_out (p : string) (a : Answers) (r : fileRotator) (fs : FS) : nat * res Error unit * fileRotator * FS :=
  match file r with
  | Open i =>
      let n := Nat.min (on_write a) (String.length p) in
      (n, if (n <? String.length p)%nat then Err ErrShortWrite else Ok (),
       set_file (Open i) (i64 (size r + Z.of_nat n)) r, append_file i (str_take n p) fs)
  | _ => (0%nat, Err ErrClosed, r, fs)
  end.

(** The first write opens the file if [init] could not. *)
Definition ensure_open (a : OpenAnswer) (r : fileRotator) (fs : FS) : res Error unit * fileRotator * FS :=
  match file r with NoFile => openNew a r fs | _ => (Ok (), r, fs) end.

Definition exceeds (p : string) (r : fileRotator) : bool :=
  (maxSize r <? i64 (size r + Z.of_nat (String.length p))) && (0 <? maxSize r).

Definition Write (p stamp : string) (a : Answers) (r : fileRotator) (fs : FS) : nat * res Error unit * fileRotator * FS :=
  match ensure_open (on_open a) r fs with
  | (Err e, r, fs) => (0%nat, Err e, r, fs)
  | (Ok _, r, fs) =>
      if exceeds p r then
        match rotate stamp a r fs with
        | (Err e, r, fs) => (0%nat, Err e, r, fs)
        | (Ok _, r, fs) => write_out p a r fs
        end
      else write_out p a r fs
  end.

(** A run of writes: what each put into the file, the error it returned, and
    the name it would rotate to. *)
Record Call := mkCall { data : string; at_ : string; answers : Answers }.

Fixpoint writes (cs : list Call) (r : fileRotator) (fs : FS) : list nat * fileRotator * FS :=
  match cs with
  | [] => ([], r, fs)
  | c :: cs =>
      let '(n, _, r, fs) := Write (data c) (at_ c) (answers c) r fs in
      let '(ns, r, fs) := writes cs r fs in (n :: ns, r, fs)
  end.

(** ** Cleaning up *)

(** An entry of the directory: name, path, and time of the last change if
    [os.Stat] tells it. *)
Record Entry := mkEntry { e_name : string; e_path : string; e_mtime : option Time }.

Definition is_backup (r : fileRotator) (e : Entry) : bool :=
  match cut_prefix (baseName r +:+ "-")%string (e_name e) with
  | Some rest => (0 <? String.length rest)%nat
  | None => false
  end.

Definition Day : Duration := 24 * Hour.

(** The paths [doCleanup] removes, of entries in the order of their names. *)
Fixpoint cleanup_loop (r : fileRotator) (now : Time) (n i : Z) (backups : list Entry) : list string :=
  match backups with
  | [] => []
  | e :: backups =>
      let rest := cleanup_loop r now n (i + 1) backups in
      match e_mtime e with
      | None => rest
      | Some t =>
          if (0 <? maxAge r) && (i64 (maxAge r * Day) <? time_sub now t) then e_path e :: rest
          else if (0 <? maxBackups r) && (i <? n - maxBackups r) then e_path e :: rest
          else rest
      end
  end.

Definition doCleanup (r : fileRotator) (now : Time) (entries : list Entry) : list string :=
  let backups := filter (λ e, is_backup r e = true) entries in
  cleanup_loop r now (Z.of_nat (length backups)) 0 backups.

(** The goroutine of a rotator: what is removed at each tick, of the directory as it is then. *)
Definition cleanup (r : fileRotator) (ticks : list (Time * list Entry)) : list (list string) :=
  if (maxAge r <=? 0) && (maxBackups r <=? 0) then [] else (λ t, doCleanup r t.1 t.2) <$> ticks.

(** [answer] is the system's. *)
Definition Sync (answer : res Error unit) (r : fileRotator) : res Error unit :=
  match file r with Open _ => answer | Closed => Err ErrClosed | NoFile => Ok () end.

(** ** Specification-side definitions *)

(** Every name is of an inode, and of its own: there are no hard links. *)
Definition fs_ok (fs : FS) : Prop :=
  (∀ n i, names fs !! n = Some i → (i < length (inodes fs))%nat) ∧
  (∀ n1 n2 i, names fs !! n1 = Some i → names fs !! n2 = Some i → n1 = n2).

(** An open file is the one its name leads to. *)
Definition rotator_ok (r : fileRotator) (fs : FS) : Prop :=
  ∀ i, file r = Open i → names fs !! filename r = Some i.

(** The size counted is that of the file. *)
Definition size_ok (r : fileRotator) (fs : FS) : Prop :=
  ∀ i, file r = Open i → size r = Z.of_nat (String.length (read_file fs (filename r))).

(** No rotation of the run takes a name in use. *)
Definition fresh_rotation (c : Call) (r : fileRotator) (fs : FS) : Prop :=
  let '(_, r, fs) := ensure_open (on_open (answers c)) r fs in
  exceeds (data c) r = true →
  names fs !! backup_name r (at_ c) = None ∧ backup_name r (at_ c) ≠ filename r.

Fixpoint fresh_rotations (cs : list Call) (r : fileRotator) (fs : FS) : Prop :=
  match cs with
  | [] => True
  | c :: cs =>
      fresh_rotation c r fs ∧
      let '(_, _, r, fs) := Write (data c) (at_ c) (answers c) r fs in fresh_rotations cs r fs
  end.

(** The bytes that got through. *)
Definition accepted (ns : list nat) (cs : list Call) : string := concat (zip_with (λ n c, str_take n (data c)) ns cs).

(** The archive: the backups in the order of their rotations and the file. *)
Definition archive (bs : list string) (name : string) (fs : FS) : string :=
  (concat (read_file fs <$> bs) +:+ read_file fs name)%string.

(** A rotator of [name] whose backups [bs] are all there. *)
Definition archive_ok (bs : list string) (name : string) (r : fileRotator) (fs : FS) : Prop :=
  fs_ok fs ∧ rotator_ok r fs ∧ filename r = name ∧ ∀ b, b ∈ bs → is_Some (names fs !! b) ∧ b ≠ name.

(** The counted size is right, and no file of the archive is larger than [M]. *)
Definition bounded (M : Z) (bs : list string) (name : string) (r : fileRotator) (fs : FS) : Prop :=
  size_ok r fs ∧ ∀ b, b ∈ name :: bs → Z.of_nat (String.length (read_file fs b)) ≤ M.

(** The limits and names of a rotator, which no operation changes. *)
Definition same_config (r r' : fileRotator) : Prop :=
  maxSize r' = maxSize r ∧ baseName r' = baseName r ∧ ext r' = ext r.

(** Runs of the witnesses: a limit of eight bytes, a file that holds four. *)
Definition sample_rotator : fileRotator := mkRotator "app.log" 8 3 7 (Open 0) 4 "app" ".log".

Definition sample_fs : FS := mkFS {["app.log" := 0%nat]} ["old;"].

Definition fine : Answers := mkAnswers Opened true 1000.

Definition sample_calls (stamps : string * string) : list Call :=
  [mkCall "one;" "1" fine; mkCall "two;" stamps.1 fine; mkCall "three;" stamps.2 fine].

(** ** Lemmas *)

Lemma read_OpenFile name fs n :
  fs_ok fs →
  read_file (OpenFile name fs).2 n = read_file fs n ∧ fs_ok (OpenFile name fs).2 ∧
  names (OpenFile name fs).2 !! name = Some (OpenFile name fs).1.
Proof.
  intros [Hlt Hinj]. unfold OpenFile, read_file. destruct (names fs !! name) as [i|] eqn:Hn; [done|]. simpl.
  split_and!; [| |apply lookup_insert_eq].
  - unfold content. simpl. destruct (decide (n = name)) as [->|Hne].
    + rewrite lookup_insert_eq, Hn. rewrite lookup_app_r, Nat.sub_diag by done. done.
    + rewrite lookup_insert_ne by done. destruct (names fs !! n) as [j|] eqn:Hj; [|done].
      by rewrite lookup_app_l by (by eapply Hlt).
  - split; simpl.
    + intros m i [[<- <-]|[_ Hm]]%lookup_insert_Some; rewrite length_app; simpl; [lia|]. apply Hlt in Hm. lia.
    + intros n1 n2 i [[<- <-]|[Hne1 H1]]%lookup_insert_Some [[<- E2]|[Hne2 H2]]%lookup_insert_Some; try done.
      * apply Hlt in H2. lia.
      * apply Hlt in H1. lia.
      * by eapply Hinj.
Qed.

Lemma read_append name i p fs n :
  fs_ok fs → names fs !! name = Some i →
  read_file (append_file i p fs) n = (if decide (n = name) then read_file fs n +:+ p else read_file fs n)%string ∧
  fs_ok (append_file i p fs).
Proof.
  intros [Hlt Hinj] Hn. split.
  - unfold read_file, append_file, content. simpl. destruct (decide (n = name)) as [->|Hne].
    + rewrite Hn, list_lookup_alter_eq. destruct (lookup_lt_is_Some_2 (inodes fs) i) as [c Hc]; [by eapply Hlt|].
      by rewrite Hc.
    + destruct (names fs !! n) as [j|] eqn:Hj; [|done]. rewrite list_lookup_alter_ne; [done|]. intros ->.
      by apply Hne, (Hinj _ _ _ Hj).
  - split; simpl; [|done]. intros m j Hm. rewrite length_alter. by eapply Hlt.
Qed.

Lemma read_Rename old new fs fs' n :
  fs_ok fs → Rename old new fs = Some fs' → names fs !! new = None → new ≠ old →
  read_file fs' n = (if decide (n = new) then read_file fs old else if decide (n = old) then "" else read_file fs n) ∧
  fs_ok fs' ∧ names fs' !! old = None ∧ is_Some (names fs' !! new).
Proof.
  intros [Hlt Hinj] Hr Hnew Hne. unfold Rename in Hr. destruct (names fs !! old) as [i|] eqn:Ho; simplify_eq/=.
  split_and!; [| |by rewrite lookup_insert_ne, lookup_delete_eq|rewrite lookup_insert_eq; by eexists].
  - unfold read_file, content. simpl. destruct (decide (n = new)) as [->|Hn].
    + by rewrite lookup_insert_eq, Ho.
    + rewrite lookup_insert_ne by done. destruct (decide (n = old)) as [->|]; [by rewrite lookup_delete_eq|].
      by rewrite lookup_delete_ne.
  - split; simpl.
    + intros m j [[_ <-]|[_ [_ Hm]%lookup_delete_Some]]%lookup_insert_Some; by eapply Hlt.
    + intros n1 n2 j [[<- <-]|[H1 [H1' H1'']%lookup_delete_Some]]%lookup_insert_Some
        [[<- E2]|[H2 [H2' H2'']%lookup_delete_Some]]%lookup_insert_Some; try done.
      * by destruct H2'; eapply Hinj.
      * subst j. by destruct H1'; eapply Hinj.
      * by eapply Hinj.
Qed.

Lemma archive_ext bs name fs fs' :
  (∀ n, n ∈ bs ∨ n = name → read_file fs' n = read_file fs n) → archive bs name fs' = archive bs name fs.
Proof.
  intros Hr. unfold archive. rewrite (Hr name) by auto. do 2 f_equal. apply list_fmap_ext.
  intros i b Hb%list_elem_of_lookup_2. auto.
Qed.

(** Opening changes what no file holds. *)
Lemma openNew_spec a r fs e r' fs' bs name :
  openNew a r fs = (e, r', fs') → archive_ok bs name r fs →
  archive_ok bs name r' fs' ∧ (∀ n, read_file fs' n = read_file fs n) ∧
  same_config r r' ∧
  match e with
  | Ok _ => ∃ i, file r' = Open i
  | Err _ => r' = r
  end ∧ (size_ok r fs → size_ok r' fs').
Proof.
  intros Ho (Hfs & Hr & <- & Hb). destruct (read_OpenFile (filename r) fs "" Hfs) as (_ & Hfs' & Hn).
  assert (Hread : ∀ n, read_file (OpenFile (filename r) fs).2 n = read_file fs n)
    by (intros n; by destruct (read_OpenFile (filename r) fs n Hfs)).
  assert (Hkeep : ∀ b i, names fs !! b = Some i → names (OpenFile (filename r) fs).2 !! b = Some i).
  { intros b i Hi. unfold OpenFile. destruct (names fs !! filename r) as [j|] eqn:Hj; [done|]. simpl.
    rewrite lookup_insert_ne; [done|]. congruence. }
  assert (Hb' : ∀ b, b ∈ bs → is_Some (names (OpenFile (filename r) fs).2 !! b) ∧ b ≠ filename r).
  { intros b Hin. destruct (Hb b Hin) as [[i Hi] ?]. split; [|done]. exists i. by apply Hkeep. }
  destruct a; simpl in Ho.
  - destruct (OpenFile (filename r) fs) as [i fs1] eqn:Eo. simplify_eq/=. split_and!; try done.
    + split_and!; [done| |done|done]. intros j [= <-]. done.
    + by exists i.
    + intros _ j [= <-]. simpl. unfold read_file. by rewrite Hn.
  - simplify_eq. by split_and!.
  - simplify_eq. split_and!; try done.
    + split_and!; [done| |done|done]. intros i Hi. by apply Hkeep, Hr.
    + intros Hs i Hi. rewrite Hread. exact (Hs i Hi).
Qed.

Lemma concat_snoc ps p : concat (ps ++ [p]) = (concat ps +:+ p)%string.
Proof.
  induction ps as [|q ps IH]; simpl; [apply str_app_nil_r|].
  change (concat (q :: (ps ++ [p]))) with (q +:+ concat (ps ++ [p]))%string.
  change (concat (q :: ps)) with (q +:+ concat ps)%string. by rewrite IH, str_app_assoc.
Qed.

(** A rename turns the file into the newest backup. *)
Lemma Rename_archive bs name r fs fs' new :
  archive_ok bs name r fs → Rename name new fs = Some fs' → names fs !! new = None → new ≠ name →
  file r = Closed → archive_ok (bs ++ [new]) name r fs' ∧ archive (bs ++ [new]) name fs' = archive bs name fs ∧
  read_file fs' new = read_file fs name.
Proof.
  intros (Hfs & Hr & Hn & Hb) Hren Hnew Hne Hc.
  assert (Hread : ∀ n, read_file fs' n =
    if decide (n = new) then read_file fs name else if decide (n = name) then "" else read_file fs n)
    by (intros n; by destruct (read_Rename name new fs fs' n Hfs Hren Hnew Hne)).
  destruct (read_Rename name new fs fs' "" Hfs Hren Hnew Hne) as (_ & Hfs' & Hold & Hnew').
  split_and!; [split_and!; [done|intros i Hi; congruence|done|]| |].
  - intros b [Hin| ->%list_elem_of_singleton]%elem_of_app; [|done]. destruct (Hb b Hin) as [[i Hi] Hbn].
    split; [|done]. unfold Rename in Hren. destruct (names fs !! name) as [j|]; simplify_eq/=. exists i.
    rewrite lookup_insert_ne, lookup_delete_ne by congruence. done.
  - unfold archive. rewrite fmap_app. simpl. rewrite concat_snoc, !Hread, decide_True by done.
    rewrite (decide_False (P := name = new)) by done. rewrite decide_True by done. rewrite str_app_nil_r.
    do 2 f_equal. apply list_fmap_ext. intros i b Hi%list_elem_of_lookup_2. destruct (Hb b Hi) as [[j Hj] Hbn].
    rewrite Hread, !decide_False; [done| |]; congruence.
  - by rewrite Hread, decide_True.
Qed.

Lemma str_length_take n s : (n ≤ String.length s)%nat → String.length (str_take n s) = n.
Proof. revert s. induction n as [|n IH]; intros [|c s] Hn; simpl in *; try lia. rewrite IH; lia. Qed.

Lemma write_out_spec p a r fs bs name n e r' fs' :
  write_out p a r fs = (n, e, r', fs') → archive_ok bs name r fs →
  archive_ok bs name r' fs' ∧ archive bs name fs' = (archive bs name fs +:+ str_take n p)%string ∧ same_config r r' ∧
  ∀ M, M ≤ 2 ^ 62 → Z.of_nat (String.length (read_file fs name)) + Z.of_nat (String.length p) ≤ M →
       bounded M bs name r fs → bounded M bs name r' fs'.
Proof.
  intros Hw (Hfs & Hr & <- & Hb). unfold write_out in Hw. destruct (file r) as [i| |] eqn:Ef; simplify_eq/=.
  2-3: change (str_take 0 p) with ""; by split_and!; [|rewrite str_app_nil_r|..].
  set (n := Nat.min _ _). pose proof (Hr i Ef) as Hi.
  assert (Hn : (n ≤ String.length p)%nat) by lia.
  assert (Hread : ∀ m, read_file (append_file i (str_take n p) fs) m =
    (if decide (m = filename r) then read_file fs m +:+ str_take n p else read_file fs m)%string)
    by (intros m; by destruct (read_append (filename r) i (str_take n p) fs m Hfs Hi)).
  destruct (read_append (filename r) i (str_take n p) fs "" Hfs Hi) as [_ Hfs']. split_and!; [| |done|].
  - split_and!; [done|by intros j [= <-]|done|done].
  - unfold archive. rewrite Hread, decide_True by done. rewrite str_app_assoc. f_equal. f_equal. apply list_fmap_ext.
    intros j b Hj%list_elem_of_lookup_2. destruct (Hb b Hj) as [_ ?]. by rewrite Hread, decide_False.
  - intros M HM Hp [Hs Hle]. split.
    + intros j _. simpl. rewrite Hread, decide_True, str_length_app, str_length_take by done. rewrite (Hs i Ef).
      rewrite i64_id by word. lia.
    + intros b Hin. rewrite Hread. case_decide as Hd; [|by apply Hle]. subst b.
      rewrite str_length_app, str_length_take by done. lia.
Qed.

Lemma archive_ok_close bs name r fs : archive_ok bs name r fs → archive_ok bs name (close r) fs.
Proof. intros (? & ? & ? & ?). unfold close. by destruct (file r); split_and!. Qed.

Lemma archive_same bs name fs fs' :
  (∀ n, read_file fs' n = read_file fs n) → archive bs name fs' = archive bs name fs.
Proof. intros Hr. by apply archive_ext. Qed.

Lemma bounded_same M bs name r r' fs fs' :
  (∀ n, read_file fs' n = read_file fs n) → size_ok r' fs' → bounded M bs name r fs → bounded M bs name r' fs'.
Proof. intros Hr Hs [_ Hle]. split; [done|]. intros b Hb. rewrite Hr. by apply Hle. Qed.

(** The rename of a rotation, whether the file was there or not. *)
Lemma rename_spec bs name r fs new :
  archive_ok bs name r fs → file r = Closed → names fs !! new = None → new ≠ name →
  let fs' := default fs (Rename name new fs) in
  ∃ bs', archive_ok bs' name r fs' ∧ archive bs' name fs' = archive bs name fs ∧ read_file fs' name = "" ∧
    ∀ M, 0 ≤ M → bounded M bs name r fs → bounded M bs' name r fs'.
Proof.
  intros Hok Hc Hnew Hne. pose proof Hok as (Hfs & _ & _ & Hb).
  destruct (Rename name new fs) as [fs1|] eqn:Hren; simpl.
  - destruct (Rename_archive bs name r fs fs1 new Hok Hren Hnew Hne Hc) as (Hok1 & Harc & Hmoved).
    assert (Hold : read_file fs1 name = "").
    { destruct (read_Rename name new fs fs1 name Hfs Hren Hnew Hne) as [-> _].
      rewrite decide_False by done. by rewrite decide_True. }
    exists (bs ++ [new]). split_and!; try done. intros M HM [_ Hle]. split; [intros i Hi; congruence|].
    intros b [->|[Hin| ->%list_elem_of_singleton]%elem_of_app]%elem_of_cons.
    + rewrite Hold. simpl. lia.
    + destruct (Hb b Hin) as [[j Hj] Hbn].
      destruct (read_Rename name new fs fs1 b Hfs Hren Hnew Hne) as [-> _].
      rewrite !decide_False by congruence. apply Hle. by apply elem_of_cons; right.
    + rewrite Hmoved. apply Hle. by left.
  - exists bs. unfold Rename in Hren. destruct (names fs !! name) eqn:Hn; [done|].
    split_and!; [done|done|unfold read_file; by rewrite Hn|done].
Qed.

(** A rotation that succeeds leaves an empty file open, behind at most one more
    backup. *)
Lemma rotate_spec stamp a r fs bs name e r' fs' :
  rotate stamp a r fs = (e, r', fs') → archive_ok bs name r fs → file r ≠ NoFile →
  names fs !! backup_name r stamp = None → backup_name r stamp ≠ name →
  ∃ bs', archive_ok bs' name r' fs' ∧ archive bs' name fs' = archive bs name fs ∧ same_config r r' ∧
    match e with Ok _ => ∃ i, file r' = Open i | Err _ => True end ∧
    ∀ M, 0 ≤ M → bounded M bs name r fs → bounded M bs' name r' fs' ∧
         match e with Ok _ => read_file fs' name = "" | Err _ => True end.
Proof.
  intros Hr Hok Hf Hnew Hne. unfold rotate in Hr. pose proof (archive_ok_close _ _ _ _ Hok) as Hok'.
  assert (Hc : file (close r) = Closed) by (unfold close; by destruct (file r) eqn:E).
  assert (Hconf : same_config r (close r) ∧ filename (close r) = name).
  { destruct Hok as (_ & _ & <- & _). unfold close. by destruct (file r). }
  destruct Hconf as [Hconf Hname]. destruct (on_rename a).
  2:{ simplify_eq. exists bs. split_and!; try done. intros M _ [_ Hle]. split; [|done]. split; [|done]. congruence. }
  assert (Hbk : backup_name (close r) stamp = backup_name r stamp)
    by (unfold backup_name; by destruct Hconf as (_ & -> & ->)).
  rewrite Hname, Hbk in Hr.
  destruct (rename_spec bs name (close r) fs (backup_name r stamp) Hok' Hc Hnew Hne) as (bs1 & Hok1 & Harc1 & Hold & Hbnd).
  destruct (openNew_spec _ _ _ _ _ _ _ _ Hr Hok1) as (Hok2 & Hread & Hconf2 & He & Hsz).
  exists bs1. split_and!; [done| | | |].
  - by rewrite (archive_same _ _ _ _ Hread).
  - destruct Hconf as (? & ? & ?), Hconf2 as (? & ? & ?). split_and!; congruence.
  - by destruct e.
  - intros M HM Hbd. assert (Hbd1 : bounded M bs1 name (close r) (default fs (Rename name (backup_name r stamp) fs))).
    { apply Hbnd; [done|]. destruct Hbd as [_ Hle]. split; [intros i Hi; congruence|done]. }
    split; [|destruct e; [by rewrite Hread|done]]. eapply bounded_same; [done| |done]. by apply Hsz, Hbd1.
Qed.

Lemma same_config_trans r1 r2 r3 : same_config r1 r2 → same_config r2 r3 → same_config r1 r3.
Proof. intros (? & ? & ?) (? & ? & ?). split_and!; congruence. Qed.

Lemma ensure_open_spec a r fs e r' fs' bs name :
  ensure_open a r fs = (e, r', fs') → archive_ok bs name r fs →
  archive_ok bs name r' fs' ∧ (∀ n, read_file fs' n = read_file fs n) ∧ same_config r r' ∧
  (is_ok e = true → file r' ≠ NoFile) ∧ (size_ok r fs → size_ok r' fs').
Proof.
  intros Ho Hok. unfold ensure_open in Ho. destruct (file r) eqn:Ef; [simplify_eq; split_and!; try done; congruence..|].
  destruct (openNew_spec _ _ _ _ _ _ _ _ Ho Hok) as (? & ? & ? & He & ?). split_and!; try done.
  intros Hi. destruct e; [|done]. destruct He as [i ->]. done.
Qed.

(** One write, whatever the system answers. *)
Lemma Write_spec c r fs bs name n e r' fs' :
  Write (data c) (at_ c) (answers c) r fs = (n, e, r', fs') → archive_ok bs name r fs → fresh_rotation c r fs →
  ∃ bs', archive_ok bs' name r' fs' ∧ archive bs' name fs' = (archive bs name fs +:+ str_take n (data c))%string ∧
    same_config r r' ∧
    (0 < maxSize r < 2 ^ 62 → Z.of_nat (String.length (data c)) ≤ maxSize r →
     bounded (maxSize r) bs name r fs → bounded (maxSize r) bs' name r' fs').
Proof.
  intros Hw Hok Hfresh. unfold Write in Hw. unfold fresh_rotation in Hfresh.
  destruct (ensure_open (on_open (answers c)) r fs) as [[e1 r1] fs1] eqn:Eo.
  destruct (ensure_open_spec _ _ _ _ _ _ _ _ Eo Hok) as (Hok1 & Hread1 & Hconf1 & Hf1 & Hs1).
  assert (Hbd1 : ∀ M, bounded M bs name r fs → bounded M bs name r1 fs1)
    by (intros M Hb; eapply bounded_same; [done|apply Hs1, Hb|done]).
  rewrite <- (archive_same bs name fs fs1) by done.
  destruct e1 as [|err]; [specialize (Hf1 eq_refl)|].
  2:{ simplify_eq. exists bs. change (str_take 0 (data c)) with "". rewrite str_app_nil_r. by split_and!; auto. }
  assert (Hname1 : filename r1 = name) by apply Hok1.
  destruct (exceeds (data c) r1) eqn:Ex.
  - destruct (Hfresh eq_refl) as [Hnew Hne]. rewrite Hname1 in Hne.
    destruct (rotate (at_ c) (answers c) r1 fs1) as [[e2 r2] fs2] eqn:Er.
    destruct (rotate_spec _ _ _ _ _ _ _ _ _ Er Hok1 Hf1 Hnew Hne) as (bs' & Hok2 & Harc2 & Hconf2 & Hi2 & Hbd2).
    destruct e2 as [|err].
    + destruct (write_out_spec _ _ _ _ bs' name _ _ _ _ Hw Hok2) as (Hok3 & Harc3 & Hconf3 & Hbd3).
      exists bs'. split_and!; [done|by rewrite Harc3, Harc2|exact (same_config_trans _ _ _ Hconf1 (same_config_trans _ _ _ Hconf2 Hconf3))|].
      intros HM Hlen Hb. destruct (Hbd2 (maxSize r) ltac:(lia) (Hbd1 _ Hb)) as [Hb2 Hempty].
      apply Hbd3; [lia| |done]. rewrite Hempty. simpl. lia.
    + simplify_eq. exists bs'. change (str_take 0 (data c)) with "". rewrite str_app_nil_r.
      split_and!; [done|done|exact (same_config_trans _ _ _ Hconf1 Hconf2)|]. intros HM Hlen Hb. by apply Hbd2; [lia|apply Hbd1].
  - destruct (write_out_spec _ _ _ _ bs name _ _ _ _ Hw Hok1) as (Hok3 & Harc3 & Hconf3 & Hbd3).
    exists bs. split_and!; [done|done|exact (same_config_trans _ _ _ Hconf1 Hconf3)|]. intros HM Hlen Hb.
    destruct (file r1) as [i| |] eqn:Ef; [|unfold write_out in Hw; rewrite Ef in Hw; simplify_eq; by apply Hbd1|done].
    apply Hbd3; [lia| |by apply Hbd1]. destruct (Hbd1 _ Hb) as [Hs _]. specialize (Hs i Ef). rewrite Hname1 in Hs.
    unfold exceeds in Ex. destruct Hconf1 as [Hmax _]. rewrite Hmax, Hs in Ex.
    destruct Hb as [_ Hle]. specialize (Hle name (list_elem_of_here _ _)). rewrite <- Hread1 in Hle.
    rewrite andb_false_iff in Ex. rewrite i64_id in Ex by word.
    destruct Ex; zlia.
Qed.

Lemma writes_spec cs r r' fs fs' ns bs name :
  archive_ok bs name r fs → fresh_rotations cs r fs → writes cs r fs = (ns, r', fs') →
  ∃ bs', archive_ok bs' name r' fs' ∧ archive bs' name fs' = (archive bs name fs +:+ accepted ns cs)%string ∧
    (0 < maxSize r < 2 ^ 62 → Forall (λ c, Z.of_nat (String.length (data c)) ≤ maxSize r) cs →
     bounded (maxSize r) bs name r fs → bounded (maxSize r) bs' name r' fs').
Proof.
  revert r fs ns bs. induction cs as [|c cs IH]; intros r fs ns bs Hok Hfresh Hw.
  { simplify_eq/=. exists bs. by split_and!; [|rewrite str_app_nil_r|]. }
  simpl in Hw. destruct Hfresh as [Hc Hcs].
  destruct (Write (data c) (at_ c) (answers c) r fs) as [[[n e] r1] fs1] eqn:E1.
  destruct (writes cs r1 fs1) as [[ns1 r2] fs2] eqn:E2. simplify_eq/=.
  destruct (Write_spec c r fs bs name n e r1 fs1 E1 Hok Hc) as (bs1 & Hok1 & Harc1 & (Hmax & _ & _) & Hbd1).
  destruct (IH r1 fs1 ns1 bs1 Hok1 Hcs E2) as (bs2 & Hok2 & Harc2 & Hbd2).
  exists bs2. split_and!; [done| |].
  - rewrite Harc2, Harc1. unfold accepted. simpl. by rewrite str_app_assoc.
  - intros HM [Hlen Hall]%Forall_cons Hb. rewrite <- Hmax. apply Hbd2; rewrite Hmax; auto.
Qed.

Lemma init_ok name mb backups age a fs :
  fs_ok fs →
  let '(r, fs') := init name mb backups age a fs in archive_ok [] name r fs' ∧ size_ok r fs' ∧ maxSize r = i64 (mb * 1024 * 1024).
Proof.
  intros Hfs. unfold init. destruct (splitExt name) as [base e].
  set (r0 := mkRotator _ _ _ _ _ _ _ _). destruct (openNew a r0 fs) as [[e1 r] fs'] eqn:Eo.
  assert (Hok : archive_ok [] name r0 fs) by (split_and!; [done|done|done|by intros b ?%elem_of_nil]).
  destruct (openNew_spec _ _ _ _ _ _ _ _ Eo Hok) as (Hok' & _ & (Hmax & _) & _ & Hs). split_and!; [done|by apply Hs|done].
Qed.

(** *** Cleaning up *)

Lemma cleanup_loop_newest r now n i entries :
  maxAge r ≤ 0 → 0 < maxBackups r → n = i + Z.of_nat (length entries) → (∀ e, e ∈ entries → is_Some (e_mtime e)) →
  cleanup_loop r now n i entries = e_path <$> take (Z.to_nat (n - maxBackups r - i)) entries.
Proof.
  intros Ha Hb. revert i. induction entries as [|e entries IH]; intros i Hn Hm; [by rewrite take_nil|].
  simpl in Hn |- *. destruct (Hm e) as [t ->]; [by left|].
  rewrite (IH (i + 1)) by (lia || set_solver). destruct (Z.ltb_spec 0 (maxAge r)); [lia|].
  destruct (Z.ltb_spec 0 (maxBackups r)); [|lia]. simpl. destruct (Z.ltb_spec i (n - maxBackups r)).
  - replace (Z.to_nat (n - maxBackups r - i)) with (S (Z.to_nat (n - maxBackups r - (i + 1)))) by lia. done.
  - replace (Z.to_nat (n - maxBackups r - i)) with 0%nat by lia.
    replace (Z.to_nat (n - maxBackups r - (i + 1))) with 0%nat by lia. done.
Qed.

(** Without a limit of age, all but the newest [maxBackups] backups are removed. *)
Lemma cleanup_keeps_newest r now entries :
  maxAge r ≤ 0 → 0 < maxBackups r → (∀ e, e ∈ entries → is_Some (e_mtime e)) →
  let backups := filter (λ e, is_backup r e = true) entries in
  doCleanup r now entries = e_path <$> take (length backups - Z.to_nat (maxBackups r)) backups.
Proof.
  intros Ha Hb Hm backups. unfold doCleanup. fold backups.
  rewrite cleanup_loop_newest; try done; [do 2 f_equal; lia|].
  intros e [_ He]%list_elem_of_filter. by apply Hm.
Qed.

Lemma contains_app c s t : contains c (s +:+ t)%string = contains c s || contains c t.
Proof.
  induction s as [|a s IH]; [done|]. change (String a s +:+ t)%string with (String a (s +:+ t)%string). simpl.
  by rewrite IH, orb_assoc.
Qed.

Lemma cut_prefix_Some p s rest : cut_prefix p s = Some rest → s = (p +:+ rest)%string.
Proof.
  revert s. induction p as [|a p IH]; intros s Hc; simpl in Hc; [by simplify_eq|].
  destruct s as [|b s]; [done|]. destruct (Ascii.eqb_spec a b) as [->|]; [|done].
  by rewrite (IH s Hc).
Qed.

(** The names of a directory's entries hold no slash, but [baseName] keeps the
    directory of the file: its backups are never recognised. *)
Lemma directory_never_cleaned r now entries :
  contains "/" (baseName r) = true → (∀ e, e ∈ entries → contains "/" (e_name e) = false) → doCleanup r now entries = [].
Proof.
  intros Hb He. unfold doCleanup. assert (filter (λ e, is_backup r e = true) entries = []) as ->; [|done].
  induction entries as [|e entries IH]; [done|]. rewrite filter_cons_False; [by apply IH; set_solver|].
  unfold is_backup. destruct (cut_prefix _ _) as [rest|] eqn:Hc; [|done]. apply cut_prefix_Some in Hc.
  specialize (He e (list_elem_of_here _ _)). rewrite Hc, !contains_app, Hb in He. done.
Qed.

(** ** Properties *)

(** C15. Rotation loses nothing.  From a rotator whose file is open (or could not be
    opened yet), after any run of writes, whatever the system answers to them,
    the backups made, in the order of their rotations, followed by the current file hold what the
    file held at first followed by exactly the bytes the writes reported, in
    order, provided that no rotation takes a name in use.  If the file and every
    single write are within the size limit, so is every file of the archive. *)
Theorem rotation_keeps_logs (cs : list Call) (r r' : fileRotator) (fs fs' : FS) ns :
  archive_ok [] (filename r) r fs → fresh_rotations cs r fs → writes cs r fs = (ns, r', fs') →
  ∃ bs, archive bs (filename r) fs' = (read_file fs (filename r) +:+ accepted ns cs)%string ∧
    (∀ b, b ∈ bs → is_Some (names fs' !! b) ∧ b ≠ filename r) ∧
    (0 < maxSize r < 2 ^ 62 → size_ok r fs → Z.of_nat (String.length (read_file fs (filename r))) ≤ maxSize r →
     Forall (λ c, Z.of_nat (String.length (data c)) ≤ maxSize r) cs →
     ∀ b, b ∈ filename r :: bs → Z.of_nat (String.length (read_file fs' b)) ≤ maxSize r).
Proof.
  intros Hok Hfresh Hw.
  destruct (writes_spec cs r r' fs fs' ns [] (filename r) Hok Hfresh Hw) as (bs & Hok' & Harc & Hbd).
  exists bs. split_and!; [done|apply Hok'|]. intros HM Hs Hlen Hall b Hb. apply Hbd; try done. split; [done|].
  by intros b' ->%list_elem_of_singleton.
Qed.

Lemma rotation_keeps_logs_witness :
  let '(ns, r', fs') := writes (sample_calls ("2", "3")) sample_rotator sample_fs in
  ∃ bs, archive bs "app.log" fs' = "old;one;two;three;" ∧
    ∀ b, b ∈ "app.log" :: bs → Z.of_nat (String.length (read_file fs' b)) ≤ 8.
Proof.
  destruct (rotation_keeps_logs (sample_calls ("2", "3")) sample_rotator
    (writes (sample_calls ("2", "3")) sample_rotator sample_fs).1.2 sample_fs
    (writes (sample_calls ("2", "3")) sample_rotator sample_fs).2
    (writes (sample_calls ("2", "3")) sample_rotator sample_fs).1.1) as (bs & Harc & _ & Hbd).
  - split_and!; [split| |done|by intros b ?%elem_of_nil].
    + cbn [names sample_fs]. intros n i [<- <-]%lookup_singleton_Some. simpl. lia.
    + cbn [names sample_fs]. intros n1 n2 i [<- _]%lookup_singleton_Some [<- _]%lookup_singleton_Some. done.
    + by intros i [= <-].
  - vm_compute. repeat split; by intros.
  - vm_compute. reflexivity.
  - exists bs. split; [exact Harc|]. apply Hbd; [done|by intros i [= <-]|done|by repeat constructor].
Defined.

(** Two rotations in one second take the same name: the first backup is gone. *)
Lemma same_second_loses_backup :
  let '(ns, r', fs') := writes (sample_calls ("2", "2") ++ [mkCall "four;" "2" fine]) sample_rotator sample_fs in
  ns = [4; 4; 6; 5]%nat ∧ read_file fs' "app-2.log" = "three;" ∧ read_file fs' "app.log" = "four;" ∧
  length (map_to_list (names fs')) = 2%nat.
Proof. by vm_compute. Qed.

(** The default log file is in a directory. *)
Lemma default_never_cleaned entries now :
  (∀ e, e ∈ entries → contains "/" (e_name e) = false) →
  doCleanup (init "./logs/app.log" 100 3 7 OpenFails (mkFS ∅ [])).1 now entries = [].
Proof. by apply directory_never_cleaned. Qed.

End LogFile.
