(* ===== verification/LogWriter.v ===== *)
(** * Logs for a message queue (src/logger/mq_writer.go, logger.go, mq_adapter.go)

    [MQLogWriter] buffers log messages in a channel, and a goroutine collects
    them into batches and hands them to a producer.  Its loop is a state machine;
    the writes of other goroutines, ticks and [Close] come in between.  Before
    it stands the logger, which decides what is written where.  [zap]'s encoder
    and JSON are type classes, a producer is what it was handed. *)

From stdpp Require Import pretty.
From S2P Require Import Prelude.

Module LogWriter.

(** ** Messages *)

(** A value of type [any]: a string, or something else. *)
Inductive any := VStr (s : string) | VAny (id : Z).

Record LogMessage := mkMessage {
  Level : string;
  Module_ : string;
  Message : string;
  Fields : gmap string any;
  TraceID : string;
  UserID : string;
  Timestamp : Time;
  Service : string;
  Host : string
}.

(** [encoding/json]: a field may hold what JSON has no form for. *)
Class JsonLog := { Marshal : LogMessage → option string }.

(** ** The writer *)

Record MQLogWriterConfig := mkConfig {
  Topic : string;
  cfg_Service : string;
  cfg_Host : string;
  BufferSize : Z;
  BatchSize : Z;
  FlushInterval : Duration
}.

(** What the goroutine does next: it waits, or has messages of its batch left
    to send, the last time or not, or has returned. *)
Inductive Loop := LSelect | LSend (rest : list LogMessage) (final : bool) | LStopped.

Record MQLogWriter := mkWriter {
  topic : string;
  service : string;
  host : string;
  bufferSize : nat;
  batchSize : nat;
  flushInterval : Duration;
  buffer : list LogMessage;
  batch : list LogMessage;
  loop : Loop;
  cancelled : bool;
  published : list (string * string);
  producer_closed : bool
}.

Definition positive_or (n d : Z) : Z := if n <=? 0 then d else n.

Definition NewMQLogWriter (cfg : MQLogWriterConfig) : MQLogWriter :=
  mkWriter (Topic cfg) (cfg_Service cfg) (cfg_Host cfg)
    (Z.to_nat (positive_or (BufferSize cfg) 1000)) (Z.to_nat (positive_or (BatchSize cfg) 100))
    (positive_or (FlushInterval cfg) (100 * Millisecond)) [] [] LSelect false [] false.

Definition set_loop (b : list LogMessage) (l : Loop) (w : MQLogWriter) : MQLogWriter :=
  mkWriter (topic w) (service w) (host w) (bufferSize w) (batchSize w) (flushInterval w) (buffer w) b l
    (cancelled w) (published w) (producer_closed w).

Definition set_buffer (b : list LogMessage) (w : MQLogWriter) : MQLogWriter :=
  mkWriter (topic w) (service w) (host w) (bufferSize w) (batchSize w) (flushInterval w) b (batch w) (loop w)
    (cancelled w) (published w) (producer_closed w).

Definition publish (data : string) (w : MQLogWriter) : MQLogWriter :=
  mkWriter (topic w) (service w) (host w) (bufferSize w) (batchSize w) (flushInterval w) (buffer w) (batch w) (loop w)
    (cancelled w) (published w ++ [(topic w, data)]) (producer_closed w).

Definition logMsg (w : MQLogWriter) (level module message : string) (fields : gmap string any)
    (traceID userID : string) (now : Time) : LogMessage :=
  mkMessage level module message fields traceID userID now (service w) (host w).

(** A full buffer drops the message. *)
Definition enqueue (m : LogMessage) (w : MQLogWriter) : bool * MQLogWriter :=
  if (length (buffer w) <? bufferSize w)%nat then (true, set_buffer (buffer w ++ [m]) w) else (false, w).

Definition WriteLog (level module message : string) (fields : gmap string any) (traceID userID : string) (now : Time)
    (w : MQLogWriter) : bool * MQLogWriter :=
  enqueue (logMsg w level module message fields traceID userID now) w.

Section Run.
Context `{JsonLog}.

(** *** The cases of the goroutine's select *)

Definition run_receive (w : MQLogWriter) : option MQLogWriter :=
  match loop w, buffer w with
  | LSelect, m :: rest =>
      let b := batch w ++ [m] in
      Some (set_loop b (if (batchSize w <=? length b)%nat then LSend b false else LSelect) (set_buffer rest w))
  | _, _ => None
  end.

Definition run_tick (w : MQLogWriter) : option MQLogWriter :=
  match loop w with
  | LSelect => Some (match batch w with [] => w | b => set_loop b (LSend b false) w end)
  | _ => None
  end.

Definition run_done (w : MQLogWriter) : option MQLogWriter :=
  match loop w with
  | LSelect =>
      if cancelled w then Some (match batch w with [] => set_loop [] LStopped w | b => set_loop b (LSend b true) w end)
      else None
  | _ => None
  end.

(** One message of [sendBatch]; the error of the producer is dropped. *)
Definition sendBatch_step (w : MQLogWriter) : option MQLogWriter :=
  match loop w with
  | LSend (m :: rest) final =>
      let w := set_loop (batch w) (LSend rest final) w in
      Some (match Marshal m with None => w | Some data => publish data w end)
  | LSend [] final => Some (set_loop [] (if final : bool then LStopped else LSelect) w)
  | _ => None
  end.

(** *** [Close]: cancel, wait for the goroutine, close the producer *)

Definition Close_cancel (w : MQLogWriter) : MQLogWriter :=
  mkWriter (topic w) (service w) (host w) (bufferSize w) (batchSize w) (flushInterval w) (buffer w) (batch w) (loop w)
    true (published w) (producer_closed w).

Definition Close_producer (w : MQLogWriter) : option MQLogWriter :=
  match loop w with
  | LStopped =>
      if cancelled w then
        Some (mkWriter (topic w) (service w) (host w) (bufferSize w) (batchSize w) (flushInterval w) (buffer w) (batch w)
                (loop w) true (published w) true)
      else None
  | _ => None
  end.

Inductive Event :=
| EWrite (m : LogMessage)
| EReceive | ETick | EDone | ESend
| ECancel | EClose.

(** A write replies with its message if the buffer took it. *)
Definition step (e : Event) (w : MQLogWriter) : option (MQLogWriter * option LogMessage) :=
  let quiet (w : option MQLogWriter) := (λ w, (w, None)) <$> w in
  match e with
  | EWrite m => let '(ok, w) := enqueue m w in Some (w, if ok : bool then Some m else None)
  | EReceive => quiet (run_receive w)
  | ETick => quiet (run_tick w)
  | EDone => quiet (run_done w)
  | ESend => quiet (sendBatch_step w)
  | ECancel => quiet (Some (Close_cancel w))
  | EClose => quiet (Close_producer w)
  end.

End Run.

(** ** The adapter for the queues of package mq *)

Record MQProducerAdapter := mkAdapter { adapter_topic : string }.

Definition NewMQProducerAdapter (topic : string) : MQProducerAdapter := mkAdapter topic.

(** The topic a message is sent to is the adapter's, whatever the writer's. *)
Definition adapter_Publish (a : MQProducerAdapter) (topic data : string) : string * string := (adapter_topic a, data).

(** ** The logger *)

(** [zapcore.Level]. *)
Definition DebugLevel : Z := -1.
Definition InfoLevel : Z := 0.
Definition WarnLevel : Z := 1.
Definition ErrorLevel : Z := 2.
Definition FatalLevel : Z := 5.

Definition parseLevel (level : string) : Z :=
  if String.eqb level "debug" then DebugLevel
  else if String.eqb level "info" then InfoLevel
  else if String.eqb level "warn" then WarnLevel
  else if String.eqb level "error" then ErrorLevel
  else InfoLevel.

Definition level_string (l : Z) : string :=
  if l =? -1 then "debug" else if l =? 0 then "info" else if l =? 1 then "warn" else if l =? 2 then "error"
  else if l =? 3 then "dpanic" else if l =? 4 then "panic" else if l =? 5 then "fatal"
  else ("Level(" +:+ pretty l +:+ ")")%string.

Abbreviation Field := (string * any)%type (only parsing).

(** What [zap]'s JSON encoder and the decoding after it make of an entry. *)
Class ZapEncoder := { encode_entry : list Field → option (gmap string any) }.

Record Logger := mkLogger {
  level : Z;
  enableDBLog : bool;
  minDBLogLevel : Z
}.

Inductive Output :=
| OLine (level : Z) (msg : string) (fields : list Field)
| ODB (level module msg : string) (fields : gmap string any) (traceID userID : string)
| OPanic.

Section Logging.
Context `{ZapEncoder}.

Definition fieldsToMap (fields : list Field) : gmap string any :=
  match fields with
  | [] => ∅
  | _ => match encode_entry fields with
         | None => ∅
         | Some m => delete "msg" (delete "level" (delete "time" m))
         end
  end.

Definition shouldWriteToDB (lg : Logger) (writer : bool) (lv : Z) : bool :=
  enableDBLog lg && writer && (minDBLogLevel lg <=? lv).

(** The writer is read twice: [writer] says whether there is one at the check,
    [writer'] whether there is one at the use. *)
Definition writeDBLog (lg : Logger) (writer writer' : bool) (lv : Z) (module msg : string) (fields : list Field)
    (traceID userID : string) : list Output :=
  if shouldWriteToDB lg writer lv then
    if writer' then [ODB (level_string lv) module msg (fieldsToMap fields) traceID userID] else [OPanic]
  else [].

Definition zap_line (lg : Logger) (lv : Z) (msg : string) (fields : list Field) : list Output :=
  if level lg <=? lv then [OLine lv msg fields] else [].

(** [Debug], [Info], [Warn] and [Error] are one function of the level, as are
    their variants with a module and those of a [LogContext]. *)
Definition log (lg : Logger) (writer writer' : bool) (lv : Z) (msg : string) (fields : list Field) : list Output :=
  zap_line lg lv msg fields ++ writeDBLog lg writer writer' lv "" msg fields "" "".

(** The process ends with the line. *)
Definition Fatal (lg : Logger) (writer writer' : bool) (msg : string) (fields : list Field) : list Output :=
  writeDBLog lg writer writer' FatalLevel "" msg fields "" "" ++ zap_line lg FatalLevel msg fields.

Definition log_with_module (lg : Logger) (writer writer' : bool) (lv : Z) (module msg : string) (fields : list Field)
    : list Output :=
  zap_line lg lv msg (("module", VStr module) :: fields) ++ writeDBLog lg writer writer' lv module msg fields "" "".

Record LogContext := mkContext { traceID : string; userID : string }.

Definition WithTraceID (traceID : string) : LogContext := mkContext traceID "".
Definition WithUserID (userID : string) : LogContext := mkContext "" userID.
Definition WithTraceAndUserID (traceID userID : string) : LogContext := mkContext traceID userID.

Definition appendContextFields (lc : LogContext) (fields : list Field) : list Field :=
  (if decide (traceID lc = "") then [] else [("trace_id", VStr (traceID lc))]) ++
  (if decide (userID lc = "") then [] else [("user_id", VStr (userID lc))]) ++ fields.

Definition context_log (lc : LogContext) (lg : Logger) (writer writer' : bool) (lv : Z) (msg : string)
    (fields : list Field) : list Output :=
  zap_line lg lv msg (appendContextFields lc fields) ++
  writeDBLog lg writer writer' lv "" msg fields (traceID lc) (userID lc).

(** [Debugf] and its kin, of the formatted text. *)
Definition logf (lg : Logger) (lv : Z) (text : string) : list Output := zap_line lg lv text [].

End Logging.

(** ** Specification-side definitions *)

(** Events of the goroutine. *)
Definition own (e : Event) : bool := match e with EReceive | ETick | ESend => true | _ => false end.

(** Messages taken from the buffer and not handed over yet. *)
Definition in_hand (w : MQLogWriter) : list LogMessage :=
  match loop w with LSelect => batch w | LSend rest _ => rest | LStopped => [] end.

(** The accepted messages, in order: those done with, those in hand, those in
    the buffer. *)
Definition accounts `{JsonLog} (accepted : list LogMessage) (w : MQLogWriter) : Prop :=
  (∃ handled, accepted = handled ++ in_hand w ++ buffer w ∧ published w = (λ d, (topic w, d)) <$> omap Marshal handled) ∧
  (length (buffer w) ≤ bufferSize w)%nat ∧ (0 < bufferSize w)%nat ∧ (0 < batchSize w)%nat ∧
  match loop w with
  | LSelect => (length (batch w) < batchSize w)%nat
  | LSend rest final => (length rest ≤ batchSize w)%nat ∧ (final = true → cancelled w = true)
  | LStopped => cancelled w = true
  end.

Definition sending_last (w : MQLogWriter) : bool :=
  match loop w with LStopped | LSend _ true => true | _ => false end.

(** Steps of the goroutine until nothing is left, at most. *)
Definition work (w : MQLogWriter) : nat :=
  4 * length (buffer w) + match loop w with LSelect => 3 * length (batch w) | LSend rest _ => S (length rest) | LStopped => 0 end.

Definition sample_json : JsonLog := {| Marshal m := Some (Message m) |}.

Definition sample_config : MQLogWriterConfig := mkConfig "logs" "users" "host1" 2 2 0.

Definition sample_message (s : string) : LogMessage := mkMessage "info" "" s ∅ "" "" 0 "users" "host1".

(** ** Lemmas *)

Section Lemmas.
Context `{JsonLog}.

Lemma accounts_new cfg : accounts [] (NewMQLogWriter cfg).
Proof.
  unfold accounts, NewMQLogWriter, positive_or. simpl.
  split; [by exists []|]. repeat case_match; zlia.
Qed.

Lemma step_accounts e w w' r accepted :
  accounts accepted w → step e w = Some (w', r) → accounts (accepted ++ option_list r) w'.
Proof.
  destruct w as [tp sv ho bs bt fi buf bat lo ca pu pc].
  intros ((handled & -> & Epub) & Hlen & Hbuf & Hbatch & Hloop) Hs. unfold accounts, in_hand in *.
  destruct e, lo; simpl in *; unfold enqueue, run_receive, run_tick, run_done, sendBatch_step, Close_producer in Hs;
    simpl in Hs.
  all: repeat (case_match; simplify_eq/=; try done).
  all: rewrite ?app_nil_r, ?Nat.ltb_lt, ?Nat.leb_gt, ?Nat.leb_le in *; destruct_and?.
  all: try (split; [|rewrite ?length_app in *; simpl in *; split_and!; try done; try lia; auto]).
  all: rewrite ?length_app in *; simpl in *; try lia; try (by exists handled; rewrite <- ?app_assoc).
  all: exists (handled ++ [l]); rewrite omap_app, fmap_app, <- app_assoc; simpl.
  all: repeat match goal with Hm : Marshal _ = _ |- _ => rewrite Hm; clear Hm end; by rewrite ?app_nil_r.
Qed.

Lemma steps_account evs w w' rs accepted :
  accounts accepted w → run_steps step evs w = Some (w', rs) → accounts (accepted ++ omap id rs) w'.
Proof.
  revert w rs accepted. induction evs as [|e evs IH]; intros w rs accepted Hacc Hrun.
  { simplify_eq/=. by rewrite app_nil_r. }
  destruct (run_steps_cons _ _ _ _ _ _ Hrun) as (w1 & r & rs' & Hs & Hr & ->).
  pose proof (IH w1 rs' _ (step_accounts _ _ _ _ _ Hacc Hs) Hr) as Hfin. rewrite <- app_assoc in Hfin.
  by destruct r.
Qed.

(** Unless it has sent its last batch, the goroutine has a step to take while
    anything is left, and each brings it nearer to the end. *)
Lemma work_step w :
  sending_last w = false → buffer w ++ in_hand w ≠ [] →
  ∃ e w', own e = true ∧ step e w = Some (w', None) ∧ sending_last w' = false ∧ (work w' < work w)%nat.
Proof.
  destruct w as [tp sv ho bs bt fi buf bat lo ca pu pc]. unfold sending_last, in_hand, work. simpl.
  intros Hl Hne. destruct lo as [|rest []|]; try done.
  - destruct buf as [|m buf].
    + destruct bat as [|m bat]; [done|]. exists ETick. eexists. split_and!; [done|done|done|simpl; lia].
    + exists EReceive. eexists. split_and!; [done|done|simpl; by destruct (bt <=? _)%nat|].
      simpl. destruct (bt <=? _)%nat; simpl; rewrite ?length_app; simpl; lia.
  - destruct rest as [|m rest]; exists ESend; eexists; (split_and!; [done|done|..]); simpl; try done; try lia.
    all: destruct (Marshal m); simpl; try done; lia.
Qed.

Lemma work_bound w : (work w ≤ 4 * length (in_hand w ++ buffer w) + 1)%nat.
Proof. unfold work, in_hand. rewrite length_app. destruct (loop w); lia. Qed.

Lemma step_topic e w w' r : step e w = Some (w', r) → topic w' = topic w.
Proof.
  destruct w as [tp sv ho bs bt fi buf bat lo ca pu pc]. intros Hs.
  destruct e, lo; simpl in Hs; unfold enqueue, run_receive, run_tick, run_done, sendBatch_step, Close_producer in Hs;
    simpl in Hs; simplify_eq/=; try done; repeat (case_match; simplify_eq/=; try done).
Qed.

Lemma writer_step_keeps e w w' r :
  step e w = Some (w', r) →
  service w' = service w ∧ host w' = host w ∧ ∃ new, published w' = published w ++ new.
Proof.
  destruct w as [tp sv ho bs bt fi buf bat lo ca pu pc]. intros Hs.
  destruct e, lo; simpl in Hs; unfold enqueue, run_receive, run_tick, run_done, sendBatch_step, Close_producer in Hs;
    simpl in Hs; simplify_eq/=; repeat (case_match; simplify_eq/=).
  all: (split; [done|]; split; [done|]); first [by exists []; rewrite app_nil_r|by eexists].
Qed.

Lemma drains n w taken :
  accounts taken w → sending_last w = false → (work w ≤ n)%nat →
  ∃ evs' w' rs', forallb own evs' = true ∧ (length evs' ≤ n)%nat ∧ run_steps step evs' w = Some (w', rs') ∧
    published w' = (λ d, (topic w, d)) <$> omap Marshal taken.
Proof.
  revert w. induction n as [|n IH]; intros w Hacc Hl Hn.
  all: destruct (decide (buffer w ++ in_hand w = [])) as [[Eb Eh]%app_eq_nil|Hne].
  1,3: exists [], w, []; split_and!; [done|simpl; lia|done|]; destruct Hacc as ((handled & -> & ->) & _);
    by rewrite Eb, Eh, !app_nil_r.
  - destruct (work_step w Hl Hne) as (e & w' & _ & _ & _ & ?). lia.
  - destruct (work_step w Hl Hne) as (e & w1 & He & Hs & Hl1 & Hlt).
    pose proof (step_accounts _ _ _ _ _ Hacc Hs) as Hacc1. simpl in Hacc1. rewrite app_nil_r in Hacc1.
    destruct (IH w1 Hacc1 Hl1 ltac:(lia)) as (evs' & w' & rs' & Hown & Hlen & Hr & Hp).
    exists (e :: evs'), w', (None :: rs'). split_and!; [simpl; by rewrite He|simpl; lia|simpl; rewrite Hs; simpl; by rewrite Hr|].
    by rewrite Hp, (step_topic _ _ _ _ Hs).
Qed.

End Lemmas.

(** ** Properties *)

Section Properties.
Context `{JsonLog}.

(** The log writer's accounts.  After any run of writes, receives, ticks, sends and
    a [Close] at any point, the messages the buffer took are, in order, those
    handled, of which every one that has a JSON form was handed to the
    producer once under the writer's topic, those of the current batch, and those in the buffer, which is
    within its size.  A goroutine that is not on its last batch can always finish
    the work: with its own steps alone, at most four a message and one, it
    hands over everything that was taken.  Once it has stopped, what is still in
    the buffer stays there. *)
Theorem log_writer_accounts cfg evs (w : MQLogWriter) rs :
  run_steps step evs (NewMQLogWriter cfg) = Some (w, rs) →
  let taken := omap id rs in
  let handed ms := (λ d, (topic w, d)) <$> omap Marshal ms in
  (∃ handled, taken = handled ++ in_hand w ++ buffer w ∧ published w = handed handled) ∧
  (length (buffer w) ≤ bufferSize w)%nat ∧
  (loop w = LStopped → cancelled w = true ∧ ∃ handled, taken = handled ++ buffer w ∧ published w = handed handled) ∧
  (sending_last w = false →
   ∃ evs' w' rs', forallb own evs' = true ∧ (length evs' ≤ 4 * length (in_hand w ++ buffer w) + 1)%nat ∧
     run_steps step evs' w = Some (w', rs') ∧ published w' = handed taken).
Proof.
  intros Hrun taken handed.
  pose proof (steps_account _ _ _ _ [] (accounts_new cfg) Hrun) as Hacc.
  pose proof Hacc as (Hh & Hlen & _ & _ & Hloop). split_and!; [done|done| |].
  - intros E. rewrite E in Hloop. split; [done|]. unfold in_hand in Hh. by rewrite E in Hh.
  - intros Hl. destruct (drains (work w) w taken Hacc Hl (Nat.le_refl _)) as (evs' & w' & rs' & Hown & Hlen' & Hr & Hp).
    exists evs', w', rs'. split_and!; [done| |done|done].
    pose proof (work_bound w). lia.
Qed.

End Properties.

Section Samples.
#[local] Existing Instance sample_json.

Lemma log_writer_accounts_witness :
  let m1 := sample_message "a" in let m2 := sample_message "b" in let m3 := sample_message "c" in
  ∃ w rs, run_steps step [EWrite m1; EWrite m2; EWrite m3; EReceive; EWrite m3] (NewMQLogWriter sample_config) = Some (w, rs) ∧
    omap id rs = [m1; m2; m3] ∧
    ∃ evs' w' rs', forallb own evs' = true ∧ run_steps step evs' w = Some (w', rs') ∧
      published w' = [("logs", "a"); ("logs", "b"); ("logs", "c")].
Proof.
  intros m1 m2 m3. eexists _, _. split; [vm_compute; reflexivity|]. split; [reflexivity|].
  destruct (log_writer_accounts sample_config [EWrite m1; EWrite m2; EWrite m3; EReceive; EWrite m3] _ _ eq_refl)
    as (_ & _ & _ & Hdrain).
  destruct (Hdrain eq_refl) as (evs' & w' & rs' & Hown & _ & Hr & Hp). exists evs', w', rs'. split_and!; [done|exact Hr|exact Hp].
Defined.

(** [Close] flushes the batch, not the buffer: with the select free to take the
    cancellation first, messages that were taken are never handed over. *)
Lemma close_loses_buffered :
  let m := sample_message "a" in
  ∃ w rs, run_steps step [EWrite m; ECancel; EDone; EClose] (NewMQLogWriter sample_config) = Some (w, rs) ∧
    omap id rs = [m] ∧ published w = [] ∧ buffer w = [m] ∧ producer_closed w = true.
Proof. eexists _, _. split; [vm_compute; reflexivity|done]. Qed.

(** The writer still takes messages after that. *)
Lemma closed_writer_takes :
  let m := sample_message "a" in
  ∃ w rs, run_steps step [ECancel; EDone; EClose; EWrite m] (NewMQLogWriter sample_config) = Some (w, rs) ∧
    omap id rs = [m] ∧ published w = [].
Proof. eexists _, _. split; [vm_compute; reflexivity|done]. Qed.

End Samples.

(** *** The logger *)

(** A field called time, level or msg never reaches the database. *)
Lemma reserved_fields_lost `{ZapEncoder} fields k :
  k ∈ ["time"; "level"; "msg"] → fieldsToMap fields !! k = None.
Proof.
  intros Hk. unfold fieldsToMap. destruct fields as [|f fields]; [done|].
  destruct (encode_entry (f :: fields)) as [m|]; [|done].
  apply list_elem_of_In in Hk. destruct Hk as [<-|[<-|[<-|[]]]].
  - rewrite lookup_delete_ne, lookup_delete_ne by done. apply lookup_delete_eq.
  - rewrite lookup_delete_ne by done. apply lookup_delete_eq.
  - apply lookup_delete_eq.
Qed.

(** A message goes to the database iff that is enabled, there is a writer and the
    level is high enough, whatever level the logger prints from. *)
Lemma database_gets_from_level `{ZapEncoder} lg writer lv msg fields l m t f tr u :
  ODB l m t f tr u ∈ log lg writer writer lv msg fields ↔
  enableDBLog lg = true ∧ writer = true ∧ minDBLogLevel lg ≤ lv ∧
  l = level_string lv ∧ m = "" ∧ t = msg ∧ f = fieldsToMap fields ∧ tr = "" ∧ u = "".
Proof.
  unfold log, zap_line, writeDBLog, shouldWriteToDB. rewrite elem_of_app.
  destruct (Z.leb_spec (minDBLogLevel lg) lv), (enableDBLog lg), writer, (level lg <=? lv); simpl; set_solver by lia.
Qed.

(** The writer is read again after the check: removed in between, it is nil. *)
Lemma writer_removed_panics `{ZapEncoder} lg lv msg fields :
  enableDBLog lg = true → minDBLogLevel lg ≤ lv → OPanic ∈ log lg true false lv msg fields.
Proof.
  intros He Hl. unfold log, writeDBLog, shouldWriteToDB. rewrite He. apply Z.leb_le in Hl. rewrite Hl. simpl. set_solver.
Qed.

End LogWriter.
