(* ===== verification/Config.v ===== *)
(** * Configuration (config/config.go)

    A [Config] merges the maps its sources load, the later ones over the earlier
    ones key by key at the top level, and is read by dotted paths.  Values are
    the dynamic types a source can produce; nested maps are shared with their
    source but never written by the package, so they are plain values here.
    Files, their parsers, the process environment, Unicode case mapping outside
    ASCII and the formatting of floating-point numbers are the class [Sys]. *)

From stdpp Require Import pretty.
From Stdlib Require Import SpecFloat.
From S2P Require Import Prelude Text.
Import Text.

Module Config.

(** ** Values *)

Inductive any :=
| VNil
| VString (s : string)
| VInt (n : Z)
| VInt64 (n : Z)
| VFloat (x : spec_float)
| VBool (b : bool)
| VStrings (l : list string)
| VSlice (l : list any)
| VMap (m : gmap string any)
| VOther (text : string).  (** any other type, by what [%v] prints *)

Class Sys := {
  ReadFile : string → option string;
  yaml_Unmarshal : string → option (gmap string any);
  json_Unmarshal : string → option (gmap string any);
  Environ : list string;
  unicode_lower : string → string;
  fmt_float : spec_float → string;
  int_overflow : spec_float → Z  (** [int64(x)] where [x] is no int64 *)
}.

Definition ToLower `{Sys} (s : string) : string := if ascii_only s then lower s else unicode_lower s.

(** [float64(n)]: the nearest double. *)
Definition float64_of_int (n : Z) : spec_float := binary_normalize 53 1024 n 0 false.

(** [int64(x)] drops the fraction. *)
Definition int_of_float64 `{Sys} (x : spec_float) : Z :=
  match x with
  | S754_zero _ => 0
  | S754_finite s m e =>
      let a := if 0 <=? e then Z.pos m * 2 ^ e else Z.pos m / 2 ^ (- e) in
      let n := if s then - a else a in
      if (- 2 ^ 63 <=? n) && (n <? 2 ^ 63) then n else int_overflow x
  | S754_infinity _ | S754_nan => int_overflow x
  end.

Definition key_le (a b : string * string) : Prop := String.leb a.1 b.1 = true.

#[export] Instance key_le_dec a b : Decision (key_le a b).
Proof. unfold key_le. apply _. Defined.

(** [fmt.Sprintf("%v", val)]; maps print by sorted keys. *)
Fixpoint fmt_v `{Sys} (v : any) : string :=
  match v with
  | VNil => "<nil>"
  | VString s => s
  | VInt n | VInt64 n => pretty n
  | VFloat x => fmt_float x
  | VBool b => if b then "true" else "false"
  | VStrings l => "[" +:+ Join " " l +:+ "]"
  | VSlice l => "[" +:+ Join " " (fmt_v <$> l) +:+ "]"
  | VMap m =>
      let entries := merge_sort key_le (map_fold (λ k v acc, (k, fmt_v v) :: acc) [] m) in
      "map[" +:+ Join " " ((λ kv, kv.1 +:+ ":" +:+ kv.2) <$> entries) +:+ "]"
  | VOther text => text
  end%string.

(** ** Sources *)

Inductive Error :=
| ErrRead (path : string)
| ErrParse (path : string)
| ErrFormat (ext : string)
| ErrNotFound (key : string)
| ErrMarshal
| ErrJoined (errs : list (string * Error)).

Inductive Source :=
| FileSource (path : string)
| EnvSource (prefix : string)
| MapSource (name : string) (data : gmap string any).

Definition Name (s : Source) : string :=
  match s with
  | FileSource path => "file:" +:+ path
  | EnvSource prefix => "env:" +:+ prefix
  | MapSource name _ => "map:" +:+ name
  end%string.

(** [filepath.Ext]: from the last dot of the last path element. *)
Fixpoint ext_loop (s : string) : option string :=
  match s with
  | EmptyString => None
  | String a r =>
      match ext_loop r with
      | Some e => Some e
      | None => if Ascii.eqb a "." && negb (contains "/" r) then Some s else None
      end
  end.

Definition Ext (path : string) : string := default "" (ext_loop path).

Section Sources.
Context `{Sys}.

Definition file_Load (path : string) : res Error (gmap string any) :=
  match ReadFile path with
  | None => Err (ErrRead path)
  | Some data =>
      let ext := ToLower (Ext path) in
      if decide (ext = ".yaml" ∨ ext = ".yml") then
        match yaml_Unmarshal data with Some m => Ok m | None => Err (ErrParse path) end
      else if decide (ext = ".json") then
        match json_Unmarshal data with Some m => Ok m | None => Err (ErrParse path) end
      else Err (ErrFormat ext)
  end.

(** The loop over the path keeps one current map; a value there that is no map
    leaves the current map as it is. *)
Fixpoint setNested (data : gmap string any) (keys : list string) (value : string) : gmap string any :=
  match keys with
  | [] => data
  | [k] => <[k := VString value]> data
  | k :: rest =>
      let data := match data !! k with None => <[k := VMap ∅]> data | Some _ => data end in
      match data !! k with
      | Some (VMap nested) => <[k := VMap (setNested nested rest value)]> data
      | _ => setNested data rest value
      end
  end.

(** The path and value one entry of the environment stands for. *)
Definition env_entry (prefix env : string) : option (list string * string) :=
  match cut_prefix prefix env with
  | None => None
  | Some _ =>
      match Cut "=" env with
      | (_, None) => None
      | (name, Some value) =>
          let key := default name (cut_prefix prefix name) in
          Some (Split "_" (ToLower key), value)
      end
  end.

Definition env_step (prefix : string) (result : gmap string any) (env : string) : gmap string any :=
  match env_entry prefix env with
  | None => result
  | Some (keys, value) => setNested result keys value
  end.

Definition env_Load (prefix : string) : gmap string any := foldl (env_step prefix) ∅ Environ.

Definition source_Load (s : Source) : res Error (gmap string any) :=
  match s with
  | FileSource path => file_Load path
  | EnvSource prefix => Ok (env_Load prefix)
  | MapSource _ data => Ok data
  end.

End Sources.

(** ** The configuration *)

Record Config := mkConfig { data : gmap string any; sources : list Source }.

Definition Option := Config → Config.

Definition add_source (s : Source) : Option := λ c, mkConfig (data c) (sources c ++ [s]).

Definition WithFile (path : string) : Option := add_source (FileSource path).

Definition WithEnv (prefix : string) : Option := add_source (EnvSource prefix).

Definition WithMap (data : gmap string any) (name : list string) : Option :=
  add_source (MapSource (match name with n :: _ => n | [] => "map" end) data).

Definition New (opts : list Option) : Config := foldl (λ c opt, opt c) (mkConfig ∅ []) opts.

Definition set_data (d : gmap string any) (c : Config) : Config := mkConfig d (sources c).

Section Operations.
Context `{RangeOrder} `{Sys}.

Definition merge (m : gmap string any) (c : Config) : Config :=
  set_data (foldl (λ d kv, <[kv.1 := kv.2]> d) (data c) (range_map m)) c.

Definition load_source (st : Config * list (string * Error)) (s : Source) : Config * list (string * Error) :=
  match source_Load s with
  | Err e => (st.1, st.2 ++ [(Name s, e)])
  | Ok m => (merge m st.1, st.2)
  end.

Definition Load (c : Config) : res Error unit * Config :=
  let '(c, loadErrs) := foldl load_source (c, []) (sources c) in
  (match loadErrs with [] => Ok tt | _ => Err (ErrJoined loadErrs) end, c).

(** The walk along the keys; a missing key and a value that is no map give
    [nil]. *)
Fixpoint walk (value : any) (keys : list string) : any :=
  match keys with
  | [] => value
  | k :: keys =>
      match value with
      | VMap v => match v !! k with Some value => walk value keys | None => VNil end
      | _ => VNil
      end
  end.

Definition Get (key : string) (c : Config) : any := walk (VMap (data c)) (Split "." key).

(** The first of the optional defaults, or the zero value. *)
Definition dflt {A} (zero : A) (defaultValue : list A) : A :=
  match defaultValue with d :: _ => d | [] => zero end.

Definition GetString (key : string) (defaultValue : list string) (c : Config) : string :=
  match Get key c with
  | VNil => dflt "" defaultValue
  | VString s => s
  | val => fmt_v val
  end.

Definition GetInt (key : string) (defaultValue : list Z) (c : Config) : Z :=
  match Get key c with
  | VNil => dflt 0 defaultValue
  | VInt v => v
  | VInt64 v => v
  | VFloat v => int_of_float64 v
  | _ => 0
  end.

Definition GetInt64 (key : string) (defaultValue : list Z) (c : Config) : Z :=
  match Get key c with
  | VNil => dflt 0 defaultValue
  | VInt64 v => v
  | VInt v => v
  | VFloat v => int_of_float64 v
  | _ => 0
  end.

Definition GetBool (key : string) (defaultValue : list bool) (c : Config) : bool :=
  match Get key c with
  | VNil => dflt false defaultValue
  | VBool v => v
  | VString v => bool_decide (ToLower v = "true") || bool_decide (v = "1")
  | _ => false
  end.

Definition GetFloat64 (key : string) (defaultValue : list spec_float) (c : Config) : spec_float :=
  match Get key c with
  | VNil => dflt (S754_zero false) defaultValue
  | VFloat v => v
  | VInt v => float64_of_int v
  | VInt64 v => float64_of_int v
  | _ => S754_zero false
  end.

(** [None] is a nil slice. *)
Definition GetStringSlice (key : string) (defaultValue : list (option (list string))) (c : Config)
    : option (list string) :=
  match Get key c with
  | VNil => dflt None defaultValue
  | VStrings v => Some v
  | VSlice v => Some (omap (λ item, match item with VString s => Some s | _ => None end) v)
  | _ => None
  end.

Definition GetStringMap (key : string) (defaultValue : list (option (gmap string string))) (c : Config)
    : option (gmap string string) :=
  match Get key c with
  | VNil => dflt None defaultValue
  | VMap m => Some (omap (λ v, match v with VString s => Some s | _ => None end) m)
  | _ => None
  end.

(** Decoding into a target goes through JSON text. *)
Definition Unmarshal {T} (json_Marshal : any → option string) (json_decode : string → option T)
    (key : string) (c : Config) : res Error T :=
  match Get key c with
  | VNil => Err (ErrNotFound key)
  | val =>
      match json_Marshal val with
      | None => Err ErrMarshal
      | Some text => match json_decode text with Some t => Ok t | None => Err (ErrParse key) end
      end
  end.

(** ** The package's default configuration: pointers to a heap of them *)

Record World := mkWorld { heap : list Config; defaultConfig : option nat; configOnce : bool }.

Definition alloc (c : Config) (w : World) : nat * World :=
  (length (heap w), mkWorld (heap w ++ [c]) (defaultConfig w) (configOnce w)).

Definition Init (opts : list Option) (w : World) : World :=
  if configOnce w then w
  else
    let '(l, w) := alloc (Load (New opts)).2 w in
    mkWorld (heap w) (Some l) true.

Definition Default (w : World) : option Config := l ← defaultConfig w; heap w !! l.

Definition pkg_Get (key : string) (w : World) : any :=
  match Default w with None => VNil | Some c => Get key c end.

Definition pkg_GetString (key : string) (defaultValue : list string) (w : World) : string :=
  match Default w with None => dflt "" defaultValue | Some c => GetString key defaultValue c end.

Definition pkg_GetInt (key : string) (defaultValue : list Z) (w : World) : Z :=
  match Default w with None => dflt 0 defaultValue | Some c => GetInt key defaultValue c end.

Definition pkg_GetBool (key : string) (defaultValue : list bool) (w : World) : bool :=
  match Default w with None => dflt false defaultValue | Some c => GetBool key defaultValue c end.

Definition LoadFile (path : string) (w : World) : res Error nat * World :=
  match Load (New [WithFile path]) with
  | (Err e, _) => (Err e, w)
  | (Ok _, c) => let '(l, w) := alloc c w in (Ok l, w)
  end.

Definition LoadApp (configPath : list string) (w : World) : res Error nat * World :=
  match Load (New [WithFile (dflt "config.yaml" configPath); WithEnv "APP_"]) with
  | (Err e, _) => (Err e, w)
  | (Ok _, c) => let '(l, w) := alloc c w in (Ok l, mkWorld (heap w) (Some l) (configOnce w))
  end.

End Operations.

(** ** What the theorems speak of *)

(** The value at a path, told apart from a stored [nil]. *)
Fixpoint find (value : any) (keys : list string) : option any :=
  match keys, value with
  | [], _ => Some value
  | k :: keys, VMap m => match m !! k with Some value => find value keys | None => None end
  | _ :: _, _ => None
  end.

Definition is_map (v : any) : bool := match v with VMap _ => true | _ => false end.

(** The map under a key, empty if there is none. *)
Definition nested_at (m : gmap string any) (k : string) : gmap string any :=
  match m !! k with Some (VMap n) => n | _ => ∅ end.

(** No proper prefix of the path holds a value that is no map. *)
Definition free (m : gmap string any) (p : list string) : Prop :=
  ∀ q w, q `prefix_of` p → q ≠ p → find (VMap m) q = Some w → is_map w = true.

Definition comparable (p q : list string) : Prop := p `prefix_of` q ∨ q `prefix_of` p.

(** No variable's path leads through another's. *)
Definition prefix_free (l : list (list string * string)) : Prop :=
  ∀ i j p q v w, i ≠ j → l !! i = Some (p, v) → l !! j = Some (q, w) → ¬ p `prefix_of` q.

(** What holds of a map that holds just the variables [l]. *)
Definition holds (l : list (list string * string)) (m : gmap string any) : Prop :=
  (∀ p v, (p, v) ∈ l → find (VMap m) p = Some (VString v)) ∧
  (∀ q w, find (VMap m) q = Some w → is_map w = false → ∃ v, (q, v) ∈ l ∧ w = VString v) ∧
  (∀ q, q ≠ [] → is_Some (find (VMap m) q) → ∃ p v, (p, v) ∈ l ∧ q `prefix_of` p).

(** The errors of the sources that fail, in order. *)
Definition failures `{Sys} (l : list Source) : list (string * Error) :=
  omap (λ s, match source_Load s with Err e => Some (Name s, e) | Ok _ => None end) l.

(** A source that has nothing under a top-level key. *)
Definition without `{Sys} (k : string) (s : Source) : Prop :=
  ∀ m, source_Load s = Ok m → m !! k = None.

(** A machine with one file, which sets two keys of a section, and three
    environment variables. *)
Definition sample_file : gmap string any :=
  {["db" := VMap (<["host" := VString "localhost"]> {["port" := VInt 5432]})]}.

Definition sample_sys : Sys := {|
  ReadFile path := if decide (path = "config.yaml") then Some "yaml" else None;
  yaml_Unmarshal text := if decide (text = "yaml") then Some sample_file else None;
  json_Unmarshal _ := None;
  Environ := ["HOME=/root"; "APP_DB_HOST=db.local"; "APP_SERVER_PORT=8080"];
  unicode_lower s := s;
  fmt_float _ := "";
  int_overflow _ := 0
|}.

(** ** Lemmas *)

Section Lemmas.
Context `{RangeOrder} `{Sys}.

Lemma walk_find v p : walk v p = default VNil (find v p).
Proof.
  revert v. induction p as [|k p IH]; intros v; [done|]. simpl. destruct v; try done. by destruct (m !! k).
Qed.

Lemma data_merge m c : data (merge m c) = m ∪ data c.
Proof. apply foldl_insert_range. Qed.

(** Sources without a key leave what is under it. *)
Lemma load_without k l st :
  Forall (without k) l → data (foldl load_source st l).1 !! k = data st.1 !! k.
Proof.
  revert st. induction l as [|s l IH]; intros st Hall; [done|]. apply Forall_cons in Hall as [Hs Hall]. simpl.
  rewrite IH by done. unfold load_source, without in *. destruct (source_Load s) as [m|e]; [|done].
  cbn [fst]. by rewrite data_merge, lookup_union_r by (by apply Hs).
Qed.

Lemma load_failures l st : (foldl load_source st l).2 = st.2 ++ failures l.
Proof.
  unfold failures. revert st. induction l as [|s l IH]; intros st; simpl; [by rewrite app_nil_r|].
  rewrite IH. unfold load_source. destruct (source_Load s); simpl; [done|]. by rewrite <- app_assoc.
Qed.

Lemma free_head m k rest n : free m (k :: rest) → m !! k = Some n → rest ≠ [] → is_map n = true.
Proof.
  intros Hf Hk Hr. apply (Hf [k]); [by exists rest|congruence|]. simpl. by rewrite Hk.
Qed.

Lemma free_nested m k rest : free m (k :: rest) → free (nested_at m k) rest.
Proof.
  intros Hf q w Hq Hne Hw. unfold nested_at in Hw.
  destruct (m !! k) as [[| | | | | | | |n|]|] eqn:Ek;
    try (destruct q; simpl in Hw; [by injection Hw as <-|by rewrite lookup_empty in Hw]).
  apply (Hf (k :: q)); [by apply prefix_cons|congruence|]. simpl. by rewrite Ek.
Qed.

Lemma setNested_free m k rest v :
  rest ≠ [] → free m (k :: rest) →
  setNested m (k :: rest) v = <[k := VMap (setNested (nested_at m k) rest v)]> m.
Proof.
  intros Hr Hf. destruct rest as [|k2 rest]; [done|].
  change (setNested m (k :: k2 :: rest) v) with
    (let m' := match m !! k with None => <[k := VMap ∅]> m | Some _ => m end in
     match m' !! k with
     | Some (VMap nested) => <[k := VMap (setNested nested (k2 :: rest) v)]> m'
     | _ => setNested m' (k2 :: rest) v
     end).
  unfold nested_at. destruct (m !! k) as [n|] eqn:Ek.
  - cbv zeta. rewrite Ek. pose proof (free_head _ _ _ _ Hf Ek Hr). by destruct n.
  - cbv zeta. by rewrite lookup_insert_eq, insert_insert_eq.
Qed.

Lemma find_nested m k p : p ≠ [] → find (VMap (nested_at m k)) p = find (VMap m) (k :: p).
Proof.
  intros Hp. unfold nested_at. destruct p as [|k2 p]; [done|]. simpl.
  destruct (m !! k) as [[]|]; by rewrite ?lookup_empty.
Qed.

(** Reading what was written. *)
Lemma setNested_same m p v : p ≠ [] → free m p → find (VMap (setNested m p v)) p = Some (VString v).
Proof.
  revert m. induction p as [|k p IH]; intros m Hp Hf; [done|]. destruct (decide (p = [])) as [->|Hne].
  - simpl. by rewrite lookup_insert_eq.
  - rewrite setNested_free by done. cbn [find]. rewrite lookup_insert_eq. apply IH; [done|by apply free_nested].
Qed.

(** Writing adds no other value than maps on the way. *)
Lemma setNested_leaf m p v q w :
  p ≠ [] → free m p → find (VMap (setNested m p v)) q = Some w → is_map w = false →
  (q = p ∧ w = VString v) ∨ find (VMap m) q = Some w.
Proof.
  revert m q. induction p as [|k p IH]; intros m q Hp Hf Hq Hw; [done|].
  destruct q as [|k' q]; [simpl in Hq; by injection Hq as <-|].
  destruct (decide (p = [])) as [->|Hne].
  - cbn [find setNested] in *. destruct (decide (k' = k)) as [->|Hk].
    + rewrite lookup_insert_eq in Hq. destruct q; [|done]. left. by injection Hq as <-.
    + rewrite lookup_insert_ne in Hq by done. by right.
  - rewrite setNested_free in Hq by done. cbn [find] in Hq. destruct (decide (k' = k)) as [->|Hk].
    + rewrite lookup_insert_eq in Hq. destruct (IH _ _ Hne (free_nested _ _ _ Hf) Hq Hw) as [[-> ->]|Hm].
      * by left.
      * right. destruct q as [|k2 q]; [simpl in Hm; by injection Hm as <-|]. by rewrite find_nested in Hm.
    + rewrite lookup_insert_ne in Hq by done. by right.
Qed.

(** Writing leaves what lies on no common path. *)
Lemma setNested_other m p v q :
  p ≠ [] → free m p → ¬ comparable p q → find (VMap (setNested m p v)) q = find (VMap m) q.
Proof.
  revert m q. induction p as [|k p IH]; intros m q Hp Hf Hc; [done|].
  destruct q as [|k' q]; [by destruct Hc; right; apply prefix_nil|]. destruct (decide (p = [])) as [->|Hne].
  - cbn [find setNested]. rewrite lookup_insert_ne; [done|]. intros ->. destruct Hc. left. by exists q.
  - rewrite setNested_free by done. cbn [find]. destruct (decide (k' = k)) as [->|Hk].
    + rewrite lookup_insert_eq. assert (¬ comparable p q) as Hc'.
      { intros [Hpq|Hqp]; destruct Hc; [left|right]; by apply prefix_cons. }
      rewrite IH; [|done|by apply free_nested|done]. destruct q as [|k2 q]; [destruct Hc'; right; apply prefix_nil|].
      by rewrite find_nested.
    + by rewrite lookup_insert_ne.
Qed.

Lemma find_app v p q : find v (p ++ q) = find v p ≫= λ w, find w q.
Proof.
  revert v. induction p as [|k p IH]; intros v; [done|]. simpl. destruct v; try done. by destruct (m !! k).
Qed.

(** Writing makes no path but those on the way. *)
Lemma setNested_found m p v q :
  p ≠ [] → free m p → is_Some (find (VMap (setNested m p v)) q) →
  q `prefix_of` p ∨ is_Some (find (VMap m) q).
Proof.
  intros Hp Hf Hq. destruct (decide (q `prefix_of` p)) as [|Hqp]; [by left|].
  destruct (decide (p `prefix_of` q)) as [[r ->]|Hpq].
  - rewrite find_app, setNested_same in Hq by done. destruct r; [|by destruct Hq].
    destruct Hqp. by rewrite app_nil_r.
  - right. rewrite setNested_other in Hq; [done..|]. by intros [?|?].
Qed.

(** One more variable on a path of its own. *)
Lemma holds_set l m p v :
  p ≠ [] → (∀ q w, (q, w) ∈ l → ¬ comparable p q) → holds l m → holds ((p, v) :: l) (setNested m p v).
Proof.
  intros Hp Hfree (Hin & Hleaf & Hway). assert (free m p) as Hf.
  { intros q w Hq Hne Hw. destruct (is_map w) eqn:Ew; [done|].
    destruct (Hleaf _ _ Hw Ew) as (v' & Hv & _). exfalso. apply (Hfree _ _ Hv). by right. }
  split_and!.
  - intros q w [E|Hq]%elem_of_cons; [|].
    + injection E as -> ->. by apply setNested_same.
    + rewrite setNested_other by eauto. by apply Hin.
  - intros q w Hq Hw. destruct (setNested_leaf _ _ _ _ _ Hp Hf Hq Hw) as [[-> ->]|Hm].
    + exists v. split; [by left|done].
    + destruct (Hleaf _ _ Hm Hw) as (v' & Hv' & ->). exists v'. split; [by right|done].
  - intros q Hq Hs. destruct (setNested_found _ _ _ _ Hp Hf Hs) as [Hqp|Hm].
    + exists p, v. split; [by left|done].
    + destruct (Hway q Hq Hm) as (p' & v' & Hv' & Hqp). exists p', v'. split; [by right|done].
Qed.

Lemma env_entry_path prefix e p v : env_entry prefix e = Some (p, v) → p ≠ [].
Proof.
  unfold env_entry. destruct (cut_prefix prefix e); [|done]. destruct (Cut "=" e) as [n [w|]]; [|done].
  intros [= <- _]. apply Split_nonempty.
Qed.

Lemma prefix_free_app l1 p v l2 :
  prefix_free (l1 ++ (p, v) :: l2) → ∀ q w, (q, w) ∈ l1 → ¬ comparable p q.
Proof.
  intros Hpf q w [i Hi]%list_elem_of_lookup [Hpq|Hqp].
  - apply (Hpf (length l1) i p q v w); [apply lookup_lt_Some in Hi; lia| | |done].
    + by apply list_lookup_middle.
    + rewrite lookup_app_l; [done|by eapply lookup_lt_Some].
  - apply (Hpf i (length l1) q p w v); [apply lookup_lt_Some in Hi; lia| | |done].
    + rewrite lookup_app_l; [done|by eapply lookup_lt_Some].
    + by apply list_lookup_middle.
Qed.

Lemma holds_perm l l' m : l ≡ₚ l' → holds l m → holds l' m.
Proof.
  intros Hp (H1 & H2 & H3). unfold holds. setoid_rewrite <- Hp. done.
Qed.

Lemma env_holds prefix es done m :
  prefix_free (done ++ omap (env_entry prefix) es) → holds done m →
  holds (done ++ omap (env_entry prefix) es) (foldl (env_step prefix) m es).
Proof.
  revert done m. induction es as [|e es IH]; intros done m Hpf Hm; simpl in *; [by rewrite app_nil_r|].
  unfold env_step at 2. destruct (env_entry prefix e) as [[p v]|] eqn:E; [|by apply IH].
  rewrite cons_middle, app_assoc in *. apply IH; [done|].
  eapply holds_perm; [apply Permutation_cons_append|]. apply holds_set; [by eapply env_entry_path| |done].
  rewrite <- app_assoc in Hpf. by apply (prefix_free_app _ _ v _ Hpf).
Qed.

Lemma holds_empty : holds [] ∅.
Proof.
  split_and!; [by intros ? ? ?%not_elem_of_nil| |]; intros [|k q]; simpl; rewrite ?lookup_empty; try done.
  by intros w [= <-].
Qed.

Lemma env_entry_var prefix name value :
  contains "=" (prefix +:+ name) = false →
  env_entry prefix (prefix +:+ name +:+ String "=" value)%string = Some (Split "_" (ToLower name), value).
Proof.
  intros Hn. unfold env_entry. rewrite cut_prefix_app, <- str_app_assoc, Cut_app by done.
  by rewrite cut_prefix_app.
Qed.

Lemma Get_path p c :
  p ≠ [] → Forall (λ k, contains "." k = false) p →
  Get (Join "." p) c = default VNil (find (VMap (data c)) p).
Proof. intros Hp Hd. unfold Get. by rewrite Split_Join, walk_find. Qed.

Lemma Load_data c r c' : Load c = (r, c') → c' = (foldl load_source (c, []) (sources c)).1.
Proof. unfold Load. destruct (foldl _ _ _). by intros [= _ <-]. Qed.

Lemma Get_split key c k rest v :
  Split "." key = k :: rest → data c !! k = Some v → Get key c = walk v rest.
Proof. intros Hs Hk. unfold Get. rewrite Hs. simpl. by rewrite Hk. Qed.

End Lemmas.

(** ** Properties *)

(** Loading.  Every source is loaded, a failing one only adds its error to
    those returned, in order.  Under a top-level key the configuration is what
    the last loaded source with that key has there, as a whole: nothing an
    earlier source set below the same key is left.  A key of no source keeps
    what was there before. *)
Theorem load_last_source_wins `{RangeOrder} `{Sys} c r c' :
  Load c = (r, c') →
  r = match failures (sources c) with [] => Ok tt | fs => Err (ErrJoined fs) end ∧
  (∀ before s after m key k rest v, sources c = before ++ s :: after → source_Load s = Ok m →
     Split "." key = k :: rest → m !! k = Some v → Forall (without k) after →
     Get key c' = walk v rest) ∧
  (∀ key k rest, Split "." key = k :: rest → Forall (without k) (sources c) → Get key c' = Get key c).
Proof.
  intros Hl. pose proof (Load_data _ _ _ Hl) as Hd. split_and!.
  - unfold Load in Hl. pose proof (load_failures (sources c) (c, [])) as Hf.
    destruct (foldl load_source (c, []) (sources c)) as [c1 errs]. simpl in Hf. subst errs.
    injection Hl as <- _. by destruct (failures _).
  - intros before s after m key k rest v Hs Hm Hk Hv Hafter. apply (Get_split _ _ k); [done|].
    rewrite Hd, Hs, foldl_app. cbn [foldl]. rewrite load_without by done. unfold load_source at 1.
    rewrite Hm. cbn [fst]. rewrite data_merge. by apply lookup_union_Some_l.
  - intros key k rest Hk Hw. unfold Get. rewrite Hk. simpl.
    replace (data c' !! k) with (data c !! k); [done|]. by rewrite Hd, load_without.
Qed.

Lemma load_last_source_wins_witness :
  let c := New [WithMap {["a" := VInt 1]} []; WithMap {["a" := VInt 2]} ["second"]] in
  Get "a" (Load (H := range_first_key_order) (H0 := sample_sys) c).2 = VInt 2.
Proof.
  destruct (load_last_source_wins (H := range_first_key_order) (H0 := sample_sys) 
    (New [WithMap {["a" := VInt 1]} []; WithMap {["a" := VInt 2]} ["second"]]) _ _ (surjective_pairing _))
    as (_ & Hget & _).
  exact (Hget [MapSource "map" {["a" := VInt 1]}] (MapSource "second" {["a" := VInt 2]}) [] _ "a" "a" [] _
    eq_refl eq_refl eq_refl eq_refl (Forall_nil_2 _)).
Defined.

(** C24. Environment variables.  When no variable's path leads through another's,
    a configuration loaded from the environment holds exactly them: each name,
    lower-cased and with dots for its underscores, reads back its text, and as a
    boolean what the text says; a path off all of them is missing and gives the
    default.  Read as an integer, a variable gives 0 whatever its text and
    whatever the default. *)
Theorem env_roundtrip `{RangeOrder} `{Sys} prefix r c' :
  let vars := omap (env_entry prefix) Environ in
  prefix_free vars → Load (New [WithEnv prefix]) = (r, c') →
  r = Ok tt ∧
  (∀ name value, (prefix +:+ name +:+ String "=" value)%string ∈ Environ →
     contains "=" (prefix +:+ name) = false → (Split "_" (ToLower name), value) ∈ vars) ∧
  (∀ p v, (p, v) ∈ vars → Forall (λ k, contains "." k = false) p →
     (∀ d, GetString (Join "." p) d c' = v) ∧
     (∀ d, GetBool (Join "." p) d c' = bool_decide (ToLower v = "true" ∨ v = "1")) ∧
     (∀ d, GetInt (Join "." p) d c' = 0)) ∧
  (∀ q, q ≠ [] → Forall (λ k, contains "." k = false) q → (∀ p v, (p, v) ∈ vars → ¬ comparable p q) →
     ∀ d, GetString (Join "." q) d c' = dflt "" d).
Proof.
  intros vars Hpf Hl.
  assert (r = Ok tt ∧ data c' = env_Load prefix) as [-> Hd].
  { unfold Load, New in Hl. simpl in Hl. injection Hl as <- <-. split; [done|].
    rewrite data_merge. simpl. apply (right_id_L ∅ (∪)). }
  destruct (env_holds prefix Environ [] ∅ Hpf holds_empty) as (Hin & _ & Hway).
  change (foldl _ _ _) with (env_Load prefix) in *. rewrite <- Hd in Hin, Hway. split_and!; [done| | |].
  - intros name value Hm He. apply list_elem_of_omap. eexists. split; [exact Hm|]. by apply env_entry_var.
  - intros p v Hp Hdots. pose proof Hp as Hne.
    apply list_elem_of_omap in Hne as (e & _ & Hne%env_entry_path).
    assert (Get (Join "." p) c' = VString v) as Hget by (by rewrite Get_path, (Hin _ _ Hp)).
    split_and!; intros d.
    + unfold GetString. by rewrite Hget.
    + unfold GetBool. rewrite Hget. by rewrite bool_decide_or.
    + unfold GetInt. by rewrite Hget.
  - intros q Hne Hdots Hoff d. unfold GetString. rewrite Get_path by done.
    destruct (find (VMap (data c')) q) as [w|] eqn:E; [|done]. simpl.
    destruct (Hway q Hne (ex_intro _ _ E)) as (p & v & Hv & Hqp). destruct (Hoff _ _ Hv). by right.
Qed.

Lemma env_roundtrip_witness :
  let c := (Load (H := range_first_key_order) (H0 := sample_sys) (New [WithEnv "APP_"])).2 in
  GetString (H0 := sample_sys) "db.host" ["localhost"] c = "db.local" ∧ GetInt (H0 := sample_sys) "server.port" [80] c = 0.
Proof.
  destruct (env_roundtrip (H := range_first_key_order) (H0 := sample_sys) "APP_" (Ok tt)
    (Load (H := range_first_key_order) (H0 := sample_sys) (New [WithEnv "APP_"])).2) as (_ & _ & Hread & _).
  - intros i j p q v w Hne Hi Hj.
    destruct i as [|[|i]], j as [|[|j]]; simpl in Hi, Hj; simplify_eq; apply (bool_decide_unpack (¬ _)); vm_compute; exact I.
  - by rewrite (surjective_pairing (Load _)).
  - split.
    + apply (Hread ["db"; "host"] "db.local"); [by left|repeat constructor].
    + apply (Hread ["server"; "port"] "8080"); [by right; left|repeat constructor].
Defined.

(** ** What the code does not promise *)

(** [LoadApp] with the sample file: the variable for [db.host] takes the whole
    section with it, and the file's [db.port] is gone. *)
Lemma environment_hides_section :
  let '(r, w) := LoadApp (H := range_first_key_order) (H0 := sample_sys) [] (mkWorld [] None false) in
  r = Ok 0%nat ∧
  pkg_GetString (H0 := sample_sys) "db.host" [] w = "db.local" ∧
  pkg_GetInt (H0 := sample_sys) "db.port" [1] w = 1 ∧
  pkg_GetInt (H0 := sample_sys) "server.port" [80] w = 0.
Proof. by vm_compute. Qed.

(** Two variables of which one's path leads through the other's: the longer one
    is stored a level up, under its last word. *)
Lemma conflicting_variables :
  let m := setNested (setNested ∅ ["db"] "x") ["db"; "host"] "h" in
  find (VMap m) ["db"; "host"] = None ∧ find (VMap m) ["host"] = Some (VString "h").
Proof. by vm_compute. Qed.

End Config.
