(* ===== verification/Query.v ===== *)
(** * Query builders (db/db.go)

    The builders compose SQL text with a question mark for each value and the
    values beside it.  What matters is that the driver binds each value to the
    mark of the condition it was given with: [fill] is that binding.  A builder
    is a record that every call updates and returns. *)

From stdpp Require Import pretty.
From S2P Require Import Prelude Text.
Import Text.

Module Query.

(** ** The query builder; [A] is the type of the values ([any]) *)

Record QueryBuilder (A : Type) := mkQuery {
  table : string;
  fields : list string;
  where_ : list string;
  args : list A;
  orderBy : string;
  limit : Z;
  offset : Z;
  groupBy : string;
  having : string
}.
Arguments mkQuery {A}.
Arguments table {A}.
Arguments fields {A}.
Arguments where_ {A}.
Arguments args {A}.
Arguments orderBy {A}.
Arguments limit {A}.
Arguments offset {A}.
Arguments groupBy {A}.
Arguments having {A}.

Section Select.
Context {A : Type}.
Implicit Types q : QueryBuilder A.

Definition Table (t : string) : QueryBuilder A := mkQuery t [] [] [] "" 0 0 "" "".

Definition Select (fs : list string) q : QueryBuilder A :=
  mkQuery (table q) fs (where_ q) (args q) (orderBy q) (limit q) (offset q) (groupBy q) (having q).

Definition Where (condition : string) (vs : list A) q : QueryBuilder A :=
  mkQuery (table q) (fields q) (where_ q ++ [condition]) (args q ++ vs) (orderBy q) (limit q) (offset q)
    (groupBy q) (having q).

Definition placeholders (vs : list A) : string := Join "," ((λ _, "?") <$> vs).

Definition WhereIn (field : string) (values : list A) q : QueryBuilder A :=
  Where (field +:+ " IN (" +:+ placeholders values +:+ ")")%string values q.

Definition WhereLike (field : string) (pattern : A) q : QueryBuilder A :=
  Where (field +:+ " LIKE ?")%string [pattern] q.

Definition OrderBy (order : string) q : QueryBuilder A :=
  mkQuery (table q) (fields q) (where_ q) (args q) order (limit q) (offset q) (groupBy q) (having q).

Definition Limit (n : Z) q : QueryBuilder A :=
  mkQuery (table q) (fields q) (where_ q) (args q) (orderBy q) n (offset q) (groupBy q) (having q).

Definition Offset (n : Z) q : QueryBuilder A :=
  mkQuery (table q) (fields q) (where_ q) (args q) (orderBy q) (limit q) n (groupBy q) (having q).

Definition GroupBy (g : string) q : QueryBuilder A :=
  mkQuery (table q) (fields q) (where_ q) (args q) (orderBy q) (limit q) (offset q) g (having q).

Definition Having (condition : string) (vs : list A) q : QueryBuilder A :=
  mkQuery (table q) (fields q) (where_ q) (args q ++ vs) (orderBy q) (limit q) (offset q) (groupBy q) condition.

(** The optional clauses of the text. *)
Definition where_clause (conds : list string) : string :=
  match conds with [] => "" | _ => (" WHERE " +:+ Join " AND " conds)%string end.

Definition clause (keyword text : string) : string :=
  if decide (text = "") then "" else (keyword +:+ text)%string.

Definition number_clause (keyword : string) (n : Z) : string :=
  if 0 <? n then (keyword +:+ pretty n)%string else "".

Definition Build q : string * list A :=
  ("SELECT " +:+ match fields q with [] => "*" | fs => Join ", " fs end +:+
   " FROM " +:+ table q +:+
   where_clause (where_ q) +:+
   clause " GROUP BY " (groupBy q) +:+
   clause " HAVING " (having q) +:+
   clause " ORDER BY " (orderBy q) +:+
   number_clause " LIMIT " (limit q) +:+
   number_clause " OFFSET " (offset q), args q)%string.

(** [Get], [First] and [Count]: the statement sent and the builder after it. *)
Definition Get q : (string * list A) * QueryBuilder A := (Build q, q).

Definition First q : (string * list A) * QueryBuilder A :=
  let q := Limit 1 q in (Build q, q).

Definition Count q : (string * list A) * QueryBuilder A :=
  let q := Select ["COUNT(*)"] q in (Build q, q).

End Select.

(** ** Insert, update, delete *)

Record InsertBuilder (A : Type) := mkInsert { i_table : string; i_fields : list string; values : list (list A) }.
Arguments mkInsert {A}.
Arguments i_table {A}.
Arguments i_fields {A}.
Arguments values {A}.

Record UpdateBuilder (A : Type) := mkUpdate {
  u_table : string; sets : gmap string A; u_where : list string; u_args : list A }.
Arguments mkUpdate {A}.
Arguments u_table {A}.
Arguments sets {A}.
Arguments u_where {A}.
Arguments u_args {A}.

Record DeleteBuilder (A : Type) := mkDelete { d_table : string; d_where : list string; d_args : list A }.
Arguments mkDelete {A}.
Arguments d_table {A}.
Arguments d_where {A}.
Arguments d_args {A}.

Section Write.
Context {A : Type}.

Definition Insert (t : string) : InsertBuilder A := mkInsert t [] [].

Definition Fields (fs : list string) (b : InsertBuilder A) : InsertBuilder A := mkInsert (i_table b) fs (values b).

Definition Values (vs : list A) (b : InsertBuilder A) : InsertBuilder A :=
  mkInsert (i_table b) (i_fields b) (values b ++ [vs]).

Definition row (vs : list A) : string := ("(" +:+ placeholders vs +:+ ")")%string.

Definition field_list (fs : list string) : string :=
  match fs with [] => "" | _ => (" (" +:+ Join ", " fs +:+ ")")%string end.

Definition insert_Build (b : InsertBuilder A) : string * list A :=
  ("INSERT INTO " +:+ i_table b +:+
   field_list (i_fields b) +:+
   " VALUES " +:+ Join "," (row <$> values b), mjoin (values b))%string.

Definition Update (t : string) : UpdateBuilder A := mkUpdate t ∅ [] [].

Definition Set_ (field : string) (v : A) (b : UpdateBuilder A) : UpdateBuilder A :=
  mkUpdate (u_table b) (<[field := v]> (sets b)) (u_where b) (u_args b).

Definition Sets `{RangeOrder} (m : gmap string A) (b : UpdateBuilder A) : UpdateBuilder A :=
  foldl (λ b kv, Set_ kv.1 kv.2 b) b (range_map m).

Definition update_Where (condition : string) (vs : list A) (b : UpdateBuilder A) : UpdateBuilder A :=
  mkUpdate (u_table b) (sets b) (u_where b ++ [condition]) (u_args b ++ vs).

Definition assignment (kv : string * A) : string := (kv.1 +:+ " = ?")%string.

Definition update_Build `{RangeOrder} (b : UpdateBuilder A) : string * list A :=
  let entries := range_map (sets b) in
  (("UPDATE " +:+ u_table b +:+ " SET " +:+ Join ", " (assignment <$> entries) +:+ where_clause (u_where b))%string,
   entries.*2 ++ match u_where b with [] => [] | _ => u_args b end).

Definition Delete (t : string) : DeleteBuilder A := mkDelete t [] [].

Definition delete_Where (condition : string) (vs : list A) (b : DeleteBuilder A) : DeleteBuilder A :=
  mkDelete (d_table b) (d_where b ++ [condition]) (d_args b ++ vs).

Definition delete_Build (b : DeleteBuilder A) : string * list A :=
  ("DELETE FROM " +:+ d_table b +:+ where_clause (d_where b), d_args b)%string.

End Write.

(** ** What the theorems speak of *)

(** A statement with its values in place: text, and a value for each mark. *)
Abbreviation Bound A := (list (ascii + A)) (only parsing).

Definition text {A} (s : string) : Bound A := inl <$> String.list_ascii_of_string s.

(** The driver's binding: the marks take the values in order, and there must be
    as many of the one as of the other. *)
Fixpoint fill {A} (s : string) (vs : list A) : option (Bound A) :=
  match s with
  | EmptyString => match vs with [] => Some [] | _ => None end
  | String c s =>
      if Ascii.eqb c "?" then
        match vs with
        | v :: vs => cons (inr v) <$> fill s vs
        | [] => None
        end
      else cons (inl c) <$> fill s vs
  end.

Definition plain (s : string) : Prop := contains "?" s = false.

Fixpoint join {A} (sep : Bound A) (l : list (Bound A)) : Bound A :=
  match l with
  | [] => []
  | [b] => b
  | b :: l => b ++ sep ++ join sep l
  end.

(** The calls on a query builder. *)
Inductive Op (A : Type) :=
| OSelect (fs : list string)
| OWhere (condition : string) (vs : list A)
| OWhereIn (field : string) (vs : list A)
| OWhereLike (field : string) (pattern : A)
| OOrderBy (order : string)
| OLimit (n : Z)
| OOffset (n : Z)
| OGroupBy (g : string)
| OHaving (condition : string) (vs : list A).
Arguments OSelect {A}.
Arguments OWhere {A}.
Arguments OWhereIn {A}.
Arguments OWhereLike {A}.
Arguments OOrderBy {A}.
Arguments OLimit {A}.
Arguments OOffset {A}.
Arguments OGroupBy {A}.
Arguments OHaving {A}.

Section Spec.
Context {A : Type}.

Definition apply (q : QueryBuilder A) (o : Op A) : QueryBuilder A :=
  match o with
  | OSelect fs => Select fs q
  | OWhere c vs => Where c vs q
  | OWhereIn f vs => WhereIn f vs q
  | OWhereLike f p => WhereLike f p q
  | OOrderBy s => OrderBy s q
  | OLimit n => Limit n q
  | OOffset n => Offset n q
  | OGroupBy g => GroupBy g q
  | OHaving c vs => Having c vs q
  end.

(** What a call says of the rows: a condition with its own values in place. *)
Definition condition_of (o : Op A) : option (Bound A) :=
  match o with
  | OWhere c vs => fill c vs
  | OWhereIn f vs => Some (text f ++ text " IN (" ++ join (text ",") ((λ v, [inr v]) <$> vs) ++ text ")")
  | OWhereLike f p => Some (text f ++ text " LIKE " ++ [inr p])
  | _ => None
  end.

Definition is_where (o : Op A) : bool :=
  match o with OWhere _ _ | OWhereIn _ _ | OWhereLike _ _ => true | _ => false end.

Definition is_having (o : Op A) : bool := match o with OHaving _ _ => true | _ => false end.

(** The names are plain text and each condition has a mark for each value. *)
Definition op_ok (o : Op A) : Prop :=
  match o with
  | OSelect fs => Forall plain fs
  | OWhere c vs => is_Some (fill c vs)
  | OWhereIn f _ | OWhereLike f _ => plain f
  | OOrderBy s | OGroupBy s => plain s
  | OHaving c vs => is_Some (fill c vs)
  | OLimit _ | OOffset _ => True
  end.

(** At most one [Having], and no condition on rows after it. *)
Fixpoint having_last (ops : list (Op A)) : bool :=
  match ops with
  | [] => true
  | o :: ops =>
      if is_having o then forallb (λ o, negb (is_where o || is_having o)) ops else having_last ops
  end.

(** The WHERE clause of the conditions [ws], in place, and the HAVING clause. *)
Definition bound_where (ws : list (Bound A)) : Bound A :=
  match ws with [] => [] | _ => text " WHERE " ++ join (text " AND ") ws end.

Definition bound_having (o : Op A) : option (Bound A) :=
  match o with
  | OHaving c vs => if decide (c = "") then Some [] else (λ b, text " HAVING " ++ b) <$> fill c vs
  | _ => None
  end.

(** What a builder holds after calls with the conditions [ws], the values of
    HAVING being [hargs]. *)
Definition built (q : QueryBuilder A) (ws : list (Bound A)) (hargs : list A) : Prop :=
  ∃ cs : list (string * list A * Bound A),
    where_ q = (λ c, c.1.1) <$> cs ∧ args q = mjoin ((λ c, c.1.2) <$> cs) ++ hargs ∧ ws = snd <$> cs ∧
    (∀ c, c ∈ cs → fill c.1.1 c.1.2 = Some c.2) ∧
    Forall plain (fields q) ∧ plain (groupBy q) ∧ plain (orderBy q).

End Spec.

(** The calls of one query, with values that are numbers. *)
Definition sample_ops : list (Op Z) :=
  [OSelect ["id"; "name"]; OWhere "age > ?" [18]; OGroupBy "name"; OWhereIn "id" [1; 2]; OHaving "COUNT(*) > ?" [3];
   OLimit 10].

(** ** Lemmas *)

Section Lemmas.
Context {A : Type}.
Implicit Types (vs : list A) (q : QueryBuilder A).

Lemma fill_app s t vs ws (a b : Bound A) :
  fill s vs = Some a → fill t ws = Some b → fill (s +:+ t)%string (vs ++ ws) = Some (a ++ b).
Proof.
  revert vs a. induction s as [|c s IH]; intros vs a Ha Hb.
  - destruct vs; [|done]. by injection Ha as <-.
  - change (String c s +:+ t)%string with (String c (s +:+ t)%string). simpl in *. case_match.
    + destruct vs as [|v vs]; [done|]. apply fmap_Some in Ha as (a' & Ha & ->). simpl.
      by rewrite (IH _ _ Ha Hb).
    + apply fmap_Some in Ha as (a' & Ha & ->). by rewrite (IH _ _ Ha Hb).
Qed.

Lemma fill_plain s : plain s → fill s ([] : list A) = Some (text s).
Proof.
  unfold plain. induction s as [|c s IH]; [done|]. simpl. intros [-> Hs]%orb_false_iff. by rewrite IH.
Qed.

Lemma fill_mark v : fill "?" [v] = Some [@inr ascii A v].
Proof. done. Qed.

Lemma fill_pre s t ws (b : Bound A) :
  plain s → fill t ws = Some b → fill (s +:+ t)%string ws = Some (text s ++ b).
Proof. intros Hs Ht. apply (fill_app s t [] ws); [by apply fill_plain|done]. Qed.

Lemma fill_post s t vs (a : Bound A) :
  fill s vs = Some a → plain t → fill (s +:+ t)%string vs = Some (a ++ text t).
Proof. intros Hs Ht. rewrite <- (app_nil_r vs). apply fill_app; [done|by apply fill_plain]. Qed.

(** Joined texts are bound one by one. *)
Lemma fill_Join {B} (f : B → string) (g : B → list A) (h : B → Bound A) sep l :
  plain sep → (∀ b, b ∈ l → fill (f b) (g b) = Some (h b)) →
  fill (Join sep (f <$> l)) (mjoin (g <$> l)) = Some (join (text sep) (h <$> l)).
Proof.
  intros Hsep. induction l as [|b l IH]; intros Hall; [done|].
  assert (fill (f b) (g b) = Some (h b)) as Hb by (apply Hall; by left).
  assert (fill (Join sep (f <$> l)) (mjoin (g <$> l)) = Some (join (text sep) (h <$> l))) as Hl
    by (apply IH; intros; apply Hall; by right).
  destruct l as [|c l]; [simpl; by rewrite app_nil_r|].
  change (Join sep (f <$> b :: c :: l)) with (f b +:+ (sep +:+ Join sep (f <$> c :: l)))%string.
  change (mjoin (g <$> b :: c :: l)) with (g b ++ mjoin (g <$> c :: l)).
  change (join (text sep) (h <$> b :: c :: l)) with (h b ++ text sep ++ join (text sep) (h <$> c :: l)).
  apply fill_app; [done|]. by apply fill_pre.
Qed.

Lemma fill_placeholders vs : fill (placeholders vs) vs = Some (join (text ",") ((λ v, [inr v]) <$> vs)).
Proof.
  unfold placeholders. rewrite <- (fill_Join (λ _, "?") (λ v, [v]) (λ v, [inr v])); [|done|done].
  f_equal. by induction vs as [|v vs IH]; [done|simpl; f_equal].
Qed.

Lemma plain_app s t : plain s → plain t → plain (s +:+ t)%string.
Proof.
  unfold plain. induction s as [|c s IH]; [done|]. simpl. intros [Hc Hs]%orb_false_iff Ht.
  change (contains "?" (String c (s +:+ t)%string) = false). simpl. by rewrite Hc, IH.
Qed.

Lemma plain_Join sep l : plain sep → Forall plain l → plain (Join sep l).
Proof.
  intros Hs Hl. induction Hl as [|s l Hp Hl IH]; [done|]. destruct l; [done|].
  change (plain (s +:+ (sep +:+ Join sep (s0 :: l)))%string). by repeat apply plain_app.
Qed.

Lemma plain_clause k s : plain k → plain s → plain (clause k s).
Proof. intros. unfold clause. case_decide; [done|by apply plain_app]. Qed.

Lemma text_app s t : @text A (s +:+ t)%string = text s ++ text t.
Proof. unfold text. by rewrite list_ascii_app, fmap_app. Qed.

Lemma plain_digits x s : plain s → plain (pretty_N_go x s).
Proof.
  revert s. induction (N.lt_wf_0 x) as [x _ IH]; intros s Hs.
  destruct (decide (x = 0%N)) as [->|Hx]; [by rewrite pretty_N_go_0|].
  rewrite pretty_N_go_step by lia. apply IH; [apply N.div_lt; lia|].
  unfold plain in *. simpl. rewrite Hs. unfold pretty_N_char. by repeat case_match.
Qed.

Lemma plain_number k n : plain k → plain (number_clause k n).
Proof.
  intros Hk. unfold number_clause. case_match; [|done]. apply plain_app; [done|].
  destruct n; try done. change (plain (pretty_N_go (N.pos p) "")). by apply plain_digits.
Qed.

Lemma fill_where cs :
  (∀ c : string * list A * Bound A, c ∈ cs → fill c.1.1 c.1.2 = Some c.2) →
  fill (where_clause ((λ c, c.1.1) <$> cs)) (mjoin ((λ c, c.1.2) <$> cs)) = Some (bound_where (snd <$> cs)).
Proof.
  intros Hall. destruct cs as [|c cs]; [done|].
  change (fill (" WHERE " +:+ Join " AND " ((λ c, c.1.1) <$> c :: cs))%string (mjoin ((λ c, c.1.2) <$> c :: cs)) =
          Some (text " WHERE " ++ join (text " AND ") (snd <$> c :: cs))).
  apply fill_pre; [done|]. by apply (fill_Join (λ c, c.1.1) (λ c, c.1.2) snd).
Qed.

(** Every condition on rows is added by [Where]. *)
Lemma where_call o :
  op_ok o → is_where o = true →
  ∃ c vs b, (∀ q, apply q o = Where c vs q) ∧ fill c vs = Some b ∧ condition_of o = Some b.
Proof.
  destruct o as [|c vs|f vs|f p| | | | |]; try done.
  - intros [b Hb] _. by exists c, vs, b.
  - intros Hf _. do 3 eexists. split_and!; [done| |done]. apply fill_pre; [done|]. apply fill_pre; [done|].
    apply fill_post; [apply fill_placeholders|done].
  - intros Hf _. do 3 eexists. split_and!; [done| |done]. by apply fill_pre.
Qed.

(** A call that adds no condition on groups. *)
Lemma built_apply q ws hargs o :
  op_ok o → is_having o = false → (is_where o = true → hargs = []) → built q ws hargs →
  built (apply q o) (ws ++ option_list (condition_of o)) hargs ∧ having (apply q o) = having q.
Proof.
  intros Hok Hh Hw (cs & Hq & Ha & -> & Hfill & Hf & Hg & Ho). destruct (is_where o) eqn:Ew.
  - rewrite Hw in Ha |- * by done. rewrite app_nil_r in Ha.
    destruct (where_call o Hok Ew) as (c & vs & b & -> & Hb & ->). split; [|done].
    exists (cs ++ [(c, vs, b)]). simpl.
    rewrite Hq, Ha, !fmap_app, join_app. simpl. rewrite !app_nil_r. split_and!; try done.
    intros c' [Hc|Hc%list_elem_of_singleton]%elem_of_app; [by apply Hfill|by subst].
  - destruct o; try done; split; try done; exists cs; rewrite app_nil_r; by split_and!.
Qed.

Lemma built_run ops q ws hargs :
  Forall op_ok ops → forallb (λ o, negb (is_having o)) ops = true →
  (forallb (λ o, negb (is_where o)) ops = true ∨ hargs = []) → built q ws hargs →
  built (foldl apply q ops) (ws ++ omap condition_of ops) hargs ∧ having (foldl apply q ops) = having q.
Proof.
  intros Hok Hh. revert q ws. induction Hok as [|o ops Ho Hok IH]; intros q ws Hw Hb; [by rewrite app_nil_r|].
  simpl in Hh, Hw. apply andb_true_iff in Hh as [Hh Hhs].
  destruct (built_apply q ws hargs o Ho) as [Hb1 Hq1]; [by apply negb_true_iff| |done|].
  - intros Ew. rewrite Ew in Hw. by destruct Hw.
  - destruct (IH Hhs _ _ ltac:(rewrite andb_true_iff in Hw; tauto) Hb1) as [Hb2 Hq2].
    rewrite <- Hq1, <- Hq2. split; [|done]. simpl. destruct (condition_of o); simpl in *.
    + by rewrite cons_middle, app_assoc.
    + by rewrite app_nil_r in Hb2.
Qed.

(** The text and values of a builder, bound. *)
Lemma fill_Build q ws hargs hb :
  plain (table q) → built q ws hargs → fill (clause " HAVING " (having q)) hargs = Some hb →
  fill (Build q).1 (Build q).2 =
    Some (text ("SELECT " +:+ match fields q with [] => "*" | fs => Join ", " fs end +:+ " FROM " +:+ table q)%string ++
          bound_where ws ++ text (clause " GROUP BY " (groupBy q)) ++ hb ++
          text (clause " ORDER BY " (orderBy q) +:+ number_clause " LIMIT " (limit q) +:+
                number_clause " OFFSET " (offset q))%string).
Proof.
  intros Ht (cs & Hq & Ha & -> & Hfill & Hf & Hg & Ho) Hh. unfold Build. cbn [fst snd]. rewrite Ha, Hq, !text_app, <- ?app_assoc.
  apply fill_pre; [done|]. apply fill_pre; [destruct (fields q); [done|by apply plain_Join]|].
  apply fill_pre; [done|]. apply fill_pre; [done|].
  apply fill_app; [by apply fill_where|].
  apply fill_pre; [by apply plain_clause|]. rewrite <- (app_nil_r hargs). apply fill_app; [done|].
  rewrite <- !text_app. apply fill_plain. apply plain_app; [by apply plain_clause|].
  apply plain_app; by apply plain_number.
Qed.

Lemma having_last_cases (ops : list (Op A)) :
  having_last ops = true →
  forallb (λ o, negb (is_having o)) ops = true ∨
  ∃ before c vs after, ops = before ++ OHaving c vs :: after ∧
    forallb (λ o, negb (is_having o)) before = true ∧ forallb (λ o, negb (is_having o)) after = true ∧
    forallb (λ o, negb (is_where o)) after = true.
Proof.
  induction ops as [|o ops IH]; [by left|]. simpl. destruct (is_having o) eqn:Eo.
  - intros Hrest. right. destruct o; try done. exists [], condition, vs, ops.
    rewrite forallb_elem in Hrest. split_and!; try done; apply forallb_elem;
      intros o Ho; specialize (Hrest o Ho); by destruct (is_where o), (is_having o).
  - intros [Hall|(before & c & vs & after & -> & Hb & Ha)]%IH; [by left|].
    right. exists (o :: before), c, vs, after. simpl. by rewrite Eo.
Qed.

Lemma omap_none {B C} (f : B → option C) l : (∀ x, x ∈ l → f x = None) → omap f l = [].
Proof.
  induction l as [|x l IH]; intros Hall; [done|]. simpl. rewrite Hall by (by left).
  apply IH. intros; apply Hall; by right.
Qed.

Lemma no_having (ops : list (Op A)) : forallb (λ o, negb (is_having o)) ops = true → omap bound_having ops = [].
Proof.
  rewrite forallb_elem. intros Hall. apply omap_none. intros o Ho. specialize (Hall o Ho).
  by destruct o.
Qed.

Lemma no_where (ops : list (Op A)) : forallb (λ o, negb (is_where o)) ops = true → omap condition_of ops = [].
Proof.
  rewrite forallb_elem. intros Hall. apply omap_none. intros o Ho. specialize (Hall o Ho).
  by destruct o.
Qed.

Lemma fill_row vs :
  fill (row vs) vs = Some (text "(" ++ join (text ",") ((λ v, [inr v]) <$> vs) ++ text ")").
Proof. apply fill_pre; [done|]. apply fill_post; [apply fill_placeholders|done]. Qed.

Lemma plain_field_list fs : Forall plain fs → plain (field_list fs).
Proof.
  intros Hfs. destruct fs; [done|]. apply plain_app; [done|]. apply plain_app; [by apply plain_Join|done].
Qed.

Lemma fill_assignments (kvs : list (string * A)) :
  Forall (λ kv, plain kv.1) kvs →
  fill (Join ", " (assignment <$> kvs)) kvs.*2 =
    Some (join (text ", ") ((λ kv, text kv.1 ++ text " = " ++ [inr kv.2]) <$> kvs)).
Proof.
  intros Hall. rewrite <- (fill_Join assignment (λ kv, [kv.2])).
  - f_equal. induction kvs as [|kv kvs IH]; [done|]. simpl. f_equal. apply IH. by inversion Hall.
  - done.
  - intros kv Hkv. rewrite Forall_forall in Hall. apply fill_pre; [by apply Hall|]. done.
Qed.

(** The builders after a series of calls. *)
Lemma fold_Values rows (b : InsertBuilder A) :
  foldl (λ b r, Values r b) b rows = mkInsert (i_table b) (i_fields b) (values b ++ rows).
Proof.
  revert b. induction rows as [|r rows IH]; intros b; simpl; [by rewrite app_nil_r; destruct b|].
  rewrite IH. simpl. by rewrite <- app_assoc.
Qed.

Lemma fold_update_Where (cs : list (string * list A * Bound A)) b :
  foldl (λ b c, update_Where c.1.1 c.1.2 b) b cs =
    mkUpdate (u_table b) (sets b) (u_where b ++ ((λ c, c.1.1) <$> cs)) (u_args b ++ mjoin ((λ c, c.1.2) <$> cs)).
Proof.
  revert b. induction cs as [|c cs IH]; intros b; simpl; [by rewrite !app_nil_r; destruct b|].
  rewrite IH. simpl. by rewrite <- !app_assoc.
Qed.

Lemma fold_delete_Where (cs : list (string * list A * Bound A)) b :
  foldl (λ b c, delete_Where c.1.1 c.1.2 b) b cs =
    mkDelete (d_table b) (d_where b ++ ((λ c, c.1.1) <$> cs)) (d_args b ++ mjoin ((λ c, c.1.2) <$> cs)).
Proof.
  revert b. induction cs as [|c cs IH]; intros b; simpl; [by rewrite !app_nil_r; destruct b|].
  rewrite IH. simpl. by rewrite <- !app_assoc.
Qed.

Lemma Sets_eq `{RangeOrder} (m : gmap string A) t : Sets m (Update t) = mkUpdate t m [] [].
Proof.
  rewrite <- (list_to_map_range m) at 2. rewrite <- (right_id_L ∅ (∪) (list_to_map _)).
  rewrite <- foldl_insert_NoDup by apply NoDup_fst_range_map.
  unfold Sets, Update. generalize (range_map m) (∅ : gmap string A). intros l.
  induction l as [|kv l IH]; intros s; [done|]. simpl. by rewrite <- IH.
Qed.

End Lemmas.

(** ** Properties *)

(** C17. What a query selects.  After any calls on a builder, when each condition
    has a mark for each of its values, at most one [Having] is made and none of
    the row conditions comes after it, the driver binds every value to a mark of
    the condition it was given with: the statement is the clauses in order with
    the conditions in place, joined by AND. *)
Theorem query_binds {A} (t : string) (ops : list (Op A)) :
  plain t → Forall op_ok ops → having_last ops = true →
  let q := foldl apply (Table t) ops in
  fill (Build q).1 (Build q).2 =
    Some (text ("SELECT " +:+ match fields q with [] => "*" | fs => Join ", " fs end +:+ " FROM " +:+ t)%string ++
          bound_where (omap condition_of ops) ++ text (clause " GROUP BY " (groupBy q)) ++
          mjoin (omap bound_having ops) ++
          text (clause " ORDER BY " (orderBy q) +:+ number_clause " LIMIT " (limit q) +:+
                number_clause " OFFSET " (offset q))%string).
Proof.
  intros Ht Hok Hlast q. subst q.
  assert (built (Table t : QueryBuilder A) [] []) as H0
    by (exists []; split_and!; try done; by intros c ?%not_elem_of_nil).
  assert (∀ ops q, table (foldl apply q ops) = table (q : QueryBuilder A)) as Htable.
  { intros l. induction l as [|o l IH]; intros q; [done|]. simpl. rewrite IH. by destruct o. }
  destruct (having_last_cases ops Hlast) as [Hno|(before & c & vs & after & -> & Hb & Ha & Hw)].
  - destruct (built_run ops _ _ _ Hok Hno (or_intror eq_refl) H0) as [Hbuilt Hh].
    rewrite (no_having _ Hno). rewrite (fill_Build _ (omap condition_of ops) [] []); [by rewrite Htable|by rewrite Htable|exact Hbuilt|by rewrite Hh].
  - apply Forall_app in Hok as [Hok1 [[hb Hhb] Hok2]%Forall_cons].
    destruct (built_run before _ _ _ Hok1 Hb (or_intror eq_refl) H0) as [Hbuilt _].
    assert (omap bound_having (OHaving c vs :: after) =
            [if decide (c = "") then [] else text " HAVING " ++ hb]) as Hh1.
    { change (omap bound_having (OHaving c vs :: after)) with
        (match bound_having (OHaving c vs) with
         | Some b => b :: omap bound_having after
         | None => omap bound_having after
         end).
      rewrite (no_having after Ha). simpl. rewrite Hhb. by case_decide. }
    rewrite foldl_app, !omap_app, (no_having before Hb), Hh1.
    change (omap condition_of (OHaving c vs :: after)) with (omap condition_of after).
    rewrite (no_where after Hw), app_nil_r. set (q := foldl apply (Table t) before) in *.
    change (foldl apply q (OHaving c vs :: after)) with (foldl apply (Having c vs q) after).
    assert (built (Having c vs q) (omap condition_of before) vs) as Hbuilt'.
    { destruct Hbuilt as (cs & E1 & E2 & E3 & E4 & E5 & E6 & E7). exists cs. simpl.
      rewrite E2, app_nil_r. by split_and!. }
    destruct (built_run after _ _ _ Hok2 Ha (or_introl Hw) Hbuilt') as [Hbuilt2 Hh].
    rewrite (no_where after Hw) in Hbuilt2. simpl in Hh.
    rewrite (fill_Build _ (omap condition_of before) vs (if decide (c = "") then [] else text " HAVING " ++ hb));
      [| |by rewrite app_nil_r in Hbuilt2|].
    + rewrite Htable. change (table (Having c vs q)) with (table q). unfold q at 2. rewrite Htable.
      change (table (Table t)) with t. cbn [mjoin list_join app]. by rewrite app_nil_r.
    + rewrite Htable. simpl. unfold q. by rewrite Htable.
    + rewrite Hh. unfold clause. case_decide; [by subst c; destruct vs|]. by apply fill_pre.
Qed.

Lemma query_binds_witness :
  let q := foldl apply (Table "users") sample_ops in
  (Build q).1 = "SELECT id, name FROM users WHERE age > ? AND id IN (?,?) GROUP BY name HAVING COUNT(*) > ? LIMIT 10"%string
  ∧ fill (Build q).1 (Build q).2 =
      Some (text "SELECT id, name FROM users WHERE age > " ++ [inr 18] ++ text " AND id IN (" ++ [inr 1] ++
            text "," ++ [inr 2] ++ text ") GROUP BY name HAVING COUNT(*) > " ++ [inr 3] ++ text " LIMIT 10").
Proof.
  split; [by vm_compute|].
  rewrite (query_binds "users" sample_ops); [by vm_compute|done| |done].
  repeat constructor; by eexists.
Defined.

(** What the writing statements bind.  An insert puts every row's values in
    its own parentheses, in order; an update sets each field of its map to the
    value stored for it, whatever the order of iteration, and its conditions, as
    those of a delete, keep their values. *)
Theorem writes_bind `{RangeOrder} {A} (t : string) (fs : list string) (rows : list (list A)) (m : gmap string A)
    (cs : list (string * list A * Bound A)) :
  plain t → Forall plain fs → map_Forall (λ k _, plain k) m →
  Forall (λ c, fill c.1.1 c.1.2 = Some c.2) cs →
  let i := insert_Build (foldl (λ b r, Values r b) (Fields fs (Insert t)) rows) in
  let u := update_Build (foldl (λ b c, update_Where c.1.1 c.1.2 b) (Sets m (Update t)) cs) in
  let d := delete_Build (foldl (λ b c, delete_Where c.1.1 c.1.2 b) (Delete t) cs) in
  fill i.1 i.2 =
    Some (text ("INSERT INTO " +:+ t +:+ field_list fs +:+ " VALUES ")%string ++
          join (text ",") ((λ vs, text "(" ++ join (text ",") ((λ v, [inr v]) <$> vs) ++ text ")") <$> rows)) ∧
  fill u.1 u.2 =
    Some (text ("UPDATE " +:+ t +:+ " SET ")%string ++
          join (text ", ") ((λ kv, text kv.1 ++ text " = " ++ [inr kv.2]) <$> range_map m) ++ bound_where (snd <$> cs)) ∧
  fill d.1 d.2 = Some (text ("DELETE FROM " +:+ t)%string ++ bound_where (snd <$> cs)).
Proof.
  intros Ht Hfs Hm Hcs i u d. rewrite Forall_forall in Hcs.
  split_and!.
  - subst i. rewrite fold_Values. unfold insert_Build. cbn [fst snd i_table i_fields values Fields Insert app].
    rewrite !text_app, <- !app_assoc. apply fill_pre; [done|]. apply fill_pre; [done|].
    apply fill_pre; [by apply plain_field_list|]. apply fill_pre; [done|].
    pose proof (fill_Join row id _ "," rows eq_refl (λ r _, fill_row r)) as Hrows. by rewrite list_fmap_id in Hrows.
  - subst u. rewrite fold_update_Where, Sets_eq. unfold update_Build. cbn [fst snd u_table sets u_where u_args].
    rewrite !text_app, <- !app_assoc. apply fill_pre; [done|]. apply fill_pre; [done|]. apply fill_pre; [done|].
    apply fill_app.
    + apply fill_assignments, Forall_forall. intros [k v] Hk%elem_of_range_map. by apply (Hm k v).
    + simpl. destruct cs as [|c cs]; [done|]. by apply fill_where.
  - subst d. rewrite fold_delete_Where. unfold delete_Build. cbn [fst snd d_table d_where d_args Delete app].
    rewrite !text_app, <- !app_assoc. apply fill_pre; [done|]. apply fill_pre; [done|]. by apply fill_where.
Qed.

Lemma writes_bind_witness :
  let d := delete_Build (delete_Where "id = ?" [7] (Delete "users")) in
  d.1 = "DELETE FROM users WHERE id = ?"%string ∧
  fill d.1 d.2 = Some (text "DELETE FROM users WHERE id = " ++ [inr 7]).
Proof.
  split; [by vm_compute|].
  destruct (writes_bind (H := range_first_key_order) "users" [] [] ∅ [("id = ?"%string, [7], text "id = " ++ [inr 7])])
    as (_ & _ & Hd); [done|done|apply map_Forall_empty|by constructor|exact Hd].
Defined.

(** ** What the code does not promise *)

(** A condition on groups given before one on rows: the text has them the other
    way round, and the driver binds 3 to the age and 18 to the count. *)
Lemma having_first_swaps_values :
  let q := foldl apply (Table "users") [OHaving "COUNT(*) > ?" [3]; OWhere "age > ?" [18]] in
  fill (Build q).1 (Build q).2 =
    Some (text "SELECT * FROM users WHERE age > " ++ [inr 3] ++ text " HAVING COUNT(*) > " ++ [inr 18]).
Proof. by vm_compute. Qed.

(** A second condition on groups replaces the text of the first and keeps its
    values: there are more values than marks. *)
Lemma having_twice_keeps_values :
  let q := foldl apply (Table "users") [OHaving "COUNT(*) > ?" [3]; OHaving "MAX(age) > ?" [18]] in
  fill (Build q).1 (Build q).2 = None.
Proof. by vm_compute. Qed.

(** Conditions are joined without parentheses, so that AND binds the first one's
    last alternative to the second condition. *)
Lemma alternatives_not_grouped :
  (Build (foldl apply (Table "t") [OWhere "a = ? OR b = ?" [1; 2]; OWhere "c = ?" [3]])).1 =
    "SELECT * FROM t WHERE a = ? OR b = ? AND c = ?"%string.
Proof. by vm_compute. Qed.

(** Counting keeps the page of the query, so the one row of the count is skipped,
    and leaves the builder selecting the count. *)
Lemma count_keeps_page :
  let q := foldl apply (Table "t") [OSelect ["id"]; OLimit 10; OOffset 20] in
  let '((sql, _), q') := Count (A := Z) q in
  sql = "SELECT COUNT(*) FROM t LIMIT 10 OFFSET 20"%string ∧
  (Get q').1.1 = "SELECT COUNT(*) FROM t LIMIT 10 OFFSET 20"%string.
Proof. by vm_compute. Qed.

End Query.
