(* ===== verification/Transact.v ===== *)
(** * Transactions and row scanning (db/db.go, sqlxutil/)

    The database is what has been committed and the statements of the open
    transactions; the driver decides which statements, begins and commits
    succeed.  A callback is a program that runs statements through a context and
    returns, panics or ends its goroutine ([runtime.Goexit]). *)

From S2P Require Import Prelude Text.
Import Text.

Module Transact.

(** ** The database *)

Record Database (Stmt : Type) := mkDatabase {
  committed : list Stmt;
  open_txs : gmap nat (list Stmt);
  next_tx : nat
}.
Arguments mkDatabase {Stmt}.
Arguments committed {Stmt}.
Arguments open_txs {Stmt}.
Arguments next_tx {Stmt}.

Class Driver (Stmt : Type) := {
  accepts : Database Stmt → Stmt → bool;
  begin_ok : Database Stmt → bool;
  commit_ok : Database Stmt → nat → bool
}.

Inductive Error := ErrBegin | ErrCommit | ErrUser (id : Z) | ErrScan | ErrNoRows | ErrRows (id : Z) | ErrNotStruct.

(** How a callback ends. *)
Inductive Outcome := Return (err : option Error) | Panicked | Exited.

Section Transactions.
Context {Stmt : Type} `{Driver Stmt}.
Abbreviation DB := (Database Stmt) (only parsing).

Definition BeginTx (db : DB) : option nat * DB :=
  if begin_ok db then
    (Some (next_tx db), mkDatabase (committed db) (<[next_tx db := []]> (open_txs db)) (S (next_tx db)))
  else (None, db).

(** A failed commit ends the transaction without effect. *)
Definition Commit (tx : nat) (db : DB) : option Error * DB :=
  match open_txs db !! tx with
  | None => (Some ErrCommit, db)
  | Some stmts =>
      if commit_ok db tx
      then (None, mkDatabase (committed db ++ stmts) (delete tx (open_txs db)) (next_tx db))
      else (Some ErrCommit, mkDatabase (committed db) (delete tx (open_txs db)) (next_tx db))
  end.

Definition Rollback (tx : nat) (db : DB) : DB :=
  mkDatabase (committed db) (delete tx (open_txs db)) (next_tx db).

(** A statement run by a transaction, or by the pool, which commits it at once. *)
Definition exec (target : option nat) (s : Stmt) (db : DB) : bool * DB :=
  if accepts db s then
    match target with
    | None => (true, mkDatabase (committed db ++ [s]) (open_txs db) (next_tx db))
    | Some tx =>
        match open_txs db !! tx with
        | None => (false, db)
        | Some stmts => (true, mkDatabase (committed db) (<[tx := stmts ++ [s]]> (open_txs db)) (next_tx db))
        end
    end
  else (false, db).

(** ** Contexts that carry a transaction *)

(** The transactions put in a context, innermost first; a nil one is [None]. *)
Abbreviation Ctx := (list (option nat)) (only parsing).

Definition WithTx (ctx : Ctx) (tx : option nat) : Ctx := tx :: ctx.

Definition TxFromContext (ctx : Ctx) : option nat := match ctx with tx :: _ => tx | [] => None end.

(** [namedQueryDB], [namedExecDB], [getDB] and [selectDB]: the transaction of the
    context, or else ([None]) the pool. *)
Definition executor (ctx : Ctx) : option nat := TxFromContext ctx.

(** [sqlxutil.WithTransaction], whose deferred function runs however the
    callback ends. *)
Definition WithTransaction (ctx : Ctx) (fn : Ctx → DB → Outcome * DB) (db : DB) : Outcome * DB :=
  match BeginTx db with
  | (None, db) => (Return (Some ErrBegin), db)
  | (Some tx, db) =>
      match fn (WithTx ctx (Some tx)) db with
      | (Panicked, db) => (Panicked, Rollback tx db)
      | (Return (Some e), db) => (Return (Some e), Rollback tx db)
      | (Return None, db) => let '(err, db) := Commit tx db in (Return err, db)
      | (Exited, db) => let '(_, db) := Commit tx db in (Exited, db)
      end
  end.

(** [DB.Transaction]: the deferred function acts on a panic only. *)
Definition Transaction (fn : nat → DB → Outcome * DB) (db : DB) : Outcome * DB :=
  match BeginTx db with
  | (None, db) => (Return (Some ErrBegin), db)
  | (Some tx, db) =>
      match fn tx db with
      | (Panicked, db) => (Panicked, Rollback tx db)
      | (Return (Some e), db) => (Return (Some e), Rollback tx db)
      | (Return None, db) => let '(err, db) := Commit tx db in (Return err, db)
      | (Exited, db) => (Exited, db)
      end
  end.

(** ** Callbacks *)

Inductive Prog :=
| Ret (err : option Error)
| Panic
| Goexit
| Exec (ctx : Ctx) (s : Stmt) (k : bool → Prog)
| Nested (ctx : Ctx) (fn : Ctx → Prog) (k : option Error → Prog).

Fixpoint run (p : Prog) (db : DB) : Outcome * DB :=
  match p with
  | Ret err => (Return err, db)
  | Panic => (Panicked, db)
  | Goexit => (Exited, db)
  | Exec ctx s k => let '(ok, db) := exec (executor ctx) s db in run (k ok) db
  | Nested ctx fn k =>
      match WithTransaction ctx (λ c db, run (fn c) db) db with
      | (Return err, db) => run (k err) db
      | (o, db) => (o, db)
      end
  end.

End Transactions.
Arguments Prog : clear implicits.

(** ** Rows *)

(** A result set: the rows the driver hands out one by one and the error
    [rows.Err()] reports after the last. *)
Record Rows (R : Type) := mkRows { rows : list R; rows_err : option Error }.
Arguments mkRows {R}.
Arguments rows {R}.
Arguments rows_err {R}.

Section Scan.
Context {R T : Type}.

Fixpoint scan_loop (scan : R → option T) (rs : list R) (results : list T) : res Error (list T) :=
  match rs with
  | [] => Ok results
  | r :: rs =>
      match scan r with
      | None => Err ErrScan
      | Some item => scan_loop scan rs (results ++ [item])
      end
  end.

(** [sqlxutil.NamedSelect] once the query has succeeded. *)
Definition NamedSelect (scan : R → option T) (rs : Rows R) : res Error (list T) * option Error :=
  match scan_loop scan (rows rs) [] with
  | Err e => (Err e, Some e)
  | Ok items => (Ok items, rows_err rs)
  end.

(** [sqlxutil.NamedInsertID] once the query has succeeded. *)
Definition NamedInsertID (scan : R → option Z) (rs : Rows R) : res Error Z :=
  match rows rs with
  | r :: _ => match scan r with None => Err ErrScan | Some id => Ok id end
  | [] => Err ErrNoRows
  end.

End Scan.

(** [sqlxutil.GetOne] and [SelectMany] read through the transaction of the context, or else the pool; the
    reading itself is sqlx's. *)
Section Reads.
Context {Query T : Type} (GetContext : option nat → Query → res Error T) (SelectContext : option nat → Query → res Error (list T)).

Definition GetOne (ctx : list (option nat)) (query : Query) : res Error T := let? item := GetContext (executor ctx) query in Ok item.

Definition SelectMany (ctx : list (option nat)) (query : Query) : res Error (list T) :=
  let? items := SelectContext (executor ctx) query in Ok items.

End Reads.

(** [db.Scan] reads into a struct: a column for each exported field, in order. *)
Section Struct.
Context {V : Type} (zero : V) (convert : V → option V).

(** The type's fields, by whether they are exported; [None] is no struct. *)
Definition scanValues (t : option (list bool)) : res Error nat :=
  match t with
  | None => Err ErrNotStruct
  | Some fs => Ok (length (filter (λ e, e = true) fs))
  end.

(** [rows.Scan] into the exported fields of a zero struct. *)
Fixpoint assign (fs : list bool) (cols : list V) : option (list V) :=
  match fs, cols with
  | [], [] => Some []
  | true :: fs, c :: cols => v ← convert c; cons v <$> assign fs cols
  | false :: fs, cols => cons zero <$> assign fs cols
  | _, _ => None
  end.

Fixpoint Scan_loop (t : option (list bool)) (rs : list (list V)) (results : list (list V))
    : res Error (list (list V)) :=
  match rs with
  | [] => Ok results
  | r :: rs =>
      let? _ := scanValues t in
      match assign (default [] t) r with
      | None => Err ErrScan
      | Some item => Scan_loop t rs (results ++ [item])
      end
  end.

Definition Scan (t : option (list bool)) (rs : Rows (list V)) : res Error (list (list V)) * option Error :=
  match Scan_loop t (rows rs) [] with
  | Err e => (Err e, Some e)
  | Ok results => (Ok results, rows_err rs)
  end.

(** [db.ScanOne]; no row is [nil] without an error. *)
Definition ScanOne (t : option (list bool)) (row : res Error (list V)) : res Error (option (list V)) :=
  let? _ := scanValues t in
  match row with
  | Err ErrNoRows => Ok None
  | Err e => Err e
  | Ok r => match assign (default [] t) r with None => Err ErrScan | Some item => Ok (Some item) end
  end.

End Struct.

(** ** Named parameters (sqlxutil/params_map.go) *)

Section Params.
Context {V : Type} (str : string → V).

Definition Set_ (key : string) (value : V) (m : gmap string V) : gmap string V := <[key := value]> m.

Definition SetIf (key : string) (value : V) (condition : bool) (m : gmap string V) : gmap string V :=
  if condition then <[key := value]> m else m.

Definition SetIfNotEmpty (key value : string) (m : gmap string V) : gmap string V :=
  let value := TrimSpace value in
  if decide (value ≠ "") then <[key := str value]> m else m.

End Params.

(** ** What the theorems speak of *)

Section Spec.
Context {Stmt : Type} `{Driver Stmt}.

(** Open transactions are older than the next one. *)
Definition db_ok (db : Database Stmt) : Prop := ∀ tx, is_Some (open_txs db !! tx) → (tx < next_tx db)%nat.

(** A callback that runs all its statements through contexts of one transaction. *)
Fixpoint tx_only (tx : nat) (p : Prog Stmt) : Prop :=
  match p with
  | Exec ctx s k => TxFromContext ctx = Some tx ∧ ∀ ok, tx_only tx (k ok)
  | Nested _ _ _ => False
  | _ => True
  end.

(** The database with the next transaction open. *)
Definition begun (db : Database Stmt) : Database Stmt :=
  mkDatabase (committed db) (<[next_tx db := []]> (open_txs db)) (S (next_tx db)).

End Spec.

(** A driver that takes everything, and one statement under a transaction. *)
#[export] Instance willing : Driver string := {|
  accepts _ _ := true;
  begin_ok _ := true;
  commit_ok _ _ := true
|}.

Definition empty_db : Database string := mkDatabase [] ∅ 0.

Definition one_statement (s : string) (last : Prog string) (ctx : list (option nat)) : Prog string :=
  Exec ctx s (λ _, last).

(** ** Lemmas *)

Section Lemmas.
Context {Stmt : Type} `{Driver Stmt}.
Implicit Types db : Database Stmt.

(** Such a callback touches nothing but its transaction. *)
Lemma run_tx_only tx p db o db' stmts :
  tx_only tx p → open_txs db !! tx = Some stmts → run p db = (o, db') →
  committed db' = committed db ∧ next_tx db' = next_tx db ∧
  ∃ stmts', open_txs db' = <[tx := stmts']> (open_txs db).
Proof.
  revert db stmts. induction p as [e| | |ctx s k IH|ctx fn IHf k IHk]; intros db stmts Hp Htx Hrun; simpl in *; try done;
    try (injection Hrun as <- <-; split_and!; try done; exists stmts; by rewrite insert_id).
  destruct Hp as [Hctx Hk]. unfold executor, exec in Hrun. rewrite Hctx, Htx in Hrun.
  destruct (accepts db s).
  - destruct (IH true _ (stmts ++ [s]) (Hk true) (lookup_insert_eq _ _ _) Hrun) as (Hc & Hn & stmts' & Ho).
    split_and!; try done. exists stmts'. rewrite Ho. simpl. by rewrite insert_insert_eq.
  - by apply (IH false _ _ (Hk false) Htx Hrun).
Qed.

Lemma BeginTx_begun db : begin_ok db = true → BeginTx db = (Some (next_tx db), begun db).
Proof. intros Hb. unfold BeginTx. by rewrite Hb. Qed.

(** A finished transaction is gone without a trace among the open ones. *)
Lemma delete_begun db (stmts : list Stmt) :
  db_ok db → delete (next_tx db) (<[next_tx db := stmts]> (open_txs (begun db))) = open_txs db.
Proof.
  intros Hok. simpl. rewrite insert_insert_eq. apply delete_insert_id.
  destruct (open_txs db !! next_tx db) eqn:E; [|done]. specialize (Hok _ (ex_intro _ _ E)). lia.
Qed.

Lemma Commit_open tx db stmts :
  open_txs db !! tx = Some stmts →
  Commit tx db =
    (if commit_ok db tx then None else Some ErrCommit,
     mkDatabase (if commit_ok db tx then committed db ++ stmts else committed db) (delete tx (open_txs db)) (next_tx db)).
Proof. intros E. unfold Commit. rewrite E. by destruct (commit_ok db tx). Qed.

Lemma scan_loop_app {R T} (scan : R → option T) rs acc items :
  scan_loop scan rs acc = Ok items ↔ ∃ l, mapM scan rs = Some l ∧ items = acc ++ l.
Proof.
  revert acc. induction rs as [|r rs IH]; intros acc; simpl.
  - split; [intros [= <-]; exists []; by rewrite app_nil_r|]. intros (l & [= <-] & ->). by rewrite app_nil_r.
  - destruct (scan r) as [t|]; simpl; [|by split; [|intros (? & ? & _)]]. rewrite IH. split.
    + intros (l & Hl & ->). rewrite Hl. simpl. eexists. split; [done|]. by rewrite <- app_assoc.
    + intros (l & Hl & ->). destruct (mapM scan rs) as [l'|]; [|done]. injection Hl as <-.
      exists l'. split; [done|]. by rewrite <- app_assoc.
Qed.

End Lemmas.

(** ** Properties *)

(** C9. All or nothing.  When a callback runs its statements through the context
    it is given, the transaction is over when the wrapper returns, and either all
    statements that succeeded are committed or none is: all exactly when the
    callback returns no error and the commit succeeds, and also when it ends its
    goroutine; an error or a panic is passed on and rolls back.
    [DB.Transaction] does the same, except that a callback ending its goroutine
    leaves the transaction open. *)
Theorem transaction_atomic {Stmt} `{Driver Stmt} (db : Database Stmt) ctx (fn : list (option nat) → Prog Stmt) :
  db_ok db → begin_ok db = true → tx_only (next_tx db) (fn (WithTx ctx (Some (next_tx db)))) →
  let tx := next_tx db in
  let '(ob, db1) := run (fn (WithTx ctx (Some tx))) (begun db) in
  let '(o, db') := WithTransaction ctx (λ c d, run (fn c) d) db in
  let '(o2, db2) := Transaction (λ t d, run (fn (WithTx ctx (Some t))) d) db in
  ∃ stmts, open_txs db1 !! tx = Some stmts ∧ open_txs db' = open_txs db ∧
    (o, committed db') =
      match ob with
      | Return None =>
          if commit_ok db1 tx then (Return None, committed db ++ stmts) else (Return (Some ErrCommit), committed db)
      | Exited => (Exited, if commit_ok db1 tx then committed db ++ stmts else committed db)
      | _ => (ob, committed db)
      end ∧
    (ob ≠ Exited → (o2, db2) = (o, db')) ∧
    (ob = Exited → o2 = Exited ∧ open_txs db2 = <[tx := stmts]> (open_txs db)).
Proof.
  intros Hok Hb Hp tx. unfold WithTransaction, Transaction. rewrite !BeginTx_begun by done. fold tx.
  destruct (run (fn (WithTx ctx (Some tx))) (begun db)) as [ob db1] eqn:E.
  destruct (run_tx_only tx _ _ _ _ [] Hp (lookup_insert_eq _ _ _) E) as (Hc & _ & stmts & Ho).
  assert (open_txs db1 !! tx = Some stmts) as Htx by (by rewrite Ho, lookup_insert_eq).
  assert (delete tx (open_txs db1) = open_txs db) as Hd by (rewrite Ho; by apply delete_begun).
  assert (open_txs db1 = <[tx := stmts]> (open_txs db)) as Hopen by (rewrite Ho; simpl; by rewrite insert_insert_eq).
  simpl in Hc. destruct ob as [[e|]| |]; try rewrite (Commit_open _ _ _ Htx); exists stmts; unfold Rollback; simpl;
    rewrite ?Hc, ?Hd; split_and!; try done; by destruct (commit_ok db1 tx).
Qed.

Lemma transaction_atomic_witness :
  let '(o, db) := WithTransaction [] (λ c d, run (one_statement "insert" (Ret None) c) d) empty_db in
  o = Return None ∧ committed db = ["insert"].
Proof.
  pose proof (transaction_atomic empty_db [] (one_statement "insert" (Ret None))) as Hall.
  destruct Hall as (stmts & Hs & _ & Hres & _); [by intros tx [? ?]|done|done|].
  vm_compute in Hs. injection Hs as <-. exact (conj (f_equal fst Hres) (f_equal snd Hres)).
Defined.

(** ** What the code does not promise *)

(** [t.FailNow] and the like end the goroutine: the half-done work is committed. *)
Lemma goexit_commits :
  let '(o, db) := WithTransaction [] (λ c d, run (one_statement "half" Goexit c) d) empty_db in
  o = Exited ∧ committed db = ["half"].
Proof. by vm_compute. Qed.

(** The same under [DB.Transaction] leaves the transaction, and its connection,
    open for ever. *)
Lemma goexit_leaks :
  let '(o, db) := Transaction (λ t d, run (one_statement "half" Goexit (WithTx [] (Some t))) d) empty_db in
  o = Exited ∧ committed db = [] ∧ open_txs db = {[0%nat := ["half"]]}.
Proof. by vm_compute. Qed.

(** A nested call does not join the transaction of its context: what it commits
    stays when the outer one is rolled back. *)
Lemma nested_commit_survives :
  let inner c := one_statement "inner" (Ret None) c in
  let outer c := Nested c inner (λ _, Ret (Some (ErrUser 1))) in
  let '(o, db) := WithTransaction [] (λ c d, run (outer c) d) empty_db in
  o = Return (Some (ErrUser 1)) ∧ committed db = ["inner"].
Proof. by vm_compute. Qed.

(** An insert that fails while its row is read reports that there is no row. *)
Lemma insert_error_hidden scan :
  NamedInsertID (R := Z) scan (mkRows [] (Some (ErrRows 1))) = Err ErrNoRows.
Proof. done. Qed.

End Transact.
