(* ===== verification/Database.v ===== *)
(** * The database handle (src/db/db.go, src/sqlxutil/sqlxutil.go)

    Opening with the limits of the pool, the statements of the builders of Query
    sent to a database, and the default handle.  The
    database/sql package is a parameter: what a driver's opening and a statement
    answer is an input, and the limits of a pool are those the package documents. *)

From S2P Require Import Prelude Query Transact.

Module Database.

(** ** Opening *)

Record Config := mkConfig {
  Driver : string;
  DSN : string;
  MaxOpenConns : Z;
  MaxIdleConns : Z;
  ConnMaxLifetime : Duration;
  ConnMaxIdleTime : Duration
}.

Definition DefaultConfig : Config := mkConfig "mysql" "" 100 10 Hour (10 * Minute).

(** The limits of a [sql.DB]; before any is set there is none on what is open or how
    long it lives, and two may be idle. *)
Record Pool := mkPool {
  max_open : option Z;
  max_idle : Z;
  max_lifetime : option Duration;
  max_idle_time : option Duration
}.

Definition new_pool : Pool := mkPool None 2 None None.

(** No more may be idle than may be open. *)
Definition SetMaxOpenConns (n : Z) (p : Pool) : Pool :=
  mkPool (if 0 <? n then Some n else None) (if (0 <? n) && (n <? max_idle p) then n else max_idle p) (max_lifetime p) (max_idle_time p).

Definition SetMaxIdleConns (n : Z) (p : Pool) : Pool :=
  mkPool (max_open p) (match max_open p with Some m => if m <? Z.max 0 n then m else Z.max 0 n | None => Z.max 0 n end)
    (max_lifetime p) (max_idle_time p).

Definition SetConnMaxLifetime (d : Duration) (p : Pool) : Pool :=
  mkPool (max_open p) (max_idle p) (if 0 <? d then Some d else None) (max_idle_time p).

Definition SetConnMaxIdleTime (d : Duration) (p : Pool) : Pool :=
  mkPool (max_open p) (max_idle p) (max_lifetime p) (if 0 <? d then Some d else None).

Record DB := mkDB { pool : Pool; config : Config; driver : string; dsn : string }.

(** [fails] is the error of [sql.Open] of a driver and a data source, if there is one. *)
Definition Open (fails : string → string → option string) (cfg : Config) : res string DB :=
  match fails (Driver cfg) (DSN cfg) with
  | Some e => Err e
  | None =>
      let p := new_pool in
      let p := if 0 <? MaxOpenConns cfg then SetMaxOpenConns (MaxOpenConns cfg) p else p in
      let p := if 0 <? MaxIdleConns cfg then SetMaxIdleConns (MaxIdleConns cfg) p else p in
      let p := if 0 <? ConnMaxLifetime cfg then SetConnMaxLifetime (ConnMaxLifetime cfg) p else p in
      let p := if 0 <? ConnMaxIdleTime cfg then SetConnMaxIdleTime (ConnMaxIdleTime cfg) p else p in
      Ok (mkDB p cfg (Driver cfg) (DSN cfg))
  end.

Definition with_source (dsn : string) (cfg : Config) : Config :=
  mkConfig "mysql" dsn (MaxOpenConns cfg) (MaxIdleConns cfg) (ConnMaxLifetime cfg) (ConnMaxIdleTime cfg).

(** Of the configurations given, the first counts. *)
Definition OpenMySQL (fails : string → string → option string) (dsn : string) (configs : list Config) : res string DB :=
  Open fails (with_source dsn (default DefaultConfig (head configs))).

(** ** Statements *)

Section Exec.
Context {A : Type} `{RangeOrder} `{Transact.Driver (string * list A)}.
Abbreviation Data := (Transact.Database (string * list A)) (only parsing).

(** [Exec] of a builder sends its statement to the pool: the answer is whether it was accepted. *)
Definition insert_Exec (b : Query.InsertBuilder A) (db : Data) : bool * Data := Transact.exec None (Query.insert_Build b) db.

Definition update_Exec (b : Query.UpdateBuilder A) (db : Data) : bool * Data := Transact.exec None (Query.update_Build b) db.

Definition delete_Exec (b : Query.DeleteBuilder A) (db : Data) : bool * Data := Transact.exec None (Query.delete_Build b) db.

(** The builder of a transaction is that of the handle: it does not know its transaction. *)
Definition tx_Table (tx : nat) (table : string) : Query.QueryBuilder A := Query.Table table.

(** [sqlxutil.NamedExec]: in the context's transaction, if there is one. *)
Definition NamedExec (ctx : list (option nat)) (s : string * list A) (db : Data) : bool * Data :=
  Transact.exec (Transact.executor ctx) s db.

End Exec.

(** ** The default handle *)

Definition SetDefault (db : DB) (_ : option DB) : option DB := Some db.

Definition Default (d : option DB) : option DB := d.

(** ** What the theorems speak of *)

(** No more may be idle than may be open. *)
Definition pool_ok (p : Pool) : Prop := 0 ≤ max_idle p ∧ match max_open p with Some n => 0 < n ∧ max_idle p ≤ n | None => True end.

(** The callback of a transaction that sends an insert by its builder and then fails. *)
Definition insert_then_fail {A} `{Transact.Driver (string * list A)} (b : Query.InsertBuilder A) (e : Transact.Error)
    (_ : nat) (db : Transact.Database (string * list A)) : Transact.Outcome * Transact.Database (string * list A) :=
  let '(_, db) := insert_Exec b db in (Transact.Return (Some e), db).

(** ** Lemmas *)

Lemma SetMaxOpenConns_ok n p : pool_ok p → pool_ok (SetMaxOpenConns n p).
Proof. unfold pool_ok, SetMaxOpenConns. intros [H0 H1]. simpl. destruct (Z.ltb_spec 0 n); simpl; [destruct (Z.ltb_spec n (max_idle p))|]; lia. Qed.

Lemma SetMaxIdleConns_ok n p : pool_ok p → pool_ok (SetMaxIdleConns n p).
Proof.
  unfold pool_ok, SetMaxIdleConns. intros [H0 H1]. simpl. destruct (max_open p) as [m|]; simpl; [|lia].
  destruct (Z.ltb_spec m (Z.max 0 n)); lia.
Qed.

(** A handle that opens has a sound pool with the limits that were given, where they are positive. *)
Lemma Open_ok fails cfg db :
  Open fails cfg = Ok db →
  pool_ok (pool db) ∧ config db = cfg ∧ max_open (pool db) = (if 0 <? MaxOpenConns cfg then Some (MaxOpenConns cfg) else None) ∧
  (0 < MaxIdleConns cfg → (0 < MaxOpenConns cfg → MaxIdleConns cfg ≤ MaxOpenConns cfg) → max_idle (pool db) = MaxIdleConns cfg).
Proof.
  unfold Open. destruct (fails _ _); [done|]. intros [= <-]. cbn [pool config].
  set (p1 := if 0 <? MaxOpenConns cfg then _ else _). set (p2 := if 0 <? MaxIdleConns cfg then _ else _).
  set (p3 := if 0 <? ConnMaxLifetime cfg then _ else _).
  assert (pool_ok p1 ∧ max_open p1 = (if 0 <? MaxOpenConns cfg then Some (MaxOpenConns cfg) else None)) as [Hp1 Hm1].
  { unfold p1. destruct (Z.ltb_spec 0 (MaxOpenConns cfg)); [|done]. split; [by apply SetMaxOpenConns_ok|].
    simpl. by rewrite (proj2 (Z.ltb_lt _ _)). }
  assert (pool_ok p2 ∧ max_open p2 = max_open p1) as [Hp2 Hm2].
  { unfold p2. destruct (0 <? MaxIdleConns cfg); [|done]. split; [by apply SetMaxIdleConns_ok|done]. }
  assert (max_open p3 = max_open p2 ∧ max_idle p3 = max_idle p2) as [Hm3 Hi3] by (unfold p3; by destruct (0 <? ConnMaxLifetime cfg)).
  assert (∀ b, let q := if b : bool then SetConnMaxIdleTime (ConnMaxIdleTime cfg) p3 else p3 in max_open q = max_open p3 ∧ max_idle q = max_idle p3)
    as Hq by by intros [].
  destruct (Hq (0 <? ConnMaxIdleTime cfg)) as [Hm4 Hi4]. rewrite Hm3 in Hm4. rewrite Hi3 in Hi4. split_and!; [unfold pool_ok; by rewrite Hm4, Hi4|done|by rewrite Hm4, Hm2|].
  intros Hpos Hle. rewrite Hi4. unfold p2. rewrite (proj2 (Z.ltb_lt _ _) Hpos). unfold SetMaxIdleConns. cbn [max_idle]. rewrite Hm1.
    destruct (Z.ltb_spec 0 (MaxOpenConns cfg)); [|lia]. destruct (Z.ltb_spec (MaxOpenConns cfg) (Z.max 0 (MaxIdleConns cfg))); lia.
Qed.

(** A builder's statement goes to the pool, not to the transaction around it: an insert
    stays when the transaction is rolled back. *)
Lemma builder_escapes_transaction {A} `{Transact.Driver (string * list A)} (b : Query.InsertBuilder A) e db db1 tx :
  Transact.BeginTx db = (Some tx, db1) → Transact.accepts db1 (Query.insert_Build b) = true →
  let '(o, db') := Transact.Transaction (insert_then_fail b e) db in
  o = Transact.Return (Some e) ∧ Transact.committed db' = Transact.committed db ++ [Query.insert_Build b].
Proof.
  intros Hb Ha. unfold Transact.Transaction. rewrite Hb. unfold insert_then_fail, insert_Exec, Transact.exec. rewrite Ha.
  split; [done|]. cbn. unfold Transact.BeginTx in Hb. destruct (Transact.begin_ok db); by simplify_eq/=.
Qed.

(** A configuration of one's own replaces the defaults: a limit left out is no limit. *)
Example partial_configuration_unlimited :
  match OpenMySQL (λ _ _, None) "dsn" [mkConfig "" "" 0 20 0 0] with Ok db => max_open (pool db) = None ∧ max_idle (pool db) = 20 | Err _ => False end.
Proof. done. Qed.

End Database.
