(* ===== verification/Lock.v ===== *)
(** * Distributed locks (src/lock/lock.go, src/lock/redis/redis.go)

    Several processes lock keys of one Redis.  A method is a sequence of steps,
    one per Redis command or access to the value table, so that goroutines of
    the same process and other processes come in between.  The value table is
    a variable of the package: every locker of a process shares it.  Redis is a
    class of commands on string keys with their documented effect on values
    and deadlines; a command that fails is [EFail]. *)

From S2P Require Import Prelude.

Module Lock.

(** ** Redis *)

Class RedisKeys (R : Type) := {
  redis_SetNX : Time → string → string → Duration → R → res unit bool * R;
  redis_Get : Time → string → R → option string;
  redis_Del : Time → string → R → Z * R;
  redis_PExpire : Time → string → Z → R → Z * R;
  redis_Exists : Time → string → R → Z
}.

(** A stored value and the instant it disappears, if any. *)
Abbreviation Entry := (string * option Time)%type (only parsing).

Definition live (now : Time) (e : option Entry) : option string :=
  match e with
  | Some (v, Some d) => if now <? d then Some v else None
  | Some (v, None) => Some v
  | None => None
  end.

(** The client sends whole milliseconds, at least one; zero is no expiry. *)
Definition ttl_deadline (now : Time) (ttl : Duration) : option Time :=
  if ttl =? 0 then None
  else Some (now + (if ttl <? Millisecond then Millisecond else ttl / Millisecond * Millisecond)).

Class RedisKeysOk (R : Type) `{RedisKeys R} := {
  entry : R → string → option Entry;
  redis_Get_ok : ∀ now k r, redis_Get now k r = live now (entry r k);
  redis_Exists_ok : ∀ now k r, redis_Exists now k r = if live now (entry r k) then 1 else 0;
  redis_SetNX_ok : ∀ now k v ttl r, 0 ≤ ttl →
    match live now (entry r k) with
    | Some _ => redis_SetNX now k v ttl r = (Ok false, r)
    | None => ∃ r', redis_SetNX now k v ttl r = (Ok true, r') ∧
        ∀ k', entry r' k' = if decide (k' = k) then Some (v, ttl_deadline now ttl) else entry r k'
    end;
  redis_Del_ok : ∀ now k r, ∃ r', redis_Del now k r = ((if live now (entry r k) then 1 else 0), r') ∧
    ∀ k', entry r' k' = if decide (k' = k) then None else entry r k';
  redis_PExpire_ok : ∀ now k ms r,
    match live now (entry r k) with
    | None => redis_PExpire now k ms r = (0, r)
    | Some v => ∃ r', redis_PExpire now k ms r = (1, r') ∧
        ∀ k', entry r' k' = if decide (k' = k)
                            then (if 0 <? ms then Some (v, Some (now + ms * Millisecond)) else None)
                            else entry r k'
    end
}.

(** ** Options *)

Record Options := mkOptions {
  RetryInterval : Duration;
  Timeout : Duration;
  Value : string;
  WatchdogOn : bool;
  WatchdogInterval : Duration
}.

Definition DefaultOptions : Options := mkOptions (100 * Millisecond) (10 * Second) "" false (5 * Second).

Definition Option := Options → Options.

Definition WithRetryInterval (d : Duration) : Option :=
  λ o, mkOptions d (Timeout o) (Value o) (WatchdogOn o) (WatchdogInterval o).

Definition WithTimeout (d : Duration) : Option :=
  λ o, mkOptions (RetryInterval o) d (Value o) (WatchdogOn o) (WatchdogInterval o).

Definition WithValue (v : string) : Option :=
  λ o, mkOptions (RetryInterval o) (Timeout o) v (WatchdogOn o) (WatchdogInterval o).

Definition WithWatchdog (enable : bool) (d : Duration) : Option :=
  λ o, mkOptions (RetryInterval o) (Timeout o) (Value o) enable d.

Definition ApplyOptions (opts : list Option) : Options := foldl (λ o f, f o) DefaultOptions opts.

(** ** Lockers, processes and calls under way *)

Inductive Error := ErrLockNotHeld | ErrInvalidTTL | ErrClient | ErrContext.

Record RedisLocker := mkLocker {
  process : nat;
  keyPrefix : string;
  watchdogMap : gmap string nat
}.

Definition New (p : nat) (prefix : option string) : RedisLocker := mkLocker p (default "lock:" prefix) ∅.

Definition fullKey (l : RedisLocker) (key : string) : string := (keyPrefix l +:+ key)%string.

(** A watchdog goroutine: its locker, key and time to live; [stopped] when its
    context is cancelled or it has returned. *)
Record Watchdog := mkWatchdog { w_locker : nat; w_key : string; w_ttl : Duration; stopped : bool }.

(** Calls between two steps. *)
Inductive Call :=
| CLocking (l : nat) (key : string) (ttl : Duration) (opts : Options) (v : string)
| CStore (l : nat) (key v : string) (watch : option Duration)
| CUnlock (l : nat) (key v : string)
| CForget (l : nat) (key : string) (held : bool)
| CExtend (l : nat) (key v : string) (ttl : Duration) (w : option nat).

Record World (R : Type) := mkWorld {
  redis : R;
  lockers : list RedisLocker;
  lockValues : list (gmap string string);
  watchdogs : list Watchdog;
  calls : list Call
}.
Arguments mkWorld {R}. Arguments redis {R}. Arguments lockers {R}. Arguments lockValues {R}.
Arguments watchdogs {R}. Arguments calls {R}.

(** What a step returns to its caller, if the call ends there. *)
Inductive Reply := Pending | Locked (ok : bool) | Done | Failed (e : Error).

Inductive Event :=
| ETryLock (l : nat) (key : string) (ttl : Duration) (v : string) (now : Time)
| ELock (l : nat) (key : string) (ttl : Duration) (opts : list Option) (v : string)
| ETick (i : nat) (now : Time)
| ETimeout (i : nat)
| EStore (i : nat)
| EUnlock (l : nat) (key : string)
| EUnlockEval (i : nat) (now : Time)
| EForget (i : nat)
| EExtend (l : nat) (key : string) (ttl : Duration)
| EExtendEval (i : nat) (now : Time)
| EWatchTick (w : nat)
| EFail (i : nat).

Section Methods.
Context {R : Type} `{RedisKeys R}.

Definition set_redis (r : R) (w : World R) : World R :=
  mkWorld r (lockers w) (lockValues w) (watchdogs w) (calls w).

Definition set_values (vs : list (gmap string string)) (w : World R) : World R :=
  mkWorld (redis w) (lockers w) vs (watchdogs w) (calls w).

Definition set_calls (cs : list Call) (w : World R) : World R :=
  mkWorld (redis w) (lockers w) (lockValues w) (watchdogs w) cs.

Definition add_call (c : Call) (w : World R) : World R := set_calls (calls w ++ [c]) w.

Definition end_call (i : nat) (w : World R) : World R := set_calls (delete i (calls w)) w.

Definition storeLockValue (l : RedisLocker) (key v : string) (w : World R) : World R :=
  set_values (alter (<[fullKey l key := v]>) (process l) (lockValues w)) w.

Definition getLockValue (l : RedisLocker) (key : string) (w : World R) : string :=
  default "" (lockValues w !! process l ≫= (.!! fullKey l key)).

Definition deleteLockValue (l : RedisLocker) (key : string) (w : World R) : World R :=
  set_values (alter (delete (fullKey l key)) (process l) (lockValues w)) w.

(** The scripts of [Unlock] and [Extend]. *)
Definition unlock_script (now : Time) (k v : string) (r : R) : Z * R :=
  if decide (redis_Get now k r = Some v) then redis_Del now k r else (0, r).

Definition extend_script (now : Time) (k v : string) (ms : Z) (r : R) : Z * R :=
  if decide (redis_Get now k r = Some v) then redis_PExpire now k ms r else (0, r).

Definition cancel (i : nat) (ws : list Watchdog) : list Watchdog :=
  alter (λ x, mkWatchdog (w_locker x) (w_key x) (w_ttl x) true) i ws.

Definition stopWatchdog (li : nat) (key : string) (w : World R) : World R :=
  match lockers w !! li ≫= λ l, watchdogMap l !! key with
  | None => w
  | Some i =>
      mkWorld (redis w) (alter (λ l, mkLocker (process l) (keyPrefix l) (delete key (watchdogMap l))) li (lockers w))
        (lockValues w) (cancel i (watchdogs w)) (calls w)
  end.

Definition startWatchdog (li : nat) (key : string) (ttl : Duration) (w : World R) : World R :=
  let ws := match lockers w !! li ≫= λ l, watchdogMap l !! key with
            | Some i => cancel i (watchdogs w)
            | None => watchdogs w
            end in
  mkWorld (redis w)
    (alter (λ l, mkLocker (process l) (keyPrefix l) (<[key := length ws]> (watchdogMap l))) li (lockers w))
    (lockValues w) (ws ++ [mkWatchdog li key ttl false]) (calls w).

(** [SetNX] of [TryLock] and of each round of [Lock]. *)
Definition TryLock (li : nat) (key : string) (ttl : Duration) (v : string) (now : Time) (w : World R)
    : option (World R * Reply) :=
  l ← lockers w !! li;
  if ttl <=? 0 then Some (w, Failed ErrInvalidTTL)
  else
    match redis_SetNX now (fullKey l key) v ttl (redis w) with
    | (Err _, r) => Some (set_redis r w, Failed ErrClient)
    | (Ok false, r) => Some (set_redis r w, Locked false)
    | (Ok true, r) => Some (add_call (CStore li key v None) (set_redis r w), Pending)
    end.

Definition Lock (li : nat) (key : string) (ttl : Duration) (opts : list Option) (v : string) (w : World R)
    : option (World R * Reply) :=
  let o := ApplyOptions opts in
  let v := if decide (Value o = "") then v else Value o in
  Some (add_call (CLocking li key ttl o v) w, Pending).

Definition Lock_tick (i : nat) (now : Time) (w : World R) : option (World R * Reply) :=
  match calls w !! i with
  | Some (CLocking li key ttl o v) =>
      l ← lockers w !! li;
      match redis_SetNX now (fullKey l key) v ttl (redis w) with
      | (Err _, r) => Some (end_call i (set_redis r w), Failed ErrClient)
      | (Ok false, r) => Some (set_redis r w, Pending)
      | (Ok true, r) =>
          Some (set_calls (<[i := CStore li key v (if WatchdogOn o then Some ttl else None)]> (calls w))
                  (set_redis r w), Pending)
      end
  | _ => None
  end.

(** The value is stored, the watchdog started, and the call returns. *)
Definition store_value (i : nat) (w : World R) : option (World R * Reply) :=
  match calls w !! i with
  | Some (CStore li key v watch) =>
      l ← lockers w !! li;
      let w := end_call i (storeLockValue l key v w) in
      Some (match watch with Some ttl => startWatchdog li key ttl w | None => w end, Locked true)
  | _ => None
  end.

Definition Unlock (li : nat) (key : string) (w : World R) : option (World R * Reply) :=
  l ← lockers w !! li;
  let w := stopWatchdog li key w in
  let v := getLockValue l key w in
  if decide (v = "") then Some (w, Failed ErrLockNotHeld)
  else Some (add_call (CUnlock li key v) w, Pending).

Definition Unlock_eval (i : nat) (now : Time) (w : World R) : option (World R * Reply) :=
  match calls w !! i with
  | Some (CUnlock li key v) =>
      l ← lockers w !! li;
      let '(n, r) := unlock_script now (fullKey l key) v (redis w) in
      Some (set_calls (<[i := CForget li key (negb (n =? 0))]> (calls w)) (set_redis r w), Pending)
  | _ => None
  end.

Definition Unlock_forget (i : nat) (w : World R) : option (World R * Reply) :=
  match calls w !! i with
  | Some (CForget li key held) =>
      l ← lockers w !! li;
      Some (end_call i (deleteLockValue l key w), if held : bool then Done else Failed ErrLockNotHeld)
  | _ => None
  end.

(** A watchdog whose [Extend] fails stops the key's watchdog and returns. *)
Definition dog_fails (li : nat) (key : string) (dog : option nat) (w : World R) : World R :=
  match dog with
  | None => w
  | Some d =>
      stopWatchdog li key
        (mkWorld (redis w) (lockers w) (lockValues w) (cancel d (watchdogs w)) (calls w))
  end.

Definition Extend (li : nat) (key : string) (ttl : Duration) (dog : option nat) (w : World R)
    : option (World R * Reply) :=
  l ← lockers w !! li;
  let v := getLockValue l key w in
  if decide (v = "") then
    Some (dog_fails li key dog w, Failed ErrLockNotHeld)
  else Some (add_call (CExtend li key v ttl dog) w, Pending).

Definition Extend_eval (i : nat) (now : Time) (w : World R) : option (World R * Reply) :=
  match calls w !! i with
  | Some (CExtend li key v ttl dog) =>
      l ← lockers w !! li;
      let '(n, r) := extend_script now (fullKey l key) v (Z.quot ttl Millisecond) (redis w) in
      let w := end_call i (set_redis r w) in
      if n =? 0 then Some (dog_fails li key dog w, Failed ErrLockNotHeld)
      else Some (w, Done)
  | _ => None
  end.

Definition watch_tick (d : nat) (w : World R) : option (World R * Reply) :=
  match watchdogs w !! d with
  | Some dog => if stopped dog then None else Extend (w_locker dog) (w_key dog) (w_ttl dog) (Some d) w
  | None => None
  end.

(** A command of the call that errs ends it with that error. *)
Definition fail_call (i : nat) (w : World R) : option (World R * Reply) :=
  match calls w !! i with
  | Some (CLocking _ _ _ _ _ | CUnlock _ _ _) => Some (end_call i w, Failed ErrClient)
  | Some (CExtend li key _ _ dog) => Some (dog_fails li key dog (end_call i w), Failed ErrClient)
  | _ => None
  end.

Definition time_out (i : nat) (w : World R) : option (World R * Reply) :=
  match calls w !! i with
  | Some (CLocking _ _ _ _ _) => Some (end_call i w, Failed ErrContext)
  | _ => None
  end.

Definition IsLocked (li : nat) (key : string) (now : Time) (w : World R) : option bool :=
  l ← lockers w !! li; Some (0 <? redis_Exists now (fullKey l key) (redis w)).

Definition step (e : Event) (w : World R) : option (World R * Reply) :=
  match e with
  | ETryLock l key ttl v now => TryLock l key ttl v now w
  | ELock l key ttl opts v => Lock l key ttl opts v w
  | ETick i now => Lock_tick i now w
  | ETimeout i => time_out i w
  | EStore i => store_value i w
  | EUnlock l key => Unlock l key w
  | EUnlockEval i now => Unlock_eval i now w
  | EForget i => Unlock_forget i w
  | EExtend l key ttl => Extend l key ttl None w
  | EExtendEval i now => Extend_eval i now w
  | EWatchTick d => watch_tick d w
  | EFail i => fail_call i w
  end.

Fixpoint run (evs : list Event) (w : World R) : option (World R * list Reply) :=
  match evs with
  | [] => Some (w, [])
  | e :: evs =>
      '(w, a) ← step e w;
      '(w, rs) ← run evs w; Some (w, a :: rs)
  end.

(** [TryLockWithRetry] as the answers of its attempts: whether a further one
    is made, and the result after [maxRetries]. *)
Fixpoint TryLockWithRetry (maxRetries : nat) (attempts : list (res Error bool)) : option (res Error bool) :=
  match maxRetries, attempts with
  | O, _ => Some (Ok false)
  | S n, Err e :: _ => Some (Err e)
  | S n, Ok true :: _ => Some (Ok true)
  | S n, Ok false :: attempts => TryLockWithRetry n attempts
  | S n, [] => None
  end.

End Methods.

(** ** A Redis for the witnesses *)

Abbreviation Store := (gmap string (string * option Time)) (only parsing).

#[export] Instance Store_keys : RedisKeys Store := {|
  redis_SetNX now k v ttl r :=
    match live now (r !! k) with
    | Some _ => (Ok false, r)
    | None => (Ok true, <[k := (v, ttl_deadline now ttl)]> r)
    end;
  redis_Get now k r := live now (r !! k);
  redis_Del now k r := ((if live now (r !! k) then 1 else 0), delete k r);
  redis_PExpire now k ms r :=
    match live now (r !! k) with
    | None => (0, r)
    | Some v => (1, if 0 <? ms then <[k := (v, Some (now + ms * Millisecond))]> r else delete k r)
    end;
  redis_Exists now k r := if live now (r !! k) then 1 else 0
|}.

(** ** Specification-side definitions *)

Section Spec.
Context {R : Type} `{RedisKeysOk R}.

(** The value an event generates, with the locker it is for. *)
Definition generates (e : Event) : option (nat * string) :=
  match e with
  | ETryLock l _ _ v _ => Some (l, v)
  | ELock l _ _ opts v => let o := ApplyOptions opts in
      Some (l, if decide (Value o = "") then v else Value o)
  | _ => None
  end.

Definition call_locker (c : Call) : nat :=
  match c with
  | CLocking l _ _ _ _ | CStore l _ _ _ | CUnlock l _ _ | CForget l _ _ | CExtend l _ _ _ _ => l
  end.

(** The locker that an event is a step of. *)
Definition actor (w : World R) (e : Event) : option nat :=
  match e with
  | ETryLock l _ _ _ _ | ELock l _ _ _ _ | EUnlock l _ | EExtend l _ _ => Some l
  | ETick i _ | ETimeout i | EStore i | EUnlockEval i _ | EForget i | EExtendEval i _ | EFail i =>
      call_locker <$> calls w !! i
  | EWatchTick d => w_locker <$> watchdogs w !! d
  end.

Definition process_of (w : World R) (l : nat) : option nat := process <$> lockers w !! l.

Definition event_time (e : Event) : option Time :=
  match e with
  | ETryLock _ _ _ _ t | ETick _ t | EUnlockEval _ t | EExtendEval _ t => Some t
  | _ => None
  end.

(** Values are generated by one process only, and no time to live is negative. *)
Definition event_ok (owner : string → nat) (w : World R) (e : Event) : Prop :=
  (∀ l v, generates e = Some (l, v) → ∀ p, process_of w l = Some p → owner v = p) ∧
  match e with ELock _ _ ttl _ _ => 0 ≤ ttl | _ => True end.

(** The event is of another process than [p], before the deadline [d]. *)
Definition event_of_other (p : nat) (d : option Time) (w : World R) (e : Event) : Prop :=
  (∀ l, actor w e = Some l → process_of w l ≠ Some p) ∧
  match d, event_time e with Some d, Some t => t < d | _, _ => True end.

(** Every event of the run, in the world it finds, satisfies [P]. *)
Fixpoint along (P : World R → Event → Prop) (evs : list Event) (w : World R) : Prop :=
  match evs with
  | [] => True
  | e :: evs => P w e ∧ match step e w with Some (w', _) => along P evs w' | None => True end
  end.

Definition call_ok (owner : string → nat) (w : World R) (c : Call) : Prop :=
  match c with
  | CLocking l _ ttl _ v => 0 ≤ ttl ∧ ∀ p, process_of w l = Some p → owner v = p
  | CStore l _ v _ | CUnlock l _ v | CExtend l _ v _ _ => ∀ p, process_of w l = Some p → owner v = p
  | CForget _ _ _ => True
  end.

(** A process holds only values it generated. *)
Definition values_ok (owner : string → nat) (w : World R) : Prop :=
  (∀ p m k v, lockValues w !! p = Some m → m !! k = Some v → owner v = p) ∧
  Forall (call_ok owner w) (calls w).

Definition start (r : R) (ls : list RedisLocker) (procs : nat) : World R :=
  mkWorld r ls (replicate procs ∅) [] [].

End Spec.

(** Two processes with a locker each; and one process with two goroutines on
    the same key, the first of which unlocks after its lock has expired. *)
Definition two_processes : World Store := start (R := Store) ∅ [New 0 None; New 1 None] 2.

(** Process 0 takes a key; process 1 tries it and unlocks it. *)
Definition take_first : list Event := [ETryLock 0 "k" Second "a" 0; EStore 0].

Definition try_second : list Event := [ETryLock 1 "k" Second "b" 5; EUnlock 1 "k"].

Definition taken : World Store := default two_processes (fst <$> run take_first two_processes).

Definition tried : World Store := default two_processes (fst <$> run try_second taken).

Definition two_owners (v : string) : nat := if decide (v = "a") then 0%nat else 1%nat.

Definition stale_unlock : list Event :=
  [ETryLock 0 "k" Second "a" 0; EStore 0; ETryLock 0 "k" Second "b" (2 * Second); EStore 0;
   EUnlock 0 "k"; EUnlockEval 0 (2 * Second + 1); EForget 0].

(** ** Lemmas *)

Section Lemmas.
Context {R : Type} `{RedisKeysOk R}.
Implicit Types w : World R.

(** Worlds that differ in their watchdogs only. *)
Definition same_locks w w' : Prop :=
  redis w' = redis w ∧ lockValues w' = lockValues w ∧ calls w' = calls w ∧
  ∀ l, process_of w' l = process_of w l.

Lemma process_of_alter f li ls w :
  (∀ l, process (f l) = process l) → ls = lockers w →
  ∀ l vs r ws cs, process_of (mkWorld r (alter f li ls) vs ws cs : World R) l = process_of w l.
Proof.
  intros Hf -> l vs r ws cs. unfold process_of. simpl. destruct (decide (l = li)) as [->|Hne].
  - rewrite list_lookup_alter_eq. destruct (lockers w !! li); simpl; [by rewrite Hf|done].
  - by rewrite list_lookup_alter_ne.
Qed.

Lemma stopWatchdog_same li key w : same_locks w (stopWatchdog li key w).
Proof.
  unfold stopWatchdog. destruct (lockers w !! li ≫= _) as [i|]; [|done]. split_and!; [done..|].
  intros l. by apply (process_of_alter _ li (lockers w) w).
Qed.

Lemma startWatchdog_same li key ttl w : same_locks w (startWatchdog li key ttl w).
Proof. split_and!; [done..|]. intros l. by apply (process_of_alter _ li (lockers w) w). Qed.

Lemma dog_fails_same li key dog w : same_locks w (dog_fails li key dog w).
Proof.
  destruct dog as [d|]; [|done]. simpl.
  match goal with |- same_locks _ (stopWatchdog _ _ ?w1) => exact (stopWatchdog_same li key w1) end.
Qed.

(** Opens a step: the cases of its guards, with the equation inverted. *)
Ltac open_step Hs :=
  unfold step, watch_tick, TryLock, Lock, Lock_tick, store_value, Unlock, Unlock_eval, Unlock_forget, Extend,
    Extend_eval, fail_call, time_out, mbind, option_bind in Hs;
  repeat (match type of Hs with context [match ?x with _ => _ end] => destruct x eqn:? end; try done);
  simplify_eq.

(** Replaces the result of watchdog bookkeeping by a world with the same locks. *)
Ltac forget_dogs :=
  repeat match goal with
         | |- context [stopWatchdog ?l ?k ?w] =>
             let F := fresh "Hsame" in pose proof (stopWatchdog_same l k w) as F;
             generalize dependent (stopWatchdog l k w); intros
         | |- context [startWatchdog ?l ?k ?t ?w] =>
             let F := fresh "Hsame" in pose proof (startWatchdog_same l k t w) as F;
             generalize dependent (startWatchdog l k t w); intros
         | |- context [dog_fails ?l ?k ?d ?w] =>
             let F := fresh "Hsame" in pose proof (dog_fails_same l k d w) as F;
             generalize dependent (dog_fails l k d w); intros
         end.

Lemma step_process e w w' a l : step e w = Some (w', a) → process_of w' l = process_of w l.
Proof.
  intros Hs. destruct e; open_step Hs; try done; forget_dogs.
  all: match goal with Hsame : same_locks _ _ |- _ => destruct Hsame as (_ & _ & _ & Hp); exact (Hp l) end.
Qed.

(** *** Values belong to the process that generated them *)

Definition table_ok (owner : string → nat) (vs : list (gmap string string)) : Prop :=
  ∀ p m k v, vs !! p = Some m → m !! k = Some v → owner v = p.

Lemma table_ok_store owner l key v w :
  table_ok owner (lockValues w) → owner v = process l →
  table_ok owner (lockValues (storeLockValue l key v w)).
Proof.
  intros Ht Hv p m k x. simpl. intros Hm Hk. destruct (decide (p = process l)) as [->|Hne].
  - rewrite list_lookup_alter_eq in Hm. destruct (lockValues w !! process l) eqn:E; simplify_eq/=.
    apply lookup_insert_Some in Hk as [[_ <-]|[_ Hk]]; [done|eauto].
  - rewrite list_lookup_alter_ne in Hm by done. eauto.
Qed.

Lemma table_ok_delete owner l key w :
  table_ok owner (lockValues w) → table_ok owner (lockValues (deleteLockValue l key w)).
Proof.
  intros Ht p m k x. simpl. intros Hm Hk. destruct (decide (p = process l)) as [->|Hne].
  - rewrite list_lookup_alter_eq in Hm. destruct (lockValues w !! process l) eqn:E; simplify_eq/=.
    apply lookup_delete_Some in Hk as [_ Hk]. eauto.
  - rewrite list_lookup_alter_ne in Hm by done. eauto.
Qed.

Lemma getLockValue_owner owner l key w :
  table_ok owner (lockValues w) → getLockValue l key w ≠ "" → owner (getLockValue l key w) = process l.
Proof.
  unfold getLockValue. intros Ht. destruct (lockValues w !! process l) as [m|] eqn:E; [|done].
  simpl. destruct (m !! fullKey l key) as [v|] eqn:Ek; [|done]. intros _. by eapply Ht.
Qed.

Lemma call_ok_same owner w w' c :
  (∀ l, process_of w' l = process_of w l) → call_ok owner w c → call_ok owner w' c.
Proof. intros Hp. destruct c; simpl; try done; intros Hc; setoid_rewrite Hp; done. Qed.

Lemma values_ok_same owner w w' : same_locks w w' → values_ok owner w → values_ok owner w'.
Proof.
  intros (_ & Hv & Hc & Hp) [Ht Hcs]. split; [by rewrite Hv|]. rewrite Hc.
  eapply Forall_impl; [exact Hcs|]. intros c. by apply call_ok_same.
Qed.

Lemma values_ok_redis owner r w : values_ok owner w → values_ok owner (set_redis r w).
Proof. done. Qed.

Lemma values_ok_calls owner cs w :
  values_ok owner w → Forall (call_ok owner w) cs → values_ok owner (set_calls cs w).
Proof. by intros [Ht _] Hcs. Qed.

Lemma values_ok_add owner c w : values_ok owner w → call_ok owner w c → values_ok owner (add_call c w).
Proof. intros Hw Hc. apply values_ok_calls; [done|]. apply Forall_app. split; [apply Hw|by constructor]. Qed.

Lemma values_ok_end owner i w : values_ok owner w → values_ok owner (end_call i w).
Proof. intros Hw. apply values_ok_calls; [done|]. apply Forall_delete, Hw. Qed.

Lemma values_ok_insert owner i c w :
  values_ok owner w → call_ok owner w c → values_ok owner (set_calls (<[i := c]> (calls w)) w).
Proof. intros Hw Hc. apply values_ok_calls; [done|]. apply Forall_insert; [apply Hw|done]. Qed.

Lemma values_ok_store owner l key v w :
  values_ok owner w → owner v = process l → values_ok owner (storeLockValue l key v w).
Proof. intros [Ht Hcs] Hv. split; [by apply table_ok_store|exact Hcs]. Qed.

Lemma values_ok_delete owner l key w : values_ok owner w → values_ok owner (deleteLockValue l key w).
Proof. intros [Ht Hcs]. split; [by apply table_ok_delete|exact Hcs]. Qed.

Lemma getLockValue_call owner l lk key w :
  values_ok owner w → lockers w !! l = Some lk → getLockValue lk key w ≠ "" →
  ∀ p, process_of w l = Some p → owner (getLockValue lk key w) = p.
Proof.
  unfold process_of. intros [Ht _] -> Hne p [= <-]. by apply getLockValue_owner.
Qed.

Lemma process_of_lookup w l lk : lockers w !! l = Some lk → process_of w l = Some (process lk).
Proof. unfold process_of. by intros ->. Qed.

Lemma values_ok_step owner e w w' a :
  event_ok owner w e → values_ok owner w → step e w = Some (w', a) → values_ok owner w'.
Proof.
  intros [Hg Httl] Hw Hs.
  assert (∀ i c, calls w !! i = Some c → call_ok owner w c) as Hc
    by (intros i c; apply Forall_lookup_1, Hw).
  destruct e; open_step Hs; try done; forget_dogs;
    repeat match goal with
      | Hsame : same_locks _ ?w' |- values_ok _ ?w' => apply (values_ok_same _ _ _ Hsame)
      | |- values_ok _ (end_call _ _) => apply values_ok_end
      | |- values_ok _ (add_call _ _) => apply values_ok_add
      | |- values_ok _ (storeLockValue _ _ _ _) => apply values_ok_store
      | |- values_ok _ (deleteLockValue _ _ _) => apply values_ok_delete
      | |- values_ok _ (set_calls _ (set_redis ?r ?w)) => apply (values_ok_insert _ _ _ (set_redis r w))
      end; try exact Hw; simpl; try done.
  all: try (split; [done|]); try (intros p' Hp'; by apply (Hg _ _ eq_refl)); try (by apply Hg; simpl; case_decide).
  all: try (by eapply getLockValue_call).
  - by destruct (Hc _ _ ltac:(eassumption)).
  - by destruct (Hc _ _ ltac:(eassumption)).
  - eapply (Hc _ _ ltac:(eassumption)), process_of_lookup. eassumption.
  - eapply (Hc _ _ ltac:(eassumption)), process_of_lookup. eassumption.
  - intros p Hp. destruct Hsame as (_ & Hv & _ & Hpr). rewrite Hpr in Hp.
    erewrite process_of_lookup in Hp by eassumption. injection Hp as <-.
    apply getLockValue_owner; [|done]. rewrite Hv. exact (proj1 Hw).
Qed.

(** *** Redis keeps a live entry from strangers *)

Lemma SetNX_keeps now k v ttl r k0 v0 d :
  0 ≤ ttl → entry r k0 = Some (v0, d) → live now (Some (v0, d)) = Some v0 →
  entry (redis_SetNX now k v ttl r).2 k0 = Some (v0, d).
Proof.
  intros Httl He Hl. pose proof (redis_SetNX_ok now k v ttl r Httl) as HS.
  destruct (live now (entry r k)) as [x|] eqn:E; [by rewrite HS|].
  destruct HS as (r' & -> & ->). case_decide; [subst; congruence|done].
Qed.

Lemma unlock_script_keeps now k v r k0 v0 d :
  entry r k0 = Some (v0, d) → live now (Some (v0, d)) = Some v0 → v ≠ v0 →
  entry (unlock_script now k v r).2 k0 = Some (v0, d).
Proof.
  intros He Hl Hv. unfold unlock_script. case_decide as Hg; [|done]. rewrite redis_Get_ok in Hg.
  destruct (redis_Del_ok now k r) as (r' & -> & ->). case_decide; [subst; congruence|done].
Qed.

Lemma extend_script_keeps now k v ms r k0 v0 d :
  entry r k0 = Some (v0, d) → live now (Some (v0, d)) = Some v0 → v ≠ v0 →
  entry (extend_script now k v ms r).2 k0 = Some (v0, d).
Proof.
  intros He Hl Hv. unfold extend_script. case_decide as Hg; [|done]. rewrite redis_Get_ok in Hg.
  pose proof (redis_PExpire_ok now k ms r) as HP. rewrite Hg in HP.
  destruct HP as (r' & -> & ->). case_decide; [subst; congruence|done].
Qed.

Lemma live_before now v d : (∀ t, d = Some t → now < t) → live now (Some (v, d)) = Some v.
Proof. destruct d as [t|]; simpl; [|done]. intros Hd. specialize (Hd t eq_refl). case_match; [done|lia]. Qed.

Lemma step_keeps owner e w w' a fk v d :
  event_ok owner w e → values_ok owner w → event_of_other (owner v) d w e →
  entry (redis w) fk = Some (v, d) → step e w = Some (w', a) → entry (redis w') fk = Some (v, d).
Proof.
  intros [_ Httl] [_ Hcs] [Hother Htime] He Hs.
  assert (∀ i c, calls w !! i = Some c → call_ok owner w c) as Hc by (intros i c; by apply Forall_lookup_1).
  assert (∀ l r v', lockers w !! l = Some r → actor w e = Some l →
            (∀ p, process_of w l = Some p → owner v' = p) → v' ≠ v) as Hne.
  { intros l r v' Hl Ha Hv' ->. apply (Hother l Ha). rewrite (process_of_lookup _ _ _ Hl). f_equal.
    symmetry. apply Hv'. by apply process_of_lookup. }
  assert (∀ now, event_time e = Some now → live now (Some (v, d)) = Some v) as Hlive.
  { intros now Hn. apply live_before. intros t ->. by rewrite Hn in Htime. }
  destruct e; open_step Hs; try done; forget_dogs;
    repeat match goal with
      | Hsame : same_locks _ ?w' |- context [redis ?w'] => destruct Hsame as (-> & _)
      end; simpl; try done.
  all: try match goal with Hsame : same_locks _ ?w' |- context [redis ?w'] => by destruct Hsame as (-> & _) end.
  all: try match goal with
    | Hx : redis_SetNX ?t ?k ?v' ?ttl ?r = (?b, ?r') |- entry ?r' _ = _ =>
        pose proof (f_equal snd Hx) as Hr; simpl in Hr; rewrite <- Hr;
        apply SetNX_keeps; [|done|by apply Hlive]
    | Hx : unlock_script ?t ?k ?v' ?r = (?b, ?r') |- entry ?r' _ = _ =>
        pose proof (f_equal snd Hx) as Hr; simpl in Hr; rewrite <- Hr;
        apply unlock_script_keeps; [done|by apply Hlive|]
    | Hx : extend_script ?t ?k ?v' _ ?r = (?b, ?r') |- entry ?r' _ = _ =>
        pose proof (f_equal snd Hx) as Hr; simpl in Hr; rewrite <- Hr;
        apply extend_script_keeps; [done|by apply Hlive|]
    end.
  all: try (match goal with |- 0 ≤ _ => first [zlia | by destruct (Hc _ _ ltac:(eassumption))] end).
  all: match goal with
    | Hx : lockers _ !! ?l = Some ?lk, Hk : calls _ !! _ = Some _ |- _ =>
        apply (Hne l lk); [done|simpl; by rewrite Hk|by apply (Hc _ _ Hk)]
    end.
Qed.

Lemma run_keeps owner evs w w' rs fk v d :
  values_ok owner w → entry (redis w) fk = Some (v, d) →
  along (event_ok owner) evs w → along (event_of_other (owner v) d) evs w →
  run evs w = Some (w', rs) → entry (redis w') fk = Some (v, d).
Proof.
  revert w rs. induction evs as [|e evs IH]; intros w rs Hw He Hok Hot Hrun; simplify_eq/=; [done|].
  destruct Hok as [Ho Hok], Hot as [Ht Hot]. destruct (step e w) as [[w1 a]|] eqn:Es; [|done].
  simpl in Hrun. destruct (run evs w1) as [[w2 rs2]|] eqn:Er; simplify_eq/=.
  apply (IH w1 rs2); [by eapply values_ok_step|by eapply step_keeps|done..].
Qed.

Lemma run_values owner evs w w' rs :
  values_ok owner w → along (event_ok owner) evs w → run evs w = Some (w', rs) → values_ok owner w'.
Proof.
  revert w rs. induction evs as [|e evs IH]; intros w rs Hw Hok Hrun; simplify_eq/=; [done|].
  destruct Hok as [Ho Hok]. destruct (step e w) as [[w1 a]|] eqn:Es; [|done].
  simpl in Hrun. destruct (run evs w1) as [[w2 rs2]|] eqn:Er; simplify_eq/=.
  apply (IH w1 rs2); [by eapply values_ok_step|done..].
Qed.

Lemma start_values owner r ls n : values_ok owner (start r ls n : World R).
Proof.
  split; [|constructor]. intros p m k v Hm Hk. apply lookup_replicate in Hm as [-> _]. done.
Qed.

Lemma run_cons e evs w w1 a w2 rs :
  step e w = Some (w1, a) → run evs w1 = Some (w2, rs) → run (e :: evs) w = Some (w2, a :: rs).
Proof. intros Hs Hr. simpl. rewrite Hs. simpl. by rewrite Hr. Qed.

Lemma getLockValue_store lk key v w :
  (process lk < length (lockValues w))%nat → getLockValue lk key (storeLockValue lk key v w) = v.
Proof.
  intros Hlt. unfold getLockValue. simpl. rewrite list_lookup_alter_eq.
  destruct (lookup_lt_is_Some_2 _ _ Hlt) as [m ->]. simpl. by rewrite lookup_insert_eq.
Qed.

Lemma getLockValue_delete lk key w : getLockValue lk key (deleteLockValue lk key w) = "".
Proof.
  unfold getLockValue. simpl. rewrite list_lookup_alter_eq.
  destruct (lockValues w !! process lk) as [m|]; [|done]. simpl. by rewrite lookup_delete_eq.
Qed.

Lemma stopWatchdog_none l lk key w :
  lockers w !! l = Some lk → watchdogMap lk !! key = None → stopWatchdog l key w = w.
Proof. intros Hl Hn. unfold stopWatchdog. rewrite Hl. simpl. by rewrite Hn. Qed.

Lemma lookup_last {A} (l : list A) x : (l ++ [x]) !! length l = Some x.
Proof. by rewrite lookup_app_r, Nat.sub_diag. Qed.

Lemma delete_last {A} (l : list A) x : delete (length l) (l ++ [x]) = l.
Proof. induction l as [|y l IH]; [done|]. simpl. by f_equal. Qed.

Lemma insert_last {A} (l : list A) x y : <[length l := y]> (l ++ [x]) = l ++ [y].
Proof. induction l as [|z l IH]; [done|]. simpl. by f_equal. Qed.

(** An [Unlock] that meets nobody. *)
Lemma unlock_run l lk key v now w :
  lockers w !! l = Some lk → watchdogMap lk !! key = None → getLockValue lk key w = v → v ≠ "" →
  let i := length (calls w) in
  let '(n, r) := unlock_script now (fullKey lk key) v (redis w) in
  run [EUnlock l key; EUnlockEval i now; EForget i] w =
    Some (set_redis r (deleteLockValue lk key w),
          [Pending; Pending; if n =? 0 then Failed ErrLockNotHeld else Done]).
Proof.
  intros Hl Hn Hv Hne i. destruct (unlock_script now (fullKey lk key) v (redis w)) as [n r] eqn:Eu.
  eapply run_cons; [|eapply run_cons; [|eapply run_cons; [|reflexivity]]].
  - simpl. unfold Unlock. rewrite Hl. simpl. rewrite (stopWatchdog_none l lk) by done.
    rewrite Hv, decide_False by done. done.
  - simpl. unfold Unlock_eval. simpl. unfold i. rewrite lookup_last. simpl. rewrite Hl. simpl. by rewrite Eu.
  - simpl. unfold Unlock_forget, i. simpl. rewrite insert_last, lookup_last. simpl. rewrite Hl. simpl.
    unfold end_call, set_calls. simpl. rewrite ?insert_last, delete_last.
    do 2 f_equal. by destruct (n =? 0).
Qed.

Lemma lock_run l lk key ttl v now r w :
  lockers w !! l = Some lk → 0 < ttl →
  redis_SetNX now (fullKey lk key) v ttl (redis w) = (Ok true, r) →
  run [ETryLock l key ttl v now; EStore (length (calls w))] w =
    Some (set_redis r (storeLockValue lk key v w), [Pending; Locked true]).
Proof.
  intros Hl Httl HS. eapply run_cons; [|eapply run_cons; [|reflexivity]].
  - simpl. unfold TryLock. rewrite Hl. simpl. replace (ttl <=? 0) with false by lia. by rewrite HS.
  - simpl. unfold store_value. simpl. rewrite lookup_last. simpl. rewrite Hl. simpl.
    unfold end_call, set_calls. simpl. rewrite delete_last. by destruct w.
Qed.

End Lemmas.

#[export] Instance Store_keys_ok : RedisKeysOk Store.
Proof.
  refine (Build_RedisKeysOk Store _ (λ r k, r !! k) _ _ _ _ _); simpl; try done.
  - intros now k v ttl r _. destruct (live now (r !! k)); [done|]. eexists. split; [done|].
    intros k'. case_decide as E; [by rewrite E, lookup_insert_eq|by rewrite lookup_insert_ne].
  - intros now k r. eexists. split; [done|]. intros k'.
    case_decide as E; [by rewrite E, lookup_delete_eq|by rewrite lookup_delete_ne].
  - intros now k ms r. destruct (live now (r !! k)); [|done]. eexists. split; [done|]. intros k'.
    destruct (0 <? ms); case_decide as E; rewrite ?E, ?lookup_insert_eq, ?lookup_delete_eq,
      ?lookup_insert_ne, ?lookup_delete_ne by done; done.
Defined.

(** ** Properties *)

(** C3. A lock is safe from other processes: once a key holds the value of a
    process, no interleaving of steps of other processes' goroutines before
    its deadline (taking, retrying, releasing, extending, watchdogs, failures)
    changes its value or deadline, and every attempt on the key fails. *)
Theorem lock_survives_others {R} `{RedisKeysOk R} owner (r0 : R) ls n evs w rs fk v d evs' w' rs' :
  along (event_ok owner) evs (start r0 ls n) → run evs (start r0 ls n) = Some (w, rs) →
  entry (redis w) fk = Some (v, d) →
  along (event_ok owner) evs' w → along (event_of_other (owner v) d) evs' w →
  run evs' w = Some (w', rs') →
  entry (redis w') fk = Some (v, d) ∧
  ∀ l lk key ttl v' now, lockers w' !! l = Some lk → fullKey lk key = fk → 0 < ttl →
    (∀ t, d = Some t → now < t) → step (ETryLock l key ttl v' now) w' = Some (w', Locked false).
Proof.
  intros Hok Hrun He Hok' Hot Hrun'.
  assert (entry (redis w') fk = Some (v, d)) as He'.
  { apply (run_keeps owner evs' w w' rs'); [|done..]. eapply run_values; [apply start_values|done..]. }
  split; [done|]. intros l lk key ttl v' now Hl <- Httl Hd. simpl. unfold TryLock. rewrite Hl. simpl.
  replace (ttl <=? 0) with false by lia.
  pose proof (redis_SetNX_ok now (fullKey lk key) v' ttl (redis w') ltac:(lia)) as HS.
  rewrite He', (live_before now v d Hd) in HS. rewrite HS. by destruct w'.
Qed.

Lemma lock_survives_others_witness :
  run try_second taken = Some (tried, [Locked false; Failed ErrLockNotHeld]) ∧
  entry (redis tried) "lock:k" = Some ("a", Some Second).
Proof.
  split; [reflexivity|].
  refine (proj1 (lock_survives_others two_owners (∅ : Store) [New 0 None; New 1 None] 2
    take_first taken [Pending; Locked true] "lock:k" "a" (Some Second) try_second tried
    [Locked false; Failed ErrLockNotHeld] _ _ _ _ _ _)).
  - split; [|split; [|exact I]].
    + split; [|exact I]. intros l v [= <- <-] p [= <-]. reflexivity.
    + split; [|exact I]. intros l v [=].
  - reflexivity.
  - reflexivity.
  - split; [|split; [|exact I]].
    + split; [|exact I]. intros l v [= <- <-] p [= <-]. reflexivity.
    + split; [|exact I]. intros l v [=].
  - split; [|split; [|exact I]].
    + split; [|reflexivity]. intros l [= <-] [=].
    + split; [|exact I]. intros l [= <-] [=].
  - reflexivity.
Defined.

(** One goroutine's lock and unlock.  On a free key [TryLock] succeeds and
    stores its value until the deadline; an [Unlock] while the value is live
    frees the key and forgets the value, touching no other key; and an
    [Unlock] after the lock has expired, or been taken over, whatever Redis
    holds by then, reports [ErrLockNotHeld] and leaves Redis as it is. *)
Theorem lock_unlock_own {R} `{RedisKeysOk R} l lk key ttl v now (w : World R) :
  lockers w !! l = Some lk → watchdogMap lk !! key = None →
  (process lk < length (lockValues w))%nat → 0 < ttl → v ≠ "" →
  live now (entry (redis w) (fullKey lk key)) = None →
  let i := length (calls w) in
  let fk := fullKey lk key in
  ∃ w1, run [ETryLock l key ttl v now; EStore i] w = Some (w1, [Pending; Locked true]) ∧
    entry (redis w1) fk = Some (v, ttl_deadline now ttl) ∧
    (∀ k, k ≠ fk → entry (redis w1) k = entry (redis w) k) ∧
    (∀ t, live t (entry (redis w1) fk) = Some v →
       ∃ w2, run [EUnlock l key; EUnlockEval i t; EForget i] w1 = Some (w2, [Pending; Pending; Done]) ∧
         (∀ k, entry (redis w2) k = if decide (k = fk) then None else entry (redis w) k) ∧
         getLockValue lk key w2 = "") ∧
    (∀ t r, live t (entry r fk) ≠ Some v →
       ∃ w2, run [EUnlock l key; EUnlockEval i t; EForget i] (set_redis r w1) =
           Some (w2, [Pending; Pending; Failed ErrLockNotHeld]) ∧
         redis w2 = r ∧ getLockValue lk key w2 = "").
Proof.
  intros Hl Hn Hp Httl Hv Hfree i fk.
  pose proof (redis_SetNX_ok now fk v ttl (redis w) ltac:(lia)) as HS. unfold fk in HS at 1.
  rewrite Hfree in HS. destruct HS as (r1 & HS & He).
  exists (set_redis r1 (storeLockValue lk key v w)).
  split; [by apply lock_run|]. split; [simpl; by rewrite He, decide_True|].
  split; [intros k Hk; simpl; by rewrite He, decide_False|].
  assert (∀ r, getLockValue lk key (set_redis r (storeLockValue lk key v w)) = v) as Hget
    by (intros r; by apply (getLockValue_store lk key v w)).
  split.
  - intros t Ht. pose proof (unlock_run l lk key v t (set_redis r1 (storeLockValue lk key v w)) Hl Hn (Hget _) Hv) as Hu.
    cbv zeta in Hu. unfold unlock_script in Hu. rewrite redis_Get_ok, decide_True in Hu by done.
    destruct (redis_Del_ok t fk r1) as (r2 & HD & He2). cbn [redis set_redis] in Hu, Ht. unfold fk in HD at 1.
    rewrite HD in Hu. cbn [redis set_redis] in *. fold fk in Ht. rewrite Ht in Hu.
    eexists. split; [exact Hu|]. split; [|exact (getLockValue_delete lk key (storeLockValue lk key v w))].
    intros k. simpl. rewrite He2, He. by case_decide.
  - intros t r Hr. pose proof (unlock_run l lk key v t (set_redis r (storeLockValue lk key v w)) Hl Hn (Hget _) Hv) as Hu.
    cbv zeta in Hu. unfold unlock_script in Hu. rewrite redis_Get_ok, decide_False in Hu by done.
    eexists. split; [exact Hu|]. split; [done|].
    exact (getLockValue_delete lk key (storeLockValue lk key v w)).
Qed.

Lemma lock_unlock_own_witness :
  ∃ w1, run [ETryLock 0 "k" Second "a" 0; EStore 0] two_processes = Some (w1, [Pending; Locked true]) ∧
    entry (redis w1) "lock:k" = Some ("a", Some Second).
Proof.
  destruct (lock_unlock_own 0 (New 0 None) "k" Second "a" 0 two_processes) as (w1 & Hr & He & _);
    [reflexivity|reflexivity|simpl; lia|unfold Second; lia|done|reflexivity|].
  exists w1. split; [exact Hr|exact He].
Defined.

(** The value table is per process, not per holder: when a lock has expired
    and another goroutine of the process has taken the key, the first holder's
    [Unlock] releases the second holder's lock. *)
Lemma stale_unlock_releases :
  match run stale_unlock two_processes with
  | Some (w, rs) => redis w = ∅ ∧ last rs = Some Done
  | None => False
  end.
Proof. by vm_compute. Qed.

(** An extension by less than a millisecond reports success and deletes the lock. *)
Lemma short_extend_deletes :
  match run [EExtend 0 "k" Microsecond; EExtendEval 0 1] taken with
  | Some (w, rs) => redis w = ∅ ∧ last rs = Some Done
  | None => False
  end.
Proof. by vm_compute. Qed.

End Lock.
