(* ===== verification/Jwt.v ===== *)
(** * Tokens (src/jwt/types.go, src/jwt/manager.go)

    The manager signs claims with a lifetime and verifies them again.  The
    signing library is a class: [SignedString] and [ParseWithClaims] with their
    documented contract on whole-second dates.  Fresh identifiers and clock
    readings are arguments. *)

From S2P Require Import Prelude.

Module Jwt.

Record RegisteredClaims := mkRegistered {
  Issuer : string;
  ExpiresAt : Time;
  IssuedAt : Time;
  NotBefore : Time;
  TokenID : string
}.

(** A nil map reads like an empty one, and neither is written. *)
Record Claims := mkClaims {
  UserId : string;
  SSID : string;
  TenantId : string;
  Role : string;
  Username : string;
  Email : string;
  Data : gmap string string;
  registered : option RegisteredClaims
}.

Record Options := mkOptions {
  SignKey : string;
  AccessExpire : Duration;
  RefreshExpire : Duration;
  Method : string;
  OptIssuer : string
}.

Definition NewOptions (signKey : string) (accessExpire refreshExpire : Duration) : Options :=
  mkOptions signKey accessExpire refreshExpire "HS256" "gint".

Record TokenPair := mkPair { AccessToken : string; RefreshToken : string }.

Inductive Error := ErrGenerate | ErrParse | ErrInvalid.

(** ** The signing library *)

(** Parsing asks for the key of the token's method, and answers the claims and
    whether the token is valid. *)
Class JwtLib := {
  SignedString : string → string → Claims → res unit string;
  ParseWithClaims : Time → string → (string → res unit string) → res unit (Claims * bool)
}.

Definition whole_dates (c : Claims) : Prop :=
  match registered c with
  | Some r => ExpiresAt r `mod` Second = 0 ∧ IssuedAt r `mod` Second = 0 ∧ NotBefore r `mod` Second = 0
  | None => True
  end.

Definition in_force (now : Time) (c : Claims) : bool :=
  match registered c with
  | Some r => (now <? ExpiresAt r) && (NotBefore r <=? now)
  | None => true
  end.

Class JwtLibOk `{JwtLib} := {
  parse_signed : ∀ now alg key c s keyfunc,
    SignedString alg key c = Ok s → whole_dates c → keyfunc alg = Ok key →
    if in_force now c then ParseWithClaims now s keyfunc = Ok (c, true)
    else is_ok (ParseWithClaims now s keyfunc) = false;
  parse_rejected : ∀ now alg key c s keyfunc,
    SignedString alg key c = Ok s → is_ok (keyfunc alg) = false →
    is_ok (ParseWithClaims now s keyfunc) = false
}.

(** ** The manager *)

(** [NewNumericDate] cuts to the second. *)
Definition NewNumericDate (t : Time) : Time := t / Second * Second.

Section Manager.
Context `{JwtLib}.

Definition generateToken (opts : Options) (now : Time) (uuid : string) (claims : Claims) (expire : Duration)
    : res Error string :=
  let claims := mkClaims (UserId claims) (SSID claims) (TenantId claims) (Role claims)
                  (Username claims) (Email claims) (Data claims)
                  (Some (mkRegistered (OptIssuer opts) (NewNumericDate (now + expire))
                           (NewNumericDate now) (NewNumericDate now) uuid)) in
  match SignedString (Method opts) (SignKey opts) claims with Ok s => Ok s | Err _ => Err ErrGenerate end.

Definition GenerateToken (opts : Options) (now : Time) (uuid : string) (claims : Claims) : res Error string :=
  generateToken opts now uuid claims (AccessExpire opts).

(** The two tokens read the clock and take an identifier in turn. *)
Definition GenerateTokenPair (opts : Options) (now now' : Time) (uuid uuid' : string) (claims : Claims)
    : res Error TokenPair :=
  let? accessToken := generateToken opts now uuid claims (AccessExpire opts) in
  let? refreshToken := generateToken opts now' uuid' claims (RefreshExpire opts) in
  Ok (mkPair accessToken refreshToken).

Definition verifyToken (opts : Options) (now : Time) (tokenString : string) : res Error Claims :=
  match ParseWithClaims now tokenString
          (λ method, if decide (method = Method opts) then Ok (SignKey opts) else Err ()) with
  | Err _ => Err ErrParse
  | Ok (claims, valid) => if valid : bool then Ok claims else Err ErrInvalid
  end.

Definition VerifyToken (opts : Options) (now : Time) (token : string) : res Error Claims :=
  verifyToken opts now token.

Definition VerifyRefreshToken (opts : Options) (now : Time) (token : string) : res Error Claims :=
  verifyToken opts now token.

(** The claims that [generateToken] signs. *)
Definition stamped (opts : Options) (now : Time) (uuid : string) (claims : Claims) (expire : Duration) : Claims :=
  mkClaims (UserId claims) (SSID claims) (TenantId claims) (Role claims) (Username claims) (Email claims)
    (Data claims)
    (Some (mkRegistered (OptIssuer opts) (NewNumericDate (now + expire)) (NewNumericDate now)
             (NewNumericDate now) uuid)).

End Manager.

(** ** A library for the witnesses: a token is its contents *)

Fixpoint bits_of (p : positive) : string :=
  match p with
  | xH => ""
  | xO p => String "0" (bits_of p)
  | xI p => String "1" (bits_of p)
  end.

Fixpoint of_bits (s : string) : positive :=
  match s with
  | EmptyString => xH
  | String a s => if Ascii.eqb a "0" then xO (of_bits s) else xI (of_bits s)
  end.

(** A letter comes first, so that no token is empty. *)
Definition token_bits (token : string) : positive :=
  match token with EmptyString => xH | String _ s => of_bits s end.

Definition Fields : Type :=
  (string * string * string * string * string * string * gmap string string) *
  option (string * Z * Z * Z * string).

Definition fields_of (c : Claims) : Fields :=
  ((UserId c, SSID c, TenantId c, Role c, Username c, Email c, Data c),
   (λ r, (Issuer r, ExpiresAt r, IssuedAt r, NotBefore r, TokenID r)) <$> registered c).

Definition of_fields (f : Fields) : Claims :=
  let '((a, b, c, d, e, g, m), r) := f in
  mkClaims a b c d e g m ((λ '(i, x, y, z, t), mkRegistered i x y z t) <$> r).

#[export] Instance toy_jwt : JwtLib := {|
  SignedString alg key c := Ok (String "t" (bits_of (encode (alg, key, fields_of c))));
  ParseWithClaims now token keyfunc :=
    match decode (A := string * string * Fields) (token_bits token) with
    | None => Err ()
    | Some (alg, key, f) =>
        match keyfunc alg with
        | Err _ => Err ()
        | Ok key' => if decide (key' = key)
                     then (if in_force now (of_fields f) then Ok (of_fields f, true) else Err ()) else Err ()
        end
    end
|}.

Definition sample_claims : Claims := mkClaims "7" "s" "" "" "" "" ∅ None.

Definition sample_options : Options := NewOptions "key" (10 * Second) (60 * Second).

(** ** Lemmas *)

Lemma of_bits_of p : of_bits (bits_of p) = p.
Proof. induction p as [p IH|p IH|]; simpl; by rewrite ?IH. Qed.

Lemma of_fields_of c : of_fields (fields_of c) = c.
Proof. destruct c as [a b c d e g m [[]|]]; done. Qed.

#[export] Instance toy_jwt_ok : @JwtLibOk toy_jwt.
Proof.
  split; intros now alg key c s keyfunc [= <-]; simpl.
  - intros _ Hk. simpl. rewrite of_bits_of, decode_encode, Hk, decide_True by done. rewrite of_fields_of.
    by destruct (in_force now c).
  - rewrite of_bits_of, decode_encode. by destruct (keyfunc alg).
Qed.

Section Lemmas.
Context `{JwtLibOk}.

Lemma NewNumericDate_whole t : NewNumericDate t `mod` Second = 0.
Proof. apply Z.mod_mul. done. Qed.

Lemma generate_verify opts now uuid c expire s t :
  generateToken opts now uuid c expire = Ok s →
  if (NewNumericDate now <=? t) && (t <? NewNumericDate (now + expire))
  then verifyToken opts t s = Ok (stamped opts now uuid c expire)
  else is_ok (verifyToken opts t s) = false.
Proof.
  unfold generateToken. destruct (SignedString _ _ _) as [s'|] eqn:E; [|done]. intros [= ->].
  unfold verifyToken. set (kf := λ method, _).
  pose proof (parse_signed t _ _ _ _ kf E) as Hp.
  assert (kf (Method opts) = Ok (SignKey opts)) as Hk by (unfold kf; by rewrite decide_True).
  specialize (Hp ltac:(split_and!; apply NewNumericDate_whole) Hk).
  unfold in_force in Hp. cbn [registered ExpiresAt NotBefore] in Hp. rewrite andb_comm in Hp.
  destruct ((NewNumericDate now <=? t) && (t <? NewNumericDate (now + expire))).
  - by rewrite Hp.
  - by destruct (ParseWithClaims t s kf).
Qed.

Lemma verify_foreign opts opts' now uuid c expire s t :
  generateToken opts now uuid c expire = Ok s → Method opts' ≠ Method opts →
  is_ok (verifyToken opts' t s) = false.
Proof.
  unfold generateToken. destruct (SignedString _ _ _) as [s'|] eqn:E; [|done]. intros [= ->] Hm.
  unfold verifyToken. set (kf := λ method, _).
  pose proof (parse_rejected t _ _ _ _ kf E) as Hp.
  assert (is_ok (kf (Method opts)) = false) as Hk by (unfold kf; by rewrite decide_False by congruence).
  specialize (Hp Hk). by destruct (ParseWithClaims t s kf).
Qed.

End Lemmas.

(** ** Properties *)

(** A pair of tokens carries the claims it was made from: each token
    verifies, with the identity and data unchanged, from the second it was
    issued in until the second its lifetime ends in, and at no other time, and
    never under a manager with another signing method.  Nothing tells an access
    token from a refresh token: both verifications accept both. *)
Theorem token_lifetime `{JwtLibOk} opts now now' uuid uuid' c pair :
  GenerateTokenPair opts now now' uuid uuid' c = Ok pair →
  let from := NewNumericDate now in
  let until := NewNumericDate (now + AccessExpire opts) in
  let from' := NewNumericDate now' in
  let until' := NewNumericDate (now' + RefreshExpire opts) in
  (∀ t, from ≤ t < until →
     VerifyToken opts t (AccessToken pair) = Ok (stamped opts now uuid c (AccessExpire opts))) ∧
  (∀ t, from' ≤ t < until' →
     VerifyRefreshToken opts t (RefreshToken pair) = Ok (stamped opts now' uuid' c (RefreshExpire opts))) ∧
  (∀ t, ¬ from ≤ t < until → is_ok (VerifyToken opts t (AccessToken pair)) = false) ∧
  (∀ t, ¬ from' ≤ t < until' → is_ok (VerifyRefreshToken opts t (RefreshToken pair)) = false) ∧
  (∀ opts' t, Method opts' ≠ Method opts →
     is_ok (VerifyToken opts' t (AccessToken pair)) = false ∧
     is_ok (VerifyRefreshToken opts' t (RefreshToken pair)) = false) ∧
  (∀ t, VerifyToken opts t (RefreshToken pair) = VerifyRefreshToken opts t (RefreshToken pair)).
Proof.
  unfold GenerateTokenPair.
  destruct (generateToken opts now uuid c _) as [s|] eqn:E1; [|done].
  destruct (generateToken opts now' uuid' c _) as [s'|] eqn:E2; [|done]. intros [= <-].
  cbn [AccessToken RefreshToken]. cbv zeta.
  pose proof (λ t, generate_verify _ _ _ _ _ _ t E1) as H1.
  pose proof (λ t, generate_verify _ _ _ _ _ _ t E2) as H2.
  split_and!; try done.
  - intros t Ht. specialize (H1 t). by rewrite (proj2 (andb_true_iff _ _)) in H1 by lia.
  - intros t Ht. specialize (H2 t). by rewrite (proj2 (andb_true_iff _ _)) in H2 by lia.
  - intros t Ht. specialize (H1 t). by rewrite (proj2 (andb_false_iff _ _)) in H1 by lia.
  - intros t Ht. specialize (H2 t). by rewrite (proj2 (andb_false_iff _ _)) in H2 by lia.
  - intros opts' t Hm. split; [by eapply verify_foreign, Hm|by eapply verify_foreign, Hm].
Qed.

Lemma token_lifetime_witness :
  match GenerateTokenPair sample_options 0 0 "a" "b" sample_claims with
  | Ok tp => UserId <$> (match VerifyToken sample_options (20 * Second) (RefreshToken tp) with
                           | Ok c => Some c | Err _ => None end) = Some "7"
  | Err _ => False
  end.
Proof.
  destruct (GenerateTokenPair sample_options 0 0 "a" "b" sample_claims) as [tp|] eqn:E.
  - destruct (token_lifetime _ _ _ _ _ _ _ E) as (_ & H2 & _ & _ & _ & H6).
    rewrite H6, H2; [reflexivity|]. by vm_compute.
  - vm_compute in E. discriminate E.
Defined.

End Jwt.
