(* ===== verification/Web.v ===== *)
(** * Requests and the request context (src/gctx/context.go)

    What the packages around gin read and write of a request: its headers,
    cookies and address, the response's headers and cookies, and the keys that
    gint stores with the request.  Header names are in the canonical spelling
    the engine gives them; the engine's other parts are not modelled. *)

From stdpp Require Import pretty.
From S2P Require Import Prelude Text.

Module Web.

Import Text.Text.

(** ** The user context *)

Record UserContext := mkUser {
  UserId : string;
  Username : string;
  Role : string;
  TenantId : string;
  Department : string;
  Email : string;
  Extra : option (gmap string string)
}.

Definition empty_user : UserContext := mkUser "" "" "" "" "" "" None.

(** The method accepts a nil pointer. *)
Definition IsEmpty (u : option UserContext) : bool :=
  match u with None => true | Some u => bool_decide (UserId u = "") end.

(** ** The request *)

Record Cookie := mkCookie {
  cookie_name : string;
  cookie_value : string;
  cookie_maxAge : Z;
  cookie_path : string;
  cookie_domain : string;
  cookie_secure : bool;
  cookie_httpOnly : bool;
  cookie_sameSite : Z  (** 0 for none, as in [http.SameSite] *)
}.

(** Path parameters, query parameters and form fields, by the first value of each. *)
Record Args := mkArgs { params : gmap string string; query : gmap string string; form : gmap string string }.

(** [user_context], [user_id] and [trace_id] are the keys of those names. *)
Record Context := mkContext {
  request_method : string;
  request_headers : gmap string string;
  request_cookies : gmap string string;
  request_args : Args;
  client_ip : string;
  response_headers : gmap string string;
  response_cookies : list Cookie;
  user_context : option UserContext;
  user_id : option string;
  trace_id : option string
}.

Definition request (m : string) (hs cs : gmap string string) (ip : string) : Context :=
  mkContext m hs cs (mkArgs ∅ ∅ ∅) ip ∅ [] None None None.

(** The engine's operations. *)
Definition GetHeader (name : string) (c : Context) : string := default "" (request_headers c !! name).

Definition SetRequestHeader (name v : string) (c : Context) : Context :=
  mkContext (request_method c) (<[name := v]> (request_headers c)) (request_cookies c) (request_args c) (client_ip c)
    (response_headers c) (response_cookies c) (user_context c) (user_id c) (trace_id c).

Definition WriteHeader (name v : string) (c : Context) : Context :=
  mkContext (request_method c) (request_headers c) (request_cookies c) (request_args c) (client_ip c)
    (<[name := v]> (response_headers c)) (response_cookies c) (user_context c) (user_id c) (trace_id c).

(** gin's [Header]: an empty value deletes the header. *)
Definition ResponseHeader (name v : string) (c : Context) : Context :=
  if decide (v = "") then
    mkContext (request_method c) (request_headers c) (request_cookies c) (request_args c) (client_ip c)
      (delete name (response_headers c)) (response_cookies c) (user_context c) (user_id c) (trace_id c)
  else WriteHeader name v c.

Definition SetCookie (k : Cookie) (c : Context) : Context :=
  mkContext (request_method c) (request_headers c) (request_cookies c) (request_args c) (client_ip c)
    (response_headers c) (response_cookies c ++ [k]) (user_context c) (user_id c) (trace_id c).

(** ** Values of a request *)

Inductive Error := ErrNoCookie | ErrSyntax | ErrUserContextNotFound.

Definition Value := res Error string.

Definition StringOr (v : Value) (defaultVal : string) : string :=
  match v with Ok s => s | Err _ => defaultVal end.

(** [strconv.Atoi] and [strconv.ParseInt] in base ten, on 64 bits. *)
Definition digit_value (a : ascii) : option Z :=
  let n := Z.of_nat (nat_of_ascii a) in if (48 <=? n) && (n <=? 57) then Some (n - 48) else None.

Fixpoint digits_value (acc : Z) (s : string) : option Z :=
  match s with
  | EmptyString => Some acc
  | String a s => d ← digit_value a; digits_value (10 * acc + d) s
  end.

Definition Atoi (s : string) : res Error Z :=
  let '(sign, digits) :=
    match s with
    | String a rest => if Ascii.eqb a "-" then (-1, rest) else if Ascii.eqb a "+" then (1, rest) else (1, s)
    | EmptyString => (1, s)
    end in
  if decide (digits = "") then Err ErrSyntax
  else match digits_value 0 digits with
       | Some n => if (- 2 ^ 63 <=? sign * n) && (sign * n <? 2 ^ 63) then Ok (sign * n) else Err ErrSyntax
       | None => Err ErrSyntax
       end.

Definition ParseBool (s : string) : res Error bool :=
  if bool_decide (s ∈ ["1"; "t"; "T"; "TRUE"; "true"; "True"]) then Ok true
  else if bool_decide (s ∈ ["0"; "f"; "F"; "FALSE"; "false"; "False"]) then Ok false
  else Err ErrSyntax.

Definition Int (v : Value) : res Error Z := res_bind v Atoi.

Definition IntOr (v : Value) (defaultVal : Z) : Z := match Int v with Ok n => n | Err _ => defaultVal end.

Definition Bool (v : Value) : res Error bool := res_bind v ParseBool.

Definition BoolOr (v : Value) (defaultVal : bool) : bool :=
  match Bool v with Ok b => b | Err _ => defaultVal end.

Definition Int64 (v : Value) : res Error Z := Int v.

Definition Int64Or (v : Value) (defaultVal : Z) : Z := match Int64 v with Ok n => n | Err _ => defaultVal end.

Definition Param (key : string) (c : Context) : Value := Ok (default "" (params (request_args c) !! key)).

Definition Query (key : string) (c : Context) : Value := Ok (default "" (query (request_args c) !! key)).

Definition CookieOf (name : string) (c : Context) : Value :=
  match request_cookies c !! name with Some v => Ok v | None => Err ErrNoCookie end.

Definition Header (name : string) (c : Context) : Value := Ok (GetHeader name c).

(** ** The user of a request *)

Definition UserContextOf (c : Context) : option UserContext := user_context c.

Definition SetUserId (id : string) (c : Context) : Context :=
  mkContext (request_method c) (request_headers c) (request_cookies c) (request_args c) (client_ip c)
    (response_headers c) (response_cookies c) (user_context c) (Some id) (trace_id c).

Definition SetUserContext (uc : option UserContext) (c : Context) : Context :=
  let c := mkContext (request_method c) (request_headers c) (request_cookies c) (request_args c) (client_ip c)
             (response_headers c) (response_cookies c) uc (user_id c) (trace_id c) in
  match uc with Some u => SetUserId (UserId u) c | None => c end.

Definition UserIdOf (c : Context) : string :=
  match UserContextOf c with
  | Some u => UserId u
  | None => default "" (user_id c)
  end.

Definition RoleOf (c : Context) : string := from_option Role "" (UserContextOf c).

Definition TenantIdOf (c : Context) : string := from_option TenantId "" (UserContextOf c).

Definition UsernameOf (c : Context) : string := from_option Username "" (UserContextOf c).

Definition EmailOf (c : Context) : string := from_option Email "" (UserContextOf c).

Definition MustUserId (c : Context) : res Error string :=
  let userId := UserIdOf c in
  if decide (userId = "") then Err ErrUserContextNotFound else Ok userId.

Definition MustUserContext (c : Context) : res Error UserContext :=
  match UserContextOf c with
  | Some u => if decide (UserId u = "") then Err ErrUserContextNotFound else Ok u
  | None => Err ErrUserContextNotFound
  end.

Definition TraceId (c : Context) : string := default "" (trace_id c).

Definition SetTraceId (id : string) (c : Context) : Context :=
  mkContext (request_method c) (request_headers c) (request_cookies c) (request_args c) (client_ip c)
    (response_headers c) (response_cookies c) (user_context c) (user_id c) (Some id).

Definition SetTraceAndUser (traceId userId : string) (c : Context) : Context :=
  SetUserId userId (SetTraceId traceId c).

(** ** Lemmas *)

Lemma UserIdOf_SetUserContext u c : UserIdOf (SetUserContext (Some u) c) = UserId u.
Proof. done. Qed.

(** A nil user context hides nothing: the plain key still answers. *)
Lemma UserIdOf_SetUserId id c : user_context c = None → UserIdOf (SetUserId id c) = id.
Proof. intros H. unfold UserIdOf, UserContextOf. simpl. by rewrite H. Qed.

Lemma IntOr_default v d : is_ok (Int v) = false → IntOr v d = d.
Proof. unfold IntOr. by destruct (Int v). Qed.

Lemma Int_in_range v n : Int v = Ok n → in_i64 n.
Proof.
  unfold Int, Atoi. destruct v as [s|]; simpl; [|done].
  destruct (match s with EmptyString => _ | _ => _ end) as [sign digits]. case_decide; [done|].
  destruct (digits_value 0 digits) as [m|]; [|done]. case_match eqn:E; [|done]. intros [= <-].
  apply andb_true_iff in E as [H1 H2]. unfold in_i64. lia.
Qed.

End Web.
