(* ===== verification/Session.v ===== *)
(** * Sessions (src/session/types.go, session/cookie, session/header,
    session/memory)

    The carriers that take a token to the client and back, as a class that the
    providers' theorems use; and the memory provider over a heap of session
    objects.  A provider's method is split where it gives up its locks, so that
    other calls come in between; fresh identifiers and clock readings are
    arguments. *)

From S2P Require Import Prelude Text Jwt Web.

Module Session.

Import Text.Text Jwt.Jwt Web.Web.

(** ** Carriers *)

Record TokenCarrier := mkCarrier {
  Inject : string → Context → Context;
  Extract : Context → string;
  Clear : Context → Context
}.

(** *** Cookies *)

Record CookieCarrier := mkCookieCarrier {
  cookieName : string;
  domain : string;
  path : string;
  maxAge : Z;
  secure : bool;
  httpOnly : bool
}.

Definition Option := CookieCarrier → CookieCarrier.

Definition WithDomain (d : string) : Option :=
  λ c, mkCookieCarrier (cookieName c) d (path c) (maxAge c) (secure c) (httpOnly c).

Definition WithPath (p : string) : Option :=
  λ c, mkCookieCarrier (cookieName c) (domain c) p (maxAge c) (secure c) (httpOnly c).

Definition WithMaxAge (m : Z) : Option :=
  λ c, mkCookieCarrier (cookieName c) (domain c) (path c) m (secure c) (httpOnly c).

Definition WithSecure (b : bool) : Option :=
  λ c, mkCookieCarrier (cookieName c) (domain c) (path c) (maxAge c) b (httpOnly c).

Definition WithHttpOnly (b : bool) : Option :=
  λ c, mkCookieCarrier (cookieName c) (domain c) (path c) (maxAge c) (secure c) b.

Definition NewCookieCarrier (name : string) (opts : list Option) : CookieCarrier :=
  let name := if decide (name = "") then "gint_token" else name in
  foldl (λ c opt, opt c) (mkCookieCarrier name "" "/" 86400 false true) opts.

Definition cookie_Inject (c : CookieCarrier) (token : string) : Context → Context :=
  SetCookie (mkCookie (cookieName c) token (maxAge c) (path c) (domain c) (secure c) (httpOnly c) 0).

Definition cookie_Extract (c : CookieCarrier) (ctx : Context) : string :=
  StringOr (CookieOf (cookieName c) ctx) "".

Definition cookie_Clear (c : CookieCarrier) : Context → Context :=
  SetCookie (mkCookie (cookieName c) "" (-1) (path c) (domain c) (secure c) (httpOnly c) 0).

Definition cookie_carrier (c : CookieCarrier) : TokenCarrier :=
  mkCarrier (cookie_Inject c) (cookie_Extract c) (cookie_Clear c).

(** *** Headers *)

Definition NewCarrier : string := "Authorization".

Definition NewCarrierWithHeader (headerName : string) : string := headerName.

Definition header_Inject (headerName token : string) : Context → Context := ResponseHeader headerName token.

Definition header_Extract (headerName : string) (ctx : Context) : string :=
  let val := TrimSpace (GetHeader headerName ctx) in
  if decide (val = "") then ""
  else if (7 <=? String.length val)%nat && String.eqb (lower (str_take 6 val)) "bearer" then
    let rest := TrimSpace (str_drop 6 val) in
    if decide (rest = "") then val else rest
  else val.

Definition header_Clear (headerName : string) : Context → Context := ResponseHeader headerName "".

Definition header_carrier (headerName : string) : TokenCarrier :=
  mkCarrier (header_Inject headerName) (header_Extract headerName) (header_Clear headerName).

(** The header of refresh tokens, which no carrier handles. *)
Definition refresh_header : string := "X-Refresh-Token".

(** *** What a carrier promises: the request of a client that took the response
    in and answers it holds the token that was injected, whatever
    refresh token goes with it, and none after [Clear]. *)

Class CarrierOk (c : TokenCarrier) := {
  answer : Context → Context;
  good_token : string → Prop;
  good_nonempty : ∀ t, good_token t → t ≠ "";
  extract_inject : ∀ t v ctx, good_token t →
    Extract c (answer (ResponseHeader refresh_header v (Inject c t ctx))) = t;
  extract_clear : ∀ ctx, Extract c (answer (Clear c ctx)) = ""
}.

(** A client that stores cookies, deleting those of negative age. *)
Definition store_cookie (jar : gmap string string) (k : Cookie) : gmap string string :=
  if cookie_maxAge k <? 0 then delete (cookie_name k) jar else <[cookie_name k := cookie_value k]> jar.

Definition answer_cookies (ctx : Context) : Context :=
  request "GET" ∅ (foldl store_cookie (request_cookies ctx) (response_cookies ctx)) (client_ip ctx).

(** A client that sends a header back as it got it. *)
Definition answer_header (headerName : string) (ctx : Context) : Context :=
  request "GET" (match response_headers ctx !! headerName with
                 | Some v => {[headerName := v]}
                 | None => ∅
                 end) ∅ (client_ip ctx).

Definition good_header_token (t : string) : Prop :=
  t ≠ "" ∧ ascii_only t = true ∧ no_space t = true ∧ lower (str_take 6 t) ≠ "bearer".

(** ** Session data *)

(** A value of type [any]: a string, or something else. *)
Inductive any := VStr (s : string) | VAny (id : Z).

Inductive Error :=
| ErrTokenNotFound | ErrRefreshNotFound | ErrToken (e : Jwt.Error)
| ErrSessionNotFound | ErrSessionExpired | ErrKeyNotFound.

(** *** The memory provider *)

(** [data] is nil when the caller gave none. *)
Record Session := mkSession {
  id : string;
  claims : Claims;
  data : option (gmap string any);
  expireTime : Time
}.

Record Provider := mkProvider {
  opts : Options;
  expiration : Duration;
  sessions : gmap string nat;
  heap : list Session
}.

Definition NewProvider (jwtKey : string) (accessExpire refreshExpire : Duration) : Provider :=
  mkProvider (NewOptions jwtKey accessExpire refreshExpire) refreshExpire ∅ [].

Definition set_sessions (m : gmap string nat) (p : Provider) : Provider :=
  mkProvider (opts p) (expiration p) m (heap p).

Definition set_expire (l : nat) (t : Time) (p : Provider) : Provider :=
  mkProvider (opts p) (expiration p) (sessions p)
    (alter (λ s, mkSession (id s) (claims s) (data s) t) l (heap p)).

Section Memory.
Context `{JwtLib} (carrier : TokenCarrier).

(** The clock is read for each token and for the session; identifiers are those
    of the session and of the tokens. *)
Definition NewSession (ctx : Context) (userId : string) (jwtData : gmap string string)
    (sessData : option (gmap string any)) (t1 t2 t3 : Time) (ssid u1 u2 : string) (p : Provider)
    : res Error nat * Context * Provider :=
  let c := mkClaims userId ssid "" "" "" "" jwtData None in
  match GenerateTokenPair (opts p) t1 t2 u1 u2 c with
  | Err e => (Err (ErrToken e), ctx, p)
  | Ok tokenPair =>
      let l := length (heap p) in
      let p := mkProvider (opts p) (expiration p) (<[ssid := l]> (sessions p))
                 (heap p ++ [mkSession ssid c sessData (t3 + expiration p)]) in
      let ctx := Inject carrier (AccessToken tokenPair) ctx in
      (Ok l, ResponseHeader refresh_header (RefreshToken tokenPair) ctx, p)
  end.

(** The token of a request, verified. *)
Definition authenticate (ctx : Context) (now : Time) (p : Provider) : res Error Claims :=
  let token := Extract carrier ctx in
  if decide (token = "") then Err ErrTokenNotFound
  else match VerifyToken (opts p) now token with Ok c => Ok c | Err e => Err (ErrToken e) end.

(** [Get] up to the read of the map, and from the lock of the session on. *)
Definition Get_find (ctx : Context) (now : Time) (p : Provider) : res Error (string * nat) :=
  let? c := authenticate ctx now p in
  match sessions p !! SSID c with Some l => Ok (SSID c, l) | None => Err ErrSessionNotFound end.

Definition Get_touch (ssid : string) (l : nat) (now : Time) (p : Provider) : res Error nat * Provider :=
  match heap p !! l with
  | None => (Err ErrSessionNotFound, p)
  | Some s =>
      if expireTime s <? now then (Err ErrSessionExpired, set_sessions (delete ssid (sessions p)) p)
      else (Ok l, set_expire l (now + expiration p) p)
  end.

Definition Get (ctx : Context) (now now' : Time) (p : Provider) : res Error nat * Provider :=
  match Get_find ctx now p with
  | Err e => (Err e, p)
  | Ok (ssid, l) => Get_touch ssid l now' p
  end.

Definition Destroy (ctx : Context) (now : Time) (p : Provider) : res Error unit * Context * Provider :=
  match authenticate ctx now p with
  | Err e => (Err e, ctx, p)
  | Ok c => (Ok (), Clear carrier ctx, set_sessions (delete (SSID c) (sessions p)) p)
  end.

(** [RenewToken]: the checks, then the new tokens and the new deadline. *)
Definition Renew_check (ctx : Context) (now now' : Time) (p : Provider) : res Error (nat * Claims) :=
  let refreshToken := GetHeader refresh_header ctx in
  if decide (refreshToken = "") then Err ErrRefreshNotFound
  else
    match VerifyRefreshToken (opts p) now refreshToken with
    | Err e => Err (ErrToken e)
    | Ok c =>
        match sessions p !! SSID c ≫= λ l, (λ s, (l, s)) <$> heap p !! l with
        | None => Err ErrSessionNotFound
        | Some (l, s) => if expireTime s <? now' then Err ErrSessionExpired else Ok (l, c)
        end
    end.

Definition Renew_finish (ctx : Context) (l : nat) (c : Claims) (t1 t2 t3 : Time) (u1 u2 : string) (p : Provider)
    : res Error unit * Context * Provider :=
  match GenerateTokenPair (opts p) t1 t2 u1 u2 c with
  | Err e => (Err (ErrToken e), ctx, p)
  | Ok tokenPair =>
      let ctx := Inject carrier (AccessToken tokenPair) ctx in
      (Ok (), ResponseHeader refresh_header (RefreshToken tokenPair) ctx, set_expire l (t3 + expiration p) p)
  end.

(** One tick of the cleaner: the first pass collects, the second looks again. *)
Definition expiredIDs `{RangeOrder} (now : Time) (p : Provider) : list string :=
  omap (λ kl, s ← heap p !! kl.2; if expireTime s <? now then Some kl.1 else None) (range_map (sessions p)).

Definition delete_expired (now : Time) (ids : list string) (p : Provider) : Provider :=
  foldl (λ p i, match sessions p !! i ≫= (heap p !!.) with
                | Some s => if expireTime s <? now then set_sessions (delete i (sessions p)) p else p
                | None => p
                end) p ids.

End Memory.

(** *** Methods of a session *)

Definition live_session (l : nat) (now : Time) (p : Provider) : res Error Session :=
  match heap p !! l with
  | Some s => if expireTime s <? now then Err ErrSessionExpired else Ok s
  | None => Err ErrSessionNotFound
  end.

Definition sess_Get (l : nat) (key : string) (now : Time) (p : Provider) : res Error any :=
  let? s := live_session l now p in
  match data s ≫= (.!! key) with Some v => Ok v | None => Err ErrKeyNotFound end.

(** A write to a nil map panics: [None]. *)
Definition sess_Set (l : nat) (key : string) (val : any) (now : Time) (p : Provider)
    : option (res Error unit * Provider) :=
  match live_session l now p with
  | Err e => Some (Err e, p)
  | Ok s =>
      d ← data s;
      Some (Ok (), mkProvider (opts p) (expiration p) (sessions p)
                     (<[l := mkSession (id s) (claims s) (Some (<[key := val]> d)) (expireTime s)]> (heap p)))
  end.

Definition sess_Del (l : nat) (key : string) (now : Time) (p : Provider) : res Error unit * Provider :=
  match live_session l now p with
  | Err e => (Err e, p)
  | Ok s =>
      (Ok (), mkProvider (opts p) (expiration p) (sessions p)
                (<[l := mkSession (id s) (claims s) (delete key <$> data s) (expireTime s)]> (heap p)))
  end.

Definition sess_Destroy (l : nat) (now : Time) (p : Provider) : Provider := set_expire l (now - Hour) p.

Definition sess_Refresh (l : nat) (now : Time) (p : Provider) : res Error unit :=
  let? _ := live_session l now p in Ok ().

Definition text_of (key : string) (d : option (gmap string any)) : string :=
  match d ≫= (.!! key) with Some (VStr s) => s | _ => "" end.

Definition sess_UserContext (l : nat) (p : Provider) : option UserContext :=
  s ← heap p !! l;
  Some (mkUser (Jwt.UserId (claims s)) (text_of "username" (data s)) (text_of "role" (data s))
          (text_of "tenant_id" (data s)) (text_of "department" (data s)) (text_of "email" (data s)) None).

(** *** Other calls that may come in between *)

Inductive Event :=
| ENew (ctx : Context) (userId : string) (jwtData : gmap string string) (sessData : option (gmap string any))
    (t1 t2 t3 : Time) (ssid u1 u2 : string)
| EGet (ssid : string) (l : nat) (now : Time)
| EDestroy (ctx : Context) (now : Time)
| ERenew (ctx : Context) (l : nat) (c : Claims) (t1 t2 t3 : Time) (u1 u2 : string)
| EClean (now : Time) (ids : list string)
| ESet (l : nat) (key : string) (val : any) (now : Time)
| EDel (l : nat) (key : string) (now : Time)
| EDestroySession (l : nat) (now : Time).

Definition step `{JwtLib} (carrier : TokenCarrier) (e : Event) (p : Provider) : option Provider :=
  match e with
  | ENew ctx u jd sd t1 t2 t3 ssid u1 u2 => Some (NewSession carrier ctx u jd sd t1 t2 t3 ssid u1 u2 p).2
  | EGet ssid l now => Some (Get_touch ssid l now p).2
  | EDestroy ctx now => Some (Destroy carrier ctx now p).2
  | ERenew ctx l c t1 t2 t3 u1 u2 => Some (Renew_finish carrier ctx l c t1 t2 t3 u1 u2 p).2
  | EClean now ids => Some (delete_expired now ids p)
  | ESet l key val now => snd <$> sess_Set l key val now p
  | EDel l key now => Some (sess_Del l key now p).2
  | EDestroySession l now => Some (sess_Destroy l now p)
  end.

Fixpoint run `{JwtLib} (carrier : TokenCarrier) (es : list Event) (p : Provider) : option Provider :=
  match es with
  | [] => Some p
  | e :: es => p ← step carrier e p; run carrier es p
  end.

(** Session identifiers are fresh: none is given twice. *)
Definition not_reissued (ssid : string) (e : Event) : Prop :=
  match e with ENew _ _ _ _ _ _ _ s _ _ => s ≠ ssid | _ => True end.

(** A login for the witnesses: at second 0, for ten and sixty seconds. *)
Definition sample_provider : Provider := NewProvider "key" (10 * Second) (60 * Second).

Definition sample_carrier : TokenCarrier := cookie_carrier (NewCookieCarrier "" []).

Definition sample_login `{JwtLib} : res Error nat * Context * Provider :=
  NewSession sample_carrier (request "POST" ∅ ∅ "") "7" ∅ None 0 0 0 "s" "a" "b" sample_provider.

(** ** Lemmas *)

#[export] Instance cookie_carrier_ok (c : CookieCarrier) :
  0 ≤ maxAge c → CarrierOk (cookie_carrier c).
Proof.
  intros Hm. refine (Build_CarrierOk _ answer_cookies (λ t, t ≠ "") (λ t H, H) _ _).
  - intros t v ctx Ht. simpl. unfold cookie_Extract, CookieOf, cookie_Inject, ResponseHeader, answer_cookies.
    replace (foldl store_cookie (request_cookies _) (response_cookies _)) with
      (foldl store_cookie (request_cookies ctx)
         (response_cookies ctx ++ [mkCookie (cookieName c) t (maxAge c) (path c) (domain c) (secure c) (httpOnly c) 0]))
      by (by case_decide).
    simpl. rewrite foldl_app. simpl. unfold store_cookie at 1. simpl.
    replace (maxAge c <? 0) with false by lia. by rewrite lookup_insert_eq.
  - intros ctx. simpl. unfold cookie_Extract, CookieOf, cookie_Clear, answer_cookies. simpl.
    rewrite foldl_app. simpl. unfold store_cookie at 1. simpl. by rewrite lookup_delete_eq.
Defined.

Lemma header_Extract_plain name t ctx :
  GetHeader name ctx = t → good_header_token t → header_Extract name ctx = t.
Proof.
  intros Hg (Hne & Ha & Hn & Hb). unfold header_Extract. rewrite Hg, TrimSpace_word by done.
  rewrite decide_False by done. apply String.eqb_neq in Hb. rewrite Hb, andb_false_r. done.
Qed.

#[export] Instance header_carrier_ok (name : string) :
  name ≠ refresh_header → CarrierOk (header_carrier name).
Proof.
  intros Hname. refine (Build_CarrierOk _ (answer_header name) good_header_token (λ t H, proj1 H) _ _).
  - intros t v ctx Ht. simpl. apply header_Extract_plain; [|done]. unfold answer_header, GetHeader.
    assert (response_headers (ResponseHeader refresh_header v (header_Inject name t ctx)) !! name = Some t) as ->.
    { unfold header_Inject. unfold ResponseHeader at 1. case_decide; simpl; rewrite ?lookup_delete_ne, ?lookup_insert_ne by done;
        unfold ResponseHeader; rewrite decide_False by apply Ht; simpl; by rewrite lookup_insert_eq. }
    change (default "" (({[name := t]} : gmap string string) !! name) = t). by rewrite lookup_singleton_eq.
  - intros ctx. simpl. unfold header_Clear, answer_header, ResponseHeader. rewrite decide_True by done.
    cbn [response_headers]. rewrite lookup_delete_eq. unfold header_Extract, GetHeader.
    cbn [request_headers request]. by rewrite lookup_empty.
Defined.

(** The standard form and the bare form of the header carry the same token. *)
Lemma header_Extract_bearer name t ctx :
  good_header_token t →
  (GetHeader name ctx = t ∨ GetHeader name ctx = ("Bearer " +:+ t)%string) → header_Extract name ctx = t.
Proof.
  intros Ht [Hg|Hg]; [by apply header_Extract_plain|]. destruct Ht as (Hne & Ha & Hn & _).
  unfold header_Extract. rewrite Hg. rewrite (TrimSpace_prefix "B" "earer " t) by done.
  rewrite decide_False by done.
  change (str_drop 6 ("Bearer " +:+ t)%string) with (String " " t). rewrite TrimSpace_space by done.
  change (lower (str_take 6 ("Bearer " +:+ t)%string)) with "bearer".
  rewrite str_length_app. simpl. by rewrite decide_False.
Qed.

Section MemoryLemmas.
Context `{JwtLibOk} (carrier : TokenCarrier) `{CarrierOk carrier}.
Implicit Types p : Provider.

(** Every call keeps an identifier that is gone gone. *)
Lemma delete_expired_gone now ids p k :
  sessions p !! k = None → sessions (delete_expired now ids p) !! k = None.
Proof.
  unfold delete_expired. revert p. induction ids as [|i ids IH]; intros p Hk; simpl; [done|].
  apply IH. repeat case_match; try done. simpl. by apply lookup_delete_None; right.
Qed.

Lemma step_gone e p p' k :
  not_reissued k e → sessions p !! k = None → step carrier e p = Some p' → sessions p' !! k = None.
Proof.
  intros Hn Hk Hs. destruct e; simpl in Hs; simplify_eq/=.
  - unfold NewSession. case_match; simpl; [by rewrite lookup_insert_ne|done].
  - unfold Get_touch. repeat case_match; simpl; try done. by apply lookup_delete_None; right.
  - unfold Destroy. case_match; simpl; [|done]. by apply lookup_delete_None; right.
  - unfold Renew_finish. by case_match.
  - by apply delete_expired_gone.
  - apply fmap_Some in Hs as ([r p1] & Hs & ->). unfold sess_Set in Hs.
    destruct (live_session _ _ _) as [s|]; [destruct (data s)|]; by simplify_eq/=.
  - unfold sess_Del. by case_match.
  - done.
Qed.

Lemma run_gone es p p' k :
  Forall (not_reissued k) es → sessions p !! k = None → run carrier es p = Some p' → sessions p' !! k = None.
Proof.
  intros Hall. revert p. induction Hall as [|e es He _ IH]; intros p Hk Hr; simplify_eq/=; [done|].
  destruct (step carrier e p) as [p1|] eqn:Es; [|done]. by eapply IH; [eapply step_gone|].
Qed.

Lemma NewSession_inv ctx u jd sd t1 t2 t3 ssid u1 u2 p l ctx' p' :
  NewSession carrier ctx u jd sd t1 t2 t3 ssid u1 u2 p = (Ok l, ctx', p') →
  let c := mkClaims u ssid "" "" "" "" jd None in
  ∃ pair, GenerateTokenPair (opts p) t1 t2 u1 u2 c = Ok pair ∧ l = length (heap p) ∧
    ctx' = ResponseHeader refresh_header (RefreshToken pair) (Inject carrier (AccessToken pair) ctx) ∧
    p' = mkProvider (opts p) (expiration p) (<[ssid := l]> (sessions p))
           (heap p ++ [mkSession ssid c sd (t3 + expiration p)]).
Proof.
  unfold NewSession. cbv zeta. destruct (GenerateTokenPair _ _ _ _ _ _) as [tp|e] eqn:E; [|done].
  intros [= <- <- <-]. by exists tp.
Qed.

(** A pair of tokens is made of two generated tokens. *)
Lemma GenerateTokenPair_inv o t1 t2 u1 u2 c pair :
  GenerateTokenPair o t1 t2 u1 u2 c = Ok pair →
  generateToken o t1 u1 c (AccessExpire o) = Ok (AccessToken pair) ∧
  generateToken o t2 u2 c (RefreshExpire o) = Ok (RefreshToken pair).
Proof.
  unfold GenerateTokenPair. destruct (generateToken o t1 u1 c _); [|done].
  destruct (generateToken o t2 u2 c _); [|done]. by intros [= <-].
Qed.

(** A request that brings a generated access token is authenticated. *)
Lemma authenticate_token o t1 u1 c expire tok ctx now p :
  generateToken o t1 u1 c expire = Ok tok → opts p = o → tok ≠ "" → Extract carrier ctx = tok →
  NewNumericDate t1 ≤ now < NewNumericDate (t1 + expire) →
  authenticate carrier ctx now p = Ok (stamped o t1 u1 c expire).
Proof.
  intros Hg Ho Hne He Ht. unfold authenticate. rewrite He, decide_False by done. rewrite Ho.
  pose proof (generate_verify _ _ _ _ _ _ now Hg) as Hv.
  rewrite (proj2 (andb_true_iff _ _)) in Hv by lia. unfold VerifyToken. by rewrite Hv.
Qed.

End MemoryLemmas.

(** ** Properties *)



(** Logging out is final: once a session's identifier is gone from the
    provider, no later login, request, renewal, clean-up or session call brings
    it back, so every token that names it is refused by [Get] and
    [RenewToken]. *)
Theorem logout_is_final `{JwtLib} carrier p es p' k :
  sessions p !! k = None → Forall (not_reissued k) es → run carrier es p = Some p' →
  (∀ ctx now c, authenticate carrier ctx now p' = Ok c → SSID c = k →
     ∀ now', Get carrier ctx now now' p' = (Err ErrSessionNotFound, p')) ∧
  (∀ ctx now now' l c, Renew_check ctx now now' p' = Ok (l, c) → SSID c ≠ k).
Proof.
  intros Hk Hall Hrun. pose proof (run_gone carrier es p p' k Hall Hk Hrun) as Hk'. split.
  - intros ctx now c Ha Hc now'. unfold Get, Get_find. rewrite Ha. simpl. by rewrite Hc, Hk'.
  - intros ctx now now' l c. unfold Renew_check. case_decide; [done|].
    destruct (VerifyRefreshToken _ _ _) as [c'|]; [|done].
    destruct (sessions p' !! SSID c') as [l'|] eqn:E; simpl; [|done].
    destruct (heap p' !! l') as [s|]; simpl; [|done]. case_match; [done|]. intros [= <- <-] Heq. congruence.
Qed.

Lemma logout_is_final_witness :
  match sample_login with
  | (_, ctx, p) =>
      let p0 := set_sessions (delete "s" (sessions p)) p in
      let p' := delete_expired 0 ["s"] p0 in
      Get sample_carrier (answer_cookies ctx) (5 * Second) (5 * Second) p' = (Err ErrSessionNotFound, p')
  end.
Proof.
  destruct sample_login as [[r ctx] p] eqn:E. cbv zeta.
  destruct (logout_is_final sample_carrier (set_sessions (delete "s" (sessions p)) p) [EClean 0 ["s"]]
    (delete_expired 0 ["s"] (set_sessions (delete "s" (sessions p)) p)) "s") as [H _].
  - simpl. by rewrite lookup_delete_eq.
  - by repeat constructor.
  - reflexivity.
  - assert (is_Some (match authenticate sample_carrier (answer_cookies ctx) (5 * Second)
      (delete_expired 0 ["s"] (set_sessions (delete "s" (sessions p)) p)) with
      | Ok c => if decide (SSID c = "s") then Some c else None | Err _ => None end)) as [c Hc].
    { vm_compute in E. injection E as _ <- <-. vm_compute. by eexists. }
    destruct (authenticate _ _ _ _) as [c'|] eqn:Ea; [|done]. case_decide; [|done].
    by apply (H _ _ c').
Defined.

(** ** What the code does not promise *)

(** A session without initial data has a nil map: the first [Set] panics. *)
Lemma set_without_data_panics :
  match sample_login with
  | (Ok l, _, p) => sess_Set l "k" (VStr "v") 0 p = None
  | _ => False
  end.
Proof. by vm_compute. Qed.

(** [Session.Destroy] only marks the session: a renewal that had passed its
    check revives it. *)
Lemma renewal_revives :
  match sample_login with
  | (Ok l, ctx, p) =>
      let req := SetRequestHeader refresh_header (default "" (response_headers ctx !! refresh_header))
                   (answer_cookies ctx) in
      match Renew_check req 0 0 p with
      | Ok (l', c) =>
          let dead := sess_Destroy l 0 p in
          l' = l ∧ (Get sample_carrier req 0 1 dead).1 = Err ErrSessionExpired ∧
          (Get sample_carrier req 0 1 (Renew_finish sample_carrier req l' c 1 1 1 "c" "d" dead).2).1 = Ok l
      | Err _ => False
      end
  | _ => False
  end.
Proof. by vm_compute. Qed.

(** Renewing does not take the old refresh token out of use. *)
Lemma old_refresh_token_lives :
  match sample_login with
  | (Ok l, ctx, p) =>
      let req := SetRequestHeader refresh_header (default "" (response_headers ctx !! refresh_header))
                   (answer_cookies ctx) in
      match Renew_check req 0 0 p with
      | Ok (l', c) =>
          is_ok (Renew_check req (20 * Second) (20 * Second)
                   (Renew_finish sample_carrier req l' c 1 1 1 "c" "d" p).2) = true
      | Err _ => False
      end
  | _ => False
  end.
Proof. by vm_compute. Qed.

End Session.
