(* ===== verification/RedisSession.v ===== *)
(** * Sessions in Redis (src/session/redis/provider.go, src/session/redis/session.go)

    A session is a hash whose fields are JSON texts and whose deadline every
    renewal and write moves.  Redis hashes and the JSON codec are classes with
    their documented laws; the carrier and the token manager are those of
    [Session.v] and [Jwt.v].  A command that fails is left out: its error is
    returned as it is. *)

From S2P Require Import Prelude Jwt Web Session.

Module RedisSession.

Import Jwt.Jwt Web.Web.
Import Session (TokenCarrier, Inject, Extract, Clear, any, VStr, VAny, refresh_header).

(** ** Redis hashes *)

Class RedisHashes (R : Type) := {
  redis_HSet : Time → string → string → string → R → R;
  redis_HGet : Time → string → string → R → option string;
  redis_HDel : Time → string → string → R → R;
  redis_Del : Time → string → R → R;
  redis_Exists : Time → string → R → Z;
  redis_Expire : Time → string → Duration → R → R
}.

Abbreviation Hash := (gmap string string * option Time)%type (only parsing).

(** The fields of a hash that has not expired. *)
Definition fields (now : Time) (e : option Hash) : gmap string string :=
  match e with
  | Some (m, Some d) => if now <? d then m else ∅
  | Some (m, None) => m
  | None => ∅
  end.

(** Whole seconds, at least one. *)
Definition expire_at (now : Time) (d : Duration) : Time :=
  now + (if d <? Second then Second else d / Second * Second).

(** A write to a hash that has expired starts a new one without a deadline. *)
Definition written (now : Time) (e : option Hash) (f v : string) : option Hash :=
  Some (<[f := v]> (fields now e),
        match e with Some (_, Some d) => if now <? d then Some d else None | _ => None end).

Class RedisHashesOk (R : Type) `{RedisHashes R} := {
  hash : R → string → option Hash;
  redis_HGet_ok : ∀ now k f r, redis_HGet now k f r = fields now (hash r k) !! f;
  redis_Exists_ok : ∀ now k r, redis_Exists now k r = if decide (fields now (hash r k) = ∅) then 0 else 1;
  redis_HSet_ok : ∀ now k f v r k',
    hash (redis_HSet now k f v r) k' = if decide (k' = k) then written now (hash r k) f v else hash r k';
  redis_Del_ok : ∀ now k r k', hash (redis_Del now k r) k' = if decide (k' = k) then None else hash r k';
  redis_HDel_ok : ∀ now k f r k',
    fields now (hash (redis_HDel now k f r) k') =
      if decide (k' = k) then delete f (fields now (hash r k)) else fields now (hash r k');
  redis_Expire_ok : ∀ now k d r k', 0 < d →
    hash (redis_Expire now k d r) k' =
      if decide (k' = k)
      then (if decide (fields now (hash r k) = ∅) then hash r k
            else Some (fields now (hash r k), Some (expire_at now d)))
      else hash r k'
}.

(** ** JSON: any value to a text, and back *)

Class Json := {
  json_Marshal : any → option string;
  json_Unmarshal : string → option any
}.

(** A string is written between quotes, and read back as it was. *)
Class JsonOk `{Json} := {
  json_string : ∀ s d, json_Marshal (VStr s) = Some d → (String.length s + 2 ≤ String.length d)%nat;
  json_back : ∀ v d, json_Marshal v = Some d → json_Unmarshal d = Some v
}.

(** ** The provider *)

Inductive Error :=
| ErrTokenNotFound | ErrRefreshNotFound | ErrToken (e : Jwt.Error) | ErrNoSession | ErrMarshal | ErrNoKey.

Record Provider := mkProvider { opts : Options; expiration : Duration }.

Definition NewProvider (jwtKey : string) (accessExpire refreshExpire : Duration) : Provider :=
  mkProvider (NewOptions jwtKey accessExpire refreshExpire) refreshExpire.

Record Session := mkSession { key : string; claims : Claims; sess_expiration : Duration }.

Definition sessionKey (ssid : string) : string := ("gint:session:" +:+ ssid)%string.

Definition newSession (ssid : string) (expiration : Duration) (c : Claims) : Session :=
  mkSession (sessionKey ssid) c expiration.

Section Methods.
Context {R : Type} `{RedisHashes R} `{Json} `{JwtLib} `{RangeOrder} (carrier : TokenCarrier).

(** The values of the data as JSON, unless one has none. *)
Definition marshal_all (data : list (string * any)) : option (list (string * string)) :=
  mapM (λ kv, d ← json_Marshal kv.2; Some (kv.1, d)) data.

(** [init]: nothing is sent unless every value marshals. *)
Definition init (s : Session) (data : gmap string any) (now : Time) (r : R) : res Error unit * R :=
  if decide (data = ∅) then (Ok (), r)
  else match marshal_all (range_map data) with
       | None => (Err ErrMarshal, r)
       | Some kvs =>
           (Ok (), redis_Expire now (key s) (sess_expiration s)
                     (foldl (λ r kv, redis_HSet now (key s) kv.1 kv.2 r) r kvs))
       end.

(** The tokens are injected before the session is stored. *)
Definition NewSession (p : Provider) (ctx : Context) (userId : string) (jwtData : gmap string string)
    (sessData : option (gmap string any)) (t1 t2 t3 : Time) (ssid u1 u2 : string) (r : R)
    : res Error Session * Context * R :=
  let c := mkClaims userId ssid "" "" "" "" jwtData None in
  match GenerateTokenPair (opts p) t1 t2 u1 u2 c with
  | Err e => (Err (ErrToken e), ctx, r)
  | Ok tokenPair =>
      let ctx := ResponseHeader refresh_header (RefreshToken tokenPair)
                   (Inject carrier (AccessToken tokenPair) ctx) in
      let s := newSession ssid (expiration p) c in
      let data := <["created_at" := VAny (t3 / Second)]> (<["user_id" := VStr userId]> (default ∅ sessData)) in
      match init s data t3 r with
      | (Ok _, r) => (Ok s, ctx, r)
      | (Err e, r) => (Err e, ctx, r)
      end
  end.

(** [cached] is the session a call of the same request has found. *)
Definition Get (p : Provider) (ctx : Context) (cached : option Session) (now now' : Time) (r : R)
    : res Error Session :=
  match cached with
  | Some s => Ok s
  | None =>
      let token := Extract carrier ctx in
      if decide (token = "") then Err ErrTokenNotFound
      else
        match VerifyToken (opts p) now token with
        | Err e => Err (ErrToken e)
        | Ok c =>
            if redis_Exists now' (sessionKey (SSID c)) r =? 0 then Err ErrNoSession
            else Ok (newSession (SSID c) (expiration p) c)
        end
  end.

Definition sess_Destroy (s : Session) (now : Time) (r : R) : R := redis_Del now (key s) r.

Definition Destroy (p : Provider) (ctx : Context) (cached : option Session) (now now' : Time) (r : R)
    : res Error unit * Context * R :=
  match Get p ctx cached now now' r with
  | Err e => (Err e, ctx, r)
  | Ok s => (Ok (), Clear carrier ctx, sess_Destroy s now' r)
  end.

Definition RenewToken (p : Provider) (ctx : Context) (now now' t1 t2 t3 : Time) (u1 u2 : string) (r : R)
    : res Error unit * Context * R :=
  let refreshToken := GetHeader refresh_header ctx in
  if decide (refreshToken = "") then (Err ErrRefreshNotFound, ctx, r)
  else
    match VerifyRefreshToken (opts p) now refreshToken with
    | Err e => (Err (ErrToken e), ctx, r)
    | Ok c =>
        if redis_Exists now' (sessionKey (SSID c)) r =? 0 then (Err ErrNoSession, ctx, r)
        else
          match GenerateTokenPair (opts p) t1 t2 u1 u2 c with
          | Err e => (Err (ErrToken e), ctx, r)
          | Ok tokenPair =>
              (Ok (), ResponseHeader refresh_header (RefreshToken tokenPair)
                        (Inject carrier (AccessToken tokenPair) ctx),
               redis_Expire t3 (sessionKey (SSID c)) (expiration p) r)
          end
    end.

(** ** The session *)

Definition sess_Set (s : Session) (k : string) (v : any) (now : Time) (r : R) : res Error unit * R :=
  match json_Marshal v with
  | None => (Err ErrMarshal, r)
  | Some d => (Ok (), redis_Expire now (key s) (sess_expiration s) (redis_HSet now (key s) k d r))
  end.

(** A text that is no JSON is returned as a string. *)
Definition sess_Get (s : Session) (k : string) (now : Time) (r : R) : res Error any :=
  match redis_HGet now (key s) k r with
  | None => Err ErrNoKey
  | Some d => match json_Unmarshal d with Some v => Ok v | None => Ok (VStr d) end
  end.

Definition sess_Del (s : Session) (k : string) (now : Time) (r : R) : R := redis_HDel now (key s) k r.

Definition sess_Refresh (s : Session) (now : Time) (r : R) : R :=
  redis_Expire now (key s) (sess_expiration s) r.

(** The fields as they are stored. *)
Definition sess_UserContext (s : Session) (now : Time) (r : R) : UserContext :=
  let field f := default "" (redis_HGet now (key s) f r) in
  mkUser (Jwt.UserId (claims s)) (field "username") (field "role") (field "tenant_id") (field "department")
    (field "email") None.

End Methods.

(** ** A store for the witnesses *)

Abbreviation Store := (gmap string (gmap string string * option Time)) (only parsing).

#[export] Instance Store_hashes : RedisHashes Store := {|
  redis_HSet now k f v r := match written now (r !! k) f v with Some e => <[k := e]> r | None => r end;
  redis_HGet now k f r := fields now (r !! k) !! f;
  redis_HDel now k f r := match r !! k with Some (m, d) => <[k := (delete f m, d)]> r | None => r end;
  redis_Del now k r := delete k r;
  redis_Exists now k r := if decide (fields now (r !! k) = ∅) then 0 else 1;
  redis_Expire now k d r :=
    if decide (fields now (r !! k) = ∅) then r else <[k := (fields now (r !! k), Some (expire_at now d))]> r
|}.

Definition quote : ascii := ascii_of_nat 34.

(** A codec that writes strings between quotes, and others as their number of
    tildes: enough of JSON for an example. *)
Fixpoint tildes (n : nat) : string := match n with O => "" | S n => String "~" (tildes n) end.

Definition any_number (z : Z) : nat := Pos.to_nat (encode z).

#[export] Instance toy_json : Json := {|
  json_Marshal v :=
    match v with
    | VStr s => Some (String quote (s +:+ String quote ""))%string
    | VAny z => Some (tildes (any_number z))
    end;
  json_Unmarshal d :=
    match d with
    | String a rest =>
        if Ascii.eqb a quote then Some (VStr (String.substring 0 (String.length rest - 1) rest))
        else VAny <$> decode (Pos.of_nat (String.length d))
    | EmptyString => None
    end
|}.

Definition sample_provider : Provider := NewProvider "key" (10 * Second) (60 * Second).

Definition sample_login : res Error Session * Context * Store :=
  NewSession (H2 := range_first_key_order) Session.sample_carrier sample_provider (request "POST" ∅ ∅ "")
    "7" ∅ (Some {["role" := VStr "admin"]}) 0 0 0 "s" "a" "b" ∅.

(** ** Lemmas *)

#[export] Instance Store_hashes_ok : RedisHashesOk Store.
Proof.
  refine (Build_RedisHashesOk Store _ (λ r k, r !! k) _ _ _ _ _ _); simpl; try done.
  - intros now k f v r k'. case_decide as E; [by rewrite E, lookup_insert_eq|by rewrite lookup_insert_ne].
  - intros now k r k'. case_decide as E; [by rewrite E, lookup_delete_eq|by rewrite lookup_delete_ne].
  - intros now k f r k'. destruct (r !! k) as [[m d]|] eqn:Er; case_decide as E; subst.
    + rewrite lookup_insert_eq. simpl. repeat case_match; rewrite ?delete_empty; done.
    + by rewrite lookup_insert_ne.
    + rewrite Er. simpl. by rewrite delete_empty.
    + done.
  - intros now k d r k' Hd. case_decide as E; case_decide as E'; subst; try done.
    + by rewrite lookup_insert_eq.
    + by rewrite lookup_insert_ne.
Defined.

Lemma substring_app s t : String.substring 0 (String.length s) (s +:+ t)%string = s.
Proof.
  induction s as [|a s IH].
  - change (String.substring 0 0 t = ""). by destruct t.
  - change (String.substring 0 (S (String.length s)) (String a (s +:+ t)%string) = String a s).
    simpl. by rewrite IH.
Qed.

Lemma length_tildes n : String.length (tildes n) = n.
Proof. induction n; simpl; congruence. Qed.

#[export] Instance toy_json_ok : @JsonOk toy_json.
Proof.
  split.
  - intros s d [= <-]. simpl. rewrite str_length_app. simpl. lia.
  - intros [s|z] d [= <-].
    + simpl. rewrite str_length_app. simpl. rewrite Nat.add_sub. by rewrite substring_app.
    + unfold json_Unmarshal, toy_json.
      destruct (any_number z) as [|n] eqn:E; [unfold any_number in E; lia|].
      cbn [tildes]. change (Ascii.eqb "~" quote) with false. cbn iota.
      change (String "~" (tildes n)) with (tildes (S n)). rewrite length_tildes, <- E.
      unfold any_number. by rewrite Pos2Nat.id, decode_encode.
Qed.

Section Lemmas.
Context {R : Type} `{RedisHashesOk R} `{JsonOk} `{JwtLib} `{RangeOrder}.

Lemma fields_written now e f v : fields now (written now e f v) = <[f := v]> (fields now e).
Proof.
  unfold written, fields. destruct e as [[m [d|]]|]; try done.
  destruct (now <? d) eqn:E; by rewrite ?E.
Qed.

(** The effect of the writes of [init]. *)
Lemma set_all now k l kvs r :
  marshal_all l = Some kvs → NoDup l.*1 →
  let r' := foldl (λ r kv, redis_HSet now k kv.1 kv.2 r) r kvs in
  (∀ f, fields now (hash r' k) !! f =
     match (list_to_map l : gmap string any) !! f with
     | Some v => json_Marshal v
     | None => fields now (hash r k) !! f
     end) ∧
  (∀ k', k' ≠ k → hash r' k' = hash r k').
Proof.
  revert kvs r. induction l as [|[f v] l IH]; intros kvs r Hm Hnd.
  { injection Hm as <-. done. }
  rewrite fmap_cons in Hnd. apply NoDup_cons in Hnd as [Hf Hnd]. unfold marshal_all in Hm. simpl in Hm.
  destruct (json_Marshal v) as [d|] eqn:Ev; simpl in Hm; [|done].
  destruct (mapM _ l) as [kvs'|] eqn:El; simpl in Hm; [|done]. injection Hm as <-. cbn [foldl fst snd].
  destruct (IH kvs' (redis_HSet now k f d r) El Hnd) as [IH1 IH2]. split.
  - intros f'. rewrite IH1, redis_HSet_ok, decide_True, fields_written by done.
    cbn [list_to_map foldr uncurry fst snd]. destruct (decide (f' = f)) as [->|Hne].
    + rewrite (not_elem_of_list_to_map_1 l f) by done. by rewrite !lookup_insert_eq.
    + by rewrite !lookup_insert_ne.
  - intros k' Hk'. by rewrite IH2, redis_HSet_ok, decide_False.
Qed.

(** A session stored at [now]: its fields and deadline. *)
Lemma init_spec s data now r r' :
  data ≠ ∅ → (∀ k v, data !! k = Some v → is_Some (json_Marshal v)) → fields now (hash r (key s)) = ∅ →
  0 < sess_expiration s → init s data now r = (Ok tt, r') →
  (∃ m, hash r' (key s) = Some (m, Some (expire_at now (sess_expiration s))) ∧ ∀ f, m !! f = data !! f ≫= json_Marshal) ∧
  ∀ k, k ≠ key s → hash r' k = hash r k.
Proof.
  intros Hne Hall Hfree Hexp. unfold init. rewrite decide_False by done.
  destruct (marshal_all (range_map data)) as [kvs|] eqn:E; [|done]. intros [= <-].
  destruct (set_all now (key s) _ _ r E (NoDup_fst_range_map data)) as [Hs Ho].
  rewrite list_to_map_range in Hs. split.
  - eexists. rewrite redis_Expire_ok by done. rewrite decide_True by done. rewrite decide_False.
    + split; [done|]. intros f. rewrite Hs. destruct (data !! f); [done|]. by rewrite Hfree.
    + intros Hemp. apply map_choose in Hne as (k & v & Hk). destruct (Hall k v Hk) as [d Hd].
      specialize (Hs k). rewrite Hemp, Hk, Hd, lookup_empty in Hs. done.
  - intros k Hk. rewrite redis_Expire_ok, decide_False by done. by apply Ho.
Qed.

End Lemmas.

(** ** Properties *)

(** What a Redis session keeps.  After a login every datum reads back as it
    was given until the deadline, the session exists until then and not after,
    and no other key changes; a value set later reads back for a whole further
    period.  But the user's details are not read back: [UserContext] hands out
    the stored JSON text, which is never the string that was stored. *)
Theorem redis_session_data {R} `{RedisHashesOk R} `{JsonOk} `{JwtLib} `{RangeOrder} carrier p ctx userId jd data
    t1 t2 t3 ssid u1 u2 (r : R) s ctx' r' :
  hash r (sessionKey ssid) = None → 0 < expiration p →
  (∀ v, is_Some (json_Marshal v)) → data !! "user_id" = None → data !! "created_at" = None →
  NewSession carrier p ctx userId jd (Some data) t1 t2 t3 ssid u1 u2 r = (Ok s, ctx', r') →
  let until := expire_at t3 (expiration p) in
  (∀ now k v, now < until → data !! k = Some v → sess_Get s k now r' = Ok v) ∧
  (∀ now, redis_Exists now (sessionKey ssid) r' = if now <? until then 1 else 0) ∧
  (∀ k, k ≠ sessionKey ssid → hash r' k = hash r k) ∧
  (∀ now now' k v, now' < expire_at now (expiration p) →
     let '(res, r'') := sess_Set s k v now r' in res = Ok tt ∧ sess_Get s k now' r'' = Ok v) ∧
  (∀ now role, now < until → data !! "role" = Some (VStr role) → Web.Role (sess_UserContext s now r') ≠ role).
Proof.
  intros Hfree Hexp Hjson Hu Hc Hnew until. unfold NewSession in Hnew.
  destruct (GenerateTokenPair _ _ _ _ _ _) as [tp|e]; [|done].
  set (c := mkClaims userId ssid "" "" "" "" jd None) in *.
  set (all := <["created_at" := VAny (t3 / Second)]> (<["user_id" := VStr userId]> (default ∅ (Some data)))) in *.
  destruct (init (newSession ssid (expiration p) c) all t3 r) as [[[]|e] r1] eqn:Ei; [|done].
  injection Hnew as <- <- <-.
  assert (fields t3 (hash r (key (newSession ssid (expiration p) c))) = ∅) as Hfree'
    by (cbn [key newSession]; by rewrite Hfree).
  destruct (init_spec _ _ _ _ _ (insert_non_empty _ _ _) (λ k v _, Hjson v) Hfree' Hexp Ei)
    as ((m & Hm & Hf) & Hother). cbn [key newSession sess_expiration] in Hm. fold until in Hm.
  assert (∀ now, fields now (hash r1 (sessionKey ssid)) = if now <? until then m else ∅) as Hfields
    by (intros now; by rewrite Hm).
  assert (∀ k v, data !! k = Some v → m !! k = json_Marshal v) as Hdata.
  { intros k v Hk. rewrite Hf. unfold all. simpl. rewrite !lookup_insert_ne by congruence. by rewrite Hk. }
  assert (m ≠ ∅) as Hmne.
  { intros ->. specialize (Hf "user_id"). rewrite lookup_empty in Hf. unfold all in Hf. simpl in Hf.
    rewrite lookup_insert_ne, lookup_insert_eq in Hf by done. simpl in Hf.
    destruct (Hjson (VStr userId)) as [d Hd]. congruence. }
  split_and!.
  - intros now k v Hlt Hk. unfold sess_Get. simpl. rewrite redis_HGet_ok, Hfields.
    replace (now <? until) with true by lia. rewrite (Hdata k v Hk). destruct (Hjson v) as [d Hd].
    by rewrite Hd, (json_back _ _ Hd).
  - intros now. rewrite redis_Exists_ok, Hfields. destruct (now <? until); [by rewrite decide_False|by rewrite decide_True].
  - exact Hother.
  - intros now now' k v Hlt. unfold sess_Set. destruct (Hjson v) as [d Hd]. rewrite Hd. split; [done|].
    unfold sess_Get. simpl. rewrite redis_HGet_ok, redis_Expire_ok, decide_True by done.
    rewrite redis_HSet_ok, (decide_True (P := sessionKey ssid = sessionKey ssid)) by done.
    rewrite fields_written, decide_False by apply insert_non_empty. simpl.
    replace (now' <? expire_at now (expiration p)) with true by lia. by rewrite lookup_insert_eq, (json_back _ _ Hd).
  - intros now role Hlt Hk. simpl. rewrite redis_HGet_ok, Hfields.
    replace (now <? until) with true by lia. rewrite (Hdata _ _ Hk). destruct (Hjson (VStr role)) as [d Hd].
    rewrite Hd. simpl. intros ->. pose proof (json_string _ _ Hd). lia.
Qed.

Lemma redis_session_data_witness :
  match sample_login with
  | (Ok s, _, r) =>
      sess_Get s "role" Second r = Ok (VStr "admin") ∧ Web.Role (sess_UserContext s Second r) ≠ "admin"
  | _ => False
  end.
Proof.
  assert (is_ok (fst (fst sample_login)) = true) as Hok by (vm_compute; reflexivity).
  destruct sample_login as [[[s|e] ctx] r] eqn:E; [|done]. unfold sample_login in E.
  unshelve epose proof (redis_session_data _ _ _ _ _ _ _ _ _ _ _ _ _ _ _ _ _ _ _ _ _ E) as (H1 & _ & _ & _ & H5).
  - reflexivity.
  - by vm_compute.
  - intros [x|z]; by eexists.
  - reflexivity.
  - reflexivity.
  - split; [apply H1|apply H5]; by vm_compute.
Defined.

(** ** What the code does not promise *)

(** The user's role as a logged-in request sees it, quotes and all. *)
Lemma user_context_has_json_text :
  match sample_login with
  | (Ok s, _, r) => Web.Role (sess_UserContext s Second r) = String quote ("admin" +:+ String quote "")%string
  | _ => False
  end.
Proof. by vm_compute. Qed.

(** Logging out deletes the hash, but a request under way that then sets a value
    creates it again, and the session's tokens are good once more. *)
Lemma set_after_destroy_revives :
  match sample_login with
  | (Ok s, ctx, r) =>
      let req := Session.answer_cookies ctx in
      let '(_, _, r1) := Destroy Session.sample_carrier sample_provider req None Second Second r in
      let '(_, r2) := sess_Set s "k" (VStr "v") (2 * Second) r1 in
      is_ok (Get Session.sample_carrier sample_provider req None (3 * Second) (3 * Second) r1) = false ∧
      is_ok (Get Session.sample_carrier sample_provider req None (3 * Second) (3 * Second) r2) = true
  | _ => False
  end.
Proof. by vm_compute. Qed.

End RedisSession.
