(* ===== verification/SessionSpec.v ===== *)
(** * What a program may rely on in a session store (src/session/types.go)

    The interface of the session providers, [SessionStore], as calls and
    replies; an abstract table of sessions with the replies it allows; the laws of a store,
    [SessionStoreOk]; and, proved from the laws alone, that every run of a store is
    one of the table, and what the table promises to a client.  A call of the
    interface is a request: it finds the session of its token, writes and reads it. *)

From S2P Require Import Prelude Jwt Web Session.

Module SessionSpec.

Import Jwt.Jwt Web.Web.
Import Session (TokenCarrier, Inject, Extract, Clear, any, VStr, VAny, refresh_header).

(** ** Calls and replies *)

(** The clock as it is read while tokens and a session are made, and the identifiers of the tokens. *)
Record Stamp := mkStamp { t1 : Time; t2 : Time; t3 : Time; u1 : string; u2 : string }.

(** A request may write one value and reads one. *)
Inductive Op :=
| Login (ctx : Context) (ssid userId : string) (jwtData : gmap string string) (data : gmap string any) (at_ : Stamp)
| Request (ctx : Context) (now now' : Time) (w : option (string * any)) (k : string)
| Logout (ctx : Context) (now now' : Time)
| Renew (ctx : Context) (now now' : Time) (at_ : Stamp)
| Tick (now : Time).

(** Whether a call succeeded and the response; a request is answered with the user and the value. *)
Inductive Reply :=
| RDone (ok : bool) (ctx : Context)
| RFound (r : option (string * option any))
| RTick.

(** ** The interface *)

(** [None] is a panic. *)
Class SessionStore (P : Type) := store_step : Op → P → option (P * Reply).

(** Until its deadline a session is there; later it may be. *)
Record Entry := mkEntry { e_user : string; e_data : gmap string any; e_until : Time }.

Abbreviation Table := (gmap string Entry) (only parsing).

(** Fields that a provider writes itself. *)
Definition reserved (k : string) : Prop := k = "user_id" ∨ k = "created_at".

(** [good]: the provider is set up as given; [present] and [dead]: the session of an identifier is at
    least as good as an entry, or gone from a time on. *)
Class SessionView (P : Type) := {
  good : P → Prop;
  present : P → string → Entry → Prop;
  dead : Time → P → string → Prop
}.

(** ** What a program may rely on: a table of sessions *)

Section Spec.
Context `{JwtLib} (carrier : TokenCarrier) (o : Options) (expiration : Duration).

(** Whose request it is, by its token or its refresh token. *)
Definition who (ctx : Context) (now : Time) : option Claims :=
  if decide (Extract carrier ctx = "") then None
  else match VerifyToken o now (Extract carrier ctx) with Ok c => Some c | Err _ => None end.

Definition who_refresh (ctx : Context) (now : Time) : option Claims :=
  if decide (GetHeader refresh_header ctx = "") then None
  else match VerifyRefreshToken o now (GetHeader refresh_header ctx) with Ok c => Some c | Err _ => None end.

(** The response with a new pair of tokens. *)
Definition issue (at_ : Stamp) (c : Claims) (ctx : Context) : option Context :=
  match GenerateTokenPair o (t1 at_) (t2 at_) (u1 at_) (u2 at_) c with
  | Ok tokens => Some (ResponseHeader refresh_header (RefreshToken tokens) (Inject carrier (AccessToken tokens) ctx))
  | Err _ => None
  end.

(** The deadline promised from a time on: Redis counts whole seconds. *)
Definition promised (t : Time) : Time := t + expiration - Second.

Definition write (w : option (string * any)) (now : Time) (e : Entry) : Entry :=
  match w with
  | Some (f, v) => mkEntry (e_user e) (<[f := v]> (e_data e)) (Z.max (e_until e) (promised now))
  | None => e
  end.

Definition renew (now : Time) (e : Entry) : Entry := mkEntry (e_user e) (e_data e) (Z.max (e_until e) (promised now)).

Definition claims_of (userId ssid : string) (jwtData : gmap string string) : Claims :=
  mkClaims userId ssid "" "" "" "" jwtData None.

(** The session of an identifier is not there, or may not be: a call that finds it so finds it so ever after. *)
Definition may_be_gone (A : Table) (i : string) (now : Time) : Prop :=
  match A !! i with Some e => e_until e ≤ now | None => True end.

Inductive spec_step (A : Table) : Op → Reply → Table → Prop :=
| SLogin ctx ssid u jd d at_ ctx' :
    issue at_ (claims_of u ssid jd) ctx = Some ctx' →
    spec_step A (Login ctx ssid u jd d at_) (RDone true ctx') (<[ssid := mkEntry u d (promised (t3 at_))]> A)
| SLoginFails ctx ssid u jd d at_ :
    issue at_ (claims_of u ssid jd) ctx = None → spec_step A (Login ctx ssid u jd d at_) (RDone false ctx) A
| SRequest ctx now now' w k c e :
    who ctx now = Some c → A !! SSID c = Some e →
    spec_step A (Request ctx now now' w k) (RFound (Some (e_user e, e_data (write w now' e) !! k))) (<[SSID c := write w now' e]> A)
| SRefuse ctx now now' w k c :
    who ctx now = Some c → may_be_gone A (SSID c) now' →
    spec_step A (Request ctx now now' w k) (RFound None) (delete (SSID c) A)
| SStranger ctx now now' w k :
    who ctx now = None → spec_step A (Request ctx now now' w k) (RFound None) A
| SLogout ctx now now' c :
    who ctx now = Some c → spec_step A (Logout ctx now now') (RDone true (Clear carrier ctx)) (delete (SSID c) A)
| SLogoutGone ctx now now' c :
    who ctx now = Some c → may_be_gone A (SSID c) now' →
    spec_step A (Logout ctx now now') (RDone false ctx) (delete (SSID c) A)
| SLogoutStranger ctx now now' :
    who ctx now = None → spec_step A (Logout ctx now now') (RDone false ctx) A
| SRenew ctx now now' at_ c e ctx' :
    who_refresh ctx now = Some c → A !! SSID c = Some e → issue at_ c ctx = Some ctx' →
    spec_step A (Renew ctx now now' at_) (RDone true ctx') (<[SSID c := renew (t3 at_) e]> A)
| SRenewLate ctx now now' at_ c e ctx' :
    who_refresh ctx now = Some c → A !! SSID c = Some e → issue at_ c ctx = Some ctx' → e_until e ≤ t3 at_ →
    spec_step A (Renew ctx now now' at_) (RDone true ctx') (delete (SSID c) A)
| SRenewGone ctx now now' at_ c :
    who_refresh ctx now = Some c → may_be_gone A (SSID c) now' →
    spec_step A (Renew ctx now now' at_) (RDone false ctx) (delete (SSID c) A)
| SRenewFails ctx now now' at_ :
    (∀ c, who_refresh ctx now = Some c → issue at_ c ctx = None) → spec_step A (Renew ctx now now' at_) (RDone false ctx) A
| STick now : spec_step A (Tick now) RTick A.

(** The replies the table allows to a sequence of calls. *)
Inductive allowed : Table → list Op → list Reply → Table → Prop :=
| allowed_nil A : allowed A [] [] A
| allowed_cons A op r A1 ops rs A2 : spec_step A op r A1 → allowed A1 ops rs A2 → allowed A (op :: ops) (r :: rs) A2.

(** *** What the calls have to be *)

(** The last reading of the clock in a call. *)
Definition op_end (op : Op) : Time :=
  match op with Login _ _ _ _ _ at_ => t3 at_ | Request _ _ now' _ _ | Logout _ _ now' => now' | Renew _ _ _ at_ => t3 at_ | Tick now => now end.

(** The clock does not go back from a call to the next, nor within a call. *)
Definition on_time (clock : Time) (op : Op) : Prop :=
  match op with
  | Login _ _ _ _ _ at_ => clock ≤ t3 at_
  | Request _ _ now' _ _ | Logout _ _ now' => clock ≤ now'
  | Renew _ _ now' at_ => clock ≤ now' ≤ t3 at_
  | Tick now => clock ≤ now
  end.

Definition plain (op : Op) : Prop :=
  match op with
  | Login _ _ _ _ d _ => d !! "user_id" = None ∧ d !! "created_at" = None
  | Request _ _ _ w k => ¬ reserved k ∧ ∀ f v, w = Some (f, v) → ¬ reserved f
  | _ => True
  end.

(** Tokens are not forged: whoever holds one for a session is its user. *)
Definition honest (owner : string → string) (op : Op) : Prop :=
  match op with
  | Login _ ssid u _ _ _ => u = owner ssid
  | Request ctx now _ _ _ => ∀ c, who ctx now = Some c → Jwt.UserId c = owner (SSID c)
  | _ => True
  end.

Definition login_of (op : Op) : option string := match op with Login _ ssid _ _ _ _ => Some ssid | _ => None end.

Fixpoint ordered (clock : Time) (ops : list Op) : Prop :=
  match ops with [] => True | op :: ops => on_time clock op ∧ ordered (op_end op) ops end.

(** *** What calls leave of a session *)

(** A call that does not end the session of [i], known to last until a time. *)
Definition keeps (i : string) (until : Time) (op : Op) : Prop :=
  match op with
  | Login _ ssid _ _ _ _ => ssid ≠ i
  | Request ctx now now' _ _ => ∀ c, who ctx now = Some c → SSID c = i → now' < until
  | Logout ctx now _ => ∀ c, who ctx now = Some c → SSID c ≠ i
  | Renew ctx now now' at_ => ∀ c, who_refresh ctx now = Some c → SSID c = i → now' < until ∧ t3 at_ < until
  | Tick _ => True
  end.

Definition ends (i : string) (op : Op) : Prop :=
  match op with Logout ctx now _ => ∃ c, who ctx now = Some c ∧ SSID c = i | _ => False end.

(** The data of the session of [i] after a call. *)
Definition written_by (i : string) (d : gmap string any) (op : Op) : gmap string any :=
  match op with
  | Request ctx now _ (Some (f, v)) _ =>
      match who ctx now with Some c => if decide (SSID c = i) then <[f := v]> d else d | None => d end
  | _ => d
  end.

Definition data_after (i : string) (ops : list Op) (d : gmap string any) : gmap string any := foldl (written_by i) d ops.

(** *** The laws of a store *)

(** Nothing is lost or revived but what [i] names. *)
Definition spares `{SessionView P} (i : string) (st st' : P) : Prop :=
  good st' ∧ ∀ j, j ≠ i → (∀ e, present st j e → present st' j e) ∧ (∀ n, dead n st j → dead n st' j).

Class SessionStoreOk (P : Type) `{SessionStore P} `{SessionView P} := {
  dead_later n n' st i : n ≤ n' → dead n st i → dead n' st i;
  ok_login ctx ssid u jd d at_ st :
    good st → plain (Login ctx ssid u jd d at_) → dead (t3 at_) st ssid →
    match issue at_ (claims_of u ssid jd) ctx with
    | Some ctx' => ∃ st', store_step (Login ctx ssid u jd d at_) st = Some (st', RDone true ctx') ∧
        present st' ssid (mkEntry u d (promised (t3 at_))) ∧ spares ssid st st'
    | None => store_step (Login ctx ssid u jd d at_) st = Some (st, RDone false ctx)
    end;
  ok_request ctx now now' w k st c e :
    good st → plain (Request ctx now now' w k) → who ctx now = Some c → Jwt.UserId c = e_user e →
    present st (SSID c) e → e_until e ≤ promised now' →
    ∃ st' r, store_step (Request ctx now now' w k) st = Some (st', RFound r) ∧ spares (SSID c) st st' ∧
      (r = Some (e_user e, e_data (write w now' e) !! k) ∧ present st' (SSID c) (write w now' e) ∨
       r = None ∧ e_until e ≤ now' ∧ dead now' st' (SSID c));
  ok_request_gone ctx now now' w k st c :
    good st → who ctx now = Some c → dead now' st (SSID c) →
    ∃ st', store_step (Request ctx now now' w k) st = Some (st', RFound None) ∧ spares (SSID c) st st' ∧ dead now' st' (SSID c);
  ok_request_stranger ctx now now' w k st :
    good st → who ctx now = None → store_step (Request ctx now now' w k) st = Some (st, RFound None);
  ok_logout ctx now now' st c :
    good st → who ctx now = Some c →
    ∃ st' b, store_step (Logout ctx now now') st = Some (st', RDone b (if b : bool then Clear carrier ctx else ctx)) ∧
      spares (SSID c) st st' ∧ dead now' st' (SSID c) ∧ (b = true ∨ ∀ e, present st (SSID c) e → e_until e ≤ now');
  ok_logout_stranger ctx now now' st :
    good st → who ctx now = None → store_step (Logout ctx now now') st = Some (st, RDone false ctx);
  ok_renew ctx now now' at_ st c e :
    good st → who_refresh ctx now = Some c → present st (SSID c) e → e_until e ≤ promised (t3 at_) → now' ≤ t3 at_ →
    (∃ ctx' st', issue at_ c ctx = Some ctx' ∧ store_step (Renew ctx now now' at_) st = Some (st', RDone true ctx') ∧ spares (SSID c) st st' ∧
       (present st' (SSID c) (renew (t3 at_) e) ∨ e_until e ≤ t3 at_ ∧ dead (t3 at_) st' (SSID c))) ∨
    (issue at_ c ctx = None ∧ store_step (Renew ctx now now' at_) st = Some (st, RDone false ctx)) ∨
    (store_step (Renew ctx now now' at_) st = Some (st, RDone false ctx) ∧ e_until e ≤ now' ∧ dead now' st (SSID c));
  ok_renew_gone ctx now now' at_ st c :
    good st → who_refresh ctx now = Some c → dead now' st (SSID c) →
    store_step (Renew ctx now now' at_) st = Some (st, RDone false ctx);
  ok_renew_stranger ctx now now' at_ st :
    good st → who_refresh ctx now = None → store_step (Renew ctx now now' at_) st = Some (st, RDone false ctx);
  ok_tick now st :
    good st →
    ∃ st', store_step (Tick now) st = Some (st', RTick) ∧ good st' ∧
      ∀ i, (∀ e, present st i e → present st' i e ∨ e_until e ≤ now ∧ dead now st' i) ∧ (∀ n, dead n st i → dead n st' i)
}.

(** A store and a table of sessions at a time. *)
Definition related `{SessionView P} (owner : string → string) (clock : Time) (st : P) (A : Table) : Prop :=
  good st ∧ ∀ i, match A !! i with
    | Some e => e_until e ≤ promised clock ∧ e_user e = owner i ∧ (present st i e ∨ dead clock st i ∧ e_until e ≤ clock)
    | None => dead clock st i
    end.

(** A store in which nobody is logged in. *)
Definition fresh `{SessionView P} (st : P) : Prop := good st ∧ ∀ i n, dead n st i.

(** One call: it does not panic, the table allows its reply, and the two stay together; only a login adds to the table. *)
Definition simulated `{SessionStore P} `{SessionView P} (owner : string → string) (clock : Time) (op : Op) (st : P) (A : Table) : Prop :=
  ∃ st' r A', store_step op st = Some (st', r) ∧ spec_step A op r A' ∧ related owner (op_end op) st' A' ∧
    ∀ i, login_of op ≠ Some i → A !! i = None → A' !! i = None.

(** ** A store that keeps the laws is a table of sessions *)

Section Refines.
Context {P : Type} `{SessionStoreOk P} (owner : string → string).
Implicit Types (st : P) (A : Table).

Lemma promised_mono t t' : t ≤ t' → promised t ≤ promised t'.
Proof using. unfold promised. lia. Qed.

Lemma related_later clock clock' st A : clock ≤ clock' → related owner clock st A → related owner clock' st A.
Proof using H2.
  intros Hle [Hg Hr]. split; [done|]. intros i. specialize (Hr i). destruct (A !! i) as [e|]; [|by eapply dead_later].
  destruct Hr as (Hu & Ho & Hr). split_and!; [etrans; [done|by apply promised_mono]|done|].
  destruct Hr as [Hr|[Hr Hc]]; [by left|right]. split; [by eapply dead_later|lia].
Qed.

Lemma related_insert clock st st' A i e :
  related owner clock st A → spares i st st' → e_until e ≤ promised clock → e_user e = owner i → present st' i e →
  related owner clock st' (<[i := e]> A).
Proof using.
  intros [_ Hr] [Hg Hs] Hu Ho Hp. split; [done|]. intros j. destruct (decide (j = i)) as [->|Hj].
  { rewrite lookup_insert_eq. auto. }
  rewrite lookup_insert_ne by done. specialize (Hr j). destruct (Hs j Hj) as [Hs1 Hs2]. destruct (A !! j); naive_solver.
Qed.

Lemma related_delete clock st st' A i :
  related owner clock st A → spares i st st' → dead clock st' i → related owner clock st' (delete i A).
Proof using.
  intros [_ Hr] [Hg Hs] Hd. split; [done|]. intros j. destruct (decide (j = i)) as [->|Hj].
  { by rewrite lookup_delete_eq. }
  rewrite lookup_delete_ne by done. specialize (Hr j). destruct (Hs j Hj) as [Hs1 Hs2]. destruct (A !! j); naive_solver.
Qed.

(** A session is gone, and the table allows it to be, or there as the table says. *)
Lemma related_cases clock st A i :
  related owner clock st A →
  dead clock st i ∧ may_be_gone A i clock ∨
  ∃ e, A !! i = Some e ∧ present st i e ∧ e_until e ≤ promised clock ∧ e_user e = owner i.
Proof using. intros [_ Hr]. specialize (Hr i). unfold may_be_gone. destruct (A !! i) as [e|]; naive_solver. Qed.

Lemma request_simulated clock ctx now now' w k st A :
  related owner clock st A → clock ≤ now' → plain (Request ctx now now' w k) → honest owner (Request ctx now now' w k) →
  simulated owner clock (Request ctx now now' w k) st A.
Proof using H2.
  intros Hr Ht Hp Hh. apply (related_later clock now' st A Ht) in Hr. pose proof Hr as [Hg _]. unfold simulated. cbn [op_end].
  destruct (who ctx now) as [c|] eqn:Ew; cycle 1.
  { exists st, (RFound None), A. split_and!; [by apply ok_request_stranger|by constructor|done|done]. }
  destruct (related_cases now' st A (SSID c) Hr) as [[Hd Hgone]|(e & HA & Hpr & Hu & Ho)].
  - destruct (ok_request_gone ctx now now' w k st c Hg Ew Hd) as (st' & Hs & Hsp & Hd').
    exists st', (RFound None), (delete (SSID c) A). split_and!; [done|by eapply SRefuse|by eapply related_delete|].
    intros i _ Hi. by apply lookup_delete_None; right.
  - assert (Jwt.UserId c = e_user e) as Huser by (rewrite Ho; by apply Hh).
    destruct (ok_request ctx now now' w k st c e Hg Hp Ew Huser Hpr Hu) as (st' & r & Hs & Hsp & [[-> Hpr']|(-> & Hle & Hd)]).
    + eexists st', _, (<[SSID c := write w now' e]> A). split_and!; [done|by constructor| |].
      * eapply related_insert; [done..| | |done]; destruct w as [[f v]|]; cbn; [lia|done|done|done].
      * intros i _ Hi. rewrite lookup_insert_ne by congruence. done.
    + exists st', (RFound None), (delete (SSID c) A). split_and!; [done| |by eapply related_delete|].
      * eapply SRefuse; [done|]. unfold may_be_gone. by rewrite HA.
      * intros i _ Hi. by apply lookup_delete_None; right.
Qed.

Lemma logout_simulated clock ctx now now' st A :
  related owner clock st A → clock ≤ now' → simulated owner clock (Logout ctx now now') st A.
Proof using H2.
  intros Hr Ht. apply (related_later clock now' st A Ht) in Hr. pose proof Hr as [Hg _]. unfold simulated. cbn [op_end].
  destruct (who ctx now) as [c|] eqn:Ew; cycle 1.
  { exists st, (RDone false ctx), A. split_and!; [by apply ok_logout_stranger|by constructor|done|done]. }
  destruct (ok_logout ctx now now' st c Hg Ew) as (st' & b & Hs & Hsp & Hd & Hb).
  eexists st', _, (delete (SSID c) A). split_and!; [done| |by eapply related_delete|intros i _ Hi; by apply lookup_delete_None; right].
  destruct b; [by constructor|]. destruct Hb as [Hb|Hb]; [done|]. eapply SLogoutGone; [done|].
  destruct (related_cases now' st A (SSID c) Hr) as [[_ Hgone]|(e & HA & Hpr & _)]; [done|]. unfold may_be_gone. rewrite HA. by apply Hb.
Qed.

Lemma renew_simulated clock ctx now now' at_ st A :
  related owner clock st A → clock ≤ now' ≤ t3 at_ → simulated owner clock (Renew ctx now now' at_) st A.
Proof using H2.
  intros Hr [Ht Ht3]. apply (related_later clock now' st A Ht) in Hr. pose proof Hr as [Hg _]. unfold simulated. cbn [op_end].
  assert (related owner (t3 at_) st A) as Hr3 by by eapply related_later.
  destruct (who_refresh ctx now) as [c|] eqn:Ew; cycle 1.
  { exists st, (RDone false ctx), A. split_and!; [by apply ok_renew_stranger|apply SRenewFails; naive_solver|done|done]. }
  assert (∀ i, A !! i = None → delete (SSID c) A !! i = None) as Hdel by (intros i Hi; by apply lookup_delete_None; right).
  assert (spares (SSID c) st st) as Hself by done.
  assert (store_step (Renew ctx now now' at_) st = Some (st, RDone false ctx) → dead now' st (SSID c) → may_be_gone A (SSID c) now' →
    ∃ st' r A', store_step (Renew ctx now now' at_) st = Some (st', r) ∧ spec_step A (Renew ctx now now' at_) r A' ∧ related owner (t3 at_) st' A' ∧
    ∀ i, login_of (Renew ctx now now' at_) ≠ Some i → A !! i = None → A' !! i = None) as Hgone.
  { intros Hs Hd Hm. exists st, (RDone false ctx), (delete (SSID c) A). split_and!; [done|by eapply SRenewGone| |auto].
    eapply related_delete; [done..|]. by eapply dead_later. }
  destruct (related_cases now' st A (SSID c) Hr) as [[Hd Hm]|(e & HA & Hpr & Hu & Ho)].
  { apply Hgone; [by eapply ok_renew_gone|done|done]. }
  assert (e_until e ≤ promised (t3 at_)) as Hu3 by (etrans; [done|by apply promised_mono]).
  destruct (ok_renew ctx now now' at_ st c e Hg Ew Hpr Hu3 Ht3)
    as [(ctx' & st' & Hi & Hs & Hsp & [Hp'|[Hle Hd]])|[[Hi Hs]|(Hs & Hle & Hd)]].
  - exists st', (RDone true ctx'), (<[SSID c := renew (t3 at_) e]> A). split_and!; [done|by econstructor| |].
    + eapply related_insert; [done..| |done|done]. cbn. lia.
    + intros i _ Hn. rewrite lookup_insert_ne by congruence. done.
  - exists st', (RDone true ctx'), (delete (SSID c) A). split_and!; [done|by eapply SRenewLate|by eapply related_delete|auto].
  - exists st, (RDone false ctx), A. split_and!; [done|apply SRenewFails; naive_solver|done|done].
  - apply Hgone; [done..|]. unfold may_be_gone. by rewrite HA.
Qed.

Lemma login_simulated clock ctx ssid u jd d at_ st A :
  related owner clock st A → clock ≤ t3 at_ → plain (Login ctx ssid u jd d at_) → u = owner ssid → A !! ssid = None →
  simulated owner clock (Login ctx ssid u jd d at_) st A.
Proof using H2.
  intros Hr Ht Hp Ho HA. apply (related_later clock (t3 at_) st A Ht) in Hr. pose proof Hr as [Hg Hall]. unfold simulated. cbn [op_end].
  pose proof (Hall ssid) as Hd. rewrite HA in Hd. pose proof (ok_login ctx ssid u jd d at_ st Hg Hp Hd) as Hlogin.
  destruct (issue at_ (claims_of u ssid jd) ctx) as [ctx'|] eqn:Ei.
  - destruct Hlogin as (st' & Hs & Hpr & Hsp). eexists st', _, _. split_and!; [done|by constructor| |].
    + eapply related_insert; [done|done| |done|done]. done.
    + intros i Hi Hn. rewrite lookup_insert_ne; [done|]. intros ->. by apply Hi.
  - exists st, (RDone false ctx), A. split_and!; [done|by constructor|done|done].
Qed.

Lemma tick_simulated clock now st A : related owner clock st A → clock ≤ now → simulated owner clock (Tick now) st A.
Proof using H2.
  intros Hr Ht. apply (related_later clock now st A Ht) in Hr. pose proof Hr as [Hg Hall].
  destruct (ok_tick now st Hg) as (st' & Hs & Hg' & Hk). exists st', RTick, A. split_and!; [done|by constructor| |done].
  split; [done|]. intros i. specialize (Hall i). destruct (Hk i) as [Hk1 Hk2]. destruct (A !! i) as [e|]; naive_solver.
Qed.

(** Runs. *)
Lemma run_simulated ops : ∀ clock st A,
  related owner clock st A → ordered clock ops → Forall plain ops → Forall (honest owner) ops → NoDup (omap login_of ops) →
  (∀ i, i ∈ omap login_of ops → A !! i = None) →
  ∃ st' rs A', run_steps store_step ops st = Some (st', rs) ∧ allowed A ops rs A'.
Proof using H2.
  induction ops as [|op ops IH]; intros clock st A Hr Ho Hp Hh Hnd Hfree.
  { exists st, [], A. split; [done|constructor]. }
  destruct Ho as [Ht Ho]. apply Forall_cons in Hp as [Hp Hps]. apply Forall_cons in Hh as [Hh Hhs].
  assert (simulated owner clock op st A) as (st1 & r & A1 & Hs & Hspec & Hr1 & Hnew).
  { destruct op; cbn [on_time] in Ht.
    - apply login_simulated; try done. apply Hfree. cbn. by left.
    - by apply request_simulated.
    - by apply logout_simulated.
    - by apply renew_simulated.
    - by apply tick_simulated. }
  assert (NoDup (omap login_of ops) ∧ ∀ i, i ∈ omap login_of ops → A1 !! i = None) as [Hnd1 Hfree1].
  { cbn in Hnd, Hfree. destruct (login_of op) as [i0|] eqn:El.
    - apply NoDup_cons in Hnd as [Hni Hnd]. split; [done|]. intros i Hi. apply Hnew; [congruence|]. apply Hfree. by right.
    - split; [done|]. intros i Hi. apply Hnew; [done|]. by apply Hfree. }
  destruct (IH _ _ _ Hr1 Ho Hps Hhs Hnd1 Hfree1) as (st' & rs & A' & Hrun & Hal).
  exists st', (r :: rs), A'. split; [cbn; rewrite Hs; cbn; by rewrite Hrun|by econstructor].
Qed.

End Refines.

(** ** What the table promises *)

Lemma allowed_app ops1 ops2 : ∀ A rs A2,
  allowed A (ops1 ++ ops2) rs A2 → ∃ rs1 rs2 A1, rs = rs1 ++ rs2 ∧ length rs1 = length ops1 ∧ allowed A ops1 rs1 A1 ∧ allowed A1 ops2 rs2 A2.
Proof using.
  induction ops1 as [|op ops1 IH]; intros A rs A2 Hal.
  { exists [], rs, A. split_and!; [done|done|constructor|done]. }
  inversion Hal as [|? ? r A1 ? rs' ? Hs Hal']; subst. destruct (IH _ _ _ Hal') as (rs1 & rs2 & A3 & -> & Hl & H1 & H2).
  exists (r :: rs1), rs2, A3. split_and!; [done|cbn; lia|by econstructor|done].
Qed.

(** One call on the session of [i]. *)
Lemma spec_step_keeps A op r A' i e until :
  spec_step A op r A' → A !! i = Some e → until ≤ e_until e → keeps i until op →
  ∃ e', A' !! i = Some e' ∧ e_user e' = e_user e ∧ e_until e ≤ e_until e' ∧ e_data e' = written_by i (e_data e) op.
Proof using.
  assert (∀ j now, j = i → A !! i = Some e → until ≤ e_until e → now < until → may_be_gone A j now → False) as Hno.
  { intros j now -> HA Hu Hlt Hm. unfold may_be_gone in Hm. rewrite HA in Hm. lia. }
  assert (∀ (A1 : gmap string Entry) d, A1 !! i = Some e → d = e_data e → ∃ e', A1 !! i = Some e' ∧ e_user e' = e_user e ∧ e_until e ≤ e_until e' ∧ e_data e' = d) as Hsame.
  { intros A1 d HA1 ->. exists e. split_and!; try done; lia. }
  intros Hs HA Hu Hk. destruct Hs as [| |? ? ? w ? c e0 Hw HA0|? ? ? w ? c Hw Hm|? ? ? w ? Hw|? ? ? c Hw|? ? ? c Hw Hm| |? ? ? ? c e0 ? Hw HA0|? ? ? ? c e0 ? Hw HA0 Hi Hle|? ? ? ? c Hw Hm| |];
    cbn [keeps written_by] in *; try by apply Hsame.
  - apply Hsame; [by rewrite lookup_insert_ne|done].
  - rewrite Hw. destruct (decide (SSID c = i)) as [<-|Hne].
    + rewrite lookup_insert_eq. assert (e0 = e) as -> by congruence. eexists. split; [done|]. destruct w as [[f v]|]; cbn; split_and!; try done; lia.
    + apply Hsame; [by rewrite lookup_insert_ne|by destruct w as [[f v]|]].
  - rewrite Hw. destruct (decide (SSID c = i)) as [Heq|Hne]; [exfalso; by eapply Hno; [..|by apply (Hk c)|]|].
    apply Hsame; [by rewrite lookup_delete_ne|by destruct w as [[f v]|]].
  - apply Hsame; [done|]. rewrite Hw. by destruct w as [[f v]|].
  - apply Hsame; [|done]. rewrite lookup_delete_ne; [done|]. by apply Hk.
  - apply Hsame; [|done]. rewrite lookup_delete_ne; [done|]. by apply Hk.
  - destruct (decide (SSID c = i)) as [<-|Hne]; [|apply Hsame; [by rewrite lookup_insert_ne|done]].
    rewrite lookup_insert_eq. assert (e0 = e) as -> by congruence. eexists. split; [done|]. cbn. split_and!; [done|lia|done].
  - destruct (decide (SSID c = i)) as [<-|Hne]; [|apply Hsame; [by rewrite lookup_delete_ne|done]].
    assert (e0 = e) as -> by congruence. destruct (Hk c Hw eq_refl). lia.
  - destruct (decide (SSID c = i)) as [Heq|Hne]; [destruct (Hk c Hw Heq); exfalso; by apply (Hno (SSID c) now')|].
    apply Hsame; [by rewrite lookup_delete_ne|done].
Qed.

(** The life of a session in the table: it stays with what is written to it, and once over it stays over. *)
Lemma allowed_keeps ops : ∀ A rs A' i e until,
  allowed A ops rs A' → A !! i = Some e → until ≤ e_until e → Forall (keeps i until) ops →
  ∃ e', A' !! i = Some e' ∧ e_user e' = e_user e ∧ e_until e ≤ e_until e' ∧ e_data e' = data_after i ops (e_data e).
Proof using.
  induction ops as [|op ops IH]; intros A rs A' i e until Hal HA Hu Hk.
  { inversion Hal; subst. exists e. split_and!; try done; lia. }
  inversion Hal as [|? ? r A1 ? rs' ? Hs Hal']; subst. apply Forall_cons in Hk as [Hk Hks].
  destruct (spec_step_keeps _ _ _ _ _ _ _ Hs HA Hu Hk) as (e1 & HA1 & Hu1 & Hle & Hd).
  destruct (IH _ _ _ _ e1 until Hal' HA1) as (e' & HA' & Hu' & Hle' & Hd'); [lia|done|].
  exists e'. split_and!; [done|congruence|lia|by rewrite Hd', Hd].
Qed.

Lemma spec_step_gone A op r A' i : spec_step A op r A' → A !! i = None → login_of op ≠ Some i → A' !! i = None.
Proof using.
  intros Hs HA Hl. destruct Hs; try done; try (by apply lookup_delete_None; right); rewrite lookup_insert_ne; try done; try congruence.
  cbn in Hl. congruence.
Qed.

Lemma allowed_gone ops : ∀ A rs A' i,
  allowed A ops rs A' → i ∉ omap login_of ops → A !! i = None ∨ Exists (ends i) ops → A' !! i = None.
Proof using.
  induction ops as [|op ops IH]; intros A rs A' i Hal Hni Hor.
  { inversion Hal; subst. destruct Hor as [|Hor]; [done|]. by apply Exists_nil in Hor. }
  inversion Hal as [|? ? r A1 ? rs' ? Hs Hal']; subst.
  assert (login_of op ≠ Some i ∧ i ∉ omap login_of ops) as [Hl Hni'].
  { cbn in Hni. destruct (login_of op) as [j|]; [|done]. apply not_elem_of_cons in Hni as [? ?]. split; [congruence|done]. }
  apply (IH _ _ _ _ Hal' Hni'). destruct Hor as [HA|Hor]; [left; by eapply spec_step_gone|].
  apply Exists_cons in Hor as [Hend|Hor]; [left|by right]. destruct op; try done. destruct Hend as (c & Hw & <-).
  inversion Hs; subst; simplify_eq; by rewrite lookup_delete_eq.
Qed.

End Spec.
(** ** A client of a store *)

(** The token a client was given at the login says whose it is while it lives. *)
Lemma issued_token `{JwtLibOk} carrier `{Session.CarrierOk carrier} o at_ c ctx ctx1 req now :
  (∀ alg key c s, SignedString alg key c = Ok s → Session.good_token s) →
  issue carrier o at_ c ctx = Some ctx1 → Extract carrier req = Extract carrier (Session.answer ctx1) →
  NewNumericDate (t1 at_) ≤ now < NewNumericDate (t1 at_ + AccessExpire o) →
  ∃ c', who carrier o req now = Some c' ∧ SSID c' = SSID c ∧ Jwt.UserId c' = Jwt.UserId c.
Proof.
  intros Hgood Hi He Ht. unfold issue in Hi. destruct (GenerateTokenPair o _ _ _ _ c) as [tp|] eqn:Eg; [|done]. injection Hi as <-.
  destruct (Session.GenerateTokenPair_inv _ _ _ _ _ _ _ Eg) as [Ha _].
  assert (Session.good_token (AccessToken tp)) as Hg.
  { unfold generateToken in Ha. case_match eqn:E; [|done]. injection Ha as <-. by eapply Hgood. }
  rewrite Session.extract_inject in He by done. exists (stamped o (t1 at_) (u1 at_) c (AccessExpire o)). split; [|done].
  unfold who. rewrite He, decide_False by by apply Session.good_nonempty. unfold VerifyToken.
  pose proof (generate_verify _ _ _ _ _ _ now Ha) as Hv. rewrite (proj2 (andb_true_iff _ _)) in Hv by lia. by rewrite Hv.
Qed.

End SessionSpec.
