(* ===== verification/SessionStores.v ===== *)
(** * One promise for both session stores (src/session/memory, src/session/redis)

    The providers of Session and RedisSession as instances of the interface of SessionSpec,
    both of which keep its laws: what follows from these holds for either. *)

From S2P Require Import Prelude Jwt Web Session RedisSession SessionSpec.

Module SessionStores.

Import Jwt.Jwt Web.Web SessionSpec.SessionSpec.
Import Session (TokenCarrier, Inject, Extract, Clear, any, VStr, VAny, refresh_header).

(** ** The two stores *)

Section Memory.
Context `{JwtLib} `{RangeOrder} (carrier : TokenCarrier).

(** A request goes from [Get] on to the methods of the session it found; a write to a nil map panics. *)
Definition memory_request (ctx : Context) (now now' : Time) (w : option (string * any)) (k : string) (p : Session.Provider)
    : option (Session.Provider * Reply) :=
  match Session.Get carrier ctx now now' p with
  | (Err _, p) => Some (p, RFound None)
  | (Ok l, p) =>
      p ← (match w with Some (f, v) => snd <$> Session.sess_Set l f v now' p | None => Some p end);
      u ← Session.sess_UserContext l p;
      Some (p, RFound (Some (Web.UserId u, match Session.sess_Get l k now' p with Ok v => Some v | Err _ => None end)))
  end.

#[export] Instance memory_store : SessionStore Session.Provider := λ op p,
  match op with
  | Login ctx ssid userId jd d at_ =>
      let '(r, ctx, p) := Session.NewSession carrier ctx userId jd (Some d) (t1 at_) (t2 at_) (t3 at_) ssid (u1 at_) (u2 at_) p in
      Some (p, RDone (is_ok r) ctx)
  | Request ctx now now' w k => memory_request ctx now now' w k p
  | Logout ctx now now' => let '(r, ctx, p) := Session.Destroy carrier ctx now p in Some (p, RDone (is_ok r) ctx)
  | Renew ctx now now' at_ =>
      match Session.Renew_check ctx now now' p with
      | Err _ => Some (p, RDone false ctx)
      | Ok (l, c) =>
          let '(r, ctx, p) := Session.Renew_finish carrier ctx l c (t1 at_) (t2 at_) (t3 at_) (u1 at_) (u2 at_) p in
          Some (p, RDone (is_ok r) ctx)
      end
  | Tick now => Some (Session.delete_expired now (Session.expiredIDs now p) p, RTick)
  end.

#[export] Instance memory_view (o : Options) (expiration : Duration) : SessionView Session.Provider := {
  good p := Session.opts p = o ∧ Session.expiration p = expiration;
  present p i e := ∃ l s, Session.sessions p !! i = Some l ∧ Session.heap p !! l = Some s ∧ Session.id s = i ∧
    Jwt.UserId (Session.claims s) = e_user e ∧ Session.data s = Some (e_data e) ∧ e_until e ≤ Session.expireTime s;
  dead n p i := Session.sessions p !! i = None ∨
    ∃ l s, Session.sessions p !! i = Some l ∧ Session.heap p !! l = Some s ∧ Session.id s = i ∧ Session.expireTime s < n
}.

End Memory.

Section Redis.
Context {R : Type} `{RedisSession.RedisHashes R} `{RedisSession.Json} `{JwtLib} `{RangeOrder} (carrier : TokenCarrier).
Context (p : RedisSession.Provider).

Definition redis_request (ctx : Context) (now now' : Time) (w : option (string * any)) (k : string) (r : R) : option (R * Reply) :=
  match RedisSession.Get carrier p ctx None now now' r with
  | Err _ => Some (r, RFound None)
  | Ok s =>
      let r := match w with Some (f, v) => (RedisSession.sess_Set s f v now' r).2 | None => r end in
      Some (r, RFound (Some (Web.UserId (RedisSession.sess_UserContext s now' r),
        match RedisSession.sess_Get s k now' r with Ok v => Some v | Err _ => None end)))
  end.

#[export] Instance redis_store : SessionStore R := λ op r,
  match op with
  | Login ctx ssid userId jd d at_ =>
      let '(res, ctx, r) := RedisSession.NewSession carrier p ctx userId jd (Some d) (t1 at_) (t2 at_) (t3 at_) ssid (u1 at_) (u2 at_) r in
      Some (r, RDone (is_ok res) ctx)
  | Request ctx now now' w k => redis_request ctx now now' w k r
  | Logout ctx now now' => let '(res, ctx, r) := RedisSession.Destroy carrier p ctx None now now' r in Some (r, RDone (is_ok res) ctx)
  | Renew ctx now now' at_ =>
      let '(res, ctx, r) := RedisSession.RenewToken carrier p ctx now now' (t1 at_) (t2 at_) (t3 at_) (u1 at_) (u2 at_) r in
      Some (r, RDone (is_ok res) ctx)
  | Tick _ => Some (r, RTick)
  end.

#[export] Instance redis_view `{!RedisSession.RedisHashesOk R} : SessionView R := {
  good _ := True;
  present r i e := ∃ m d, RedisSession.hash r (RedisSession.sessionKey i) = Some (m, Some d) ∧ m ≠ ∅ ∧ e_until e ≤ d ∧
    ∀ k, ¬ reserved k → m !! k = e_data e !! k ≫= RedisSession.json_Marshal;
  dead n r i := ∀ n', n ≤ n' → RedisSession.fields n' (RedisSession.hash r (RedisSession.sessionKey i)) = ∅
}.

End Redis.

(** *** For the witnesses: a login at second 0, and a request with its token at second 5 *)

Definition sample_stamp : Stamp := mkStamp 0 0 0 "a" "b".

Definition sample_login : Op := Login (request "POST" ∅ ∅ "") "s" "7" ∅ (<["theme" := VStr "dark"]> ∅) sample_stamp.

Definition sample_options : Options := NewOptions "key" (10 * Second) (60 * Second).

Definition sample_answer : Context :=
  default (request "" ∅ ∅ "") (issue Session.sample_carrier sample_options sample_stamp (claims_of "7" "s" ∅) (request "POST" ∅ ∅ "")).

Definition sample_request : Op := Request (Session.answer_cookies sample_answer) (5 * Second) (5 * Second) (Some ("lang", VStr "en")) "theme".

(** ** The memory store keeps the laws *)

Section MemoryOk.
Context `{JwtLib} `{RangeOrder} (carrier : TokenCarrier) (o : Options) (expiration : Duration).
#[local] Abbreviation step := (memory_store carrier).
Implicit Types p : Session.Provider.
#[local] Abbreviation good := (@good Session.Provider (memory_view o expiration)).
#[local] Abbreviation present := (@present Session.Provider (memory_view o expiration)).
#[local] Abbreviation dead := (@dead Session.Provider (memory_view o expiration)).
#[local] Abbreviation spares := (@spares Session.Provider (memory_view o expiration)).

Lemma who_authenticate p ctx now : Session.opts p = o →
  match who carrier o ctx now with
  | Some c => Session.authenticate carrier ctx now p = Ok c
  | None => ∃ e, Session.authenticate carrier ctx now p = Err e
  end.
Proof using.
  intros <-. unfold who, Session.authenticate. case_decide; [by eexists|]. destruct (VerifyToken _ _ _); [done|by eexists].
Qed.

(** Calls that only touch the sessions of [i]. *)
Lemma memory_spares i p p' :
  good p → Session.opts p' = Session.opts p → Session.expiration p' = Session.expiration p →
  (∀ j, j ≠ i → Session.sessions p' !! j = Session.sessions p !! j) →
  (∀ l s, Session.heap p !! l = Some s → Session.id s ≠ i → Session.heap p' !! l = Some s) → spares i p p'.
Proof using.
  intros [Ho Hx] Ho' Hx' Hs Hh. split; [split; [by rewrite Ho'|by rewrite Hx']|]. intros j Hj. split.
  - intros e (l & s & Hl & Hs' & Hi & Hr). exists l, s. rewrite Hs by done. split; [done|]. split; [apply Hh; [done|congruence]|done].
  - intros n [Hd|(l & s & Hl & Hs' & Hi & Hr)]; [left; by rewrite Hs|right]. exists l, s. rewrite Hs by done.
    split; [done|]. split; [apply Hh; [done|congruence]|done].
Qed.

Lemma spares_refl i p : good p → spares i p p.
Proof using. intros Hg. split; [done|]. by intros j Hj. Qed.

Lemma set_expire_lookup l t p l' :
  Session.heap (Session.set_expire l t p) !! l' =
    if decide (l' = l) then (λ s, Session.mkSession (Session.id s) (Session.claims s) (Session.data s) t) <$> Session.heap p !! l
    else Session.heap p !! l'.
Proof using. cbn. case_decide as E; [rewrite E; apply list_lookup_alter_eq|by apply list_lookup_alter_ne]. Qed.

Lemma set_expire_spares i l t p s :
  good p → Session.heap p !! l = Some s → Session.id s = i → spares i p (Session.set_expire l t p).
Proof using.
  intros Hg Hl Hi. apply memory_spares; try done. intros l' s' Hl' Hne. rewrite set_expire_lookup. case_decide; [subst; congruence|done].
Qed.

(** [Get] of a session that is gone. *)
Lemma touch_gone i l now p :
  good p → dead now p i → Session.sessions p !! i = Some l →
  ∃ e p', Session.Get_touch i l now p = (Err e, p') ∧ spares i p p' ∧ dead now p' i.
Proof using.
  intros Hg [Hd|(l' & s & Hl' & Hs & Hi & Hlt)] Hl; [congruence|]. assert (l' = l) as -> by congruence.
  unfold Session.Get_touch. rewrite Hs. replace (Session.expireTime s <? now) with true by lia.
  eexists _, _. split; [done|]. split.
  - apply memory_spares; try done. intros j Hj. cbn. by rewrite lookup_delete_ne.
  - left. cbn. by rewrite lookup_delete_eq.
Qed.

Lemma memory_request_gone ctx now now' w k p c :
  good p → who carrier o ctx now = Some c → dead now' p (SSID c) →
  ∃ p', memory_request carrier ctx now now' w k p = Some (p', RFound None) ∧ spares (SSID c) p p' ∧ dead now' p' (SSID c).
Proof using.
  intros Hg Hw Hd. pose proof (who_authenticate p ctx now (proj1 Hg)) as Ha. rewrite Hw in Ha.
  unfold memory_request, Session.Get, Session.Get_find. rewrite Ha. cbn. destruct (Session.sessions p !! SSID c) as [l|] eqn:El.
  - destruct (touch_gone (SSID c) l now' p Hg Hd El) as (e & p' & -> & Hsp & Hd'). by exists p'.
  - exists p. split_and!; [done|by apply spares_refl|by left].
Qed.

(** A write to a session that was just found. *)
Lemma set_found l w now' p1 s e :
  0 ≤ expiration → good p1 → Session.heap p1 !! l = Some s → Session.data s = Some (e_data e) → Session.expireTime s = now' + expiration →
  ∃ p2, match w with Some (f, v) => snd <$> Session.sess_Set l f v now' p1 | None => Some p1 end = Some p2 ∧
    Session.heap p2 !! l = Some (Session.mkSession (Session.id s) (Session.claims s) (Some (e_data (write expiration w now' e))) (now' + expiration)) ∧
    Session.sessions p2 = Session.sessions p1 ∧ spares (Session.id s) p1 p2.
Proof using.
  intros Hx Hg Hl Hd Ht. destruct w as [[f v]|]; cbn [write e_data].
  - unfold Session.sess_Set, Session.live_session. rewrite Hl, Ht. replace (now' + expiration <? now') with false by lia. rewrite Hd. cbn.
    eexists. split; [reflexivity|]. cbn. rewrite list_lookup_insert_eq by (by eapply lookup_lt_Some). rewrite Ht. split; [done|]. split; [done|].
    apply memory_spares; try done. intros l' s' Hl' Hne. cbn. rewrite list_lookup_insert_ne; [done|]. intros ->. congruence.
  - exists p1. split; [done|]. rewrite <- Hd, <- Ht. destruct s. split; [done|]. split; [done|]. by apply spares_refl.
Qed.

Lemma spares_trans i p p1 p2 : spares i p p1 → spares i p1 p2 → spares i p p2.
Proof using. intros [_ K1] [Hg K2]. split; [done|]. intros j Hj. destruct (K1 j Hj), (K2 j Hj). split; auto. Qed.

Lemma memory_request_found ctx now now' w k p c e :
  0 ≤ expiration → good p → who carrier o ctx now = Some c → present p (SSID c) e → e_until e ≤ promised expiration now' →
  ∃ p' r, memory_request carrier ctx now now' w k p = Some (p', RFound r) ∧ spares (SSID c) p p' ∧
    (r = Some (e_user e, e_data (write expiration w now' e) !! k) ∧ present p' (SSID c) (write expiration w now' e) ∨
     r = None ∧ e_until e ≤ now' ∧ dead now' p' (SSID c)).
Proof using.
  intros Hx Hg Hw (l & s & Hl & Hs & Hi & Hu & Hd & Ht) Hle. pose proof (who_authenticate p ctx now (proj1 Hg)) as Ha. rewrite Hw in Ha.
  unfold memory_request, Session.Get, Session.Get_find. rewrite Ha. cbn. rewrite Hl. unfold Session.Get_touch. rewrite Hs.
  destruct (Session.expireTime s <? now') eqn:Et.
  { eexists _, None. split; [done|]. split; [|right; split_and!; [done|lia|left; cbn; by rewrite lookup_delete_eq]].
    apply memory_spares; try done. intros j Hj. cbn. by rewrite lookup_delete_ne. }
  rewrite (proj2 Hg). set (p1 := Session.set_expire l (now' + expiration) p).
  assert (spares (SSID c) p p1) as Hsp1 by by eapply set_expire_spares.
  assert (Session.heap p1 !! l = Some (Session.mkSession (Session.id s) (Session.claims s) (Session.data s) (now' + expiration))) as Hs1
    by (unfold p1; rewrite set_expire_lookup, decide_True by done; by rewrite Hs).
  destruct (set_found l w now' p1 _ e Hx (proj1 Hsp1) Hs1 Hd eq_refl) as (p2 & -> & Hs2 & Hss & Hsp2). cbn in Hsp2. rewrite Hi in Hsp2. cbn [mbind option_bind].
  unfold Session.sess_UserContext, Session.sess_Get, Session.live_session. rewrite Hs2. cbn. replace (now' + expiration <? now') with false by lia. cbn.
  eexists p2, _. split; [reflexivity|]. split; [by eapply spares_trans|]. left. split.
  - rewrite Hu. by destruct (e_data _ !! k).
  - exists l. eexists. rewrite Hss. split; [done|]. split; [done|]. cbn. split; [done|]. split; [by destruct w as [[f v]|]|]. split; [done|].
    destruct w as [[f v]|]; cbn; unfold promised, Second in *; lia.
Qed.

Lemma delete_spares i p : good p → spares i p (Session.set_sessions (delete i (Session.sessions p)) p).
Proof using. intros Hg. apply memory_spares; try done. intros j Hj. cbn. by rewrite lookup_delete_ne. Qed.

Lemma memory_logout ctx now now' p c :
  good p → who carrier o ctx now = Some c →
  ∃ p' b, step (Logout ctx now now') p = Some (p', RDone b (if b : bool then Clear carrier ctx else ctx)) ∧
    spares (SSID c) p p' ∧ dead now' p' (SSID c) ∧ (b = true ∨ ∀ e, present p (SSID c) e → e_until e ≤ now').
Proof using.
  intros Hg Hw. pose proof (who_authenticate p ctx now (proj1 Hg)) as Ha. rewrite Hw in Ha.
  unfold memory_store, Session.Destroy. rewrite Ha. eexists _, true. split; [done|].
  split; [by apply delete_spares|]. split; [left; cbn; by rewrite lookup_delete_eq|by left].
Qed.

Lemma memory_renew_check ctx now now' p c :
  good p → who_refresh o ctx now = Some c →
  Session.Renew_check ctx now now' p =
    match Session.sessions p !! SSID c ≫= λ l, (λ s, (l, s)) <$> Session.heap p !! l with
    | None => Err Session.ErrSessionNotFound
    | Some (l, s) => if Session.expireTime s <? now' then Err Session.ErrSessionExpired else Ok (l, c)
    end.
Proof using.
  intros [Ho Hx]. unfold who_refresh, Session.Renew_check. rewrite Ho. case_decide; [done|].
  by destruct (VerifyRefreshToken _ _ _); intros [= ->].
Qed.

Lemma memory_renew_finish ctx at_ l c p :
  good p →
  match issue carrier o at_ c ctx with
  | Some ctx' => Session.Renew_finish carrier ctx l c (t1 at_) (t2 at_) (t3 at_) (u1 at_) (u2 at_) p =
      (Ok (), ctx', Session.set_expire l (t3 at_ + expiration) p)
  | None => ∃ e, Session.Renew_finish carrier ctx l c (t1 at_) (t2 at_) (t3 at_) (u1 at_) (u2 at_) p = (Err e, ctx, p)
  end.
Proof using.
  intros [Ho Hx]. unfold Session.Renew_finish, issue. rewrite Ho, Hx. destruct (GenerateTokenPair _ _ _ _ _ _); [done|by eexists].
Qed.

Lemma memory_renew ctx now now' at_ p c e :
  0 ≤ expiration → good p → who_refresh o ctx now = Some c → present p (SSID c) e → e_until e ≤ promised expiration (t3 at_) →
  (∃ ctx' p', issue carrier o at_ c ctx = Some ctx' ∧ step (Renew ctx now now' at_) p = Some (p', RDone true ctx') ∧ spares (SSID c) p p' ∧
     (present p' (SSID c) (renew expiration (t3 at_) e) ∨ e_until e ≤ t3 at_ ∧ dead (t3 at_) p' (SSID c))) ∨
  (issue carrier o at_ c ctx = None ∧ step (Renew ctx now now' at_) p = Some (p, RDone false ctx)) ∨
  (step (Renew ctx now now' at_) p = Some (p, RDone false ctx) ∧ e_until e ≤ now' ∧ dead now' p (SSID c)).
Proof using.
  intros Hx Hg Hw (l & s & Hl & Hs & Hi & Hu & Hd & Ht) Hle. unfold memory_store. rewrite (memory_renew_check _ _ _ _ c) by done.
  rewrite Hl. cbn. rewrite Hs. cbn. destruct (Session.expireTime s <? now') eqn:Et.
  { right. right. split; [done|]. split; [lia|]. right. exists l, s. split_and!; [done..|lia]. }
  pose proof (memory_renew_finish ctx at_ l c p Hg) as Hf. destruct (issue carrier o at_ c ctx) as [ctx'|].
  - rewrite Hf. left. eexists _, _. split; [done|]. split; [done|]. split; [by eapply set_expire_spares|]. left.
    exists l. eexists. rewrite set_expire_lookup, decide_True, Hs by done. split; [done|]. split; [reflexivity|]. cbn.
    split_and!; try done. unfold promised in *. assert (0 ≤ Second) by done. lia.
  - destruct Hf as [er ->]. right. left. done.
Qed.

Lemma memory_renew_gone ctx now now' at_ p c :
  good p → who_refresh o ctx now = Some c → dead now' p (SSID c) → step (Renew ctx now now' at_) p = Some (p, RDone false ctx).
Proof using.
  intros Hg Hw Hd. unfold memory_store. rewrite (memory_renew_check _ _ _ _ c) by done.
  destruct Hd as [->|(l & s & -> & Hs & _ & Hlt)]; [done|]. cbn. rewrite Hs. cbn. by replace (Session.expireTime s <? now') with true by lia.
Qed.

Lemma delete_expired_spec now ids : ∀ p,
  let p' := Session.delete_expired now ids p in
  Session.heap p' = Session.heap p ∧ Session.opts p' = Session.opts p ∧ Session.expiration p' = Session.expiration p ∧
  ∀ i, Session.sessions p' !! i = Session.sessions p !! i ∨
    Session.sessions p' !! i = None ∧ ∃ l s, Session.sessions p !! i = Some l ∧ Session.heap p !! l = Some s ∧ Session.expireTime s < now.
Proof using.
  induction ids as [|k ids IH]; intros p; [cbn; auto|]. cbn [Session.delete_expired foldl].
  destruct (Session.sessions p !! k ≫= (Session.heap p !!.)) as [s|] eqn:E; [|apply IH].
  destruct (Session.expireTime s <? now) eqn:Et; [|apply IH].
  apply bind_Some in E as (l & Hl & Hs). destruct (IH (Session.set_sessions (delete k (Session.sessions p)) p)) as (H1 & H2 & H3 & H4).
  unfold Session.delete_expired in *. rewrite H1, H2, H3. cbn. split_and!; try done. intros i. specialize (H4 i). cbn in H4.
  destruct (decide (i = k)) as [->|Hi]; [|by rewrite lookup_delete_ne in H4]. rewrite lookup_delete_eq in H4. right.
  split; [by destruct H4 as [H4|(H4 & _)]|]. exists l, s. split_and!; [done..|lia].
Qed.

Lemma memory_login ctx ssid u jd d at_ p :
  0 ≤ expiration → good p →
  match issue carrier o at_ (claims_of u ssid jd) ctx with
  | Some ctx' => ∃ p', step (Login ctx ssid u jd d at_) p = Some (p', RDone true ctx') ∧
      present p' ssid (mkEntry u d (promised expiration (t3 at_))) ∧ spares ssid p p'
  | None => step (Login ctx ssid u jd d at_) p = Some (p, RDone false ctx)
  end.
Proof using.
  intros Hx [Ho He]. unfold memory_store, Session.NewSession, issue, claims_of. rewrite Ho, He.
  destruct (GenerateTokenPair _ _ _ _ _ _) as [tp|e]; [|done]. eexists. split; [done|]. split.
  - eexists _, _. cbn. rewrite lookup_insert_eq, lookup_app_r, Nat.sub_diag by done. split; [done|]. split; [done|]. cbn.
    split_and!; try done. unfold promised. assert (0 ≤ Second) by done. lia.
  - apply memory_spares; [done|by cbn|by cbn|intros j Hj; cbn; by rewrite lookup_insert_ne|].
    intros l s Hs _. cbn. by rewrite lookup_app_l by by eapply lookup_lt_Some.
Qed.

(** The laws, for an expiration that is not negative. *)
Lemma memory_store_ok :
  0 ≤ expiration → @SessionStoreOk _ carrier o expiration Session.Provider (memory_store carrier) (memory_view o expiration).
Proof using.
  intros Hx. split.
  - intros n n' p i Hn [Hd|(l & s & H1 & H2 & H3 & H4)]; [by left|right]. exists l, s. split_and!; [done..|lia].
  - intros ctx ssid u jd d at_ p Hg _ _. by apply memory_login.
  - intros ctx now now' w k p c e Hg _ Hw _ Hp Hle. by apply memory_request_found.
  - intros ctx now now' w k p c Hg Hw Hd. by apply memory_request_gone.
  - intros ctx now now' w k p Hg Hw. pose proof (who_authenticate p ctx now (proj1 Hg)) as Ha. rewrite Hw in Ha. destruct Ha as [e Ha].
    unfold store_step, memory_store, memory_request, Session.Get, Session.Get_find. by rewrite Ha.
  - intros ctx now now' p c Hg Hw. by apply memory_logout.
  - intros ctx now now' p Hg Hw. pose proof (who_authenticate p ctx now (proj1 Hg)) as Ha. rewrite Hw in Ha. destruct Ha as [e Ha].
    unfold store_step, memory_store, Session.Destroy. by rewrite Ha.
  - intros ctx now now' at_ p c e Hg Hw Hp Hle _. by apply memory_renew.
  - intros ctx now now' at_ p c Hg Hw Hd. by apply (memory_renew_gone _ _ _ _ _ c).
  - intros ctx now now' at_ p [Ho He] Hw. unfold who_refresh in Hw. unfold store_step, memory_store, Session.Renew_check. rewrite Ho.
    case_decide; [done|]. by destruct (VerifyRefreshToken _ _ _).
  - intros now p [Ho He]. eexists. split; [done|].
    destruct (delete_expired_spec now (Session.expiredIDs now p) p) as (H1 & H2 & H3 & H4). split; [by split; [rewrite H2|rewrite H3]|].
    intros i. split.
    + intros e (l & s & Hl & Hs & Hi & Hu & Hd & Ht). destruct (H4 i) as [Hsame|(Hgone & l' & s' & Hl' & Hs' & Hlt)].
      * left. exists l, s. rewrite H1, Hsame. done.
      * right. assert (s' = s) as -> by congruence. split; [lia|by left].
    + intros n [Hd|(l & s & Hl & Hs & Hi & Hlt)]; (destruct (H4 i) as [Hsame|(Hgone & _)]; [|by left]).
      * left. by rewrite Hsame.
      * right. exists l, s. rewrite H1, Hsame. done.
Qed.

End MemoryOk.

(** ** The Redis store keeps the laws *)

Section RedisOk.
Context {R : Type} `{RedisSession.RedisHashesOk R} `{RedisSession.JsonOk} `{JwtLib} `{RangeOrder} (carrier : TokenCarrier).
Context (o : Options) (expiration : Duration) (Hexp : 0 < expiration) (Hjson : ∀ v, is_Some (RedisSession.json_Marshal v)).
Implicit Types r : R.
#[local] Abbreviation p := (RedisSession.mkProvider o expiration).
#[local] Abbreviation step := (redis_store (R := R) carrier p).
#[local] Abbreviation present := (@present R redis_view).
#[local] Abbreviation dead := (@dead R redis_view).
#[local] Abbreviation spares := (@spares R redis_view).
#[local] Abbreviation fields := RedisSession.fields.
#[local] Abbreviation hash := RedisSession.hash.
#[local] Abbreviation skey := RedisSession.sessionKey.

Lemma skey_inj i j : skey i = skey j → i = j.
Proof using. unfold RedisSession.sessionKey. intros E. by apply (inj _) in E. Qed.

Lemma redis_spares i r r' : (∀ k, k ≠ skey i → hash r' k = hash r k) → spares i r r'.
Proof using.
  intros Hk. split; [done|]. intros j Hj. assert (skey j ≠ skey i) as Hne by (intros E; by apply Hj, skey_inj).
  split; [intros e Hp|intros n Hp]; unfold SessionSpec.present, SessionSpec.dead, redis_view in *; by rewrite Hk.
Qed.

Lemma fields_stay_empty n n' e : n ≤ n' → fields n e = ∅ → fields n' e = ∅.
Proof using. intros Hn. destruct e as [[m [d|]]|]; cbn; [|done..]. destruct (Z.ltb_spec n d), (Z.ltb_spec n' d); try done; lia. Qed.

Lemma expire_promised now : promised expiration now ≤ RedisSession.expire_at now expiration ∧ now < RedisSession.expire_at now expiration.
Proof using Hexp.
  unfold RedisSession.expire_at, promised. assert (0 < Second) as Hs by done. destruct (Z.ltb_spec expiration Second); [lia|].
  pose proof (Z.div_mod expiration Second) as Hdm. pose proof (Z.mod_pos_bound expiration Second Hs).
  assert (1 ≤ expiration / Second) by (apply Z.div_le_lower_bound; lia). nia.
Qed.

Lemma exists_dead now r i : dead now r i → RedisSession.redis_Exists now (skey i) r = 0.
Proof using. intros Hd. rewrite RedisSession.redis_Exists_ok, decide_True; [done|]. by apply Hd. Qed.

Lemma not_exists_dead now r i : RedisSession.redis_Exists now (skey i) r = 0 → dead now r i.
Proof using. rewrite RedisSession.redis_Exists_ok. case_decide as E; [|done]. intros _ n Hn. by eapply fields_stay_empty. Qed.

(** A session that is there, at a time: found, or past its deadline. *)
Lemma present_cases now r i e :
  present r i e →
  (∃ m d, hash r (skey i) = Some (m, Some d) ∧ now < d ∧ fields now (hash r (skey i)) = m ∧ m ≠ ∅ ∧ e_until e ≤ d ∧
    (∀ k, ¬ reserved k → m !! k = e_data e !! k ≫= RedisSession.json_Marshal) ∧ RedisSession.redis_Exists now (skey i) r = 1) ∨
  (e_until e ≤ now ∧ dead now r i).
Proof using.
  intros (m & d & Hh & Hne & Hu & Hm). destruct (Z.ltb_spec now d) as [Hlt|Hge].
  - left. exists m, d. assert (fields now (hash r (skey i)) = m) as Hf by (rewrite Hh; cbn; by replace (now <? d) with true by lia).
    split_and!; try done. rewrite RedisSession.redis_Exists_ok, decide_False; [done|by rewrite Hf].
  - right. split; [lia|]. intros n Hn. rewrite Hh. cbn. by replace (n <? d) with false by lia.
Qed.

Lemma redis_request_gone ctx now now' w k r c :
  who carrier o ctx now = Some c → dead now' r (SSID c) → redis_request carrier p ctx now now' w k r = Some (r, RFound None).
Proof using.
  intros Hw Hd. unfold redis_request, RedisSession.Get. unfold who in Hw. cbn [RedisSession.opts]. case_decide; [done|].
  destruct (VerifyToken _ _ _) as [c'|]; [|done]. injection Hw as ->. by rewrite exists_dead.
Qed.

(** Moving the deadline of a hash that is not empty, and writing to it first. *)
Lemma expire_hash now k r m :
  fields now (hash r k) = m → m ≠ ∅ →
  hash (RedisSession.redis_Expire now k expiration r) k = Some (m, Some (RedisSession.expire_at now expiration)) ∧
  ∀ k', k' ≠ k → hash (RedisSession.redis_Expire now k expiration r) k' = hash r k'.
Proof using Hexp.
  intros <- Hne. split; [by rewrite RedisSession.redis_Expire_ok, decide_True, decide_False|].
  intros k' Hk. by rewrite RedisSession.redis_Expire_ok, decide_False.
Qed.

Lemma set_hash c f v now r :
  let r' := (RedisSession.sess_Set (RedisSession.newSession (SSID c) expiration c) f v now r).2 in
  ∃ d, RedisSession.json_Marshal v = Some d ∧
    hash r' (skey (SSID c)) = Some (<[f := d]> (fields now (hash r (skey (SSID c)))), Some (RedisSession.expire_at now expiration)) ∧
    ∀ k, k ≠ skey (SSID c) → hash r' k = hash r k.
Proof using Hexp Hjson.
  destruct (Hjson v) as [d Hd]. exists d. split; [done|]. unfold RedisSession.sess_Set. rewrite Hd. cbn [snd RedisSession.key RedisSession.newSession RedisSession.sess_expiration].
  destruct (expire_hash now (skey (SSID c)) (RedisSession.redis_HSet now (skey (SSID c)) f d r) (<[f := d]> (fields now (hash r (skey (SSID c)))))) as [Hk Ho].
  - by rewrite RedisSession.redis_HSet_ok, decide_True, RedisSession.fields_written.
  - apply insert_non_empty.
  - split; [done|]. intros k Hk'. by rewrite Ho, RedisSession.redis_HSet_ok, decide_False.
Qed.

Lemma redis_request_found ctx now now' w k r c e :
  plain (Request ctx now now' w k) → who carrier o ctx now = Some c → Jwt.UserId c = e_user e → present r (SSID c) e → e_until e ≤ promised expiration now' →
  ∃ r' res, redis_request carrier p ctx now now' w k r = Some (r', RFound res) ∧ spares (SSID c) r r' ∧
    (res = Some (e_user e, e_data (write expiration w now' e) !! k) ∧ present r' (SSID c) (write expiration w now' e) ∨
     res = None ∧ e_until e ≤ now' ∧ dead now' r' (SSID c)).
Proof using Hexp Hjson H2.
  intros [Hk Hwk] Hw Hu Hp Hle. destruct (present_cases now' r (SSID c) e Hp) as [(m & d & Hh & Hlt & Hf & Hne & Hd & Hm & He)|[Hle' Hdead]].
  2:{ exists r, None. split; [by eapply redis_request_gone|]. split; [by apply redis_spares|]. by right. }
  assert (RedisSession.Get carrier p ctx None now now' r = Ok (RedisSession.newSession (SSID c) expiration c)) as Hget.
  { unfold RedisSession.Get. unfold who in Hw. cbn [RedisSession.opts]. case_decide; [done|].
    destruct (VerifyToken _ _ _) as [c'|]; [|done]. injection Hw as ->. by rewrite He. }
  unfold redis_request. rewrite Hget. set (s := RedisSession.newSession _ _ _).
  assert (∃ r1 m1 d1, match w with Some (f, v) => (RedisSession.sess_Set s f v now' r).2 | None => r end = r1 ∧
    hash r1 (skey (SSID c)) = Some (m1, Some d1) ∧ now' < d1 ∧ m1 ≠ ∅ ∧ e_until (write expiration w now' e) ≤ d1 ∧
    (∀ k, ¬ reserved k → m1 !! k = e_data (write expiration w now' e) !! k ≫= RedisSession.json_Marshal) ∧
    ∀ k, k ≠ skey (SSID c) → hash r1 k = hash r k) as (r1 & m1 & d1 & -> & Hh1 & Hlt1 & Hne1 & Hd1 & Hm1 & Ho1).
  { destruct w as [[f v]|]; [|by exists r, m, d]. destruct (set_hash c f v now' r) as (dv & Hdv & Hs & Ho). rewrite Hf in Hs.
    eexists _, _, _. split; [reflexivity|]. split; [exact Hs|]. pose proof (expire_promised now') as [Hx1 Hx2].
    split; [done|]. split; [apply insert_non_empty|]. split; [cbn; lia|]. split; [|done]. intros k0 Hk0. cbn.
    destruct (decide (k0 = f)) as [->|Hkf]; [by rewrite !lookup_insert_eq|]. rewrite !lookup_insert_ne by done. by apply Hm. }
  eexists r1, _. split; [reflexivity|]. split; [by apply redis_spares|]. left. split.
  - cbn [RedisSession.sess_UserContext Web.UserId RedisSession.claims RedisSession.newSession s]. rewrite Hu. do 2 f_equal.
    unfold RedisSession.sess_Get. cbn [RedisSession.key RedisSession.newSession s]. rewrite RedisSession.redis_HGet_ok, Hh1. cbn.
    replace (now' <? d1) with true by lia. rewrite Hm1 by done. destruct (e_data _ !! k) as [v|]; [|done]. cbn.
    destruct (Hjson v) as [dv Hdv]. by rewrite Hdv, (RedisSession.json_back _ _ Hdv).
  - by exists m1, d1.
Qed.

Lemma redis_logout ctx now now' r c :
  who carrier o ctx now = Some c →
  ∃ r' b, step (Logout ctx now now') r = Some (r', RDone b (if b : bool then Clear carrier ctx else ctx)) ∧
    spares (SSID c) r r' ∧ dead now' r' (SSID c) ∧ (b = true ∨ ∀ e, present r (SSID c) e → e_until e ≤ now').
Proof using.
  intros Hw. unfold redis_store, RedisSession.Destroy, RedisSession.Get. unfold who in Hw. cbn [RedisSession.opts]. case_decide; [done|].
  destruct (VerifyToken _ _ _) as [c'|]; [|done]. injection Hw as ->.
  destruct (Z.eqb_spec (RedisSession.redis_Exists now' (skey (SSID c)) r) 0) as [E|E].
  - exists r, false. split; [done|]. split; [by apply redis_spares|]. split; [by apply not_exists_dead|]. right. intros e Hp.
    destruct (present_cases now' r (SSID c) e Hp) as [(m & d & _ & _ & _ & _ & _ & _ & He)|[Hle _]]; [|done]. by rewrite He in E.
  - eexists _, true. split; [done|]. unfold RedisSession.sess_Destroy. cbn [RedisSession.key RedisSession.newSession]. split; [|split; [|by left]].
    + apply redis_spares. intros k Hk. by rewrite RedisSession.redis_Del_ok, decide_False.
    + intros n _. by rewrite RedisSession.redis_Del_ok, decide_True.
Qed.

(** [RenewToken] of a good refresh token. *)
Lemma redis_renew_step ctx now now' at_ r c :
  who_refresh o ctx now = Some c →
  step (Renew ctx now now' at_) r =
    if RedisSession.redis_Exists now' (skey (SSID c)) r =? 0 then Some (r, RDone false ctx)
    else match issue carrier o at_ c ctx with
         | Some ctx' => Some (RedisSession.redis_Expire (t3 at_) (skey (SSID c)) expiration r, RDone true ctx')
         | None => Some (r, RDone false ctx)
         end.
Proof using.
  unfold who_refresh, redis_store, RedisSession.RenewToken, issue. cbn [RedisSession.opts RedisSession.expiration]. case_decide; [done|].
  destruct (VerifyRefreshToken _ _ _) as [c'|]; [|done]. intros [= ->]. destruct (_ =? 0); [done|]. by destruct (GenerateTokenPair _ _ _ _ _ _).
Qed.

Lemma redis_renew ctx now now' at_ r c e :
  who_refresh o ctx now = Some c → present r (SSID c) e → e_until e ≤ promised expiration (t3 at_) → now' ≤ t3 at_ →
  (∃ ctx' r', issue carrier o at_ c ctx = Some ctx' ∧ step (Renew ctx now now' at_) r = Some (r', RDone true ctx') ∧ spares (SSID c) r r' ∧
     (present r' (SSID c) (renew expiration (t3 at_) e) ∨ e_until e ≤ t3 at_ ∧ dead (t3 at_) r' (SSID c))) ∨
  (issue carrier o at_ c ctx = None ∧ step (Renew ctx now now' at_) r = Some (r, RDone false ctx)) ∨
  (step (Renew ctx now now' at_) r = Some (r, RDone false ctx) ∧ e_until e ≤ now' ∧ dead now' r (SSID c)).
Proof using Hexp.
  intros Hw Hp Hle Ht. rewrite (redis_renew_step _ _ _ _ _ c) by done.
  destruct (present_cases now' r (SSID c) e Hp) as [(m & d & Hh & Hlt & Hf & Hne & Hd & Hm & He)|[Hle' Hdead]].
  2:{ right. right. by rewrite exists_dead by done. }
  rewrite He. cbn [Z.eqb]. destruct (issue carrier o at_ c ctx) as [ctx'|]; [left|by right; left].
  eexists _, _. split; [done|]. split; [done|]. set (r' := RedisSession.redis_Expire _ _ _ _).
  assert (∀ k, k ≠ skey (SSID c) → hash r' k = hash r k) as Ho by (intros k Hk; unfold r'; by rewrite RedisSession.redis_Expire_ok, decide_False).
  split; [by apply redis_spares|]. destruct (Z.ltb_spec (t3 at_) d) as [Hlt3|Hge3].
  - left. assert (fields (t3 at_) (hash r (skey (SSID c))) = m) as Hf3 by (rewrite Hh; cbn; by replace (t3 at_ <? d) with true by lia).
    destruct (expire_hash (t3 at_) (skey (SSID c)) r m Hf3 Hne) as [Hh' _]. pose proof (expire_promised (t3 at_)) as [Hx1 _].
    eexists m, _. split; [exact Hh'|]. split; [done|]. split; [cbn; lia|done].
  - right. split; [lia|]. assert (fields (t3 at_) (hash r (skey (SSID c))) = ∅) as Hf3 by (rewrite Hh; cbn; by replace (t3 at_ <? d) with false by lia).
    intros n Hn. unfold r'. rewrite RedisSession.redis_Expire_ok, !decide_True by done. by eapply fields_stay_empty.
Qed.

Lemma marshal_all_some (l : list (string * any)) : is_Some (RedisSession.marshal_all l).
Proof using Hjson.
  unfold RedisSession.marshal_all. apply mapM_is_Some. apply Forall_forall. intros [k v] _. cbn. destruct (Hjson v) as [d ->]. by eexists.
Qed.

Lemma redis_login ctx ssid u jd d at_ r :
  dead (t3 at_) r ssid →
  match issue carrier o at_ (claims_of u ssid jd) ctx with
  | Some ctx' => ∃ r', step (Login ctx ssid u jd d at_) r = Some (r', RDone true ctx') ∧
      present r' ssid (mkEntry u d (promised expiration (t3 at_))) ∧ spares ssid r r'
  | None => step (Login ctx ssid u jd d at_) r = Some (r, RDone false ctx)
  end.
Proof using Hexp Hjson.
  intros Hdead. unfold redis_store, RedisSession.NewSession, issue, claims_of. cbn [RedisSession.opts RedisSession.expiration].
  destruct (GenerateTokenPair _ _ _ _ _ _) as [tp|e]; [|done].
  set (all := <["created_at" := VAny (t3 at_ / Second)]> (<["user_id" := VStr u]> (default ∅ (Some d)))).
  set (s := RedisSession.newSession _ _ _). destruct (RedisSession.init s all (t3 at_) r) as [res r1] eqn:Ei.
  assert (res = Ok ()) as ->.
  { unfold RedisSession.init in Ei. rewrite decide_False in Ei by apply insert_non_empty.
    destruct (marshal_all_some (range_map all)) as [kvs E]. rewrite E in Ei. by injection Ei as <- _. }
  destruct (RedisSession.init_spec s all (t3 at_) r r1 (insert_non_empty _ _ _) (λ k v _, Hjson v) (Hdead _ ltac:(done)) Hexp Ei)
    as ((m & Hm & Hf) & Ho). exists r1. split; [done|]. split; [|by apply redis_spares].
  exists m. eexists. split; [exact Hm|]. split; [|split; [apply expire_promised|]].
  - intros ->. specialize (Hf "user_id"). rewrite lookup_empty in Hf. unfold all in Hf. rewrite lookup_insert_ne, lookup_insert_eq in Hf by done.
    cbn in Hf. destruct (Hjson (VStr u)) as [dv Hdv]. congruence.
  - intros k Hk. rewrite Hf. unfold all. by rewrite !lookup_insert_ne by (intros <-; apply Hk; unfold reserved; auto).
Qed.

(** The laws, for a positive expiration and data that have a JSON form. *)
Lemma redis_store_ok : @SessionStoreOk _ carrier o expiration R (redis_store carrier p) redis_view.
Proof using Hexp Hjson H2.
  split.
  - intros n n' r i Hn Hd n0 Hn0. apply Hd. lia.
  - intros ctx ssid u jd d at_ r _ _ Hd. by apply redis_login.
  - intros ctx now now' w k r c e _ Hpl Hw Hu Hp Hle. by apply redis_request_found.
  - intros ctx now now' w k r c _ Hw Hd. exists r. split; [by eapply redis_request_gone|]. split; [by apply redis_spares|done].
  - intros ctx now now' w k r _ Hw. unfold store_step, redis_store, redis_request, RedisSession.Get. unfold who in Hw. cbn [RedisSession.opts].
    case_decide; [done|]. by destruct (VerifyToken _ _ _).
  - intros ctx now now' r c _ Hw. by apply redis_logout.
  - intros ctx now now' r _ Hw. unfold store_step, redis_store, RedisSession.Destroy, RedisSession.Get. unfold who in Hw. cbn [RedisSession.opts].
    case_decide; [done|]. by destruct (VerifyToken _ _ _).
  - intros ctx now now' at_ r c e _ Hw Hp Hle Ht. by apply redis_renew.
  - intros ctx now now' at_ r c _ Hw Hd. unfold store_step. rewrite (redis_renew_step _ _ _ _ _ c) by done. by rewrite exists_dead.
  - intros ctx now now' at_ r _ Hw. unfold store_step, redis_store, RedisSession.RenewToken. unfold who_refresh in Hw. cbn [RedisSession.opts].
    case_decide; [done|]. by destruct (VerifyRefreshToken _ _ _).
  - intros now r _. exists r. split; [done|]. split; [done|]. intros i. split; auto.
Qed.

End RedisOk.

(** ** Properties *)


#[local] Existing Instances RedisSession.Store_hashes RedisSession.Store_hashes_ok RedisSession.toy_json RedisSession.toy_json_ok.

Lemma samples_fit :
  ordered 0 [sample_login; sample_request] ∧ Forall plain [sample_login; sample_request] ∧
  Forall (honest Session.sample_carrier sample_options (λ _, "7")) [sample_login; sample_request] ∧ NoDup (omap login_of [sample_login; sample_request]).
Proof.
  split_and!.
  - by vm_compute.
  - repeat constructor; try by vm_compute. + intros [?|?]; done. + intros f v [= <- <-] [?|?]; done.
  - apply Forall_cons. split; [done|]. apply Forall_cons. split; [|done]. intros c Hc. vm_compute in Hc. by injection Hc as <-.
  - apply (bool_decide_unpack _). by vm_compute.
Qed.




(** ** Where the stores differ *)

(** A request that only reads keeps a session in memory for another period, and does not in Redis: of two
    stores with a minute's expiration, with the user back after 40 and after 70 seconds, one has lost the session. *)
Example reading_keeps_only_in_memory :
  let o := NewOptions "key" (1000 * Second) (60 * Second) in
  let tokens := default (request "" ∅ ∅ "") (issue Session.sample_carrier o sample_stamp (claims_of "7" "s" ∅) (request "POST" ∅ ∅ "")) in
  let read t := Request (Session.answer_cookies tokens) (t * Second) (t * Second) None "theme" in
  let ops := [sample_login; read 40; read 70] in
  let memory := run_steps (memory_store (H0 := range_first_key_order) Session.sample_carrier) ops (Session.NewProvider "key" (1000 * Second) (60 * Second)) in
  let redis := run_steps (redis_store (H2 := range_first_key_order) Session.sample_carrier (RedisSession.NewProvider "key" (1000 * Second) (60 * Second)))
    ops (∅ : RedisSession.Store) in
  (snd <$> memory) ≫= last = Some (RFound (Some ("7", Some (VStr "dark")))) ∧ (snd <$> redis) ≫= last = Some (RFound None).
Proof. split; by vm_compute. Qed.

(** Logging out twice is an error over Redis, and none in memory. *)
Example second_logout_differs :
  let logout := Logout (Session.answer_cookies sample_answer) (5 * Second) (5 * Second) in
  let ops := [sample_login; logout; logout] in
  let ok x := match x with Some (RDone b _) => Some b | _ => None end in
  let memory := run_steps (memory_store (H0 := range_first_key_order) Session.sample_carrier) ops (Session.NewProvider "key" (10 * Second) (60 * Second)) in
  let redis := run_steps (redis_store (H2 := range_first_key_order) Session.sample_carrier (RedisSession.NewProvider "key" (10 * Second) (60 * Second)))
    ops (∅ : RedisSession.Store) in
  ok ((snd <$> memory) ≫= last) = Some true ∧ ok ((snd <$> redis) ≫= last) = Some false.
Proof. split; by vm_compute. Qed.

End SessionStores.
