(* ===== verification/SessionDefault.v ===== *)
(** * The session provider in force (src/session/types.go)

    The package's functions ask the provider put into the request's context or
    else the default one, which an [atomic.Value] holds.  [Provider] is the
    interface that the providers of Session and RedisSession share: [W] is what a
    provider works on, the request with its context included, and [S] its sessions. *)

From S2P Require Import Prelude.

Module SessionDefault.

Inductive Error := ErrProviderNotInitialized | ErrOther (id : Z).

(** [kind] is the type behind the interface. *)
Record Provider (W S : Type) := mkProvider {
  kind : nat;
  p_NewSession : string → gmap string string → gmap string Z → W → res Error S * W;
  p_Get : W → res Error S * W;
  p_Destroy : W → option Error * W;
  p_RenewToken : W → option Error * W
}.
Arguments mkProvider {W S}. Arguments kind {W S}. Arguments p_NewSession {W S}. Arguments p_Get {W S}.

Section Package.
Context {W S : Type}.
Abbreviation P := (Provider W S) (only parsing).

(** [atomic.Value]: [None] is the panic of storing nil or a type other than the first one's. *)
Definition SetDefaultProvider (provider : option P) (stored : option P) : option (option P) :=
  match provider, stored with
  | None, _ => None
  | Some p, None => Some (Some p)
  | Some p, Some q => if (kind p =? kind q)%nat then Some (Some p) else None
  end.

Definition getDefaultProvider (stored : option P) : res Error P :=
  match stored with None => Err ErrProviderNotInitialized | Some p => Ok p end.

(** What a context may hold under a key. *)
Inductive Val := VProvider (p : P) | VOther.

Definition CtxProviderKey : string := "gint:session_provider".

(** The context's values; [None] is a nil context. *)
Abbreviation Ctx := (option (gmap string Val)) (only parsing).

Definition SetProvider (p : P) (ctx : gmap string Val) : gmap string Val := <[CtxProviderKey := VProvider p]> ctx.

Definition getProvider (ctx : Ctx) (stored : option P) : res Error P :=
  match ctx with
  | Some vals => match vals !! CtxProviderKey with Some (VProvider p) => Ok p | _ => getDefaultProvider stored end
  | None => getDefaultProvider stored
  end.

Definition Get (ctx : Ctx) (stored : option P) (w : W) : res Error S * W :=
  match getProvider ctx stored with Err e => (Err e, w) | Ok p => p_Get p w end.

Definition NewSession (ctx : Ctx) (stored : option P) (userId : string) (jwtData : gmap string string) (sessData : gmap string Z) (w : W)
    : res Error S * W :=
  match getProvider ctx stored with Err e => (Err e, w) | Ok p => p_NewSession p userId jwtData sessData w end.

(** Stores one after the other. *)
Fixpoint stores (ps : list (option P)) (stored : option P) : option (option P) :=
  match ps with [] => Some stored | p :: ps => s ← SetDefaultProvider p stored; stores ps s end.

(** ** Lemmas *)

(** A context's provider goes first, whatever the default. *)
Lemma context_provider_first p ctx stored w : Get (Some (SetProvider p ctx)) stored w = p_Get p w.
Proof. unfold Get, getProvider, SetProvider. by rewrite lookup_insert_eq. Qed.

(** The default is the last one stored, all of one kind; storing another kind ends the process. *)
Lemma stores_last ps : ∀ stored s p, stores ps stored = Some s → last ps = Some p → s = p ∧ is_Some p.
Proof.
  induction ps as [|q ps IH]; intros stored s p E Hl; [done|]. simpl in E. destruct (SetDefaultProvider q stored) as [s1|] eqn:E1; [|done].
  destruct ps as [|q' ps]; [|by apply (IH s1)]. simplify_eq/=. unfold SetDefaultProvider in E1. destruct p as [p|]; [|done].
  destruct stored as [q|]; [destruct (kind p =? kind q)%nat|]; by simplify_eq.
Qed.

Lemma stores_kind ps : ∀ stored s, stores ps stored = Some s → ∀ p q, Some p ∈ stored :: ps → Some q ∈ stored :: ps → kind p = kind q.
Proof.
  assert (∀ ps stored s p0, stores ps (Some stored) = Some s → Some p0 ∈ ps → kind p0 = kind stored) as Hall.
  { clear ps. induction ps as [|q ps IH]; intros stored s p0 E Hin; [by apply elem_of_nil in Hin|]. simpl in E.
    unfold SetDefaultProvider in E. destruct q as [q|]; [|done]. destruct (Nat.eqb_spec (kind q) (kind stored)) as [Ek|]; [|done]. simpl in E.
    apply elem_of_cons in Hin as [[= ->]|Hin]; [done|]. rewrite <- Ek. by eapply IH. }
  intros [stored|] s E p q Hp Hq.
  - assert (∀ r, Some r ∈ Some stored :: ps → kind r = kind stored) as H by (intros r [[= ->]|Hr]%elem_of_cons; [done|by eapply Hall]).
    by rewrite (H p), (H q).
  - destruct ps as [|[p0|] ps]; [by set_solver| |done]. simpl in E.
    assert (∀ r, Some r ∈ None :: Some p0 :: ps → kind r = kind p0) as H.
    { intros r [?|[[= ->]|Hr]%elem_of_cons]%elem_of_cons; [done|done|by eapply Hall]. }
    by rewrite (H p), (H q).
Qed.

(** Without either there is an error and no session. *)
Lemma no_provider w : Get None None w = (Err ErrProviderNotInitialized, w).
Proof. done. Qed.

(** A provider over Redis after one in memory, as a test may set them, panics. *)
Lemma second_kind_panics p q : kind p ≠ kind q → SetDefaultProvider (Some q) (Some p) = None.
Proof. intros Hk. unfold SetDefaultProvider. destruct (Nat.eqb_spec (kind q) (kind p)); [congruence|done]. Qed.

End Package.
End SessionDefault.
