(* ===== verification/Auth.v ===== *)
(** * Authentication middleware (src/middlewares/auth/middleware.go)

    The three middlewares over the token manager of [Jwt.v], the request of
    [Web.v] and any source of sessions: a class with the memory provider of
    [Session.v] as its instance.  A middleware either answers the request
    itself or passes it on. *)

From S2P Require Import Prelude Text Jwt Web Session.

Module Auth.

Import Jwt.Jwt Web.Web.

(** ** Extractors *)

Definition TokenExtractor := Context → string.

Definition HeaderExtractor (headerName : string) : TokenExtractor := GetHeader headerName.

Definition BearerExtractor : TokenExtractor := λ c,
  let auth := GetHeader "Authorization" c in
  if (7 <? String.length auth)%nat && String.eqb (Text.Text.str_take 7 auth) "Bearer "
  then Text.Text.str_drop 7 auth else "".

Definition CookieExtractor (cookieName : string) : TokenExtractor := λ c,
  default "" (request_cookies c !! cookieName).

(** ** The user of a token *)

(** One entry of the claims' data. *)
Definition add_entry (uc : UserContext) (kv : string * string) : UserContext :=
  let '(key, value) := kv in
  let keep (old : string) := if decide (old = "") then value else old in
  if decide (key = "tenant_id") then
    mkUser (Web.UserId uc) (Web.Username uc) (Web.Role uc) (keep (Web.TenantId uc)) (Department uc)
      (Web.Email uc) (Extra uc)
  else if decide (key = "role") then
    mkUser (Web.UserId uc) (Web.Username uc) (keep (Web.Role uc)) (Web.TenantId uc) (Department uc)
      (Web.Email uc) (Extra uc)
  else if decide (key = "username") then
    mkUser (Web.UserId uc) (keep (Web.Username uc)) (Web.Role uc) (Web.TenantId uc) (Department uc)
      (Web.Email uc) (Extra uc)
  else if decide (key = "email") then
    mkUser (Web.UserId uc) (Web.Username uc) (Web.Role uc) (Web.TenantId uc) (Department uc)
      (keep (Web.Email uc)) (Extra uc)
  else
    mkUser (Web.UserId uc) (Web.Username uc) (Web.Role uc) (Web.TenantId uc) (Department uc)
      (Web.Email uc) (<[key := value]> <$> Extra uc).

Definition buildUserContextFromClaims `{RangeOrder} (claims : option Claims) : UserContext :=
  match claims with
  | None => empty_user
  | Some c =>
      foldl add_entry
        (mkUser (Jwt.UserId c) (Jwt.Username c) (Jwt.Role c) (Jwt.TenantId c) "" (Jwt.Email c) (Some ∅))
        (range_map (Data c))
  end.

Definition or_else (s dflt : string) : string := if decide (s = "") then dflt else s.

(** Entries of [extra] that [m] does not have. *)
Definition add_missing (m : gmap string string) (kv : string * string) : gmap string string :=
  match m !! kv.1 with Some _ => m | None => <[kv.1 := kv.2]> m end.

Definition ensureUserContext `{RangeOrder} (ctx : Context) (uc : option UserContext) (claims : option Claims)
    : UserContext * Context :=
  let claimsUC := buildUserContextFromClaims claims in
  let uc :=
    match uc with
    | None => claimsUC
    | Some uc =>
        mkUser (or_else (Web.UserId uc) (Web.UserId claimsUC)) (or_else (Web.Username uc) (Web.Username claimsUC))
          (or_else (Web.Role uc) (Web.Role claimsUC)) (or_else (Web.TenantId uc) (Web.TenantId claimsUC))
          (Department uc) (or_else (Web.Email uc) (Web.Email claimsUC))
          (Some (foldl add_missing (default ∅ (Extra uc))
                   (from_option range_map [] (Extra claimsUC))))
    end in
  (uc, SetUserId (Web.UserId uc) (SetUserContext (Some uc) ctx)).

(** ** Sessions: [session.Get] with the provider it finds, and the user of the
    session.  [None] is an error of [Get], [Some None] one of [UserContext]. *)

Class SessionSource (P : Type) := {
  session_user : Context → Time → P → option (option UserContext) * P
}.

(** The provider of the request, or the default one, if there is any. *)
Definition find_user {P} `{SessionSource P} (ctx : Context) (now : Time) (p : option P)
    : option (option UserContext) * option P :=
  match p with
  | None => (None, None)
  | Some p => let '(r, p) := session_user ctx now p in (r, Some p)
  end.

#[export] Instance memory_source `{JwtLib} (carrier : Session.TokenCarrier) : SessionSource Session.Provider := {|
  session_user ctx now p :=
    match Session.Get carrier ctx now now p with
    | (Ok l, p) => (Some (Session.sess_UserContext l p), p)
    | (Err _, p) => (None, p)
    end
|}.

(** ** The middlewares *)

Record Config := mkConfig { JWTManager : option Options; Extractor : option TokenExtractor }.

Definition extractor (cfg : Config) : TokenExtractor := default BearerExtractor (Extractor cfg).

Inductive Outcome :=
| Abort (status : Z) (code : Z) (msg : string)
| Next (ctx : Context).

Definition respondMisconfigured : Outcome := Abort 500 50001 "认证中间件配置错误".

Definition unauthorized (msg : string) : Outcome := Abort 401 20001 msg.

Section Middleware.
Context `{RangeOrder} `{JwtLib} {P : Type} `{SessionSource P}.

Definition Middleware (cfg : Config) (now : Time) (c : Context) (p : option P) : Outcome * option P :=
  match JWTManager cfg with
  | None => (respondMisconfigured, p)
  | Some manager =>
      let token := extractor cfg c in
      if decide (token = "") then (unauthorized "未提供认证令牌", p)
      else
        match VerifyToken manager now token with
        | Err _ => (unauthorized "令牌无效或已过期", p)
        | Ok claims =>
            match find_user c now p with
            | (None, p) => (Next (ensureUserContext c None (Some claims)).2, p)
            | (Some None, p) => (Next (ensureUserContext c None (Some claims)).2, p)
            | (Some (Some uc), p) => (Next (ensureUserContext c (Some uc) (Some claims)).2, p)
            end
        end
  end.

(** A header for the service behind the gateway, and for the client. *)
Definition pass_header (name v : string) (c : Context) : Context :=
  WriteHeader name v (SetRequestHeader name v c).

Definition pass_if (name v : string) (c : Context) : Context :=
  if decide (v = "") then c else pass_header name v c.

Definition GatewayMiddleware (cfg : Config) (now : Time) (c : Context) (p : option P) : Outcome * option P :=
  match JWTManager cfg with
  | None => (respondMisconfigured, p)
  | Some manager =>
      let token := extractor cfg c in
      if decide (token = "") then (unauthorized "未提供认证令牌", p)
      else
        match VerifyToken manager now token with
        | Err _ => (unauthorized "令牌无效或已过期", p)
        | Ok claims =>
            let '(r, p) := find_user c now p in
            let '(uc, c) := ensureUserContext c (mjoin r) (Some claims) in
            let c := pass_header "X-User-ID" (Web.UserId uc) c in
            let c := pass_if "X-User-Role" (Web.Role uc) c in
            let c := pass_if "X-Tenant-ID" (Web.TenantId uc) c in
            let c := pass_if "X-Username" (Web.Username uc) c in
            let c := pass_if "X-User-Email" (Web.Email uc) c in
            (Next c, p)
        end
  end.

Definition OptionalMiddleware (cfg : Config) (now : Time) (c : Context) (p : option P) : Outcome * option P :=
  match JWTManager cfg with
  | None => (Next c, p)
  | Some manager =>
      let token := extractor cfg c in
      if decide (token = "") then (Next c, p)
      else
        match VerifyToken manager now token with
        | Err _ => (Next c, p)
        | Ok claims =>
            let '(r, p) := find_user c now p in
            match r with
            | Some (Some uc) => (Next (ensureUserContext c (Some uc) (Some claims)).2, p)
            | _ => (Next (ensureUserContext c None (Some claims)).2, p)
            end
        end
  end.

(** ** Specification-side definitions *)

(** The claims a request proves: the manager, the token and its verification. *)
Definition proven (cfg : Config) (now : Time) (c : Context) : option Claims :=
  manager ← JWTManager cfg;
  let token := extractor cfg c in
  if decide (token = "") then None
  else match VerifyToken manager now token with Ok claims => Some claims | Err _ => None end.

(** A field of the claims or, failing that, the entry of their data. *)
Definition claim_or_data (field : string) (key : string) (c : Claims) : string :=
  or_else field (default "" (Data c !! key)).

(** The data keys that name fields. *)
Definition named_keys : list string := ["tenant_id"; "role"; "username"; "email"].

(** The user a request is passed on as: session first, then claims. *)
Definition user_of (uc : option UserContext) (c : Claims) : UserContext :=
  let claims_extra := filter (λ kv, kv.1 ∉ named_keys) (Data c) in
  let u := default empty_user uc in
  mkUser (or_else (Web.UserId u) (Jwt.UserId c))
    (or_else (Web.Username u) (claim_or_data (Jwt.Username c) "username" c))
    (or_else (Web.Role u) (claim_or_data (Jwt.Role c) "role" c))
    (or_else (Web.TenantId u) (claim_or_data (Jwt.TenantId c) "tenant_id" c))
    (Department u)
    (or_else (Web.Email u) (claim_or_data (Jwt.Email c) "email" c))
    (Some (default ∅ (Extra u) ∪ claims_extra)).

End Middleware.

(** The client's own role header, and a token that names no role. *)
Definition spoofed (token : string) : Context :=
  request "GET" (<["X-User-Role" := "admin"]> {["Authorization" := ("Bearer " +:+ token)%string]}) ∅ "".

Definition sample_config : Config := mkConfig (Some sample_options) None.

Definition sample_token : string :=
  match generateToken sample_options 0 "a" sample_claims (10 * Second) with Ok s => s | Err _ => "" end.

Definition no_provider : option Session.Provider := None.

#[export] Instance sample_source : SessionSource Session.Provider :=
  memory_source (Session.cookie_carrier (Session.NewCookieCarrier "" [])).

(** ** Lemmas *)

Section Lemmas.
Context `{RangeOrder}.

Lemma or_else_empty s : or_else s "" = s.
Proof. unfold or_else. by case_decide. Qed.

(** One of the named fields, through all entries: [f] reads it, [key] names it. *)
Lemma add_entries_field (f : UserContext → string) key l u :
  (∀ u k v, f (add_entry u (k, v)) = if decide (k = key) then or_else (f u) v else f u) →
  NoDup l.*1 →
  f (foldl add_entry u l) = or_else (f u) (default "" (list_to_map (M := gmap string string) l !! key)).
Proof.
  intros Hf. revert u. induction l as [|[k v] l IH]; intros u Hnd; [by rewrite or_else_empty|].
  rewrite fmap_cons in Hnd. apply NoDup_cons in Hnd as [Hk Hnd]. cbn [foldl]. rewrite IH, Hf by done.
  cbn [list_to_map foldr uncurry fst snd]. case_decide as E.
  - subst k. rewrite lookup_insert_eq, (not_elem_of_list_to_map_1 l key) by done. apply or_else_empty.
  - by rewrite lookup_insert_ne.
Qed.

Lemma add_entries_extra l u m :
  Extra u = Some m → NoDup l.*1 →
  ∃ r, Extra (foldl add_entry u l) = Some r ∧
    ∀ k, r !! k = if decide (k ∈ named_keys) then m !! k
                  else match (list_to_map l : gmap string string) !! k with Some v => Some v | None => m !! k end.
Proof.
  revert u m. induction l as [|[k v] l IH]; intros u m Hu Hnd.
  { exists m. split; [done|]. intros k. by case_decide. }
  rewrite fmap_cons in Hnd. apply NoDup_cons in Hnd as [Hk Hnd]. cbn [foldl].
  assert ((list_to_map l : gmap string string) !! k = None) as Hn by (by apply not_elem_of_list_to_map_1).
  assert (Extra (add_entry u (k, v)) = Some (if decide (k ∈ named_keys) then m else <[k := v]> m)) as Hu'.
  { unfold add_entry, named_keys. rewrite Hu. repeat case_decide; subst; simpl; try done; exfalso; set_solver. }
  destruct (IH _ _ Hu' Hnd) as (r & -> & Hr). exists r. split; [done|]. intros k'. rewrite Hr.
  cbn [list_to_map foldr uncurry fst snd]. destruct (decide (k' = k)) as [->|Hne].
  - rewrite Hn, lookup_insert_eq. case_decide; [done|]. by rewrite lookup_insert_eq.
  - rewrite lookup_insert_ne by done. repeat case_decide; rewrite ?lookup_insert_ne by done; done.
Qed.

Lemma add_missing_all l m : foldl add_missing m l = m ∪ list_to_map l.
Proof.
  revert m. induction l as [|[k v] l IH]; intros m; simpl; [by rewrite (right_id_L ∅ (∪))|].
  rewrite IH. unfold add_missing. simpl. destruct (m !! k) as [x|] eqn:E.
  - apply map_eq. intros k'. rewrite !lookup_union. destruct (decide (k' = k)) as [->|Hne];
      [rewrite E, lookup_insert_eq; by destruct (list_to_map l !! k)|by rewrite lookup_insert_ne].
  - by rewrite <- insert_union_l, <- insert_union_r.
Qed.

Lemma add_entries_other (f : UserContext → string) l u :
  (∀ u kv, f (add_entry u kv) = f u) → f (foldl add_entry u l) = f u.
Proof. intros Hf. revert u. induction l as [|kv l IH]; intros u; [done|]. cbn [foldl]. by rewrite IH, Hf. Qed.

Lemma user_eta u :
  u = mkUser (Web.UserId u) (Web.Username u) (Web.Role u) (Web.TenantId u) (Department u) (Web.Email u) (Extra u).
Proof. by destruct u. Qed.

Ltac entry_field :=
  intros u k v; unfold add_entry, or_else; repeat case_decide; subst; done.

Lemma buildUserContext_spec c : buildUserContextFromClaims (Some c) = user_of None c.
Proof.
  unfold buildUserContextFromClaims. pose proof (NoDup_fst_range_map (Data c)) as Hnd.
  set (u0 := mkUser _ _ _ _ _ _ _).
  destruct (add_entries_extra (range_map (Data c)) u0 ∅ eq_refl Hnd) as (r & Hr & Hlr).
  rewrite (user_eta (foldl _ _ _)), Hr.
  rewrite (add_entries_other Web.UserId), (add_entries_other Department)
    by (intros u [k v]; unfold add_entry; repeat case_decide; done).
  rewrite (add_entries_field Web.Username "username"), (add_entries_field Web.Role "role"),
    (add_entries_field Web.TenantId "tenant_id"), (add_entries_field Web.Email "email") by (done || entry_field).
  rewrite list_to_map_range in *. unfold user_of, claim_or_data. simpl. f_equal.
  f_equal. rewrite (left_id_L ∅ (∪)). apply map_eq. intros k. rewrite Hlr.
  destruct (decide (k ∈ named_keys)) as [Hk|Hk].
  - symmetry. apply map_lookup_filter_None_2. right. intros x _ Hn. by apply Hn.
  - rewrite lookup_empty. destruct (Data c !! k) as [v|] eqn:E; symmetry.
    + by apply map_lookup_filter_Some_2.
    + apply map_lookup_filter_None_2. by left.
Qed.

(** The user passed on does not depend on the order of the claims' data. *)
Lemma ensureUserContext_spec ctx uc c :
  ensureUserContext ctx uc (Some c) =
    (user_of uc c, SetUserId (Web.UserId (user_of uc c)) (SetUserContext (Some (user_of uc c)) ctx)).
Proof.
  unfold ensureUserContext. rewrite buildUserContext_spec. destruct uc as [u|]; [|done].
  assert (mkUser (or_else (Web.UserId u) (Web.UserId (user_of None c)))
    (or_else (Web.Username u) (Web.Username (user_of None c)))
    (or_else (Web.Role u) (Web.Role (user_of None c)))
    (or_else (Web.TenantId u) (Web.TenantId (user_of None c))) (Department u)
    (or_else (Web.Email u) (Web.Email (user_of None c)))
    (Some (foldl add_missing (default ∅ (Extra u)) (from_option range_map [] (Extra (user_of None c)))))
    = user_of (Some u) c) as ->; [|done].
  unfold user_of. simpl. f_equal. f_equal.
  rewrite add_missing_all, list_to_map_range. by rewrite (left_id_L ∅ (∪)).
Qed.

Lemma UserIdOf_ensure ctx uc c : UserContextOf (ensureUserContext ctx uc (Some c)).2 = Some (user_of uc c).
Proof. by rewrite ensureUserContext_spec. Qed.

End Lemmas.

(** What the service behind the gateway reads.  The gateway sets the user's
    identifier always and the role, tenant, name and address where the user has
    them; where the user has none, the header that the client sent itself goes
    through; every other header goes through unchanged. *)
Lemma gateway_headers `{RangeOrder} `{JwtLib} {P} `{SessionSource P} cfg now (c : Context) (p : option P) claims :
  proven cfg now c = Some claims →
  let u := user_of (mjoin (find_user c now p).1) claims in
  let given := [("X-User-Role", Web.Role u); ("X-Tenant-ID", Web.TenantId u);
                ("X-Username", Web.Username u); ("X-User-Email", Web.Email u)] in
  ∃ c' p', GatewayMiddleware cfg now c p = (Next c', p') ∧
    GetHeader "X-User-ID" c' = Web.UserId u ∧
    (∀ name v, (name, v) ∈ given → GetHeader name c' = or_else v (GetHeader name c)) ∧
    (∀ name, name ≠ "X-User-ID" → name ∉ given.*1 → GetHeader name c' = GetHeader name c).
Proof.
  unfold proven, GatewayMiddleware. destruct (JWTManager cfg) as [manager|]; cbn [mbind option_bind]; [|done].
  case_decide; [done|]. destruct (VerifyToken _ _ _) as [cl|]; [|done]. intros [= ->].
  destruct (find_user c now p) as [r p']. cbn [fst]. rewrite ensureUserContext_spec.
  set (u := user_of (mjoin r) claims). eexists _, _. split; [reflexivity|].
  assert (∀ name n v c0, GetHeader name (pass_if n v c0) =
            if decide (name = n) then or_else v (GetHeader name c0) else GetHeader name c0) as Hif.
  { intros name n v c0. unfold pass_if, or_else, GetHeader. repeat case_decide; subst; try done; simpl.
    - by rewrite lookup_insert_eq.
    - by rewrite lookup_insert_ne. }
  assert (∀ name v c0, GetHeader name (pass_header "X-User-ID" v c0) =
            if decide (name = "X-User-ID") then v else GetHeader name c0) as Hh.
  { intros name v c0. unfold GetHeader. simpl. case_decide as E; [by rewrite E, lookup_insert_eq|by rewrite lookup_insert_ne]. }
  split; [|split].
  - by rewrite !Hif, Hh.
  - intros name v. rewrite !elem_of_cons, elem_of_nil. rewrite !Hif, Hh.
    intros [[= -> ->]|[[= -> ->]|[[= -> ->]|[[= -> ->]|[]]]]]; done.
  - intros name Hn Hg. cbn in Hg. rewrite !Hif, Hh. rewrite !decide_False by set_solver. done.
Qed.

(** ** Properties *)

(** C37. Who gets through, and as whom.  Each middleware passes a request on with
    a user exactly when its token verifies; the user is the session's where
    the session says something and the verified claims' elsewhere, whatever
    order the claims' data is visited in.  Without a verified token the strict
    middlewares answer the request themselves, and the optional one passes it
    on as it came. *)
Theorem authentication_gate `{RangeOrder} `{JwtLib} {P} `{SessionSource P} cfg now (c : Context) (p : option P) :
  let user := mjoin (find_user c now p).1 in
  match proven cfg now c with
  | Some claims =>
      ∃ c1 c2,
        Middleware cfg now c p = (Next c1, (find_user c now p).2) ∧
        OptionalMiddleware cfg now c p = (Next c1, (find_user c now p).2) ∧
        GatewayMiddleware cfg now c p = (Next c2, (find_user c now p).2) ∧
        UserContextOf c1 = Some (user_of user claims) ∧ UserContextOf c2 = Some (user_of user claims) ∧
        UserIdOf c1 = or_else (Web.UserId (default empty_user user)) (Jwt.UserId claims) ∧
        UserIdOf c2 = UserIdOf c1
  | None =>
      OptionalMiddleware cfg now c p = (Next c, p) ∧
      ∃ status code msg, 401 ≤ status ∧
        Middleware cfg now c p = (Abort status code msg, p) ∧
        GatewayMiddleware cfg now c p = (Abort status code msg, p)
  end.
Proof.
  unfold proven, Middleware, OptionalMiddleware, GatewayMiddleware.
  destruct (JWTManager cfg) as [manager|]; cbn [mbind option_bind];
    [|split; [done|]; do 3 eexists; split_and!; [|reflexivity..]; lia].
  case_decide; [split; [done|]; do 3 eexists; split_and!; [|reflexivity..]; lia|].
  destruct (VerifyToken manager now (extractor cfg c)) as [claims|e];
    [|split; [done|]; do 3 eexists; split_and!; [|reflexivity..]; lia].
  destruct (find_user c now p) as [r p']. cbn [fst snd].
  assert (∀ uc, ∃ c1 c2,
    (ensureUserContext c uc (Some claims)).2 = c1 ∧
    (let '(u, c) := ensureUserContext c uc (Some claims) in
     pass_if "X-User-Email" (Web.Email u) (pass_if "X-Username" (Web.Username u)
       (pass_if "X-Tenant-ID" (Web.TenantId u) (pass_if "X-User-Role" (Web.Role u)
         (pass_header "X-User-ID" (Web.UserId u) c))))) = c2 ∧
    UserContextOf c1 = Some (user_of uc claims) ∧ UserContextOf c2 = Some (user_of uc claims)) as Hall.
  { intros uc. rewrite ensureUserContext_spec. eexists _, _. split_and!; [done..|].
    unfold pass_if. by repeat case_decide. }
  destruct (Hall (mjoin r)) as (c1 & c2 & E1 & E2 & U1 & U2). exists c1, c2.
  assert (UserIdOf c1 = or_else (Web.UserId (default empty_user (mjoin r))) (Jwt.UserId claims)) as I1
    by (unfold UserIdOf; by rewrite U1).
  assert (UserIdOf c2 = UserIdOf c1) as I2 by (unfold UserIdOf; by rewrite U1, U2).
  split_and!; try done.
  - by destruct r as [[uc|]|]; rewrite <- E1.
  - by destruct r as [[uc|]|]; rewrite <- E1.
  - destruct (ensureUserContext c (mjoin r) (Some claims)) as [u c']. by rewrite <- E2.
Qed.

End Auth.
