(* ===== verification/Trace.v ===== *)
(** * Passing the request's identity between services (src/middlewares/trace)

    A service writes the trace id and the user of its request into the headers
    of the requests it makes; the next service's middleware reads them back.
    The gateway of [Auth] is one such writer. *)

From S2P Require Import Prelude Jwt Web Auth.
Import Jwt Web.

Module Trace.

Definition HeaderTraceID : string := "X-Trace-ID".

Definition HeaderUserID : string := "X-User-ID".

Definition HeaderUserRole : string := "X-User-Role".

Definition HeaderTenantID : string := "X-Tenant-ID".

Definition HeaderUsername : string := "X-Username".

Definition HeaderEmail : string := "X-Email".

(** [uuid] is the fresh identifier, used when the request names none. *)
Definition Middleware (uuid : string) (c : Context) : Context :=
  let traceID := GetHeader HeaderTraceID c in
  let traceID := if decide (traceID = "") then uuid else traceID in
  let ctx := WriteHeader HeaderTraceID traceID (SetTraceId traceID c) in
  let userID := GetHeader HeaderUserID ctx in
  if decide (userID ≠ "") then
    SetUserContext
      (Some (mkUser userID (GetHeader HeaderUsername ctx) (GetHeader HeaderUserRole ctx)
               (GetHeader HeaderTenantID ctx) "" (GetHeader HeaderEmail ctx) None)) ctx
  else ctx.

(** The headers of a request being made. *)
Abbreviation Headers := (gmap string string) (only parsing).

Definition set_if (name v : string) (hs : Headers) : Headers := if decide (v ≠ "") then <[name := v]> hs else hs.

Definition inject_user (uc : UserContext) (hs : Headers) : Headers :=
  let hs := <[HeaderUserID := UserId uc]> hs in
  let hs := set_if HeaderUserRole (Role uc) hs in
  let hs := set_if HeaderTenantID (TenantId uc) hs in
  let hs := set_if HeaderUsername (Username uc) hs in
  set_if HeaderEmail (Email uc) hs.

Definition inject (traceID : string) (uc : option UserContext) (hs : Headers) : Headers :=
  let hs := set_if HeaderTraceID traceID hs in
  match uc with
  | Some u => if IsEmpty uc then hs else inject_user u hs
  | None => hs
  end.

(** The transport's getters are optional; [None] is a nil function. *)
Record Transport (Req : Type) := mkTransport {
  GetTraceID : option (Req → string);
  GetUserContext : option (Req → option UserContext)
}.
Arguments mkTransport {Req}.
Arguments GetTraceID {Req}.
Arguments GetUserContext {Req}.

(** The headers the base transport sends. *)
Definition RoundTrip {Req} (t : Transport Req) (r : Req) (hs : Headers) : Headers :=
  inject (from_option (λ get, get r) "" (GetTraceID t)) (GetUserContext t ≫= λ get, get r) hs.

Definition NewClient {Req} : Transport Req := mkTransport None None.

Definition InjectGctx (ctx : Context) (hs : Headers) : Headers := inject (TraceId ctx) (UserContextOf ctx) hs.

Definition InjectContext (c : Context) (hs : Headers) : Headers := InjectGctx c hs.

(** [parse] is [http.NewRequest]: it may refuse the method or the URL. *)
Definition NewRequestWithContext (parse : string → string → option Headers) (ctx : Context) (method url : string)
    : option Headers :=
  InjectGctx ctx <$> parse method url.

(** The headers the client sends. *)
Definition DoWithContext (ctx : Context) (hs : Headers) : Headers := InjectGctx ctx hs.

(** ** What the theorems speak of *)

(** The part of a user that travels. *)
Definition travels (u : UserContext) : UserContext :=
  mkUser (UserId u) (Username u) (Role u) (TenantId u) "" (Email u) None.

Definition identity_headers : list string :=
  [HeaderTraceID; HeaderUserID; HeaderUserRole; HeaderTenantID; HeaderUsername; HeaderEmail].

#[local] Existing Instance Auth.sample_source.

(** ** Lemmas *)

Lemma lookup_set_if name v hs n :
  set_if name v hs !! n = if decide (n = name ∧ v ≠ "") then Some v else hs !! n.
Proof.
  unfold set_if. repeat case_decide; try tauto; subst.
  - destruct H0 as [-> _]. by rewrite lookup_insert_eq.
  - rewrite lookup_insert_ne; [done|]. intros <-. tauto.
Qed.

(** Reading a header after one was set. *)
Lemma header_set_if name v hs n :
  default "" (set_if name v hs !! n) =
    if decide (n = name) then (if decide (v = "") then default "" (hs !! n) else v) else default "" (hs !! n).
Proof. rewrite lookup_set_if. repeat case_decide; naive_solver. Qed.

Lemma header_insert name v (hs : Headers) n :
  default "" (<[name := v]> hs !! n) = if decide (n = name) then v else default "" (hs !! n).
Proof. case_decide as E; [by rewrite E, lookup_insert_eq|by rewrite lookup_insert_ne]. Qed.

(** What the middleware makes of a request's headers. *)
Lemma Middleware_reads uuid m hs cs ip :
  let d := Middleware uuid (request m hs cs ip) in
  let h n := default "" (hs !! n) in
  TraceId d = (if decide (h HeaderTraceID = "") then uuid else h HeaderTraceID) ∧
  UserContextOf d =
    if decide (h HeaderUserID = "") then None
    else Some (mkUser (h HeaderUserID) (h HeaderUsername) (h HeaderUserRole) (h HeaderTenantID) "" (h HeaderEmail) None).
Proof.
  intros d h. subst d. unfold Middleware.
  change (GetHeader HeaderTraceID (request m hs cs ip)) with (h HeaderTraceID).
  set (ctx := WriteHeader _ _ _).
  assert (∀ n, GetHeader n ctx = h n) as Hh by done. rewrite !Hh.
  destruct (decide (h HeaderUserID = "")) as [E|E].
  - by rewrite decide_False by (intros H; by apply H).
  - by rewrite decide_True.
Qed.

(** The headers that [inject] leaves, where none of its own was there before. *)
Lemma header_inject traceID u hs n :
  (∀ n, n ∈ identity_headers → hs !! n = None) → UserId u ≠ "" →
  default "" (inject traceID (Some u) hs !! n) =
    if decide (n = HeaderTraceID) then traceID
    else if decide (n = HeaderUserID) then UserId u
    else if decide (n = HeaderUserRole) then Role u
    else if decide (n = HeaderTenantID) then TenantId u
    else if decide (n = HeaderUsername) then Username u
    else if decide (n = HeaderEmail) then Email u
    else default "" (hs !! n).
Proof.
  intros Hfree Hu. unfold inject. replace (IsEmpty (Some u)) with false
    by (symmetry; by apply bool_decide_eq_false_2).
  unfold inject_user. rewrite !header_set_if, header_insert, header_set_if.
  assert (∀ m, m ∈ identity_headers → default "" (hs !! m) = "") as Hf by (intros m Hm; by rewrite Hfree).
  repeat case_decide; simplify_eq; try done; try (rewrite Hf by set_solver; done).
Qed.

(** The six headers a next service reads. *)
Lemma inject_reads traceID u hs :
  (∀ n, n ∈ identity_headers → hs !! n = None) → UserId u ≠ "" →
  let h n := default "" (inject traceID (Some u) hs !! n) in
  h HeaderTraceID = traceID ∧ h HeaderUserID = UserId u ∧ h HeaderUserRole = Role u ∧
  h HeaderTenantID = TenantId u ∧ h HeaderUsername = Username u ∧ h HeaderEmail = Email u.
Proof. intros Hfree Hu h. subst h. cbv beta. split_and!; rewrite header_inject by done; reflexivity. Qed.

(** What the next service makes of an injected identity. *)
Lemma inject_travels (ctx : Context) (hs : Headers) uuid m cs ip :
  (∀ n, n ∈ identity_headers → hs !! n = None) →
  let d := Middleware uuid (request m (InjectGctx ctx hs) cs ip) in
  TraceId d = (if decide (TraceId ctx = "") then uuid else TraceId ctx) ∧
  UserContextOf d = (if IsEmpty (UserContextOf ctx) then None else travels <$> UserContextOf ctx).
Proof.
  intros Hfree d.
  assert (∀ n, n ∈ identity_headers → default "" (hs !! n) = "") as Hf by (intros n Hn; by rewrite Hfree).
  assert (default "" (set_if HeaderTraceID (TraceId ctx) hs !! HeaderTraceID) = TraceId ctx) as Et.
  { rewrite header_set_if, decide_True by done. case_decide as E; [by rewrite E, Hf by set_solver|done]. }
  assert (default "" (set_if HeaderTraceID (TraceId ctx) hs !! HeaderUserID) = "") as Ei.
  { rewrite header_set_if, decide_False by done. apply Hf. set_solver. }
  destruct (Middleware_reads uuid m (InjectGctx ctx hs) cs ip) as [Ht Hu]. fold d in Ht, Hu.
  rewrite Ht, Hu. unfold InjectGctx.
  destruct (UserContextOf ctx) as [u|] eqn:Eu.
  - destruct (decide (UserId u = "")) as [E|E].
    + unfold inject. replace (IsEmpty (Some u)) with true by (symmetry; by apply bool_decide_eq_true_2).
      rewrite Et, Ei. by rewrite (decide_True (P := "" = "")).
    + destruct (inject_reads (TraceId ctx) u hs Hfree E) as (-> & -> & -> & -> & -> & ->).
      replace (IsEmpty (Some u)) with false by (symmetry; by apply bool_decide_eq_false_2).
      by rewrite (decide_False (P := UserId u = "")) by done.
  - unfold inject. rewrite Et, Ei. by rewrite (decide_True (P := "" = "")).
Qed.

(** ** Properties *)

(** The identity travels.  A request made with the context of a request, and
    carrying no identity header of its own, gives the next service the same
    trace id (or a fresh one if there was none) and the same user, as far as the
    headers can tell: identifier, name, role, tenant and address.  Without an
    identified user the next service sees none.  The headers come out alike
    through a transport whose getters return the context's trace id and user. *)
Theorem identity_travels (ctx : Context) (hs : gmap string string) uuid m cs ip :
  (∀ n, n ∈ identity_headers → hs !! n = None) →
  let d := Middleware uuid (request m (InjectGctx ctx hs) cs ip) in
  TraceId d = (if decide (TraceId ctx = "") then uuid else TraceId ctx) ∧
  UserContextOf d = (if IsEmpty (UserContextOf ctx) then None else travels <$> UserContextOf ctx) ∧
  RoundTrip (mkTransport (Some TraceId) (Some UserContextOf)) ctx hs = InjectGctx ctx hs.
Proof. intros Hfree d. destruct (inject_travels ctx hs uuid m cs ip Hfree) as [Ht Hu]. by split_and!. Qed.

Lemma identity_travels_witness :
  let u := mkUser "7" "ann" "admin" "t" "dev" "a@b" None in
  let ctx := SetUserContext (Some u) (SetTraceId "t1" (request "GET" ∅ ∅ "")) in
  let d := Middleware "fresh" (request "GET" (InjectGctx ctx ∅) ∅ "") in
  TraceId d = "t1" ∧ UserContextOf d = Some (mkUser "7" "ann" "admin" "t" "" "a@b" None).
Proof.
  intros u ctx. destruct (identity_travels ctx ∅ "fresh" "GET" ∅ "") as (Ht & Hu & _); [done|].
  split; [exact Ht|exact Hu].
Defined.

(** C20. From the gateway to the service.  Behind the gateway of [Auth], a service
    with this middleware sees the verified user's identifier, and the role,
    tenant and name that the user has; one that the user lacks is what the client
    wrote into the header itself, and the address always is, because the two
    packages name its header differently. *)
Theorem gateway_to_service `{RangeOrder} `{JwtLib} {P} `{Auth.SessionSource P} cfg now (c : Context) (p : option P)
    claims uuid m cs ip :
  Auth.proven cfg now c = Some claims →
  let u := Auth.user_of (mjoin (Auth.find_user c now p).1) claims in
  Web.UserId u ≠ "" →
  ∃ c' p', Auth.GatewayMiddleware cfg now c p = (Auth.Next c', p') ∧
    UserContextOf (Middleware uuid (request m (request_headers c') cs ip)) =
      Some (mkUser (Web.UserId u)
              (Auth.or_else (Web.Username u) (GetHeader "X-Username" c))
              (Auth.or_else (Web.Role u) (GetHeader "X-User-Role" c))
              (Auth.or_else (Web.TenantId u) (GetHeader "X-Tenant-ID" c)) ""
              (GetHeader "X-Email" c) None).
Proof.
  intros Hp u Hu. destruct (Auth.gateway_headers cfg now c p claims Hp) as (c' & p' & Hg & Hid & Hgiven & Hrest).
  fold u in Hid, Hgiven, Hrest. exists c', p'. split; [done|].
  destruct (Middleware_reads uuid m (request_headers c') cs ip) as [_ ->].
  change (default "" (request_headers c' !! ?n)) with (GetHeader n c').
  change HeaderUserID with "X-User-ID". rewrite Hid, decide_False by done.
  change HeaderUsername with "X-Username". change HeaderUserRole with "X-User-Role".
  change HeaderTenantID with "X-Tenant-ID". change HeaderEmail with "X-Email".
  rewrite (Hgiven "X-Username" (Web.Username u)) by set_solver.
  rewrite (Hgiven "X-User-Role" (Web.Role u)) by set_solver.
  rewrite (Hgiven "X-Tenant-ID" (Web.TenantId u)) by set_solver.
  by rewrite (Hrest "X-Email") by set_solver.
Qed.

Lemma gateway_to_service_witness :
  ∃ c' p', Auth.GatewayMiddleware (H := range_first_key_order) Auth.sample_config 0
             (Auth.spoofed Auth.sample_token) Auth.no_provider = (Auth.Next c', p') ∧
    Web.Role <$> UserContextOf (Middleware "" (request "GET" (request_headers c') ∅ "")) = Some "admin".
Proof.
  destruct (gateway_to_service (H := range_first_key_order) Auth.sample_config 0 (Auth.spoofed Auth.sample_token)
    Auth.no_provider (stamped sample_options 0 "a" sample_claims (10 * Second)) "" "GET" ∅ "") as (c' & p' & Hg & Hu);
    [by vm_compute|by vm_compute|].
  exists c', p'. split; [exact Hg|]. rewrite Hu. by vm_compute.
Defined.

(** ** What the code does not promise *)

(** The client that the package itself makes has no getters: it passes nothing on. *)
Lemma new_client_passes_nothing {Req} (r : Req) hs : RoundTrip NewClient r hs = hs.
Proof. done. Qed.

End Trace.
