(* ===== verification/Http.v ===== *)
(** * The HTTP client (src/ghttp/client.go, src/ghttp/transport.go)

    A request is built anew for each attempt and sent until an attempt succeeds
    or the retries are used up.  The exchange with the server is a function of
    the request and of a state of the network; what the client did is a log of
    its sends and sleeps.  Transports by host are a table of [Memo]. *)

From S2P Require Import Prelude Text Jwt Web Auth Trace Memo.

Module Http.
Import Text Web.

(** ** The client *)

(** [client_timeout] is the one of the [http.Client] inside. *)
Record Client := mkClient {
  client_timeout : Duration;
  transport : option nat;
  timeout : Duration;
  maxRetry : Z;
  retryWait : Duration;
  trace : bool
}.

Definition Option := Client → Client.

Definition NewClient (opts : list Option) : Client :=
  foldl (λ c opt, opt c) (mkClient 0 None (30 * Second) 0 (100 * Millisecond) true) opts.

Definition WithTimeout (d : Duration) : Option :=
  λ c, mkClient d (transport c) d (maxRetry c) (retryWait c) (trace c).

Definition WithRetry (n : Z) (wait : list Duration) : Option :=
  λ c, mkClient (client_timeout c) (transport c) (timeout c) n (default (retryWait c) (head wait)) (trace c).

Definition WithTransport (t : nat) : Option :=
  λ c, mkClient (client_timeout c) (Some t) (timeout c) (maxRetry c) (retryWait c) (trace c).

Definition WithTrace (enable : bool) : Option :=
  λ c, mkClient (client_timeout c) (transport c) (timeout c) (maxRetry c) (retryWait c) enable.

(** ** Requests *)

(** A body of type [any]: nil, a byte slice that may be nil, a string, a reader
    with what reading it all gives, or a value for JSON. *)
Inductive Body (V : Type) :=
| NoBody
| Bytes (b : option string)
| Text_ (s : string)
| Reader (r : res unit string)
| Value_ (v : V).
Arguments NoBody {V}. Arguments Bytes {V}. Arguments Text_ {V}. Arguments Reader {V}. Arguments Value_ {V}.

Class JsonBody (V : Type) := { Marshal : V → option string }.

Record Request (V : Type) := mkRequest {
  method : string;
  url : string;
  headers : gmap string string;
  body : Body V;
  gctx : option Context
}.
Arguments mkRequest {V}. Arguments method {V}. Arguments url {V}. Arguments headers {V}.
Arguments body {V}. Arguments gctx {V}.

Section Requests.
Context {V : Type}.

Definition NewRequest (m u : string) : Request V := mkRequest m u ∅ NoBody None.

Definition WithGctx (c : Context) (r : Request V) : Request V := mkRequest (method r) (url r) (headers r) (body r) (Some c).

Definition WithHeader (k v : string) (r : Request V) : Request V :=
  mkRequest (method r) (url r) (<[k := v]> (headers r)) (body r) (gctx r).

Definition WithHeaders (hs : gmap string string) (r : Request V) : Request V :=
  mkRequest (method r) (url r) (hs ∪ headers r) (body r) (gctx r).

Definition WithBody (b : Body V) (r : Request V) : Request V := mkRequest (method r) (url r) (headers r) b (gctx r).

Definition WithJSON (b : Body V) (r : Request V) : Request V :=
  mkRequest (method r) (url r) (<["Content-Type" := "application/json"]> (headers r)) b (gctx r).

End Requests.

(** *** Headers, as [http.Header] spells their names *)

Definition is_token (a : ascii) : bool :=
  let n := nat_of_ascii a in
  ((48 <=? n)%nat && (n <=? 57)%nat) || ((65 <=? n)%nat && (n <=? 90)%nat) || ((97 <=? n)%nat && (n <=? 122)%nat) ||
  existsb (Ascii.eqb a) ["!"; "#"; "$"; "%"; "&"; "'"; "*"; "+"; "-"; "."; "^"; "_"; "`"; "|"; "~"]%char.

Definition upper_ascii (a : ascii) : ascii :=
  let n := nat_of_ascii a in if (97 <=? n)%nat && (n <=? 122)%nat then ascii_of_nat (n - 32) else a.

Fixpoint canonical (up : bool) (s : string) : string :=
  match s with
  | EmptyString => ""
  | String a s => String (if up then upper_ascii a else lower_ascii a) (canonical (Ascii.eqb a "-") s)
  end.

Definition CanonicalHeaderKey (s : string) : string :=
  if forallb is_token (String.list_ascii_of_string s) then canonical true s else s.

Definition Header_Set (k v : string) (hs : gmap string string) : gmap string string := <[CanonicalHeaderKey k := v]> hs.

Definition set_if (k v : string) (hs : gmap string string) : gmap string string :=
  if decide (v ≠ "") then Header_Set k v hs else hs.

Definition injectTrace (ctx : Context) (hs : gmap string string) : gmap string string :=
  let hs := set_if "X-Trace-ID" (TraceId ctx) hs in
  match UserContextOf ctx with
  | None => hs
  | Some uc =>
      if IsEmpty (Some uc) then hs
      else
        let hs := Header_Set "X-User-ID" (UserId uc) hs in
        let hs := set_if "X-User-Role" (Role uc) hs in
        let hs := set_if "X-Tenant-ID" (TenantId uc) hs in
        let hs := set_if "X-Username" (Username uc) hs in
        set_if "X-Email" (Email uc) hs
  end.

(** ** Sending *)

Record HttpRequest := mkHttp { h_method : string; h_url : string; h_headers : gmap string string; h_body : option string }.

Record Response := mkResponse { StatusCode : Z; content : string }.

Inductive Error := ErrBody | ErrRequest | ErrSend | ErrDecode | ErrStatus (text : string).

(** [parse] says whether [http.NewRequestWithContext] takes a method and URL. *)
Class Network (S : Type) := {
  parse : string → string → bool;
  exchange : Client → HttpRequest → S → res Error Response * S
}.

Inductive Action := Sent (r : HttpRequest) (out : res Error Response) | Slept (d : Duration).

(** [(resp, err)]: both nil before the first attempt, both given when a
    response cannot be decoded. *)
Inductive Result := Nothing | Out (o : res Error Response) | Both (resp : Response) (e : Error).

Section Sending.
Context {V S : Type} `{JsonBody V} `{Network S} `{RangeOrder}.

Definition bodyBytes (b : Body V) : res Error (option string) :=
  match b with
  | NoBody => Ok None
  | Bytes b => Ok b
  | Text_ s => Ok (Some s)
  | Reader (Ok s) => Ok (Some s)
  | Reader (Err _) => Err ErrBody
  | Value_ v => match Marshal v with Some s => Ok (Some s) | None => Err ErrBody end
  end.

Definition build (c : Client) (r : Request V) (data : option string) : HttpRequest :=
  let hs := foldl (λ hs kv, Header_Set kv.1 kv.2 hs) ∅ (range_map (headers r)) in
  let hs := match gctx r with Some g => if trace c then injectTrace g hs else hs | None => hs end in
  mkHttp (method r) (url r) hs data.

Definition succeeded (out : res Error Response) : bool :=
  match out with Ok resp => StatusCode resp <? 500 | Err _ => false end.

(** The rounds [i], [i + 1], ... of the loop, [n] of them. *)
Fixpoint attempts (c : Client) (r : Request V) (data : option string) (n : nat) (i : Z) (last : Result) (s : S)
    : Result * list Action * S :=
  match n with
  | O => (last, [], s)
  | Datatypes.S n =>
      if parse (method r) (url r) then
        let req := build c r data in
        let '(out, s) := exchange c req s in
        if succeeded out then (Out out, [Sent req out], s)
        else
          let '(res, log, s) := attempts c r data n (i + 1) (Out out) s in
          (res, Sent req out :: (if i <? maxRetry c then [Slept (retryWait c)] else []) ++ log, s)
      else (Out (Err ErrRequest), [], s)
  end.

Definition Do (c : Client) (r : Request V) (s : S) : Result * list Action * S :=
  match bodyBytes (body r) with
  | Err e => (Out (Err e), [], s)
  | Ok data => attempts c r data (Z.to_nat (maxRetry c + 1)) 0 Nothing s
  end.

(** *** The convenience methods *)

(** The context of a call: plain, or one of gint. *)
Inductive Ctx := Plain | Gin (c : Context).

Definition with_ctx (ctx : Ctx) (r : Request V) : Request V := match ctx with Gin c => WithGctx c r | Plain => r end.

(** With a place for the result the body is decoded by [Decode]; [None] is the
    panic on a response that is nil. *)
Definition finish {T} (Decode : string → option T) (want : bool) (out : Result)
    : option (Result * option T) :=
  match out with
  | Nothing => if want then None else Some (Nothing, None)
  | Out (Err e) | Both _ e => Some (Out (Err e), None)
  | Out (Ok resp) =>
      Some (if want then match Decode (content resp) with
                         | Some t => (Out (Ok resp), Some t)
                         | None => (Both resp ErrDecode, None)
                         end
            else (Out (Ok resp), None))
  end.

Definition call {T} (Decode : string → option T) (m : string) (b : option (Body V)) (c : Client) (ctx : Ctx) (u : string)
    (want : bool) (s : S) : option (Result * option T) * list Action * S :=
  let r := NewRequest m u in
  let r := match b with Some b => WithJSON b r | None => r end in
  let '(out, log, s) := Do c (with_ctx ctx r) s in (finish Decode want out, log, s).

Definition Get {T} (Decode : string → option T) := call Decode "GET" None.

Definition Post {T} (Decode : string → option T) (b : Body V) := call Decode "POST" (Some b).

Definition Put {T} (Decode : string → option T) (b : Body V) := call Decode "PUT" (Some b).

Definition Delete {T} (Decode : string → option T) := call Decode "DELETE" None.

(** The package's functions are those of a client with the defaults. *)
Definition defaultClient : Client := NewClient [].

Definition default_Get {T} (Decode : string → option T) := Get Decode defaultClient.

Definition default_Post {T} (Decode : string → option T) (b : Body V) := Post Decode b defaultClient.

Definition default_Put {T} (Decode : string → option T) (b : Body V) := Put Decode b defaultClient.

Definition default_Delete {T} (Decode : string → option T) := Delete Decode defaultClient.

(** [ParseResponse]. *)
Definition ParseResponse {T} (Decode : string → option T) (out : res Error Response) : res Error T :=
  let? resp := out in
  if 400 <=? StatusCode resp then Err (ErrStatus (content resp))
  else match Decode (content resp) with Some t => Ok t | None => Err ErrDecode end.

End Sending.

(** ** Transports by host *)

Record TransportConfig := mkConfig {
  MaxIdleConnsPerHost : Z;
  MaxConnsPerHost : Z;
  IdleConnTimeout : Duration;
  DialTimeout : Duration;
  ResponseHeaderTimeout : Duration;
  DisableKeepAlives : bool
}.

Definition DefaultTransportConfig : TransportConfig := mkConfig 100 0 (90 * Second) (10 * Second) (30 * Second) false.

Definition positive_or (n d : Z) : Z := if n <=? 0 then d else n.

(** The parts of an [http.Transport] that are set. *)
Record Transport := mkTransport {
  t_MaxIdleConnsPerHost : Z;
  t_MaxConnsPerHost : Z;
  t_IdleConnTimeout : Duration;
  t_ResponseHeaderTimeout : Duration;
  t_DisableKeepAlives : bool
}.

Record TransportPool := mkPool { cfg : TransportConfig; transports : Memo.Memo Transport }.

Definition NewTransportPool (cfg : TransportConfig) : TransportPool :=
  mkPool (mkConfig (positive_or (MaxIdleConnsPerHost cfg) 100) (MaxConnsPerHost cfg)
            (positive_or (IdleConnTimeout cfg) (90 * Second)) (positive_or (DialTimeout cfg) (10 * Second))
            (positive_or (ResponseHeaderTimeout cfg) (30 * Second)) (DisableKeepAlives cfg)) Memo.empty_memo.

Definition newTransport (p : TransportPool) : Transport :=
  let c := cfg p in
  mkTransport (MaxIdleConnsPerHost c) (MaxConnsPerHost c) (IdleConnTimeout c) (ResponseHeaderTimeout c) (DisableKeepAlives c).

Definition pool_Get (p : TransportPool) (host : string) : option nat * TransportPool :=
  let '(l, m) := Memo.Get id (λ _, Some (newTransport p)) host (transports p) in (l, mkPool (cfg p) m).

(** [GetClient]: the transport and timeout of the client made. *)
Definition GetClient (p : TransportPool) (host : string) (d : Duration) : option nat * Duration * TransportPool :=
  let '(l, p) := pool_Get p host in (l, d, p).

(** The process's pool: another configuration is another pool, and the transports in use are left behind. *)
Definition SetGlobalConfig (c : TransportConfig) (_ : TransportPool) : TransportPool := NewTransportPool c.

Definition GlobalPool (p : TransportPool) : TransportPool := p.

(** Gets of several goroutines. *)
Definition pool_step (p : TransportPool)
    : Memo.Event string → Memo.State string Transport → option (Memo.State string Transport * Memo.Reply string) :=
  Memo.step id (λ _, Some (newTransport p)).

(** ** What the theorems speak of *)

(** The first [n] answers of the network to the same request, sent again and again. *)
Fixpoint exchanges {S} `{Network S} (c : Client) (req : HttpRequest) (n : nat) (s : S) : list (res Error Response) * S :=
  match n with
  | O => ([], s)
  | Datatypes.S n =>
      let '(out, s) := exchange c req s in
      let '(outs, s) := exchanges c req n s in
      (out :: outs, s)
  end.

(** What is done for answers that all failed, with more to come. *)
Definition failed_log (c : Client) (req : HttpRequest) (outs : list (res Error Response)) : list Action :=
  flat_map (λ o, [Sent req o; Slept (retryWait c)]) outs.

(** A request's headers by the names the trace package writes. *)
Definition as_spelled (hs : gmap string string) : gmap string string :=
  foldr (λ n m, match hs !! CanonicalHeaderKey n with Some v => <[n := v]> m | None => m end) ∅ Trace.identity_headers.

(** A server that answers from a list, and then refuses. *)
#[local] Instance scripted : Network (list (res Error Response)) := {
  parse _ u := bool_decide (u ≠ "");
  exchange _ _ s := match s with [] => (Err ErrSend, []) | o :: s => (o, s) end
}.

#[local] Existing Instance range_first_key_order.

#[local] Instance no_json : JsonBody unit := { Marshal _ := None }.

(** ** Lemmas *)

Section Sending.
Context {V S : Type} `{JsonBody V} `{Network S} `{RangeOrder}.
Implicit Types (c : Client) (r : Request V) (s : S).

(** One round. *)
Lemma attempts_S c r data n i last s :
  attempts c r data (Datatypes.S n) i last s =
    if parse (method r) (url r) then
      let '(out, s) := exchange c (build c r data) s in
      if succeeded out then (Out out, [Sent (build c r data) out], s)
      else
        let '(res, log, s) := attempts c r data n (i + 1) (Out out) s in
        (res, Sent (build c r data) out :: (if i <? maxRetry c then [Slept (retryWait c)] else []) ++ log, s)
    else (Out (Err ErrRequest), [], s).
Proof. done. Qed.

Lemma attempts_spec c r data n i last s :
  parse (method r) (url r) = true → maxRetry c = i + Z.of_nat n →
  ∃ outs o s',
    attempts c r data (Datatypes.S n) i last s =
      (Out o, failed_log c (build c r data) outs ++ [Sent (build c r data) o], s') ∧
    exchanges c (build c r data) (length (outs ++ [o])) s = (outs ++ [o], s') ∧
    Forall (λ o, succeeded o = false) outs ∧ (length outs ≤ n)%nat ∧
    (succeeded o = true ∨ length outs = n).
Proof.
  intros Hp. revert i last s. induction n as [|n IH]; intros i last s Hn; rewrite attempts_S, Hp;
    destruct (exchange c (build c r data) s) as [o s1] eqn:Ho; destruct (succeeded o) eqn:Hs;
    try (exists [], o, s1; split_and!; [done|cbn; by rewrite Ho|by constructor|simpl; lia|by left]).
  - exists [], o, s1. split_and!; [|cbn; by rewrite Ho|by constructor|simpl; lia|by right].
    cbn [attempts]. by replace (i <? maxRetry c) with false by lia.
  - destruct (IH (i + 1) (Out o) s1) as (outs & o' & s' & Hat & Hex & Hall & Hlen & Hend); [lia|].
    rewrite Hat. replace (i <? maxRetry c) with true by lia. exists (o :: outs), o', s'.
    split_and!; [done| |by constructor|simpl; lia|destruct Hend; [by left|right; simpl; lia]].
    cbn [app length exchanges]. by rewrite Ho, Hex.
Qed.

(** Every request sent is the one built of the arguments. *)
Lemma attempts_sends c r data n i last s req o :
  Sent req o ∈ (attempts c r data n i last s).1.2 → req = build c r data.
Proof.
  revert i last s. induction n as [|n IH]; intros i last s; cbn [attempts]; [by intros ?%elem_of_nil|].
  destruct (parse _ _); [|by intros ?%elem_of_nil]. destruct (exchange _ _ s) as [o1 s1]. destruct (succeeded o1).
  - intros Hin%list_elem_of_singleton. by simplify_eq.
  - destruct (attempts _ _ _ n (i + 1) (Out o1) s1) as [[res log] s2] eqn:Hat. cbn [fst snd].
    intros [?|Hin]%elem_of_cons; [by simplify_eq|]. apply elem_of_app in Hin as [Hin|Hin].
    + destruct (i <? maxRetry c); [|by apply elem_of_nil in Hin]. by apply list_elem_of_singleton in Hin.
    + apply (IH (i + 1) (Out o1) s1). by rewrite Hat.
Qed.

Lemma Do_sends c r s req o :
  Sent req o ∈ (Do c r s).1.2 → ∃ data, bodyBytes (body r) = Ok data ∧ req = build c r data.
Proof.
  unfold Do. destruct (bodyBytes (body r)) as [data|e]; [|by intros ?%elem_of_nil].
  intros Hin%attempts_sends. by exists data.
Qed.

End Sending.

(** *** Headers *)

Lemma as_spelled_lookup hs n :
  as_spelled hs !! n = if decide (n ∈ Trace.identity_headers) then hs !! CanonicalHeaderKey n else None.
Proof.
  unfold as_spelled. induction Trace.identity_headers as [|k l IH].
  { rewrite decide_False by set_solver. apply lookup_empty. }
  cbn [foldr]. destruct (decide (n = k)) as [->|Hne].
  - rewrite decide_True by set_solver. destruct (hs !! CanonicalHeaderKey k) as [v|] eqn:E; [apply lookup_insert_eq|].
    rewrite IH. by case_decide.
  - transitivity (foldr (λ n m, match hs !! CanonicalHeaderKey n with Some v => <[n := v]> m | None => m end)
                    (∅ : gmap string string) l !! n).
    + destruct (hs !! CanonicalHeaderKey k); [by rewrite lookup_insert_ne|done].
    + rewrite IH. repeat case_decide; set_solver.
Qed.

(** Their spellings stay apart. *)
Lemma canonical_identity_inj n k :
  n ∈ Trace.identity_headers → k ∈ Trace.identity_headers → CanonicalHeaderKey n = CanonicalHeaderKey k → n = k.
Proof.
  intros Hn Hk E. unfold Trace.identity_headers in *. set_unfold.
  destruct_or!; subst; first [done|vm_compute in E; discriminate].
Qed.

Lemma as_spelled_set k v hs :
  k ∈ Trace.identity_headers → as_spelled (Header_Set k v hs) = <[k := v]> (as_spelled hs).
Proof.
  intros Hk. apply map_eq. intros n. rewrite as_spelled_lookup. unfold Header_Set.
  destruct (decide (n = k)) as [->|Hne]; [by rewrite decide_True, !lookup_insert_eq by done|].
  rewrite (lookup_insert_ne (as_spelled hs)), as_spelled_lookup by done. case_decide; [|done].
  rewrite lookup_insert_ne; [done|]. intros E. by apply Hne, canonical_identity_inj.
Qed.

Lemma as_spelled_set_if k v hs :
  k ∈ Trace.identity_headers → as_spelled (set_if k v hs) = Trace.set_if k v (as_spelled hs).
Proof. intros Hk. unfold set_if, Trace.set_if. case_decide; [by apply as_spelled_set|done]. Qed.

(** The client writes what the trace package writes. *)
Lemma injectTrace_spelled g hs : as_spelled (injectTrace g hs) = Trace.InjectGctx g (as_spelled hs).
Proof.
  unfold injectTrace, Trace.InjectGctx, Trace.inject. destruct (UserContextOf g) as [u|].
  - destruct (IsEmpty (Some u)).
    + rewrite as_spelled_set_if by set_solver. done.
    + unfold Trace.inject_user. rewrite !as_spelled_set_if, as_spelled_set, as_spelled_set_if by set_solver. done.
  - rewrite as_spelled_set_if by set_solver. done.
Qed.

(** The headers a request carries by hand. *)
Lemma set_headers_lookup (l : list (string * string)) hs k :
  k ∉ CanonicalHeaderKey <$> l.*1 →
  foldl (λ hs kv, Header_Set kv.1 kv.2 hs) hs l !! k = hs !! k.
Proof.
  revert hs. induction l as [|[k' v] l IH]; intros hs Hk; [done|]. cbn [foldl]. rewrite !fmap_cons in Hk.
  apply not_elem_of_cons in Hk as [Hne Hk]. rewrite IH by done. unfold Header_Set. by apply lookup_insert_ne.
Qed.

(** ** Properties *)

(** C23. Requests and retries.  When the body can be read and the method and URL are
    good, the client sends one and the same request, body included, until an
    attempt is answered below 500 or the retries are used up: at most one more
    than the retries; it sleeps once between two attempts and not after the last,
    and gives the last answer, whatever it is.  A body that cannot be read and a
    bad URL give their error with nothing sent; with a negative number of
    retries nothing is sent either, and neither a response nor an error given. *)
Theorem request_retries {V S} `{JsonBody V} `{Network S} `{RangeOrder} (c : Client) (r : Request V) (s : S) :
  match bodyBytes (body r) with
  | Err e => Do c r s = (Out (Err e), [], s)
  | Ok data =>
      if maxRetry c <? 0 then Do c r s = (Nothing, [], s)
      else if parse (method r) (url r) then
        ∃ outs last s',
          Do c r s = (Out last, failed_log c (build c r data) outs ++ [Sent (build c r data) last], s') ∧
          exchanges c (build c r data) (length (outs ++ [last])) s = (outs ++ [last], s') ∧
          Forall (λ o, succeeded o = false) outs ∧ Z.of_nat (length outs) ≤ maxRetry c ∧
          (succeeded last = true ∨ Z.of_nat (length outs) = maxRetry c)
      else Do c r s = (Out (Err ErrRequest), [], s)
  end.
Proof.
  unfold Do. destruct (bodyBytes (body r)) as [data|e]; [|done]. destruct (Z.ltb_spec (maxRetry c) 0) as [Hneg|Hpos].
  { by replace (Z.to_nat (maxRetry c + 1)) with O by lia. }
  replace (Z.to_nat (maxRetry c + 1)) with (Datatypes.S (Z.to_nat (maxRetry c))) by lia.
  destruct (parse (method r) (url r)) eqn:Hp; [|cbn [attempts]; by rewrite Hp].
  destruct (attempts_spec c r data (Z.to_nat (maxRetry c)) 0 Nothing s Hp) as (outs & o & s' & Hat & Hex & Hall & Hlen & Hend);
    [lia|]. exists outs, o, s'. split_and!; [done..|lia|]. destruct Hend; [by left|right; lia].
Qed.

(** The client passes the identity on.  Every request that the client sends with
    tracing on, made with the context of a request and with no identity header
    of its own, gives a next service behind the trace middleware the context's
    trace id (or a fresh one if there is none) and its user, as far as the
    headers carry one; the client writes exactly what the trace package's own
    injection writes. *)
Theorem client_identity_travels {V S} `{JsonBody V} `{Network S} `{RangeOrder} (c : Client) (r : Request V) (g : Context)
    (s : S) req o uuid m cs ip :
  trace c = true → gctx r = Some g →
  (∀ k, is_Some (headers r !! k) → CanonicalHeaderKey k ∉ CanonicalHeaderKey <$> Trace.identity_headers) →
  Sent req o ∈ (Do c r s).1.2 →
  let d := Trace.Middleware uuid (request m (as_spelled (h_headers req)) cs ip) in
  as_spelled (h_headers req) = Trace.InjectGctx g ∅ ∧
  TraceId d = (if decide (TraceId g = "") then uuid else TraceId g) ∧
  UserContextOf d = (if IsEmpty (UserContextOf g) then None else Trace.travels <$> UserContextOf g).
Proof.
  intros Ht Hg Hfree (data & _ & ->)%Do_sends d.
  assert (as_spelled (h_headers (build c r data)) = Trace.InjectGctx g ∅) as E.
  { unfold build. cbn [h_headers]. rewrite Hg, Ht, injectTrace_spelled. f_equal. apply map_eq. intros n.
    rewrite as_spelled_lookup, lookup_empty. case_decide as Hn; [|done]. rewrite set_headers_lookup; [apply lookup_empty|].
    intros (k & Ek & Hk)%list_elem_of_fmap. apply (Hfree k); [|rewrite <- Ek; by apply list_elem_of_fmap_2].
    apply list_elem_of_fmap in Hk as ([k' v] & -> & Hkv). exists v.
    by apply elem_of_range_map. }
  subst d. rewrite E. split; [done|]. apply Trace.inject_travels. intros n _. apply lookup_empty.
Qed.

Definition sample_context : Context :=
  SetUserContext (Some (mkUser "7" "ann" "admin" "" "dev" "" None)) (SetTraceId "t1" (request "GET" ∅ ∅ "")).

(** A retry after an answer of 503. *)
Lemma client_identity_travels_witness :
  let r : Request unit := WithJSON (Text_ "{}") (WithGctx sample_context (NewRequest "POST" "/a")) in
  let c := NewClient [WithRetry 2 []] in
  let sent := build c r (Some "{}") in
  let answers : list (res Error Response) := [Ok (mkResponse 503 ""); Ok (mkResponse 200 "ok")] in
  let out := Do c r answers in
  let d := Trace.Middleware "fresh" (request "POST" (as_spelled (h_headers sent)) ∅ "") in
  out = (Out (Ok (mkResponse 200 "ok")),
         [Sent sent (Ok (mkResponse 503 "")); Slept (100 * Millisecond); Sent sent (Ok (mkResponse 200 "ok"))], []) ∧
  TraceId d = "t1" ∧ UserContextOf d = Some (mkUser "7" "ann" "admin" "" "" "" None).
Proof.
  intros r c sent answers out. subst out. split; [vm_compute; reflexivity|].
  destruct (client_identity_travels c r sample_context
    answers sent (Ok (mkResponse 503 "")) "fresh" "POST" ∅ "") as (_ & Ht & Hu).
  - done.
  - done.
  - intros k Hk. unfold r in Hk. cbn [headers WithJSON WithGctx NewRequest] in Hk.
    rewrite insert_empty, lookup_singleton_is_Some in Hk. subst k. vm_compute. set_solver.
  - vm_compute. apply list_elem_of_here.
  - split; [exact Ht|exact Hu].
Defined.

(** ** Transports *)

(** Gets from any number of goroutines: one transport for a host, made of the
    pool's configuration. *)
Lemma pool_one_transport p evs s rs :
  run_steps (pool_step p) evs (Memo.mkState Memo.empty_memo []) = Some (s, rs) → Memo.EClear ∉ evs →
  ∀ host l, Memo.Got host l ∈ rs →
    Memo.objects (Memo.memo s) !! l = Some (newTransport p) ∧ ∀ l', Memo.Got host l' ∈ rs → l = l'.
Proof.
  intros Hrun Hc host l Hl.
  destruct (Memo.run_transparent id (λ _, Some (newTransport p)) (λ _, True) evs s rs) as (Hgot & _ & Hsame).
  - by intros.
  - apply along_intro. by intros ? [].
  - done.
  - destruct (Hgot _ _ Hl) as (v & [= <-] & Hv). split; [done|]. intros l'. by apply Hsame.
Qed.

(** ** What the code does not promise *)

(** The default timeout is kept beside the client inside, not given to it. *)
Lemma default_timeout_not_set opts :
  Forall (λ o, ∃ n w t b, o = WithRetry n w ∨ o = WithTransport t ∨ o = WithTrace b) opts →
  client_timeout (NewClient opts) = 0.
Proof.
  unfold NewClient. intros Hopts. set (c0 := mkClient _ _ _ _ _ _).
  assert (client_timeout c0 = 0) as H0 by done. revert H0. generalize c0. clear c0.
  induction Hopts as [|o opts (n & w & t & b & Ho) _ IH]; intros c Hc; [done|]. cbn [foldl]. apply IH.
  by destruct Ho as [->|[->| ->]].
Qed.

(** With a negative number of retries a call that wants a result panics. *)
Lemma negative_retries_panic {V S T} `{JsonBody V} `{Network S} `{RangeOrder} (Decode : string → option T) (c : Client) ctx u (s : S) :
  maxRetry c < 0 → Get (V := V) Decode c ctx u true s = (None, [], s).
Proof.
  intros Hn. unfold Get, call, Do, with_ctx. replace (Z.to_nat (maxRetry c + 1)) with O by lia. by destruct ctx.
Qed.

(** No pool passes its dial timeout on. *)
Lemma dial_timeout_unused a b d d' e f g :
  newTransport (NewTransportPool (mkConfig a b e d f g)) = newTransport (NewTransportPool (mkConfig a b e d' f g)).
Proof. done. Qed.

End Http.
