(* ===== verification/Grpc.v ===== *)
(** * Calls over gRPC (src/requestctx/context.go, src/grpcclient/client.go,
      src/grpclog/interceptor.go)

    A service keeps the identity of the request it serves in its context.  Its
    client interceptor writes the identity into the metadata of the calls it
    makes, and the next service's interceptor reads it back, hands it to the
    handler in the context, and logs the call.  Metadata is a map from keys in
    lower case to values, as the metadata package gives it; how gRPC carries it
    is a type class. *)

From stdpp Require Import pretty.
From S2P Require Import Prelude Text.

Module Grpc.
Import Text.

Abbreviation MD := (gmap string (list string)) (only parsing).

(** ** The request's identity (requestctx) *)

Record Meta := mkMeta {
  TenantID : string;
  UserID : string;
  UserName : string;
  UserType : string;
  RequestID : string;
  TraceID : string;
  SourceService : string;
  ClientIP : string;
  PeerAddr : string;
  UserAgent : string;
  HasAuthorization : bool;
  DeadlineUnixMS : Z;
  MetadataKeys : list string;
  Metadata : gmap string string
}.

Definition zero_meta : Meta := mkMeta "" "" "" "" "" "" "" "" "" "" false 0 [] ∅.

(** What the packages store in, and read of, a [context.Context]. *)
Record Ctx := mkCtx {
  request_meta : option Meta;
  outgoing : option MD;
  incoming : option MD;
  deadline : option Time;
  peer : option string
}.

Definition WithMeta (ctx : Ctx) (meta : Meta) : Ctx :=
  mkCtx (Some meta) (outgoing ctx) (incoming ctx) (deadline ctx) (peer ctx).

(** A nil context is allowed. *)
Definition FromContext (ctx : option Ctx) : Meta := default zero_meta (ctx ≫= request_meta).

Definition ctx_TenantID (ctx : option Ctx) : string := TrimSpace (TenantID (FromContext ctx)).

Definition ctx_UserID (ctx : option Ctx) : string := TrimSpace (UserID (FromContext ctx)).

Definition ctx_UserName (ctx : option Ctx) : string := TrimSpace (UserName (FromContext ctx)).

Definition ctx_UserType (ctx : option Ctx) : string := TrimSpace (UserType (FromContext ctx)).

Definition ctx_RequestID (ctx : option Ctx) : string := TrimSpace (RequestID (FromContext ctx)).

Definition ctx_TraceID (ctx : option Ctx) : string := TrimSpace (TraceID (FromContext ctx)).

Definition ctx_SourceService (ctx : option Ctx) : string := TrimSpace (SourceService (FromContext ctx)).

Definition or_trimmed (value fallback : string) : string := if decide (value ≠ "") then value else TrimSpace fallback.

Definition UserIDOr (ctx : option Ctx) (fallback : string) : string := or_trimmed (ctx_UserID ctx) fallback.

Definition TenantIDOr (ctx : option Ctx) (fallback : string) : string := or_trimmed (ctx_TenantID ctx) fallback.

Definition RequestIDOr (ctx : option Ctx) (fallback : string) : string := or_trimmed (ctx_RequestID ctx) fallback.

Definition TraceIDOr (ctx : option Ctx) (fallback : string) : string := or_trimmed (ctx_TraceID ctx) fallback.

(** *** Log fields *)

(** The codes that the log tells apart, and the rest by number. *)
Inductive Code :=
| OK | Canceled | InvalidArgument | DeadlineExceeded | NotFound | AlreadyExists | PermissionDenied
| ResourceExhausted | FailedPrecondition | Aborted | OutOfRange | Unauthenticated | OtherCode (n : Z).

(** An error that carries a status, or one that does not. *)
Inductive HandlerError := StatusError (code : Code) (msg : string) | PlainError (msg : string).

Inductive FieldValue :=
| FString (s : string)
| FBool (b : bool)
| FInt64 (n : Z)
| FStrings (l : list string)
| FAny (m : gmap string string)
| FError (e : HandlerError).

Abbreviation Field := (string * FieldValue)%type (only parsing).

Definition Fields (meta : Meta) : list Field :=
  [("tenant_id", FString (TrimSpace (TenantID meta)));
   ("trace_id", FString (TrimSpace (TraceID meta)));
   ("request_id", FString (TrimSpace (RequestID meta)));
   ("user_id", FString (TrimSpace (UserID meta)));
   ("user_name", FString (TrimSpace (UserName meta)));
   ("user_type", FString (TrimSpace (UserType meta)));
   ("source_service", FString (TrimSpace (SourceService meta)));
   ("client_ip", FString (TrimSpace (ClientIP meta)));
   ("peer_addr", FString (TrimSpace (PeerAddr meta)));
   ("user_agent", FString (TrimSpace (UserAgent meta)));
   ("has_authorization", FBool (HasAuthorization meta));
   ("deadline_unix_ms", FInt64 (DeadlineUnixMS meta));
   ("deadline_set", FBool (0 <? DeadlineUnixMS meta));
   ("metadata_keys", FStrings (MetadataKeys meta));
   ("metadata", FAny (Metadata meta))].

Definition ZapFields (ctx : option Ctx) : list Field := Fields (FromContext ctx).

(** ** The client (grpcclient) *)

Definition defaultDialTimeout : Duration := 5 * Second.
Definition defaultCallTimeout : Duration := 10 * Second.
Definition defaultKeepaliveTime : Duration := 30 * Second.
Definition defaultKeepaliveTimeout : Duration := 10 * Second.

(** The options of the gRPC library, those of the caller ([Extra]) by a number. *)
Inductive DialOption :=
| Plaintext
| Keepalive (time timeout : Duration) (permitWithoutStream : bool)
| Propagate (serviceName : string)
| Extra (n : nat).

Record Options := mkOptions {
  DialTimeout : Duration;
  CallTimeout : Duration;
  Insecure : bool;
  ServiceName : string;
  KeepaliveTime : Duration;
  KeepaliveTimeout : Duration;
  ExtraDialOpts : list DialOption
}.

Definition Option := Options → Options.

Definition WithTimeout (d : Duration) : Option :=
  λ o, mkOptions d d (Insecure o) (ServiceName o) (KeepaliveTime o) (KeepaliveTimeout o) (ExtraDialOpts o).

Definition WithCallTimeout (d : Duration) : Option :=
  λ o, mkOptions (DialTimeout o) d (Insecure o) (ServiceName o) (KeepaliveTime o) (KeepaliveTimeout o) (ExtraDialOpts o).

Definition WithDialTimeout (d : Duration) : Option :=
  λ o, mkOptions d (CallTimeout o) (Insecure o) (ServiceName o) (KeepaliveTime o) (KeepaliveTimeout o) (ExtraDialOpts o).

Definition WithServiceName (name : string) : Option :=
  λ o, mkOptions (DialTimeout o) (CallTimeout o) (Insecure o) name (KeepaliveTime o) (KeepaliveTimeout o) (ExtraDialOpts o).

Definition WithInsecure (v : bool) : Option :=
  λ o, mkOptions (DialTimeout o) (CallTimeout o) v (ServiceName o) (KeepaliveTime o) (KeepaliveTimeout o) (ExtraDialOpts o).

Definition WithKeepalive (pingTime timeout : Duration) : Option :=
  λ o, mkOptions (DialTimeout o) (CallTimeout o) (Insecure o) (ServiceName o) pingTime timeout (ExtraDialOpts o).

Definition WithDialOptions (opts : list DialOption) : Option :=
  λ o, mkOptions (DialTimeout o) (CallTimeout o) (Insecure o) (ServiceName o) (KeepaliveTime o) (KeepaliveTimeout o)
         (ExtraDialOpts o ++ opts).

Definition defaultOptions : Options :=
  mkOptions defaultDialTimeout defaultCallTimeout true "" defaultKeepaliveTime defaultKeepaliveTimeout [].

Definition buildDialOptions (opts : Options) : list DialOption :=
  let kaTime := if KeepaliveTime opts <=? 0 then defaultKeepaliveTime else KeepaliveTime opts in
  let kaTimeout := if KeepaliveTimeout opts <=? 0 then defaultKeepaliveTimeout else KeepaliveTimeout opts in
  (if Insecure opts then [Plaintext] else []) ++ [Keepalive kaTime kaTimeout true] ++ [Propagate (ServiceName opts)] ++
  ExtraDialOpts opts.

Record Conn (C : Type) := mkConn { client_conn : C; conn_opts : Options }.
Arguments mkConn {C}. Arguments client_conn {C}. Arguments conn_opts {C}.

Inductive Error := ErrAddr | ErrDial.

Section Dial.
(** The library's [grpc.NewClient]. *)
Context {C : Type} (new_client : string → list DialOption → res unit C).

Definition Dial (addr : string) (optFns : list Option) : res Error (Conn C) :=
  if decide (TrimSpace addr = "") then Err ErrAddr
  else
    let opts := foldl (λ o fn, fn o) defaultOptions optFns in
    match new_client addr (buildDialOptions opts) with
    | Ok cc => Ok (mkConn cc opts)
    | Err _ => Err ErrDial
    end.

(** [None] is the panic. *)
Definition MustDial (addr : string) (optFns : list Option) : option (Conn C) :=
  match Dial addr optFns with Ok c => Some c | Err _ => None end.

Definition MustDialOrNil (addr : string) (optFns : list Option) : res Error (option (Conn C)) :=
  if decide (TrimSpace addr = "") then Ok None else let? c := Dial addr optFns in Ok (Some c).

End Dial.

Definition conn_WithCallTimeout {C} (c : Conn C) (now : Time) (ctx : Ctx) : Ctx :=
  match deadline ctx with
  | Some _ => ctx
  | None => mkCtx (request_meta ctx) (outgoing ctx) (incoming ctx) (Some (now + CallTimeout (conn_opts c))) (peer ctx)
  end.

(** *** The interceptor of calls *)

Definition pair_of (key value : string) : list (string * string) :=
  if decide (TrimSpace value ≠ "") then [(key, TrimSpace value)] else [].

Definition source_name (serviceName : string) (meta : Meta) : string :=
  let src := TrimSpace serviceName in if decide (src = "") then TrimSpace (SourceService meta) else src.

Definition identity_pairs (serviceName : string) (meta : Meta) : list (string * string) :=
  pair_of "x-tenant-id" (TenantID meta) ++ pair_of "x-user-id" (UserID meta) ++
  pair_of "x-request-id" (RequestID meta) ++ pair_of "x-trace-id" (TraceID meta) ++
  let src := source_name serviceName meta in if decide (src ≠ "") then [("x-source-service", src)] else [].

Definition md_Get (md : MD) (key : string) : list string := default [] (md !! key).

(** One pair, unless the key has a value. *)
Definition add_pair (md : MD) (kv : string * string) : MD :=
  if decide (md_Get md kv.1 = []) then <[kv.1 := [kv.2]]> md else md.

(** The context the call is made with. *)
Definition metaPropagationInterceptor (serviceName : string) (ctx : Ctx) : Ctx :=
  let pairs := identity_pairs serviceName (FromContext (Some ctx)) in
  if decide (pairs = []) then ctx
  else
    mkCtx (request_meta ctx) (Some (foldl add_pair (default ∅ (outgoing ctx)) pairs)) (incoming ctx) (deadline ctx)
      (peer ctx).

(** ** The server (grpclog) *)

Definition DefaultMaxPayloadBytes : Z := 4096.

Record LogOptions := mkLogOptions {
  service : string;
  MaxPayloadBytes : Z;
  DefaultTenantID : string;
  WriteResponseHeaders : bool
}.

(** The first value that is not blank. *)
Definition first_value (values : list string) : string := default "" (head (filter (λ v, v ≠ "") (TrimSpace <$> values))).

Fixpoint firstNonEmpty (md : MD) (keys : list string) : string :=
  match keys with
  | [] => ""
  | key :: keys => let v := first_value (md_Get md key) in if decide (v ≠ "") then v else firstNonEmpty md keys
  end.

Definition hasAnyValue (md : MD) (keys : list string) : bool := bool_decide (firstNonEmpty md keys ≠ "").

Definition is_hex (a : ascii) : bool := contains a "0123456789abcdefABCDEF".

Definition parseTraceIDFromTraceParent (value : string) : string :=
  match Split "-" (TrimSpace value) with
  | _ :: p :: _ :: _ :: _ =>
      let traceID := TrimSpace p in
      if (String.length traceID =? 32)%nat && forallb is_hex (String.list_ascii_of_string traceID) then lower traceID else ""
  | _ => ""
  end.

Definition truncateString (value : string) (maxBytes : Z) : string :=
  let value := TrimSpace value in
  if decide (value = "") then ""
  else if (maxBytes <=? 0) || (Z.of_nat (String.length value) <=? maxBytes) then value
  else (str_take (Z.to_nat maxBytes) value +:+ "...(truncated)")%string.

Section Server.
Context `{RangeOrder}.

Definition snapshotMetadata (md : MD) : gmap string string :=
  foldl (λ out kv,
    let lowerKey := lower (TrimSpace kv.1) in
    if decide (lowerKey = "") then out else <[lowerKey := truncateString (Join "," kv.2) 512]> out) ∅ (range_map md).

Definition metadataKeys (md : MD) : list string := filter (λ k, k ≠ "") ((λ kv, lower (TrimSpace kv.1)) <$> range_map md).

Definition extractRequestMeta (ctx : Ctx) : Meta :=
  let ms := from_option UnixMilli 0 (deadline ctx) in
  let addr := default "" (peer ctx) in
  match incoming ctx with
  | None => mkMeta "" "" "" "" "" "" "" addr addr "" false ms [] ∅
  | Some md =>
      let get := firstNonEmpty md in
      let trace := get ["x-trace-id"; "trace-id"; "x-b3-traceid"] in
      let trace := if decide (trace = "") then parseTraceIDFromTraceParent (get ["traceparent"]) else trace in
      let ip := get ["x-forwarded-for"; "x-real-ip"] in
      mkMeta (get ["x-tenant-id"]) (get ["x-user-id"; "user-id"]) (get ["x-user-name"; "user-name"])
        (get ["x-user-type"; "user-type"; "x-user-role"; "user-role"]) (get ["x-request-id"; "request-id"]) trace
        (get ["x-source-service"; "x-service-name"; "source-service"; "x-app-id"])
        (if decide (ip = "") then addr else ip) addr (get ["user-agent"])
        (hasAnyValue md ["authorization"; "x-authorization"]) ms (metadataKeys md) (snapshotMetadata md)
  end.

(** The identity the handler sees: missing parts are filled in. *)
Definition fill_meta (opts : LogOptions) (uuid : string) (meta : Meta) : Meta :=
  let requestID := if decide (RequestID meta = "") then uuid else RequestID meta in
  let traceID := if decide (TraceID meta = "") then requestID else TraceID meta in
  let tenantID := if decide (TrimSpace (TenantID meta) = "") then TrimSpace (DefaultTenantID opts) else TenantID meta in
  mkMeta tenantID (UserID meta) (UserName meta) (UserType meta) requestID traceID (SourceService meta) (ClientIP meta)
    (PeerAddr meta) (UserAgent meta) (HasAuthorization meta) (DeadlineUnixMS meta) (MetadataKeys meta) (Metadata meta).

(** *** Errors and levels *)

(** The status and message the log takes. *)
Definition log_status (err : option HandlerError) : Code * string :=
  match err with Some (StatusError c m) => (c, m) | Some (PlainError _) | None => (OK, "") end.

Inductive Level := Info | Warn | ErrorLevel.

Definition logByCode (c : Code) : Level :=
  match c with OK => Info | OtherCode _ => ErrorLevel | _ => Warn end.

(** *** The interceptor *)

(** [safeString]: backslashes and quotes are escaped. *)
Fixpoint escape (s : string) : string :=
  match s with
  | EmptyString => ""
  | String a s =>
      if Ascii.eqb a (ascii_of_nat 92) || Ascii.eqb a (ascii_of_nat 34) then String (ascii_of_nat 92) (String a (escape s))
      else String a (escape s)
  end.

Definition safeString (value : string) : string := escape (TrimSpace value).

(** A text in double quotes. *)
Definition quoted (s : string) : string := (String (ascii_of_nat 34) s +:+ String (ascii_of_nat 34) "")%string.

(** A payload that is nil, or what marshalling it gives. *)
Definition marshalPayload (raw : option (res string string)) (maxBytes : Z) : string :=
  match raw with
  | None => ""
  | Some (Err e) => truncateString ("{" +:+ quoted "marshal_error" +:+ ":" +:+ quoted (safeString e) +:+ "}")%string maxBytes
  | Some (Ok s) => truncateString s maxBytes
  end.

(** What a call leaves besides its answer: the headers set and the log line. *)
Record Effects := mkEffects { headers_set : option (list (string * string)); level : Level; fields : list Field }.

(** [raw_req] and [raw_resp] marshal; [names] are the library's names of codes;
    [cost] is the time the handler took. *)
Definition UnaryServerInterceptor {Req Resp} (names : Code → string) (raw_req : Req → option (res string string))
    (raw_resp : Resp → option (res string string)) (opts : LogOptions) (uuid method : string) (cost : Duration)
    (ctx : Ctx) (req : Req) (handler : Ctx → Req → Resp * option HandlerError) : (Resp * option HandlerError) * Effects :=
  let maxPayloadBytes := if MaxPayloadBytes opts <=? 0 then DefaultMaxPayloadBytes else MaxPayloadBytes opts in
  let meta := fill_meta opts uuid (extractRequestMeta ctx) in
  let ctx := WithMeta ctx meta in
  let hs := if WriteResponseHeaders opts then
              Some [("x-request-id", RequestID meta); ("x-trace-id", TraceID meta); ("x-tenant-id", TenantID meta)]
            else None in
  let '(resp, err) := handler ctx req in
  let '(code, msg) := log_status err in
  let fs :=
    [("service", FString (TrimSpace (service opts))); ("protocol", FString "grpc"); ("method", FString method);
     ("code", FString (names code)); ("duration_ms", FInt64 (cost `quot` Millisecond));
     ("tenant_id", FString (TenantID meta)); ("trace_id", FString (TraceID meta));
     ("request_id", FString (RequestID meta)); ("user_id", FString (UserID meta));
     ("user_name", FString (UserName meta)); ("user_type", FString (UserType meta));
     ("source_service", FString (SourceService meta)); ("client_ip", FString (ClientIP meta));
     ("peer_addr", FString (PeerAddr meta)); ("user_agent", FString (UserAgent meta));
     ("has_authorization", FBool (HasAuthorization meta)); ("deadline_unix_ms", FInt64 (DeadlineUnixMS meta));
     ("deadline_set", FBool (0 <? DeadlineUnixMS meta)); ("metadata_keys", FStrings (MetadataKeys meta));
     ("metadata", FAny (Metadata meta)); ("request_payload", FString (marshalPayload (raw_req req) maxPayloadBytes));
     ("response_payload", FString (marshalPayload (raw_resp resp) maxPayloadBytes))] in
  let fs := match err with
            | Some e => fs ++ [("error", FError e); ("error_message", FString msg)]
            | None => fs
            end in
  ((resp, err), mkEffects hs (logByCode code) fs).

End Server.

(** ** What the theorems speak of *)

(** Strings that gRPC carries as they are: printable ASCII. *)
Definition printable (s : string) : bool :=
  forallb (λ a, (32 <=? nat_of_ascii a)%nat && (nat_of_ascii a <=? 126)%nat) (String.list_ascii_of_string s).

(** The characters a key may have. *)
Definition valid_key (key : string) : bool := forallb (λ a, contains a "0123456789abcdefghijklmnopqrstuvwxyz-_.") (String.list_ascii_of_string key).

(** The keys that are gRPC's own. *)
Definition library_key (key : string) : bool :=
  bool_decide (key ∈ ["content-type"; "user-agent"; "te"]) || String.prefix "grpc-" key || String.prefix ":" key.

Definition carried (md : MD) : Prop := ∀ k vs, md !! k = Some vs → valid_key k = true ∧ Forall (λ v, printable v = true) vs.

(** gRPC between two services: the metadata of a call, [None] if the call is
    refused.  Valid metadata arrives as it is, and no key but the library's own is
    added. *)
Class Wire := {
  deliver : MD → option MD;
  deliver_ok : ∀ md, carried md →
    ∃ md', deliver md = Some md' ∧ ∀ k, library_key k = false → md_Get md' k = md_Get md k
}.

(** The context of the handler at the other end. *)
Definition received (md : MD) (dl : option Time) (addr : string) : Ctx := mkCtx None None (Some md) dl (Some addr).

(** The keys that carry an identity, and those the server reads besides. *)
Definition identity_keys : list string :=
  ["x-tenant-id"; "x-user-id"; "x-request-id"; "x-trace-id"; "x-source-service"].

Definition other_keys : list string :=
  ["user-id"; "request-id"; "trace-id"; "x-b3-traceid"; "traceparent"; "x-service-name"; "source-service"; "x-app-id";
   "x-user-name"; "user-name"; "x-user-type"; "user-type"; "x-user-role"; "user-role"].

(** What stands under a key once it is sent. *)
Definition identity_of (serviceName : string) (meta : Meta) (k : string) : string :=
  if decide (k = "x-tenant-id") then TrimSpace (TenantID meta)
  else if decide (k = "x-user-id") then TrimSpace (UserID meta)
  else if decide (k = "x-request-id") then TrimSpace (RequestID meta)
  else if decide (k = "x-trace-id") then TrimSpace (TraceID meta)
  else if decide (k = "x-source-service") then source_name serviceName meta
  else "".

Definition trimmed_or (value fallback : string) : string :=
  if decide (TrimSpace value = "") then fallback else TrimSpace value.

#[local] Existing Instance range_first_key_order.

(** A wire that adds what gRPC adds to every call. *)
Definition sample_deliver (md : MD) : option MD :=
  if forallb (λ kv, valid_key kv.1 && forallb printable kv.2) (map_to_list md) then Some (<["user-agent" := ["grpc-go"]]> md)
  else None.

(** ** Lemmas *)

Lemma printable_ascii s : printable s = true → ascii_only s = true.
Proof.
  unfold printable, ascii_only. rewrite !forallb_forall. intros H a Ha. specialize (H a Ha).
  apply andb_true_iff in H as [_ H%Nat.leb_le]. apply Nat.ltb_lt. lia.
Qed.

Lemma printable_trim s : printable s = true → printable (TrimSpace s) = true.
Proof.
  intros Hs. rewrite TrimSpace_ascii by (by apply printable_ascii). unfold printable in *.
  rewrite String.list_ascii_of_string_of_list_ascii. destruct (trim_split (String.list_ascii_of_string s)) as (p & q & E).
  rewrite E, !forallb_app in Hs. by apply andb_true_iff in Hs as [_ [Hs _]%andb_true_iff].
Qed.

(** One value that is trimmed already. *)
Lemma first_value_trimmed s : printable s = true → first_value [TrimSpace s] = TrimSpace s.
Proof.
  intros Hs. unfold first_value. cbn [fmap list_fmap]. rewrite TrimSpace_idemp by (by apply printable_ascii).
  cbn [filter list_filter]. case_decide as E; [done|]. by destruct (decide (TrimSpace s = "")) as [->|].
Qed.

(** *** What the client sends *)

Lemma md_Get_insert k vs md k' : md_Get (<[k := vs]> md) k' = if decide (k' = k) then vs else md_Get md k'.
Proof. unfold md_Get. case_decide as E; [by rewrite E, lookup_insert_eq|by rewrite lookup_insert_ne]. Qed.

Lemma add_pairs_Get pairs md k :
  NoDup pairs.*1 →
  md_Get (foldl add_pair md pairs) k =
    if decide (md_Get md k = []) then option_list ((list_to_map pairs : gmap string string) !! k) else md_Get md k.
Proof.
  revert md. induction pairs as [|[k' v] pairs IH]; intros md Hnd.
  { cbn [foldl list_to_map foldr]. rewrite lookup_empty. by case_decide. }
  rewrite fmap_cons in Hnd. apply NoDup_cons in Hnd as [Hk Hnd]. cbn [foldl]. rewrite IH by done. cbn [list_to_map foldr].
  destruct (decide (k = k')) as [->|Hne].
  - rewrite lookup_insert_eq, (not_elem_of_list_to_map_1 pairs k') by done.
    unfold add_pair. cbn [fst snd]. destruct (decide (md_Get md k' = [])) as [E|E]; [|by rewrite decide_False].
    rewrite md_Get_insert, (decide_True (P := k' = k')) by done. by rewrite decide_False.
  - rewrite lookup_insert_ne by done.
    assert (md_Get (add_pair md (k', v)) k = md_Get md k) as ->; [|done].
    unfold add_pair. case_decide; [|done]. cbn [fst snd]. by rewrite md_Get_insert, decide_False.
Qed.

Lemma pair_of_lookup k v l k' :
  (list_to_map (pair_of k v ++ l) : gmap string string) !! k' =
    if decide (k' = k ∧ TrimSpace v ≠ "") then Some (TrimSpace v) else (list_to_map l : gmap string string) !! k'.
Proof.
  unfold pair_of. destruct (decide (TrimSpace v ≠ "")) as [Hv|Hv].
  - cbn [app list_to_map foldr fst snd]. destruct (decide (k' = k)) as [->|Hne].
    + by rewrite decide_True, lookup_insert_eq by done.
    + rewrite decide_False, lookup_insert_ne by (congruence || tauto). done.
  - rewrite decide_False by tauto. done.
Qed.

Lemma identity_pairs_NoDup serviceName meta : NoDup (identity_pairs serviceName meta).*1.
Proof.
  unfold identity_pairs, pair_of. repeat case_decide; cbn [app fmap list_fmap fst]; apply (bool_decide_unpack _); by vm_compute.
Qed.

Lemma identity_pairs_keys serviceName meta : (identity_pairs serviceName meta).*1 ⊆ identity_keys.
Proof.
  unfold identity_pairs, pair_of. repeat case_decide; cbn [app fmap list_fmap fst]; apply (bool_decide_unpack _); by vm_compute.
Qed.

(** The values of the identity's keys, where the caller set none of its own. *)
Lemma sent_Get serviceName ctx k :
  let meta := FromContext (Some ctx) in
  let md := default ∅ (outgoing ctx) in
  md_Get md k = [] →
  md_Get (default ∅ (outgoing (metaPropagationInterceptor serviceName ctx))) k =
    option_list ((list_to_map (identity_pairs serviceName meta) : gmap string string) !! k).
Proof.
  intros meta md Hk. unfold metaPropagationInterceptor. fold meta. destruct (decide (identity_pairs serviceName meta = [])) as [E|E].
  - rewrite E. cbn [list_to_map foldr]. by rewrite lookup_empty.
  - cbn [outgoing from_option id]. rewrite add_pairs_Get by apply identity_pairs_NoDup. by rewrite decide_True.
Qed.

Lemma identity_pairs_lookup serviceName meta k :
  (list_to_map (identity_pairs serviceName meta) : gmap string string) !! k =
    if decide (k = "x-tenant-id" ∧ TrimSpace (TenantID meta) ≠ "") then Some (TrimSpace (TenantID meta))
    else if decide (k = "x-user-id" ∧ TrimSpace (UserID meta) ≠ "") then Some (TrimSpace (UserID meta))
    else if decide (k = "x-request-id" ∧ TrimSpace (RequestID meta) ≠ "") then Some (TrimSpace (RequestID meta))
    else if decide (k = "x-trace-id" ∧ TrimSpace (TraceID meta) ≠ "") then Some (TrimSpace (TraceID meta))
    else if decide (k = "x-source-service" ∧ source_name serviceName meta ≠ "") then Some (source_name serviceName meta)
    else None.
Proof.
  unfold identity_pairs. rewrite !pair_of_lookup. cbv zeta. repeat (case_decide; [done|]).
  destruct (decide (source_name serviceName meta ≠ "")) as [Hs|Hs]; cbn [list_to_map foldr fst snd].
  - destruct (decide (k = "x-source-service")) as [->|Hk]; [by rewrite lookup_insert_eq, decide_True by done|].
    rewrite lookup_insert_ne, lookup_empty, decide_False by (congruence || tauto). done.
  - rewrite lookup_empty, decide_False by tauto. done.
Qed.

Lemma source_name_printable serviceName meta :
  printable serviceName = true → printable (SourceService meta) = true → printable (source_name serviceName meta) = true.
Proof. intros. unfold source_name. cbv zeta. case_decide; by apply printable_trim. Qed.

Lemma add_pairs_carried pairs md :
  carried md → Forall (λ kv, valid_key kv.1 = true ∧ printable kv.2 = true) pairs → carried (foldl add_pair md pairs).
Proof.
  intros Hmd Hall. revert md Hmd. induction Hall as [|[k v] pairs [Hk Hv] _ IH]; intros md Hmd; [done|]. cbn [foldl].
  apply IH. unfold add_pair. case_decide; [|done]. intros k' vs [[<- <-]|[_ Hl]]%lookup_insert_Some; [|by apply Hmd].
  split; [done|by constructor].
Qed.

Section Printable.
Context (serviceName : string) (meta : Meta).
Hypothesis Hprint :
  Forall (λ v, printable v = true)
    [serviceName; TenantID meta; UserID meta; RequestID meta; TraceID meta; SourceService meta].

Lemma identity_pairs_printable :
  Forall (λ kv, valid_key kv.1 = true ∧ printable kv.2 = true) (identity_pairs serviceName meta).
Proof.
  repeat (apply Forall_cons in Hprint as [? Hprint]). unfold identity_pairs, pair_of.
  rewrite !Forall_app. split_and!; cbv zeta; case_decide; constructor; try done; cbn [fst snd];
    split; [done|by apply printable_trim|done|by apply printable_trim|done|by apply printable_trim|done|by apply printable_trim|
            done|by apply source_name_printable].
Qed.

(** The first value under each key, once it is sent. *)
Lemma identity_first k :
  first_value (option_list ((list_to_map (identity_pairs serviceName meta) : gmap string string) !! k)) =
    identity_of serviceName meta k.
Proof.
  repeat (apply Forall_cons in Hprint as [? Hprint]). rewrite identity_pairs_lookup. unfold identity_of.
  assert (Hs : source_name serviceName meta = TrimSpace (source_name serviceName meta)).
  { unfold source_name. cbv zeta. case_decide; by rewrite TrimSpace_idemp by (by apply printable_ascii). }
  assert (printable (source_name serviceName meta) = true) as Hp by (by apply source_name_printable).
  assert (first_value [source_name serviceName meta] = source_name serviceName meta) as Hfs
    by (rewrite Hs; by apply first_value_trimmed).
  pose proof (first_value_trimmed (TenantID meta)) as Ht. pose proof (first_value_trimmed (UserID meta)) as Hu.
  pose proof (first_value_trimmed (RequestID meta)) as Hr. pose proof (first_value_trimmed (TraceID meta)) as Hc.
  clear Hs Hp. revert Hfs Ht Hu Hr Hc. generalize (source_name serviceName meta), (TrimSpace (TenantID meta)),
    (TrimSpace (UserID meta)), (TrimSpace (RequestID meta)), (TrimSpace (TraceID meta)). intros.
  repeat match goal with
  | |- context [decide (k = ?x ∧ ?v ≠ "")] =>
      destruct (decide (k = x)) as [->|];
      [destruct (decide (v = "")) as [->|]; [reflexivity|rewrite decide_True by done; cbn [option_list]; by auto]
      |rewrite decide_False by tauto]
  end. done.
Qed.

End Printable.

Lemma firstNonEmpty_first md k ks :
  (∀ k, k ∈ ks → md_Get md k = []) → firstNonEmpty md (k :: ks) = first_value (md_Get md k).
Proof.
  intros Hks. cbn [firstNonEmpty]. cbv zeta. case_decide as E; [done|]. rewrite E.
  induction ks as [|k' ks IH]; [done|]. cbn [firstNonEmpty]. rewrite Hks by set_solver. apply IH. set_solver.
Qed.

Lemma trimmed_or_spec value fallback :
  (if decide (TrimSpace value = "") then fallback else TrimSpace value) = trimmed_or value fallback.
Proof. done. Qed.

Lemma other_not_identity k : k ∈ other_keys → k ∉ identity_keys.
Proof. revert k. apply Forall_forall. apply (bool_decide_unpack _). by vm_compute. Qed.

(** What the server reads of metadata that a client of ours wrote. *)
Lemma read_identity serviceName ctx md' k ks :
  let meta := FromContext (Some ctx) in
  let sent := default ∅ (outgoing (metaPropagationInterceptor serviceName ctx)) in
  Forall (λ v, printable v = true)
    [serviceName; TenantID meta; UserID meta; RequestID meta; TraceID meta; SourceService meta] →
  (∀ k, k ∈ identity_keys ++ other_keys → md_Get (default ∅ (outgoing ctx)) k = []) →
  (∀ k, library_key k = false → md_Get md' k = md_Get sent k) →
  k ∈ identity_keys ++ other_keys → (∀ k, k ∈ ks → k ∈ other_keys) →
  firstNonEmpty md' (k :: ks) = first_value (option_list ((list_to_map (identity_pairs serviceName meta) : gmap string string) !! k)).
Proof.
  intros meta sent Hp Hfree Hdel Hk Hks. subst sent.
  assert (∀ k, k ∈ identity_keys ++ other_keys → library_key k = false) as Hlib.
  { apply Forall_forall. apply (bool_decide_unpack _). by vm_compute. }
  rewrite firstNonEmpty_first; [by rewrite Hdel, sent_Get by auto|].
  intros k' Hk'. apply Hks in Hk'. assert (k' ∈ identity_keys ++ other_keys) as Hin by (apply elem_of_app; by right).
  rewrite Hdel, sent_Get by auto. fold meta. rewrite not_elem_of_list_to_map_1; [done|].
  intros Hin'. by apply (other_not_identity k'), (identity_pairs_keys serviceName meta).
Qed.

(** ** Properties *)

(** C11. The identity over gRPC.  A call made with the context of a request, of
    printable parts and with no identity metadata of the caller's own, is
    carried to a service behind the server interceptor, whose handler then finds
    in its context the same tenant (or the service's default), user, request
    id (or a fresh one), trace id (or that request id), and as source the
    client's service name or else the request's own source; the user's name and
    type do not travel.  What the caller put into the metadata itself is kept.
    The interceptor gives back the handler's answer and error as they are. *)
Theorem grpc_identity_travels `{Wire} `{RangeOrder} {Req Resp} serviceName (ctx : Ctx) dl addr names raw_req raw_resp opts
    uuid method cost (req : Req) :
  let meta := FromContext (Some ctx) in
  let md := default ∅ (outgoing ctx) in
  Forall (λ v, printable v = true)
    [serviceName; TenantID meta; UserID meta; RequestID meta; TraceID meta; SourceService meta] →
  carried md → (∀ k, k ∈ identity_keys ++ other_keys → md_Get md k = []) →
  let sent := default ∅ (outgoing (metaPropagationInterceptor serviceName ctx)) in
  (∀ k, md_Get md k ≠ [] → md_Get sent k = md_Get md k) ∧
  ∃ md' seen, deliver sent = Some md' ∧
    (∀ handler : Ctx → Req → Resp * option HandlerError,
      (UnaryServerInterceptor names raw_req raw_resp opts uuid method cost (received md' dl addr) req handler).1 =
        handler (WithMeta (received md' dl addr) seen) req) ∧
    TenantID seen = trimmed_or (TenantID meta) (TrimSpace (DefaultTenantID opts)) ∧
    UserID seen = TrimSpace (UserID meta) ∧
    RequestID seen = trimmed_or (RequestID meta) uuid ∧
    TraceID seen = trimmed_or (TraceID meta) (RequestID seen) ∧
    SourceService seen = source_name serviceName meta ∧ UserName seen = "" ∧ UserType seen = "".
Proof.
  intros meta md Hp Hcar Hfree sent. split.
  { intros k Hk. subst sent. unfold metaPropagationInterceptor. case_decide; [done|]. cbn [outgoing from_option id].
    rewrite add_pairs_Get by apply identity_pairs_NoDup. by rewrite decide_False. }
  assert (carried sent) as Hsent.
  { subst sent. unfold metaPropagationInterceptor. case_decide; [done|].
    apply add_pairs_carried; [done|by apply identity_pairs_printable]. }
  destruct (deliver_ok sent Hsent) as (md' & Hdel & Hget).
  exists md', (fill_meta opts uuid (extractRequestMeta (received md' dl addr))). split; [done|]. split.
  { intros handler. unfold UnaryServerInterceptor. destruct (handler _ req) as [resp err]. by destruct (log_status err). }
  assert (∀ k ks, k ∈ identity_keys ++ other_keys → Forall (λ k, k ∈ other_keys) ks →
    firstNonEmpty md' (k :: ks) = identity_of serviceName meta k) as Hread.
  { intros k ks Hk Hks. rewrite (read_identity serviceName ctx md' k ks Hp Hfree Hget Hk) by (by apply Forall_forall).
    apply (identity_first serviceName meta Hp). }
  unfold extractRequestMeta, fill_meta. cbn [incoming received TenantID UserID RequestID TraceID SourceService UserName UserType].
  rewrite !Hread by (apply (bool_decide_unpack _); by vm_compute).
  change (identity_of serviceName meta "x-tenant-id") with (TrimSpace (TenantID meta)).
  change (identity_of serviceName meta "x-request-id") with (TrimSpace (RequestID meta)).
  change (identity_of serviceName meta "x-trace-id") with (TrimSpace (TraceID meta)).
  change (parseTraceIDFromTraceParent (identity_of serviceName meta "traceparent")) with "".
  rewrite TrimSpace_idemp by (apply printable_ascii; by do 1 apply Forall_inv_tail in Hp; apply Forall_inv in Hp).
  unfold trimmed_or. split_and!; try reflexivity.
  destruct (decide (TrimSpace (TraceID meta) = "")) as [E|E]; [done|by rewrite decide_False].
Qed.

#[local] Instance sample_wire : Wire.
Proof.
  refine {| deliver := sample_deliver |}. intros md Hmd. exists (<["user-agent" := ["grpc-go"]]> md). unfold sample_deliver.
  replace (forallb _ (map_to_list md)) with true.
  - split; [done|]. intros k Hk. rewrite md_Get_insert, decide_False; [done|]. intros ->. by vm_compute in Hk.
  - symmetry. apply forallb_elem. intros [k vs] [Hk Hvs]%elem_of_map_to_list%Hmd. cbn [fst snd]. rewrite Hk.
    apply forallb_elem. intros v Hv. by eapply Forall_forall in Hvs.
Defined.

Definition sample_ctx : Ctx :=
  mkCtx (Some (mkMeta " t1 " "u1" "ann" "admin" "" "trace1" "web" "" "" "" false 0 [] ∅))
    (Some {["x-feature" := ["on"]]}) None None None.

Lemma grpc_identity_travels_witness :
  let opts := mkLogOptions "orders" 0 "main" true in
  let sent := default ∅ (outgoing (metaPropagationInterceptor "gateway" sample_ctx)) in
  ∃ md' seen, deliver sent = Some md' ∧
    (UnaryServerInterceptor (Req := unit) (Resp := string) (λ _, "") (λ _, None) (λ _, None) opts "fresh" "/m" 0
       (received md' None "10.0.0.1:80") () (λ c _, (UserID (FromContext (Some c)), None))).1 = ("u1", None) ∧
    TenantID seen = "t1" ∧ RequestID seen = "fresh" ∧ SourceService seen = "gateway".
Proof.
  intros opts sent.
  destruct (grpc_identity_travels (Req := unit) (Resp := string) "gateway" sample_ctx None "10.0.0.1:80" (λ _, "") (λ _, None)
    (λ _, None) opts "fresh" "/m" 0 ()) as (_ & md' & seen & Hd & Hh & Ht & Hu & Hr & _ & Hs & _).
  - repeat constructor.
  - intros k vs Hk. change (({["x-feature" := ["on"]]} : MD) !! k = Some vs) in Hk.
    apply lookup_singleton_Some in Hk as [<- <-]. split; [by vm_compute|by repeat constructor].
  - apply Forall_forall, (bool_decide_unpack _). by vm_compute.
  - exists md', seen. split; [exact Hd|]. split; [|rewrite Ht, Hr, Hs; split_and!; vm_compute; reflexivity].
    rewrite Hh. change ((UserID seen, @None HandlerError) = ("u1", None)). rewrite Hu. vm_compute. reflexivity.
Defined.

(** ** Errors and log lines *)

(** The handler has a request and a trace id, whatever came in. *)
Lemma handler_has_ids `{RangeOrder} opts uuid ctx :
  uuid ≠ "" →
  let seen := fill_meta opts uuid (extractRequestMeta ctx) in RequestID seen ≠ "" ∧ TraceID seen ≠ "".
Proof. intros Hu seen. subst seen. cbn. repeat case_decide; naive_solver. Qed.

(** An error that carries no status is answered by gRPC as unknown, but logged at
    the level and with the code of a success. *)
Lemma plain_error_logged_ok `{RangeOrder} {Req Resp} names raw_req raw_resp opts uuid method cost ctx (req : Req) (resp : Resp) msg :
  let out := UnaryServerInterceptor names raw_req raw_resp opts uuid method cost ctx req (λ _ _, (resp, Some (PlainError msg))) in
  level out.2 = Info ∧ ("code", FString (names OK)) ∈ fields out.2 ∧ out.1.2 = Some (PlainError msg).
Proof.
  intros out. split_and!; [done| |done]. unfold out, UnaryServerInterceptor. cbn [fields snd log_status].
  do 3 apply list_elem_of_further. apply list_elem_of_here.
Qed.

(** The snapshot of the metadata that is logged holds the caller's credentials. *)
Lemma credentials_logged :
  snapshotMetadata {["authorization" := ["Bearer secret"]]} !! "authorization" = Some "Bearer secret".
Proof. by vm_compute. Qed.

(** The timeout for calls is not used by the calls themselves. *)
Lemma call_timeout_unused serviceName ctx : deadline (metaPropagationInterceptor serviceName ctx) = deadline ctx.
Proof. unfold metaPropagationInterceptor. by case_decide. Qed.

(** The timeout for connecting is not among the options that a connection is made with. *)
Lemma connect_timeout_unused d o : buildDialOptions (WithDialTimeout d o) = buildDialOptions o.
Proof. done. Qed.

End Grpc.
