(* ===== verification/Guards.v ===== *)
(** * Guards of a request (src/middlewares: ipfilter, adminauth, cors, bodylimit)

    Middleware that lets a request through or ends it.  Addresses are read by
    the [Net] file; [client_ip] is the address the engine reports. *)

From stdpp Require Import pretty.
From S2P Require Import Prelude Text Net Web.
Import Text Net Web.

Module Guards.

(** A handler that aborts has answered with a status; the engine runs the
    handlers that follow otherwise. *)
Inductive Outcome := Abort (status : Z) (c : Context) | Next (c : Context).

Definition passes (o : Outcome) : bool := match o with Next _ => true | Abort _ _ => false end.

Definition after (o : Outcome) : Context := match o with Next c | Abort _ c => c end.

(** ** ipfilter *)

Inductive Mode := Whitelist | Blacklist.

Record Config := mkConfig { mode : Mode; IPs : list string; TrustProxy : bool }.

Record Builder := mkBuilder { cfg : Config; nets : list IPNet; ips : gset string }.

Definition add_raw (b : Builder) (raw : string) : Builder :=
  let raw := TrimSpace raw in
  if decide (raw = "") then b
  else if contains "/" raw then
    match ParseCIDR raw with
    | Some ipNet => mkBuilder (cfg b) (nets b ++ [ipNet]) (ips b)
    | None => b
    end
  else mkBuilder (cfg b) (nets b) ({[raw]} ∪ ips b).

Definition NewBuilder (cfg : Config) : Builder := foldl add_raw (mkBuilder cfg [] ∅) (IPs cfg).

Definition getClientIP (b : Builder) (c : Context) : string :=
  if TrustProxy (cfg b) then
    let ip := GetHeader "X-Real-IP" c in
    if decide (ip ≠ "") then TrimSpace ip
    else
      let forwarded := GetHeader "X-Forwarded-For" c in
      if decide (forwarded ≠ "") then TrimSpace (hd "" (Split "," forwarded))
      else client_ip c
  else client_ip c.

Definition isMatch (b : Builder) (clientIP : string) : bool :=
  if decide (clientIP ∈ ips b) then true
  else
    match ParseIP clientIP with
    | None => false
    | Some ip => existsb (λ n, Contains n ip) (nets b)
    end.

Definition Build (b : Builder) (c : Context) : Outcome :=
  let matched := isMatch b (getClientIP b c) in
  match mode (cfg b) with
  | Whitelist => if negb matched then Abort 403 c else Next c
  | Blacklist => if matched then Abort 403 c else Next c
  end.

Definition NewWhitelist (ips : list string) (trustProxy : list bool) : Context → Outcome :=
  Build (NewBuilder (mkConfig Whitelist ips (hd false trustProxy))).

Definition NewBlacklist (ips : list string) (trustProxy : list bool) : Context → Outcome :=
  Build (NewBuilder (mkConfig Blacklist ips (hd false trustProxy))).

(** ** adminauth *)

(** A plain address is the network of that address. *)
Definition complete (cidr : string) : string :=
  if contains "/" cidr then cidr
  else (cidr +:+ (if contains ":" cidr then "/128" else "/32"))%string.

Definition parse_entry (cidr : string) : option IPNet :=
  let cidr := TrimSpace cidr in
  if decide (cidr = "") then None else ParseCIDR (complete cidr).

Definition parseCIDRs (cidrs : list string) : list IPNet := omap parse_entry cidrs.

Definition isAllowed (clientIP : string) (nets : list IPNet) : bool :=
  match ParseIP clientIP with
  | None => false
  | Some ip => existsb (λ n, Contains n ip) nets
  end.

Definition TokenMiddleware (token : string) (c : Context) : Outcome :=
  if decide (GetHeader "Authorization" c ≠ ("Bearer " +:+ token)%string) then Abort 401 c else Next c.

Definition IPWhitelistMiddleware (allowedCIDRs : list string) (c : Context) : Outcome :=
  if negb (isAllowed (client_ip c) (parseCIDRs allowedCIDRs)) then Abort 403 c else Next c.

Definition CombinedMiddleware (token : string) (allowedCIDRs : list string) (c : Context) : Outcome :=
  if decide (GetHeader "Authorization" c = ("Bearer " +:+ token)%string) then Next c
  else if isAllowed (client_ip c) (parseCIDRs allowedCIDRs) then Next c
  else Abort 401 c.

(** ** cors *)

Record CorsConfig := mkCors {
  AllowOrigins : list string;
  AllowMethods : list string;
  AllowHeaders : list string;
  ExposeHeaders : list string;
  AllowCredentials : bool;
  MaxAge : Z
}.

Definition DefaultConfig : CorsConfig :=
  mkCors ["*"] ["GET"; "POST"; "PUT"; "PATCH"; "DELETE"; "OPTIONS"] ["Origin"; "Content-Type"; "Authorization"]
    [] false 86400.

(** A configuration without origins is replaced as a whole. *)
Definition effective (config : CorsConfig) : CorsConfig :=
  match AllowOrigins config with [] => DefaultConfig | _ => config end.

Definition allow_origin (config : CorsConfig) (origin : string) (c : Context) : Context :=
  if bool_decide ("*" ∈ AllowOrigins config) then
    if AllowCredentials config && bool_decide (origin ≠ "") then
      ResponseHeader "Vary" "Origin" (ResponseHeader "Access-Control-Allow-Origin" origin c)
    else ResponseHeader "Access-Control-Allow-Origin" "*" c
  else if decide (origin ≠ "" ∧ origin ∈ AllowOrigins config) then
    ResponseHeader "Vary" "Origin" (ResponseHeader "Access-Control-Allow-Origin" origin c)
  else c.

Definition list_header (name : string) (l : list string) (c : Context) : Context :=
  match l with [] => c | _ => ResponseHeader name (Join ", " l) c end.

Definition cors_New (config : CorsConfig) (c : Context) : Outcome :=
  let config := effective config in
  let c := allow_origin config (GetHeader "Origin" c) c in
  let c := list_header "Access-Control-Allow-Methods" (AllowMethods config) c in
  let c := list_header "Access-Control-Allow-Headers" (AllowHeaders config) c in
  let c := list_header "Access-Control-Expose-Headers" (ExposeHeaders config) c in
  let c := if AllowCredentials config then ResponseHeader "Access-Control-Allow-Credentials" "true" c else c in
  if decide (request_method c = "OPTIONS") then
    let c := if 0 <? MaxAge config then ResponseHeader "Access-Control-Max-Age" (pretty (MaxAge config)) c else c in
    Abort 204 c
  else Next c.

Definition cors_Default : Context → Outcome := cors_New DefaultConfig.

(** ** bodylimit *)

(** What a handler gets from reading the whole body, through
    [http.MaxBytesReader] or not: all of it, or what fits and an error. *)
Definition MaxBytesReader (n : Z) (body : list Ascii.ascii) : list Ascii.ascii * bool :=
  let n := Z.max 0 n in
  if Z.of_nat (length body) <=? n then (body, true) else (take (Z.to_nat n) body, false).

(** [None]: answered with 413.  The declared length is -1 when it is unknown. *)
Definition bodylimit (maxBytes contentLength : Z) (body : list Ascii.ascii) : option (list Ascii.ascii * bool) :=
  if maxBytes <? contentLength then None else Some (MaxBytesReader maxBytes body).

(** ** What the theorems speak of *)

(** An entry of a filter's list covers a client. *)
Definition covers (client : string) (raw : string) : bool :=
  let e := TrimSpace raw in
  if decide (e = "") then false
  else if contains "/" e then
    match ParseCIDR e, ParseIP client with Some n, Some ip => Contains n ip | _, _ => false end
  else bool_decide (client = e).

(** The check a browser makes before a page of origin [o] may read a response. *)
Definition browser_allows (credentials : bool) (o : string) (c : Context) : bool :=
  match response_headers c !! "Access-Control-Allow-Origin" with
  | None => false
  | Some h =>
      (negb credentials && bool_decide (h = "*")) ||
      (bool_decide (h = o) &&
       (negb credentials || bool_decide (response_headers c !! "Access-Control-Allow-Credentials" = Some "true")))
  end.

(** ** Lemmas *)

Lemma add_raws l b client :
  let b' := foldl add_raw b l in
  cfg b' = cfg b ∧ isMatch b' client = isMatch b client || existsb (covers client) l.
Proof.
  revert b. induction l as [|raw l IH]; intros b; simpl; [by rewrite orb_false_r|].
  destruct (IH (add_raw b raw)) as [Hc Hm]. simpl in Hc, Hm. rewrite Hc, Hm, orb_assoc.
  assert (cfg (add_raw b raw) = cfg b ∧ isMatch (add_raw b raw) client = isMatch b client || covers client raw)
    as [-> ->]; [|done].
  unfold add_raw, covers, isMatch. case_decide as He; [by rewrite orb_false_r|].
  destruct (contains "/" (TrimSpace raw)) eqn:Es.
  - destruct (ParseCIDR (TrimSpace raw)) as [n|]; simpl.
    + split; [done|]. case_decide; [done|]. destruct (ParseIP client) as [ip|]; [|done].
      rewrite existsb_app. simpl. by rewrite orb_false_r.
    + by rewrite orb_false_r.
  - simpl. split; [done|]. case_bool_decide as Hcl.
    + rewrite decide_True by set_solver. by rewrite orb_true_r.
    + rewrite orb_false_r. case_decide as Hin.
      * rewrite decide_True; [done|]. set_solver.
      * by rewrite decide_False by set_solver.
Qed.

Lemma isMatch_NewBuilder cfg0 client :
  cfg (NewBuilder cfg0) = cfg0 ∧ isMatch (NewBuilder cfg0) client = existsb (covers client) (IPs cfg0).
Proof.
  unfold NewBuilder. destruct (add_raws (IPs cfg0) (mkBuilder cfg0 [] ∅) client) as [-> ->]. split; [done|].
  replace (isMatch (mkBuilder cfg0 [] ∅) client) with false; [done|]. unfold isMatch. simpl.
  rewrite decide_False by set_solver. by destruct (ParseIP client).
Qed.

(** Setting one response header leaves the others. *)
Lemma ResponseHeader_other n v m c :
  m ≠ n → response_headers (ResponseHeader n v c) !! m = response_headers c !! m.
Proof.
  intros Hne. unfold ResponseHeader. case_decide; simpl; [by rewrite lookup_delete_ne|by rewrite lookup_insert_ne].
Qed.

Lemma ResponseHeader_same n v c : v ≠ "" → response_headers (ResponseHeader n v c) !! n = Some v.
Proof. intros Hv. unfold ResponseHeader. rewrite decide_False by done. apply lookup_insert_eq. Qed.

Lemma list_header_other n l m c :
  m ≠ n → response_headers (list_header n l c) !! m = response_headers c !! m.
Proof. intros Hne. unfold list_header. destruct l; [done|]. by apply ResponseHeader_other. Qed.

Lemma request_method_ResponseHeader n v c : request_method (ResponseHeader n v c) = request_method c.
Proof. unfold ResponseHeader. by case_decide. Qed.

Lemma request_method_list_header n l c : request_method (list_header n l c) = request_method c.
Proof. destruct l; [done|apply request_method_ResponseHeader]. Qed.

Lemma request_method_allow_origin cfg o c : request_method (allow_origin cfg o c) = request_method c.
Proof. unfold allow_origin. repeat case_match; by rewrite ?request_method_ResponseHeader. Qed.

(** The two headers a browser's check reads, after the whole handler. *)
Lemma cors_headers config c n :
  n ∈ ["Access-Control-Allow-Origin"; "Access-Control-Allow-Credentials"] →
  response_headers (after (cors_New config c)) !! n =
    response_headers
      ((if AllowCredentials (effective config) then ResponseHeader "Access-Control-Allow-Credentials" "true" else id)
         (allow_origin (effective config) (GetHeader "Origin" c) c)) !! n.
Proof.
  intros Hn. unfold cors_New. set (cfg := effective config).
  assert (∀ b c', response_headers (after (if decide (b = "OPTIONS") then
      let c := if 0 <? MaxAge cfg then ResponseHeader "Access-Control-Max-Age" (pretty (MaxAge cfg)) c' else c' in
      Abort 204 c else Next c')) !! n = response_headers c' !! n) as Hend.
  { intros b c'. case_decide; [|done]. simpl. case_match; [|done]. apply ResponseHeader_other. set_solver. }
  rewrite Hend. clear Hend.
  assert (∀ c', response_headers (list_header "Access-Control-Expose-Headers" (ExposeHeaders cfg)
    (list_header "Access-Control-Allow-Headers" (AllowHeaders cfg)
       (list_header "Access-Control-Allow-Methods" (AllowMethods cfg) c'))) !! n = response_headers c' !! n) as Hlists.
  { intros c'. rewrite !list_header_other; [done|set_solver..]. }
  destruct (AllowCredentials cfg); [|apply Hlists].
  destruct (decide (n = "Access-Control-Allow-Credentials")) as [->|Hne].
  - by rewrite !ResponseHeader_same.
  - rewrite !ResponseHeader_other by done. apply Hlists.
Qed.

Lemma cors_passes config c : passes (cors_New config c) = negb (bool_decide (request_method c = "OPTIONS")).
Proof.
  unfold cors_New. set (cfg := effective config).
  assert (∀ b c', passes (if decide (b = "OPTIONS") then
      let c := if 0 <? MaxAge cfg then ResponseHeader "Access-Control-Max-Age" (pretty (MaxAge cfg)) c' else c' in
      Abort 204 c else Next c') = negb (bool_decide (b = "OPTIONS"))) as Hend.
  { intros b c'. case_decide as E; [by rewrite bool_decide_eq_true_2|by rewrite bool_decide_eq_false_2]. }
  rewrite Hend. do 3 f_equal. destruct (AllowCredentials cfg);
    rewrite ?request_method_ResponseHeader, !request_method_list_header, request_method_allow_origin; done.
Qed.

Lemma allow_origin_credentials cfg o c :
  response_headers (allow_origin cfg o c) !! "Access-Control-Allow-Credentials" =
    response_headers c !! "Access-Control-Allow-Credentials".
Proof. unfold allow_origin. repeat case_match; by rewrite ?ResponseHeader_other by done. Qed.

Lemma allow_origin_header cfg o c :
  o ≠ "" → response_headers c !! "Access-Control-Allow-Origin" = None →
  response_headers (allow_origin cfg o c) !! "Access-Control-Allow-Origin" =
    if bool_decide ("*" ∈ AllowOrigins cfg) then Some (if AllowCredentials cfg then o else "*")
    else if decide (o ∈ AllowOrigins cfg) then Some o else None.
Proof.
  intros Ho Hc. unfold allow_origin. rewrite (bool_decide_eq_true_2 (o ≠ "")) by done. rewrite andb_true_r.
  case_bool_decide; [destruct (AllowCredentials cfg); rewrite ?ResponseHeader_other by done; by rewrite ResponseHeader_same|].
  case_decide as Hin; [|rewrite decide_False; [done|tauto]]. rewrite decide_True by tauto.
  by rewrite ResponseHeader_other, ResponseHeader_same.
Qed.

(** An entry that is a plain address lets in that address. *)
Lemma parse_entry_single s ip :
  ParseIP (TrimSpace s) = Some ip → ∃ n, parse_entry s = Some n ∧ ∀ ip', Contains n ip' = bool_decide (ip' = ip).
Proof.
  intros Hs. unfold parse_entry. rewrite decide_False by (intros E; by rewrite E in Hs).
  unfold complete. rewrite (ParseIP_foreign "/" _ _ ltac:(done) Hs). by apply ParseCIDR_single.
Qed.

Lemma parseCIDRs_singles l addrs ip :
  Forall2 (λ s ip, ParseIP (TrimSpace s) = Some ip) l addrs →
  existsb (λ n, Contains n ip) (parseCIDRs l) = bool_decide (ip ∈ addrs).
Proof.
  induction 1 as [|s a l addrs Hs Hl IH]; [by rewrite bool_decide_eq_false_2 by apply not_elem_of_nil|].
  destruct (parse_entry_single s a Hs) as (n & Hn & Hc). 
  change (parseCIDRs (s :: l)) with (match parse_entry s with Some n => n :: parseCIDRs l | None => parseCIDRs l end).
  rewrite Hn. cbn [existsb].
  rewrite Hc, IH, <- bool_decide_or. apply bool_decide_ext. by rewrite elem_of_cons.
Qed.

(** ** Properties *)

(** IP filters.  With one list, a blacklist lets through exactly the requests
    a whitelist stops; a whitelist lets a request through when some entry covers
    its client: textually, or for an entry with a prefix length when the network
    contains the client's address.  The client is the engine's address unless a
    proxy is trusted. *)
Theorem ip_filter_modes (l : list string) (trust : bool) (c : Context) :
  let client := getClientIP (NewBuilder (mkConfig Whitelist l trust)) c in
  let w := NewWhitelist l [trust] c in
  let b := NewBlacklist l [trust] c in
  passes w = negb (passes b) ∧ passes w = existsb (covers client) l ∧ after w = c ∧ after b = c ∧
  (trust = false → client = client_ip c).
Proof.
  intros client w b.
  destruct (isMatch_NewBuilder (mkConfig Whitelist l trust) client) as [Hcw Hw].
  destruct (isMatch_NewBuilder (mkConfig Blacklist l trust) client) as [Hcb Hb].
  assert (getClientIP (NewBuilder (mkConfig Blacklist l trust)) c = client) as Hclient
    by (unfold client, getClientIP; by rewrite Hcw, Hcb).
  subst w b. unfold NewWhitelist, NewBlacklist, Build. simpl hd. rewrite Hcw, Hcb, Hclient. fold client.
  rewrite Hw, Hb. simpl. split_and!; try (by destruct (existsb _ _)).
  intros ->. unfold client, getClientIP. by rewrite Hcw.
Qed.

(** Administration by address.  When every entry is an address, a request
    gets through exactly if its own address is one of them, however either is
    spelled; the combined guard also lets the token through. *)
Theorem admin_addresses (l : list string) (addrs : list IP) (token : string) (c : Context) :
  Forall2 (λ s ip, ParseIP (TrimSpace s) = Some ip) l addrs →
  let listed := match ParseIP (client_ip c) with Some ip => bool_decide (ip ∈ addrs) | None => false end in
  passes (IPWhitelistMiddleware l c) = listed ∧
  passes (CombinedMiddleware token l c) =
    (bool_decide (GetHeader "Authorization" c = ("Bearer " +:+ token)%string) || listed).
Proof.
  intros Hl listed. assert (isAllowed (client_ip c) (parseCIDRs l) = listed) as Ha.
  { unfold isAllowed, listed. destruct (ParseIP (client_ip c)); [|done]. by apply parseCIDRs_singles. }
  unfold IPWhitelistMiddleware, CombinedMiddleware. rewrite Ha. split; [by destruct listed|].
  case_decide as E; [by rewrite bool_decide_eq_true_2|]. rewrite bool_decide_eq_false_2 by done. by destruct listed.
Qed.

Lemma admin_addresses_witness :
  passes (IPWhitelistMiddleware [" ::ffff:10.0.0.1"] (request "GET" ∅ ∅ "10.0.0.1")) = true.
Proof.
  destruct (admin_addresses [" ::ffff:10.0.0.1"] [V4 167772161] "t" (request "GET" ∅ ∅ "10.0.0.1")) as [-> _].
  - repeat constructor.
  - by vm_compute.
Defined.

(** What a CORS configuration grants.  A browser lets a page of an origin
    read the response exactly when the origin is listed or all are, and with
    credentials only when the configuration allows them (then, with all origins
    listed, every origin may read with credentials).  Preflights end here; every
    other request goes on, whatever its origin. *)
Theorem cors_grants (config : CorsConfig) (c : Context) (o : string) (credentials : bool) :
  GetHeader "Origin" c = o → o ≠ "" →
  response_headers c !! "Access-Control-Allow-Origin" = None →
  response_headers c !! "Access-Control-Allow-Credentials" = None →
  let cfg := effective config in
  browser_allows credentials o (after (cors_New config c)) =
    bool_decide ("*" ∈ AllowOrigins cfg ∨ o ∈ AllowOrigins cfg) && (negb credentials || AllowCredentials cfg) ∧
  passes (cors_New config c) = negb (bool_decide (request_method c = "OPTIONS")).
Proof.
  intros Ho Hne Hc1 Hc2 cfg. split; [|apply cors_passes].
  unfold browser_allows. rewrite !cors_headers by set_solver. rewrite Ho. fold cfg.
  assert (response_headers ((if AllowCredentials cfg then ResponseHeader "Access-Control-Allow-Credentials" "true" else id)
    (allow_origin cfg o c)) !! "Access-Control-Allow-Credentials" = if AllowCredentials cfg then Some "true" else None) as ->.
  { destruct (AllowCredentials cfg); [by rewrite ResponseHeader_same|]. simpl. by rewrite allow_origin_credentials. }
  assert (response_headers ((if AllowCredentials cfg then ResponseHeader "Access-Control-Allow-Credentials" "true" else id)
    (allow_origin cfg o c)) !! "Access-Control-Allow-Origin" =
    response_headers (allow_origin cfg o c) !! "Access-Control-Allow-Origin") as ->.
  { destruct (AllowCredentials cfg); [by rewrite ResponseHeader_other|done]. }
  rewrite allow_origin_header by done. rewrite bool_decide_or. case_bool_decide as Hall; simpl.
  - destruct (AllowCredentials cfg), credentials; simpl; rewrite ?(bool_decide_eq_true_2 (o = o)) by done; simpl;
      by rewrite ?orb_true_r, ?andb_false_r.
  - case_decide as Hin; simpl; [|by rewrite bool_decide_eq_false_2].
    rewrite (bool_decide_eq_true_2 (o = o)), (bool_decide_eq_true_2 (o ∈ _)) by done.
    destruct (AllowCredentials cfg), credentials; simpl;
      by rewrite ?orb_true_r, ?andb_false_r.
Qed.

Lemma cors_grants_witness :
  let config := mkCors ["*"] [] [] [] true 0 in
  browser_allows true "https://evil.example"
    (after (cors_New config (request "GET" {["Origin" := "https://evil.example"]} ∅ ""))) = true.
Proof.
  cbv zeta. destruct (cors_grants (mkCors ["*"] [] [] [] true 0)
    (request "GET" {["Origin" := "https://evil.example"]} ∅ "") "https://evil.example" true) as [-> _]; by vm_compute.
Defined.

(** ** What the code does not promise *)

(** A trusted proxy header is taken as it is written: another spelling of a
    listed address is not on the list, for a filter, though it is the same
    address for the network entries and for [adminauth]. *)
Lemma spelling_passes_blacklist :
  passes (NewBlacklist ["10.0.0.1"] [true] (request "GET" {["X-Real-IP" := "::ffff:10.0.0.1"]} ∅ "")) = true ∧
  passes (NewBlacklist ["10.0.0.1/32"] [true] (request "GET" {["X-Real-IP" := "::ffff:10.0.0.1"]} ∅ "")) = false.
Proof. by vm_compute. Qed.

(** A network that does not parse is left out without a word: a blacklist lets
    its addresses through. *)
Lemma bad_network_ignored :
  passes (NewBlacklist ["10.0.0.0/33"] [] (request "GET" ∅ ∅ "10.0.0.1")) = true.
Proof. by vm_compute. Qed.

End Guards.
