(* ===== verification/Csrf.v ===== *)
(** * Cross-site request forgery guard (src/middlewares/csrf)

    Double-submit tokens signed with a secret.  Base64 is the standard library's
    URL encoding; the keyed hash is the class [Hmac], any function. *)

From S2P Require Import Prelude Text Web.
Import Text Web.

Module Csrf.

(** ** [base64.URLEncoding] *)

Definition alphabet : string := "ABCDEFGHIJKLMNOPQRSTUVWXYZabcdefghijklmnopqrstuvwxyz0123456789-_".

Definition char (i : Z) : ascii := default "A"%char (String.get (Z.to_nat i) alphabet).

Fixpoint index_in (s : string) (c : ascii) : option Z :=
  match s with
  | EmptyString => None
  | String a s => if Ascii.eqb a c then Some 0 else Z.succ <$> index_in s c
  end.

Definition index (c : ascii) : option Z := index_in alphabet c.

Definition code (a : ascii) : Z := Z.of_nat (nat_of_ascii a).

Definition byte (n : Z) : ascii := ascii_of_nat (Z.to_nat n).

Fixpoint EncodeToString (s : string) : string :=
  match s with
  | EmptyString => ""
  | String a EmptyString =>
      String (char (code a / 4)) (String (char (code a `mod` 4 * 16)) "==")
  | String a (String b EmptyString) =>
      String (char (code a / 4)) (String (char (code a `mod` 4 * 16 + code b / 16))
        (String (char (code b `mod` 16 * 4)) "="))
  | String a (String b (String c rest)) =>
      String (char (code a / 4)) (String (char (code a `mod` 4 * 16 + code b / 16))
        (String (char (code b `mod` 16 * 4 + code c / 64)) (String (char (code c `mod` 64)) (EncodeToString rest))))
  end.

(** The decoder skips line ends wherever they are. *)
Fixpoint skip_newlines (s : string) : string :=
  match s with
  | EmptyString => ""
  | String a s =>
      if Ascii.eqb a (ascii_of_nat 10) || Ascii.eqb a (ascii_of_nat 13) then skip_newlines s
      else String a (skip_newlines s)
  end.

Fixpoint decode_quanta (s : string) : option string :=
  match s with
  | EmptyString => Some ""
  | String a (String b (String c (String d rest))) =>
      x ← index a;
      y ← index b;
      let first := byte (x * 4 + y / 16) in
      if Ascii.eqb c "=" then
        if Ascii.eqb d "=" && String.eqb rest "" then Some (String first "") else None
      else
        z ← index c;
        let second := byte (y `mod` 16 * 16 + z / 4) in
        if Ascii.eqb d "=" then
          if String.eqb rest "" then Some (String first (String second "")) else None
        else
          w ← index d;
          tail ← decode_quanta rest;
          Some (String first (String second (String (byte (z `mod` 4 * 64 + w)) tail)))
  | _ => None
  end.

Definition DecodeString (s : string) : option string := decode_quanta (skip_newlines s).

(** ** Configuration *)

(** HMAC-SHA256 of a message under a key. *)
Class Hmac := hmac : string → string → string.

Inductive Error := ErrNoCookie | ErrLookupMethod (m : string) | ErrValidation.

(** An error handler answers the request and may abort it. *)
Record Config := mkConfig {
  Secret : string;
  TokenLength : Z;
  TokenLookup : string;
  CookieName : string;
  CookieDomain : string;
  CookiePath : string;
  CookieHTTPOnly : bool;
  CookieSecure : bool;
  CookieSameSite : Z;
  CookieMaxAge : Z;
  SkipFunc : option (Context → bool);
  ErrorHandler : option (Error → Context → bool * Context)
}.

Definition safe_method (c : Context) : bool :=
  bool_decide (request_method c ∈ ["GET"; "HEAD"; "OPTIONS"]).

Definition forbid (e : Error) (c : Context) : bool * Context := (true, c).

Definition SameSiteLaxMode : Z := 2.

Definition DefaultConfig : Config :=
  mkConfig "" 32 "header:X-CSRF-Token" "_csrf" "" "/" true false SameSiteLaxMode 86400 (Some safe_method) (Some forbid).

Definition or_text (s d : string) : string := if decide (s = "") then d else s.

(** [New] fills what is left out. *)
Definition with_defaults (c : Config) : Config :=
  mkConfig (Secret c) (if TokenLength c <=? 0 then 32 else TokenLength c)
    (or_text (TokenLookup c) "header:X-CSRF-Token") (or_text (CookieName c) "_csrf") (CookieDomain c)
    (or_text (CookiePath c) "/") (CookieHTTPOnly c) (CookieSecure c) (CookieSameSite c)
    (if CookieMaxAge c <=? 0 then 86400 else CookieMaxAge c)
    (Some (default safe_method (SkipFunc c))) (Some (default forbid (ErrorHandler c))).

(** ** Tokens *)

Section Csrf.
Context `{Hmac}.

(** The nonce of the given length is the caller's random choice. *)
Definition generateToken (nonce secret : string) : string :=
  (EncodeToString nonce +:+ "." +:+ EncodeToString (hmac secret nonce))%string.

Definition token_cookie (cfg : Config) (token : string) (sameSite : Z) : Cookie :=
  mkCookie (CookieName cfg) token (CookieMaxAge cfg) (CookiePath cfg) (CookieDomain cfg) (CookieSecure cfg)
    (CookieHTTPOnly cfg) sameSite.

(** The cookie is set twice when it has a SameSite attribute. *)
Definition setTokenCookie (cfg : Config) (token : string) (c : Context) : Context :=
  let c := SetCookie (token_cookie cfg token 0) c in
  if CookieSameSite cfg =? 0 then c else SetCookie (token_cookie cfg token (CookieSameSite cfg)) c.

Definition validateToken (storedToken submittedToken secret : string) : bool :=
  if decide (storedToken = "" ∨ submittedToken = "") then false
  else if negb (String.eqb storedToken submittedToken) then false
  else
    match Cut "." storedToken with
    | (_, None) => false
    | (p0, Some p1) =>
        match DecodeString p0, DecodeString p1 with
        | Some nonce, Some sig => String.eqb sig (hmac secret nonce)
        | _, _ => false
        end
    end.

(** ** The middleware *)

(** A request that goes on carries the token stored with it, if any. *)
Inductive Outcome := Abort (c : Context) | Next (csrf_token : option string) (c : Context).

(** After the error handler the middleware returns: unless the handler aborted,
    the engine runs the handlers that follow. *)
Definition handle_error (cfg : Config) (e : Error) (c : Context) : Outcome :=
  let '(aborted, c) := default forbid (ErrorHandler cfg) e c in
  if aborted then Abort c else Next None c.

Definition submitted (lookupMethod lookupKey : string) (c : Context) : option string :=
  if decide (lookupMethod = "header") then Some (GetHeader lookupKey c)
  else if decide (lookupMethod = "form") then Some (default "" (form (request_args c) !! lookupKey))
  else if decide (lookupMethod = "query") then Some (default "" (query (request_args c) !! lookupKey))
  else None.

Definition handler (cfg : Config) (lookupMethod lookupKey nonce : string) (c : Context) : Outcome :=
  if default safe_method (SkipFunc cfg) c then
    let token := generateToken nonce (Secret cfg) in
    Next (Some token) (setTokenCookie cfg token c)
  else
    match CookieOf (CookieName cfg) c with
    | Err _ =>
        let token := generateToken nonce (Secret cfg) in
        handle_error cfg ErrNoCookie (setTokenCookie cfg token c)
    | Ok storedToken =>
        match submitted lookupMethod lookupKey c with
        | None => handle_error cfg (ErrLookupMethod lookupMethod) c
        | Some submittedToken =>
            if negb (validateToken storedToken submittedToken (Secret cfg)) then handle_error cfg ErrValidation c
            else Next (Some storedToken) c
        end
    end.

(** [None] is a panic. *)
Definition New (config : Config) : option (string → Context → Outcome) :=
  if decide (Secret config = "") then None
  else
    let config := with_defaults config in
    match Split ":" (TokenLookup config) with
    | [lookupMethod; lookupKey] => Some (handler config lookupMethod lookupKey)
    | _ => None
    end.

Definition set_secret (secret : string) (c : Config) : Config :=
  mkConfig secret (TokenLength c) (TokenLookup c) (CookieName c) (CookieDomain c) (CookiePath c) (CookieHTTPOnly c)
    (CookieSecure c) (CookieSameSite c) (CookieMaxAge c) (SkipFunc c) (ErrorHandler c).

Definition Default (secret : string) : option (string → Context → Outcome) := New (set_secret secret DefaultConfig).

Definition GetToken (csrf_token : option string) : string := default "" csrf_token.

(** ** The builder *)

Definition NewBuilder (secret : string) : Config := set_secret secret DefaultConfig.

Definition WithTokenLength (length : Z) (c : Config) : Config :=
  mkConfig (Secret c) length (TokenLookup c) (CookieName c) (CookieDomain c) (CookiePath c) (CookieHTTPOnly c)
    (CookieSecure c) (CookieSameSite c) (CookieMaxAge c) (SkipFunc c) (ErrorHandler c).

Definition WithTokenLookup (lookup : string) (c : Config) : Config :=
  mkConfig (Secret c) (TokenLength c) lookup (CookieName c) (CookieDomain c) (CookiePath c) (CookieHTTPOnly c)
    (CookieSecure c) (CookieSameSite c) (CookieMaxAge c) (SkipFunc c) (ErrorHandler c).

Definition WithCookieName (name : string) (c : Config) : Config :=
  mkConfig (Secret c) (TokenLength c) (TokenLookup c) name (CookieDomain c) (CookiePath c) (CookieHTTPOnly c)
    (CookieSecure c) (CookieSameSite c) (CookieMaxAge c) (SkipFunc c) (ErrorHandler c).

Definition WithCookieConfig (domain path : string) (httpOnly secure : bool) (sameSite maxAge : Z) (c : Config) : Config :=
  mkConfig (Secret c) (TokenLength c) (TokenLookup c) (CookieName c) domain path httpOnly secure sameSite maxAge
    (SkipFunc c) (ErrorHandler c).

Definition WithSkipFunc (skipFunc : Context → bool) (c : Config) : Config :=
  mkConfig (Secret c) (TokenLength c) (TokenLookup c) (CookieName c) (CookieDomain c) (CookiePath c) (CookieHTTPOnly c)
    (CookieSecure c) (CookieSameSite c) (CookieMaxAge c) (Some skipFunc) (ErrorHandler c).

Definition WithErrorHandler (h : Error → Context → bool * Context) (c : Config) : Config :=
  mkConfig (Secret c) (TokenLength c) (TokenLookup c) (CookieName c) (CookieDomain c) (CookiePath c) (CookieHTTPOnly c)
    (CookieSecure c) (CookieSameSite c) (CookieMaxAge c) (SkipFunc c) (Some h).

Definition Build (c : Config) : option (string → Context → Outcome) := New c.

(** ** What the theorems speak of *)

(** A token whose second half signs its first. *)
Definition signed (secret t : string) : Prop :=
  ∃ p q nonce, t = (p +:+ String "." q)%string ∧ contains "." p = false ∧
    DecodeString p = Some nonce ∧ DecodeString q = Some (hmac secret nonce).

Definition aborting (cfg : Config) : Prop :=
  ∀ e c, (default forbid (ErrorHandler cfg) e c).1 = true.

End Csrf.

(** A toy hash: the key and the message. *)
#[export] Instance toy_hmac : Hmac := λ key msg, (key +:+ "/" +:+ msg)%string.

Definition sample : Config := set_secret "k" DefaultConfig.

Definition posted (cookie header : string) : Context :=
  request "POST" {["X-CSRF-Token" := header]} {["_csrf" := cookie]} "".

(** Each index has its letter, which is no padding, no dot and no line end. *)
Definition letter_ok (i : Z) : bool :=
  bool_decide (index (char i) = Some i) && negb (Ascii.eqb (char i) "=") && negb (Ascii.eqb (char i) ".") &&
  negb (Ascii.eqb (char i) (ascii_of_nat 10)) && negb (Ascii.eqb (char i) (ascii_of_nat 13)).

(** ** Lemmas *)

Lemma byte_code a : byte (code a) = a.
Proof. unfold byte, code. by rewrite Nat2Z.id, ascii_nat_embedding. Qed.

Lemma code_range a : 0 ≤ code a < 256.
Proof. unfold code. pose proof (nat_ascii_bounded a). lia. Qed.

Lemma letters i : 0 ≤ i < 64 → letter_ok i = true.
Proof.
  intros Hi. assert (forallb letter_ok (Z.of_nat <$> seq 0 64) = true) as Hall by (by vm_compute).
  rewrite forallb_elem in Hall. apply Hall, list_elem_of_fmap. exists (Z.to_nat i).
  split; [lia|]. apply elem_of_seq. lia.
Qed.

Lemma letter_props i :
  0 ≤ i < 64 → index (char i) = Some i ∧ Ascii.eqb (char i) "=" = false ∧ Ascii.eqb (char i) "." = false ∧
  Ascii.eqb (char i) (ascii_of_nat 10) = false ∧ Ascii.eqb (char i) (ascii_of_nat 13) = false.
Proof.
  intros Hi. pose proof (letters i Hi) as Hl. unfold letter_ok in Hl.
  rewrite !andb_true_iff, bool_decide_eq_true, !negb_true_iff in Hl. tauto.
Qed.

(** Recombining the six-bit groups. *)
Lemma groups_first a b : 0 ≤ b < 256 → a / 4 * 4 + (a `mod` 4 * 16 + b / 16) / 16 = a.
Proof. intros. Z.to_euclidean_division_equations. lia. Qed.

Lemma groups_second b c x :
  0 ≤ b < 256 → 0 ≤ c < 256 → (x `mod` 4 * 16 + b / 16) `mod` 16 * 16 + (b `mod` 16 * 4 + c / 64) / 4 = b.
Proof. intros. Z.to_euclidean_division_equations. lia. Qed.

Lemma groups_third b c : 0 ≤ c < 256 → (b `mod` 16 * 4 + c / 64) `mod` 4 * 64 + c `mod` 64 = c.
Proof. intros. Z.to_euclidean_division_equations. lia. Qed.

Lemma group_ranges a b c :
  0 ≤ a < 256 → 0 ≤ b < 256 → 0 ≤ c < 256 →
  0 ≤ a / 4 < 64 ∧ 0 ≤ a `mod` 4 * 16 + b / 16 < 64 ∧ 0 ≤ b `mod` 16 * 4 + c / 64 < 64 ∧ 0 ≤ c `mod` 64 < 64.
Proof. intros. Z.to_euclidean_division_equations. lia. Qed.

(** Letters pass through the scanners. *)
Lemma skip_letter i s : 0 ≤ i < 64 → skip_newlines (String (char i) s) = String (char i) (skip_newlines s).
Proof. intros Hi. destruct (letter_props i Hi) as (_ & _ & _ & H1 & H2). cbn [skip_newlines]. by rewrite H1, H2. Qed.

Lemma dot_letter i s : 0 ≤ i < 64 → contains "." (String (char i) s) = contains "." s.
Proof. intros Hi. destruct (letter_props i Hi) as (_ & _ & H1 & _). cbn [contains]. by rewrite H1. Qed.

(** A full group decodes to its three bytes before the rest. *)
Lemma decode_group x y z w rest :
  0 ≤ x < 64 → 0 ≤ y < 64 → 0 ≤ z < 64 → 0 ≤ w < 64 →
  decode_quanta (String (char x) (String (char y) (String (char z) (String (char w) rest)))) =
    (λ tail, String (byte (x * 4 + y / 16)) (String (byte (y `mod` 16 * 16 + z / 4))
       (String (byte (z `mod` 4 * 64 + w)) tail))) <$> decode_quanta rest.
Proof.
  intros Hx Hy Hz Hw. destruct (letter_props x Hx) as (Ex & _). destruct (letter_props y Hy) as (Ey & _).
  destruct (letter_props z Hz) as (Ez & Pz & _). destruct (letter_props w Hw) as (Ew & Pw & _).
  cbn [decode_quanta]. rewrite Ex, Ey. cbn [mbind option_bind]. rewrite Pz, Ez. cbn [mbind option_bind].
  rewrite Pw, Ew. cbn [mbind option_bind]. by destruct (decode_quanta rest).
Qed.

Lemma encode_props n s :
  (String.length s ≤ n)%nat →
  skip_newlines (EncodeToString s) = EncodeToString s ∧ contains "." (EncodeToString s) = false ∧
  decode_quanta (EncodeToString s) = Some s.
Proof.
  revert s. induction n as [n IH] using lt_wf_ind. intros s Hn.
  destruct s as [|a [|b [|c rest]]]; [done| | |].
  - pose proof (code_range a). destruct (group_ranges (code a) 0 0) as (Hx & Hy & _); [lia..|].
    rewrite Z.add_0_r in Hy. cbn [EncodeToString]. rewrite !skip_letter, !dot_letter by done. split_and!; [done|done|].
    cbn [decode_quanta]. rewrite (proj1 (letter_props _ Hx)), (proj1 (letter_props _ Hy)). cbn [mbind option_bind].
    simpl. pose proof (groups_first (code a) 0) as Hg. rewrite Z.div_0_l, Z.add_0_r in Hg by lia.
    by rewrite Hg, byte_code by lia.
  - pose proof (code_range a). pose proof (code_range b).
    destruct (group_ranges (code a) (code b) 0) as (Hx & Hy & Hz & _); [lia..|].
    rewrite Z.div_0_l, Z.add_0_r in Hz by lia.
    cbn [EncodeToString]. rewrite !skip_letter, !dot_letter by done. split_and!; [done|done|].
    destruct (letter_props _ Hz) as (Ez & Pz & _).
    cbn [decode_quanta]. rewrite (proj1 (letter_props _ Hx)), (proj1 (letter_props _ Hy)). cbn [mbind option_bind].
    rewrite Pz, Ez. cbn [mbind option_bind]. simpl.
    pose proof (groups_second (code b) 0 (code a)) as Hg. rewrite Z.div_0_l, Z.add_0_r in Hg by lia.
    by rewrite groups_first, Hg, !byte_code by lia.
  - pose proof (code_range a). pose proof (code_range b). pose proof (code_range c).
    destruct (group_ranges (code a) (code b) (code c)) as (Hx & Hy & Hz & Hw); [lia..|].
    destruct (IH (String.length rest) ltac:(simpl in Hn; lia) rest ltac:(lia)) as (Hr1 & Hr2 & Hr3).
    cbn [EncodeToString]. rewrite !skip_letter, !dot_letter, decode_group, Hr1, Hr2, Hr3 by done. split_and!; [done|done|].
    cbn [fmap option_fmap option_map]. by rewrite groups_first, groups_second, groups_third, !byte_code by lia.
Qed.

Lemma DecodeString_Encode s : DecodeString (EncodeToString s) = Some s.
Proof. unfold DecodeString. destruct (encode_props (String.length s) s) as (-> & _ & ->); done. Qed.

Lemma Encode_no_dot s : contains "." (EncodeToString s) = false.
Proof. by destruct (encode_props (String.length s) s) as (_ & -> & _). Qed.

Section Lemmas.
Context `{Hmac}.

Lemma validate_signed secret t t' : validateToken t t' secret = true ↔ t = t' ∧ signed secret t.
Proof.
  unfold validateToken. split.
  - case_decide as Hne; [done|]. destruct (String.eqb_spec t t') as [<-|]; [|done]. simpl.
    destruct (Cut "." t) as [p [q|]] eqn:Ec; [|done]. destruct (Cut_some _ _ _ _ Ec) as [-> Hp].
    destruct (DecodeString p) as [nonce|] eqn:Ep; [|done]. destruct (DecodeString q) as [sig|] eqn:Eq; [|done].
    intros Hs%String.eqb_eq. subst sig. split; [done|]. by exists p, q, nonce.
  - intros [<- (p & q & nonce & -> & Hp & Ep & Eq)].
    rewrite decide_False by (intros [E|E]; by destruct p). rewrite String.eqb_refl. simpl.
    rewrite Cut_app, Ep, Eq by done. apply String.eqb_refl.
Qed.

Lemma generateToken_signed nonce secret : signed secret (generateToken nonce secret).
Proof.
  exists (EncodeToString nonce), (EncodeToString (hmac secret nonce)), nonce.
  split_and!; [done|apply Encode_no_dot|apply DecodeString_Encode|apply DecodeString_Encode].
Qed.

Lemma handle_error_aborts cfg e c : aborting cfg → ∃ c', handle_error cfg e c = Abort c'.
Proof.
  intros Ha. specialize (Ha e c). unfold handle_error. destruct (default forbid (ErrorHandler cfg) e c) as [b c'].
  simpl in Ha. subst b. by exists c'.
Qed.

Lemma aborting_defaults cfg : aborting cfg → aborting (with_defaults cfg).
Proof. done. Qed.

End Lemmas.

(** ** Properties *)

(** C33. The gate.  With a secret, a well-formed lookup and an error handler that aborts, a request that is not
    skipped goes on exactly when its cookie holds a token signed with the secret
    and it submits that very token where the configuration says; every generated
    token is so signed, and a skipped request goes on with a fresh one in its
    cookie.  Base64 here is the standard library's, decoded after encoding. *)
Theorem csrf_gate `{Hmac} cfg how key c nonce :
  let cfg' := with_defaults cfg in
  Secret cfg ≠ "" → Split ":" (TokenLookup cfg') = [how; key] → aborting cfg →
  ∃ mw, New cfg = Some mw ∧
    (default safe_method (SkipFunc cfg) c = false →
       ∀ tok, (∃ c', mw nonce c = Next tok c') ↔
         ∃ t, tok = Some t ∧ CookieOf (CookieName cfg') c = Ok t ∧ submitted how key c = Some t ∧
              signed (Secret cfg) t) ∧
    (default safe_method (SkipFunc cfg) c = true →
       ∃ c', mw nonce c = Next (Some (generateToken nonce (Secret cfg))) c' ∧
         token_cookie cfg' (generateToken nonce (Secret cfg)) 0 ∈ response_cookies c') ∧
    (∀ n, signed (Secret cfg) (generateToken n (Secret cfg))).
Proof.
  intros cfg' Hsecret Hlookup Ha. exists (handler cfg' how key).
  split; [unfold New; rewrite decide_False by done; fold cfg'; by rewrite Hlookup|]. unfold handler.
  change (SkipFunc cfg') with (Some (default safe_method (SkipFunc cfg))).
  change (Secret cfg') with (Secret cfg). cbn [default from_option]. split_and!; [| |intros; apply generateToken_signed].
  - intros Hskip tok. cbn [id]. rewrite Hskip.
    assert (∀ e c1, ¬ ∃ c', handle_error cfg' e c1 = Next tok c') as Herr.
    { intros e c1 [c' E]. destruct (handle_error_aborts cfg' e c1 (aborting_defaults _ Ha)) as [c2 E2]. congruence. }
    split.
    + intros [c' E]. destruct (CookieOf (CookieName cfg') c) as [stored|e]; [|by destruct (Herr _ _ (ex_intro _ _ E))].
      destruct (submitted how key c) as [sub|]; [|by destruct (Herr _ _ (ex_intro _ _ E))].
      destruct (validateToken stored sub (Secret cfg)) eqn:Ev; [|by destruct (Herr _ _ (ex_intro _ _ E))].
      apply validate_signed in Ev as [<- Hs]. injection E as <- _. by exists stored.
    + intros (t & -> & -> & -> & Hs). exists c. by rewrite (proj2 (validate_signed _ t t)).
  - intros Hskip. cbn [id]. rewrite Hskip. eexists. split; [done|]. unfold setTokenCookie. case_match; simpl; set_solver.
Qed.

Lemma csrf_gate_witness :
  let t := generateToken "n" "k" in
  ∃ mw, New sample = Some mw ∧ ∃ c', mw "m" (posted t t) = Next (Some t) c'.
Proof.
  intros t.
  destruct (csrf_gate sample "header" "X-CSRF-Token" (posted t t) "m") as (mw & Hnew & Hgate & _ & Hsigned); [done..|].
  exists mw. split; [done|]. apply (Hgate eq_refl). exists t. split_and!; [done|by vm_compute|by vm_compute|apply Hsigned].
Defined.

(** ** What the code does not promise *)

(** An error handler that only answers: the request goes on without a token. *)
Lemma soft_error_handler_lets_through :
  ∃ mw, New (WithErrorHandler (λ _ c, (false, c)) sample) = Some mw ∧
    mw "n" (posted "" "") = Next None (posted "" "").
Proof. eexists. split; [reflexivity|]. by vm_compute. Qed.

(** Every safe request replaces the token, so that the form of a page opened
    before another one is refused. *)
Lemma second_page_refuses_first :
  ∃ mw, New sample = Some mw ∧
    (∃ c', mw "1" (request "GET" ∅ ∅ "") = Next (Some (generateToken "1" "k")) c') ∧
    (∃ c', mw "2" (request "GET" ∅ ∅ "") = Next (Some (generateToken "2" "k")) c') ∧
    ∃ c', mw "3" (posted (generateToken "2" "k") (generateToken "1" "k")) = Abort c'.
Proof. eexists. split; [reflexivity|]. split_and!; eexists; by vm_compute. Qed.

End Csrf.
