(* ===== verification/Timeout.v ===== *)
(** * Timeouts (src/middlewares/timeout/middleware.go)

    A request's handlers run in a goroutine of their own while the middleware
    waits for them, for their panic or for the deadline.  The goroutine goes on after
    the deadline, with the gin context in hand, and the engine gives a context
    to the next request once the middleware has returned: the model has any
    number of contexts and steps every goroutine operation by operation. *)

From S2P Require Import Prelude.

Module Timeout.

(** ** Responses *)

Inductive Chunk := Text (s : string) | GatewayTimeout.

(** [sent] is the status that has gone out with the first byte. *)
Record Resp := mkResp { status : Z; sent : option Z; body : list Chunk }.

Definition new_resp : Resp := mkResp 200 None [].

(** A status set after the first byte is lost. *)
Definition WriteHeader (code : Z) (w : Resp) : Resp :=
  match sent w with None => mkResp code None (body w) | Some _ => w end.

Definition Write (c : Chunk) (w : Resp) : Resp :=
  mkResp (status w) (Some (default (status w) (sent w))) (body w ++ [c]).

Definition JSON (code : Z) (c : Chunk) (w : Resp) : Resp := Write c (WriteHeader code w).

(** ** Handlers: what [c.Next()] does to its response, looking at the request's context or not *)

Inductive Prog :=
| Return
| Panic (p : string)
| HStatus (code : Z) (k : Prog)
| HWrite (s : string) (k : Prog)
| IfCancelled (k1 k2 : Prog).

(** ** The middleware *)

(** What the call of the middleware waits for, or how it ended. *)
Inductive Main := Select | Finished | Repanicked (p : string) | TimedOut.

(** A request under the middleware: the context object and the response it was
    given, the deadline, whether its context has been cancelled, what its
    goroutine has left to do, and the two channels. *)
Record Call := mkCall {
  ctx : nat;
  deadline : Time;
  cancelled : bool;
  main : Main;
  goroutine : option Prog;
  done : bool;
  panicCh : option string
}.

(** [targets] says whose response a context object writes to; calls and responses
    have the same numbers. *)
Record Engine := mkEngine {
  now : Time;
  calls : list Call;
  responses : list Resp;
  targets : gmap nat nat
}.

Definition engine (now : Time) : Engine := mkEngine now [] [] ∅.

(** The engine's pool: a context is free when no call of the middleware holds it. *)
Definition free (e : Engine) (x : nat) : bool :=
  forallb (λ c, negb (bool_decide (ctx c = x) && match main c with Select => true | _ => false end)) (calls e).

(** [Middleware]: the context with its deadline, the channels and the goroutine. *)
Definition Middleware (d : Duration) (x : nat) (next : Prog) (e : Engine) : Engine :=
  mkEngine (now e) (calls e ++ [mkCall x (now e + d) false Select (Some next) false None]) (responses e ++ [new_resp])
    (<[x := length (calls e)]> (targets e)).

(** A handler run to its end by the caller itself. *)
Fixpoint run_prog (cancelled : bool) (p : Prog) (w : Resp) : option string * Resp :=
  match p with
  | Return => (None, w)
  | Panic p => (Some p, w)
  | HStatus code k => run_prog cancelled k (WriteHeader code w)
  | HWrite s k => run_prog cancelled k (Write (Text s) w)
  | IfCancelled k1 k2 => run_prog cancelled (if cancelled then k1 else k2) w
  end.

(** [PerRoute]: without a duration the handlers run in the caller. *)
Definition PerRoute (keyFunc : Duration) (x : nat) (next : Prog) (e : Engine) : Engine :=
  if keyFunc <=? 0 then
    let '(p, w) := run_prog false next new_resp in
    mkEngine (now e)
      (calls e ++ [mkCall x (now e) false (match p with None => Finished | Some p => Repanicked p end) None false None])
      (responses e ++ [w]) (<[x := length (calls e)]> (targets e))
  else Middleware keyFunc x next e.

Definition set_call (i : nat) (c : Call) (e : Engine) : Engine :=
  mkEngine (now e) (<[i := c]> (calls e)) (responses e) (targets e).

(** A write goes to the response the context object has now. *)
Definition write_to (x : nat) (f : Resp → Resp) (e : Engine) : Engine :=
  match targets e !! x with
  | Some j => mkEngine (now e) (calls e) (alter f j (responses e)) (targets e)
  | None => e
  end.

Definition goto (c : Call) (k : option Prog) : Call := mkCall (ctx c) (deadline c) (cancelled c) (main c) k (done c) (panicCh c).

(** One operation of the goroutine of call [i]; both channels have room for it. *)
Definition goroutine_step (i : nat) (e : Engine) : option Engine :=
  c ← calls e !! i;
  match goroutine c with
  | None => None
  | Some Return => Some (set_call i (mkCall (ctx c) (deadline c) (cancelled c) (main c) None true (panicCh c)) e)
  | Some (Panic p) => Some (set_call i (mkCall (ctx c) (deadline c) (cancelled c) (main c) None (done c) (Some p)) e)
  | Some (HStatus code k) => Some (set_call i (goto c (Some k)) (write_to (ctx c) (WriteHeader code) e))
  | Some (HWrite s k) => Some (set_call i (goto c (Some k)) (write_to (ctx c) (Write (Text s)) e))
  | Some (IfCancelled k1 k2) => Some (set_call i (goto c (Some (if cancelled c then k1 else k2))) e)
  end.

Inductive Case := CaseDone | CasePanic | CaseTimeout.

(** The end of a call: its deferred [cancel] cancels the context in any case. *)
Definition leave (i : nat) (c : Call) (m : Main) (e : Engine) : Engine :=
  set_call i (mkCall (ctx c) (deadline c) true m (goroutine c) (done c) (panicCh c)) e.

(** The [select] takes any case that is ready. *)
Definition select_step (i : nat) (k : Case) (e : Engine) : option Engine :=
  c ← calls e !! i;
  match main c, k with
  | Select, CaseDone => if done c then Some (leave i c Finished e) else None
  | Select, CasePanic => p ← panicCh c; Some (leave i c (Repanicked p) e)
  | Select, CaseTimeout =>
      if deadline c <=? now e
      then Some (leave i c TimedOut (write_to (ctx c) (JSON 504 GatewayTimeout) e)) else None
  | _, _ => None
  end.

(** The clock; a context is cancelled when its deadline has come. *)
Definition tick (d : Duration) (e : Engine) : option Engine :=
  if 0 <=? d then
    let t := now e + d in
    Some (mkEngine t ((λ c, mkCall (ctx c) (deadline c) (cancelled c || (deadline c <=? t)) (main c) (goroutine c) (done c) (panicCh c)) <$> calls e)
      (responses e) (targets e))
  else None.

Inductive Event :=
| EServe (d : Duration) (x : nat) (next : Prog)
| ERoute (d : Duration) (x : nat) (next : Prog)
| EGo (i : nat)
| ESelect (i : nat) (k : Case)
| ETick (d : Duration).

Definition step (ev : Event) (e : Engine) : option Engine :=
  match ev with
  | EServe d x next => if free e x then Some (Middleware d x next e) else None
  | ERoute d x next => if free e x then Some (PerRoute d x next e) else None
  | EGo i => goroutine_step i e
  | ESelect i k => select_step i k e
  | ETick d => tick d e
  end.

Fixpoint run (evs : list Event) (e : Engine) : option Engine :=
  match evs with [] => Some e | ev :: evs => e ← step ev e; run evs e end.

(** ** What the theorems speak of *)

(** The handlers of the requests, in the order they come. *)
Definition served (evs : list Event) : list Prog :=
  omap (λ ev, match ev with EServe _ _ next | ERoute _ _ next => Some next | _ => None end) evs.

Definition in_time (ev : Event) : Prop := match ev with ESelect _ CaseTimeout => False | _ => True end.

(** A handler run alone: its panic, if any, and the response it makes; what it sees
    of the context is left open. *)
Inductive outcome : Prog → Resp → option string → Resp → Prop :=
| outcome_return w : outcome Return w None w
| outcome_panic p w : outcome (Panic p) w (Some p) w
| outcome_status code k w q w' : outcome k (WriteHeader code w) q w' → outcome (HStatus code k) w q w'
| outcome_write s k w q w' : outcome k (Write (Text s) w) q w' → outcome (HWrite s k) w q w'
| outcome_if b k1 k2 w q w' : outcome (if b : bool then k1 else k2) w q w' → outcome (IfCancelled k1 k2) w q w'.

(** From [k] and [w] on, whatever comes out comes out of the handler [next]. *)
Definition partway (next k : Prog) (w : Resp) : Prop := ∀ q w', outcome k w q w' → outcome next new_resp q w'.

(** A request of which no call has timed out. *)
Definition call_ok (e : Engine) (i : nat) (next : Prog) (c : Call) (w : Resp) : Prop :=
  match main c with
  | Select =>
      targets e !! ctx c = Some i ∧
      match goroutine c with
      | Some k => done c = false ∧ panicCh c = None ∧ partway next k w
      | None => if done c then panicCh c = None ∧ outcome next new_resp None w
                else ∃ p, panicCh c = Some p ∧ outcome next new_resp (Some p) w
      end
  | Finished => goroutine c = None ∧ outcome next new_resp None w
  | Repanicked p => goroutine c = None ∧ outcome next new_resp (Some p) w
  | TimedOut => False
  end.

Definition inv (progs : list Prog) (e : Engine) : Prop :=
  length (calls e) = length progs ∧ length (responses e) = length progs ∧
  ∀ i next c w, progs !! i = Some next → calls e !! i = Some c → responses e !! i = Some w → call_ok e i next c w.

Definition outputs (e : Engine) : list (option Z * list Chunk) := (λ w, (sent w, body w)) <$> responses e.

(** ** Lemmas *)

Lemma run_prog_outcome b p w : outcome p w (run_prog b p w).1 (run_prog b p w).2.
Proof. revert w. induction p; intros w; cbn [run_prog]; try constructor; auto. apply (outcome_if b). destruct b; auto. Qed.

(** Changing one call and its response. *)
Lemma inv_update progs e i c w c' f e' :
  inv progs e → calls e !! i = Some c → responses e !! i = Some w →
  calls e' = <[i := c']> (calls e) → responses e' = alter f i (responses e) → targets e' = targets e →
  (∀ next, progs !! i = Some next → call_ok e i next c w → call_ok e' i next c' (f w)) →
  inv progs e'.
Proof.
  intros (Hc & Hr & Hall) Ec Ew Ec' Ew' Et Hi. split; [by rewrite Ec', length_insert|]. split; [by rewrite Ew', length_alter|].
  intros j next cj wj Hn Hcj Hwj. rewrite Ec' in Hcj. rewrite Ew' in Hwj. destruct (decide (i = j)) as [<-|Hne].
  - rewrite list_lookup_insert_eq in Hcj by by eapply lookup_lt_Some. rewrite list_lookup_alter_eq, Ew in Hwj. simplify_eq/=. eauto.
  - rewrite list_lookup_insert_ne in Hcj by done. rewrite list_lookup_alter_ne in Hwj by done.
    specialize (Hall j next cj wj Hn Hcj Hwj). unfold call_ok in *. by rewrite Et.
Qed.

Lemma inv_call progs e i c w c' e' :
  inv progs e → calls e !! i = Some c → responses e !! i = Some w →
  calls e' = <[i := c']> (calls e) → responses e' = responses e → targets e' = targets e →
  (∀ next, progs !! i = Some next → call_ok e i next c w → call_ok e' i next c' w) → inv progs e'.
Proof.
  intros Hi Ec Ew Ec' Ew' Et H. apply (inv_update progs e i c w c' id e'); auto. by rewrite Ew', list_alter_id by done.
Qed.

Lemma free_select e x c i : free e x = true → calls e !! i = Some c → main c = Select → ctx c ≠ x.
Proof.
  intros Hf Hc Hm <-. unfold free in Hf. rewrite forallb_forall in Hf. specialize (Hf c).
  rewrite <- list_elem_of_In in Hf. specialize (Hf (list_elem_of_lookup_2 _ _ _ Hc)). rewrite Hm in Hf.
  by rewrite bool_decide_true in Hf by done.
Qed.

(** A new request on a free context. *)
Lemma inv_serve progs e x next c w e' :
  inv progs e → free e x = true → calls e' = calls e ++ [c] → responses e' = responses e ++ [w] →
  targets e' = <[x := length (calls e)]> (targets e) → call_ok e' (length (calls e)) next c w → inv (progs ++ [next]) e'.
Proof.
  intros (Hc & Hr & Hall) Hf Ec Ew Et Hn. split; [rewrite Ec, !length_app; simpl; lia|]. split; [rewrite Ew, !length_app; simpl; lia|].
  intros j nj cj wj H1 H2 H3. rewrite Ec in H2. rewrite Ew in H3.
  destruct (decide (j = length progs)) as [->|Hne].
  - rewrite list_lookup_middle in H1 by done. rewrite list_lookup_middle in H2 by done. rewrite list_lookup_middle in H3 by done.
    rewrite Hc in Hn. by simplify_eq.
  - pose proof (lookup_lt_Some _ _ _ H1) as Hj. rewrite length_app in Hj. simpl in Hj.
    rewrite lookup_app_l in H1 by lia. rewrite lookup_app_l in H2 by lia. rewrite lookup_app_l in H3 by lia. specialize (Hall j nj cj wj H1 H2 H3). unfold call_ok in *.
    destruct (main cj) eqn:Em; try done. rewrite Et, lookup_insert_ne; [done|]. intros ->. by apply (free_select e _ cj j Hf H2 Em).
Qed.

Lemma inv_responses progs e i c : inv progs e → calls e !! i = Some c → ∃ next w, progs !! i = Some next ∧ responses e !! i = Some w.
Proof.
  intros (Hc & Hr & _) Ec. apply lookup_lt_Some in Ec.
  destruct (lookup_lt_is_Some_2 progs i ltac:(lia)) as [n En]. destruct (lookup_lt_is_Some_2 (responses e) i ltac:(lia)) as [w Ew]. eauto.
Qed.

Lemma goroutine_inv progs e i e' : inv progs e → goroutine_step i e = Some e' → inv progs e'.
Proof.
  intros Hi E. unfold goroutine_step in E. destruct (calls e !! i) as [c|] eqn:Ec; [|done]. cbn [mbind option_bind] in E.
  destruct (inv_responses progs e i c Hi Ec) as (next & w & En & Ew). pose proof (proj2 (proj2 Hi) i next c w En Ec Ew) as Hok.
  destruct (goroutine c) as [k|] eqn:Ek; [|done]. unfold call_ok in Hok. rewrite Ek in Hok.
  destruct (main c) eqn:Em; [|by destruct Hok..]. destruct Hok as (Ht & Hd & Hp & Hpart).
  assert (∀ f, targets e !! ctx c = Some i → write_to (ctx c) f e = mkEngine (now e) (calls e) (alter f i (responses e)) (targets e)) as Hwrite
    by (intros f E1; unfold write_to; by rewrite E1).
  destruct k as [|p|code k|s k|k1 k2]; injection E as <-.
  - eapply (inv_call progs e i c w); try done. intros n En' _. unfold call_ok, set_call. cbn. split; [done|].
    replace n with next by congruence. split; [done|]. apply Hpart. constructor.
  - eapply (inv_call progs e i c w); try done. intros n En' _. unfold call_ok, set_call. cbn. split; [done|].
    rewrite Hd. exists p. split; [done|]. replace n with next by congruence. apply Hpart. constructor.
  - rewrite Hwrite by done. eapply (inv_update progs e i c w _ (WriteHeader code)); try done. intros n En' _. unfold call_ok, set_call. cbn. rewrite Em.
    split; [done|]. replace n with next by congruence. split_and!; try done. intros q w' Ho. apply Hpart. by constructor.
  - rewrite Hwrite by done. eapply (inv_update progs e i c w _ (Write (Text s))); try done. intros n En' _. unfold call_ok, set_call. cbn. rewrite Em.
    split; [done|]. replace n with next by congruence. split_and!; try done. intros q w' Ho. apply Hpart. by constructor.
  - eapply (inv_call progs e i c w); try done. intros n En' _. unfold call_ok, set_call. cbn. rewrite Em.
    split; [done|]. replace n with next by congruence. split_and!; try done. intros q w' Ho. apply Hpart. by econstructor.
Qed.

Lemma select_inv progs e i k e' : inv progs e → in_time (ESelect i k) → select_step i k e = Some e' → inv progs e'.
Proof.
  intros Hi Hk E. unfold select_step in E. destruct (calls e !! i) as [c|] eqn:Ec; [|done]. cbn [mbind option_bind] in E.
  destruct (inv_responses progs e i c Hi Ec) as (next & w & En & Ew). pose proof (proj2 (proj2 Hi) i next c w En Ec Ew) as Hok.
  unfold call_ok in Hok. destruct (main c) eqn:Em; [|by destruct k..]. destruct Hok as (Ht & Hok).
  destruct k; [| |done].
  - destruct (done c) eqn:Ed; [|done]. injection E as <-. destruct (goroutine c) eqn:Eg; [by destruct Hok|].
    eapply (inv_call progs e i c w); try done. intros n En' _. unfold call_ok, leave, set_call. cbn.
    replace n with next by congruence. tauto.
  - destruct (panicCh c) as [p|] eqn:Ep; [|done]. injection E as <-. destruct (goroutine c) eqn:Eg; [by destruct Hok as (_ & ? & _)|].
    destruct (done c); [by destruct Hok|]. destruct Hok as (p' & [= <-] & Ho).
    eapply (inv_call progs e i c w); try done. intros n En' _. unfold call_ok, leave, set_call. cbn.
    by replace n with next by congruence.
Qed.

Lemma tick_inv progs e d e' : inv progs e → tick d e = Some e' → inv progs e'.
Proof.
  intros (Hc & Hr & Hall) E. unfold tick in E. destruct (0 <=? d); [|done]. injection E as <-. split; [by rewrite <- Hc; apply length_fmap|].
  split; [done|]. cbn. intros i next c w Hn Hi Hw. rewrite list_lookup_fmap in Hi. destruct (calls e !! i) as [c0|] eqn:E0; [|done].
  injection Hi as <-. exact (Hall i next c0 w Hn E0 Hw).
Qed.

Lemma timeout_step_inv progs ev e e' : inv progs e → in_time ev → step ev e = Some e' → inv (progs ++ served [ev]) e'.
Proof.
  intros Hi Hev E. destruct ev as [d x next|d x next|i|i k|d]; cbn [step served omap list_omap] in *; rewrite ?app_nil_r.
  - destruct (free e x) eqn:Ef; [|done]. injection E as <-. eapply inv_serve; try done.
    cbn. rewrite lookup_insert_eq. split_and!; try done. by intros q w'.
  - destruct (free e x) eqn:Ef; [|done]. injection E as <-. unfold PerRoute. destruct (d <=? 0).
    + pose proof (run_prog_outcome false next new_resp) as Ho. destruct (run_prog false next new_resp) as [q w].
      eapply inv_serve; try done. cbn in *. by destruct q.
    + eapply inv_serve; try done. cbn. rewrite lookup_insert_eq. split_and!; try done. by intros q w'.
  - by eapply goroutine_inv.
  - by eapply select_inv.
  - by eapply tick_inv.
Qed.

Lemma timeout_run_inv evs : ∀ progs e e', inv progs e → Forall in_time evs → run evs e = Some e' → inv (progs ++ served evs) e'.
Proof.
  induction evs as [|ev evs IH]; intros progs e e' Hi Hev E; [by simplify_eq/=; rewrite app_nil_r|].
  apply Forall_cons in Hev as [Hev Hevs]. cbn [run] in E. destruct (step ev e) as [e1|] eqn:E1; [|done]. cbn [mbind option_bind] in E.
  change (served (ev :: evs)) with (served ([ev] ++ evs)). unfold served. rewrite omap_app. fold (served [ev]) (served evs). rewrite (assoc_L (++)).
  eapply IH; eauto. by eapply timeout_step_inv.
Qed.

(** ** Theorems *)

(** C28. Whatever the number of requests and context objects and the interleaving of
    their goroutines, as long as no call is answered by its deadline: every
    request whose call has ended has, in its response, what its own handler
    run alone makes, and ended with that handler's panic if it had one. *)
Theorem timely_responses_exact (t : Time) (evs : list Event) (e : Engine) i next c w :
  Forall in_time evs → run evs (engine t) = Some e →
  served evs !! i = Some next → calls e !! i = Some c → responses e !! i = Some w →
  match main c with
  | Select => True
  | Finished => outcome next new_resp None w
  | Repanicked p => outcome next new_resp (Some p) w
  | TimedOut => False
  end.
Proof.
  intros Hev E Hn Hc Hw. assert (inv [] (engine t)) as H0 by (split_and!; try done; intros j; by rewrite lookup_nil).
  destruct (timeout_run_inv evs [] _ _ H0 Hev E) as (_ & _ & Hall). specialize (Hall i next c w Hn Hc Hw).
  unfold call_ok in Hall. destruct (main c); tauto.
Qed.

Lemma timely_responses_exact_witness :
  let evs := [EServe 10 0 (HStatus 201 (HWrite "a" Return)); EServe 10 1 (HWrite "b" (Panic "oops")); EGo 1; EGo 0; EGo 0; EGo 1; EGo 0;
              ESelect 1 CasePanic; ESelect 0 CaseDone; ERoute 0 0 (HWrite "c" Return)] in
  (λ e, main <$> calls e) <$> run evs (engine 0) = Some [Finished; Repanicked "oops"; Finished] ∧
  outcome (HStatus 201 (HWrite "a" Return)) new_resp None (mkResp 201 (Some 201) [Text "a"]).
Proof.
  intros evs. split; [by vm_compute|].
  refine (timely_responses_exact 0 evs (default (engine 0) (run evs (engine 0))) 0 _ (mkCall 0 10 true Finished None true None) _ _ _ _ _ _).
  - repeat constructor.
  - by vm_compute.
  - done.
  - by vm_compute.
  - by vm_compute.
Defined.

(** A request that has timed out got the answer 504, unless its handler had begun one. *)
Lemma timeout_answers e i e' c w :
  select_step i CaseTimeout e = Some e' → calls e !! i = Some c → targets e !! ctx c = Some i → responses e !! i = Some w →
  responses e' !! i = Some (JSON 504 GatewayTimeout w) ∧ (main <$> calls e' !! i) = Some TimedOut.
Proof.
  intros E Hc Ht Hw. unfold select_step in E. rewrite Hc in E. cbn [mbind option_bind] in E. destruct (main c) eqn:Em; try done.
  destruct (deadline c <=? now e); [|done]. injection E as <-. unfold leave, set_call, write_to. rewrite Ht. cbn.
  rewrite list_lookup_alter_eq, Hw, list_lookup_insert_eq by by eapply lookup_lt_Some. done.
Qed.

(** Once the deadline has come a waiting call can always be answered. *)
Lemma deadline_answers e i c : calls e !! i = Some c → main c = Select → deadline c ≤ now e → is_Some (select_step i CaseTimeout e).
Proof.
  intros Hc Hm Hd. unfold select_step. rewrite Hc. cbn [mbind option_bind]. rewrite Hm. replace (deadline c <=? now e) with true by lia. done.
Qed.

(** A goroutine never waits: neither channel is ever full when it sends. *)
Lemma goroutine_never_blocks e i c k : calls e !! i = Some c → goroutine c = Some k → is_Some (goroutine_step i e).
Proof. intros Hc Hk. unfold goroutine_step. rewrite Hc. cbn [mbind option_bind]. rewrite Hk. by destruct k. Qed.

(** ** What happens after the deadline *)

(** The handler that is late writes behind the 504. *)
Example late_write :
  outputs <$> run [EServe 10 0 (HWrite "late" Return); ETick 10; ESelect 0 CaseTimeout; EGo 0] (engine 0) =
  Some [(Some 504, [GatewayTimeout; Text "late"])].
Proof. by vm_compute. Qed.

(** And into the response of the request that has been given its context since. *)
Example late_write_elsewhere :
  outputs <$> run [EServe 10 0 (HWrite "secret of the first" Return); ETick 10; ESelect 0 CaseTimeout;
                   EServe 10 0 (HWrite "second" Return); EGo 0; EGo 1; EGo 1; ESelect 1 CaseDone] (engine 0) =
  Some [(Some 504, [GatewayTimeout]); (Some 200, [Text "secret of the first"; Text "second"])].
Proof. by vm_compute. Qed.

(** A handler that heeds its context does no harm. *)
Example heeding_handler :
  outputs <$> run [EServe 10 0 (IfCancelled Return (HWrite "late" Return)); ETick 10; ESelect 0 CaseTimeout; EGo 0; EGo 0] (engine 0) =
  Some [(Some 504, [GatewayTimeout])].
Proof. by vm_compute. Qed.

(** A panic after the deadline is lost in its channel. *)
Example late_panic_lost :
  (λ e, (main <$> calls e, panicCh <$> calls e)) <$> run [EServe 10 0 (Panic "oops"); ETick 10; ESelect 0 CaseTimeout; EGo 0] (engine 0) =
  Some ([TimedOut], [Some "oops"]).
Proof. by vm_compute. Qed.

(** A handler that has written its answer in time can still be followed by a 504. *)
Example finished_but_timed_out :
  outputs <$> run [EServe 10 0 (HWrite "answer" Return); EGo 0; EGo 0; ETick 10; ESelect 0 CaseTimeout] (engine 0) =
  Some [(Some 200, [Text "answer"; GatewayTimeout])].
Proof. by vm_compute. Qed.

(** Zero is no limit for [PerRoute] and no time at all for [Middleware]. *)
Example zero_duration :
  outputs <$> run [ERoute 0 0 (HWrite "a" Return)] (engine 0) = Some [(Some 200, [Text "a"])] ∧
  outputs <$> run [EServe 0 0 (HWrite "a" Return); ESelect 0 CaseTimeout] (engine 0) = Some [(Some 504, [GatewayTimeout])].
Proof. by vm_compute. Qed.

End Timeout.
