(* ===== verification/Exchange.v ===== *)
(** * A request under observation (the engine's side of src/middlewares/accesslog, metrics, health and otel)

    What the observing middlewares read and wrap: the request and its body, the
    response writer with its status, size and bytes, the errors the handlers
    reported and the clock.  A handler is a program over these, so that
    wrapping the writer or replacing the body changes what its operations do. *)

From S2P Require Import Prelude.

Module Exchange.

(** [FullPath] is the pattern of the route, "" without one. *)
Record Request := mkRequest {
  Method : string;
  UrlPath : string;
  FullPath : string;
  RawQuery : string;
  Url : string;
  Scheme : string;
  Host : string;
  UserAgent : string;
  ClientIP : string;
  ContentLength : Z
}.

(** What is left of the body to read, and whether reading ends in an error. *)
Record Body := mkBody { content : string; fails : bool }.

(** [size] is -1 until the first byte; [capture] is the buffer of a writer that
    keeps what goes through its [Write]. *)
Record Exchange := mkExchange {
  req : Request;
  req_headers : gmap string string;
  req_body : option Body;
  status : Z;
  size : Z;
  out : string;
  capture : option string;
  errors : list string;
  trace_id : string;
  user_id : string;
  clock : Time
}.

Definition exchange (r : Request) (hs : gmap string string) (b : option Body) (now : Time) : Exchange :=
  mkExchange r hs b 200 (-1) "" None [] "" "" now.

Definition set_body (b : option Body) (x : Exchange) : Exchange :=
  mkExchange (req x) (req_headers x) b (status x) (size x) (out x) (capture x) (errors x) (trace_id x) (user_id x) (clock x).

Definition set_capture (c : option string) (x : Exchange) : Exchange :=
  mkExchange (req x) (req_headers x) (req_body x) (status x) (size x) (out x) c (errors x) (trace_id x) (user_id x) (clock x).

Definition set_trace (id : string) (x : Exchange) : Exchange :=
  mkExchange (req x) (req_headers x) (req_body x) (status x) (size x) (out x) (capture x) (errors x) id (user_id x) (clock x).

Definition set_user (id : string) (x : Exchange) : Exchange :=
  mkExchange (req x) (req_headers x) (req_body x) (status x) (size x) (out x) (capture x) (errors x) (trace_id x) id (clock x).

(** A status after the first byte is lost. *)
Definition set_status (code : Z) (x : Exchange) : Exchange :=
  mkExchange (req x) (req_headers x) (req_body x) (if size x =? -1 then code else status x) (size x) (out x) (capture x) (errors x)
    (trace_id x) (user_id x) (clock x).

Definition send (s : string) (x : Exchange) : Exchange :=
  mkExchange (req x) (req_headers x) (req_body x) (status x) ((if size x =? -1 then 0 else size x) + Z.of_nat (String.length s))
    (out x +:+ s)%string (capture x) (errors x) (trace_id x) (user_id x) (clock x).

(** [Write] of a writer that keeps its data; other ways to write go past it. *)
Definition write (s : string) (x : Exchange) : Exchange := send s (set_capture ((λ c, c +:+ s)%string <$> capture x) x).

Definition add_error (e : string) (x : Exchange) : Exchange :=
  mkExchange (req x) (req_headers x) (req_body x) (status x) (size x) (out x) (capture x) (errors x ++ [e]) (trace_id x) (user_id x) (clock x).

Definition elapse (d : Duration) (x : Exchange) : Exchange :=
  mkExchange (req x) (req_headers x) (req_body x) (status x) (size x) (out x) (capture x) (errors x) (trace_id x) (user_id x) (clock x + d).

(** ** Handlers *)

Inductive Handler :=
| Done
| Panic (p : string)
| SetStatus (code : Z) (k : Handler)
| Write (s : string) (k : Handler)
| WriteString (s : string) (k : Handler)
| AddError (e : string) (k : Handler)
| Elapse (d : Duration) (k : Handler)
| ReadAll (k : string → bool → Handler)
| SetUser (id : string) (k : Handler)
| TraceIdIs (k : string → Handler).

(** A body is read to its end once; without one there is nothing to read. *)
Definition read_all (x : Exchange) : string * bool * Exchange :=
  match req_body x with
  | Some b => (content b, fails b, set_body (Some (mkBody "" (fails b))) x)
  | None => ("", false, x)
  end.

Fixpoint exec (h : Handler) (x : Exchange) : option string * Exchange :=
  match h with
  | Done => (None, x)
  | Panic p => (Some p, x)
  | SetStatus code k => exec k (set_status code x)
  | Write s k => exec k (write s x)
  | WriteString s k => exec k (send s x)
  | AddError e k => exec k (add_error e x)
  | Elapse d k => exec k (elapse d x)
  | ReadAll k => let '(s, err, x) := read_all x in exec (k s err) x
  | SetUser id k => exec k (set_user id x)
  | TraceIdIs k => exec (k (trace_id x)) x
  end.

(** What runs after a middleware, with the events it reports on its way; a handler alone reports none. *)
Definition Next (E : Type) : Type := Exchange → option string * Exchange * list E.

Definition alone {E} (h : Handler) : Next E := λ x, (exec h x, []).

(** What a client and the middlewares around see of an exchange: everything but the buffer. *)
Definition seen (x : Exchange) : Exchange := set_capture None x.

(** The bytes a handler puts through [Write], as it runs. *)
Fixpoint written (h : Handler) (x : Exchange) : string :=
  match h with
  | Done | Panic _ => ""
  | SetStatus code k => written k (set_status code x)
  | Write s k => (s +:+ written k (write s x))%string
  | WriteString s k => written k (send s x)
  | AddError e k => written k (add_error e x)
  | Elapse d k => written k (elapse d x)
  | ReadAll k => let '(s, err, x) := read_all x in written (k s err) x
  | SetUser id k => written k (set_user id x)
  | TraceIdIs k => written (k (trace_id x)) x
  end.

(** ** Lemmas *)

(** The buffer changes nothing that a handler or a client sees, and holds what
    was put through [Write]. *)
Lemma exec_capture h : ∀ x x', seen x = seen x' → (exec h x).1 = (exec h x').1 ∧ seen (exec h x).2 = seen (exec h x').2.
Proof.
  induction h as [|p|code k IH|s k IH|s k IH|e k IH|d k IH|k IH|id k IH|k IH]; intros [] [] E; injection E; intros; subst; cbn [exec];
    try (by auto); try (apply IH; reflexivity).
  unfold read_all. cbn [req_body]. destruct (_ : option Body) as [b|]; apply IH; reflexivity.
Qed.

Lemma capture_written h : ∀ x c, capture x = Some c → capture (exec h x).2 = Some (c +:+ written h x)%string.
Proof.
  induction h as [|p|code k IH|s k IH|s k IH|e k IH|d k IH|k IH|id k IH|k IH]; intros x c Hc; cbn [exec written]; rewrite ?str_app_nil_r; try done;
    try (by apply IH).
  - rewrite (IH _ (c +:+ s)%string) by (unfold write; cbn; by rewrite Hc). by rewrite str_app_assoc.
  - unfold read_all. destruct (req_body x); by apply IH.
Qed.

Lemma capture_none h : ∀ x, capture x = None → capture (exec h x).2 = None.
Proof.
  induction h as [|p|code k IH|s k IH|s k IH|e k IH|d k IH|k IH|id k IH|k IH]; intros x Hc; cbn [exec]; try done; try (by apply IH).
  - apply IH. unfold write. cbn. by rewrite Hc.
  - unfold read_all. destruct (req_body x); by apply IH.
Qed.

(** Nor do the bytes written depend on the buffer. *)
Lemma written_capture h : ∀ x x', seen x = seen x' → written h x = written h x'.
Proof.
  induction h as [|p|code k IH|s k IH|s k IH|e k IH|d k IH|k IH|id k IH|k IH]; intros [] [] E; injection E; intros; subst; cbn [written];
    try done; try (apply IH; reflexivity).
  - f_equal. apply IH. reflexivity.
  - unfold read_all. cbn [req_body]. destruct (_ : option Body) as [b|]; apply IH; reflexivity.
Qed.

End Exchange.
