(* ===== verification/LogSetup.v ===== *)
(** * Setting up the log, and the log of requests (src/logger/logger.go, config.go)

    [Init] builds a core for each output and replaces the logger; a message goes
    to every core that takes its level, and then, by LogWriter, to the database.
    A core of a file writes to a rotator (LogFile) over the file system.  zap's
    encoders are a type class. *)

From stdpp Require Import pretty.
From S2P Require Import Prelude Text LogFile LogWriter Exchange.

Module LogSetup.
Import Text.

(** ** Configuration *)

Record Config := mkConfig {
  Level : string;
  Format : string;
  Output : string;
  Filename : string;
  MaxSize : Z;
  MaxBackups : Z;
  MaxAge : Z;
  Compress : bool;
  EnableDB : bool;
  DBLevel : string
}.

Definition DefaultConfig : Config := mkConfig "info" "json" "stdout" "./logs/app.log" 100 3 7 false false "info".

(** ** Cores *)

Definition ESC : string := String (Ascii.ascii_of_nat 27) "".

Definition color (level : Z) : string :=
  if level =? -1 then ESC +:+ "[36m" else if level =? 0 then ESC +:+ "[32m" else if level =? 1 then ESC +:+ "[33m"
  else if level =? 2 then ESC +:+ "[31m" else if (level =? 3) || (level =? 4) || (level =? 5) then ESC +:+ "[35m" else "".

Definition encodeLevelColor (level : Z) : string :=
  if decide (color level = "") then LogWriter.level_string level
  else (color level +:+ LogWriter.level_string level +:+ ESC +:+ "[0m")%string.

Inductive Encoder := JSONEncoder | ConsoleEncoder.

Inductive LevelEncoder := LowercaseLevel | ColoredLevel.

(** A rotator is named by its place among those ever made. *)
Inductive Sink := Stdout | File (rotator : nat).

Record Core := mkCore { encoder : Encoder; encode_level : LevelEncoder; sink : Sink; from_level : Z }.

Definition level_text (c : Core) (level : Z) : string :=
  match encode_level c with LowercaseLevel => LogWriter.level_string level | ColoredLevel => encodeLevelColor level end.

(** ** The process *)

(** [stdout] is what was written to it line by line; [errors] the writes of a file
    that failed, which zap reports to the standard error output. *)
Record Process := mkProcess {
  fs : LogFile.FS;
  rotators : list LogFile.fileRotator;
  cleaning : list bool;
  cores : list Core;
  levels : LogWriter.Logger;
  db_writer : bool;
  stdout : list string;
  database : list LogWriter.Output;
  errors : nat
}.

(** Before [Init] nothing is logged: the logger is zap's no-op. *)
Definition start (f : LogFile.FS) : Process :=
  mkProcess f [] [] [] (LogWriter.mkLogger 0 false 0) false [] [] 0.

Definition SetDBLogWriter (w : bool) (p : Process) : Process :=
  mkProcess (fs p) (rotators p) (cleaning p) (cores p) (levels p) w (stdout p) (database p) (errors p).

Definition set_cores (cs : list Core) (lg : LogWriter.Logger) (p : Process) : Process :=
  mkProcess (fs p) (rotators p) (cleaning p) cs lg (db_writer p) (stdout p) (database p) (errors p).

Definition print (line : string) (p : Process) : Process :=
  mkProcess (fs p) (rotators p) (cleaning p) (cores p) (levels p) (db_writer p) (stdout p ++ [line]) (database p) (errors p).

Definition set_rotator (i : nat) (r : LogFile.fileRotator) (f : LogFile.FS) (failed : bool) (p : Process) : Process :=
  mkProcess f (<[i := r]> (rotators p)) (cleaning p) (cores p) (levels p) (db_writer p) (stdout p) (database p)
    (if failed then S (errors p) else errors p).

Definition to_database (os : list LogWriter.Output) (p : Process) : Process :=
  mkProcess (fs p) (rotators p) (cleaning p) (cores p) (levels p) (db_writer p) (stdout p) (database p ++ os) (errors p).

(** The directory is made if need be; [a] is what the system answers to the opening of the
    file.  The goroutine that cleans up ends at once if there is nothing to clean. *)
Definition createFileSyncer (cfg : Config) (a : LogFile.OpenAnswer) (p : Process) : Sink * Process :=
  let '(r, f) := LogFile.init (Filename cfg) (MaxSize cfg) (MaxBackups cfg) (MaxAge cfg) a (fs p) in
  (File (length (rotators p)),
   mkProcess f (rotators p ++ [r]) (cleaning p ++ [negb ((MaxAge cfg <=? 0) && (MaxBackups cfg <=? 0))])
     (cores p) (levels p) (db_writer p) (stdout p) (database p) (errors p)).

Definition file_core (cfg : Config) (level : Z) (s : Sink) : Core :=
  if String.eqb (Format cfg) "json" then mkCore JSONEncoder LowercaseLevel s level else mkCore ConsoleEncoder ColoredLevel s level.

Definition console_core (level : Z) : Core := mkCore ConsoleEncoder ColoredLevel Stdout level.

Definition buildCores (cfg : Config) (level : Z) (a : LogFile.OpenAnswer) (p : Process) : list Core * Process :=
  if String.eqb (Output cfg) "file" then let '(s, p) := createFileSyncer cfg a p in ([file_core cfg level s], p)
  else if String.eqb (Output cfg) "both" then
    let '(s, p) := createFileSyncer cfg a p in ([console_core level; file_core cfg level s], p)
  else ([console_core level], p).

Abbreviation Field := LogWriter.Field (only parsing).

(** A line in full, of the level's text, the message and the fields. *)
Class ZapText := { encode_line : Encoder → string → string → list Field → string }.

Section Logging.
Context `{ZapText} `{LogWriter.ZapEncoder}.

(** What the system answers to a write and the name a backup would get. *)
Definition WriteAnswers : Type := string * LogFile.Answers.

(** One core: a file's write may fail and the others go on. *)
Definition write_core (lv : Z) (msg : string) (fields : list Field) (ans : WriteAnswers) (p : Process) (c : Core) : Process :=
  if from_level c <=? lv then
    let line := encode_line (encoder c) (level_text c lv) msg fields in
    match sink c with
    | Stdout => print line p
    | File i =>
        match rotators p !! i with
        | None => p
        | Some r =>
            let '(_, e, r, f) := LogFile.Write line ans.1 ans.2 r (fs p) in
            set_rotator i r f (match e with Err _ => true | Ok _ => false end) p
        end
    end
  else p.

(** [zap]'s Tee: every core in turn. *)
Definition zap_log (lv : Z) (msg : string) (fields : list Field) (ans : WriteAnswers) (p : Process) : Process :=
  foldl (write_core lv msg fields ans) p (cores p).

(** [Debug], [Info], [Warn] and [Error]; for what goes to the database see LogWriter. *)
Definition log (lv : Z) (msg : string) (fields : list Field) (ans : WriteAnswers) (p : Process) : Process :=
  to_database (LogWriter.writeDBLog (levels p) (db_writer p) (db_writer p) lv "" msg fields "" "") (zap_log lv msg fields ans p).

Definition init_fields (cfg : Config) (level min_db : Z) : list Field :=
  [("enable_db_log", LogWriter.VAny (if EnableDB cfg then 1 else 0)); ("db_log_level", LogWriter.VStr (LogWriter.level_string min_db));
   ("level", LogWriter.VStr (LogWriter.level_string level)); ("format", LogWriter.VStr (Format cfg)); ("output", LogWriter.VStr (Output cfg))].

(** No error is ever returned. *)
Definition Init (cfg : Config) (a : LogFile.OpenAnswer) (ans : WriteAnswers) (p : Process) : option string * Process :=
  let level := LogWriter.parseLevel (Level cfg) in
  let min_db := LogWriter.parseLevel (DBLevel cfg) in
  let '(cs, p) := buildCores cfg level a p in
  let p := set_cores cs (LogWriter.mkLogger level (EnableDB cfg) min_db) p in
  (None, log LogWriter.InfoLevel "日志系统初始化完成" (init_fields cfg level min_db) ans p).

(** Calls of the log, one after the other. *)
Record Call := mkCall { c_level : Z; c_msg : string; c_fields : list Field; c_answers : WriteAnswers }.

Definition call (p : Process) (c : Call) : Process := log (c_level c) (c_msg c) (c_fields c) (c_answers c) p.

Definition calls (cs : list Call) (p : Process) : Process := foldl call p cs.

End Logging.

(** ** The log of requests *)

Section Requests.
Import Exchange.

(** What the middleware logs of a request: lines of the level "info". *)
Inductive Line :=
| Received (request_id method path query client_ip user_agent : string)
| Completed (request_id : string) (status_ response_size : Z) (latency : Duration) (client_ip method path query error : string).

(** [uuid] is the identity given to a request without one, and [join] the text zap's caller makes of
    the errors of the handlers; the answer is whether the handler panicked, the lines, the identity in the
    response and the exchange after it. *)
Definition RequestLogger (uuid : string) (join : list string → string) (next : Handler) (x : Exchange)
    : option string * list Line * string * Exchange :=
  let given := default "" (req_headers x !! "X-Request-ID") in
  let rid := if decide (given = "") then uuid else given in
  let started := clock x in
  let path := if decide (FullPath (req x) = "") then UrlPath (req x) else FullPath (req x) in
  let received := Received rid (Method (req x)) path (RawQuery (req x)) (ClientIP (req x)) (UserAgent (req x)) in
  match exec next x with
  | (Some p, x) => (Some p, [received], rid, x)
  | (None, x) =>
      (None, [received; Completed rid (status x) (Z.max 0 (size x)) (clock x - started) (ClientIP (req x)) (Method (req x)) path
        (RawQuery (req x)) (match errors x with [] => "" | es => join es end)], rid, x)
  end.

End Requests.

(** ** What the theorems speak of *)

Definition at_level (level : Z) (cs : list Call) : list Call := filter (λ c, level ≤ c_level c) cs.

Section Spec.
Context `{ZapText} `{LogWriter.ZapEncoder}.

Definition line_of (c : Core) (l : Call) : string := encode_line (encoder c) (level_text c (c_level l)) (c_msg l) (c_fields l).

(** A call as the rotator of a core sees it. *)
Definition file_call (c : Core) (l : Call) : LogFile.Call := LogFile.mkCall (line_of c l) (c_answers l).1 (c_answers l).2.

Definition db_output (lg : LogWriter.Logger) (w : bool) (l : Call) : list LogWriter.Output :=
  LogWriter.writeDBLog lg w w (c_level l) "" (c_msg l) (c_fields l) "" "".

Definition console_and_file (cfg : Config) (i : nat) : list Core :=
  [console_core (LogWriter.parseLevel (Level cfg)); file_core cfg (LogWriter.parseLevel (Level cfg)) (File i)].

(** What [Init] sets, and its own call. *)
Definition init_levels (cfg : Config) : LogWriter.Logger :=
  LogWriter.mkLogger (LogWriter.parseLevel (Level cfg)) (EnableDB cfg) (LogWriter.parseLevel (DBLevel cfg)).

Definition init_call (cfg : Config) (ans : WriteAnswers) : Call :=
  mkCall LogWriter.InfoLevel "日志系统初始化完成" (init_fields cfg (LogWriter.parseLevel (Level cfg)) (LogWriter.parseLevel (DBLevel cfg))) ans.

(** The system is willing: it opens, renames and takes whole lines. *)
Definition willing (c : Core) (l : Call) : Prop :=
  LogFile.on_open (c_answers l).2 = LogFile.Opened ∧ LogFile.on_rename (c_answers l).2 = true ∧
  (String.length (line_of c l) ≤ LogFile.on_write (c_answers l).2)%nat.

End Spec.

Definition sample_text : ZapText := {| encode_line e l m _ := (match e with JSONEncoder => "json " | ConsoleEncoder => "text " end +:+ l +:+ " " +:+ m +:+ ";")%string |}.

Definition sample_encoder : LogWriter.ZapEncoder := {| LogWriter.encode_entry fs := Some (list_to_map fs) |}.

Definition sample_config : Config := mkConfig "info" "json" "both" "app.log" 0 3 7 false false "info".

Definition good : WriteAnswers := ("20250101-000000", LogFile.mkAnswers LogFile.Opened true 1000).

(** ** Lemmas *)

Section Lemmas.
Context `{ZapText} `{LogWriter.ZapEncoder}.

Lemma write_out_full p a r fs i :
  LogFile.file r = LogFile.Open i → (String.length p ≤ LogFile.on_write a)%nat →
  ∃ r' fs', LogFile.write_out p a r fs = (String.length p, Ok (), r', fs') ∧ LogFile.file r' = LogFile.Open i.
Proof.
  intros Hf Ha. unfold LogFile.write_out. rewrite Hf. rewrite Nat.min_r by done. rewrite Nat.ltb_irrefl. by do 2 eexists.
Qed.

Lemma Write_full p stamp a r fs i :
  LogFile.file r = LogFile.Open i → LogFile.on_open a = LogFile.Opened → LogFile.on_rename a = true →
  (String.length p ≤ LogFile.on_write a)%nat →
  ∃ r' fs' j, LogFile.Write p stamp a r fs = (String.length p, Ok (), r', fs') ∧ LogFile.file r' = LogFile.Open j.
Proof.
  intros Hf Ho Hr Hw. unfold LogFile.Write, LogFile.ensure_open. rewrite Hf. destruct (LogFile.exceeds p r).
  - unfold LogFile.rotate. rewrite Hr, Ho. cbn zeta. unfold LogFile.openNew. destruct (LogFile.OpenFile _ _) as [j f].
    destruct (write_out_full p a (LogFile.set_file (LogFile.Open j) (Z.of_nat (String.length (LogFile.content f j))) (LogFile.close r)) f j eq_refl Hw)
      as (r' & fs' & E & Hj). rewrite E. by exists r', fs', j.
  - destruct (write_out_full p a r fs i Hf Hw) as (r' & fs' & E & Hj). rewrite E. by exists r', fs', i.
Qed.

Lemma str_take_whole s : str_take (String.length s) s = s.
Proof. induction s as [|a s IH]; [done|]. simpl. by rewrite IH. Qed.

Lemma writes_app cs1 cs2 : ∀ r fs ns1 r1 fs1 ns2 r2 fs2,
  LogFile.writes cs1 r fs = (ns1, r1, fs1) → LogFile.writes cs2 r1 fs1 = (ns2, r2, fs2) →
  LogFile.writes (cs1 ++ cs2) r fs = (ns1 ++ ns2, r2, fs2).
Proof.
  induction cs1 as [|c cs1 IH]; intros r fs ns1 r1 fs1 ns2 r2 fs2 E1 E2; [by simplify_eq/=|].
  simpl in *. destruct (LogFile.Write _ _ _ _ _) as [[[n e] r0] f0]. destruct (LogFile.writes cs1 r0 f0) as [[ns r0'] f0'] eqn:E.
  simplify_eq/=. by rewrite (IH _ _ _ _ _ _ _ _ E E2).
Qed.

Lemma writes_full c ls : ∀ r fs i,
  LogFile.file r = LogFile.Open i → Forall (willing c) ls →
  ∃ ns r' fs', LogFile.writes (file_call c <$> ls) r fs = (ns, r', fs') ∧
    LogFile.accepted ns (file_call c <$> ls) = Text.concat (line_of c <$> ls).
Proof.
  induction ls as [|l ls IH]; intros r fs i Hf Hall; [by do 3 eexists|]. apply Forall_cons in Hall as [(Ho & Hr & Hw) Hall].
  cbn [fmap list_fmap LogFile.writes]. cbn [LogFile.data LogFile.at_ LogFile.answers file_call].
  destruct (Write_full (line_of c l) (c_answers l).1 (c_answers l).2 r fs i Hf Ho Hr Hw) as (r1 & fs1 & j & E & Hj). rewrite E.
  destruct (IH r1 fs1 j Hj Hall) as (ns & r' & fs' & E' & Hacc). rewrite E'. do 3 eexists. split; [done|].
  unfold LogFile.accepted in *. cbn [zip_with Text.concat foldr fmap list_fmap]. f_equal; [|done]. by apply str_take_whole.
Qed.

Lemma file_core_sink cfg lv s : sink (file_core cfg lv s) = s ∧ from_level (file_core cfg lv s) = lv.
Proof. unfold file_core. by destruct (String.eqb _ _). Qed.

(** What one call does to a console and a file. *)
Lemma call_both p l lv c i r :
  cores p = [console_core lv; c] → sink c = File i → from_level c = lv → rotators p !! i = Some r →
  ∃ ns r' f', LogFile.writes (file_call c <$> at_level lv [l]) r (fs p) = (ns, r', f') ∧
    stdout (call p l) = stdout p ++ (line_of (console_core lv) <$> at_level lv [l]) ∧
    database (call p l) = database p ++ db_output (levels p) (db_writer p) l ∧
    fs (call p l) = f' ∧ rotators (call p l) = <[i := r']> (rotators p) ∧
    cores (call p l) = cores p ∧ levels (call p l) = levels p ∧ db_writer (call p l) = db_writer p.
Proof.
  intros Hc Hs Hl Hr. unfold call, log, zap_log, at_level. rewrite Hc. cbn [foldl]. unfold write_core. rewrite Hs, Hl. cbn [from_level console_core sink].
  rewrite filter_cons, filter_nil. destruct (Z.leb_spec lv (c_level l)).
  - rewrite decide_True by done. cbn [fmap list_fmap LogFile.writes]. cbn [print rotators fs file_call LogFile.data LogFile.at_ LogFile.answers]. rewrite Hr.
    change (encode_line (encoder c) (level_text c (c_level l)) (c_msg l) (c_fields l)) with (line_of c l).
    destruct (LogFile.Write (line_of c l) _ _ _ _) as [[[n e] r'] f'] eqn:E. do 3 eexists. by split_and!.
  - rewrite decide_False by lia. cbn. exists [], r, (fs p). rewrite app_nil_r. split_and!; try done. by rewrite list_insert_id.
Qed.

Lemma calls_both ls lv c i : ∀ p r,
  cores p = [console_core lv; c] → sink c = File i → from_level c = lv → rotators p !! i = Some r →
  ∃ ns r' f', LogFile.writes (file_call c <$> at_level lv ls) r (fs p) = (ns, r', f') ∧
    stdout (calls ls p) = stdout p ++ (line_of (console_core lv) <$> at_level lv ls) ∧
    database (calls ls p) = database p ++ (ls ≫= db_output (levels p) (db_writer p)) ∧ fs (calls ls p) = f'.
Proof.
  induction ls as [|l ls IH]; intros p r Hc Hs Hl Hr.
  { do 3 eexists. split; [done|]. by rewrite !app_nil_r. }
  destruct (call_both p l lv c i r Hc Hs Hl Hr) as (ns1 & r1 & f1 & Hw1 & Ho1 & Hd1 & Hf1 & Hr1 & Hc1 & Hl1 & Hb1).
  destruct (IH (call p l) r1) as (ns2 & r2 & f2 & Hw2 & Ho2 & Hd2 & Hf2); [by rewrite Hc1|done|done| |].
  { rewrite Hr1. apply list_lookup_insert_eq. by eapply lookup_lt_Some. }
  assert (at_level lv (l :: ls) = at_level lv [l] ++ at_level lv ls) as Hal.
  { unfold at_level. change (l :: ls) with ([l] ++ ls). by rewrite filter_app. }
  change (calls (l :: ls) p) with (calls ls (call p l)). rewrite Hal, !fmap_app.
  exists (ns1 ++ ns2), r2, f2. split_and!; [| | |done].
  - rewrite <- Hf1 in Hw1. by eapply writes_app.
  - by rewrite Ho2, Ho1, <- app_assoc.
  - rewrite Hd2, Hd1, Hl1, Hb1, <- app_assoc. done.
Qed.

(** What [Init] leaves: the two cores and the rotator of the file, and the first call. *)
Lemma Init_both cfg ans p r f :
  Output cfg = "both" → LogFile.init (Filename cfg) (MaxSize cfg) (MaxBackups cfg) (MaxAge cfg) LogFile.Opened (fs p) = (r, f) →
  ∃ p1, cores p1 = console_and_file cfg (length (rotators p)) ∧ rotators p1 !! length (rotators p) = Some r ∧ fs p1 = f ∧
    stdout p1 = stdout p ∧ database p1 = database p ∧ db_writer p1 = db_writer p ∧ levels p1 = init_levels cfg ∧
    (Init cfg LogFile.Opened ans p).2 = call p1 (init_call cfg ans).
Proof.
  intros Ho Hi. unfold Init, buildCores, createFileSyncer. rewrite Ho, Hi. cbn [String.eqb Ascii.eqb Bool.eqb].
  eexists. split_and!; [..|unfold call, init_call; cbn [c_level c_msg c_fields c_answers]; reflexivity]; try done.
  cbn. by rewrite lookup_app_r, Nat.sub_diag.
Qed.

Lemma init_open name mb backups age f r f' :
  LogFile.init name mb backups age LogFile.Opened f = (r, f') → ∃ i, LogFile.file r = LogFile.Open i.
Proof.
  unfold LogFile.init, LogFile.openNew. destruct (LogFile.splitExt name) as [b e]. destruct (LogFile.OpenFile _ _) as [i g].
  intros [= <- <-]. by exists i.
Qed.

(** Opening the file changes nothing in it. *)
Lemma init_reads name mb backups age fs0 r f :
  LogFile.fs_ok fs0 → LogFile.init name mb backups age LogFile.Opened fs0 = (r, f) → LogFile.read_file f name = LogFile.read_file fs0 name.
Proof.
  intros Hfs. unfold LogFile.init, LogFile.openNew. destruct (LogFile.splitExt name) as [b e]. cbn [LogFile.filename].
  destruct (LogFile.OpenFile name fs0) as [i g] eqn:E. intros [= <- <-].
  pose proof (LogFile.read_OpenFile name fs0 name Hfs) as [Hr _]. by rewrite E in Hr.
Qed.

End Lemmas.
(** ** Theorems *)

(** C32. Where the log goes.  After [Init] with both outputs over a file system that opens the
    file, and any calls since, the console has a line of every message of the configured level or above, [Init]'s own
    included, in order; the database has those of its own level; and if no rotation takes a name
    in use, the backups in the order they were made and the file hold what the file held
    before, followed by what the system took of the same messages' lines, which is all of them if it is willing. *)
Theorem logs_reach_outputs `{ZapText} `{LogWriter.ZapEncoder} cfg ans p ls r f :
  Output cfg = "both" → LogFile.fs_ok (fs p) →
  LogFile.init (Filename cfg) (MaxSize cfg) (MaxBackups cfg) (MaxAge cfg) LogFile.Opened (fs p) = (r, f) →
  let level := LogWriter.parseLevel (Level cfg) in
  let c := file_core cfg level (File (length (rotators p))) in
  let all := init_call cfg ans :: ls in
  let p' := calls ls (Init cfg LogFile.Opened ans p).2 in
  stdout p' = stdout p ++ (line_of (console_core level) <$> at_level level all) ∧
  database p' = database p ++ (all ≫= db_output (init_levels cfg) (db_writer p)) ∧
  (LogFile.fresh_rotations (file_call c <$> at_level level all) r f →
   ∃ bs ns, LogFile.archive bs (Filename cfg) (fs p') =
       (LogFile.read_file (fs p) (Filename cfg) +:+ LogFile.accepted ns (file_call c <$> at_level level all))%string ∧
     (Forall (willing c) (at_level level all) →
      LogFile.accepted ns (file_call c <$> at_level level all) = concat (line_of c <$> at_level level all))).
Proof.
  intros Ho Hfs Hi level c all p'. destruct (Init_both cfg ans p r f Ho Hi) as (p1 & Hc & Hr & Hf & Hout & Hdb & Hw & Hlv & E).
  destruct (file_core_sink cfg level (File (length (rotators p)))) as [Hsink Hlevel].
  destruct (calls_both all level c (length (rotators p)) p1 r Hc Hsink Hlevel Hr) as (ns & r' & f' & Hwr & Ho' & Hd' & Hf').
  assert (p' = calls all p1) as -> by (unfold p', all; by rewrite E).
  rewrite Ho', Hd', Hf', Hout, Hdb, Hw, Hlv, Hf in *. split; [done|]. split; [done|]. intros Hfresh.
  pose proof (LogFile.init_ok (Filename cfg) (MaxSize cfg) (MaxBackups cfg) (MaxAge cfg) LogFile.Opened (fs p) Hfs) as Hok.
  rewrite Hi in Hok. destruct Hok as (Hok & _).
  destruct (LogFile.writes_spec _ _ _ _ _ _ _ _ Hok Hfresh Hwr) as (bs & _ & Harc & _).
  exists bs, ns. split; [by rewrite Harc, <- (init_reads _ _ _ _ _ _ _ Hfs Hi)|]. intros Hall. destruct (init_open _ _ _ _ _ _ _ Hi) as [i Hopen].
  destruct (writes_full c _ r f i Hopen Hall) as (ns' & r2 & f2 & Hwr' & Hacc). rewrite Hwr in Hwr'. by simplify_eq.
Qed.

Section Samples.
#[local] Existing Instance sample_text.
#[local] Existing Instance sample_encoder.

Lemma logs_reach_outputs_witness :
  let p := start (LogFile.mkFS ∅ []) in
  let ls := [mkCall (-1) "quiet" [] good; mkCall 2 "broken" [] good] in
  let p' := calls ls (Init sample_config LogFile.Opened good p).2 in
  ∃ bs, LogFile.archive bs "app.log" (fs p') = "json info 日志系统初始化完成;json error broken;" ∧
    stdout p' = ["text " +:+ encodeLevelColor 0 +:+ " 日志系统初始化完成;"; "text " +:+ encodeLevelColor 2 +:+ " broken;"]%string.
Proof.
  intros p ls p'.
  set (rf := LogFile.init "app.log" 0 3 7 LogFile.Opened (fs p)).
  destruct (logs_reach_outputs sample_config good p ls rf.1 rf.2) as (Hout & _ & Hfile); [done| |by vm_compute|].
  { split; cbn; intros *; by rewrite lookup_empty. }
  destruct Hfile as (bs & ns & Harc & Hall); [by vm_compute|]. exists bs. split; [|exact Hout].
  rewrite Hall in Harc; [exact Harc|]. vm_compute. repeat constructor; lia.
Defined.

End Samples.

(** ** What the code does besides *)

(** Setting up again leaves the first rotator and its goroutine behind: both clean the same file. *)
Example init_twice_leaks `{ZapText} `{LogWriter.ZapEncoder} ans :
  let cfg := mkConfig "error" "json" "file" "app.log" 100 3 7 false false "info" in
  let p := start (LogFile.mkFS ∅ []) in
  cleaning (Init cfg LogFile.Opened ans (Init cfg LogFile.Opened ans p).2).2 = [true; true].
Proof. done. Qed.

(** A file that cannot be opened is no error of [Init]. *)
Example unopened_file_reported_nowhere `{ZapText} `{LogWriter.ZapEncoder} cfg a ans p : (Init cfg a ans p).1 = None.
Proof. unfold Init. by destruct (buildCores _ _ _ _). Qed.

(** The lines of the level "info" of a request: two, with one identity, unless the handler panics. *)
Lemma request_logged uuid join next x :
  let '(panic, lines, rid, x') := RequestLogger uuid join next x in
  match lines with
  | [Received r1 _ _ _ _ _; Completed r2 _ _ latency _ _ _ _ _] => r1 = rid ∧ r2 = rid ∧ panic = None ∧ latency = Exchange.clock x' - Exchange.clock x
  | [Received r1 _ _ _ _ _] => r1 = rid ∧ is_Some panic
  | _ => False
  end.
Proof. unfold RequestLogger. by destruct (Exchange.exec next x) as [[e|] x']. Qed.

End LogSetup.
