(* ===== verification/LogProducers.v ===== *)
(** * Where the logs for queues end up (src/logger/mq_producers.go,
      kafka_producer_sarama.go, kafka_producer_stub.go)

    The producers behind the log writer of LogWriter, one interface for all of
    them.  What a producer does is to send commands to a client library, whose
    outcomes are any; some of the producers send none. *)

From S2P Require Import Prelude LogWriter Broker.

Module LogProducers.

(** ** The client libraries *)

(** Redis, sarama's producers (a message into the channel of an asynchronous one is a command), and their making. *)
Inductive Cmd :=
| CXAdd (stream : string) (maxLen : Z) (approx : bool) (data : string)
| CLPush (key data : string)
| CRedisClose
| CSendMessage (topic value : string)
| CInput (topic value : string)
| CSyncClose | CAsyncClose
| CNewSync (brokers : list string) (return_successes : bool)
| CNewAsync (brokers : list string) (return_successes : bool).

Inductive Error := ErrLib (n : nat) | ErrContext | ErrNoTopic | ErrNilAsync | ErrNilSync | ErrNoBrokers | ErrNotEnabled.

Section Producers.
Context {B : Type} `{Broker.Library Cmd unit B}.
Abbreviation W := (Broker.World Cmd unit B) (only parsing).

Definition send (c : Cmd) (w : W) : option Error * W :=
  let '(r, w) := Broker.cmd c w in (match r with Ok _ => None | Err n => Some (ErrLib n) end, w).

(** ** The interface *)

(** What a select on a channel and a context finds: the context over, or the message taken. *)
Inductive Select := SDone | STaken.

(** [MQProducer]; the answer of a select is an input of the call. *)
Record MQProducer := mkProducer {
  Publish : Select → string → string → W → option Error * W;
  Close : W → option Error * W
}.

(** ** Redis *)

Record RedisStreamProducer := mkStreamProducer { maxLen : Z }.

(** [NewRedisStreamProducer], of the configuration's [MaxLen]. *)
Definition NewRedisStreamProducer (MaxLen : Z) : RedisStreamProducer := mkStreamProducer (if MaxLen <=? 0 then 100000 else MaxLen).

Definition redis_stream (p : RedisStreamProducer) : MQProducer :=
  mkProducer (λ _ topic message, send (CXAdd topic (maxLen p) true message)) (send CRedisClose).

Definition redis_list : MQProducer := mkProducer (λ _ topic message, send (CLPush topic message)) (send CRedisClose).

(** ** RabbitMQ, RocketMQ, NATS: the bodies are comments *)

Record RabbitMQProducer := mkRabbit { channel : option nat; exchange : string; mandatory : bool; immediate : bool }.

Record RocketMQProducer := mkRocket { producer : option nat; rocket_topic : string; tag : string }.

Record NATSProducer := mkNATS { conn : option nat }.

Definition NewRabbitMQProducer (channel : option nat) (exchange : string) (mandatory immediate : bool) : RabbitMQProducer :=
  mkRabbit channel exchange mandatory immediate.

Definition NewRocketMQProducer (producer : option nat) (topic tag : string) : RocketMQProducer := mkRocket producer topic tag.

Definition NewNATSProducer (conn : option nat) : NATSProducer := mkNATS conn.

Definition rabbit (_ : RabbitMQProducer) : MQProducer := mkProducer (λ _ _ _ w, (None, w)) (λ w, (None, w)).

Definition rocket (_ : RocketMQProducer) : MQProducer := mkProducer (λ _ _ _ w, (None, w)) (λ w, (None, w)).

Definition nats (_ : NATSProducer) : MQProducer := mkProducer (λ _ _ _ w, (None, w)) (λ w, (None, w)).

(** ** Kafka, built with its tag *)

(** What a caller passes as a producer. *)
Inductive Passed := PSync | PAsync | POther.

(** Whether it holds a producer of either kind. *)
Record KafkaProducer := mkKafka { sync : bool; async : bool; isAsync : bool; topic : string }.

Definition NewKafkaProducer (producer : Passed) (topic : string) (async : bool) : KafkaProducer :=
  if async then mkKafka false (match producer with PAsync => true | _ => false end) true topic
  else mkKafka (match producer with PSync => true | _ => false end) false false topic.

(** [config] is [Return.Successes] of the configuration given, or none; the configuration
    after the call is the last part of the answer. *)
Definition NewKafkaProducerWithBrokers (brokers : list string) (config : option bool) (topic : string) (async : bool) (w : W)
    : res Error KafkaProducer * option bool * W :=
  match brokers with
  | [] => (Err ErrNoBrokers, config, w)
  | _ =>
      if async then
        match send (CNewAsync brokers (default false config)) w with
        | (Some e, w) => (Err e, config, w)
        | (None, w) => (Ok (mkKafka false true true topic), config, w)
        end
      else
        let config := (λ _, true) <$> config in
        match send (CNewSync brokers true) w with
        | (Some e, w) => (Err e, config, w)
        | (None, w) => (Ok (mkKafka true false false topic), config, w)
        end
  end.

(** A message put into the channel of the asynchronous producer is out of hand: an error
    of its sending comes back on another channel, which no one here reads. *)
Definition kafka_Publish (p : KafkaProducer) (sel : Select) (to message : string) (w : W) : option Error * W :=
  let to := if decide (to = "") then topic p else to in
  if decide (to = "") then (Some ErrNoTopic, w)
  else if isAsync p then
    if async p then match sel with SDone => (Some ErrContext, w) | STaken => (None, (send (CInput to message) w).2) end else (Some ErrNilAsync, w)
  else if sync p then send (CSendMessage to message) w
  else (Some ErrNilSync, w).

Definition kafka_Close (p : KafkaProducer) (w : W) : option Error * W :=
  if isAsync p then if async p then send CAsyncClose w else (None, w)
  else if sync p then send CSyncClose w else (None, w).

Definition kafka (p : KafkaProducer) : MQProducer := mkProducer (kafka_Publish p) (kafka_Close p).

(** ** Kafka, built without *)

Definition stub : MQProducer := mkProducer (λ _ _ _ w, (Some ErrNotEnabled, w)) (λ w, (Some ErrNotEnabled, w)).

(** ** The log writer over a producer *)

(** What [sendBatch] does with what the log writer publishes: errors are dropped. *)
Definition deliver (p : MQProducer) (published : list (string * string)) (w : W) : W :=
  foldl (λ w m, (Publish p STaken m.1 m.2 w).2) w published.

End Producers.

(** ** Batches *)

Record BatchLogMessage := mkBatch { Service : string; Host : string; Logs : list LogWriter.LogMessage }.

(** [encoding/json], of a batch. *)
Class JsonBatch := { Marshal : BatchLogMessage → option string }.

Definition MarshalBatch `{JsonBatch} (logs : list LogWriter.LogMessage) : option (option string) :=
  match logs with
  | [] => Some None
  | l :: _ => Some <$> Marshal (mkBatch (LogWriter.Service l) (LogWriter.Host l) logs)
  end.

(** ** What the theorems speak of *)

(** The commands sent so far. *)
Definition sent {B} (w : Broker.World Cmd unit B) : list Cmd := (Broker.log w).*1.

(** ** Lemmas *)

Section Lemmas.
Context {B : Type} `{Broker.Library Cmd unit B}.

Lemma sent_send c (w : Broker.World Cmd unit B) : sent (send c w).2 = sent w ++ [c].
Proof. unfold send, Broker.cmd, sent. destruct (Broker.exec _ _) as [r b]. simpl. by rewrite fmap_app. Qed.

(** What a list of messages becomes at a producer that sends a command for each. *)
Lemma deliver_commands (p : MQProducer) (f : string * string → Cmd) :
  (∀ m w, (Publish p STaken m.1 m.2 w).2 = (send (f m) w).2) →
  ∀ ms w, sent (deliver p ms w) = sent w ++ (f <$> ms).
Proof.
  intros Hp ms. unfold deliver. induction ms as [|m ms IH]; intros w; simpl; [by rewrite app_nil_r|].
  by rewrite IH, Hp, sent_send, <- app_assoc.
Qed.

(** Redis gets every message, under its topic; a stream is never unlimited. *)
Lemma redis_gets_all MaxLen ms (w : Broker.World Cmd unit B) :
  sent (deliver (redis_stream (NewRedisStreamProducer MaxLen)) ms w) =
    sent w ++ ((λ m, CXAdd m.1 (if MaxLen <=? 0 then 100000 else MaxLen) true m.2) <$> ms) ∧
  sent (deliver redis_list ms w) = sent w ++ ((λ m, CLPush m.1 m.2) <$> ms).
Proof. split; by apply deliver_commands. Qed.

(** A synchronous Kafka producer too, under its own topic for a message without one. *)
Lemma kafka_gets_all t ms (w : Broker.World Cmd unit B) :
  t ≠ "" →
  sent (deliver (kafka (NewKafkaProducer PSync t false)) ms w) =
    sent w ++ ((λ m, CSendMessage (if decide (m.1 = "") then t else m.1) m.2) <$> ms).
Proof.
  intros Ht. apply deliver_commands. intros [to data] w0. cbn. unfold kafka_Publish. cbn.
  repeat case_decide; by simplify_eq.
Qed.

Lemma kafka_async_gets_all t ms (w : Broker.World Cmd unit B) :
  t ≠ "" →
  sent (deliver (kafka (NewKafkaProducer PAsync t true)) ms w) =
    sent w ++ ((λ m, CInput (if decide (m.1 = "") then t else m.1) m.2) <$> ms).
Proof.
  intros Ht. apply deliver_commands. intros [to data] w0. cbn. unfold kafka_Publish. cbn.
  repeat case_decide; by simplify_eq.
Qed.

(** The others take every message, send none and report no error. *)
Lemma unwritten_producers_drop_all p sel to m (w : Broker.World Cmd unit B) r k n :
  p ∈ [rabbit r; rocket k; nats n] → Publish p sel to m w = (None, w) ∧ Close p w = (None, w).
Proof. intros [->|[->|[->|[]%elem_of_nil]%elem_of_cons]%elem_of_cons]%elem_of_cons; done. Qed.

Lemma deliver_nothing p ms (w : Broker.World Cmd unit B) :
  (∀ m w, (Publish p STaken m.1 m.2 w).2 = w) → deliver p ms w = w.
Proof. intros Hp. unfold deliver. induction ms as [|m ms IH]; simpl; [done|]. by rewrite Hp. Qed.

(** A producer of the wrong kind is no error until the first message, and its closing none ever. *)
Lemma wrong_producer_found_late t (w : Broker.World Cmd unit B) sel m :
  t ≠ "" →
  Publish (kafka (NewKafkaProducer PAsync t false)) sel t m w = (Some ErrNilSync, w) ∧
  Close (kafka (NewKafkaProducer PAsync t false)) w = (None, w).
Proof. intros Ht. cbn. unfold kafka_Publish. cbn. by repeat case_decide. Qed.

(** Without the build tag nothing is sent and each call says so, but the log writer drops what it is told. *)
Lemma stub_drops_all ms (w : Broker.World Cmd unit B) : deliver stub ms w = w ∧ Close stub w = (Some ErrNotEnabled, w).
Proof. split; [by apply deliver_nothing|done]. Qed.

(** The caller's configuration is changed for it. *)
Lemma config_is_changed b t (w : Broker.World Cmd unit B) : (NewKafkaProducerWithBrokers [b] (Some false) t false w).1.2 = Some true.
Proof. unfold NewKafkaProducerWithBrokers. by destruct (send _ _) as [[e|] w']. Qed.

End Lemmas.

(** The service and host of a batch are those of its first log. *)
Lemma batch_of_first `{JsonBatch} l ls :
  MarshalBatch (l :: ls) = Some <$> Marshal (mkBatch (LogWriter.Service l) (LogWriter.Host l) (l :: ls)).
Proof. done. Qed.

End LogProducers.
