(* ===== verification/Pipeline.v ===== *)
(** * The log from a call to the broker (src/logger/logger.go, mq_writer.go, mq_producers.go)

    The parts of LogSetup, LogWriter and LogProducers put together as
    [SetDBLogWriter] does: the calls of the log, by any goroutine, pass through
    the cores and the filter for the database into the buffer of a log writer,
    whose own goroutine takes its steps in between and hands batches to a producer. *)

From S2P Require Import Prelude LogFile LogWriter LogSetup Broker LogProducers.

Module Pipeline.

(** For the witnesses: a Redis that takes everything, and a log with a console and a database from level 1. *)
Definition willing_redis : Broker.Library LogProducers.Cmd unit unit := λ _ b, (Ok tt, b).

Definition sample_process : LogSetup.Process :=
  LogSetup.set_cores [LogSetup.console_core 0] (LogWriter.mkLogger 0 true 1) (LogSetup.start (LogFile.mkFS ∅ [])).

Section Pipeline.
Context {B : Type} `{Broker.Library LogProducers.Cmd unit B}.
Context `{LogSetup.ZapText} `{LogWriter.ZapEncoder} `{LogWriter.JsonLog}.
Abbreviation W := (Broker.World LogProducers.Cmd unit B) (only parsing).

Record System := mkSystem { process : LogSetup.Process; writer : LogWriter.MQLogWriter; world : W }.

(** A new writer is registered with the log. *)
Definition connect (cfg : LogWriter.MQLogWriterConfig) (p : LogSetup.Process) (w : W) : System :=
  mkSystem (LogSetup.SetDBLogWriter true p) (LogWriter.NewMQLogWriter cfg) w.

(** A call of the log at a time, or a step of the writer's goroutine or of its closing. *)
Inductive Event := Logs (c : LogSetup.Call) (now : Time) | Worker (e : LogWriter.Event).

(** What the log has for the database goes to [WriteLog], which replies with the
    message if its buffer took it.  [None] is the panic of a writer removed in between. *)
Definition write_outputs (os : list LogWriter.Output) (now : Time) (w : LogWriter.MQLogWriter)
    : option (LogWriter.MQLogWriter * option LogWriter.LogMessage) :=
  match os with
  | [] => Some (w, None)
  | [LogWriter.ODB level module msg fields traceID userID] =>
      let '(ok, w') := LogWriter.WriteLog level module msg fields traceID userID now w in
      Some (w', if ok : bool then Some (LogWriter.logMsg w level module msg fields traceID userID now) else None)
  | _ => None
  end.

Definition step (p : LogProducers.MQProducer) (e : Event) (s : System) : option (System * option LogWriter.LogMessage) :=
  match e with
  | Logs c now =>
      let process' := LogSetup.call (process s) c in
      '(w, r) ← write_outputs (drop (length (LogSetup.database (process s))) (LogSetup.database process')) now (writer s);
      Some (mkSystem process' w (world s), r)
  | Worker (LogWriter.EWrite _) => None
  | Worker e =>
      '(w, _) ← LogWriter.step e (writer s);
      let published := drop (length (LogWriter.published (writer s))) (LogWriter.published w) in
      Some (mkSystem (process s) w (LogProducers.deliver p published (world s)), None)
  end.

(** ** What the theorems speak of *)

(** Every message taken is a command of its own. *)
Definition sends_each (p : LogProducers.MQProducer) (f : string * string → LogProducers.Cmd) : Prop :=
  ∀ m (w : W), (LogProducers.Publish p LogProducers.STaken m.1 m.2 w).2 = (LogProducers.send (f m) w).2.

(** The message a call of the log has for the queue, if its level is high enough. *)
Definition message_of (cfg : LogWriter.MQLogWriterConfig) (lg : LogWriter.Logger) (e : Event) : option LogWriter.LogMessage :=
  match e with
  | Logs c now =>
      if LogWriter.enableDBLog lg && (LogWriter.minDBLogLevel lg <=? LogSetup.c_level c)
      then Some (LogWriter.mkMessage (LogWriter.level_string (LogSetup.c_level c)) "" (LogSetup.c_msg c)
        (LogWriter.fieldsToMap (LogSetup.c_fields c)) "" "" now (LogWriter.cfg_Service cfg) (LogWriter.cfg_Host cfg))
      else None
  | Worker _ => None
  end.

Definition log_call (e : Event) : option LogSetup.Call := match e with Logs c _ => Some c | Worker _ => None end.

(** Calls of the log find room in the buffer. *)
Definition room (s : System) (e : Event) : Prop :=
  match e with Logs _ _ => (length (LogWriter.buffer (writer s)) < LogWriter.bufferSize (writer s))%nat | Worker _ => True end.

(** What is kept by every step: the writer's accounts, and the commands sent are what it published. *)
Definition linked (f : string * string → LogProducers.Cmd) (cfg : LogWriter.MQLogWriterConfig) (lg : LogWriter.Logger)
    (sent0 : list LogProducers.Cmd) (s : System) (taken : list LogWriter.LogMessage) : Prop :=
  LogWriter.accounts taken (writer s) ∧ LogWriter.topic (writer s) = LogWriter.Topic cfg ∧
  LogWriter.service (writer s) = LogWriter.cfg_Service cfg ∧ LogWriter.host (writer s) = LogWriter.cfg_Host cfg ∧
  LogSetup.levels (process s) = lg ∧ LogSetup.db_writer (process s) = true ∧
  LogProducers.sent (world s) = sent0 ++ (f <$> LogWriter.published (writer s)).

(** ** Lemmas *)

Lemma zap_log_keeps lv msg fields ans cs : ∀ p,
  let p' := foldl (LogSetup.write_core lv msg fields ans) p cs in
  LogSetup.levels p' = LogSetup.levels p ∧ LogSetup.db_writer p' = LogSetup.db_writer p ∧ LogSetup.database p' = LogSetup.database p.
Proof using.
  induction cs as [|c cs IH]; intros p; [done|]. cbn [foldl].
  destruct (IH (LogSetup.write_core lv msg fields ans p c)) as (-> & -> & ->). unfold LogSetup.write_core.
  destruct (_ <=? _); [|done]. destruct (LogSetup.sink c) as [|i]; [done|]. destruct (_ !! i); [|done].
  by destruct (LogFile.Write _ _ _ _ _) as [[[? ?] ?] ?].
Qed.

Lemma call_keeps p c :
  LogSetup.levels (LogSetup.call p c) = LogSetup.levels p ∧ LogSetup.db_writer (LogSetup.call p c) = LogSetup.db_writer p ∧
  LogSetup.database (LogSetup.call p c) = LogSetup.database p ++ LogSetup.db_output (LogSetup.levels p) (LogSetup.db_writer p) c.
Proof using.
  destruct (zap_log_keeps (LogSetup.c_level c) (LogSetup.c_msg c) (LogSetup.c_fields c) (LogSetup.c_answers c) (LogSetup.cores p) p) as (K1 & K2 & K3).
  unfold LogSetup.call, LogSetup.log, LogSetup.zap_log. cbn. by rewrite K1, K2, K3.
Qed.

Lemma omap_cons_app {A A'} (g : A → option A') x l : omap g (x :: l) = option_list (g x) ++ omap g l.
Proof using. cbn. by destruct (g x). Qed.

(** What a call of the log has for the writer. *)
Lemma outputs_written cfg lg c now w w' r :
  LogWriter.service w = LogWriter.cfg_Service cfg → LogWriter.host w = LogWriter.cfg_Host cfg →
  write_outputs (LogSetup.db_output lg true c) now w = Some (w', r) →
  (message_of cfg lg (Logs c now) = None ∧ w' = w ∧ r = None) ∨
  ∃ m, message_of cfg lg (Logs c now) = Some m ∧ LogWriter.step (LogWriter.EWrite m) w = Some (w', r) ∧
    ((length (LogWriter.buffer w) < LogWriter.bufferSize w)%nat → r = Some m) ∧ (r = None ∨ r = Some m).
Proof using.
  intros Hsv Hho. unfold LogSetup.db_output, LogWriter.writeDBLog, LogWriter.shouldWriteToDB, message_of.
  rewrite andb_true_r. destruct (_ && _); cbn; [|intros [= <- <-]; by left].
  unfold LogWriter.WriteLog, LogWriter.logMsg, LogWriter.enqueue. rewrite Hsv, Hho. intros Hw. right. eexists. split; [done|].
  cbn [LogWriter.step]. unfold LogWriter.enqueue. destruct (Nat.ltb_spec (length (LogWriter.buffer w)) (LogWriter.bufferSize w));
    simplify_eq; split_and!; try done; [by right|lia|by left].
Qed.

Lemma pipeline_worker_step p e s s' r :
  step p (Worker e) s = Some (s', r) →
  ∃ w, LogWriter.step e (writer s) = Some (w, None) ∧ r = None ∧ s' = mkSystem (process s) w
    (LogProducers.deliver p (drop (length (LogWriter.published (writer s))) (LogWriter.published w)) (world s)).
Proof using.
  cbn [step]. destruct e; [done|..]; cbn [LogWriter.step];
    match goal with |- context [(λ w, (w, None)) <$> ?o] => destruct o as [w|]; [|done] end; intros [= <- <-]; by exists w.
Qed.

Section Steps.
Context (p : LogProducers.MQProducer) (f : string * string → LogProducers.Cmd) (Hp : sends_each p f).
Context (cfg : LogWriter.MQLogWriterConfig) (lg : LogWriter.Logger) (sent0 : list LogProducers.Cmd).

Lemma worker_linked e s w r taken :
  linked f cfg lg sent0 s taken → LogWriter.step e (writer s) = Some (w, r) →
  linked f cfg lg sent0 (mkSystem (process s) w
    (LogProducers.deliver p (drop (length (LogWriter.published (writer s))) (LogWriter.published w)) (world s))) (taken ++ option_list r).
Proof using Hp.
  intros (Hacc & Ht & Hsv & Hho & Hlv & Hdb & Hsent) Hs. destruct (LogWriter.writer_step_keeps _ _ _ _ Hs) as (K1 & K2 & new & Hn).
  unfold linked. cbn [writer process world]. rewrite (LogWriter.step_topic _ _ _ _ Hs), K1, K2, Hn, drop_app_length, fmap_app.
  split_and!; try done; [by eapply LogWriter.step_accounts|]. rewrite (LogProducers.deliver_commands p f Hp), Hsent.
  by rewrite <- app_assoc.
Qed.

Lemma step_linked e s s' r taken :
  linked f cfg lg sent0 s taken → step p e s = Some (s', r) →
  linked f cfg lg sent0 s' (taken ++ option_list r) ∧
  option_list r `sublist_of` option_list (message_of cfg lg e) ∧ (room s e → r = message_of cfg lg e) ∧
  process s' = LogSetup.calls (option_list (log_call e)) (process s).
Proof using Hp.
  intros Hl. pose proof Hl as (_ & _ & Hsv & Hho & Hlv & Hdb & _). destruct e as [c now|e].
  - cbn [step]. destruct (call_keeps (process s) c) as (Hlv' & Hdb' & ->). rewrite drop_app_length, Hlv, Hdb in *.
    destruct (write_outputs _ _ _) as [[w r']|] eqn:E; [|done]. intros [= <- <-].
    destruct (outputs_written cfg lg c now _ _ _ Hsv Hho E) as [(Hm & -> & ->)|(m & Hm & Hs & Hroom & Hr)]; rewrite Hm.
    + split_and!; [|done..]. unfold linked in *. cbn [process writer world option_list]. rewrite app_nil_r. rewrite Hlv', Hdb'. naive_solver.
    + pose proof (worker_linked _ _ _ _ _ Hl Hs) as Hw. unfold linked in *. cbn [writer process world] in *. rewrite Hlv', Hdb'.
      assert (LogWriter.published w = LogWriter.published (writer s)) as Hpub.
      { cbn in Hs. unfold LogWriter.enqueue in Hs. destruct (_ <? _)%nat; by simplify_eq. }
      rewrite Hpub, drop_all in Hw. change (LogProducers.deliver p [] (world s)) with (world s) in Hw.
      split; [rewrite Hpub; naive_solver|]. split_and!; [by destruct Hr as [->| ->]; [apply sublist_nil_l|]|exact Hroom|done].
  - intros Hs. destruct (pipeline_worker_step _ _ _ _ _ Hs) as (w & Hw & -> & ->). split_and!; [|done..]. by apply (worker_linked _ _ _ _ _ Hl Hw).
Qed.

(** Runs, from any state the parts are linked in. *)
Lemma run_linked evs : ∀ s s' rs taken,
  linked f cfg lg sent0 s taken → run_steps (step p) evs s = Some (s', rs) →
  linked f cfg lg sent0 s' (taken ++ omap id rs) ∧ omap id rs `sublist_of` omap (message_of cfg lg) evs ∧
  (along (step p) room evs s → omap id rs = omap (message_of cfg lg) evs) ∧
  process s' = LogSetup.calls (omap log_call evs) (process s).
Proof using Hp.
  induction evs as [|e evs IH]; intros s s' rs taken Hl Hrun.
  { simplify_eq/=. by rewrite app_nil_r. }
  destruct (run_steps_cons _ _ _ _ _ _ Hrun) as (s1 & r & rs' & Hs & Hr & ->).
  destruct (step_linked _ _ _ _ _ Hl Hs) as (Hl1 & Hsub & Hroom & Hpr). destruct (IH _ _ _ _ Hl1 Hr) as (Hl2 & Hsub2 & Hroom2 & Hpr2).
  rewrite <- (assoc_L (++)) in Hl2. rewrite !omap_cons_app. cbn [id]. split_and!; [done|by apply sublist_app| |].
  - intros [Hr1 Hal]. rewrite Hs in Hal. by rewrite Hroom, Hroom2.
  - rewrite Hpr2, Hpr. unfold LogSetup.calls. by rewrite foldl_app.
Qed.

(** Steps of the writer's goroutine alone. *)
Lemma run_worker evs : ∀ s w rs,
  forallb LogWriter.own evs = true → run_steps LogWriter.step evs (writer s) = Some (w, rs) →
  ∃ s', run_steps (step p) (Worker <$> evs) s = Some (s', replicate (length evs) None) ∧ writer s' = w ∧ process s' = process s.
Proof using.
  induction evs as [|e evs IH]; intros s w rs Hown Hrun; [by simplify_eq/=; exists s|].
  cbn [forallb] in Hown. apply andb_true_iff in Hown as [He Hown].
  destruct (run_steps_cons _ _ _ _ _ _ Hrun) as (w1 & r & rs' & Hs & Hr & ->).
  set (s1 := mkSystem (process s) w1 (LogProducers.deliver p
    (drop (length (LogWriter.published (writer s))) (LogWriter.published w1)) (world s))).
  destruct (IH s1 w rs' Hown Hr) as (s' & Hr' & Hw & Hpr). exists s'. split; [|done].
  assert (step p (Worker e) s = Some (s1, None)) as E by (cbn [step]; destruct e; try done; by rewrite Hs).
  cbn [fmap list_fmap run_steps]. rewrite E. cbn. by rewrite Hr'.
Qed.

End Steps.

(** ** Properties *)


(** Redis is a producer of this kind, with streams and with lists. *)
Lemma redis_sends_each MaxLen :
  sends_each (LogProducers.redis_stream (LogProducers.NewRedisStreamProducer MaxLen))
    (λ m, LogProducers.CXAdd m.1 (if MaxLen <=? 0 then 100000 else MaxLen) true m.2) ∧
  sends_each LogProducers.redis_list (λ m, LogProducers.CLPush m.1 m.2).
Proof. done. Qed.

(** A synchronous Kafka producer too. *)
Lemma kafka_sends_each t :
  t ≠ "" →
  sends_each (LogProducers.kafka (LogProducers.NewKafkaProducer LogProducers.PSync t false))
    (λ m, LogProducers.CSendMessage (if decide (m.1 = "") then t else m.1) m.2).
Proof. intros Ht [to data] w. cbn. unfold LogProducers.kafka_Publish. cbn. by repeat case_decide; simplify_eq. Qed.

End Pipeline.

Section Samples.
#[local] Existing Instances willing_redis LogSetup.sample_text LogSetup.sample_encoder LogWriter.sample_json.


(** A buffer that is full loses what is logged, on the console all the same. *)
Example full_buffer_loses :
  let evs := map (λ m, Logs (LogSetup.mkCall 1 m [] LogSetup.good) 1) ["a"; "b"; "c"] in
  match run_steps (step LogProducers.redis_list) evs (connect LogWriter.sample_config sample_process (Broker.mkWorld tt [])) with
  | Some (s, rs) => map LogWriter.Message (omap id rs) = ["a"; "b"] ∧ length (LogSetup.stdout (process s)) = 3%nat
  | None => False
  end.
Proof. by vm_compute. Qed.

End Samples.

End Pipeline.
