(* ===== verification/AccessLog.v ===== *)
(** * Access log (src/middlewares/accesslog/middleware.go)

    The middleware reads the request's body and puts a copy back, wraps the
    writer to keep what is written, and hands a record to a log function. *)

From Stdlib Require Import QArith.QArith.
From S2P Require Import Prelude Exchange.

Module AccessLog.

Import Exchange.Exchange.
#[local] Open Scope Z_scope.

Record AccessLog := mkLog {
  log_Method : string;
  log_Path : string;
  log_Query : string;
  log_IP : string;
  log_UserID : string;
  log_TraceID : string;
  log_ReqBody : string;
  log_RespBody : string;
  log_Status : Z;
  log_Duration : Z;
  log_Error : string;
  log_UserAgent : string
}.

(** ** The log function over zap *)

Inductive Field := FString (key v : string) | FInt (key : string) (v : Z).

Inductive Level := LInfo | LWarn | LError.

Definition optional (key v : string) : list Field := if decide (v = "") then [] else [FString key v].

Definition zap_fields (log : AccessLog) : list Field :=
  [FString "method" (log_Method log); FString "path" (log_Path log); FString "query" (log_Query log); FString "ip" (log_IP log);
   FInt "status" (log_Status log); FInt "duration_ms" (log_Duration log)] ++
  optional "trace_id" (log_TraceID log) ++ optional "user_id" (log_UserID log) ++ optional "user_agent" (log_UserAgent log) ++
  optional "req_body" (log_ReqBody log) ++ optional "resp_body" (log_RespBody log) ++ optional "error" (log_Error log).

Definition ZapLogFunc (log : AccessLog) : Level * list Field :=
  (if 500 <=? log_Status log then LError else if 400 <=? log_Status log then LWarn else LInfo, zap_fields log).

(** ** The middleware *)

Record Builder := mkBuilder {
  logReqBody : bool;
  logRespBody : bool;
  maxBodyLength : Z;
  sampleRate : Q;
  errorOnly : bool
}.

Definition NewBuilder : Builder := mkBuilder false false 1024 0 false.

Definition WithReqBody (log : bool) (b : Builder) : Builder := mkBuilder log (logRespBody b) (maxBodyLength b) (sampleRate b) (errorOnly b).
Definition WithRespBody (log : bool) (b : Builder) : Builder := mkBuilder (logReqBody b) log (maxBodyLength b) (sampleRate b) (errorOnly b).
Definition WithMaxBodyLength (length : Z) (b : Builder) : Builder :=
  mkBuilder (logReqBody b) (logRespBody b) length (sampleRate b) (errorOnly b).
Definition WithSampleRate (rate : Q) (b : Builder) : Builder := mkBuilder (logReqBody b) (logRespBody b) (maxBodyLength b) rate (errorOnly b).
Definition WithErrorOnly (only : bool) (b : Builder) : Builder := mkBuilder (logReqBody b) (logRespBody b) (maxBodyLength b) (sampleRate b) only.

(** A slice with a negative bound panics: [None]. *)
Definition truncated (b : Builder) (s : string) : option string :=
  if maxBodyLength b <? Z.of_nat (String.length s) then
    if maxBodyLength b <? 0 then None
    else Some (String.substring 0 (Z.to_nat (maxBodyLength b)) s +:+ "...(已截断)")%string
  else Some s.

Definition keep (b : Builder) (status : Z) (nanoseconds : Z) : bool :=
  negb (errorOnly b && (status <? 400)) &&
  negb (negb (Qle_bool (sampleRate b) 0) && negb (Qle_bool 1 (sampleRate b)) &&
        negb (Qle_bool (inject_Z (nanoseconds `mod` 1000) / 1000) (sampleRate b))).

(** [joined] is how gin writes the errors; [late] the time between the two readings
    of the clock at the end.  The handlers' panic, or the middleware's own, goes on up. *)
Definition around {E} (emit : AccessLog → E) (joined : list string → string) (b : Builder) (late : Duration) (next : Next E) (x : Exchange)
    : option string * Exchange * list E :=
  let start := clock x in
  let read :=
    match req_body x with
    | Some body =>
        if logReqBody b then
          match truncated b (content body) with
          | Some s => Some (s, set_body (Some (mkBody (content body) false)) x)
          | None => None
          end
        else Some ("", x)
    | None => Some ("", x)
    end in
  match read with
  | None => (Some "slice bounds out of range", set_body ((λ body, mkBody (content body) false) <$> req_body x) x, [])
  | Some (reqBody, x1) =>
      let '(p, x2, inner) := next (if logRespBody b then set_capture (Some "") x1 else x1) in
      match p with
      | Some p => (Some p, x2, inner)
      | None =>
          match (if logRespBody b then truncated b (default "" (capture x2)) else Some "") with
          | None => (Some "slice bounds out of range", x2, inner)
          | Some respBody =>
              let duration := clock x2 - start in
              let log := mkLog (Method (req x)) (UrlPath (req x)) (RawQuery (req x)) (ClientIP (req x)) (user_id x) (trace_id x)
                           reqBody respBody (status x2) (duration ÷ Millisecond)
                           (match errors x2 with [] => "" | es => joined es end) (UserAgent (req x)) in
              (None, elapse late x2, inner ++ (if keep b (status x2) (duration + late) then [emit log] else []))
          end
      end
  end.

(** Around handlers alone: what they leave and the record, if one is made. *)
Definition Build (joined : list string → string) (b : Builder) (late : Duration) (h : Handler) (x : Exchange)
    : option string * Exchange * option AccessLog :=
  let '(p, y, logs) := around id joined b late (alone h) x in (p, y, head logs).

(** ** What the theorems speak of *)

(** What the log should say of a request's body and of a response. *)
Definition excerpt (b : Builder) (s : string) : string :=
  if maxBodyLength b <? Z.of_nat (String.length s)
  then (String.substring 0 (Z.to_nat (maxBodyLength b)) s +:+ "...(已截断)")%string else s.

Definition reads_well (x : Exchange) : Prop := match req_body x with Some b => fails b = false | None => True end.

(** The record of a request that ran from [x] to [y]. *)
Definition record_of (joined : list string → string) (b : Builder) (x y : Exchange) : AccessLog :=
  mkLog (Method (req x)) (UrlPath (req x)) (RawQuery (req x)) (ClientIP (req x)) (user_id x) (trace_id x)
    (if logReqBody b then from_option (λ body, excerpt b (content body)) "" (req_body x) else "")
    (if logRespBody b then excerpt b (default "" (capture y)) else "") (status y) ((clock y - clock x) ÷ Millisecond)
    (match errors y with [] => "" | es => joined es end) (UserAgent (req x)).

Definition sample_request : Request := mkRequest "POST" "/orders" "/orders" "" "/orders" "" "example.org" "" "10.0.0.1" 5.

(** ** Lemmas *)

Lemma truncated_excerpt b s : 0 ≤ maxBodyLength b → truncated b s = Some (excerpt b s).
Proof. intros H. unfold truncated, excerpt. destruct (_ <? _); [|done]. by replace (maxBodyLength b <? 0) with false by lia. Qed.

Lemma seen_capture c x : seen (set_capture c x) = seen x.
Proof. done. Qed.

Lemma elapse_seen d x : seen (elapse d x) = elapse d (seen x).
Proof. done. Qed.

Lemma set_body_same x b : req_body x = Some b → fails b = false → set_body (Some (mkBody (content b) false)) x = x.
Proof. intros Hb Hf. destruct x, b; simpl in *. by subst. Qed.

(** What comes after the middleware reads and finds the same as without it. *)
Lemma around_runs {E} (emit : AccessLog → E) joined b late (next : Next E) x :
  0 ≤ maxBodyLength b → reads_well x →
  around emit joined b late next x =
    let '(p, y, inner) := next (if logRespBody b then set_capture (Some "") x else x) in
    match p with
    | Some p => (Some p, y, inner)
    | None => (None, elapse late y, inner ++ if keep b (status y) (clock y - clock x + late) then [emit (record_of joined b x y)] else [])
    end.
Proof.
  intros Hmax Hrw. unfold around, record_of, reads_well in *. destruct (req_body x) as [body|] eqn:Eb; cbn [from_option].
  - destruct (logReqBody b) eqn:Er.
    + rewrite truncated_excerpt by done. rewrite (set_body_same x body) by done.
      destruct (next _) as [[[p|] x2] inner]; [done|]. by destruct (logRespBody b); rewrite ?truncated_excerpt.
    + destruct (next _) as [[[p|] x2] inner]; [done|]. by destruct (logRespBody b); rewrite ?truncated_excerpt.
  - destruct (next _) as [[[p|] x2] inner]; [by destruct (logReqBody b)|].
    destruct (logReqBody b), (logRespBody b); by rewrite ?truncated_excerpt.
Qed.

Lemma Build_runs joined b late h x :
  0 ≤ maxBodyLength b → reads_well x →
  Build joined b late h x =
    let '(p, y) := exec h (if logRespBody b then set_capture (Some "") x else x) in
    match p with
    | Some p => (Some p, y, None)
    | None => (None, elapse late y, if keep b (status y) (clock y - clock x + late) then Some (record_of joined b x y) else None)
    end.
Proof.
  intros Hmax Hrw. unfold Build. rewrite around_runs by done. unfold alone. destruct (exec h _) as [[p|] y]; [done|].
  by destruct (keep _ _ _).
Qed.

(** ** Theorems *)

(** The log only watches: with a body that can be read and a limit that is not
    negative, the handlers run as they would without it - same panic, same
    response, same errors - and when the request is logged at all, the record
    has its status, its time, what it wrote through the writer and the body it
    was sent, cut to the limit; it is logged unless sampling or the
    errors-only setting says otherwise, or the handlers panicked. *)
Theorem access_log_watches joined b late h x p x' log :
  0 ≤ maxBodyLength b → reads_well x → capture x = None → Build joined b late h x = (p, x', log) →
  let '(q, y) := exec h x in
  p = q ∧ seen x' = (if p then y else elapse late y) ∧
  (is_Some log ↔ p = None ∧ keep b (status y) (clock y - clock x + late) = true) ∧
  ∀ l, log = Some l →
    log_Status l = status y ∧ log_Duration l = (clock y - clock x) ÷ Millisecond ∧
    log_RespBody l = (if logRespBody b then excerpt b (written h x) else "") ∧
    log_ReqBody l = (if logReqBody b then from_option (λ body, excerpt b (content body)) "" (req_body x) else "") ∧
    (log_Error l = "" ∨ errors y ≠ []).
Proof.
  intros Hmax Hrw Hc HB. rewrite Build_runs in HB by done.
  set (x1 := if logRespBody b then set_capture (Some "") x else x) in *.
  assert (seen x = seen x1) as Hseen by (unfold x1; by destruct (logRespBody b)).
  destruct (exec_capture h x x1 Hseen) as [Hp Hy]. pose proof (capture_none h x Hc) as Hcy.
  assert (logRespBody b = true → capture (exec h x1).2 = Some (written h x)) as Hw.
  { intros Hl. unfold x1. rewrite Hl. rewrite (capture_written h _ "") by done. by rewrite (written_capture h x (set_capture (Some "") x)). }
  destruct (exec h x) as [q y], (exec h x1) as [q1 y1]. cbn [fst snd] in *. subst q1.
  assert (y = seen y1) as -> by (rewrite <- Hy; destruct y; simpl in *; by subst).
  destruct q as [q|]; simplify_eq.
  - split_and!; try done. split; [by intros []|by intros []].
  - split_and!; try done.
    + cbn. destruct (keep _ _ _); split; [done|done|by intros []|by intros [_ ?]].
    + intros l Hl. cbn in Hl |- *. destruct (keep _ _ _); [|done]. simplify_eq. cbn. split_and!; try done.
      * destruct (logRespBody b) eqn:El; [|done]. by rewrite Hw.
      * destruct (errors y1); auto.
Qed.

Lemma access_log_watches_witness :
  let b := WithMaxBodyLength 3 (WithRespBody true (WithReqBody true NewBuilder)) in
  let x := exchange sample_request ∅ (Some (mkBody "hello" false)) 1000 in
  let h := ReadAll (λ s _, SetStatus 404 (Write s (Elapse (3 * Millisecond) (Write "!" Done)))) in
  ∃ x' l, Build (String.concat "; ") b 0 h x = (None, x', Some l) ∧ log_Status l = 404 ∧ log_RespBody l = "hel...(已截断)" ∧ log_Duration l = 3.
Proof.
  intros b x h. destruct (Build (String.concat "; ") b 0 h x) as [[p x'] log] eqn:E.
  pose proof (access_log_watches (String.concat "; ") b 0 h x p x' log ltac:(done) ltac:(done) ltac:(done) E) as H.
  vm_compute in H. destruct H as (-> & _ & [_ Hlog] & Hall). destruct Hlog as [l ->]; [done|].
  destruct (Hall l eq_refl) as (H1 & H2 & H3 & _). by exists x', l.
Defined.

(** A request whose handlers panic is not logged. *)
Example panic_not_logged joined b late p x : req_body x = None → (Build joined b late (Panic p) x).2 = None.
Proof. intros H. unfold Build, around. rewrite H. done. Qed.

(** The user is read before the handlers run: one set by a later middleware is
    not in the log. *)
Example user_read_too_early :
  let x := exchange sample_request ∅ None 1000 in
  log_UserID <$> (Build (String.concat "; ") NewBuilder 0 (SetUser "42" Done) x).2 = Some "".
Proof. done. Qed.

(** What is not put through [Write] is sent but not in the log. *)
Example write_string_not_logged :
  let x := exchange sample_request ∅ None 1000 in
  let '(_, x', log) := Build (String.concat "; ") (WithRespBody true NewBuilder) 0 (WriteString "hello" Done) x in
  out x' = "hello" ∧ log_RespBody <$> log = Some "".
Proof. done. Qed.

(** A body that breaks off looks complete to the handlers once it has been logged. *)
Example broken_body_looks_complete :
  let x := exchange sample_request ∅ (Some (mkBody "hel" true)) 1000 in
  let h := ReadAll (λ s err, if err then SetStatus 400 Done else SetStatus 200 Done) in
  status (Build (String.concat "; ") NewBuilder 0 h x).1.2 = 400 ∧
  status (Build (String.concat "; ") (WithReqBody true NewBuilder) 0 h x).1.2 = 200.
Proof. done. Qed.

(** A negative limit makes the middleware panic before the handlers run. *)
Example negative_limit_panics :
  let x := exchange sample_request ∅ (Some (mkBody "" false)) 1000 in
  (Build (String.concat "; ") (WithMaxBodyLength (-1) (WithReqBody true NewBuilder)) 0 (Write "a" Done) x).1.1 = Some "slice bounds out of range".
Proof. done. Qed.

(** On a clock that counts microseconds sampling keeps everything. *)
Lemma coarse_clock_keeps_all rate n : (0 < rate)%Q → keep (WithSampleRate rate NewBuilder) 200 (n * 1000) = true.
Proof.
  intros H. unfold keep. cbn [errorOnly sampleRate NewBuilder WithSampleRate andb]. rewrite Z.mod_mul by done.
  assert (Qle_bool (inject_Z 0 / 1000) rate = true) as -> by (apply Qle_bool_iff; unfold Qle, Qlt in *; simpl in *; lia).
  by rewrite andb_false_r.
Qed.

End AccessLog.
