(* ===== verification/Metrics.v ===== *)
(** * Request metrics (src/middlewares/metrics/middleware.go)

    What the middleware and the metrics of one's own tell the metrics library,
    as a list of its calls; times are in nanoseconds.  The library's own
    bookkeeping is not modelled, but that it panics when a name is registered twice. *)

From S2P Require Import Prelude Exchange.

Module Metrics.

Import Exchange.Exchange.

Inductive Vec := RequestsTotal | RequestDuration | RequestSize | ResponseSize | InflightRequests | Custom (name : string).

#[export] Instance Vec_eq_dec : EqDecision Vec.
Proof. solve_decision. Defined.

Inductive Call :=
| Inc (v : Vec) (labels : list string)
| Dec (v : Vec) (labels : list string)
| Add (v : Vec) (value : Z) (labels : list string)
| SetTo (v : Vec) (value : Z) (labels : list string)
| Observe (v : Vec) (value : Z) (labels : list string).

#[export] Instance Call_eq_dec : EqDecision Call.
Proof. solve_decision. Defined.

(** ** Registration *)

(** The names in the default registry, and whether [Init] has run. *)
Record Registry := mkRegistry { names : list string; inited : bool }.

Definition namespace : string := "gint".

Definition subsystem : string := "http".

Definition full_name (parts : list string) : string := String.concat "_" parts.

Definition own_names : list string :=
  (λ n, full_name [namespace; subsystem; n]) <$>
    ["requests_total"; "request_duration_seconds"; "request_size_bytes"; "response_size_bytes"; "inflight_requests"].

(** [None] is the panic of a name that is taken. *)
Definition MustRegister (ns : list string) (r : Registry) : option Registry :=
  if decide (NoDup (ns ++ names r)) then Some (mkRegistry (ns ++ names r) (inited r)) else None.

(** Once, whatever becomes of it. *)
Definition Init (r : Registry) : option Registry :=
  if inited r then Some r else MustRegister own_names (mkRegistry (names r) true).

Definition NewCounter (name : string) (r : Registry) : option (Vec * Registry) :=
  r ← MustRegister [full_name [namespace; name]] r; Some (Custom name, r).

Definition NewGauge (name : string) (r : Registry) : option (Vec * Registry) :=
  r ← MustRegister [full_name [namespace; name]] r; Some (Custom name, r).

(** The default buckets, unless there are others. *)
Definition NewHistogram (DefBuckets : list Z) (name : string) (buckets : list Z) (r : Registry) : option (Vec * list Z * Registry) :=
  let b := match buckets with [] => DefBuckets | _ => buckets end in
  r ← MustRegister [full_name [namespace; name]] r; Some (Custom name, b, r).

Definition Counter_Inc (v : Vec) (labels : list string) : Call := Inc v labels.
Definition Counter_Add (v : Vec) (value : Z) (labels : list string) : Call := Add v value labels.
Definition Gauge_Set (v : Vec) (value : Z) (labels : list string) : Call := SetTo v value labels.
Definition Gauge_Inc (v : Vec) (labels : list string) : Call := Inc v labels.
Definition Gauge_Dec (v : Vec) (labels : list string) : Call := Dec v labels.
Definition Histogram_Observe (v : Vec) (value : Z) (labels : list string) : Call := Observe v value labels.

(** ** The middleware *)

(** The decimal digits of a status. *)
Definition Itoa (n : Z) : string := pretty.pretty n.

Definition path_label (x : Exchange) : string := if decide (FullPath (req x) = "") then UrlPath (req x) else FullPath (req x).

(** Around whatever comes after it, whose events lie between the calls made before and after. *)
Definition around {E} (emit : Call → E) (next : Next E) (x : Exchange) : option string * Exchange * list E :=
  if decide (UrlPath (req x) = "/metrics") then next x
  else
    let start := clock x in
    let m := Method (req x) in
    let path := path_label x in
    let reqSize := if ContentLength (req x) <? 0 then 0 else ContentLength (req x) in
    let '(p, y, inner) := next x in
    let closing :=
      match p with
      | Some _ => [Dec InflightRequests [m]]
      | None =>
          [Inc RequestsTotal [m; path; Itoa (status y)]; Observe RequestDuration (clock y - start) [m; path];
           Observe RequestSize reqSize [m; path]; Observe ResponseSize (size y) [m; path]; Dec InflightRequests [m]]
      end in
    (p, y, emit (Inc InflightRequests [m]) :: inner ++ (emit <$> closing)).

(** Around handlers alone. *)
Definition Middleware (h : Handler) : Next Call := around id (alone h).

(** [Setup] registers the route before it uses the middleware, which gin applies
    to routes registered later: the requests for the metrics are not counted. *)
Definition Setup (routes : list (string * bool)) : list (string * bool) := routes ++ [("/metrics", false)].

(** ** What the theorems speak of *)

(** What the library holds of a vector after some calls. *)
Definition change (v : Vec) (labels : list string) (c : Call) : Z :=
  match c with
  | Inc v' l => if decide (v' = v ∧ l = labels) then 1 else 0
  | Dec v' l => if decide (v' = v ∧ l = labels) then -1 else 0
  | Add v' n l => if decide (v' = v ∧ l = labels) then n else 0
  | _ => 0
  end.

Definition level (v : Vec) (labels : list string) (cs : list Call) : Z := sumZ (change v labels) cs.

(** The handlers' outcomes of some requests, and all calls they cause. *)
Definition serve_all (rs : list (Handler * Exchange)) : list (list Call) := (λ hx, (Middleware hx.1 hx.2).2) <$> rs.

Definition answered (m path : string) (code : Z) (hx : Handler * Exchange) : bool :=
  let '(p, y) := exec hx.1 hx.2 in
  bool_decide (UrlPath (req hx.2) ≠ "/metrics" ∧ p = None ∧ Method (req hx.2) = m ∧ path_label hx.2 = path ∧ Itoa (status y) = Itoa code).

Definition get (path : string) : Request := mkRequest "GET" path "" "" path "" "example.org" "" "10.0.0.1" 0.

(** ** Lemmas *)

Lemma level_perm v l cs cs' : cs ≡ₚ cs' → level v l cs = level v l cs'.
Proof. intros H. unfold level. by rewrite H. Qed.

Lemma level_concat v l css : level v l (mjoin css) = sumZ (level v l) css.
Proof. induction css as [|cs css IH]; [done|]. change (mjoin (cs :: css)) with (cs ++ mjoin css). cbn [sumZ]. unfold level in *.
  rewrite sumZ_app. lia.
Qed.

Lemma one_inflight h x l : level InflightRequests l (Middleware h x).2 = 0.
Proof.
  unfold Middleware, around, alone. case_decide; [done|]. destruct (exec h x) as [[p|] y]; unfold level, change; cbn [snd sumZ app fmap list_fmap id];
    repeat case_decide; naive_solver lia.
Qed.

Lemma one_total h x m path code : level RequestsTotal [m; path; Itoa code] (Middleware h x).2 = if answered m path code (h, x) then 1 else 0.
Proof.
  unfold Middleware, around, alone, answered. cbn [fst snd]. case_decide as Hp.
  { destruct (exec h x) as [p y]. by rewrite bool_decide_false by tauto. }
  destruct (exec h x) as [[p|] y].
  - rewrite bool_decide_false by naive_solver. done.
  - unfold level, change. cbn [snd sumZ app fmap list_fmap id]. rewrite !(decide_False (P := InflightRequests = _ ∧ _)) by naive_solver.
    case_decide as E.
    + rewrite bool_decide_true by naive_solver. done.
    + rewrite bool_decide_false by naive_solver. done.
Qed.

(** ** Theorems *)

(** C39. The metrics only watch, and they add up: every request runs as it would
    without them, and however the library's calls of all requests interleave, no
    request is left in flight once they have ended, panics included, and the requests
    counted for a method, path and status are those that were answered so. *)
Theorem metrics_add_up (rs : list (Handler * Exchange)) (cs : list Call) :
  cs ≡ₚ mjoin (serve_all rs) →
  (∀ h x, (Middleware h x).1 = exec h x) ∧
  (∀ labels, level InflightRequests labels cs = 0) ∧
  (∀ m path code, level RequestsTotal [m; path; Itoa code] cs = countb (answered m path code) rs).
Proof.
  intros Hcs. split_and!.
  - intros h x. unfold Middleware, around, alone. case_decide; [done|]. by destruct (exec h x) as [[p|] y].
  - intros l. rewrite (level_perm _ _ _ _ Hcs), level_concat. clear Hcs. unfold serve_all.
    induction rs as [|[h x] rs IH]; [done|]. cbn [fmap list_fmap sumZ]. by rewrite one_inflight, IH.
  - intros m path code. rewrite (level_perm _ _ _ _ Hcs), level_concat. clear Hcs. unfold serve_all, countb.
    induction rs as [|[h x] rs IH]; [done|]. cbn [fmap list_fmap sumZ fst snd]. by rewrite one_total, IH.
Qed.

Lemma metrics_add_up_witness :
  let rs := [(Write "a" Done, exchange (get "/a") ∅ None 0); (Panic "oops", exchange (get "/a") ∅ None 0);
             (Done, exchange (get "/metrics") ∅ None 0); (Write "b" Done, exchange (get "/a") ∅ None 0)] in
  level RequestsTotal ["GET"; "/a"; Itoa 200] (reverse (mjoin (serve_all rs))) = 2.
Proof.
  intros rs. destruct (metrics_add_up rs (reverse (mjoin (serve_all rs))) (reverse_Permutation _)) as (_ & _ & H).
  rewrite H. by vm_compute.
Defined.

(** A response without a body is observed as one of -1 byte. *)
Example empty_response_size :
  Observe ResponseSize (-1) ["GET"; "/a"] ∈ (Middleware (SetStatus 204 Done) (exchange (get "/a") ∅ None 0)).2.
Proof. apply (bool_decide_unpack _). by vm_compute. Qed.

(** A request that matches no route is counted under the path it asked for: every
    address tried by a scanner is a series of its own. *)
Lemma unmatched_paths_are_labels path code k :
  path ≠ "/metrics" →
  level RequestsTotal ["GET"; path; Itoa code] (Middleware (SetStatus code Done) (exchange (mkRequest "GET" path "" "" path "" k "" "" 0) ∅ None 0)).2 = 1.
Proof.
  intros Hp. rewrite one_total. unfold answered. cbn. rewrite bool_decide_true; [done|]. split_and!; done.
Qed.

(** A metric of one's own can be named only once. *)
Example second_counter_panics : (NewCounter "orders" (mkRegistry [] false) ≫= λ vr, NewGauge "orders" vr.2) = None.
Proof. by vm_compute. Qed.

End Metrics.
