(* ===== verification/Health.v ===== *)
(** * Health checks (src/middlewares/health/middleware.go)

    A check is a function of the deadline it is given, to an error and to the
    time it takes; the checkers run one after the other. *)

From S2P Require Import Prelude.

Module Health.

Inductive HealthStatus := StatusHealthy | StatusUnhealthy | StatusDegraded.

#[export] Instance HealthStatus_eq_dec : EqDecision HealthStatus.
Proof. solve_decision. Defined.

(** The error, if any, and the instant of the return. *)
Definition CheckFunc := Time → Time → option string * Time.

Record CheckResult := mkResult { result_Status : HealthStatus; result_Error : string }.

Record Checker := mkChecker { name : string; check : CheckFunc; timeout : Duration }.

Definition NewChecker (name : string) (check : CheckFunc) (timeout : Duration) : Checker :=
  mkChecker name check (if timeout <=? 0 then 5 * Second else timeout).

(** [limit] is the deadline of the request's own context, if it has one. *)
Definition Check (c : Checker) (limit : option Time) (now : Time) : CheckResult * Time :=
  let deadline := from_option (Z.min (now + timeout c)) (now + timeout c) limit in
  let '(err, now) := check c deadline now in
  (match err with Some e => mkResult StatusUnhealthy e | None => mkResult StatusHealthy "" end, now).

Record Builder := mkBuilder { checkers : list Checker; liveOnly : bool }.

Definition NewBuilder : Builder := mkBuilder [] false.

Definition AddChecker (name : string) (check : CheckFunc) (timeouts : list Duration) (b : Builder) : Builder :=
  mkBuilder (checkers b ++ [NewChecker name check (default (5 * Second) (head timeouts))]) (liveOnly b).

Definition LiveOnly (b : Builder) : Builder := mkBuilder (checkers b) true.

(** The answer: its code, the overall status, and the results where they are given. *)
Record Answer := mkAnswer { code : Z; overall : HealthStatus; checks : option (gmap string CheckResult) }.

Definition worse (overall : HealthStatus) (r : CheckResult) : HealthStatus :=
  if decide (result_Status r = StatusUnhealthy) then StatusUnhealthy
  else if decide (result_Status r = StatusDegraded ∧ overall ≠ StatusUnhealthy) then StatusDegraded else overall.

Fixpoint check_all (cs : list Checker) (limit : option Time) (now : Time) (results : gmap string CheckResult) (overall : HealthStatus)
    : gmap string CheckResult * HealthStatus * Time :=
  match cs with
  | [] => (results, overall, now)
  | c :: cs =>
      let '(r, now) := Check c limit now in
      check_all cs limit now (<[name c := r]> results) (worse overall r)
  end.

Definition Build (b : Builder) (limit : option Time) (now : Time) : Answer * Time :=
  if liveOnly b then (mkAnswer 200 StatusHealthy None, now)
  else
    let '(results, overall, now) := check_all (checkers b) limit now ∅ StatusHealthy in
    (mkAnswer (if decide (overall = StatusUnhealthy) then 503 else 200) overall (Some results), now).

(** *** Checks and routes that are given *)

Definition CheckDB (pingFunc : CheckFunc) : CheckFunc := λ deadline now, pingFunc deadline now.

Definition CheckRedis (pingFunc : CheckFunc) : CheckFunc := λ deadline now, pingFunc deadline now.

(** [get] is the exchange with the service, by the client's own timeout: the
    deadline of the check is not passed on. *)
Definition CheckHTTP (get : Duration → Time → res string Z * Time) (timeout : Duration) : CheckFunc := λ _ now,
  let '(r, now) := get timeout now in
  (match r with Err e => Some e | Ok status => if 500 <=? status then Some "service unavailable" else None end, now).

Definition Liveness : Builder := LiveOnly NewBuilder.

Definition Readiness (cs : list Checker) : Builder := mkBuilder (checkers NewBuilder ++ cs) false.

Definition Health (cs : list Checker) : list (string * Builder) :=
  [("/live", Liveness); ("/ready", Readiness cs); ("/health", AddChecker "self" (λ _ now, (None, now)) [] NewBuilder)].

(** ** What the theorems speak of *)

(** The result of each checker, at the instant the ones before it leave it. *)
Fixpoint results_of (cs : list Checker) (limit : option Time) (now : Time) : list (string * CheckResult) * Time :=
  match cs with
  | [] => ([], now)
  | c :: cs =>
      let '(r, now) := Check c limit now in
      let '(rs, now) := results_of cs limit now in ((name c, r) :: rs, now)
  end.

Definition failed (nr : string * CheckResult) : bool := bool_decide (result_Status nr.2 = StatusUnhealthy).

(** A check that heeds its deadline. *)
Definition heeds (c : Checker) : Prop := ∀ deadline now, now ≤ deadline → now ≤ (check c deadline now).2 ≤ deadline.

Definition sample (n : string) (err : option string) (d : Duration) : Checker := NewChecker n (λ _ now, (err, now + d)) 0.

(** ** Lemmas *)

Lemma Check_two c limit now : result_Status (Check c limit now).1 = StatusHealthy ∨ result_Status (Check c limit now).1 = StatusUnhealthy.
Proof. unfold Check. destruct (check c _ now) as [[e|] t]; auto. Qed.

Lemma check_all_spec cs limit : ∀ now results o, o ≠ StatusDegraded →
  check_all cs limit now results o =
    (foldl (λ m nr, <[nr.1 := nr.2]> m) results (results_of cs limit now).1,
     (if existsb failed (results_of cs limit now).1 then StatusUnhealthy else o), (results_of cs limit now).2).
Proof.
  induction cs as [|c cs IH]; intros now results o Ho; [done|]. cbn [check_all results_of].
  pose proof (Check_two c limit now) as Hc. destruct (Check c limit now) as [r t]. cbn [fst] in Hc.
  assert (worse o r = if failed (name c, r) then StatusUnhealthy else o) as Hw.
  { unfold worse, failed. cbn [snd]. destruct Hc as [-> | ->]; [|done]. rewrite bool_decide_false by done.
    rewrite decide_False by done. rewrite decide_False; [done|]. by intros []. }
  rewrite IH by (rewrite Hw; by destruct (failed _)). destruct (results_of cs limit t) as [rs t']. cbn [fst snd foldl existsb].
  rewrite Hw. by destruct (failed (name c, r)), (existsb failed rs).
Qed.

Lemma last_result (rs : list (string * CheckResult)) : ∀ (m : gmap string CheckResult) n r,
  NoDup rs.*1 → (n, r) ∈ rs → foldl (λ m nr, <[nr.1 := nr.2]> m) m rs !! n = Some r.
Proof.
  assert (∀ (rs : list (string * CheckResult)) (m : gmap string CheckResult) n, n ∉ rs.*1 → foldl (λ m nr, <[nr.1 := nr.2]> m) m rs !! n = m !! n) as Hout.
  { clear rs. induction rs as [|[n' r'] rs IH]; intros m n Hn; [done|]. cbn [foldl fmap list_fmap fst snd] in *.
    apply not_elem_of_cons in Hn as [Hn Hns]. by rewrite IH, lookup_insert_ne. }
  induction rs as [|[n' r'] rs IH]; intros m n r Hnd Hin; [by apply elem_of_nil in Hin|].
  cbn [foldl fmap list_fmap fst snd] in *. apply NoDup_cons in Hnd as [Hn' Hnd]. apply elem_of_cons in Hin as [[= -> ->]|Hin]; [|by apply IH].
  by rewrite Hout, lookup_insert_eq.
Qed.

Lemma results_of_time cs limit : ∀ now, Forall heeds cs → Forall (λ c, 0 ≤ timeout c) cs → (∀ d, limit = Some d → now ≤ d) →
  (results_of cs limit now).2 ≤ now + sumZ timeout cs ∧ now ≤ (results_of cs limit now).2 ∧ (∀ d, limit = Some d → (results_of cs limit now).2 ≤ d).
Proof.
  induction cs as [|c cs IH]; intros now Hh Ht Hl; cbn [results_of sumZ]; [cbn; split_and!; [lia|lia|done]|].
  apply Forall_cons in Hh as [Hc Hh]. apply Forall_cons in Ht as [Hc0 Ht]. unfold Check.
  set (d := from_option _ _ limit). assert (now ≤ d ∧ d ≤ now + timeout c ∧ (∀ d', limit = Some d' → d ≤ d')) as (H1 & H2 & H3).
  { unfold d. destruct limit as [l|]; simpl; [specialize (Hl l eq_refl)|]; split_and!; try lia; [intros d' [= <-]; lia|done]. }
  specialize (Hc d now H1). destruct (check c d now) as [e t]. cbn [snd] in Hc. specialize (IH t Hh Ht).
  destruct (results_of cs limit t) as [rs t']. cbn [snd] in *. destruct IH as (I1 & I2 & I3); [intros d' E; specialize (H3 d' E); lia|].
  split_and!; [lia|lia|done].
Qed.

(** ** Theorems *)

(** Readiness tells the truth: the answer is 503 with status unhealthy exactly when
    a check fails and 200 healthy otherwise, degraded never; checks with names of their
    own each have their result in it; and checks that heed their deadline are all done
    within the sum of their timeouts, and by the deadline of the request. *)
Theorem readiness_truthful (cs : list Checker) (limit : option Time) (now : Time) :
  Forall (λ c, 0 ≤ timeout c) cs → (∀ d, limit = Some d → now ≤ d) →
  let '(a, t) := Build (Readiness cs) limit now in
  let rs := (results_of cs limit now).1 in
  (code a, overall a) = (if existsb failed rs then (503, StatusUnhealthy) else (200, StatusHealthy)) ∧
  (NoDup (name <$> cs) → ∀ n r, (n, r) ∈ rs → checks a ≫= (.!! n) = Some r) ∧
  (Forall heeds cs → t ≤ now + sumZ timeout cs ∧ ∀ d, limit = Some d → t ≤ d).
Proof.
  intros Ht Hl. unfold Build, Readiness. cbn [liveOnly checkers NewBuilder app]. rewrite check_all_spec by done.
  cbn [code overall checks]. split_and!.
  - by destruct (existsb failed _).
  - intros Hnd n r Hin. simpl. apply last_result; [|done].
    replace ((results_of cs limit now).1.*1) with (name <$> cs); [done|]. clear. revert now.
    induction cs as [|c cs IH]; intros now; [done|]. cbn [results_of]. destruct (Check c limit now) as [r t]. specialize (IH t).
    destruct (results_of cs limit t) as [rs t']. cbn [fst fmap list_fmap] in *. by f_equal.
  - intros Hh. destruct (results_of_time cs limit now Hh Ht Hl) as (H1 & _ & H2). auto.
Qed.

Lemma readiness_truthful_witness :
  let cs := [sample "db" None 5; sample "redis" (Some "refused") 7] in
  (code (Build (Readiness cs) None 0).1, overall (Build (Readiness cs) None 0).1) = (503, StatusUnhealthy) ∧
  (checks (Build (Readiness cs) None 0).1 ≫= (.!! "db")) = Some (mkResult StatusHealthy "").
Proof.
  intros cs. pose proof (readiness_truthful cs None 0) as H. destruct (Build (Readiness cs) None 0) as [a t].
  destruct H as (H1 & H2 & _); [repeat constructor; by vm_compute|done|]. split; [exact H1|].
  apply H2; [apply (bool_decide_unpack _); by vm_compute|]. left.
Defined.

(** Of two checks of one name only the later shows, though the earlier fails. *)
Example same_name_hidden :
  let a := (Build (Readiness [sample "db" (Some "refused") 0; sample "db" None 0]) None 0).1 in
  code a = 503 ∧ (checks a ≫= (.!! "db")) = Some (mkResult StatusHealthy "").
Proof. by vm_compute. Qed.

(** The check of a service waits by a time of its own, past the checker's timeout. *)
Example http_check_outlasts_timeout :
  let slow (d : Duration) (now : Time) : res string Z * Time := (Err "timeout", now + d) in
  (Check (NewChecker "svc" (CheckHTTP slow (60 * Second)) Second) None 0).2 = 60 * Second.
Proof. by vm_compute. Qed.

(** The route for health looks at nothing. *)
Lemma health_route_always_healthy cs limit now : ∃ b, ("/health", b) ∈ Health cs ∧ (code (Build b limit now).1 = 200).
Proof. eexists. split; [do 2 right; left|done]. Qed.

End Health.
