(* ===== verification/Otel.v ===== *)
(** * Tracing with OpenTelemetry (src/middlewares/otel/middleware.go)

    The tracing library is a class: spans have a context with a trace id, and
    the propagator writes a context into headers and reads it back.  What the
    code tells a span is a list of calls. *)

From stdpp Require Import pretty.
From S2P Require Import Prelude Exchange.

Module Otel.

Import Exchange.Exchange.

Abbreviation Headers := (gmap string string) (only parsing).

(** [start_span] takes the span of the context, if any, and a seed the new ids come from. *)
Class Tracing (SC : Type) := {
  sc_TraceID : SC → string;
  sc_IsValid : SC → bool;
  is_recording : SC → bool;
  start_span : option SC → nat → SC;
  propagate_Inject : option SC → Headers → Headers;
  propagate_Extract : Headers → option SC → option SC
}.

Class TracingOk (SC : Type) `{Tracing SC} := {
  inject_extract : ∀ sc hs c, sc_IsValid sc = true →
    ∃ sc', propagate_Extract (propagate_Inject (Some sc) hs) c = Some sc' ∧ sc_TraceID sc' = sc_TraceID sc ∧ sc_IsValid sc' = true;
  child_same_trace : ∀ sc n, sc_IsValid sc = true → sc_TraceID (start_span (Some sc) n) = sc_TraceID sc;
  started_valid : ∀ c n, sc_IsValid (start_span c n) = true
}.

Inductive Code := CodeError | CodeOk.

Inductive Attr := AString (k v : string) | AInt (k : string) (n : Z).

Inductive Call :=
| Start (name : string) (server : bool) (attrs : list Attr)
| SetAttribute (a : Attr)
| SetStatus (c : Code) (description : string)
| RecordError (msg : string)
| End.

(** ** Setting up *)

Record Config := mkConfig {
  ServiceName : string;
  ServiceVersion : string;
  Environment : string;
  ExporterType : string;
  Endpoint : string;
  Insecure : bool;
  SampleRate : string  (** the float as written *)
}.

Definition DefaultConfig : Config := mkConfig "gint-service" "1.0.0" "development" "grpc" "localhost:4317" true "1.0".

Inductive Protocol := ProtoHTTP | ProtoGRPC.

Record ExporterOptions := mkExporter { protocol : Protocol; withEndpoint : string; withInsecure : bool }.

Definition exporter_options (cfg : Config) : ExporterOptions :=
  mkExporter (if decide (ExporterType cfg = "http") then ProtoHTTP else ProtoGRPC) (Endpoint cfg) (Insecure cfg).

Definition resource_attributes (cfg : Config) : list (string * string) :=
  [("service.name", ServiceName cfg); ("service.version", ServiceVersion cfg); ("environment", Environment cfg)].

(** [shut] says how the provider was shut down, last call first. *)
Record Tracer := mkTracer { config : Config; tracer_name : string; shut : nat }.

(** [merge] and [new_exporter] are the library's; the global tracer is replaced only on success. *)
Definition Init (merge : list (string * string) → option string) (new_exporter : ExporterOptions → option string)
    (cfg : Config) (globalTracer : option Tracer) : res string Tracer * option Tracer :=
  match merge (resource_attributes cfg) with
  | Some e => (Err e, globalTracer)
  | None =>
      match new_exporter (exporter_options cfg) with
      | Some e => (Err e, globalTracer)
      | None => let t := mkTracer cfg (ServiceName cfg) 0 in (Ok t, Some t)
      end
  end.

Definition tracer_Shutdown (provider : Tracer → option string) (t : Tracer) : option string * Tracer :=
  (provider t, mkTracer (config t) (tracer_name t) (S (shut t))).

(** Without a tracer there is nothing to shut down. *)
Definition Shutdown (provider : Tracer → option string) (globalTracer : option Tracer) : option string * option Tracer :=
  match globalTracer with
  | Some t => let '(e, t) := tracer_Shutdown provider t in (e, Some t)
  | None => (None, None)
  end.

Section spans.
  Context {SC : Type} `{Tracing SC} (StatusText : Z → string).

(** ** The middleware *)

Definition span_name (x : Exchange) : string :=
  let spanName := (Method (req x) +:+ " " +:+ FullPath (req x))%string in
  if decide (spanName = "") then (Method (req x) +:+ " " +:+ UrlPath (req x))%string else spanName.

Definition server_attrs (x : Exchange) : list Attr :=
  [AString "http.method" (Method (req x)); AString "http.url" (Url (req x)); AString "http.route" (FullPath (req x));
   AString "http.scheme" (Scheme (req x)); AString "http.host" (Host (req x)); AString "http.user_agent" (UserAgent (req x));
   AInt "http.request_content_length" (ContentLength (req x))].

(** The handlers get the span with the request's context.  [Last] of no errors is a nil
    pointer, and a span that records reads its message. *)
Definition around {E} (emit : Call → E) (globalTracer : option Tracer) (n : nat) (next : option SC → Next E) (x : Exchange)
    : option string * Exchange * list E :=
  match globalTracer with
  | None => next None x
  | Some _ =>
      let span := start_span (propagate_Extract (req_headers x) None) n in
      let opening := [Start (span_name x) true (server_attrs x)] in
      let x := if sc_IsValid span then set_trace (sc_TraceID span) x else x in
      let '(p, y, inner) := next (Some span) x in
      let '(p, closing) :=
        match p with
        | Some p => (Some p, [End])
        | None =>
          let told := [SetAttribute (AInt "http.status_code" (status y))] in
          if 400 <=? status y then
            let told := told ++ [SetStatus CodeError (StatusText (status y))] in
            if 500 <=? status y then
              match last (errors y) with
              | Some e => (None, told ++ [RecordError e; End])
              | None => if is_recording span then (Some "nil pointer dereference", told ++ [End]) else (None, told ++ [End])
              end
            else (None, told ++ [End])
          else (None, told ++ [SetStatus CodeOk "OK"; End])
        end in
      (p, y, (emit <$> opening) ++ inner ++ (emit <$> closing))
  end.

(** Around handlers alone. *)
Definition Middleware (globalTracer : option Tracer) (n : nat) (next : option SC → Handler) : Next Call :=
  around id globalTracer n (λ span, alone (next span)).

(** ** Helpers *)

Definition StartSpan (globalTracer : option Tracer) (ctx : option SC) (n : nat) : option SC :=
  match globalTracer with None => ctx | Some _ => Some (start_span ctx n) end.

Definition SpanFromContext (ctx : option SC) : option SC := ctx.

(** A context without a span has an invalid one. *)
Definition TraceIDFromContext (ctx : option SC) : string :=
  match ctx with Some sc => if sc_IsValid sc then sc_TraceID sc else "" | None => "" end.

Definition InjectHTTP (ctx : option SC) (hs : Headers) : Headers := propagate_Inject ctx hs.

Definition ExtractHTTP (hs : Headers) (ctx : option SC) : option SC := propagate_Extract hs ctx.

Definition Keys `{RangeOrder} (hs : Headers) : list string := (range_map hs).*1.

(** ** The client's side *)

Record OutRequest := mkOut { out_Method : string; out_Url : string; out_UrlHost : string; out_Host : string; out_headers : Headers; out_ctx : option SC }.

(** The exchange itself is [send]; the headers written are those of the caller's request. *)
Definition RoundTrip (tracer : bool) (n : nat) (send : OutRequest → res string Z) (r : OutRequest) : res string Z * OutRequest * list Call :=
  if negb tracer then (send r, r, [])
  else
    let span := start_span (out_ctx r) n in
    let opening := [Start (out_Method r +:+ " " +:+ out_UrlHost r)%string false
      [AString "http.method" (out_Method r); AString "http.url" (out_Url r); AString "http.host" (out_Host r)]] in
    let r' := mkOut (out_Method r) (out_Url r) (out_UrlHost r) (out_Host r) (propagate_Inject (Some span) (out_headers r)) (Some span) in
    let kept := mkOut (out_Method r) (out_Url r) (out_UrlHost r) (out_Host r) (propagate_Inject (Some span) (out_headers r)) (out_ctx r) in
    match send r' with
    | Err e => (Err e, kept, opening ++ [RecordError e; SetStatus CodeError e; End])
    | Ok code =>
        (Ok code, kept, opening ++ [SetAttribute (AInt "http.status_code" code);
          (if 400 <=? code then SetStatus CodeError (StatusText code) else SetStatus CodeOk "OK"); End])
    end.

End spans.

(** A client is its transport: the default one, one of the caller's, or one wrapped for tracing. *)
Inductive Transport := DefaultTransport | OwnTransport (name : string) | TracingTransport (t : Transport).

(** [None] is the panic without a global tracer.  The client given is changed in
    place, and without one the process's default client is. *)
Definition TraceHTTPClient (globalTracer : option Tracer) (client : option (option Transport)) (DefaultClient : option Transport)
    : option (option Transport * option Transport) :=
  match globalTracer with
  | None => None
  | Some _ =>
      let wrap t := Some (TracingTransport (default DefaultTransport t)) in
      match client with
      | Some c => Some (wrap c, DefaultClient)
      | None => Some (wrap DefaultClient, wrap DefaultClient)
      end
  end.

(** ** What the theorems speak of *)

Definition is_start (c : Call) : bool := match c with Start _ _ _ => true | _ => false end.

Definition is_end (c : Call) : bool := match c with End => true | _ => false end.

(** One start, first, and one end, last. *)
Definition one_span (cs : list Call) : Prop := ∃ mid, ∃ s, cs = s :: mid ++ [End] ∧ is_start s = true ∧ existsb (λ c, is_start c || is_end c) mid = false.

(** A tracing library for the witnesses: the trace id alone, under one header. *)
#[export] Instance sample_tracing : Tracing string := {
  sc_TraceID sc := sc;
  sc_IsValid sc := bool_decide (sc ≠ "");
  is_recording sc := true;
  start_span c n := match c with Some sc => if decide (sc = "") then ("t" +:+ pretty n)%string else sc | None => ("t" +:+ pretty n)%string end;
  propagate_Inject c hs := match c with Some sc => <["Traceparent" := sc]> hs | None => hs end;
  propagate_Extract hs c := match hs !! "Traceparent" with Some sc => Some sc | None => c end
}.

Definition sample_get : Request := mkRequest "GET" "/orders/7" "/orders/:id" "" "/orders/7" "" "example.org" "" "10.0.0.1" 0.

(** ** Lemmas *)

#[export] Instance sample_tracing_ok : TracingOk string.
Proof.
  split.
  - intros sc hs c Hv. cbn in *. rewrite lookup_insert_eq. by exists sc.
  - intros sc n Hv. cbn in *. apply bool_decide_eq_true in Hv. by rewrite decide_False.
  - intros c n. cbn. apply bool_decide_eq_true. destruct c as [sc|]; [case_decide|]; done.
Defined.

Lemma method_space m p : (m +:+ " " +:+ p ≠ "")%string.
Proof. destruct m; done. Qed.

Section tracing.
  Context {SC : Type} `{TracingOk SC} (StatusText : Z → string).

Lemma Middleware_one_span t n next x : one_span (Middleware StatusText (Some t) n next x).2.
Proof using.
  unfold Middleware, around, alone. destruct (exec (next _) _) as [[p|] y]; [by exists [], (Start (span_name x) true (server_attrs x))|].
  destruct (400 <=? status y); [destruct (500 <=? status y); [destruct (last (errors y)); [|destruct (is_recording _)]|]|];
    cbn [snd app fmap list_fmap id]; first [eexists [_; _; _], _; split; [reflexivity|done] | eexists [_; _], _; split; [reflexivity|done]].
Qed.

Lemma RoundTrip_one_span n send r : one_span (RoundTrip StatusText true n send r).2.
Proof using.
  unfold RoundTrip. cbn [negb]. destruct (send _) as [code|e]; cbn [snd app]; eexists [_; _], _; (split; [reflexivity|]); [|done].
  split; [done|]. by destruct (400 <=? code).
Qed.

Lemma Middleware_trace t n next x span : span = start_span (propagate_Extract (req_headers x) None) n →
  (Middleware StatusText (Some t) n next x).1.2 = (exec (next (Some span)) (set_trace (sc_TraceID span) x)).2.
Proof using H0.
  intros ->. unfold Middleware, around, alone. rewrite started_valid. destruct (exec (next _) _) as [[p|] y]; [done|].
  destruct (400 <=? status y); [destruct (500 <=? status y); [destruct (last (errors y)); [|destruct (is_recording _)]|]|]; done.
Qed.

End tracing.

(** ** Theorems *)

(** C29. One hop: a client that makes a call inside a trace, and a server that is sent the headers
    it wrote, share the trace - the server's handlers run with the caller's trace id - and on both
    sides one span is started and ended, whatever the exchange, the handlers and their panics do. *)
Theorem trace_one_hop {SC} `{TracingOk SC} (StatusText : Z → string) t caller n m next x send r :
  out_ctx r = Some caller → sc_IsValid caller = true →
  let '(_, r', cs) := RoundTrip StatusText true n send r in
  req_headers x = out_headers r' →
  ∃ span, sc_TraceID span = sc_TraceID caller ∧
    (Middleware StatusText (Some t) m next x).1.2 = (exec (next (Some span)) (set_trace (sc_TraceID caller) x)).2 ∧
    one_span cs ∧ one_span (Middleware StatusText (Some t) m next x).2.
Proof.
  intros Hc Hv. pose proof (RoundTrip_one_span StatusText n send r) as Hone.
  destruct (RoundTrip StatusText true n send r) as [[res r'] cs] eqn:E. intros Hx.
  assert (out_headers r' = propagate_Inject (Some (start_span (Some caller) n)) (out_headers r)) as Hh.
  { unfold RoundTrip in E. cbn [negb] in E. rewrite Hc in E. destruct (send _) in E; by simplify_eq/=. }
  destruct (inject_extract (start_span (Some caller) n) (out_headers r) None (started_valid _ _)) as (sc & Hex & Htr & Hsv).
  rewrite <- Hh, <- Hx in Hex. exists (start_span (Some sc) m). rewrite child_same_trace, Htr, child_same_trace by done.
  split; [done|]. split; [|split; [done|apply Middleware_one_span]].
  rewrite (Middleware_trace _ t m next x (start_span (Some sc) m)) by by rewrite Hex.
  by rewrite child_same_trace, Htr, child_same_trace by done.
Qed.

Lemma trace_one_hop_witness :
  let st (_ : Z) := "status" in
  let t := mkTracer DefaultConfig "gint-service" 0 in
  let r := mkOut "GET" "http://b/orders/7" "b" "b" ∅ (Some "abc") in
  let r' := (RoundTrip st true 1 (λ _, Ok 200) r).1.2 in
  trace_id (Middleware st (Some t) 2 (λ _, Write "ok" Done) (exchange sample_get (out_headers r') None 0)).1.2 = "abc".
Proof.
  intros st t r r'.
  pose proof (trace_one_hop st t "abc" 1 2 (λ _, Write "ok" Done) (exchange sample_get (out_headers r') None 0) (λ _, Ok 200) r eq_refl eq_refl) as Hop.
  hnf in Hop. destruct (Hop eq_refl) as (span & _ & Heq & _). rewrite Heq. by vm_compute.
Defined.

(** ** What the code does besides *)

(** Every answer of 500 and above whose handlers reported no error makes the middleware panic,
    when the span records. *)
Lemma server_error_panics {SC} `{Tracing SC} StatusText t n x code :
  500 ≤ code → size x = -1 → errors x = [] → is_recording (start_span (propagate_Extract (req_headers x) None) n) = true →
  (Middleware StatusText (Some t) n (λ _, Exchange.SetStatus code Done) x).1.1 = Some "nil pointer dereference".
Proof.
  intros Hcode Hs He Hr. unfold Middleware, around, alone. set (span := start_span _ n) in *.
  assert (∀ y, size y = -1 → errors y = [] → exec (Exchange.SetStatus code Done) y = (None, set_status code y)) as -> by done.
  - assert (∀ y, size y = -1 → status (set_status code y) = code) as Hst by (intros y Hy; unfold set_status; cbn; by rewrite Hy).
    rewrite Hst by by destruct (sc_IsValid span). replace (400 <=? code) with true by lia. replace (500 <=? code) with true by lia.
    assert (errors (set_status code (if sc_IsValid span then set_trace (sc_TraceID span) x else x)) = []) as -> by by destruct (sc_IsValid span).
    simpl. by rewrite Hr.
  - by destruct (sc_IsValid span).
  - by destruct (sc_IsValid span).
Qed.

(** A request without a route gets a span named by its method alone: the name is never empty. *)
Lemma span_name_never_falls_back x : span_name x = (Method (req x) +:+ " " +:+ FullPath (req x))%string.
Proof. unfold span_name. rewrite decide_False; [done|]. apply method_space. Qed.

(** Tracing a client twice makes two spans of each call; without a client it is the default client of
    the process that is traced from then on; before [Init] it panics. *)
Example traced_twice t :
  (TraceHTTPClient (Some t) (Some None) None ≫= λ c, TraceHTTPClient (Some t) (Some c.1) None) =
  Some (Some (TracingTransport (TracingTransport DefaultTransport)), None).
Proof. done. Qed.

Example default_client_traced t : snd <$> TraceHTTPClient (Some t) None None = Some (Some (TracingTransport DefaultTransport)).
Proof. done. Qed.

Example trace_before_init : TraceHTTPClient None (Some None) None = None.
Proof. done. Qed.

(** An exporter of any type but "http" is a gRPC one. *)
Example misspelt_exporter : protocol (exporter_options (mkConfig "s" "1" "dev" "HTTP" "localhost:4318" true "1.0")) = ProtoGRPC.
Proof. done. Qed.

End Otel.
