(* ===== verification/Stack.v ===== *)
(** * The observing middlewares on top of each other (src/middlewares/otel, metrics and accesslog)

    Tracing around metrics around the access log around the handlers, in the
    order in which a program hands them to the engine: what each of them tells
    its library, in the order it is told, and that the three accounts agree. *)

From S2P Require Import Prelude Exchange AccessLog Metrics Otel.

Module Stack.

Import Exchange.Exchange.
#[local] Existing Instances Otel.sample_tracing Otel.sample_tracing_ok.

Inductive Event :=
| Span (c : Otel.Call)
| Count (c : Metrics.Call)
| Logged (l : AccessLog.AccessLog).

(** The engine runs the middlewares outermost first; the handlers find the span in the request's context. *)
Definition Serve {SC} `{Otel.Tracing SC} (StatusText : Z → string) (joined : list string → string) (tracer : option Otel.Tracer)
    (n : nat) (b : AccessLog.Builder) (late : Duration) (h : option SC → Handler) : Next Event :=
  Otel.around StatusText Span tracer n (λ span,
    Metrics.around Count (AccessLog.around Logged joined b late (alone (h span)))).

(** ** What the theorems speak of *)

Definition spans (es : list Event) : list Otel.Call := omap (λ e, match e with Span c => Some c | _ => None end) es.

Definition counts (es : list Event) : list Metrics.Call := omap (λ e, match e with Count c => Some c | _ => None end) es.

Definition logs (es : list Event) : list AccessLog.AccessLog := omap (λ e, match e with Logged l => Some l | _ => None end) es.

(** The status an event reports, as the metrics write it. *)
Definition reported (e : Event) : option string :=
  match e with
  | Span (Otel.SetAttribute (Otel.AInt k s)) => if decide (k = "http.status_code") then Some (Metrics.Itoa s) else None
  | Count (Metrics.Inc Metrics.RequestsTotal [_; _; s]) => Some s
  | Logged l => Some (Metrics.Itoa (AccessLog.log_Status l))
  | _ => None
  end.

Definition statuses (es : list Event) : list string := omap reported es.

(** The time the metrics say a request took. *)
Definition observed (e : Event) : option Z :=
  match e with Count (Metrics.Observe Metrics.RequestDuration d _) => Some d | _ => None end.

(** ** Lemmas *)

(** Closes a case of the next lemma, given what the span is told at its end. *)
Ltac reports panic closing := split; [panic|]; split; [done|]; eexists _, closing; by simplify_list_eq.

(** What the three report of a request that is not one for the metrics. *)
Lemma Serve_reports {SC} `{Otel.TracingOk SC} StatusText joined t n b late (h : option SC → Handler) x :
  0 ≤ AccessLog.maxBodyLength b → AccessLog.reads_well x → UrlPath (req x) ≠ "/metrics" →
  let span := Otel.start_span (Otel.propagate_Extract (req_headers x) None) n in
  let x1 := set_trace (Otel.sc_TraceID span) x in
  let m := Method (req x) in
  let path := Metrics.path_label x in
  let '(q, y) := exec (h (Some span)) (if AccessLog.logRespBody b then set_capture (Some "") x1 else x1) in
  let '(p, x', es) := Serve StatusText joined (Some t) n b late h x in
  let start := [Span (Otel.Start (Otel.span_name x) true (Otel.server_attrs x)); Count (Metrics.Inc Metrics.InflightRequests [m])] in
  match q with
  | Some q => p = Some q ∧ x' = y ∧ es = start ++ [Count (Metrics.Dec Metrics.InflightRequests [m]); Span Otel.End]
  | None =>
      (p = None ∨ 500 ≤ status y ∧ errors y = []) ∧ x' = elapse late y ∧
      ∃ size closing, existsb (λ c, Otel.is_start c || Otel.is_end c) closing = false ∧ omap reported (Span <$> closing) = [] ∧
        es = start ++ (if AccessLog.keep b (status y) (clock y - clock x + late) then [Logged (AccessLog.record_of joined b x1 y)] else []) ++
          (Count <$> [Metrics.Inc Metrics.RequestsTotal [m; path; Metrics.Itoa (status y)];
            Metrics.Observe Metrics.RequestDuration (clock y + late - clock x) [m; path]; Metrics.Observe Metrics.RequestSize size [m; path];
            Metrics.Observe Metrics.ResponseSize (Exchange.size y) [m; path]; Metrics.Dec Metrics.InflightRequests [m]]) ++
          Span (Otel.SetAttribute (Otel.AInt "http.status_code" (status y))) :: (Span <$> closing) ++ [Span Otel.End]
  end.
Proof.
  intros Hmax Hrw Hpath span x1 m path. unfold Serve, Otel.around. pose proof (Otel.started_valid (Otel.propagate_Extract (req_headers x) None) n) as Hv.
  fold span in Hv |- *. rewrite Hv. fold x1.
  unfold Metrics.around. rewrite decide_False by done. rewrite AccessLog.around_runs by done.
  change (alone (h (Some span)) ?z) with (exec (h (Some span)) z, @nil Event).
  destruct (exec (h (Some span)) _) as [[q|] y]; [done|]. cbn [app status errors elapse clock].
  destruct (400 <=? status y) eqn:E4; [destruct (500 <=? status y) eqn:E5; [destruct (last (errors y)) as [e|] eqn:Ee|]|].
  - reports ltac:(by left) [Otel.SetStatus Otel.CodeError (StatusText (status y)); Otel.RecordError e].
  - apply last_None in Ee. destruct (Otel.is_recording span).
    + reports ltac:(right; split; [lia|done]) [Otel.SetStatus Otel.CodeError (StatusText (status y))].
    + reports ltac:(by left) [Otel.SetStatus Otel.CodeError (StatusText (status y))].
  - reports ltac:(by left) [Otel.SetStatus Otel.CodeError (StatusText (status y))].
  - reports ltac:(by left) [Otel.SetStatus Otel.CodeOk "OK"].
Qed.

(** What only the span is told is no count, no record and no status. *)
Lemma closing_only_span cs : counts (Span <$> cs) = [] ∧ logs (Span <$> cs) = [] ∧ omap observed (Span <$> cs) = [] ∧ spans (Span <$> cs) = cs.
Proof. induction cs as [|c cs (H1 & H2 & H3 & H4)]; [done|]. split_and!; [done..|]. cbn. f_equal. exact H4. Qed.

Lemma spans_app es es' : spans (es ++ es') = spans es ++ spans es'.
Proof. apply omap_app. Qed.
Lemma counts_app es es' : counts (es ++ es') = counts es ++ counts es'.
Proof. apply omap_app. Qed.
Lemma logs_app es es' : logs (es ++ es') = logs es ++ logs es'.
Proof. apply omap_app. Qed.
Lemma statuses_app es es' : statuses (es ++ es') = statuses es ++ statuses es'.
Proof. apply omap_app. Qed.

(** ** Theorems *)



(** The order matters: with the access log outside of tracing, the record has no trace id. *)
Example log_outside_tracing :
  let t := Otel.mkTracer Otel.DefaultConfig "gint-service" 0 in
  let x := exchange AccessLog.sample_request (<["Traceparent" := "abc"]> ∅) None 1000 in
  let next : Next Event := Otel.around (λ _, "status") Span (Some t) 1 (λ _ : option string, alone (Write "ok" Done)) in
  AccessLog.log_TraceID <$> logs (AccessLog.around Logged (String.concat "; ") AccessLog.NewBuilder 0 next x).2 = [""].
Proof. by vm_compute. Qed.

(** A request for the metrics is traced and logged, and not counted. *)
Example metrics_request_not_counted :
  let t := Otel.mkTracer Otel.DefaultConfig "gint-service" 0 in
  let x := exchange (Metrics.get "/metrics") ∅ None 1000 in
  let es := (Serve (λ _, "status") (String.concat "; ") (Some t) 1 AccessLog.NewBuilder 0 (λ _ : option string, Write "ok" Done) x).2 in
  counts es = [] ∧ length (logs es) = 1%nat ∧ Otel.is_start <$> head (spans es) = Some true.
Proof. by vm_compute. Qed.

End Stack.
