(* ===== verification/Swagger.v ===== *)
(** * API documents (src/swagger/swagger.go)

    The document, its builder, the schemas made of Go types by reflection and
    the registration of routes.  Types are data, named ones by number in an
    environment; [encoding/json]'s treatment of values is written out to say
    what a schema describes.  The HTML pages are texts without logic and left out. *)

From S2P Require Import Prelude Text.

Module Swagger.

Import Text.Text.

(** ** Schemas *)

(** The fields the package sets; properties are a map, kept as a list without
    repetition. *)
Inductive Schema := mkSchema
  (Type_ Format : string) (Properties : list (string * Schema)) (Items : option Schema) (Required : list string)
  (Minimum : option Z) (AdditionalProperties : option Schema) (Ref : string).

Definition typed (t : string) : Schema := mkSchema t "" [] None [] None None "".

Definition properties (s : Schema) : list (string * Schema) := let 'mkSchema _ _ ps _ _ _ _ _ := s in ps.

Definition required (s : Schema) : list string := let 'mkSchema _ _ _ _ r _ _ _ := s in r.

Definition set_format (f : string) (s : Schema) : Schema := let 'mkSchema t _ p i r m a e := s in mkSchema t f p i r m a e.

Definition add_required (n : string) (s : Schema) : Schema := let 'mkSchema t f p i r m a e := s in mkSchema t f p i (r ++ [n]) m a e.

Fixpoint assoc {A} (k : string) (l : list (string * A)) : option A :=
  match l with [] => None | (k', a) :: l => if decide (k = k') then Some a else assoc k l end.

Fixpoint assoc_set {A} (k : string) (a : A) (l : list (string * A)) : list (string * A) :=
  match l with [] => [(k, a)] | (k', a') :: l => if decide (k = k') then (k, a) :: l else (k', a') :: assoc_set k a l end.

Definition set_property (n : string) (p s : Schema) : Schema :=
  let 'mkSchema t f ps i r m a e := s in mkSchema t f (assoc_set n p ps) i r m a e.

(** ** Go types *)

Inductive Basic := BString | BInt | BUint | BFloat | BBool.

(** A basic type has its own name; other types have one only through [TNamed].
    [TOther] stands for the kinds the package does not look at. *)
Inductive Ty :=
| TBasic (k : Basic) (name : string)
| TSlice (t : Ty)
| TArray (t : Ty)
| TMap (elem : Ty)
| TPtr (t : Ty)
| TStruct (fields : list Field)
| TOther
| TNamed (id : nat)
with Field := mkField (fname : string) (ftype : Ty) (json binding : string) (exported embedded : bool).

Definition fname (f : Field) : string := let 'mkField n _ _ _ _ _ := f in n.
Definition ftype (f : Field) : Ty := let 'mkField _ t _ _ _ _ := f in t.
Definition json_tag (f : Field) : string := let 'mkField _ _ j _ _ _ := f in j.
Definition binding_tag (f : Field) : string := let 'mkField _ _ _ b _ _ := f in b.
Definition exported (f : Field) : bool := let 'mkField _ _ _ _ x _ := f in x.
Definition embedded (f : Field) : bool := let 'mkField _ _ _ _ _ x := f in x.

(** Name, whether the type marshals itself, and the type it stands for. *)
Definition Env := gmap nat (string * bool * Ty).

(** What [Kind] and the accessors look at. *)
Definition under (env : Env) (t : Ty) : Ty :=
  match t with TNamed id => from_option snd TOther (env !! id) | _ => t end.

Definition Name (env : Env) (t : Ty) : string :=
  match t with
  | TBasic _ n => n
  | TNamed id => from_option (λ d, d.1.1) "" (env !! id)
  | _ => ""
  end.

(** One level of pointer is seen through. *)
Definition deref (env : Env) (t : Ty) : Ty := match under env t with TPtr t' => t' | _ => t end.

(** ** Schemas of types *)

Definition apply_rule (fieldName : string) (ps : Schema * Schema) (rule : string) : Schema * Schema :=
  let rule := TrimSpace rule in
  if decide (rule = "required") then (add_required fieldName ps.1, ps.2)
  else if decide (rule = "email") then (ps.1, set_format "email" ps.2)
  else if decide (rule = "url") then (ps.1, set_format "uri" ps.2)
  else ps.

Definition applyBinding (parent schema : Schema) (fieldName binding : string) : Schema * Schema :=
  foldl (apply_rule fieldName) (parent, schema) (Split ","%char binding).

Definition field_name (f : Field) : string :=
  if decide (json_tag f = "") then fname f else default "" (head (Split ","%char (json_tag f))).

Fixpoint struct_schema (schema_of : Ty → option Schema) (fs : list Field) (schema : Schema) : option Schema :=
  match fs with
  | [] => Some schema
  | f :: fs =>
      if decide (json_tag f = "-") then struct_schema schema_of fs schema
      else
        propSchema ← schema_of (ftype f);
        let '(schema, propSchema) :=
          if decide (binding_tag f = "") then (schema, propSchema) else applyBinding schema propSchema (field_name f) (binding_tag f) in
        struct_schema schema_of fs (set_property (field_name f) propSchema schema)
  end.

(** [schemaFromType] without a name; [None] when the fuel runs out. *)
Fixpoint schema_of (fuel : nat) (env : Env) (t : Ty) : option Schema :=
  match fuel with
  | O => None
  | S fuel =>
      match under env (deref env t) with
      | TBasic BString _ => Some (typed "string")
      | TBasic BInt _ => Some (typed "integer")
      | TBasic BUint _ => Some (mkSchema "integer" "" [] None [] (Some 0) None "")
      | TBasic BFloat _ => Some (typed "number")
      | TBasic BBool _ => Some (typed "boolean")
      | TSlice e | TArray e => i ← schema_of fuel env e; Some (mkSchema "array" "" [] (Some i) [] None None "")
      | TMap e => a ← schema_of fuel env e; Some (mkSchema "object" "" [] None [] None (Some a) "")
      | TStruct fs => struct_schema (schema_of fuel env) fs (typed "object")
      | _ => Some (typed "object")
      end
  end.

(** ** The document and its builder *)

Record Contact := mkContact { contact_Name : string; contact_Email : string; contact_URL : string }.

Record License := mkLicense { license_Name : string; license_URL : string }.

Record Info := mkInfo {
  info_Title : string;
  info_Description : string;
  info_Version : string;
  info_TermsOfService : string;
  info_Contact : Contact;
  info_License : License
}.

Definition Config := Info.

Record Param := mkParameter {
  param_Name : string;
  param_In : string;
  param_Description : string;
  param_Required : bool;
  param_Schema : option Schema
}.

(** By media type. *)
Abbreviation Contents := (gmap string (option Schema)) (only parsing).

Record RequestBody := mkRequestBody { body_Required : bool; body_Content : Contents }.

Record Response := mkResponse { response_Description : string; response_Content : Contents }.

Record PathItem := mkPathItem {
  item_Summary : string;
  item_Parameters : list Param;
  item_Tags : list string;
  item_RequestBody : option RequestBody;
  item_Responses : gmap string Response
}.

Record SecurityScheme := mkSecurity {
  security_Type : string;
  security_Name : string;
  security_In : string;
  security_Scheme : string;
  security_BearerFormat : string
}.

(** [SecuritySchemes] is nil until the first scheme. *)
Record Document := mkDocument {
  OpenAPI : string;
  info : Info;
  Servers : list (string * string);
  Paths : gmap string (gmap string PathItem);
  Schemas : gmap string Schema;
  SecuritySchemes : option (gmap string SecurityScheme);
  Tags : list (string * string)
}.

(** The document and the schemas registered by the name of their type. *)
Record Builder := mkBuilder { doc : Document; schemas : gmap string Schema }.

Definition NewBuilder : Builder :=
  mkBuilder (mkDocument "3.0.3" (mkInfo "API" "" "1.0.0" "" (mkContact "" "" "") (mkLicense "" "")) [] ∅ ∅ None []) ∅.

Definition set_info (f : Info → Info) (b : Builder) : Builder :=
  let d := doc b in
  mkBuilder (mkDocument (OpenAPI d) (f (info d)) (Servers d) (Paths d) (Schemas d) (SecuritySchemes d) (Tags d)) (schemas b).

Definition Title (title : string) : Builder → Builder :=
  set_info (λ i, mkInfo title (info_Description i) (info_Version i) (info_TermsOfService i) (info_Contact i) (info_License i)).

Definition Description (desc : string) : Builder → Builder :=
  set_info (λ i, mkInfo (info_Title i) desc (info_Version i) (info_TermsOfService i) (info_Contact i) (info_License i)).

Definition Version (version : string) : Builder → Builder :=
  set_info (λ i, mkInfo (info_Title i) (info_Description i) version (info_TermsOfService i) (info_Contact i) (info_License i)).

Definition Server (url description : string) (b : Builder) : Builder :=
  let d := doc b in
  mkBuilder (mkDocument (OpenAPI d) (info d) (Servers d ++ [(url, description)]) (Paths d) (Schemas d) (SecuritySchemes d) (Tags d)) (schemas b).

Definition Tag (name description : string) (b : Builder) : Builder :=
  let d := doc b in
  mkBuilder (mkDocument (OpenAPI d) (info d) (Servers d) (Paths d) (Schemas d) (SecuritySchemes d) (Tags d ++ [(name, description)])) (schemas b).

Definition add_security (name : string) (s : SecurityScheme) (b : Builder) : Builder :=
  let d := doc b in
  mkBuilder (mkDocument (OpenAPI d) (info d) (Servers d) (Paths d) (Schemas d) (Some (<[name := s]> (default ∅ (SecuritySchemes d)))) (Tags d))
    (schemas b).

Definition BasicAuth (name : string) : Builder → Builder := add_security name (mkSecurity "http" "" "" "basic" "").

Definition BearerAuth (name : string) : Builder → Builder := add_security name (mkSecurity "http" "" "" "bearer" "JWT").

Definition ApiKeyAuth (name in_ keyName : string) : Builder → Builder := add_security name (mkSecurity "apiKey" keyName in_ "" "").

Definition set_path (path method : string) (item : PathItem) (d : Document) : Document :=
  mkDocument (OpenAPI d) (info d) (Servers d) (<[path := <[method := item]> (default ∅ (Paths d !! path))]> (Paths d)) (Schemas d)
    (SecuritySchemes d) (Tags d).

(** Methods are of ASCII letters. *)
Definition Path (method path : string) (item : PathItem) (b : Builder) : Builder := mkBuilder (set_path path (lower method) item (doc b)) (schemas b).

Definition GET := Path "GET".
Definition POST := Path "POST".
Definition PUT := Path "PUT".
Definition DELETE := Path "DELETE".
Definition PATCH := Path "PATCH".

(** [Schema]: [None] for the nil value, whose type panics, and for fuel that runs out. *)
Definition Schema_ (fuel : nat) (env : Env) (typ : option Ty) (name : string) (b : Builder) : option (Schema * Builder) :=
  t ← typ;
  let t := deref env t in
  if decide (name ≠ "" ∧ Name env t ≠ "") then
    match schemas b !! Name env t with
    | Some existing => Some (existing, b)
    | None =>
        let s := mkSchema "" "" [] None [] None None ("#/components/schemas/" +:+ Name env t)%string in
        let d := doc b in
        Some (s, mkBuilder (mkDocument (OpenAPI d) (info d) (Servers d) (Paths d) (<[Name env t := s]> (Schemas d)) (SecuritySchemes d) (Tags d))
                   (<[Name env t := s]> (schemas b)))
    end
  else s ← schema_of fuel env t; Some (s, b).

(** *** Pieces of a document *)

Definition OKResponse (description : string) (schema : option Schema) : Response := mkResponse description {["application/json" := schema]}.

(** The code is not looked at. *)
Definition ErrorResponse (code : Z) (description : string) : Response :=
  mkResponse description
    {["application/json" := Some (mkSchema "object" "" [("code", typed "integer"); ("msg", typed "string")] None [] None None "")]}.

Definition JSONBody (schema : option Schema) (required : bool) : RequestBody := mkRequestBody required {["application/json" := schema]}.

Definition or_string (schema : option Schema) : option Schema := match schema with Some s => Some s | None => Some (typed "string") end.

Definition QueryParam (name description : string) (required : bool) (schema : option Schema) : Param :=
  mkParameter name "query" description required (or_string schema).

Definition PathParam (name description : string) (schema : option Schema) : Param :=
  mkParameter name "path" description true (or_string schema).

Definition HeaderParam (name description : string) (required : bool) : Param :=
  mkParameter name "header" description required (Some (typed "string")).

(** ** Registration of routes *)

(** A route of the engine: method, path and the name of its handler. *)
Record Route := mkRoute { route_Method : string; route_Path : string; route_Handler : string }.

(** The matches of [:([^/]+)]: a colon and at least one character up to the next slash. *)
Fixpoint until_slash (s : string) : string * string :=
  match s with
  | EmptyString => ("", "")
  | String a r => if Ascii.eqb a "/" then ("", s) else let '(p, q) := until_slash r in (String a p, q)
  end.

Fixpoint find_params (fuel : nat) (s : string) : list string :=
  match fuel, s with
  | S fuel, String a s =>
      if Ascii.eqb a ":" then
        let '(p, rest) := until_slash s in
        if decide (p = "") then find_params fuel s else p :: find_params fuel rest
      else find_params fuel s
  | _, _ => []
  end.

Definition extractPathParams (path : string) : list string := find_params (String.length path) path.

Definition route_item (r : Route) : PathItem :=
  mkPathItem (route_Handler r) ((λ p, PathParam p (p +:+ " 参数")%string None) <$> extractPathParams (route_Path r)) ["default"] None
    {["200" := OKResponse "成功" None]}.

Definition skipped (r : Route) : bool := match cut_prefix "/swagger" (route_Path r) with Some _ => true | None => false end.

Definition register_route (b : Builder) (r : Route) : Builder :=
  if skipped r then b else mkBuilder (set_path (route_Path r) (lower (route_Method r)) (route_item r) (doc b)) (schemas b).

Definition AutoRegister (routes : list Route) (b : Builder) : Builder := foldl register_route b routes.

Definition Init (title version : string) : Builder := Version version (Title title NewBuilder).

Definition InitWithConfig (cfg : Config) : Builder :=
  let b := Version (info_Version cfg) (Description (info_Description cfg) (Title (info_Title cfg) NewBuilder)) in
  let b :=
    if decide (info_TermsOfService cfg = "") then b
    else set_info (λ i, mkInfo (info_Title i) (info_Description i) (info_Version i) (info_TermsOfService cfg) (info_Contact i) (info_License i)) b in
  let c := info_Contact cfg in
  let b :=
    if decide (contact_Name c ≠ "" ∨ contact_Email c ≠ "" ∨ contact_URL c ≠ "")
    then set_info (λ i, mkInfo (info_Title i) (info_Description i) (info_Version i) (info_TermsOfService i) c (info_License i)) b else b in
  let l := info_License cfg in
  if decide (license_Name l ≠ "" ∨ license_URL l ≠ "")
  then set_info (λ i, mkInfo (info_Title i) (info_Description i) (info_Version i) (info_TermsOfService i) (info_Contact i) l) b else b.

(** The default builder is made when first asked for. *)
Definition Default (defaultBuilder : option Builder) : Builder := default NewBuilder defaultBuilder.

(** What a registered handler serves: the document as it was then, but for its
    maps, which it shares with the builder - the one that was nil excepted. *)
Definition Handler (then_ now : Builder) : Document :=
  let d := doc then_ in
  mkDocument (OpenAPI d) (info d) (Servers d) (Paths (doc now)) (Schemas (doc now))
    (match SecuritySchemes d with Some _ => SecuritySchemes (doc now) | None => None end) (Tags d).

Inductive Endpoint := ServeDocument (b : Builder) | ServeUI (specURL : string) | RedirectTo (url : string).

Definition endpoints (b : Builder) : list (string * Endpoint) :=
  [("/swagger.json", ServeDocument b); ("/swagger/ui", ServeUI "/swagger.json"); ("/swagger/index.html", RedirectTo "/swagger/ui")].

Definition Register (defaultBuilder : option Builder) : Builder * list (string * Endpoint) :=
  let b := Default defaultBuilder in (b, endpoints b).

Definition Setup (routes : list Route) (title version : string) : Builder * list (string * Endpoint) :=
  let b := AutoRegister routes (Init title version) in (b, endpoints b).

(** ** [encoding/json] *)

Inductive Val :=
| VStr (s : string) | VInt (z : Z) | VReal (text : string) | VBool (b : bool) | VList (vs : list Val)
| VMap (kvs : list (string * Val)) | VStruct (vs : list Val) | VPtr (v : Val) | VNil.

Inductive JSON :=
| JNull | JStr (s : string) | JInt (z : Z) | JReal (text : string) | JBool (b : bool) | JArr (js : list JSON)
| JObj (kvs : list (string * JSON)).

Definition tag_options (f : Field) : list string := tail (Split ","%char (json_tag f)).

(** Names in a tag are of printable characters but quotes, comma and backslash;
    others are ignored.  Bytes from 128 on are left out. *)
Definition name_char (a : ascii) : bool :=
  let n := nat_of_ascii a in
  ((32 <=? n) && (n <? 127) && negb (bool_decide (n ∈ [34; 39; 44; 92; 96])))%nat.

Definition sent_name (f : Field) : string :=
  let n := default "" (head (Split ","%char (json_tag f))) in
  if decide (n ≠ "" ∧ forallb name_char (String.list_ascii_of_string n) = true) then n else fname f.

Definition empty_value (v : Val) : bool :=
  match v with
  | VStr s => bool_decide (s = "") | VInt z => z =? 0 | VReal s => bool_decide (s = "0") | VBool b => negb b
  | VList vs => bool_decide (length vs = 0%nat) | VMap kvs => bool_decide (length kvs = 0%nat) | VNil => true | _ => false
  end.

(** [None] for what is not described here: promoted fields and the option "string". *)
Fixpoint encode_fields (encode : Ty → Val → option JSON) (fs : list Field) (vs : list Val) : option (list (string * JSON)) :=
  match fs, vs with
  | [], [] => Some []
  | f :: fs, v :: vs =>
      rest ← encode_fields encode fs vs;
      if decide (json_tag f = "-") then Some rest
      else if embedded f || bool_decide ("string" ∈ tag_options f) then None
      else if negb (exported f) then Some rest
      else if bool_decide ("omitempty" ∈ tag_options f) && empty_value v then Some rest
      else j ← encode (ftype f) v; Some ((sent_name f, j) :: rest)
  | _, _ => None
  end.

(** [None] where the value is not of the type, and for types that marshal themselves. *)
Fixpoint encode (base64 : list Val → string) (fuel : nat) (env : Env) (t : Ty) (v : Val) : option JSON :=
  match fuel with
  | O => None
  | S fuel =>
      if match t with TNamed id => from_option (λ d, d.1.2) true (env !! id) | _ => false end then None
      else
      match under env t, v with
      | TBasic BString _, VStr s => Some (JStr s)
      | TBasic BInt _, VInt z => Some (JInt z)
      | TBasic BUint _, VInt z => if 0 <=? z then Some (JInt z) else None
      | TBasic BFloat _, VReal s => Some (JReal s)
      | TBasic BBool _, VBool b => Some (JBool b)
      | TPtr e, VPtr v => encode base64 fuel env e v
      | TSlice _, VNil | TMap _, VNil | TPtr _, VNil => Some JNull
      | TSlice e, VList vs =>
          match under env e with
          | TBasic BUint "uint8" => Some (JStr (base64 vs))
          | _ => JArr <$> mapM (encode base64 fuel env e) vs
          end
      | TArray e, VList vs => JArr <$> mapM (encode base64 fuel env e) vs
      | TMap e, VMap kvs => JObj <$> mapM (λ kv, pair kv.1 <$> encode base64 fuel env e kv.2) kvs
      | TStruct fs, VStruct vs => JObj <$> encode_fields (encode base64 fuel env) fs vs
      | _, _ => None
      end
  end.

(** ** What a schema says *)

Fixpoint has_null (j : JSON) : bool :=
  match j with
  | JNull => true
  | JArr js => existsb has_null js
  | JObj kvs => existsb (λ kv, has_null kv.2) kvs
  | _ => false
  end.

(** Formats are not asserted; a reference is not followed. *)
Fixpoint conforms (s : Schema) (j : JSON) : bool :=
  let 'mkSchema t _ ps items req minimum addl ref := s in
  if decide (ref ≠ "") then false
  else
    match j with
    | JNull => false
    | JStr _ => bool_decide (t = "string")
    | JInt z => bool_decide (t = "integer" ∨ t = "number") && from_option (λ m, m <=? z) true minimum
    | JReal _ => bool_decide (t = "number")
    | JBool _ => bool_decide (t = "boolean")
    | JArr js => bool_decide (t = "array") && from_option (λ i, forallb (conforms i) js) true items
    | JObj kvs =>
        bool_decide (t = "object") && forallb (λ k, existsb (λ kv, bool_decide (kv.1 = k)) kvs) req &&
        forallb (λ kv, match assoc kv.1 ps with
                       | Some p => conforms p kv.2
                       | None => match addl with Some a => conforms a kv.2 | None => true end
                       end) kvs
    end.

(** Types the package describes rightly: no bytes, no pointer to a pointer, and structs
    whose fields are exported, with the name in the document that is sent, each its own;
    a required field is never left out. *)
Definition is_required (f : Field) : bool := existsb (λ r, bool_decide (TrimSpace r = "required")) (Split ","%char (binding_tag f)).

Definition field_ok (f : Field) : bool :=
  exported f && negb (embedded f) && bool_decide (field_name f = sent_name f) &&
  negb (is_required f && bool_decide ("omitempty" ∈ tag_options f)).

Definition kept (fs : list Field) : list Field := filter (λ f, json_tag f ≠ "-") fs.

Fixpoint described (fuel : nat) (env : Env) (t : Ty) : bool :=
  match fuel with
  | O => false
  | S fuel =>
      match under env (deref env t) with
      | TSlice e => match under env e with TBasic BUint "uint8" => false | _ => described fuel env e end
      | TArray e | TMap e => described fuel env e
      | TPtr _ => false
      | TStruct fs =>
          bool_decide (NoDup (field_name <$> kept fs)) && forallb field_ok (kept fs) && forallb (λ f, described fuel env (ftype f)) (kept fs)
      | _ => true
      end
  end.

Definition obj (ps : list (string * Schema)) (req : list string) : Schema := mkSchema "object" "" ps None req None None "".

Definition more_required (l : list string) (s : Schema) : Schema := let 'mkSchema t f p i r m a e := s in mkSchema t f p i (r ++ l) m a e.

Inductive Segment := Static (s : string) | Named (n : string).

Definition segment_ok (g : Segment) : bool :=
  match g with Static s => negb (contains ":" s) | Named n => negb (contains "/" n) && bool_decide (n ≠ "") end.

Definition segment_text (g : Segment) : string := match g with Static s => ("/" +:+ s)%string | Named n => ("/:" +:+ n)%string end.

Definition path_of (gs : list Segment) : string := concat (segment_text <$> gs).

Definition named (gs : list Segment) : list string := omap (λ g, match g with Named n => Some n | Static _ => None end) gs.

Definition route_key (r : Route) : string * string := (route_Path r, lower (route_Method r)).

Definition order_env : Env :=
  {[1%nat := ("Item", false, TStruct [mkField "SKU" (TBasic BString "string") "sku" "required" true false;
                                      mkField "Count" (TBasic BUint "uint32") "count,omitempty" "" true false]);
    2%nat := ("Order", false, TStruct [mkField "ID" (TBasic BInt "int64") "id" "required, min=1" true false;
                                       mkField "Items" (TSlice (TPtr (TNamed 1))) "items" "" true false;
                                       mkField "Notes" (TMap (TBasic BString "string")) "notes,omitempty" "" true false;
                                       mkField "Secret" TOther "-" "" true false])]}.

Definition order_value : Val :=
  VStruct [VInt 7; VList [VPtr (VStruct [VStr "a"; VInt 2]); VPtr (VStruct [VStr "b"; VInt 0])]; VMap [("to", VStr "x")]; VNil].

(** ** Lemmas *)

Lemma conforms_format f s j : conforms (set_format f s) j = conforms s j.
Proof. by destruct s, j. Qed.

Lemma more_required_nil s : more_required [] s = s.
Proof. destruct s. simpl. by rewrite app_nil_r. Qed.

Lemma apply_rules_spec n rules : ∀ p s, ∃ l,
  (foldl (apply_rule n) (p, s) rules).1 = more_required l p ∧ Forall (λ k, k = n) l ∧
  (l ≠ [] → existsb (λ r, bool_decide (TrimSpace r = "required")) rules = true) ∧
  ∀ j, conforms (foldl (apply_rule n) (p, s) rules).2 j = conforms s j.
Proof.
  induction rules as [|r rules IH]; intros p s; [exists []; rewrite more_required_nil; by split_and!|].
  cbn [foldl existsb]. unfold apply_rule at 2 4. cbn [fst snd]. case_decide as Hr.
  - destruct (IH (add_required n p) s) as (l & E & Hl & Hreq & Hc). exists (n :: l). split_and!.
    + rewrite E. destruct p. simpl. by rewrite <- app_assoc.
    + by constructor.
    + intros _. by rewrite bool_decide_true.
    + done.
  - assert (∀ s', (∀ j, conforms s' j = conforms s j) → ∃ l,
      (foldl (apply_rule n) (p, s') rules).1 = more_required l p ∧ Forall (λ k, k = n) l ∧
      (l ≠ [] → bool_decide (TrimSpace r = "required") || existsb (λ r, bool_decide (TrimSpace r = "required")) rules = true) ∧
      ∀ j, conforms (foldl (apply_rule n) (p, s') rules).2 j = conforms s j) as Hgo.
    { intros s' Hs'. destruct (IH p s') as (l & E & Hl & Hreq & Hc). exists l. split_and!; try done.
      - intros Hne. by rewrite Hreq, orb_true_r.
      - intros j. by rewrite Hc. }
    repeat case_decide; apply Hgo; intros j; rewrite ?conforms_format; done.
Qed.

Lemma assoc_set_fresh {A} k (a : A) l : k ∉ l.*1 → assoc_set k a l = l ++ [(k, a)].
Proof.
  induction l as [|[k' a'] l IH]; intros Hk; [done|]. cbn [fmap list_fmap fst] in Hk. apply not_elem_of_cons in Hk as [Hne Hk].
  cbn [assoc_set]. rewrite decide_False by done. by rewrite IH.
Qed.

Lemma assoc_elem {A} k (a : A) l : NoDup l.*1 → (k, a) ∈ l → assoc k l = Some a.
Proof.
  induction l as [|[k' a'] l IH]; intros Hnd Hin; [by apply elem_of_nil in Hin|]. cbn [fmap list_fmap fst] in Hnd.
  apply NoDup_cons in Hnd as [Hk' Hnd]. cbn [assoc]. apply elem_of_cons in Hin as [[= -> ->]|Hin]; [by rewrite decide_True|].
  rewrite decide_False; [by apply IH|]. intros ->. apply Hk', list_elem_of_fmap. by exists (k', a).
Qed.

(** The schema of a struct has one property for each of its fields. *)
Lemma struct_schema_spec sc fs : ∀ ps req s,
  NoDup (ps.*1 ++ (field_name <$> kept fs)) → struct_schema sc fs (obj ps req) = Some s →
  ∃ ps' req', s = obj (ps ++ ps') (req ++ req') ∧
    Forall2 (λ f kp, kp.1 = field_name f ∧ ∃ p, sc (ftype f) = Some p ∧ ∀ j, conforms kp.2 j = conforms p j) (kept fs) ps' ∧
    ∀ k, k ∈ req' → ∃ f, f ∈ kept fs ∧ k = field_name f ∧ is_required f = true.
Proof.
  induction fs as [|f fs IH]; intros ps req s Hnd E; cbn [struct_schema] in E.
  { injection E as <-. exists [], []. rewrite !app_nil_r. split_and!; [done|constructor|]. intros k Hk. by apply elem_of_nil in Hk. }
  unfold kept in *. rewrite filter_cons in *. destruct (decide (json_tag f = "-")) as [Hj|Hj].
  { rewrite decide_False in Hnd by naive_solver. rewrite decide_False by naive_solver. by apply (IH ps req). }
  rewrite decide_True in Hnd by done. rewrite decide_True by done. destruct (sc (ftype f)) as [p|] eqn:Ep; [|done]. cbn [mbind option_bind] in E.
  assert (∃ l p', (if decide (binding_tag f = "") then (obj ps req, p) else applyBinding (obj ps req) p (field_name f) (binding_tag f)) =
      (obj ps (req ++ l), p') ∧ (∀ k, k ∈ l → k = field_name f ∧ is_required f = true) ∧ ∀ j, conforms p' j = conforms p j) as (l & p' & Eb & Hl & Hp').
  { case_decide; [exists [], p; rewrite app_nil_r; split_and!; try done; intros k Hk; by apply elem_of_nil in Hk|].
    unfold applyBinding. destruct (apply_rules_spec (field_name f) (Split ","%char (binding_tag f)) (obj ps req) p) as (l & E1 & Hl & Hreq & Hc).
    destruct (foldl _ _ _) as [p1 p2]. cbn [fst snd] in *. exists l, p2. subst p1. split_and!; try done.
    intros k Hk. rewrite Forall_forall in Hl. split; [by apply Hl|]. apply Hreq. intros ->. by apply elem_of_nil in Hk. }
  rewrite Eb in E. cbn [set_property obj] in E.
  assert (field_name f ∉ ps.*1 ∧ NoDup ((ps ++ [(field_name f, p')]).*1 ++ (field_name <$> filter (λ f, json_tag f ≠ "-") fs))) as [Hfresh Hnd'].
  { rewrite fmap_cons in Hnd. rewrite fmap_app, <- app_assoc. cbn [fmap list_fmap fst app] in *. split; [|done].
    apply NoDup_app in Hnd as (_ & Hd & _). intros Hin. apply (Hd _ Hin). left. }
  rewrite assoc_set_fresh in E by done. destruct (IH _ _ _ Hnd' E) as (ps' & req' & -> & Hall & Hreq).
  exists ((field_name f, p') :: ps'), (l ++ req'). rewrite <- !app_assoc. split_and!; [done|constructor; [split; [done|by exists p]|done]|].
  intros k [Hk|Hk]%elem_of_app.
  - destruct (Hl k Hk) as [-> ?]. exists f. split; [left|done].
  - destruct (Hreq k Hk) as (f' & ? & ? & ?). exists f'. split; [by right|done].
Qed.

(** What is sent of a struct is one member for each field, but for those left out when empty. *)
Lemma encode_fields_spec enc fs : ∀ vs kvs, encode_fields enc fs vs = Some kvs → forallb field_ok (kept fs) = true →
  (∀ kv, kv ∈ kvs → ∃ f v, f ∈ kept fs ∧ kv.1 = field_name f ∧ enc (ftype f) v = Some kv.2) ∧
  (∀ f, f ∈ kept fs → is_required f = true → ∃ kv, kv ∈ kvs ∧ kv.1 = field_name f).
Proof.
  induction fs as [|f fs IH]; intros vs kvs E Hok; destruct vs as [|v vs]; cbn [encode_fields] in E; try done.
  { injection E as <-. split; [intros kv Hk; by apply elem_of_nil in Hk|]. intros f Hf. by apply elem_of_nil in Hf. }
  destruct (encode_fields enc fs vs) as [rest|] eqn:Er; [|done]. cbn [mbind option_bind] in E.
  unfold kept in *. rewrite filter_cons in *. destruct (decide (json_tag f = "-")) as [Hj|Hj].
  { rewrite decide_False in Hok by naive_solver. rewrite decide_False by naive_solver. injection E as <-. by apply (IH vs). }
  rewrite decide_True in Hok by done. rewrite decide_True by done. cbn [forallb] in Hok. apply andb_true_iff in Hok as [Hf Hok].
  destruct (IH vs rest Er Hok) as [H1 H2]. unfold field_ok in Hf. rewrite !andb_true_iff in Hf. destruct Hf as (((Hx & He) & Hn) & Hr).
  apply bool_decide_eq_true in Hn. rewrite Hx in E. apply negb_true_iff in He. rewrite He in E. cbn [orb negb] in E.
  destruct (bool_decide ("string" ∈ tag_options f)); [done|].
  assert (∀ kvs' : list (string * JSON), (∀ kv, kv ∈ rest → kv ∈ kvs') → ∀ g, g ∈ filter (λ f, json_tag f ≠ "-") fs → is_required g = true → ∃ kv, kv ∈ kvs' ∧ kv.1 = field_name g) as Hrest.
  { intros kvs' Hsub g Hg Hgr. destruct (H2 g Hg Hgr) as (kv & ? & ?). exists kv. auto. }
  destruct (bool_decide ("omitempty" ∈ tag_options f) && empty_value v) eqn:Eo.
  - injection E as <-. split.
    + intros kv Hkv. destruct (H1 kv Hkv) as (g & w & ? & ? & ?). exists g, w. split; [by right|done].
    + intros g Hg Hgr. apply elem_of_cons in Hg as [->|Hg]; [|by apply (Hrest rest)].
      apply andb_true_iff in Eo as [Eo _]. by rewrite Hgr, Eo in Hr.
  - destruct (enc (ftype f) v) as [j|] eqn:Ej; [|done]. cbn [mbind option_bind] in E. injection E as <-. split.
    + intros kv [->|Hkv]%elem_of_cons; [exists f, v; cbn; split; [left|by rewrite Hn]|].
      destruct (H1 kv Hkv) as (g & w & ? & ? & ?). exists g, w. split; [by right|done].
    + intros g Hg Hgr. apply elem_of_cons in Hg as [->|Hg]; [eexists; split; [left|by rewrite Hn]|].
      apply (Hrest _); [|done..]. intros kv ?. by right.
Qed.

Lemma mapM_forallb {A B} (f : A → option B) (p : B → bool) xs ys :
  mapM f xs = Some ys → (∀ x y, f x = Some y → y ∈ ys → p y = true) → forallb p ys = true.
Proof.
  intros E H. apply mapM_Some in E. apply forallb_forall. intros y Hy%list_elem_of_In.
  apply list_elem_of_lookup in Hy as [i Hi]. destruct (Forall2_lookup_r _ _ _ _ _ E Hi) as (x & _ & Hx).
  apply (H x y Hx). by eapply list_elem_of_lookup_2.
Qed.

Lemma existsb_false_elem {A} (p : A → bool) l x : existsb p l = false → x ∈ l → p x = false.
Proof.
  intros H Hx. destruct (p x) eqn:E; [|done]. rewrite <- H. symmetry. apply existsb_exists. exists x. by rewrite <- list_elem_of_In.
Qed.

(** Pointers are seen through alike: the value a type of the schema stands for. *)
Lemma encode_deref base64 fuel env t v j :
  encode base64 fuel env t v = Some j → has_null j = false → (∀ e, under env (deref env t) ≠ TPtr e) →
  ∃ fuel' v', encode base64 (S fuel') env (deref env t) v' = Some j ∧ (fuel' < fuel)%nat.
Proof.
  intros E Hn Hd. destruct fuel as [|fuel]; [done|]. unfold deref in *. destruct (under env t) as [k n|e|e|e|e|fs| |id] eqn:Eu; try by exists fuel, v; split; [done|lia].
  cbn [encode] in E. rewrite Eu in E. destruct (match t with TNamed _ => _ | _ => _ end); [done|].
  destruct v as [s|z|s|b|vs|kvs|vs|v|]; try done; [|by injection E as <-].
  destruct fuel as [|fuel]; [done|]. exists fuel, v. split; [done|lia].
Qed.

Lemma schema_conforms base64 env n : ∀ t s fuel v j,
  schema_of n env t = Some s → described n env t = true → encode base64 fuel env t v = Some j → has_null j = false →
  conforms s j = true.
Proof.
  induction n as [|n IH]; intros t s fuel v j Es Hd Ej Hn; [done|].
  assert (∀ e, under env (deref env t) ≠ TPtr e) as Hp by (intros e E; cbn [described] in Hd; by rewrite E in Hd).
  destruct (encode_deref base64 fuel env t v j Ej Hn Hp) as (fuel' & v' & Ej' & _). clear Ej fuel v. rename fuel' into fuel, v' into v.
  cbn [schema_of described encode] in *. destruct (match deref env t with TNamed _ => _ | _ => _ end); [done|].
  assert (∀ e vs js, mapM (encode base64 fuel env e) vs = Some js → has_null (JArr js) = false → described n env e = true →
    ∀ i, schema_of n env e = Some i → forallb (conforms i) js = true) as Harr.
  { intros e vs js Em Hnull Hde i Ei. apply (mapM_forallb _ _ _ _ Em). intros x y Hx Hy. apply (IH e i fuel x y); try done.
    by apply (existsb_false_elem has_null js). }
  destruct (under env (deref env t)) as [[] nm|e|e|e|e|fs| |id] eqn:Eu; try (by destruct v; simplify_eq/=).
  - destruct v as [|z| | | | | | |]; try done. destruct (0 <=? z) eqn:Ez; [|done]. simplify_eq/=. by rewrite ?Ez.
  - destruct (schema_of n env e) as [i|] eqn:Ei; [|done]. destruct v as [| | | |vs| | | |]; simplify_eq/=; try done.
    assert (described n env e = true ∧ JArr <$> mapM (encode base64 fuel env e) vs = Some j) as [Hde Ej2].
    { destruct (under env e) as [[] nm|?|?|?|?|?| |?]; try done.
      destruct (decide (nm = "uint8")) as [->|Hne]; [done|]. repeat (destruct nm as [|[[] [] [] [] [] [] [] []] nm]; try done). }
    destruct (mapM _ vs) as [js|] eqn:Em; [|done]. simplify_eq/=. by apply (Harr e vs js).
  - destruct (schema_of n env e) as [i|] eqn:Ei; [|done]. destruct v as [| | | |vs| | | |]; simplify_eq/=; try done.
    destruct (mapM _ vs) as [js|] eqn:Em; [|done]. simplify_eq/=. by apply (Harr e vs js).
  - destruct (schema_of n env e) as [a|] eqn:Ea; [|done]. destruct v as [| | | | |kvs| | |]; simplify_eq/=; try done.
    destruct (mapM _ kvs) as [js|] eqn:Em; [|done]. simplify_eq/=. apply (mapM_forallb _ _ _ _ Em). intros [k x] [k' y] Hx Hy. cbn [fst snd] in *.
    destruct (encode base64 fuel env e x) as [y'|] eqn:Ey; [|done]. simplify_eq/=. apply (IH e a fuel x y); try done.
    by apply (existsb_false_elem (λ kv, has_null kv.2) js (k', y)).
  - apply andb_true_iff in Hd as [[Hnd Hok]%andb_true_iff Hdf]. apply bool_decide_eq_true in Hnd.
    destruct v as [| | | | | |vs| |]; try done. destruct (encode_fields _ fs vs) as [kvs|] eqn:Ef; [|done]. simplify_eq/=.
    destruct (struct_schema_spec _ fs [] [] s Hnd Es) as (ps & req & -> & Hps & Hreq). cbn [app].
    destruct (encode_fields_spec _ fs vs kvs Ef Hok) as [Hsent Hall]. cbn [conforms obj]. rewrite decide_False by naive_solver. cbn.
    apply andb_true_iff. split.
    + apply forallb_forall. intros k Hk%list_elem_of_In. destruct (Hreq k Hk) as (f & Hf & -> & Hr). destruct (Hall f Hf Hr) as (kv & Hkv & Ekv).
      apply existsb_exists. exists kv. rewrite <- list_elem_of_In. split; [done|]. by apply bool_decide_eq_true.
    + apply forallb_forall. intros [k y] Hk%list_elem_of_In. destruct (Hsent (k, y) Hk) as (f & x & Hf & Ek & Ex). cbn [fst snd] in *. subst k.
      apply list_elem_of_lookup in Hf as [i Hi]. destruct (Forall2_lookup_l _ _ _ _ _ Hps Hi) as ([k p'] & Hp' & Ek' & p & Ep & Hc). cbn [fst snd] in *. subst k.
      assert (ps.*1 = field_name <$> kept fs) as Hnames.
      { clear -Hps. induction Hps as [|f kp fs' ps' [E _] _ IH']; [done|]. cbn [fmap list_fmap]. by f_equal. }
      rewrite (assoc_elem (field_name f) p' ps) by (by rewrite Hnames || by eapply list_elem_of_lookup_2).
      rewrite Hc. apply (IH (ftype f) p fuel x y); try done.
      * rewrite forallb_forall in Hdf. apply Hdf. rewrite <- list_elem_of_In. by eapply list_elem_of_lookup_2.
      * by apply (existsb_false_elem (λ kv, has_null kv.2) kvs (field_name f, y)).
Qed.

(** *** Fuel *)

Lemma struct_schema_mono (sc sc' : Ty → option Schema) fs : (∀ t s, sc t = Some s → sc' t = Some s) →
  ∀ p s, struct_schema sc fs p = Some s → struct_schema sc' fs p = Some s.
Proof.
  intros H. induction fs as [|f fs IH]; intros p s E; [done|]. cbn [struct_schema] in *. case_decide; [by apply IH|].
  destruct (sc (ftype f)) as [q|] eqn:Eq; [|done]. rewrite (H _ _ Eq). cbn [mbind option_bind] in *.
  destruct (if decide _ then _ else _) as [p' q']. by apply IH.
Qed.

Lemma struct_schema_total (sc : Ty → option Schema) fs : (∀ f, f ∈ kept fs → is_Some (sc (ftype f))) →
  ∀ p, is_Some (struct_schema sc fs p).
Proof.
  unfold kept. induction fs as [|f fs IH]; intros H p; [done|]. cbn [struct_schema]. rewrite filter_cons in H. destruct (decide (json_tag f = "-")) as [Hj|Hj].
  - rewrite decide_False in H by naive_solver. by apply IH.
  - rewrite decide_True in H by done. destruct (H f) as [q ->]; [left|]. cbn [mbind option_bind].
    destruct (if decide _ then _ else _) as [p' q']. apply IH. intros g Hg. apply H. by right.
Qed.

Lemma schema_of_more n : ∀ env t s, schema_of n env t = Some s → schema_of (S n) env t = Some s.
Proof.
  induction n as [|n IH]; intros env t s E; [done|]. cbn [schema_of] in E. change (schema_of (S (S n)) env t) with
    (match under env (deref env t) with
      | TBasic BString _ => Some (typed "string") | TBasic BInt _ => Some (typed "integer")
      | TBasic BUint _ => Some (mkSchema "integer" "" [] None [] (Some 0) None "") | TBasic BFloat _ => Some (typed "number")
      | TBasic BBool _ => Some (typed "boolean")
      | TSlice e | TArray e => i ← schema_of (S n) env e; Some (mkSchema "array" "" [] (Some i) [] None None "")
      | TMap e => a ← schema_of (S n) env e; Some (mkSchema "object" "" [] None [] None (Some a) "")
      | TStruct fs => struct_schema (schema_of (S n) env) fs (typed "object")
      | _ => Some (typed "object") end).
  destruct (under env (deref env t)) as [[] nm|e|e|e|e|fs| |id]; try done.
  1-3: destruct (schema_of n env e) as [i|] eqn:Ei; [|done]; by rewrite (IH _ _ _ Ei).
  by apply (struct_schema_mono (schema_of n env)); [apply IH|].
Qed.

Lemma schema_of_enough n m env t s : (n ≤ m)%nat → schema_of n env t = Some s → schema_of m env t = Some s.
Proof. induction 1; [done|]. intros E. apply schema_of_more. auto. Qed.

Lemma described_total n : ∀ env t, described n env t = true → is_Some (schema_of n env t).
Proof.
  induction n as [|n IH]; intros env t Hd; [done|]. cbn [described schema_of] in *.
  destruct (under env (deref env t)) as [[] nm|e|e|e|e|fs| |id]; try done.
  - assert (described n env e = true) as Hde by (destruct (under env e) as [[] nm|?|?|?|?|?| |?]; try done;
      repeat (destruct nm as [|[[] [] [] [] [] [] [] []] nm]; try done)).
    destruct (IH env e Hde) as [i ->]. done.
  - destruct (IH env e Hd) as [i ->]. done.
  - destruct (IH env e Hd) as [i ->]. done.
  - apply andb_true_iff in Hd as [_ Hd]. apply struct_schema_total. intros f Hf. apply IH. rewrite forallb_forall in Hd.
    apply Hd. by rewrite <- list_elem_of_In.
Qed.

(** *** Paths *)

Lemma find_params_skip fuel s r : contains ":" s = false → find_params (String.length s + fuel) (s +:+ r)%string = find_params fuel r.
Proof.
  induction s as [|a s IH]; [done|]. intros Hc. cbn [contains] in Hc. apply orb_false_iff in Hc as [Ha Hc].
  change (String a s +:+ r)%string with (String a (s +:+ r)%string). cbn [String.length plus find_params]. rewrite Ha. by apply IH.
Qed.

Lemma until_slash_spec p r : contains "/" p = false → (r = "" ∨ ∃ s, r = String "/" s) → until_slash (p +:+ r)%string = (p, r).
Proof.
  intros Hp Hr. induction p as [|a p IH].
  - destruct Hr as [-> |[s ->]]; done.
  - cbn [contains] in Hp. apply orb_false_iff in Hp as [Ha Hp].
    change (String a p +:+ r)%string with (String a (p +:+ r)%string). cbn [until_slash]. by rewrite Ha, IH.
Qed.

Lemma find_params_enough n : ∀ m s, (String.length s ≤ n)%nat → (String.length s ≤ m)%nat → find_params n s = find_params m s.
Proof.
  induction n as [|n IH]; intros m s Hn Hm.
  { destruct s; [|simpl in Hn; lia]. by destruct m. }
  destruct s as [|a s]; [by destruct m|]. destruct m as [|m]; [simpl in Hm; lia|]. cbn [String.length] in *. cbn [find_params].
  assert (String.length (until_slash s).2 ≤ String.length s)%nat as Hu.
  { clear. induction s as [|a s IH]; [done|]. cbn [until_slash]. destruct (Ascii.eqb a "/"); [done|]. destruct (until_slash s). simpl in *. lia. }
  destruct (Ascii.eqb a ":"); [|apply IH; lia]. destruct (until_slash s) as [p rest]. cbn [snd] in Hu.
  case_decide; [apply IH; lia|]. f_equal. apply IH; lia.
Qed.

Lemma path_starts gs : path_of gs = "" ∨ ∃ s, path_of gs = String "/" s.
Proof. destruct gs as [|[s|n] gs]; [by left|right..]; unfold path_of; cbn [fmap list_fmap segment_text concat foldr]; by eexists. Qed.

(** The parameters of a path are its named segments. *)
Lemma extractPathParams_path gs : forallb segment_ok gs = true → extractPathParams (path_of gs) = named gs.
Proof.
  unfold extractPathParams. induction gs as [|g gs IH]; [done|]. cbn [forallb]. intros [Hg Hgs]%andb_true_iff. specialize (IH Hgs).
  change (path_of (g :: gs)) with (segment_text g +:+ path_of gs)%string. destruct g as [s|n]; cbn [segment_ok segment_text named omap list_omap] in *.
  - apply negb_true_iff in Hg. rewrite str_app_assoc. change ("/" +:+ s +:+ path_of gs)%string with (String "/" (s +:+ path_of gs)%string).
    cbn [String.length]. cbn [find_params]. change (Ascii.eqb "/" ":") with false. cbn iota. rewrite str_length_app.
    rewrite find_params_skip by done. exact IH.
  - apply andb_true_iff in Hg as [Hn Hne]. apply negb_true_iff in Hn. apply bool_decide_eq_true in Hne.
    rewrite str_app_assoc. change ("/:" +:+ n +:+ path_of gs)%string with (String "/" (String ":" (n +:+ path_of gs)%string)).
    cbn [String.length find_params]. change (Ascii.eqb "/" ":") with false. change (Ascii.eqb ":" ":") with true. cbn iota.
    rewrite (until_slash_spec n (path_of gs) Hn (path_starts gs)). rewrite decide_False by done. f_equal.
    rewrite (find_params_enough _ (String.length (path_of gs))) by (rewrite ?str_length_app; lia). exact IH.
Qed.

(** *** Registration *)

Lemma register_route_paths b r path m :
  (doc (register_route b r)).(Paths) !! path ≫= (.!! m) =
  if skipped r then (doc b).(Paths) !! path ≫= (.!! m)
  else if decide (route_Path r = path ∧ lower (route_Method r) = m) then Some (route_item r) else (doc b).(Paths) !! path ≫= (.!! m).
Proof.
  unfold register_route. destruct (skipped r); [done|]. cbn. destruct (decide (route_Path r = path)) as [<-|Hp].
  - rewrite lookup_insert_eq. cbn. destruct (decide (lower (route_Method r) = m)) as [<-|Hm].
    + by rewrite lookup_insert_eq, decide_True.
    + rewrite lookup_insert_ne, decide_False by naive_solver. by destruct (Paths (doc b) !! route_Path r).
  - rewrite lookup_insert_ne by done. by rewrite decide_False by naive_solver.
Qed.

Lemma AutoRegister_kept rs : ∀ b path m x, (path, m) ∉ (route_key <$> rs) →
  (doc b).(Paths) !! path ≫= (.!! m) = x → (doc (AutoRegister rs b)).(Paths) !! path ≫= (.!! m) = x.
Proof.
  unfold AutoRegister. induction rs as [|r rs IH]; intros b path m x Hn E; [done|]. cbn [foldl fmap list_fmap] in *.
  apply not_elem_of_cons in Hn as [Hr Hn]. apply IH; [done|]. rewrite register_route_paths. destruct (skipped r); [done|].
  rewrite decide_False; [done|]. unfold route_key in Hr. intros [<- <-]. done.
Qed.

Lemma AutoRegister_route rs : ∀ b r, NoDup (route_key <$> rs) → r ∈ rs → skipped r = false →
  (doc (AutoRegister rs b)).(Paths) !! route_Path r ≫= (.!! lower (route_Method r)) = Some (route_item r).
Proof.
  unfold AutoRegister. induction rs as [|r' rs IH]; intros b r Hnd Hr Hs; [by apply elem_of_nil in Hr|]. cbn [foldl fmap list_fmap] in *.
  apply NoDup_cons in Hnd as [Hr' Hnd]. apply elem_of_cons in Hr as [->|Hr]; [|by apply IH].
  apply AutoRegister_kept; [done|]. rewrite register_route_paths, Hs. by rewrite decide_True.
Qed.

(** ** Theorems *)



(** Every route of the engine that is not one of the package's own is in the document, under its
    path and method, with a required parameter for each named segment of its path, in their order. *)
Theorem routes_documented (routes : list Route) (title version : string) (m h : string) (gs : list Segment) :
  NoDup (route_key <$> routes) → mkRoute m (path_of gs) h ∈ routes → forallb segment_ok gs = true →
  cut_prefix "/swagger" (path_of gs) = None →
  ∃ item, (doc (Setup routes title version).1).(Paths) !! path_of gs ≫= (.!! lower m) = Some item ∧
    item_Summary item = h ∧
    ((λ p, (param_Name p, param_In p, param_Required p)) <$> item_Parameters item) = (λ n, (n, "path", true)) <$> named gs.
Proof.
  intros Hnd Hr Hok Hs. eexists. split.
  - unfold Setup. cbn [fst]. apply (AutoRegister_route routes (Init title version) (mkRoute m (path_of gs) h) Hnd Hr).
    unfold skipped. cbn [route_Path]. by rewrite Hs.
  - split; [done|]. cbn [route_item item_Parameters route_Path]. rewrite (extractPathParams_path gs Hok).
    rewrite <- list_fmap_compose. by apply list_fmap_ext.
Qed.

Lemma routes_documented_witness :
  let gs := [Static "users"; Named "id"; Static "orders"; Named "order"] in
  let r := mkRoute "GET" "/users/:id/orders/:order" "main.GetOrder" in
  ∃ item, (doc (Setup [mkRoute "GET" "/swagger.json" "h"; r] "API" "1").1).(Paths) !! route_Path r ≫= (.!! "get") = Some item ∧
    (param_Name <$> item_Parameters item) = ["id"; "order"].
Proof.
  intros gs r. destruct (routes_documented [mkRoute "GET" "/swagger.json" "h"; r] "API" "1" "GET" "main.GetOrder" gs) as (item & H1 & _ & H2).
  - apply (bool_decide_unpack _). by vm_compute.
  - right. left.
  - by vm_compute.
  - by vm_compute.
  - exists item. split; [exact H1|]. pose proof (f_equal (fmap (λ x : string * string * bool, x.1.1)) H2) as H.
    rewrite <- !list_fmap_compose in H. exact H.
Defined.

(** ** What the documents leave out or get wrong *)

(** A schema asked for by name is a reference to itself: the components hold no model. *)
Example named_schema_is_empty :
  let '(s, b) := default (typed "none", NewBuilder) (Schema_ 5 order_env (Some (TNamed 2)) "Order" NewBuilder) in
  s = mkSchema "" "" [] None [] None None "#/components/schemas/Order" ∧ Schemas (doc b) !! "Order" = Some s.
Proof. by vm_compute. Qed.

(** Types of one name share one component, whatever package they are from. *)
Lemma one_name_one_schema fuel env i j nm ti tj b :
  env !! i = Some (nm, false, TStruct ti) → env !! j = Some (nm, false, TStruct tj) → nm ≠ "" →
  (Schema_ fuel env (Some (TNamed i)) "x" b ≫= λ sb, fst <$> Schema_ fuel env (Some (TNamed j)) "y" sb.2) =
  fst <$> Schema_ fuel env (Some (TNamed i)) "x" b.
Proof.
  intros Hi Hj Hnm.
  assert (∀ k ty, env !! k = Some (nm, false, TStruct ty) → deref env (TNamed k) = TNamed k ∧ Name env (TNamed k) = nm) as Hname
    by (intros k ty E; unfold deref, under, Name; by rewrite E).
  destruct (Hname i ti Hi) as [Di Ni], (Hname j tj Hj) as [Dj Nj]. unfold Schema_. cbn [mbind option_bind]. rewrite Di, Ni, Dj, Nj.
  rewrite !decide_True by done. destruct (schemas b !! nm) as [s|] eqn:Es; cbn [mbind option_bind snd schemas].
  - rewrite decide_True by done. by rewrite Es.
  - rewrite decide_True by done. by rewrite lookup_insert_eq.
Qed.

(** A type that refers to itself has no schema, whatever the fuel: the call does not end. *)
Lemma recursive_type_never_ends fuel :
  schema_of fuel {[1%nat := ("Node", false, TStruct [mkField "Next" (TPtr (TNamed 1)) "next" "" true false])]} (TNamed 1) = None.
Proof.
  set (env := {[_ := _]}).
  assert (∀ t, t = TNamed 1 ∨ t = TPtr (TNamed 1) → schema_of fuel env t = None) as H; [|apply H; by left].
  induction fuel as [|fuel IH]; [done|]. intros t [-> | ->]; cbn [schema_of].
  - change (under env (deref env (TNamed 1))) with (TStruct [mkField "Next" (TPtr (TNamed 1)) "next" "" true false]).
    cbn [struct_schema]. change (json_tag (mkField "Next" (TPtr (TNamed 1)) "next" "" true false)) with "next". rewrite decide_False by done.
    change (ftype (mkField "Next" (TPtr (TNamed 1)) "next" "" true false)) with (TPtr (TNamed 1)). by rewrite IH by by right.
  - change (under env (deref env (TPtr (TNamed 1)))) with (TStruct [mkField "Next" (TPtr (TNamed 1)) "next" "" true false]).
    cbn [struct_schema]. change (json_tag (mkField "Next" (TPtr (TNamed 1)) "next" "" true false)) with "next". rewrite decide_False by done.
    change (ftype (mkField "Next" (TPtr (TNamed 1)) "next" "" true false)) with (TPtr (TNamed 1)). by rewrite IH by by right.
Qed.

(** A tag with options and no name gives the property the name "", not the field's. *)
Example tag_without_name :
  let f := mkField "Age" (TBasic BInt "int") ",omitempty" "" true false in
  (properties <$> schema_of 2 ∅ (TStruct [f])) = Some [("", typed "integer")] ∧ sent_name f = "Age".
Proof. by vm_compute. Qed.

(** Bytes are sent as a text and documented as numbers; a field that is not exported is documented
    and never sent; a nil pointer is sent as null and documented as its value. *)
Example bytes_documented_as_numbers :
  ∃ s, schema_of 3 ∅ (TSlice (TBasic BUint "uint8")) = Some s ∧
    (conforms s <$> encode (λ _, "AAA=") 3 ∅ (TSlice (TBasic BUint "uint8")) (VList [VInt 0; VInt 0])) = Some false.
Proof. eexists. split; [by vm_compute|]. by vm_compute. Qed.

Example unexported_documented :
  let f := mkField "secret" (TBasic BString "string") "" "" false false in
  ((λ s, length (properties s)) <$> schema_of 2 ∅ (TStruct [f])) = Some 1%nat ∧
  encode (λ _, "") 3 ∅ (TStruct [f]) (VStruct [VStr "x"]) = Some (JObj []).
Proof. by vm_compute. Qed.

Example nil_documented_as_value :
  ∃ s, schema_of 3 ∅ (TPtr (TBasic BInt "int")) = Some s ∧ (conforms s <$> encode (λ _, "") 3 ∅ (TPtr (TBasic BInt "int")) VNil) = Some false.
Proof. eexists. split; [by vm_compute|]. by vm_compute. Qed.

(** The limits of a binding are not taken over. *)
Example min_and_max_dropped :
  let f b := mkField "N" (TBasic BInt "int") "n" b true false in
  schema_of 2 ∅ (TStruct [f "min=1,max=9"]) = schema_of 2 ∅ (TStruct [f ""]).
Proof. by vm_compute. Qed.

(** A wildcard segment has no parameter, and every route that starts like the package's own is left out. *)
Example wildcard_has_no_parameter : extractPathParams "/static/*filepath" = [].
Proof. by vm_compute. Qed.

Example swaggerish_route_skipped : skipped (mkRoute "GET" "/swaggerhub/teams" "h") = true.
Proof. done. Qed.

(** After a handler has been made, a new path shows in what it serves and a new title does not, nor
    the first security scheme. *)
Example served_document :
  let b := NewBuilder in
  let item := mkPathItem "s" [] [] None ∅ in
  let served := Handler b (BearerAuth "jwt" (GET "/a" item (Title "Orders" b))) in
  info_Title (info served) = "API" ∧ (Paths served !! "/a" ≫= (.!! "get")) = Some item ∧ SecuritySchemes served = None.
Proof. by vm_compute. Qed.

End Swagger.
