(* ===== verification/Server.v ===== *)
(** * The server process (src/server/server.go)

    [Run] and [Wait] as processes: the goroutine that listens, the signal they
    wait for and the shutdown.  What listening and shutting down come to is up
    to the standard library and the machine, and any outcome is allowed. *)

From S2P Require Import Prelude.

Module Server.

(** ** The server *)

Record Server := mkServer { Addr : string; shutdownTS : Duration }.

Definition Option := Server → Server.

Definition WithShutdownTimeout (d : Duration) : Option := λ s, mkServer (Addr s) d.

Definition New (addr : string) (opts : list Option) : Server := foldl (λ s opt, opt s) (mkServer addr (30 * Second)) opts.

Inductive Level := LInfo | LError.

(** What the process writes to its log, with the number in the message if there is one. *)
Inductive Log := mkLine (l : Level) (msg : string) (index : Z).

(** How [ListenAndServe] ends, when it does. *)
Inductive Listen := ListenClosed | ListenFailed (e : string) | ListenNil.

Definition listen_log (r : Listen) : list Log :=
  match r with ListenFailed e => [mkLine LError "HTTP 服务启动失败" 0] | ListenClosed | ListenNil => [] end.

(** The goroutine: not started, listening, ended. *)
Inductive Listener := NotStarted | Listening | ListenerEnded.

(** [Run] returns at [at_], having been signalled at [since]. *)
Inductive Main := Waiting | ShuttingDown (since : Time) | Returned (since at_ : Time) (e : option string).

Record Process := mkProcess { server : Server; listener : Listener; main : Main; clock : Time; log : list Log }.

(** [Run] up to its wait. *)
Definition Run (s : Server) (now : Time) : Process := mkProcess s NotStarted Waiting now [].

(** [Start] goes on at once, and reports no error. *)
Definition Start (s : Server) (now : Time) : option string * Process := (None, mkProcess s NotStarted (Returned now now None) now []).

Definition Run_default (addr : string) : Time → Process := Run (New addr []).

Definition RunWithTimeout (addr : string) (timeout : Duration) : Time → Process := Run (New addr [WithShutdownTimeout timeout]).

Inductive Event :=
| EListen                         (** the goroutine runs *)
| EListenEnds (r : Listen)
| ESignal
| EShutdownEnds (e : option string)  (** [Shutdown] returns, by the deadline of its context or before *)
| ETick (d : Duration).

#[export] Instance Listen_eq_dec : EqDecision Listen.
Proof. solve_decision. Defined.

#[export] Instance Event_eq_dec : EqDecision Event.
Proof. solve_decision. Defined.

Definition step (ev : Event) (p : Process) : option Process :=
  match ev, listener p, main p with
  | EListen, NotStarted, _ => Some (mkProcess (server p) Listening (main p) (clock p) (log p ++ [mkLine LInfo "HTTP 服务已启动" 0]))
  | EListenEnds r, Listening, _ => Some (mkProcess (server p) ListenerEnded (main p) (clock p) (log p ++ listen_log r))
  | ESignal, _, Waiting => Some (mkProcess (server p) (listener p) (ShuttingDown (clock p)) (clock p) (log p ++ [mkLine LInfo "正在关闭 HTTP 服务" 0]))
  | EShutdownEnds e, _, ShuttingDown since =>
      if clock p <=? since + Z.max 0 (shutdownTS (server p)) then
        Some (mkProcess (server p) (listener p)
          (Returned since (clock p) (match e with Some e => Some ("HTTP 服务关闭失败: " +:+ e)%string | None => None end)) (clock p)
          (log p ++ [match e with Some _ => mkLine LError "HTTP 服务关闭失败" 0 | None => mkLine LInfo "HTTP 服务已停止" 0 end]))
      else None
  | ETick d, _, m =>
      if (0 <=? d) && match m with ShuttingDown since => clock p + d <=? since + Z.max 0 (shutdownTS (server p)) | _ => true end
      then Some (mkProcess (server p) (listener p) (main p) (clock p + d) (log p)) else None
  | _, _, _ => None
  end.

Fixpoint run (evs : list Event) (p : Process) : option Process :=
  match evs with [] => Some p | ev :: evs => p ← step ev p; run evs p end.

(** ** Hooks at the end *)

(** A hook is given the deadline of the shared context; it returns an error or
    none, at some instant. *)
Definition ShutdownHook := Time → Time → option string * Time.

Record GracefulShutdown := mkGraceful { hooks : list ShutdownHook; timeout : Duration; onSignal : bool }.

Definition NewGracefulShutdown (timeout : Duration) : GracefulShutdown := mkGraceful [] timeout false.

Definition AddHook (hook : ShutdownHook) (g : GracefulShutdown) : GracefulShutdown := mkGraceful (hooks g ++ [hook]) (timeout g) (onSignal g).

Definition OnSignal (g : GracefulShutdown) : GracefulShutdown := mkGraceful (hooks g) (timeout g) true.

(** The hooks called, by number, with the deadline each was given. *)
Fixpoint run_hooks (hs : list ShutdownHook) (i total : Z) (deadline now : Time) : list (Z * Time) * list Log * Time :=
  match hs with
  | [] => ([], [], now)
  | hook :: hs =>
      let '(err, t) := hook deadline now in
      let lines := mkLine LInfo "执行关闭钩子" (i + 1) :: match err with Some _ => [mkLine LError "关闭钩子执行失败" (i + 1)] | None => [] end in
      let '(called, ls, t) := run_hooks hs (i + 1) total deadline t in
      ((i, deadline) :: called, lines ++ ls, t)
  end.

(** From the signal on; whether the callback was called, the hooks, the log, the
    instant of the return and its error. *)
Definition Wait (g : GracefulShutdown) (now : Time) : bool * list (Z * Time) * list Log * Time * option string :=
  let '(called, ls, t) := run_hooks (hooks g) 0 (Z.of_nat (length (hooks g))) (now + timeout g) now in
  (onSignal g, called, mkLine LInfo "开始执行关闭钩子" 0 :: ls ++ [mkLine LInfo "所有关闭钩子执行完成" 0], t, None).

(** The given hooks do not look at the context; the line each logs is left out. *)
Definition HookCloseDB (closeFunc : Time → option string * Time) : ShutdownHook := λ _ now, closeFunc now.
Definition HookCloseRedis (closeFunc : Time → option string * Time) : ShutdownHook := λ _ now, closeFunc now.
Definition HookCloseMQ (closeFunc : Time → option string * Time) : ShutdownHook := λ _ now, closeFunc now.

(** ** What the theorems speak of *)

Definition errors_at (ls : list Log) : list Z := omap (λ l, match l with mkLine LError _ i => Some i | _ => None end) ls.

(** The numbers of the hooks that fail, from [i] on. *)
Fixpoint failing (hs : list ShutdownHook) (i : Z) (deadline now : Time) : list Z :=
  match hs with
  | [] => []
  | hook :: hs =>
      let '(err, t) := hook deadline now in
      match err with Some _ => [i + 1] | None => [] end ++ failing hs (i + 1) deadline t
  end.

(** Started at [now]: the shutdown is on time. *)
Definition punctual (s : Server) (now : Time) (p : Process) : Prop :=
  server p = s ∧ now ≤ clock p ∧
  match main p with
  | Waiting => True
  | ShuttingDown since => now ≤ since ≤ clock p ∧ clock p ≤ since + Z.max 0 (shutdownTS s)
  | Returned since at_ _ => now ≤ since ≤ at_ ∧ at_ ≤ since + Z.max 0 (shutdownTS s)
  end.

(** ** Lemmas *)

Lemma step_punctual s now ev p p' : punctual s now p → step ev p = Some p' → punctual s now p'.
Proof.
  intros (<- & Hc & Hm) E. unfold step, punctual in *. destruct p as [sv l m c lg]. cbn [server listener main clock log] in *.
  destruct ev, l, m; repeat case_match; simplify_eq/=; split_and!; try done; try lia.
Qed.

Lemma run_punctual s now evs : ∀ p p', punctual s now p → run evs p = Some p' → punctual s now p'.
Proof.
  induction evs as [|ev evs IH]; intros p p' Hp E; [by simplify_eq/=|]. cbn [run] in E. destruct (step ev p) as [p1|] eqn:E1; [|done].
  cbn [mbind option_bind] in E. apply (IH p1 p'); [|done]. by apply (step_punctual s now ev p).
Qed.

Lemma waits_for_signal evs : ∀ p p', run evs p = Some p' → ESignal ∉ evs → main p = Waiting → main p' = Waiting.
Proof.
  induction evs as [|ev evs IH]; intros p p' E Hn Hw; [by simplify_eq/=|]. apply not_elem_of_cons in Hn as [Hne Hn].
  cbn [run] in E. destruct (step ev p) as [p1|] eqn:E1; [|done]. cbn [mbind option_bind] in E. apply (IH p1 p' E Hn).
  unfold step in E1. rewrite Hw in E1. destruct ev, (listener p); repeat case_match; simplify_eq/=; done.
Qed.

Lemma run_hooks_spec hs : ∀ i total deadline now,
  (run_hooks hs i total deadline now).1.1 = (λ k, (i + Z.of_nat k, deadline)) <$> seq 0 (length hs) ∧
  errors_at (run_hooks hs i total deadline now).1.2 = failing hs i deadline now.
Proof.
  induction hs as [|h hs IH]; intros i total deadline now; [done|]. cbn [run_hooks failing length].
  destruct (h deadline now) as [err t]. specialize (IH (i + 1) total deadline t).
  destruct (run_hooks hs (i + 1) total deadline t) as [[called ls] t']. cbn [fst snd] in *. destruct IH as [-> IHe]. split.
  - cbn [seq fmap list_fmap]. f_equal; [f_equal; lia|]. rewrite <- fmap_S_seq, <- list_fmap_compose.
    apply list_fmap_ext. intros _ k _. cbn. f_equal. lia.
  - unfold errors_at in *. rewrite omap_app, IHe. by destruct err.
Qed.

(** ** Theorems *)

(** Every hook is called, in the order they were added and with one shared deadline, whatever
    the others return; the errors are logged by number, and [Wait] returns none of them. *)
Theorem hooks_all_called (g : GracefulShutdown) (now : Time) :
  let '(signalled, called, lines, _, err) := Wait g now in
  called = (λ k, (Z.of_nat k, now + timeout g)) <$> seq 0 (length (hooks g)) ∧
  errors_at lines = failing (hooks g) 0 (now + timeout g) now ∧ signalled = onSignal g ∧ err = None.
Proof.
  unfold Wait. pose proof (run_hooks_spec (hooks g) 0 (Z.of_nat (length (hooks g))) (now + timeout g) now) as [H1 H2].
  destruct (run_hooks _ _ _ _ _) as [[called ls] t]. cbn [fst snd] in *. split_and!; try done.
  unfold errors_at in *. change (mkLine LInfo "开始执行关闭钩子" 0 :: ls ++ _) with ([mkLine LInfo "开始执行关闭钩子" 0] ++ ls ++ [mkLine LInfo "所有关闭钩子执行完成" 0]).
  rewrite !omap_app, H2. simpl. by rewrite app_nil_r.
Qed.

(** [Run] returns only after a signal, however listening ends, and then within the
    shutdown timeout of it. *)
Theorem run_returns_in_time (s : Server) (evs : list Event) now p since at_ e :
  run evs (Run s now) = Some p → main p = Returned since at_ e →
  ESignal ∈ evs ∧ now ≤ since ≤ at_ ∧ at_ ≤ since + Z.max 0 (shutdownTS s).
Proof.
  intros E Hr.
  assert (punctual s now (Run s now)) as H0 by (split_and!; simpl; done || lia).
  destruct (run_punctual s now evs _ _ H0 E) as (_ & _ & Hp). rewrite Hr in Hp. split; [|lia].
  destruct (decide (ESignal ∈ evs)) as [|Hn]; [done|]. exfalso.
  pose proof (waits_for_signal evs _ _ E Hn eq_refl). congruence.
Qed.

Lemma run_returns_in_time_witness :
  let s := New ":8080" [WithShutdownTimeout (10 * Second)] in
  let evs := [EListen; ETick 5; ESignal; ETick (10 * Second); EShutdownEnds (Some "context deadline exceeded")] in
  ∃ p, run evs (Run s 0) = Some p ∧ 5 + 10 * Second ≤ 5 + Z.max 0 (shutdownTS s).
Proof.
  intros s evs. eexists. split; [by vm_compute|].
  refine (proj2 (proj2 (run_returns_in_time s evs 0 (default (Run s 0) (run evs (Run s 0))) 5 _ (Some _) _ _))); by vm_compute.
Defined.

(** A server that cannot listen waits for a signal all the same, and [Start] says nothing. *)
Example failed_listen_still_waits :
  main <$> run [EListen; EListenEnds (ListenFailed "address already in use"); ETick (3600 * Second)] (Run (New ":80" []) 0) = Some Waiting.
Proof. by vm_compute. Qed.

Example start_reports_nothing s now : (Start s now).1 = None.
Proof. done. Qed.

(** A hook that takes the whole of the time leaves none to the others, whose context is over. *)
Example slow_hook_starves_others :
  let slow : ShutdownHook := λ deadline now, (None, deadline) in
  let late : ShutdownHook := λ deadline now, (if deadline <=? now then Some "context deadline exceeded" else None, now) in
  failing [slow; late] 0 10 0 = [2].
Proof. done. Qed.

End Server.
