(* ===== verification/EventStream.v ===== *)
(** * Server-sent events and the answers of a context (src/gctx/context.go)

    [EventStream] starts a goroutine that writes what the handler puts into a
    channel of ten, until the channel is closed or the request's context is
    over.  The handler, the goroutine and the end of the request interleave. *)

From S2P Require Import Prelude.

Module EventStream.

(** ** Answers *)

Inductive Data := DNil | DAny (v : string).

Record Answer := mkAnswer { http_code : Z; code : Z; msg : string; data : Data }.

Definition Success (d : Data) : Answer := mkAnswer 200 0 "success" d.

Definition Error (code : Z) (msg : string) : Answer := mkAnswer 200 code msg DNil.

(** ** The stream *)

Definition capacity : nat := 10.

Definition stream_headers : gmap string string :=
  {["Content-Type" := "text/event-stream"; "Cache-Control" := "no-cache"; "Connection" := "keep-alive"; "X-Accel-Buffering" := "no"]}.

(** [sent] is what has been written and flushed, event by event; [pushed] what the
    channel has taken. *)
Record Stream := mkStream {
  headers : gmap string string;
  eventCh : list string;
  closed : bool;
  cancelled : bool;
  running : bool;
  sent : list string;
  pushed : list string
}.

(** The headers are set over those there are. *)
Definition EventStream (hs : gmap string string) : Stream := mkStream (stream_headers ∪ hs) [] false false true [] [].

Definition sendEvent (data : string) (s : Stream) : Stream :=
  mkStream (headers s) (eventCh s) (closed s) (cancelled s) (running s) (sent s ++ [data]) (pushed s).

Inductive Event := EPush (data : string) | EClose | ECancel | EReceive | EDone.

(** [None] where the step cannot be taken: a send into a full channel waits, one
    into a closed channel panics. *)
Definition step (ev : Event) (s : Stream) : option (Stream * unit) :=
  match ev with
  | EPush d =>
      if negb (closed s) && bool_decide (length (eventCh s) < capacity)%nat
      then Some (mkStream (headers s) (eventCh s ++ [d]) (closed s) (cancelled s) (running s) (sent s) (pushed s ++ [d]), tt) else None
  | EClose => if closed s then None else Some (mkStream (headers s) (eventCh s) true (cancelled s) (running s) (sent s) (pushed s), tt)
  | ECancel => Some (mkStream (headers s) (eventCh s) (closed s) true (running s) (sent s) (pushed s), tt)
  | EReceive =>
      if running s then
        match eventCh s with
        | d :: ds =>
            let s := mkStream (headers s) ds (closed s) (cancelled s) true (sent s) (pushed s) in
            Some (if decide (d = "") then s else sendEvent d s, tt)
        | [] => if closed s then Some (mkStream (headers s) [] true (cancelled s) false (sent s) (pushed s), tt) else None
        end
      else None
  | EDone =>
      if running s && cancelled s
      then Some (mkStream (headers s) (eventCh s) (closed s) true false (sent s) (pushed s), tt) else None
  end.

(** ** What the theorems speak of *)

Definition worth_sending (ds : list string) : list string := filter (λ d, d ≠ "") ds.

(** What has been sent, and then what waits, is what was pushed; the goroutine ends
    only with the channel closed and empty, or the request over. *)
Definition in_order (s : Stream) : Prop :=
  (∃ taken, pushed s = taken ++ eventCh s ∧ sent s = worth_sending taken) ∧
  (length (eventCh s) ≤ capacity)%nat ∧
  (running s = false → cancelled s = true ∨ closed s = true ∧ eventCh s = []).

Definition stays_open (_ : Stream) (ev : Event) : Prop := match ev with ECancel => False | _ => True end.

(** ** Lemmas *)

Lemma step_in_order s ev s' r : in_order s → True → step ev s = Some (s', r) → in_order s'.
Proof.
  intros ((taken & Hp & Hs) & Hc & Hr) _ E. unfold step in E. destruct ev as [d| | | |].
  - destruct (closed s) eqn:Ec; [done|]. case_bool_decide as Hlt; [|done]. simplify_eq/=. split_and!; cbn.
    + exists taken. rewrite Hp, <- app_assoc. done.
    + rewrite length_app. simpl. lia.
    + intros H. destruct (Hr H) as [|[]]; [by left|congruence].
  - destruct (closed s); [done|]. simplify_eq/=. split_and!; cbn; [by exists taken|done|]. intros H. destruct (Hr H) as [|[]]; [by left|by right].
  - simplify_eq/=. split_and!; cbn; [by exists taken|done|by left].
  - destruct (running s) eqn:Er; [|done]. destruct (eventCh s) as [|d ds] eqn:Ech.
    + destruct (closed s); [|done]. simplify_eq/=. split_and!; cbn; [exists taken; by rewrite Hp|lia|by right].
    + assert (∃ taken', pushed s = taken' ++ ds ∧ (if decide (d = "") then sent s else sent s ++ [d]) = worth_sending taken') as Htaken.
      { exists (taken ++ [d]). rewrite <- app_assoc. split; [done|]. unfold worth_sending in *. rewrite filter_app, Hs, filter_cons.
        destruct (decide (d = "")) as [->|]; [by rewrite decide_False by naive_solver; rewrite app_nil_r|by rewrite decide_True]. }
      simplify_eq/=. unfold in_order, sendEvent. destruct (decide (d = "")); cbn; split_and!; (done || lia || by intros).
  - destruct (running s) eqn:Er; [|done]. destruct (cancelled s) eqn:Ec; [|done]. simplify_eq/=. split_and!; cbn; [by exists taken|done|by left].
Qed.

Lemma open_step s ev s' r : cancelled s = false → stays_open s ev → step ev s = Some (s', r) → cancelled s' = false.
Proof.
  intros Hc Hev E. unfold step, sendEvent in E. rewrite ?Hc, ?andb_false_r in E. destruct ev; try done; repeat case_match; by simplify_eq/=.
Qed.

Lemma EventStream_in_order hs : in_order (EventStream hs).
Proof. split_and!; cbn; [by exists []|unfold capacity; lia|done]. Qed.

(** A closed channel is emptied by the goroutine, one event a step. *)
Lemma drain ds : ∀ s, eventCh s = ds → closed s = true → running s = true →
  ∃ s' rs, run_steps step (replicate (S (length ds)) EReceive) s = Some (s', rs) ∧ running s' = false ∧ eventCh s' = [] ∧
    sent s' = sent s ++ worth_sending ds.
Proof.
  induction ds as [|d ds IH]; intros s Hch Hc Hr.
  - cbn [length replicate run_steps step]. rewrite Hr, Hch, Hc. do 2 eexists. split; [done|]. cbn. split_and!; try done.
    unfold worth_sending. by rewrite app_nil_r.
  - set (s0 := mkStream (headers s) ds (closed s) (cancelled s) true (sent s) (pushed s)).
    set (s1 := if decide (d = "") then s0 else sendEvent d s0).
    assert (step EReceive s = Some (s1, tt)) as Hstep by (unfold step; by rewrite Hr, Hch).
    assert (eventCh s1 = ds ∧ closed s1 = true ∧ running s1 = true ∧ sent s1 = sent s ++ worth_sending [d]) as (H1 & H2 & H3 & H4).
    { unfold s1, s0, worth_sending, sendEvent. rewrite filter_cons. destruct (decide (d = "")); cbn; rewrite Hc.
      - rewrite decide_False by naive_solver. by rewrite app_nil_r.
      - by rewrite decide_True by done. }
    destruct (IH s1 H1 H2 H3) as (s' & rs & Hrun & Hr' & Hch' & Hsent).
    change (replicate (S (length (d :: ds))) EReceive) with (EReceive :: replicate (S (length ds)) EReceive).
    set (evs := replicate (S (length ds)) EReceive) in *. cbn [run_steps]. rewrite Hstep. cbn [mbind option_bind]. rewrite Hrun.
    do 2 eexists. split; [done|]. split_and!; try done. rewrite Hsent, H4, <- app_assoc. unfold worth_sending. by rewrite <- filter_app.
Qed.

(** ** Theorems *)

(** A stream keeps its order and, while the request lasts, loses nothing: in every
    interleaving the client has got, in order, the non-empty events taken from the
    channel so far; and if the request is not over when the handler closes the channel,
    the goroutine can still send all the rest, and ends. *)
Theorem stream_in_order hs evs s rs :
  run_steps step evs (EventStream hs) = Some (s, rs) →
  (∃ taken, pushed s = taken ++ eventCh s ∧ sent s = worth_sending taken) ∧ (length (eventCh s) ≤ capacity)%nat ∧
  (along step stays_open evs (EventStream hs) → closed s = true →
    ∃ more s' rs', run_steps step more s = Some (s', rs') ∧ running s' = false ∧ sent s' = worth_sending (pushed s)).
Proof.
  intros Hrun.
  destruct (run_steps_invariant step in_order (λ _ _, True) step_in_order evs _ _ _ (EventStream_in_order hs)
    (along_intro step (λ _ _, True) (λ _ _, I) evs _) Hrun) as ((taken & Hp & Hs) & Hc & Hr).
  split; [by exists taken|]. split; [done|]. intros Hal Hcl.
  pose proof (run_steps_invariant step (λ s, cancelled s = false) stays_open open_step evs (EventStream hs) s rs eq_refl Hal Hrun) as Hopen.
  destruct (running s) eqn:Er.
  - destruct (drain (eventCh s) s eq_refl Hcl Er) as (s' & rs' & Hmore & Hend & _ & Hsent).
    exists (replicate (S (length (eventCh s))) EReceive), s', rs'. split; [done|]. split; [done|].
    rewrite Hsent, Hs, Hp. unfold worth_sending. by rewrite filter_app.
  - destruct (Hr eq_refl) as [?|[_ Hempty]]; [congruence|]. exists [], s, []. split_and!; try done.
    by rewrite Hs, Hp, Hempty, app_nil_r.
Qed.

Lemma stream_in_order_witness :
  let evs := [EPush "a"; EPush ""; EReceive; EPush "b"; EReceive; EClose] in
  let s := from_option fst (EventStream ∅) (run_steps step evs (EventStream ∅)) in
  sent s = ["a"] ∧ ∃ more s' rs', run_steps step more s = Some (s', rs') ∧ sent s' = ["a"; "b"].
Proof.
  intros evs s. split; [by vm_compute|].
  destruct (stream_in_order ∅ evs s (replicate 6 tt)) as (_ & _ & H); [by vm_compute|].
  destruct H as (more & s' & rs' & H1 & _ & H2); [by cbn|by vm_compute|]. exists more, s', rs'. split; [done|]. rewrite H2. by vm_compute.
Defined.

(** ** What the code does besides *)

(** Once the request is over the goroutine may end with events in the channel. *)
Example handler_returns_too_early :
  (λ x, (sent x.1, eventCh x.1)) <$> run_steps step [EPush "a"; EPush "b"; ECancel; EDone] (EventStream ∅) = Some ([], ["a"; "b"]).
Proof. by vm_compute. Qed.

(** And a handler that does not look at the context then waits for ever at its eleventh event. *)
Lemma abandoned_stream_blocks s evs s' rs :
  running s = false → length (eventCh s) = capacity → run_steps step evs s = Some (s', rs) →
  ∀ d, step (EPush d) s' = None.
Proof.
  intros Hr Hl Hrun d.
  assert (running s' = false ∧ length (eventCh s') = capacity) as [_ Hl'].
  { revert s Hr Hl rs Hrun. induction evs as [|ev evs IH]; intros s Hr Hl rs Hrun; [by simplify_eq/=|].
    destruct (run_steps_cons _ _ _ _ _ _ Hrun) as (s1 & r & rs' & E1 & E2 & ->).
    assert (running s1 = false ∧ length (eventCh s1) = capacity) as [H1 H2]; [|by eapply IH].
    unfold step in E1. rewrite Hr in E1. destruct ev as [d'| | | |]; try done.
    - rewrite bool_decide_false, andb_false_r in E1 by lia. done.
    - destruct (closed s); by simplify_eq/=.
    - by simplify_eq/=. }
  unfold step. rewrite bool_decide_false by lia. by rewrite andb_false_r.
Qed.

End EventStream.
